(* ===== verification/_CoqProject ===== *)
-Q . S2P
Prelude.v
RoundRobin.v
Interfaces.v
Wakeup.v
Reference.v
Error.v
Buffer.v
BufferLogic.v
Conn.v
DriverTypes.v
DriverStore.v
DriverCore.v
DriverRecv.v
DriverSend.v
Driver.v
DriverLogic.v
StoreLogic.v
DriverInv.v
Cursor.v
Fairness.v
DriverSendInv.v
Trace.v
DriverReach.v
DriverClose.v
DriverIds.v
DriverBytes.v
Finish.v
DriverRecvBytes.v
DriverProgress.v
DriverTeardown.v
Stream.v
StreamLogic.v
System.v
Outbound.v
Typing.v
Directions.v
Accounting.v
Delivery.v
Handshake.v
Endpoint.v
Setup.v
Listener.v
Connector.v
Bidi.v
Arena.v
TestKit.v
DriverReadTests.v
DriverSendTests.v
DriverCloseTests.v
StreamTests.v
BufferTests.v
EndpointTests.v
Runs.v
Witness.v
