(* ===== verification/Prelude.v ===== *)
(** * quiche-h3: a model of the QUIC bridge between h3 and tokio-quiche

    quiche-h3 lets the h3 crate run over tokio-quiche.  One worker per connection
    (a [QuicheDriver], called back by tokio-quiche) owns the quiche connection; the
    objects h3 polls (connection, opener, stream halves) are the front end.  They
    meet in shared objects only: a command channel towards the worker, byte and
    accept channels towards the front end, one-shot replies, sticky terminal
    cells, reusable write completions, atomic flags and a byte accounting.  An
    endpoint registry knows the workers of a server, closes them all and waits for
    them; the acceptor and the connector build connections.

    ** Which file models what (sources under src/quiche-h3/src/)

    - [Prelude]: record update, the state monad [ST] with its notation and
      logic ([keeps], [exec], [result]), bounded loops, shared lemmas and tactics.
    - [Interfaces]: what is used of tokio (bounded and unbounded mpsc, oneshot,
      Notify), futures' AtomicWaker, bytes' Buf, hash-map iteration order, and the
      error types of quiche and h3, as classes with the documented behaviour as
      laws.  [Reference]: one concrete instance of each.
    - [Error]: error.rs, terminals and their mapping.  [Buffer], [BufferLogic]:
      buffer.rs, the cursor, cells, completions and accounting.  [Conn]: conn.rs,
      the transport trait as a class and the scripted mock of the unit tests.
    - [DriverTypes] (records, commands, budgets, the driver's state and the shared
      [Store]), [DriverStore] (shared objects by address, and what drops do),
      [DriverCore] (registries, queues, terminal transitions), [DriverRecv] (read
      pump, admission, promotion), [DriverSend] (writable scan, operation queues,
      deferred writes, FIN coalescing), [Driver] (commands, opens, close barrier,
      callbacks, teardown, construction and drop): driver.rs.
    - [Stream], [StreamLogic], [Bidi]: stream.rs, the front end.  [System]: the worker
      and the front end interleaved.  [Accounting]: the byte accounting over both.
      [Delivery]: one receive stream from the transport to the application.
      [Outbound]: one send stream from the application to the transport.
      [Typing], [Directions]: which stream ids each half and each transport call
      may carry.  [Handshake]: the blocked/resume and the accept handshake.
    - [Endpoint]: endpoint.rs.  [Setup]: the checks of lib.rs and the parameters of
      the setup code.  [Listener]: listener.rs.  [Connector]: connector.rs.
    - [Wakeup]: the register-then-check discipline as a class, proved once.
      [Trace]: a transport that logs its calls.  [DriverReach]: executions.
      [DriverLogic], [StoreLogic], [DriverInv], [DriverSendInv]: the logic behind
      the invariants.  [Cursor]: the indexed queues against plain lists.
      [RoundRobin], [Fairness]: the order of the send turns and of the drains.
      [Finish]: what a finished stream means.  [Arena]: the read of [DriverRecv]
      with the memory of the receive arena and of the chunks carved from it.
      [Runs]: two concrete runs.  [Witness]: an instance of every theorem that has
      a hypothesis.
    - [TestKit], [DriverReadTests], [DriverSendTests], [DriverCloseTests],
      [StreamTests], [BufferTests], [EndpointTests]: the unit tests of the crate as
      scripts over the model, each named after its test.

    ** How the code is represented

    A Rust struct is a record, an enum an inductive type, each method one
    definition named after it; a long method is cut into named pieces that it
    composes in source order.  The worker's methods are computations in [ST] over
    a [World]: the driver, the store and the transport.  An [Arc] or a channel end
    is an address in the store, so aliases see each other's writes.  The transport
    is any instance of [QuicConn].  [usize] and [u64] are numbers with the bounds
    written out where the code depends on them: checked addition in the byte
    accounting, wrapping generation counters, stream ids and registry ids.  A
    method that another task may interrupt is also given as its single steps (one
    locked section, one notification), which the method composes.

    ** What the theorems show

    - Worker: the registries are well formed in every reachable state
      ([reachable_driver_wf]); bytes are neither lost, reordered nor duplicated in
      either direction, and FIN comes last ([stage_send_fifo],
      [fin_rides_the_last_byte], [transport_gets_what_was_written],
      [fin_seals_after_last_byte]); no call leaves the direction of its stream
      ([calls_are_directed]); the hash sets beside the worker's queues change their
      cost only ([cursors_are_scanned_lists]); work per pass is bounded and the
      worker sleeps only when idle ([read_pump_bounded],
      [phase2_admission_terminates], [parks_only_when_idle]); no stream starves
      another ([stage_send_fair], [phase1_fair]); a stream is reported finished
      exactly when the transport took its FIN ([finish_succeeds_iff_fin_taken]);
      stream ids ([stream_ids_consecutive]).
    - Receive arena: sharing memory with the application is as good as copying
      ([sharing_is_unobservable]) and allocates rarely ([allocation_is_amortised]).
    - Close: at most one close, the first command wins, it is never starved, and
      what h3 is told ([at_most_one_close], [first_close_is_issued],
      [application_close_iff_peer]); teardown answers everything
      ([teardown_publishes], [teardown_resolves]); terminals never change, for any
      interleaving ([system_terminals_final]).
    - Byte accounting: the count is exact over the whole connection
      ([system_accounting_exact]) and bounded ([accounting_bounded]).
    - Cells: refinement of a write-once register ([terminal_cell_refines]), exactly
      one outcome per write ([write_completion_exactly_once]), and no lost wakeup for
      any of the parking objects (the theorems named [*_no_lost_wakeup], all from [Wakeup]).
    - Front end: one write outstanding, in order, one finalizer, stable finish,
      all data before the end ([StreamLogic]); the directions of a bidirectional
      stream do not disturb each other ([halves_are_independent]); what an
      application receives is what the transport returned
      ([stream_received_is_stream_read]).
    - Endpoint, listener, connector: exact registry, admission fence, close
      broadcast, accept loop, validation.
    - Conformance: every translated unit test passes on the model (the theorems
      named [*_tests_pass]), so that the definitions compute what the tests assert
      of the code.
    - Two concrete runs show behaviour the comments or the design document do not
      promise: [late_stop_readmits_finished_stream], [blocked_held_write_spins];
      [Handshake.Buffered] shows what a store buffer does to the handshake.

    ** Bounds and fuel

    Source loops with a budget run through [budget_loop] with that budget.  Two
    loops have none: [phase2_loop] runs for the number of queued ids plus one,
    which [phase2_admission_terminates] shows to be enough; [close_drain_loop] runs
    for the number of commands in the inbox and the closed channel plus one, and
    [teardown_resolves] shows that nothing is left behind.  The loops of
    [wait_idle] and [accept] are relations on their rounds and unbounded.

    ** Not modelled

    The integration tests, which need sockets, and eight of the unit tests, which
    look at addresses or counters, compare constants with h3's, race threads, shake
    hands over loopback or are too large to evaluate.  The executor (who is polled
    when), tracing output, [Debug] implementations and compile-time trait assertions
    (lib.rs), mutex poisoning, and the one-line delegations to tokio-quiche's
    connection and of a connection to its opener.  Memory ordering is sequential consistency except in
    [Handshake.Buffered].  quiche, tokio-quiche, tokio, bytes, h3 and the operating
    system are parameters. *)

From stdpp Require Export base option list list_numbers gmap sets fin_maps strings.
From Stdlib Require Export NArith Lia Strings.Byte.

#[global] Open Scope N_scope.
#[global] Set Default Goal Selector "!".
#[global] Set Warnings "-clear-no-such-hyp".

(** ** Record update

    [r <| f := v |>] is the record [r] with its field [f] replaced, and
    [r <| f ::= g |>] the one with [g] applied to the field.  A record takes
    part once its eta expansion is declared with [Eta]; the setters are then
    derived. *)

Class Eta (R : Type) := eta : R → R.

Class Setter {R T : Type} (field : R → T) := over : (T → T) → R → R.

Ltac derive_setter :=
  lazymatch goal with
  | |- @Setter ?R ?T ?field =>
      let i := constr:(_ : Eta R) in
      let e := eval hnf in i in
      let p := eval pattern field in e in
      lazymatch p with
      | ?g _ => exact (fun f => g (fun r => f (field r)))
      end
  end.

Definition assign {R T : Type} (field : R → T) `{!Setter field} (v : T) (r : R) : R :=
  over (λ _, v) r.

Declare Scope record_scope.
Delimit Scope record_scope with rec.
#[warnings="-postfix-notation-not-level-1"]
Notation "r <| f := v |>" := (assign f v r)
  (at level 12, f at level 11, left associativity, format "r  <| f  :=  v |>").
#[warnings="-postfix-notation-not-level-1"]
Notation "r <| f ::= g |>" := (over (field := f) g r)
  (at level 12, f at level 11, left associativity, format "r  <| f  ::=  g |>").

(** ** A state monad

    The worker's callbacks are synchronous code over mutable state, so they are
    modelled as functions [S → A * S]; [x ← m; k] and [m;; k] are stdpp's
    monadic notations. *)

Definition ST (S A : Type) : Type := S → A * S.

#[export] Instance ST_ret {S} : MRet (ST S) := λ A a s, (a, s).
#[export] Instance ST_bind {S} : MBind (ST S) :=
  λ A B k m s, let r := m s in k r.1 r.2.

Section monad.
Context {S : Type}.

Definition gets {A} (f : S → A) : ST S A := λ s, (f s, s).
Definition modify (f : S → S) : ST S unit := λ s, (tt, f s).
Definition state {A} (f : S → A * S) : ST S A := f.
Definition skip : ST S unit := mret tt.

Definition when (b : bool) (m : ST S unit) : ST S unit := if b then m else skip.

Definition for_some {A} (o : option A) (f : A → ST S unit) : ST S unit :=
  match o with Some a => f a | None => skip end.

Fixpoint for_each {A} (l : list A) (f : A → ST S unit) : ST S unit :=
  match l with
  | [] => skip
  | a :: l => f a;; for_each l f
  end.

(** [while budget > 0 { body; budget -= 1 }], where the body answers [false]
    to [break] before the decrement.  The result is the budget left over. *)
Fixpoint budget_loop (budget : nat) (body : ST S bool) : ST S nat :=
  match budget with
  | O => mret O
  | Datatypes.S b =>
      go ← body;
      if (go : bool) then budget_loop b body else mret budget
  end.

(** What a computation does to the state, whatever it returns. *)
Definition exec {A} (m : ST S A) (s : S) : S := (m s).2.
Definition result {A} (m : ST S A) (s : S) : A := (m s).1.

Lemma exec_bind {A B} (m : ST S A) (k : A → ST S B) s :
  exec (m ≫= k) s = exec (k (result m s)) (exec m s).
Proof. reflexivity. Qed.
Lemma result_bind {A B} (m : ST S A) (k : A → ST S B) s :
  result (m ≫= k) s = result (k (result m s)) (exec m s).
Proof. reflexivity. Qed.
Lemma exec_ret {A} (a : A) s : exec (mret a) s = s.
Proof. reflexivity. Qed.
Lemma result_ret {A} (a : A) (s : S) : result (mret a) s = a.
Proof. reflexivity. Qed.
Lemma exec_gets {A} (f : S → A) s : exec (gets f) s = s.
Proof. reflexivity. Qed.
Lemma result_gets {A} (f : S → A) s : result (gets f) s = f s.
Proof. reflexivity. Qed.
Lemma exec_modify f s : exec (modify f) s = f s.
Proof. reflexivity. Qed.
Lemma exec_skip s : exec skip s = s.
Proof. reflexivity. Qed.
End monad.

Arguments ST_ret {_} _ _ _ /.
#[global] Typeclasses Opaque ST.

(** ** Lists and maps *)

Lemma elem_of_tail {A} (x : A) l : x ∈ tail l → x ∈ l.
Proof. destruct l; [done|]. by right. Qed.

Lemma filter_absent (x : N) (l : list N) : x ∉ l → filter (λ y, y ≠ x) l = l.
Proof.
  induction l as [|y l IH]; [done|]. intros [Hy Hl]%not_elem_of_cons.
  rewrite filter_cons_True by done. by rewrite IH.
Qed.

Lemma list_alter_Some {A} (f : A → A) (l : list A) i x :
  l !! i = Some x → alter f i l = <[i := f x]> l.
Proof.
  intros Hx. apply list_eq. intros j. destruct (decide (i = j)) as [->|].
  - by rewrite list_lookup_alter_eq, list_lookup_insert_eq, Hx by by eapply lookup_lt_Some.
  - by rewrite list_lookup_alter_ne, list_lookup_insert_ne.
Qed.
Lemma list_alter_None {A} (f : A → A) (l : list A) i : l !! i = None → alter f i l = l.
Proof.
  intros Hx. apply list_eq. intros j. destruct (decide (i = j)) as [->|].
  - by rewrite list_lookup_alter_eq, Hx.
  - by rewrite list_lookup_alter_ne.
Qed.

(** [grows val h h']: a heap keeps its objects, and what [val] reads off an
    object, once there, stays. *)
Definition grows {X T} (val : X → option T) : relation (list X) := λ h h',
  ∀ a x, h !! a = Some x → ∃ x', h' !! a = Some x' ∧ ∀ v, val x = Some v → val x' = Some v.

#[export] Instance grows_preorder {X T} (val : X → option T) : PreOrder (grows val).
Proof.
  split.
  - intros h a x Hx. eauto.
  - intros h1 h2 h3 H1 H2 a x Hx. destruct (H1 a x Hx) as (y&Hy&Hv).
    destruct (H2 a y Hy) as (z&Hz&Hw). eauto.
Qed.
Lemma grows_insert {X T} (val : X → option T) (h : list X) a y :
  (∀ x v, h !! a = Some x → val x = Some v → val y = Some v) → grows val h (<[a := y]> h).
Proof.
  intros Hy b x Hx. destruct (decide (a = b)) as [->|].
  - exists y. rewrite list_lookup_insert_eq by by eapply lookup_lt_Some. eauto.
  - exists x. by rewrite list_lookup_insert_ne.
Qed.
Lemma grows_app {X T} (val : X → option T) (h k : list X) : grows val h (h ++ k).
Proof. intros a x Hx. exists x. split; [by apply lookup_app_l_Some | done]. Qed.

(** ** Relational reasoning

    [respects R m]: running [m] from any state leads to an [R]-related one.
    [R] is a preorder in every use, so facts about composite code follow from
    facts about its parts.  An invariant [I] is the preorder [keeps I], a
    quantity that code leaves alone the preorder [same f]. *)

Definition respects {S A} (R : relation S) (m : ST S A) : Prop :=
  ∀ s, R s (exec m s).

Definition keeps {S} (I : S → Prop) : relation S := λ s s', I s → I s'.
Definition same {S T} (f : S → T) : relation S := λ s s', f s' = f s.
Definition both {S} (R1 R2 : relation S) : relation S := λ s s', R1 s s' ∧ R2 s s'.

#[export] Instance keeps_preorder {S} (I : S → Prop) : PreOrder (keeps I).
Proof. split; unfold keeps; repeat intro; auto. Qed.
#[export] Instance same_preorder {S T} (f : S → T) : PreOrder (same f).
Proof. split; unfold same; repeat intro; congruence. Qed.
#[export] Instance both_preorder {S} (R1 R2 : relation S) `{!PreOrder R1, !PreOrder R2} :
  PreOrder (both R1 R2).
Proof.
  split.
  - intros s. split; reflexivity.
  - intros s1 s2 s3 [] []. split; etrans; eauto.
Qed.

(** A relation on a part of the state. *)
Definition on_part {S T} (f : S → T) (R : relation T) : relation S := λ s s', R (f s) (f s').
#[export] Instance on_part_preorder {S T} (f : S → T) (R : relation T) `{!PreOrder R} :
  PreOrder (on_part f R).
Proof. split; [intros s; unfold on_part; reflexivity | intros ? ? ? ? ?; unfold on_part in *; by etrans]. Qed.

(** [triple P m Q]: from a state satisfying [P], [m] returns an [a] in a state
    satisfying [Q a]. *)
Definition triple {S A} (P : S → Prop) (m : ST S A) (Q : A → S → Prop) : Prop :=
  ∀ s, P s → Q (result m s) (exec m s).

Create HintDb steps discriminated.
#[global] Hint Constants Opaque : steps.

Section respects.
Context {S : Type} (R : relation S) `{!PreOrder R}.

Lemma respects_ret {A} (a : A) : respects R (mret a).
Proof. intros s. reflexivity. Qed.
Lemma respects_skip : respects R skip.
Proof. intros s. reflexivity. Qed.
Lemma respects_gets {A} (f : S → A) : respects R (gets f).
Proof. intros s. reflexivity. Qed.
Lemma respects_modify f : (∀ s, R s (f s)) → respects R (modify f).
Proof. intros H s. apply H. Qed.
Lemma respects_state {A} (f : S → A * S) : (∀ s, R s (f s).2) → respects R (state f).
Proof. intros H s. apply H. Qed.
Lemma respects_bind {A B} (m : ST S A) (k : A → ST S B) :
  respects R m → (∀ a, respects R (k a)) → respects R (m ≫= k).
Proof. intros Hm Hk s. rewrite exec_bind. etrans; [apply Hm | apply Hk]. Qed.
(** The same, when the continuation depends on what [m] can return. *)
Lemma respects_bind_result {A B} (m : ST S A) (k : A → ST S B) :
  respects R m → (∀ s, respects R (k (result m s))) → respects R (m ≫= k).
Proof. intros Hm Hk s. rewrite exec_bind. etrans; [apply Hm | apply Hk]. Qed.
Lemma respects_when b m : respects R m → respects R (when b m).
Proof. destruct b; [done | intros _; apply respects_skip]. Qed.
Lemma respects_for_some {A} (o : option A) f :
  (∀ a, o = Some a → respects R (f a)) → respects R (for_some o f).
Proof. destruct o; [by eauto | intros _; apply respects_skip]. Qed.
Lemma respects_for_each {A} (l : list A) f :
  (∀ a, respects R (f a)) → respects R (for_each l f).
Proof.
  intros Hf. induction l as [|a l IH]; simpl.
  - apply respects_skip.
  - by apply respects_bind.
Qed.
Lemma respects_for_each_Forall {A} (l : list A) f :
  Forall (λ a, respects R (f a)) l → respects R (for_each l f).
Proof.
  induction 1 as [|a l Ha _ IH]; simpl; [apply respects_skip | by apply respects_bind].
Qed.
Lemma respects_budget_loop n body :
  respects R body → respects R (budget_loop n body).
Proof.
  intros Hb. induction n as [|n IH]; simpl.
  - apply respects_ret.
  - apply respects_bind; [done|]. intros []; [done | apply respects_ret].
Qed.
End respects.

Lemma respects_mono {S A} (R1 R2 : relation S) (m : ST S A) :
  (∀ s s', R1 s s' → R2 s s') → respects R1 m → respects R2 m.
Proof. intros H Hm s. apply H, Hm. Qed.

Lemma respects_both {S A} (R1 R2 : relation S) (m : ST S A) :
  respects R1 m → respects R2 m → respects (both R1 R2) m.
Proof. intros H1 H2 s. split; [apply H1 | apply H2]. Qed.

(** What each round of a [for_each] establishes, and the others keep, holds of
    every element at the end; [Inv] is what the rounds may rely on. *)
Lemma for_each_establishes {S A} (R : relation S) `{!PreOrder R} (Inv : S → Prop)
    (P : A → S → Prop) (f : A → ST S unit) (l : list A) s a :
  (∀ a, respects R (f a)) → (∀ s s', R s s' → Inv s → Inv s') →
  (∀ a s s', R s s' → P a s → P a s') →
  (∀ a s, Inv s → P a (exec (f a) s)) → Inv s → a ∈ l → P a (exec (for_each l f) s).
Proof.
  intros Hf HI HP He Hs Ha. revert s Hs. induction l as [|b l IH]; intros s Hs.
  { by apply elem_of_nil in Ha. }
  simpl. rewrite exec_bind. apply elem_of_cons in Ha as [->|]; [|apply IH; [done|]].
  - eapply HP; [|by apply He]. by apply respects_for_each.
  - eapply HI; [|done]. apply Hf.
Qed.

(** Walk through the structure of a computation, leaving the primitive state
    changes the hint database [steps] does not know. *)
Ltac respects_step :=
  first
    [ solve [ eauto 2 with steps nocore ]
    | apply respects_bind; [typeclasses eauto | | intros ? ]
    | apply respects_ret; typeclasses eauto
    | apply respects_skip; typeclasses eauto
    | apply respects_gets; typeclasses eauto
    | apply respects_when; [typeclasses eauto |]
    | apply respects_for_each; [typeclasses eauto | intros ?]
    | apply respects_budget_loop; [typeclasses eauto |]
    | apply respects_for_some; [typeclasses eauto | intros ? ? ]
    | match goal with
      | |- respects _ (match ?x with _ => _ end) => destruct x eqn:?
      end
    | apply respects_modify; intros ?
    | apply respects_state; intros ? ].
Ltac respects_go := repeat respects_step.

(** Prove a related pair of states from the computation that leads from one to
    the other. *)
Ltac by_respects tac :=
  lazymatch goal with
  | |- ?R ?w (exec ?m ?w) =>
      let Hm := fresh in assert (respects R m) as Hm; [tac | apply Hm]
  end.
