(* ===== verification/RoundRobin.v ===== *)
(** * Round robin

    A budgeted loop over a queue whose turn takes the head and puts it back last,
    or not at all, serves what it finds in the order of the queue. *)

From S2P Require Import Prelude.

(** The loop's queue, when a turn can be taken, and what turns preserve. *)
Class RoundRobin {S : Type} (queue : S → list N) (ready : S → bool) (turn : ST S bool)
    (wf : S → Prop) : Prop := {
  rr_serves s id q :
    wf s → ready s = true → queue s = id :: q →
    let s' := exec turn s in
    result turn s = true ∧ wf s' ∧ ∃ again, again `sublist_of` [id] ∧ queue s' = q ++ again;
  rr_stops s :
    queue s = [] ∨ ready s = false →
    let s' := exec turn s in
    result turn s = false ∧ queue s' = queue s ∧ ready s' = ready s;
}.

Section round_robin.
Context {S : Type} (queue : S → list N) (ready : S → bool) (turn : ST S bool) (wf : S → Prop).

(** The ids the first [n] turns serve, in order. *)
Fixpoint served (n : nat) (s : S) : list N :=
  match n with
  | O => []
  | Datatypes.S n =>
      match queue s with
      | [] => []
      | id :: _ => if ready s then id :: served n (exec turn s) else []
      end
  end.

Lemma served_le n s : (length (served n s) ≤ n)%nat.
Proof.
  revert s. induction n as [|n IH]; intros s; simpl; [lia|].
  destruct (queue s); simpl; [lia|]. destruct (ready s); simpl; [|lia]. specialize (IH (exec turn s)). lia.
Qed.

(** As long as the turns do not come round, they serve the front of the queue and
    leave the rest in front of those that come back; and they end early only when
    the queue is empty or no turn can be taken. *)
Record rotated (n : nat) (s s' : S) : Prop := {
  rot_front : (length (served n s) ≤ length (queue s))%nat →
    served n s = take (length (served n s)) (queue s) ∧
    ∃ again, again `sublist_of` served n s ∧ queue s' = drop (length (served n s)) (queue s) ++ again;
  rot_round : (length (queue s) ≤ length (served n s))%nat → queue s `prefix_of` served n s;
  rot_early : (length (served n s) < n)%nat → queue s' = [] ∨ ready s' = false;
}.

Context `{!RoundRobin queue ready turn wf}.

Lemma rotated_nil n s s' :
  served n s = [] → queue s' = queue s → (n = 0%nat ∨ queue s' = [] ∨ ready s' = false) → rotated n s s'.
Proof.
  intros Hd Hq He. split; rewrite Hd; simpl.
  - intros _. split; [done|]. exists []. by rewrite app_nil_r.
  - by intros ->%Nat.le_0_r%length_zero_iff_nil.
  - destruct He; [lia|done].
Qed.

Lemma rotates n s : wf s → rotated n s (exec (budget_loop n turn) s).
Proof.
  revert s. induction n as [|n IH]; intros s Hs; [by apply rotated_nil; [..|left]|].
  simpl. rewrite exec_bind. destruct (decide (queue s = [] ∨ ready s = false)) as [Hx|Hx].
  { destruct (rr_stops s Hx) as (->&Hq&Hr). rewrite exec_ret.
    apply rotated_nil; [|done|right; by rewrite Hq, Hr].
    simpl. destruct (queue s); [done|]. by destruct Hx as [? | ->]. }
  destruct (queue s) as [|id q] eqn:Hq; [tauto|]. destruct (ready s) eqn:Hr; [|tauto].
  destruct (rr_serves s id q Hs Hr Hq) as (->&Hs1&a1&Ha1&Hq1).
  destruct (IH _ Hs1) as [H1 H2 H3]. rewrite Hq1, length_app in H1, H2.
  assert (served (Datatypes.S n) s = id :: served n (exec turn s)) as Hd by (simpl; by rewrite Hq, Hr).
  split; rewrite Hd, ?Hq; set (d := served n (exec turn s)) in *; clearbody d; simpl.
  - intros Hle. destruct H1 as [Ht (a2&Ha2&Hp)]; [lia|]. rewrite take_app_le in Ht by lia.
    rewrite drop_app_le in Hp by lia. split; [by rewrite <-Ht|].
    exists (a1 ++ a2). split; [by apply (sublist_app a1 [id] a2 d)|by rewrite Hp, app_assoc].
  - intros Hle. apply prefix_cons. destruct (decide (length d ≤ length q + length a1)%nat) as [?|?].
    + destruct H1 as [-> _]; [done|]. rewrite take_app_ge by lia. by eexists.
    + destruct H2 as [k ->]; [lia|]. rewrite <-app_assoc. by eexists.
  - intros Hlt. apply H3. lia.
Qed.
End round_robin.
