(* ===== verification/Interfaces.v ===== *)
(** * The libraries the bridge is built on

    quiche-h3 calls tokio's channels, the futures crate's [AtomicWaker], the
    bytes crate's [Buf] and the standard [HashMap].  None of that code is part
    of the repository, so each is a parameter of the development: a class with
    the operations the bridge calls and, as laws, the documented behaviour it
    relies on.  A channel's laws are stated on a *view* of its state; the
    operations themselves stay abstract.  [Reference] holds one concrete
    instance of every class. *)

From S2P Require Import Prelude.

Abbreviation Bytes := (list byte).

(** A task handle, as [std::task::Waker]; [will_wake] is equality. *)
Abbreviation Waker := nat.

Inductive Poll (A : Type) : Type :=
| Ready (a : A)
| Pending.
Arguments Ready {A} a.
Arguments Pending {A}.

(** Rust's [Result]. *)
Inductive Result (A E : Type) : Type :=
| Ok (a : A)
| Err (e : E).
Arguments Ok {A E} a.
Arguments Err {A E} e.

Definition map_err {A E F} (f : E → F) (r : Result A E) : Result A F :=
  match r with Ok a => Ok a | Err e => Err (f e) end.

Definition usize_max : N := 2 ^ 64 - 1.
Definition u64_wrap (n : N) : N := n mod 2 ^ 64.

(** ** [futures::task::AtomicWaker] *)

Class AtomicWaker := {
  atomic_waker : Type;
  aw_new : atomic_waker;
  aw_register : Waker → atomic_waker → atomic_waker;
  aw_wake : atomic_waker → option Waker * atomic_waker;
  (** the task the next [wake] wakes *)
  aw_registered : atomic_waker → option Waker;
  aw_registered_new : aw_registered aw_new = None;
  aw_registered_register w a : aw_registered (aw_register w a) = Some w;
  aw_wake_registered a : (aw_wake a).1 = aw_registered a;
  aw_registered_wake a : aw_registered (aw_wake a).2 = None;
}.

(** ** [tokio::sync::mpsc] *)

Record ChanState (A : Type) : Type := mkChanState {
  cs_queue : list A;
  cs_cap : option nat;        (* [None]: an unbounded channel *)
  cs_reserved : nat;          (* permits handed out, not yet used *)
  cs_rx_open : bool;          (* the receiver is neither closed nor dropped *)
  cs_senders : nat;           (* strong senders *)
}.
Arguments mkChanState {A}.
Arguments cs_queue {A}. Arguments cs_cap {A}. Arguments cs_reserved {A}.
Arguments cs_rx_open {A}. Arguments cs_senders {A}.

#[export] Instance ChanState_eta {A} : Eta (ChanState A) :=
  λ r, mkChanState (cs_queue r) (cs_cap r) (cs_reserved r) (cs_rx_open r) (cs_senders r).
#[export] Instance set_cs_queue {A} : Setter (@cs_queue A).
Proof. derive_setter. Defined.
#[export] Instance set_cs_reserved {A} : Setter (@cs_reserved A).
Proof. derive_setter. Defined.
#[export] Instance set_cs_rx_open {A} : Setter (@cs_rx_open A).
Proof. derive_setter. Defined.
#[export] Instance set_cs_senders {A} : Setter (@cs_senders A).
Proof. derive_setter. Defined.

Definition cs_full {A} (c : ChanState A) : bool :=
  match cs_cap c with
  | None => false
  | Some cap => (cap <=? length (cs_queue c) + cs_reserved c)%nat
  end.

Inductive Reserve := Reserved | ReserveFull | ReserveClosed.
Inductive TryRecv (A : Type) := Received (a : A) | TryEmpty | TryDisconnected.
Arguments Received {A} a.
Arguments TryEmpty {A}.
Arguments TryDisconnected {A}.

#[export] Instance Reserve_eq_dec : EqDecision Reserve.
Proof. solve_decision. Defined.

Definition view_reserve {A} (c : ChanState A) : Reserve :=
  if negb (cs_rx_open c) then ReserveClosed
  else if cs_full c then ReserveFull else Reserved.

Definition view_recv {A} (c : ChanState A) : TryRecv A :=
  match cs_queue c with
  | a :: _ => Received a
  | [] => if negb (cs_rx_open c) || (cs_senders c =? 0)%nat then TryDisconnected else TryEmpty
  end.

Definition poll_of_recv {A} (r : TryRecv A) : Poll (option A) :=
  match r with
  | Received a => Ready (Some a)
  | TryEmpty => Pending
  | TryDisconnected => Ready None
  end.

Class Mpsc := {
  chan : Type → Type;
  chan_view : ∀ {A}, chan A → ChanState A;

  chan_new : ∀ {A}, option nat → chan A;
  chan_try_reserve : ∀ {A}, chan A → Reserve * chan A;
  chan_permit_send : ∀ {A}, A → chan A → chan A;
  chan_permit_drop : ∀ {A}, chan A → chan A;
  chan_send : ∀ {A}, A → chan A → bool * chan A;      (* unbounded; [false]: [Err] *)
  chan_try_recv : ∀ {A}, chan A → TryRecv A * chan A;
  chan_poll_recv : ∀ {A}, Waker → chan A → Poll (option A) * chan A;
  chan_close : ∀ {A}, chan A → chan A;                (* [Receiver::close] *)
  chan_drop_rx : ∀ {A}, chan A → list A * chan A;     (* the undelivered values *)
  chan_clone_tx : ∀ {A}, chan A → chan A;
  chan_drop_tx : ∀ {A}, chan A → chan A;
  chan_upgrade : ∀ {A}, chan A → option (chan A);     (* [WeakSender::upgrade] *)

  chan_new_view : ∀ A cap,
    chan_view (chan_new (A := A) cap) = mkChanState [] cap 0 true 1;
  chan_try_reserve_res : ∀ A (c : chan A),
    (chan_try_reserve c).1 = view_reserve (chan_view c);
  chan_try_reserve_view : ∀ A (c : chan A),
    chan_view (chan_try_reserve c).2 =
    if decide (view_reserve (chan_view c) = Reserved)
    then chan_view c <| cs_reserved ::= S |> else chan_view c;
  chan_permit_send_view : ∀ A (a : A) (c : chan A), cs_rx_open (chan_view c) = true →
    chan_view (chan_permit_send a c) =
    chan_view c <| cs_reserved ::= pred |> <| cs_queue ::= λ q, q ++ [a] |>;
  chan_permit_drop_view : ∀ A (c : chan A),
    chan_view (chan_permit_drop c) = chan_view c <| cs_reserved ::= pred |>;
  chan_send_res : ∀ A (a : A) (c : chan A), (chan_send a c).1 = cs_rx_open (chan_view c);
  chan_send_view : ∀ A (a : A) (c : chan A),
    chan_view (chan_send a c).2 =
    if cs_rx_open (chan_view c)
    then chan_view c <| cs_queue ::= λ q, q ++ [a] |> else chan_view c;
  chan_try_recv_res : ∀ A (c : chan A), (chan_try_recv c).1 = view_recv (chan_view c);
  chan_try_recv_view : ∀ A (c : chan A),
    chan_view (chan_try_recv c).2 = chan_view c <| cs_queue ::= tail |>;
  chan_poll_recv_res : ∀ A w (c : chan A),
    (chan_poll_recv w c).1 = poll_of_recv (view_recv (chan_view c));
  chan_poll_recv_view : ∀ A w (c : chan A),
    chan_view (chan_poll_recv w c).2 = chan_view c <| cs_queue ::= tail |>;
  chan_close_view : ∀ A (c : chan A),
    chan_view (chan_close c) = chan_view c <| cs_rx_open := false |>;
  chan_drop_rx_res : ∀ A (c : chan A), (chan_drop_rx c).1 = cs_queue (chan_view c);
  chan_drop_rx_view : ∀ A (c : chan A),
    chan_view (chan_drop_rx c).2 =
    chan_view c <| cs_rx_open := false |> <| cs_queue := [] |>;
  chan_clone_tx_view : ∀ A (c : chan A),
    chan_view (chan_clone_tx c) = chan_view c <| cs_senders ::= S |>;
  chan_drop_tx_view : ∀ A (c : chan A),
    chan_view (chan_drop_tx c) = chan_view c <| cs_senders ::= pred |>;
  chan_upgrade_view : ∀ A (c : chan A),
    chan_view <$> chan_upgrade c =
    if (cs_senders (chan_view c) =? 0)%nat then None
    else Some (chan_view c <| cs_senders ::= S |>);
}.

Create Rewrite HintDb chan.
#[export] Hint Rewrite @chan_new_view @chan_try_reserve_res @chan_try_reserve_view
  @chan_permit_drop_view @chan_send_res @chan_send_view @chan_try_recv_res
  @chan_try_recv_view @chan_poll_recv_res @chan_poll_recv_view @chan_close_view
  @chan_drop_rx_res @chan_drop_rx_view @chan_clone_tx_view @chan_drop_tx_view : chan.

(** ** [tokio::sync::oneshot] *)

Record OneState (A : Type) : Type := mkOneState {
  os_value : option A;        (* sent, not yet received *)
  os_tx : bool;               (* the sender is still alive *)
  os_rx : bool;               (* the receiver is still alive *)
}.
Arguments mkOneState {A}.
Arguments os_value {A}. Arguments os_tx {A}. Arguments os_rx {A}.

Class Oneshot := {
  oneshot : Type → Type;
  os_view : ∀ {A}, oneshot A → OneState A;
  os_new : ∀ {A}, oneshot A;
  os_send : ∀ {A}, A → oneshot A → bool * oneshot A;    (* [false]: undeliverable *)
  os_is_closed : ∀ {A}, oneshot A → bool;
  os_poll : ∀ {A}, Waker → oneshot A → Poll (option A) * oneshot A;
                                        (* [Ready None]: the sender was dropped *)
  os_drop_tx : ∀ {A}, oneshot A → oneshot A;
  os_drop_rx : ∀ {A}, oneshot A → option A * oneshot A;

  os_new_view : ∀ A, os_view (os_new (A := A)) = mkOneState None true true;
  os_send_res : ∀ A (a : A) o, (os_send a o).1 = os_rx (os_view o);
  os_send_view : ∀ A (a : A) o,
    os_view (os_send a o).2 =
    mkOneState (if os_rx (os_view o) then Some a else os_value (os_view o)) false
               (os_rx (os_view o));
  os_is_closed_res : ∀ A (o : oneshot A), os_is_closed o = negb (os_rx (os_view o));
  os_poll_res : ∀ A w (o : oneshot A),
    (os_poll w o).1 =
    match os_value (os_view o) with
    | Some a => Ready (Some a)
    | None => if os_tx (os_view o) then Pending else Ready None
    end;
  os_poll_view : ∀ A w (o : oneshot A),
    os_view (os_poll w o).2 = mkOneState None (os_tx (os_view o)) (os_rx (os_view o));
  os_drop_tx_view : ∀ A (o : oneshot A),
    os_view (os_drop_tx o) = mkOneState (os_value (os_view o)) false (os_rx (os_view o));
  os_drop_rx_res : ∀ A (o : oneshot A), (os_drop_rx o).1 = os_value (os_view o);
  os_drop_rx_view : ∀ A (o : oneshot A),
    os_view (os_drop_rx o).2 = mkOneState None (os_tx (os_view o)) false;
}.

#[export] Hint Rewrite @os_new_view @os_send_res @os_send_view @os_is_closed_res
  @os_poll_res @os_poll_view @os_drop_tx_view @os_drop_rx_res @os_drop_rx_view : chan.

(** ** [tokio::sync::Notify]

    A waiter, named by a number, is a [Notified] future that was created and
    enabled; [notify_waiters] reaches every waiter enabled by then, and stores
    nothing for later ones. *)

Class Notify := {
  notify : Type;
  nt_new : notify;
  nt_enable : nat → notify → notify;
  nt_notify_waiters : notify → notify;
  nt_poll : nat → notify → bool;          (* the waiter's future is ready *)
  nt_drop : nat → notify → notify;        (* the future is dropped *)
  nt_waiting : notify → gset nat;         (* enabled, not notified *)
  nt_notified : notify → gset nat;
  nt_new_waiting : nt_waiting nt_new = ∅;
  nt_new_notified : nt_notified nt_new = ∅;
  nt_enable_waiting i n : nt_waiting (nt_enable i n) = {[i]} ∪ nt_waiting n;
  nt_enable_notified i n : nt_notified (nt_enable i n) = nt_notified n ∖ {[i]};
  nt_notify_waiting n : nt_waiting (nt_notify_waiters n) = ∅;
  nt_notify_notified n : nt_notified (nt_notify_waiters n) = nt_notified n ∪ nt_waiting n;
  nt_poll_res i n : nt_poll i n = bool_decide (i ∈ nt_notified n);
  nt_drop_waiting i n : nt_waiting (nt_drop i n) = nt_waiting n ∖ {[i]};
  nt_drop_notified i n : nt_notified (nt_drop i n) = nt_notified n ∖ {[i]};
}.

(** ** [bytes::Buf]

    A cursor over bytes that may lie in several segments: [chunk] is the current
    segment only.  [buf_bytes] is what is still to be read. *)

Class Buf (B : Type) := {
  buf_bytes : B → Bytes;
  buf_remaining : B → N;
  buf_chunk : B → Bytes;
  buf_advance : N → B → B;
  buf_remaining_bytes b : buf_remaining b = N.of_nat (length (buf_bytes b));
  buf_chunk_prefix b : buf_chunk b `prefix_of` buf_bytes b;
  buf_chunk_nonempty b : buf_bytes b ≠ [] → buf_chunk b ≠ [];
  buf_advance_bytes n b : n ≤ buf_remaining b →
    buf_bytes (buf_advance n b) = drop (N.to_nat n) (buf_bytes b);
}.

(** [Buf::has_remaining]. *)
Definition buf_has_remaining `{Buf B} (b : B) : bool := 0 <? buf_remaining b.

(** ** [std::collections::HashMap]

    A map is a [gmap]; the order in which it is iterated is unspecified. *)

Class HashOrder := {
  hash_iter : ∀ {A}, gmap N A → list (N * A);
  hash_iter_perm : ∀ A (m : gmap N A), hash_iter m ≡ₚ map_to_list m;
}.

Section hash_order.
Context `{HashOrder}.

Lemma elem_of_hash_iter {A} (m : gmap N A) k a :
  (k, a) ∈ hash_iter m ↔ m !! k = Some a.
Proof. rewrite hash_iter_perm. apply elem_of_map_to_list. Qed.

Lemma NoDup_hash_iter_keys {A} (m : gmap N A) : NoDup (hash_iter m).*1.
Proof. rewrite hash_iter_perm. apply NoDup_fst_map_to_list. Qed.
End hash_order.

(** ** Values of quiche and h3

    The variants of [quiche::Error] the bridge tells apart, with [OtherError]
    for all the rest ([TlsFail], [CryptoFail], ...); quiche's connection error;
    and h3's two error types, whose [Undefined] carries an opaque boxed error,
    here of type [E]. *)

Module quiche.
Inductive Error :=
| Done
| StreamReset (code : N)
| StreamStopped (code : N)
| StreamLimit
| InvalidState
| InvalidStreamState (id : N)
| FinalSize
| FlowControl
| OtherError (tag : N).

Record ConnectionError := mkConnectionError {
  is_app : bool;
  error_code : N;
  reason : Bytes;
}.

(** [Shutdown::Read] sends STOP_SENDING, [Shutdown::Write] RESET_STREAM. *)
Inductive Shutdown := Read | Write.

#[global] Instance Error_eq_dec : EqDecision Error.
Proof. solve_decision. Defined.
#[global] Instance Shutdown_eq_dec : EqDecision Shutdown.
Proof. solve_decision. Defined.
End quiche.

Inductive ConnectionErrorIncoming (E : Type) :=
| ApplicationClose (error_code : N)
| Timeout
| InternalError (msg : string)
| Undefined (e : E).
Arguments ApplicationClose {E}. Arguments Timeout {E}.
Arguments InternalError {E}. Arguments Undefined {E}.

Inductive StreamErrorIncoming (E : Type) :=
| StreamTerminated (error_code : N)
| StreamConnectionError (connection_error : ConnectionErrorIncoming E).
Arguments StreamTerminated {E}. Arguments StreamConnectionError {E}.
