(* ===== verification/Wakeup.v ===== *)
(** * Parking without losing a wakeup

    Several objects of the bridge let a task sleep until a condition holds: a
    terminal cell, a write completion, the send-byte accounting, the endpoint's
    idle and accept notifications.  All follow one discipline.  The waiting side
    makes itself known first and checks the condition afterwards; the other side
    changes the state first and notifies afterwards.  [Parking] states what such
    an object promises about its single steps; the theorem of this file is that
    no interleaving of the steps leaves the waiting side asleep with its
    condition true and nobody left to wake it.  Each object discharges the class
    with the steps its own code is composed of. *)

From S2P Require Import Prelude Interfaces.

Class Parking (St : Type) := {
  pk_ready : St → Prop;           (* the condition waited for *)
  pk_armed : St → Prop;           (* the waiting task is where a notify looks *)
  pk_arm : St → St;               (* register the waiting task *)
  pk_publish : relation St;       (* a change whose author still has to notify *)
  pk_other : relation St;         (* any other change *)
  pk_local : relation St;         (* what the waiting side does while it runs *)
  pk_notify : St → bool * St;     (* [true]: the waiting task was woken *)
  pk_valid : St → Prop;           (* the object is configured to let tasks wait *)
  pk_arm_valid s : pk_valid s → pk_valid (pk_arm s);
  pk_publish_valid s s' : pk_publish s s' → pk_valid s → pk_valid s';
  pk_other_valid s s' : pk_other s s' → pk_valid s → pk_valid s';
  pk_local_valid s s' : pk_local s s' → pk_valid s → pk_valid s';
  pk_notify_valid s : pk_valid s → pk_valid (pk_notify s).2;
  pk_arm_armed s : pk_valid s → pk_armed (pk_arm s);
  pk_publish_armed s s' : pk_publish s s' → pk_armed s → pk_armed s';
  pk_other_armed s s' : pk_other s s' → pk_armed s → pk_armed s';
  pk_other_ready s s' : pk_other s s' → pk_ready s' → pk_ready s;
  pk_notify_wakes s : pk_valid s → pk_armed s → (pk_notify s).1 = true;
  pk_notify_ready s : pk_ready (pk_notify s).2 → pk_ready s;
}.

Section parking.
Context {St : Type} `{!Parking St}.

(** Where the waiting task is: running, between registering and checking, or
    asleep. *)
Inductive Phase := Running | Armed | Asleep.

Record Config := mkConfig {
  shared_st : St;
  phase : Phase;
  owed : nat;                     (* changes whose notify has not run yet *)
  wake_up : bool;                 (* the waiting task has been woken *)
}.

Inductive pk_step : relation Config :=
| step_arm s o b :
    pk_step (mkConfig s Running o b) (mkConfig (pk_arm s) Armed o false)
| step_ready s o b : pk_ready s →
    pk_step (mkConfig s Armed o b) (mkConfig s Running o b)
| step_sleep s o b : ¬ pk_ready s →
    pk_step (mkConfig s Armed o b) (mkConfig s Asleep o b)
| step_resume s o :
    pk_step (mkConfig s Asleep o true) (mkConfig s Running o true)
| step_publish s s' p o b : pk_publish s s' →
    pk_step (mkConfig s p o b) (mkConfig s' p (S o) b)
| step_other s s' p o b : pk_other s s' →
    pk_step (mkConfig s p o b) (mkConfig s' p o b)
| step_local s s' o b : pk_local s s' →
    pk_step (mkConfig s Running o b) (mkConfig s' Running o b)
| step_notify s p o b :
    pk_step (mkConfig s p (S o) b)
      (mkConfig (pk_notify s).2 p o (b || (pk_notify s).1)).

Definition pk_reachable (s0 : St) : Config → Prop := rtc pk_step (mkConfig s0 Running 0 false).

Record pk_inv (c : Config) : Prop := {
  inv_valid : pk_valid (shared_st c);
  inv_armed : phase c ≠ Running → wake_up c = false → pk_armed (shared_st c);
  inv_owed : phase c = Asleep → wake_up c = false → pk_ready (shared_st c) → (0 < owed c)%nat;
}.

Lemma pk_step_inv c c' : pk_step c c' → pk_inv c → pk_inv c'.
Proof.
  intros [] [Hv Ha Ho]; simpl in *; split; simpl; intros; try done;
    eauto using pk_arm_valid, pk_arm_armed, pk_publish_valid, pk_publish_armed, pk_other_valid,
      pk_other_armed, pk_other_ready, pk_local_valid, pk_notify_valid with lia.
  - destruct b; [done|]. by rewrite pk_notify_wakes in * by auto.
  - destruct b; [done|]. rewrite pk_notify_wakes in *; [done..|].
    apply Ha; [by destruct p | done].
Qed.

Lemma pk_reachable_inv s0 c : pk_valid s0 → pk_reachable s0 c → pk_inv c.
Proof. intros Hs. apply rtc_ind_r; [by split|]. eauto using pk_step_inv. Qed.

(** Asleep with the condition true: the task was woken, or the author of some
    change has yet to notify, and whoever notifies next wakes it. *)
Lemma pk_no_lost_wakeup s0 c :
  pk_valid s0 → pk_reachable s0 c → phase c = Asleep → pk_ready (shared_st c) →
  wake_up c = true ∨ ((0 < owed c)%nat ∧ (pk_notify (shared_st c)).1 = true).
Proof.
  intros Hs [Hv Ha Ho]%pk_reachable_inv Hp Hr; [|done].
  destruct (wake_up c) eqn:Hw; [by left|right].
  split; [by apply Ho|]. apply pk_notify_wakes, Ha; [done | by rewrite Hp | done].
Qed.
End parking.
