(* ===== verification/Reference.v ===== *)
(** * Reference instances of the library interfaces

    A queue for a channel, a cell for a oneshot, a slot for a waker, a list of
    segments for a buffer.  The theorems hold for every instance of the
    interfaces; these are the ones the concrete runs use, and they show the
    laws can be satisfied together. *)

From S2P Require Import Prelude Interfaces.

#[export, refine] Instance ref_waker : AtomicWaker := {
  atomic_waker := option Waker;
  aw_new := None;
  aw_register w _ := Some w;
  aw_wake a := (a, None);
  aw_registered a := a;
}.
Proof. all: done. Defined.

#[export, refine] Instance ref_mpsc : Mpsc := {
  chan := ChanState;
  chan_view A c := c;
  chan_new A cap := mkChanState [] cap 0 true 1;
  chan_try_reserve A c :=
    (view_reserve c,
     if decide (view_reserve c = Reserved) then c <| cs_reserved ::= S |> else c);
  chan_permit_send A a c := c <| cs_reserved ::= pred |> <| cs_queue ::= λ q, q ++ [a] |>;
  chan_permit_drop A c := c <| cs_reserved ::= pred |>;
  chan_send A a c :=
    (cs_rx_open c, if cs_rx_open c then c <| cs_queue ::= λ q, q ++ [a] |> else c);
  chan_try_recv A c := (view_recv c, c <| cs_queue ::= tail |>);
  chan_poll_recv A w c := (poll_of_recv (view_recv c), c <| cs_queue ::= tail |>);
  chan_close A c := c <| cs_rx_open := false |>;
  chan_drop_rx A c := (cs_queue c, c <| cs_rx_open := false |> <| cs_queue := [] |>);
  chan_clone_tx A c := c <| cs_senders ::= S |>;
  chan_drop_tx A c := c <| cs_senders ::= pred |>;
  chan_upgrade A c :=
    if (cs_senders c =? 0)%nat then None else Some (c <| cs_senders ::= S |>);
}.
Proof. all: try done. intros A c. by destruct (cs_senders c =? 0)%nat. Defined.

#[export, refine] Instance ref_oneshot : Oneshot := {
  oneshot := OneState;
  os_view A o := o;
  os_new A := mkOneState None true true;
  os_send A a o := (os_rx o, mkOneState (if os_rx o then Some a else os_value o) false (os_rx o));
  os_is_closed A o := negb (os_rx o);
  os_poll A w o :=
    (match os_value o with
     | Some a => Ready (Some a)
     | None => if os_tx o then Pending else Ready None
     end, mkOneState None (os_tx o) (os_rx o));
  os_drop_tx A o := mkOneState (os_value o) false (os_rx o);
  os_drop_rx A o := (os_value o, mkOneState None (os_tx o) false);
}.
Proof. all: done. Defined.

(** A buffer of segments, as h3's [WriteBuf] of an encoded header and a
    payload. *)
Definition Segments : Type := list Bytes.

Fixpoint seg_chunk (b : Segments) : Bytes :=
  match b with
  | [] => []
  | [] :: b => seg_chunk b
  | s :: _ => s
  end.

Fixpoint seg_advance (n : nat) (b : Segments) : Segments :=
  match b with
  | [] => []
  | s :: b => if (n <? length s)%nat then drop n s :: b else seg_advance (n - length s) b
  end.

Lemma seg_chunk_prefix b : seg_chunk b `prefix_of` concat b.
Proof.
  induction b as [|s b IH]; simpl; [done|].
  destruct s; [done|]. by apply prefix_app_r.
Qed.

Lemma seg_chunk_nonempty b : concat b ≠ [] → seg_chunk b ≠ [].
Proof. induction b as [|[|] b IH]; simpl; done. Qed.

Lemma seg_advance_concat n b :
  (n ≤ length (concat b))%nat → concat (seg_advance n b) = drop n (concat b).
Proof.
  revert n. induction b as [|s b IH]; intros n Hn; simpl in *.
  - by rewrite drop_nil.
  - rewrite length_app in Hn. rewrite drop_app.
    destruct (Nat.ltb_spec n (length s)) as [Hlt|Hge]; simpl.
    + replace (n - length s)%nat with 0%nat by lia. by rewrite drop_0.
    + rewrite IH by lia. by rewrite (drop_ge s) by lia.
Qed.

#[export, refine] Instance ref_buf : Buf Segments := {
  buf_bytes b := concat b;
  buf_remaining b := N.of_nat (length (concat b));
  buf_chunk := seg_chunk;
  buf_advance n b := seg_advance (N.to_nat n) b;
  buf_chunk_prefix := seg_chunk_prefix;
  buf_chunk_nonempty := seg_chunk_nonempty;
}.
Proof.
  - done.
  - intros n b Hn. apply seg_advance_concat. lia.
Defined.

#[export, refine] Instance ref_hash : HashOrder := {
  hash_iter A m := map_to_list m;
}.
Proof. done. Defined.

(** A notifier as the two sets of its waiters. *)
#[export, refine] Instance ref_notify : Notify := {
  notify := gset nat * gset nat;
  nt_new := (∅, ∅);
  nt_enable i n := ({[i]} ∪ n.1, n.2 ∖ {[i]});
  nt_notify_waiters n := (∅, n.2 ∪ n.1);
  nt_poll i n := bool_decide (i ∈ n.2);
  nt_drop i n := (n.1 ∖ {[i]}, n.2 ∖ {[i]});
  nt_waiting n := n.1;
  nt_notified n := n.2;
}.
Proof. all: done. Defined.
