(* ===== verification/Error.v ===== *)
(** * Terminal reasons and error mapping (error.rs)

    The reasons for which a connection, a receive direction or a send direction
    ends; how quiche's errors are classified into them; and how they are shown
    to h3. *)

From S2P Require Import Prelude Interfaces.
From Stdlib Require Import HexString.

Definition H3_NO_ERROR : N := 0x100.
Definition H3_REQUEST_CANCELLED : N := 0x10c.

Inductive CloseOrigin := Peer | Local.

#[export] Instance CloseOrigin_eq_dec : EqDecision CloseOrigin.
Proof. solve_decision. Defined.

Inductive ConnTerminal :=
| AppClose (origin : CloseOrigin) (error_code : N) (reason : Bytes)
| Transport (origin : CloseOrigin) (error_code : N)
| TimedOut
| Internal (msg : string).

Inductive RecvEnd :=
| RecvFin
| RecvReset (error_code : N)
| RecvConn (t : ConnTerminal).

Inductive SendEnd :=
| SendStopped (error_code : N)
| SendReset (error_code : N)
| SendConn (t : ConnTerminal).

#[export] Instance byte_eq_dec : EqDecision byte := Byte.byte_eq_dec.
#[export] Instance ConnTerminal_eq_dec : EqDecision ConnTerminal.
Proof. solve_decision. Defined.
#[export] Instance RecvEnd_eq_dec : EqDecision RecvEnd.
Proof. solve_decision. Defined.
#[export] Instance SendEnd_eq_dec : EqDecision SendEnd.
Proof. solve_decision. Defined.

(** ** Reason to h3 error *)

(** The errors the bridge boxes into h3's [Undefined]. *)
Inductive BoxedError :=
| LocalConnectionClose (error_code : N) (is_app : bool)
| TransportTerminal (error_code : N) (from_peer : bool).

Abbreviation h3_conn_error := (ConnectionErrorIncoming BoxedError).
Abbreviation h3_stream_error := (StreamErrorIncoming BoxedError).

(** [Display] of the boxed errors; [HexString.of_N] renders as [{:#x}] does. *)
Definition display_boxed (e : BoxedError) : string :=
  match e with
  | LocalConnectionClose error_code is_app =>
      let kind := if is_app then "application" else "transport" in
      "connection closed locally (" +:+ kind +:+ " error code "
        +:+ HexString.of_N error_code +:+ ")"
  | TransportTerminal error_code from_peer =>
      let who := if from_peer then "peer" else "local" in
      "quic transport error (code " +:+ HexString.of_N error_code +:+ ", "
        +:+ who +:+ "-initiated)"
  end.

Definition conn_to_h3 (t : ConnTerminal) : h3_conn_error :=
  match t with
  | AppClose Peer error_code _ => ApplicationClose error_code
  | AppClose Local error_code _ => Undefined (LocalConnectionClose error_code true)
  | Transport origin error_code =>
      Undefined (TransportTerminal error_code (bool_decide (origin = Peer)))
  | TimedOut => Timeout
  | Internal msg => InternalError msg
  end.

(** [None] is a clean end of stream. *)
Definition recv_to_h3 (e : RecvEnd) : option h3_stream_error :=
  match e with
  | RecvFin => None
  | RecvReset error_code => Some (StreamTerminated error_code)
  | RecvConn t => Some (StreamConnectionError (conn_to_h3 t))
  end.

Definition send_to_h3 (e : SendEnd) : h3_stream_error :=
  match e with
  | SendStopped error_code | SendReset error_code => StreamTerminated error_code
  | SendConn t => StreamConnectionError (conn_to_h3 t)
  end.

Definition internal_stream_error (msg : string) : h3_stream_error :=
  StreamConnectionError (InternalError msg).

(** ** quiche error to reason *)

Definition conn_terminal_from_error (origin : CloseOrigin) (err : quiche.ConnectionError)
    : ConnTerminal :=
  if quiche.is_app err
  then AppClose origin (quiche.error_code err) (quiche.reason err)
  else Transport origin (quiche.error_code err).

Inductive StreamRecvClass :=
| RClassReset (code : N)
| RClassDone
| RClassConnGone
| RClassBug (msg : string).

Definition classify_stream_recv_error (err : quiche.Error) : StreamRecvClass :=
  match err with
  | quiche.StreamReset code => RClassReset code
  | quiche.Done => RClassDone
  | quiche.InvalidState | quiche.InvalidStreamState _
  | quiche.FinalSize | quiche.FlowControl => RClassConnGone
  | _ => RClassBug "unexpected stream_recv error"
  end.

Inductive StreamSendClass :=
| SClassStopped (code : N)
| SClassBlocked
| SClassLimit
| SClassConnGone
| SClassBug (msg : string).

Definition classify_stream_send_error (err : quiche.Error) : StreamSendClass :=
  match err with
  | quiche.StreamStopped code => SClassStopped code
  | quiche.Done => SClassBlocked
  | quiche.StreamLimit => SClassLimit
  | quiche.InvalidState | quiche.InvalidStreamState _
  | quiche.FinalSize | quiche.FlowControl => SClassConnGone
  | _ => SClassBug "unexpected stream_send error"
  end.

(** ** Facts *)

(** A locally originated terminal is never shown to h3 as a peer's
    application close: [ApplicationClose] is exactly what a peer's application
    close of that code maps to. *)
Theorem application_close_only_from_peer (t : ConnTerminal) (code : N) :
  conn_to_h3 t = ApplicationClose code ↔ ∃ reason, t = AppClose Peer code reason.
Proof. destruct t as [[]| | |]; naive_solver. Qed.
