(* ===== verification/Buffer.v ===== *)
(** * Buffers and out-of-band cells (buffer.rs)

    The send cursor [send_from_buf], the sticky one-shot [TerminalCell], the
    reusable [WriteCompletion] cell and the aggregate send-byte accounting.
    Each operation is a function on the state of its object; one that wakes a
    task also returns the waker. *)

From S2P Require Import Prelude Interfaces Error.

Definition MAX_CHUNK : N := 16 * 1024.

(** ** The send cursor *)

(** One [stream_send] turn: offer the current segment to [sink] and advance by
    what it accepted.  The sink may have a state of its own. *)
Definition send_from_buf {B S} `{Buf B} (buf : B)
    (sink : Bytes → ST S (Result N quiche.Error)) : ST S (Result N quiche.Error * B) :=
  if negb (buf_has_remaining buf) then mret (Ok 0, buf)
  else
    let chunk := buf_chunk buf in
    r ← sink chunk;
    match r with
    | Err e => mret (Err e, buf)
    | Ok written => mret (Ok written, buf_advance written buf)
    end.

(** ** Terminal cells *)

Section terminal_cell.
Context `{AtomicWaker}.

Record TerminalCell (T : Type) := mkTerminalCell {
  tc_value : option T;
  tc_waker : atomic_waker;
}.
Arguments mkTerminalCell {T}.
Arguments tc_value {T}. Arguments tc_waker {T}.

Definition tc_new {T} : TerminalCell T := mkTerminalCell None aw_new.

(** The locked part of [set]: [false] if a value was already there. *)
Definition tc_install {T} (value : T) (c : TerminalCell T) : bool * TerminalCell T :=
  match tc_value c with
  | Some _ => (false, c)
  | None => (true, mkTerminalCell (Some value) (tc_waker c))
  end.
Definition tc_wake {T} (c : TerminalCell T) : option Waker * TerminalCell T :=
  let r := aw_wake (tc_waker c) in (r.1, mkTerminalCell (tc_value c) r.2).

(** First writer wins; only an installed value wakes the poller. *)
Definition tc_set {T} (value : T) (c : TerminalCell T)
    : bool * option Waker * TerminalCell T :=
  let i := tc_install value c in
  if i.1 then let w := tc_wake i.2 in (true, w.1, w.2) else (false, None, i.2).

Definition tc_get {T} (c : TerminalCell T) : option T := tc_value c.
Definition tc_register {T} (cx : Waker) (c : TerminalCell T) : TerminalCell T :=
  mkTerminalCell (tc_value c) (aw_register cx (tc_waker c)).

(** Read, register, read again. *)
Definition tc_poll {T} (cx : Waker) (c : TerminalCell T) : Poll T * TerminalCell T :=
  match tc_get c with
  | Some v => (Ready v, c)
  | None =>
      let c := tc_register cx c in
      match tc_get c with
      | Some v => (Ready v, c)
      | None => (Pending, c)
      end
  end.
End terminal_cell.
Arguments mkTerminalCell {_ T}.
Arguments tc_value {_ T}. Arguments tc_waker {_ T}.

(** ** Write completions *)

Inductive WriteOutcome (E : Type) :=
| WriteDone (r : Result unit E)
| WriteCancelled.
Arguments WriteDone {E} r.
Arguments WriteCancelled {E}.

(** The carrier of one generation's completion; [wcr_cell] names the cell. *)
Record WriteCompleter := mkWriteCompleter {
  wcr_cell : nat;
  wcr_generation : N;
  wcr_completed : bool;
}.

Section write_completion.
Context `{AtomicWaker}.

Record WriteCompletion (E : Type) := mkWriteCompletion {
  wc_generation : N;
  wc_slot : option (N * WriteOutcome E);
  wc_waker : atomic_waker;
}.
Arguments mkWriteCompletion {E}.
Arguments wc_generation {E}. Arguments wc_slot {E}. Arguments wc_waker {E}.

Definition wc_new {E} : WriteCompletion E := mkWriteCompletion 0 None aw_new.

(** The two steps of [begin]: [fetch_add], then the slot is cleared. *)
Definition wc_bump {E} (c : WriteCompletion E) : N * WriteCompletion E :=
  let generation := u64_wrap (wc_generation c + 1) in
  (generation, mkWriteCompletion generation (wc_slot c) (wc_waker c)).
Definition wc_clear {E} (c : WriteCompletion E) : WriteCompletion E :=
  mkWriteCompletion (wc_generation c) None (wc_waker c).
Definition wc_begin {E} (c : WriteCompletion E) : N * WriteCompletion E :=
  let r := wc_bump c in (r.1, wc_clear r.2).

Definition wc_completer (cell : nat) (generation : N) : WriteCompleter :=
  mkWriteCompleter cell generation false.

(** The locked part of [set_if_current]: [false] for a stale generation or a
    slot already filled. *)
Definition wc_store {E} (generation : N) (outcome : WriteOutcome E)
    (c : WriteCompletion E) : bool * WriteCompletion E :=
  if negb (wc_generation c =? generation) || bool_decide (is_Some (wc_slot c))
  then (false, c)
  else (true, mkWriteCompletion (wc_generation c) (Some (generation, outcome)) (wc_waker c)).
Definition wc_wake {E} (c : WriteCompletion E) : option Waker * WriteCompletion E :=
  let r := aw_wake (wc_waker c) in (r.1, mkWriteCompletion (wc_generation c) (wc_slot c) r.2).

Definition wc_set_if_current {E} (generation : N) (outcome : WriteOutcome E)
    (c : WriteCompletion E) : option Waker * WriteCompletion E :=
  let r := wc_store generation outcome c in
  if r.1 then wc_wake r.2 else (None, r.2).

Definition wc_register {E} (cx : Waker) (c : WriteCompletion E) : WriteCompletion E :=
  mkWriteCompletion (wc_generation c) (wc_slot c) (aw_register cx (wc_waker c)).

(** The locked part of [poll]: take the outcome of a matching generation. *)
Definition wc_take {E} (generation : N) (c : WriteCompletion E)
    : Poll (WriteOutcome E) * WriteCompletion E :=
  match wc_slot c with
  | Some (g, outcome) => if g =? generation then (Ready outcome, wc_clear c) else (Pending, c)
  | None => (Pending, c)
  end.

Definition wc_poll {E} (generation : N) (cx : Waker) (c : WriteCompletion E)
    : Poll (WriteOutcome E) * WriteCompletion E :=
  wc_take generation (wc_register cx c).

(** [Drop for WriteCompleter]. *)
Definition wcr_drop {E} (k : WriteCompleter) (c : WriteCompletion E)
    : option Waker * WriteCompletion E :=
  if wcr_completed k then (None, c)
  else wc_set_if_current (wcr_generation k) WriteCancelled c.

(** [WriteCompleter::complete], which consumes the completer: its [Drop] runs
    last and sees [completed]. *)
Definition wcr_complete {E} (result : Result unit E) (k : WriteCompleter)
    (c : WriteCompletion E) : option Waker * WriteCompletion E :=
  let r := wc_set_if_current (wcr_generation k) (WriteDone result) c in
  let d := wcr_drop (mkWriteCompleter (wcr_cell k) (wcr_generation k) true) r.2 in
  (r.1, d.2).
End write_completion.
Arguments mkWriteCompletion {_ E}.
Arguments wc_generation {_ E}. Arguments wc_slot {_ E}. Arguments wc_waker {_ E}.

(** ** Send-byte accounting *)

Record SendAccounting := mkSendAccounting {
  sa_resident : N;
  sa_cap : option N;
  sa_waiters : gmap N Waker;
}.

#[export] Instance SendAccounting_eta : Eta SendAccounting :=
  λ r, mkSendAccounting (sa_resident r) (sa_cap r) (sa_waiters r).
#[export] Instance set_sa_resident : Setter sa_resident.
Proof. derive_setter. Defined.
#[export] Instance set_sa_waiters : Setter sa_waiters.
Proof. derive_setter. Defined.

(** A live reservation: its byte count. *)
Record SendBytesPermit := mkPermit { permit_bytes : N }.

Definition sa_new (cap : option N) : SendAccounting := mkSendAccounting 0 cap ∅.

Definition checked_add (a b : N) : option N :=
  if usize_max <? a + b then None else Some (a + b).

(** The closure of [fetch_update] in [try_reserve]: the new residency, or
    [None] to reject. *)
Definition sa_admit (cap : option N) (bytes cur : N) : option N :=
  next ← checked_add cur bytes;
  match cap with
  | Some cap =>
      if (0 <? bytes) && (cap <? next) && negb (cur =? 0) then None else Some next
  | None => Some next
  end.

Definition sa_try_reserve (bytes : N) (a : SendAccounting)
    : option SendBytesPermit * SendAccounting :=
  match sa_admit (sa_cap a) bytes (sa_resident a) with
  | Some next => (Some (mkPermit bytes), a <| sa_resident := next |>)
  | None => (None, a)
  end.

Definition sa_register_waiter (id : N) (waker : Waker) (a : SendAccounting) : SendAccounting :=
  match sa_cap a with
  | None => a
  | Some _ =>
      match sa_waiters a !! id with
      | Some existing =>
          if Nat.eqb existing waker then a
          else a <| sa_waiters ::= <[id := waker]> |>
      | None => a <| sa_waiters ::= <[id := waker]> |>
      end
  end.

Definition sa_unregister_waiter (id : N) (a : SendAccounting) : SendAccounting :=
  match sa_cap a with
  | None => a
  | Some _ => a <| sa_waiters ::= delete id |>
  end.

Section release.
Context `{HashOrder}.

(** The drain-and-wake half of [release]. *)
Definition sa_wake_all (a : SendAccounting) : list Waker * SendAccounting :=
  match sa_cap a with
  | None => ([], a)
  | Some _ => ((hash_iter (sa_waiters a)).*2, a <| sa_waiters := ∅ |>)
  end.

(** The [fetch_update] half of [release]: a saturating subtraction. *)
Definition sa_sub (bytes : N) (a : SendAccounting) : SendAccounting :=
  if bytes =? 0 then a else a <| sa_resident ::= λ cur, cur - bytes |>.

Definition sa_release (bytes : N) (a : SendAccounting) : list Waker * SendAccounting :=
  sa_wake_all (sa_sub bytes a).

(** [Drop for SendBytesPermit]. *)
Definition permit_drop (p : SendBytesPermit) (a : SendAccounting)
    : list Waker * SendAccounting := sa_release (permit_bytes p) a.
End release.

(** ** Facts about the send cursor *)

Section cursor.
Context {B S : Type} `{!Buf B}.
Implicit Types (buf : B) (sink : Bytes → ST S (Result N quiche.Error)).

(** What a turn leaves of the buffer is what the sink did not take. *)
Lemma buf_advance_split buf n :
  n ≤ N.of_nat (length (buf_chunk buf)) →
  buf_bytes buf = take (N.to_nat n) (buf_chunk buf) ++ buf_bytes (buf_advance n buf).
Proof.
  intros Hn. destruct (buf_chunk_prefix buf) as [rest Hrest].
  assert (length (buf_bytes buf) = length (buf_chunk buf) + length rest)%nat as Hlen
    by (rewrite Hrest, length_app; done).
  rewrite buf_advance_bytes by (rewrite buf_remaining_bytes; lia).
  rewrite <-(take_drop (N.to_nat n) (buf_bytes buf)) at 1. f_equal.
  rewrite Hrest, take_app_le by lia. done.
Qed.

Lemma buf_has_remaining_bytes buf : buf_has_remaining buf = false ↔ buf_bytes buf = [].
Proof.
  unfold buf_has_remaining. rewrite N.ltb_ge, buf_remaining_bytes.
  destruct (buf_bytes buf); simpl; split; (done || lia).
Qed.

(** One turn, when the sink takes at most what it is offered: the sink was given
    the current segment once, and the bytes it took plus the bytes left are the
    bytes there were. *)
Lemma send_from_buf_turn buf sink s :
  (∀ chunk s n, result (sink chunk) s = Ok n → n ≤ N.of_nat (length chunk)) →
  let r := result (send_from_buf buf sink) s in
  match r.1 with
  | Ok n =>
      buf_bytes buf = take (N.to_nat n) (buf_chunk buf) ++ buf_bytes r.2 ∧
      (buf_bytes buf ≠ [] → result (sink (buf_chunk buf)) s = Ok n)
  | Err e => r.2 = buf ∧ result (sink (buf_chunk buf)) s = Err e
  end.
Proof.
  intros Hsink. simpl. unfold send_from_buf.
  destruct (buf_has_remaining buf) eqn:Hr; simpl.
  - rewrite !result_bind. destruct (result (sink (buf_chunk buf)) s) eqn:Hs; simpl; [|done].
    split; [|done]. apply buf_advance_split. by eapply Hsink.
  - split; [done|]. apply buf_has_remaining_bytes in Hr. done.
Qed.
End cursor.
