(* ===== verification/BufferLogic.v ===== *)
(** * What the shared cells guarantee (buffer.rs)

    Terminal cells and write completions are touched by the worker and the front
    end at once, so their guarantees are stated over interleavings of the atomic
    steps their operations are made of: one locked section, one waker operation.
    The accounting is shown to hold exactly the live permits. *)

From S2P Require Import Prelude Interfaces Wakeup Error Buffer.

(** ** Terminal cells *)

Section terminal_cell.
Context `{AtomicWaker} {T : Type}.

(** A single poller [cx] and any number of writers. *)
#[refine] Definition cell_parking (cx : Waker) : Parking (TerminalCell T) := {|
  pk_ready c := is_Some (tc_get c);
  pk_armed c := aw_registered (tc_waker c) = Some cx;
  pk_arm := tc_register cx;
  pk_publish c c' := ∃ v, tc_install v c = (true, c');
  pk_other c c' := ∃ v, tc_install v c = (false, c');
  pk_local c c' := c' = c;
  pk_notify c := (bool_decide ((tc_wake c).1 = Some cx), (tc_wake c).2);
  pk_valid _ := True;
|}.
Proof.
  1-5: done.
  - intros c _. apply aw_registered_register.
  - intros c c' [v Hv]. unfold tc_install in Hv. by destruct (tc_value c); simplify_eq/=.
  - intros c c' [v Hv]. unfold tc_install in Hv. by destruct (tc_value c); simplify_eq/=.
  - intros c c' [v Hv]. unfold tc_install in Hv. by destruct (tc_value c); simplify_eq/=.
  - intros c _ Hc. simpl. apply bool_decide_eq_true. by rewrite aw_wake_registered.
  - done.
Defined.

(** The race-free poll of a terminal cell: however [set]s and the poller
    interleave, a poller left asleep while a value is there has been woken, or
    the writer that installed it has yet to wake, and that wake reaches the
    poller. *)
Theorem terminal_poll_no_lost_wakeup (cx : Waker) (c0 : TerminalCell T) (c : Config) :
  pk_reachable (Parking0 := cell_parking cx) c0 c →
  phase c = Asleep → is_Some (tc_get (shared_st c)) →
  wake_up c = true ∨ ((0 < owed c)%nat ∧ (tc_wake (shared_st c)).1 = Some cx).
Proof.
  intros Hr Hp Hs.
  destruct (pk_no_lost_wakeup (Parking0 := cell_parking cx) c0 c I Hr Hp Hs) as [?|[? Hn]];
    [by left | right].
  split; [done|]. simpl in Hn. by apply bool_decide_eq_true in Hn.
Qed.

(** The operations a cell sees, in the order the lock imposes. *)
Inductive cell_op := CellSet (v : T) | CellPoll (cx : Waker).

Definition cell_run (op : cell_op) (c : TerminalCell T) : (bool + Poll T) * TerminalCell T :=
  match op with
  | CellSet v => let r := tc_set v c in (inl r.1.1, r.2)
  | CellPoll cx => let r := tc_poll cx c in (inr r.1, r.2)
  end.
Fixpoint cell_runs (ops : list cell_op) (c : TerminalCell T) : list (bool + Poll T) :=
  match ops with
  | [] => []
  | op :: ops => let r := cell_run op c in r.1 :: cell_runs ops r.2
  end.

(** What a cell must answer, knowing only the first value set. *)
Fixpoint cell_spec (first : option T) (ops : list cell_op) : list (bool + Poll T) :=
  match ops with
  | [] => []
  | CellSet v :: ops =>
      match first with
      | Some _ => inl false :: cell_spec first ops
      | None => inl true :: cell_spec (Some v) ops
      end
  | CellPoll _ :: ops =>
      inr (match first with Some v => Ready v | None => Pending end) :: cell_spec first ops
  end.

(** C24.  A terminal cell is a write-once register: for any sequence of [set]s and
    [poll]s, exactly the first [set] reports success, and every poll from then on
    is ready with that value, however often it is repeated. *)
Theorem terminal_cell_refines ops (c : TerminalCell T) : cell_runs ops c = cell_spec (tc_value c) ops.
Proof.
  revert c. induction ops as [|[v|cx] ops IH]; intros c; simpl; [done|..].
  - rewrite IH. unfold tc_set, tc_install. by destruct (tc_value c) eqn:E; simpl; rewrite ?E.
  - rewrite IH. unfold tc_poll, tc_get, tc_register. by destruct (tc_value c) eqn:E; simpl; rewrite ?E.
Qed.
End terminal_cell.

(** ** The send cursor *)

Section cursor_run.
Context {B : Type} `{!Buf B}.

(** Keep offering the current segment to a sink that takes what it likes; stop
    at a refusal. *)
Fixpoint send_turns (buf : B) (takes : list (Result N quiche.Error)) : Bytes * B :=
  match takes with
  | [] => ([], buf)
  | t :: takes =>
      let offered := buf_chunk buf in
      let r := result (send_from_buf buf (λ chunk, mret t : ST unit _)) tt in
      match r.1 with
      | Ok n =>
          let rest := send_turns r.2 takes in
          ((if buf_has_remaining buf then take (N.to_nat n) offered else []) ++ rest.1, rest.2)
      | Err _ => ([], r.2)
      end
  end.

(** Each accepted count stays within the segment that was offered. *)
Fixpoint takes_fit (buf : B) (takes : list (Result N quiche.Error)) : Prop :=
  match takes with
  | [] => True
  | t :: takes =>
      let r := result (send_from_buf buf (λ chunk, mret t : ST unit _)) tt in
      match r.1 with
      | Ok n => n ≤ N.of_nat (length (buf_chunk buf)) ∧ takes_fit r.2 takes
      | Err _ => True
      end
  end.

(** The cursor neither loses nor repeats a byte: over any run of turns, with
    partial writes and across segment boundaries, what the sink took followed by
    what the cursor still holds is exactly the original content. *)
Theorem send_turns_conserve (buf : B) takes :
  takes_fit buf takes →
  let r := send_turns buf takes in buf_bytes buf = r.1 ++ buf_bytes r.2.
Proof.
  revert buf. induction takes as [|t takes IH]; intros buf; [done|]. simpl.
  unfold send_from_buf. destruct (buf_has_remaining buf) eqn:Hr; simpl.
  - destruct t as [n|e]; [|done]. intros [Hn Hf]. simpl.
    rewrite <-app_assoc, <-IH by exact Hf. by apply buf_advance_split.
  - intros [_ Hf]. by apply IH.
Qed.
End cursor_run.

(** ** Write completions *)

Section write_completion.
Context `{AtomicWaker} {E : Type}.
Abbreviation Cell := (WriteCompletion E).

(** The front end polls for [generation]; completers of any generation store. *)
#[refine] Definition write_parking (generation : N) (cx : Waker) : Parking Cell := {|
  pk_ready c := ∃ o, wc_slot c = Some (generation, o);
  pk_armed c := aw_registered (wc_waker c) = Some cx;
  pk_arm := wc_register cx;
  pk_publish c c' := ∃ g o, wc_store g o c = (true, c');
  pk_other c c' := ∃ g o, wc_store g o c = (false, c');
  pk_local c c' := (∃ r, wc_take generation c = (r, c')) ∨ c' = (wc_begin c).2;
  pk_notify c := (bool_decide ((wc_wake c).1 = Some cx), (wc_wake c).2);
  pk_valid _ := True;
|}.
Proof.
  1-5: done.
  - intros c _. apply aw_registered_register.
  - intros c c' (g&o&Hv). unfold wc_store in Hv. by case_match; simplify_eq/=.
  - intros c c' (g&o&Hv). unfold wc_store in Hv. by case_match; simplify_eq/=.
  - intros c c' (g&o&Hv). unfold wc_store in Hv. by case_match; simplify_eq/=.
  - intros c _ Hc. simpl. apply bool_decide_eq_true. by rewrite aw_wake_registered.
  - done.
Defined.

(** The poll of a write completion registers before it reads: a front end
    asleep while its generation's outcome is in the slot has been woken, or the
    completer that stored it has yet to wake, and that wake reaches it. *)
Theorem write_poll_no_lost_wakeup (generation : N) (cx : Waker) (c0 : Cell) (c : Config) :
  pk_reachable (Parking0 := write_parking generation cx) c0 c →
  phase c = Asleep → (∃ o, wc_slot (shared_st c) = Some (generation, o)) →
  wake_up c = true ∨ ((0 < owed c)%nat ∧ (wc_wake (shared_st c)).1 = Some cx).
Proof.
  intros Hr Hp Hs.
  destruct (pk_no_lost_wakeup (Parking0 := write_parking generation cx) c0 c I Hr Hp Hs)
    as [?|[? Hn]]; [by left | right].
  split; [done|]. simpl in Hn. by apply bool_decide_eq_true in Hn.
Qed.

(** One stream's writes: the front end begins a generation (the two steps of
    [begin]), hands out its completer and polls; the worker completes or drops
    the completers it holds.  [given] and [got] record the outcomes. *)
Inductive FrontPhase := FIdle | FBumped (g : N) | FWaiting (g : N).

Record WriteSys := mkWriteSys {
  ws_cell : Cell;
  ws_front : FrontPhase;
  ws_live : list N;               (* the generations of the completers alive *)
  ws_begun : N;                   (* how many writes were begun *)
  ws_given : list (N * WriteOutcome E);
  ws_got : list (N * WriteOutcome E);
}.

Definition write_sys_init : WriteSys := mkWriteSys wc_new FIdle [] 0 [] [].

Inductive write_step : relation WriteSys :=
| write_bump c l n gv gt :
    write_step (mkWriteSys c FIdle l n gv gt)
      (mkWriteSys (wc_bump c).2 (FBumped (wc_bump c).1) l (n + 1) gv gt)
| write_clear c g l n gv gt :
    write_step (mkWriteSys c (FBumped g) l n gv gt)
      (mkWriteSys (wc_clear c) (FWaiting g) (g :: l) n gv gt)
| write_complete c f l1 g l2 n gv gt cell r :
    write_step (mkWriteSys c f (l1 ++ g :: l2) n gv gt)
      (mkWriteSys (wcr_complete r (mkWriteCompleter cell g false) c).2 f (l1 ++ l2) n
         (gv ++ [(g, WriteDone r)]) gt)
| write_drop c f l1 g l2 n gv gt cell :
    write_step (mkWriteSys c f (l1 ++ g :: l2) n gv gt)
      (mkWriteSys (wcr_drop (mkWriteCompleter cell g false) c).2 f (l1 ++ l2) n
         (gv ++ [(g, WriteCancelled)]) gt)
| write_take c g l n gv gt cx o c' : wc_poll g cx c = (Ready o, c') →
    write_step (mkWriteSys c (FWaiting g) l n gv gt)
      (mkWriteSys c' FIdle l n gv (gt ++ [(g, o)]))
| write_pending c g l n gv gt cx c' : wc_poll g cx c = (Pending, c') →
    write_step (mkWriteSys c (FWaiting g) l n gv gt) (mkWriteSys c' (FWaiting g) l n gv gt)
(** the command was refused: its completer has been dropped with it *)
| write_abandon c g l n gv gt : g ∉ l →
    write_step (mkWriteSys c (FWaiting g) l n gv gt) (mkWriteSys c FIdle l n gv gt).

Definition write_reachable : WriteSys → Prop := rtc write_step write_sys_init.

(** What each phase knows of the cell and of the completers. *)
Definition phase_inv (s : WriteSys) : Prop :=
  match ws_front s with
  | FIdle => ws_live s = [] ∧ (∀ x, x ∈ ws_given s → x.1 ≤ ws_begun s) ∧
      (∀ x, x ∈ ws_got s → x.1 ≤ ws_begun s)
  | FBumped g => g = ws_begun s ∧ ws_live s = [] ∧ (∀ x, x ∈ ws_given s → x.1 < g) ∧
      (∀ x, x ∈ ws_got s → x.1 < g)
  | FWaiting g => g = ws_begun s ∧ (∀ x, x ∈ ws_got s → x.1 < g) ∧
      ((ws_live s = [g] ∧ wc_slot (ws_cell s) = None ∧ (∀ x, x ∈ ws_given s → x.1 < g)) ∨
       (ws_live s = [] ∧ (∀ x, x ∈ ws_given s → x.1 ≤ g) ∧
        ∃ o, wc_slot (ws_cell s) = Some (g, o) ∧ (g, o) ∈ ws_given s))
  end.

Record write_inv (s : WriteSys) : Prop := {
  wi_generation : wc_generation (ws_cell s) = ws_begun s;
  wi_phase : phase_inv s;
  wi_given : NoDup (ws_given s).*1;
  wi_got : NoDup (ws_got s).*1;
  wi_sub : ∀ x, x ∈ ws_got s → x ∈ ws_given s;
}.

Lemma NoDup_fst_snoc {A} (l : list (N * A)) g a :
  NoDup l.*1 → (∀ x, x ∈ l → x.1 < g) → NoDup (l ++ [(g, a)]).*1.
Proof.
  intros Hl Hlt. rewrite fmap_app. apply NoDup_app. split_and!; [done| |apply NoDup_singleton].
  intros x (y&->&Hy)%list_elem_of_fmap Hx%list_elem_of_singleton.
  specialize (Hlt _ Hy). simpl in *. lia.
Qed.

(** Settling the one completer alive fills the slot of the waiting generation. *)
Lemma write_settle s g l1 l2 o c' :
  write_inv s → ws_live s = l1 ++ g :: l2 → c' = (wc_set_if_current g o (ws_cell s)).2 →
  write_inv (mkWriteSys c' (ws_front s) (l1 ++ l2) (ws_begun s) (ws_given s ++ [(g, o)]) (ws_got s)).
Proof.
  intros [Hg Hp Hgv Hgt Hs] Hl ->. destruct s as [c f l n gv gt]; simpl in *. subst l n.
  destruct f as [|g'|g']; unfold phase_inv in Hp; simpl in Hp.
  1-2: destruct Hp as (?&?&?); by destruct l1.
  destruct Hp as (->&Hgot&[(Hl&Hslot&Hlt)|[? _]]); [|by destruct l1].
  destruct l1 as [|? [|]]; simplify_eq/=.
  assert (wc_set_if_current (wc_generation c) o c =
    wc_wake (mkWriteCompletion (wc_generation c) (Some (wc_generation c, o)) (wc_waker c))) as ->.
  { unfold wc_set_if_current, wc_store. rewrite N.eqb_refl, bool_decide_eq_false_2; [done|].
    rewrite Hslot. by intros [? ?]. }
  split; simpl; [done| |by apply NoDup_fst_snoc|done|].
  - split_and!; [done..|]. right. split_and!; [done| |].
    + intros x [Hx| ->%list_elem_of_singleton]%elem_of_app; [apply N.lt_le_incl; auto | done].
    + exists o. split; [done|]. set_solver.
  - intros x Hx. set_solver.
Qed.

Lemma write_step_inv s s' :
  write_step s s' → ws_begun s' < 2 ^ 64 → write_inv s → write_inv s'.
Proof.
  intros Hstep Hn Hi. destruct Hstep as [| | | |c g l n gv gt cx o c' Hpoll|c g l n gv gt cx c' Hpoll|];
    simpl in Hn.
  - destruct Hi as [Hg Hp Hgv Hgt Hs]; unfold phase_inv in Hp; simpl in *; destruct Hp as (Hl&H1&H2). split; simpl; try done.
    + unfold u64_wrap. rewrite Hg. apply N.mod_small. lia.
    + unfold phase_inv; simpl. unfold u64_wrap. rewrite Hg, N.mod_small by lia.
      split_and!; [done..| |]; intros x Hx; [specialize (H1 x Hx) | specialize (H2 x Hx)]; lia.
  - destruct Hi as [Hg Hp Hgv Hgt Hs]; unfold phase_inv in Hp; simpl in *; destruct Hp as (->&->&H1&H2). split; simpl; try done.
    unfold phase_inv; simpl. split_and!; [done..|]. by left.
  - by eapply (write_settle (mkWriteSys c f _ n gv gt)).
  - by eapply (write_settle (mkWriteSys c f _ n gv gt)).
  - destruct Hi as [Hg Hp Hgv Hgt Hs]; unfold phase_inv in Hp; simpl in *; destruct Hp as (->&H1&Hc).
    unfold wc_poll, wc_take in Hpoll; simpl in Hpoll.
    destruct Hc as [(->&Hslot&_)|(->&H2&o'&Hslot&Ho')]; rewrite Hslot in Hpoll; [done|].
    rewrite N.eqb_refl in Hpoll. simplify_eq. split; simpl; try done.
    + unfold phase_inv; simpl. split_and!; [done..|].
      intros x [Hx| ->%list_elem_of_singleton]%elem_of_app; [apply N.lt_le_incl; auto | done].
    + by apply NoDup_fst_snoc.
    + intros x [Hx| ->%list_elem_of_singleton]%elem_of_app; auto.
  - destruct Hi as [Hg Hp Hgv Hgt Hs]; unfold phase_inv in Hp; simpl in *; destruct Hp as (->&H1&Hc).
    unfold wc_poll, wc_take in Hpoll; simpl in Hpoll.
    destruct Hc as [(->&Hslot&H2)|(->&H2&o'&Hslot&Ho')]; rewrite Hslot in Hpoll;
      [|by rewrite N.eqb_refl in Hpoll]. simplify_eq. split; simpl; try done.
    unfold phase_inv; simpl. split_and!; [done..|]. by left.
  - destruct Hi as [Hg Hp Hgv Hgt Hs]; unfold phase_inv in Hp; simpl in *; destruct Hp as (->&H1&Hc). split; simpl; try done.
    destruct Hc as [(->&_)|(->&H2&_)]; [set_solver|]. unfold phase_inv; simpl.
    split_and!; [done..|]. intros x Hx. apply N.lt_le_incl; auto.
Qed.

Lemma write_step_begun s s' : write_step s s' → ws_begun s ≤ ws_begun s'.
Proof. intros []; simpl; lia. Qed.

Lemma write_reachable_inv s : write_reachable s → ws_begun s < 2 ^ 64 → write_inv s.
Proof.
  apply (rtc_ind_r (λ s, ws_begun s < 2 ^ 64 → write_inv s)).
  - intros _. split; simpl; [done| |constructor|constructor|set_solver].
    unfold phase_inv; simpl. set_solver.
  - intros s1 s2 _ Hs IH Hn. apply (write_step_inv s1); [done..|]. apply IH.
    pose proof (write_step_begun _ _ Hs). lia.
Qed.

(** C22.  A reused completion cell resolves each write exactly once: with fewer
    than 2^64 writes, no generation is delivered twice, what the front end got
    is what that generation's completer gave, and once the completer of the
    write waited for is gone, completed or dropped, the next poll is ready. *)
Theorem write_completion_exactly_once s :
  write_reachable s → ws_begun s < 2 ^ 64 →
  NoDup (ws_got s).*1 ∧ NoDup (ws_given s).*1 ∧ (∀ x, x ∈ ws_got s → x ∈ ws_given s) ∧
  (∀ g cx, ws_front s = FWaiting g → g ∉ ws_live s →
     ∃ o, (wc_poll g cx (ws_cell s)).1 = Ready o ∧ (g, o) ∈ ws_given s).
Proof.
  intros Hr Hn. destruct (write_reachable_inv s Hr Hn) as [Hg Hp Hgv Hgt Hs].
  split_and!; try done. intros g cx Hf Hl. unfold phase_inv in Hp. rewrite Hf in Hp.
  destruct Hp as (->&_&[(Hl'&_)|(_&_&o&Hslot&Ho)]); [rewrite Hl' in Hl; set_solver|].
  exists o. split; [|done]. unfold wc_poll, wc_take. simpl. by rewrite Hslot, N.eqb_refl.
Qed.
End write_completion.

(** ** Send-byte accounting *)

Definition total (ps : list SendBytesPermit) : N := foldr (λ p n, permit_bytes p + n) 0 ps.
Definition sizes (ps : list SendBytesPermit) : list N := filter (λ n, n ≠ 0) (permit_bytes <$> ps).

Lemma total_app ps qs : total (ps ++ qs) = total ps + total qs.
Proof. induction ps as [|p ps IH]; simpl; [done|]. rewrite IH. lia. Qed.
Lemma sizes_app ps qs : sizes (ps ++ qs) = sizes ps ++ sizes qs.
Proof. unfold sizes. by rewrite fmap_app, filter_app. Qed.
Lemma sizes_one p : sizes [p] = if permit_bytes p =? 0 then [] else [permit_bytes p].
Proof.
  unfold sizes. simpl. rewrite filter_cons. destruct (N.eqb_spec (permit_bytes p) 0);
    [by rewrite decide_False by auto | by rewrite decide_True].
Qed.
Lemma total_zero ps : total ps = 0 → sizes ps = [].
Proof.
  induction ps as [|p ps IH]; [done|]. simpl. intros Hz.
  change (p :: ps) with ([p] ++ ps). rewrite sizes_app, sizes_one, IH by lia.
  destruct (N.eqb_spec (permit_bytes p) 0); [done|lia].
Qed.

Section accounting.
Context `{HashOrder}.

(** The accounting and the permits alive: reserve, refuse, wait, drop a permit. *)
Inductive acct_step : relation (SendAccounting * list SendBytesPermit) :=
| acct_reserve a a' ps bytes p : sa_try_reserve bytes a = (Some p, a') →
    acct_step (a, ps) (a', ps ++ [p])
| acct_refuse a a' ps bytes : sa_try_reserve bytes a = (None, a') → acct_step (a, ps) (a', ps)
| acct_wait a ps id cx : acct_step (a, ps) (sa_register_waiter id cx a, ps)
| acct_leave a ps id : acct_step (a, ps) (sa_unregister_waiter id a, ps)
| acct_drop a ps1 p ps2 : acct_step (a, ps1 ++ p :: ps2) ((permit_drop p a).2, ps1 ++ ps2).

Definition acct_reachable (cap : option N) : SendAccounting * list SendBytesPermit → Prop :=
  rtc acct_step (sa_new cap, []).

(** Over the cap only with a single unit of bytes outstanding. *)
Record acct_inv (cap : option N) (s : SendAccounting * list SendBytesPermit) : Prop := {
  ai_cap : sa_cap s.1 = cap;
  ai_total : sa_resident s.1 = total s.2;
  ai_max : sa_resident s.1 ≤ usize_max;
  ai_bound c : cap = Some c → sa_resident s.1 ≤ c ∨ ∃ n, sizes s.2 = [n];
}.

Lemma register_waiter_fields id cx a :
  sa_cap (sa_register_waiter id cx a) = sa_cap a ∧ sa_resident (sa_register_waiter id cx a) = sa_resident a.
Proof. unfold sa_register_waiter. repeat case_match; done. Qed.
Lemma unregister_waiter_fields id a :
  sa_cap (sa_unregister_waiter id a) = sa_cap a ∧ sa_resident (sa_unregister_waiter id a) = sa_resident a.
Proof. unfold sa_unregister_waiter. by case_match. Qed.
Lemma release_fields bytes a :
  sa_cap (sa_release bytes a).2 = sa_cap a ∧ sa_resident (sa_release bytes a).2 = sa_resident a - bytes.
Proof.
  unfold sa_release, sa_wake_all, sa_sub. destruct (N.eqb_spec bytes 0) as [->|]; case_match; simpl;
    rewrite ?N.sub_0_r; done.
Qed.

(** What admission checks. *)
Lemma sa_admit_spec cap bytes cur next :
  sa_admit cap bytes cur = Some next ↔
  next = cur + bytes ∧ next ≤ usize_max ∧
  (∀ c, cap = Some c → bytes = 0 ∨ next ≤ c ∨ cur = 0).
Proof.
  unfold sa_admit, checked_add. destruct (usize_max <? cur + bytes) eqn:Ho; simpl.
  - apply N.ltb_lt in Ho. split; [done|]. intros (->&?&_). lia.
  - apply N.ltb_ge in Ho. destruct cap as [c|]; [|naive_solver].
    destruct (N.ltb_spec 0 bytes), (N.ltb_spec c (cur + bytes)), (N.eqb_spec cur 0); simpl;
      (split; [intros Hs; first [discriminate Hs | injection Hs as <-; split_and!; [done..|]; intros ? [= <-]; lia]
              | intros (->&_&Hc); first [done | specialize (Hc c eq_refl); lia]]).
Qed.

Lemma try_reserve_spec bytes a p a' :
  sa_try_reserve bytes a = (Some p, a') →
  permit_bytes p = bytes ∧ sa_cap a' = sa_cap a ∧ sa_admit (sa_cap a) bytes (sa_resident a) = Some (sa_resident a').
Proof. unfold sa_try_reserve. intros. by case_match; simplify_eq. Qed.

Lemma acct_step_inv cap s s' : acct_step s s' → acct_inv cap s → acct_inv cap s'.
Proof.
  intros [a a' ps bytes p Hr|a a' ps bytes Hr|a ps id cx|a ps id|a ps1 p ps2] [Hc Ht Hm Hb]; simpl in *.
  - destruct (try_reserve_spec _ _ _ _ Hr) as (Hp&Hc'&(Hn&Hmax&Hcap)%sa_admit_spec).
    split; simpl; [congruence| |done|].
    + rewrite total_app. simpl. lia.
    + intros c ->. destruct (Hcap c Hc) as [->|[?|Hz]]; [|by left|].
      * rewrite sizes_app, sizes_one, Hp, N.eqb_refl, app_nil_r, Hn, N.add_0_r. by apply Hb.
      * rewrite sizes_app, sizes_one, total_zero, Hp by congruence.
        destruct (N.eqb_spec bytes 0); [left; lia | right; by eexists].
  - unfold sa_try_reserve in Hr. by case_match; simplify_eq.
  - destruct (register_waiter_fields id cx a) as [E1 E2]. by split; simpl; rewrite ?E1, ?E2.
  - destruct (unregister_waiter_fields id a) as [E1 E2]. by split; simpl; rewrite ?E1, ?E2.
  - destruct (release_fields (permit_bytes p) a) as [Hc' Hr']. unfold permit_drop.
    assert (total (ps1 ++ p :: ps2) = permit_bytes p + total (ps1 ++ ps2)) as Htot
      by (rewrite !total_app; simpl; lia).
    split; simpl; rewrite ?Hc', ?Hr'; [done|lia|lia|].
    intros c Hcap. destruct (Hb c Hcap) as [?|[n Hn]]; [left; lia|].
    change (p :: ps2) with ([p] ++ ps2) in Hn. rewrite !sizes_app, sizes_one in Hn.
    destruct (N.eqb_spec (permit_bytes p) 0) as [Hz|Hz].
    + right. exists n. by rewrite sizes_app, <-Hn.
    + left. assert (sizes (ps1 ++ ps2) = []) as Hnil.
      { rewrite sizes_app. destruct (sizes ps1) as [|? [|]]; simplify_eq/=. done. }
      assert (total (ps1 ++ ps2) = 0) as Hz0; [|lia].
      revert Hnil. generalize (ps1 ++ ps2). clear. intros l. induction l as [|p l IH]; [done|].
      change (p :: l) with ([p] ++ l). rewrite sizes_app, sizes_one, total_app. simpl.
      destruct (N.eqb_spec (permit_bytes p) 0) as [->|]; [|done]. simpl. intros ->%IH. done.
Qed.

(** C23.  The accounting is exact and bounded: at any point of any sequence of
    reservations, refusals and permit drops, the resident count is the sum of the
    permits alive, and under a finite cap it exceeds the cap only while a single
    non-empty unit is outstanding. *)
Theorem accounting_bounded cap s :
  acct_reachable cap s →
  sa_resident s.1 = total s.2 ∧ sa_resident s.1 ≤ usize_max ∧
  ∀ c, cap = Some c → sa_resident s.1 ≤ c ∨ ∃ n, sizes s.2 = [n].
Proof.
  intros Hr. assert (acct_inv cap s) as [Hc Ht Hm Hb]; [|done].
  revert Hr. apply (rtc_ind_r (acct_inv cap)).
  - split; simpl; [done..|lia|]. intros c _. left. lia.
  - intros s1 s2 _. apply acct_step_inv.
Qed.

(** ** Parked admissions *)

(** Stream [id] waits on [cx] for room for [bytes]; other streams reserve, wait
    and leave, and permits are dropped. *)
Inductive other_admission (id : N) : relation SendAccounting :=
| other_reserve a a' bytes r : sa_try_reserve bytes a = (r, a') → other_admission id a a'
| other_wait a id' cx : id' ≠ id → other_admission id a (sa_register_waiter id' cx a)
| other_leave a id' : id' ≠ id → other_admission id a (sa_unregister_waiter id' a).

Lemma sa_admit_antitone cap bytes cur cur' :
  cur ≤ cur' → is_Some (sa_admit cap bytes cur') → is_Some (sa_admit cap bytes cur).
Proof.
  intros Hle [next (->&Hm&Hc)%sa_admit_spec]. exists (cur + bytes). apply sa_admit_spec.
  split_and!; [done|lia|]. intros c Hcap. specialize (Hc c Hcap). lia.
Qed.

Lemma other_admission_fields id a a' :
  other_admission id a a' →
  sa_cap a' = sa_cap a ∧ sa_resident a ≤ sa_resident a' ∧ sa_waiters a' !! id = sa_waiters a !! id.
Proof.
  intros [a1 a2 bytes r Hr|a1 id' cx Hne|a1 id' Hne].
  - unfold sa_try_reserve in Hr. case_match eqn:Ha; simplify_eq; [|done].
    apply sa_admit_spec in Ha as (->&_). simpl. split_and!; [done|lia|done].
  - unfold sa_register_waiter. repeat case_match; simpl; split_and!; try done; by rewrite lookup_insert_ne.
  - unfold sa_unregister_waiter. case_match; simpl; split_and!; try done; by rewrite lookup_delete_ne.
Qed.

Lemma register_waiter_armed id cx a :
  is_Some (sa_cap a) → sa_waiters (sa_register_waiter id cx a) !! id = Some cx.
Proof.
  intros [c Hc]. unfold sa_register_waiter. rewrite Hc.
  destruct (sa_waiters a !! id) as [w|] eqn:Hw; simpl; [|by rewrite lookup_insert_eq].
  destruct (Nat.eqb_spec w cx) as [->|]; simpl; [done | by rewrite lookup_insert_eq].
Qed.

Lemma sa_sub_fields bytes a :
  sa_cap (sa_sub bytes a) = sa_cap a ∧ sa_waiters (sa_sub bytes a) = sa_waiters a.
Proof. unfold sa_sub. by case_match. Qed.

#[refine] Definition admission_parking (id : N) (cx : Waker) (bytes : N) : Parking SendAccounting := {|
  pk_ready a := is_Some (sa_try_reserve bytes a).1;
  pk_armed a := sa_waiters a !! id = Some cx;
  pk_arm := sa_register_waiter id cx;
  pk_publish a a' := ∃ n, a' = sa_sub n a;
  pk_other := other_admission id;
  pk_local a a' := (∃ r, sa_try_reserve bytes a = (r, a')) ∨ a' = sa_unregister_waiter id a;
  pk_notify a := (bool_decide (cx ∈ (sa_wake_all a).1), (sa_wake_all a).2);
  pk_valid a := is_Some (sa_cap a);
|}.
Proof.
  - intros a Ha. by rewrite (proj1 (register_waiter_fields id cx a)).
  - intros a a' [n ->]. by rewrite (proj1 (sa_sub_fields n a)).
  - intros a a' (->&_)%other_admission_fields. done.
  - intros a a' [[r Hr]| ->].
    + unfold sa_try_reserve in Hr. by case_match; simplify_eq.
    + by rewrite (proj1 (unregister_waiter_fields id a)).
  - intros a Ha. unfold sa_wake_all. by case_match.
  - intros a. apply register_waiter_armed.
  - intros a a' [n ->]. by rewrite (proj2 (sa_sub_fields n a)).
  - intros a a' (_&_&->)%other_admission_fields. done.
  - intros a a' (Hc&Hle&_)%other_admission_fields. unfold sa_try_reserve. rewrite Hc.
    case_match eqn:Ha'; simpl; intros Hs; [|by destruct Hs].
    destruct (sa_admit_antitone (sa_cap a) bytes _ _ Hle) as [next ->]; [by rewrite Ha' | done].
  - intros a [c Hc] Ha. apply bool_decide_eq_true. unfold sa_wake_all. rewrite Hc. simpl.
    apply list_elem_of_fmap. exists (id, cx). split; [done|]. by apply elem_of_hash_iter.
  - intros a. unfold sa_wake_all, sa_try_reserve. destruct (sa_cap a) eqn:Hc; simpl;
    rewrite ?Hc; by destruct (sa_admit _ _ _).
Defined.


(** The cap never blocks a connection for good: with nothing resident every
    size is admitted, and a zero-byte write always is. *)
Theorem admission_progress bytes a :
  bytes ≤ usize_max → sa_resident a ≤ usize_max → sa_resident a = 0 ∨ bytes = 0 →
  (sa_try_reserve bytes a).1 = Some (mkPermit bytes).
Proof.
  intros Hb Hr Hz. unfold sa_try_reserve.
  assert (is_Some (sa_admit (sa_cap a) bytes (sa_resident a))) as [n ->]; [|done].
  exists (sa_resident a + bytes). apply sa_admit_spec. split_and!; [done|lia|]. intros c _. lia.
Qed.
End accounting.
