(* ===== verification/Conn.v ===== *)
(** * The transport interface (conn.rs)

    [QuicConn] is the trait through which the worker reaches quiche, [MockConn]
    the scriptable connection of the unit tests.  quiche itself is not part of
    the repository: the worker is modelled over any [QuicConn], and what it
    relies on beyond the signatures is the class [QuicConnOk]. *)

From S2P Require Import Prelude Interfaces Error.

Abbreviation QResult A := (Result A quiche.Error).

(** [stream_recv id out] returns the call's result and [out] as it left it. *)
Class QuicConn (C : Type) := {
  stream_recv : N → Bytes → ST C (QResult (N * bool) * Bytes);
  stream_send : N → Bytes → bool → ST C (QResult N);
  stream_shutdown : N → quiche.Shutdown → N → ST C (QResult unit);
  stream_readable_next : ST C (option N);
  stream_writable_next : ST C (option N);
  stream_writable : N → N → ST C (QResult bool);
  stream_readable : N → C → bool;
  stream_finished : N → C → bool;
  stream_capacity : N → ST C (QResult N);
  stream_priority : N → N → bool → ST C (QResult unit);
  peer_streams_left_bidi : C → N;
  peer_streams_left_uni : C → N;
  conn_close : bool → N → Bytes → ST C (QResult unit);
  peer_error : C → option quiche.ConnectionError;
  local_error : C → option quiche.ConnectionError;
  is_timed_out : C → bool;
}.

(** Documented bounds of the byte calls: a read stays inside the buffer it was
    given, a write accepts at most what it was offered. *)
Class QuicConnOk (C : Type) `{QuicConn C} : Prop := {
  stream_recv_len id out c len fin :
    (result (stream_recv id out) c).1 = Ok (len, fin) →
    len ≤ N.of_nat (length out);
  stream_recv_out id out c :
    length (result (stream_recv id out) c).2 = length out;
  stream_send_len id buf fin c n :
    result (stream_send id buf fin) c = Ok n →
    n ≤ N.of_nat (length buf);
}.

(** ** The scriptable mock *)

Inductive RecvStep :=
| RecvData (bytes : Bytes) (fin : bool)
| RecvErr (e : quiche.Error).

Record ShutdownCall := mkShutdownCall {
  sc_id : N;
  sc_is_write : bool;
  sc_code : N;
}.

Record MockConn := mkMockConn {
  readable_next : list N;
  writable_next : list N;
  readable_ids : gset N;
  finished_ids : gset N;
  recv_script : gmap N (list RecvStep);
  recv_calls : list N;
  send_capacity : gmap N N;
  send_errors : gmap N (list quiche.Error);
  sent : list (N * Bytes * bool);
  capacity : gmap N (QResult N);
  writable_results : gmap N (QResult bool);
  rearms : list (N * N);
  priority_errors : gmap N (list quiche.Error);
  priorities : list (N * N * bool);
  shutdown_errors : gmap N (list quiche.Error);
  shutdowns : list ShutdownCall;
  streams_left_bidi : N;
  streams_left_uni : N;
  closed : option (bool * N * Bytes);
  close_result : option quiche.Error;
  mock_peer_error : option quiche.ConnectionError;
  mock_local_error : option quiche.ConnectionError;
  timed_out : bool;
}.

#[export] Instance MockConn_eta : Eta MockConn := λ r,
  mkMockConn (readable_next r) (writable_next r) (readable_ids r) (finished_ids r)
    (recv_script r) (recv_calls r) (send_capacity r) (send_errors r) (sent r)
    (capacity r) (writable_results r) (rearms r) (priority_errors r) (priorities r)
    (shutdown_errors r) (shutdowns r) (streams_left_bidi r) (streams_left_uni r)
    (closed r) (close_result r) (mock_peer_error r) (mock_local_error r) (timed_out r).
#[export] Instance set_readable_next : Setter readable_next.
Proof. derive_setter. Defined.
#[export] Instance set_writable_next : Setter writable_next.
Proof. derive_setter. Defined.
#[export] Instance set_readable_ids : Setter readable_ids.
Proof. derive_setter. Defined.
#[export] Instance set_recv_script : Setter recv_script.
Proof. derive_setter. Defined.
#[export] Instance set_recv_calls : Setter recv_calls.
Proof. derive_setter. Defined.
#[export] Instance set_send_capacity : Setter send_capacity.
Proof. derive_setter. Defined.
#[export] Instance set_send_errors : Setter send_errors.
Proof. derive_setter. Defined.
#[export] Instance set_sent : Setter sent.
Proof. derive_setter. Defined.
#[export] Instance set_capacity : Setter capacity.
Proof. derive_setter. Defined.
#[export] Instance set_writable_results : Setter writable_results.
Proof. derive_setter. Defined.
#[export] Instance set_rearms : Setter rearms.
Proof. derive_setter. Defined.
#[export] Instance set_priority_errors : Setter priority_errors.
Proof. derive_setter. Defined.
#[export] Instance set_priorities : Setter priorities.
Proof. derive_setter. Defined.
#[export] Instance set_shutdown_errors : Setter shutdown_errors.
Proof. derive_setter. Defined.
#[export] Instance set_shutdowns : Setter shutdowns.
Proof. derive_setter. Defined.
#[export] Instance set_streams_left_bidi : Setter streams_left_bidi.
Proof. derive_setter. Defined.
#[export] Instance set_streams_left_uni : Setter streams_left_uni.
Proof. derive_setter. Defined.
#[export] Instance set_closed : Setter closed.
Proof. derive_setter. Defined.
#[export] Instance set_close_result : Setter close_result.
Proof. derive_setter. Defined.
#[export] Instance set_mock_peer_error : Setter mock_peer_error.
Proof. derive_setter. Defined.
#[export] Instance set_mock_local_error : Setter mock_local_error.
Proof. derive_setter. Defined.
#[export] Instance set_timed_out : Setter timed_out.
Proof. derive_setter. Defined.

Module mock.
Definition new : MockConn :=
  mkMockConn [] [] ∅ ∅ ∅ [] ∅ ∅ [] ∅ ∅ [] ∅ [] ∅ [] 0 0 None None None None false.

Definition script_recv (id : N) (steps : list RecvStep) (c : MockConn) : MockConn :=
  c <| recv_script ::= <[id := default [] (recv_script c !! id) ++ steps]> |>
    <| readable_ids ::= ({[id]} ∪.) |>.

Definition queue_readable (ids : list N) (c : MockConn) : MockConn :=
  c <| readable_next ::= λ q, q ++ ids |>.

(** [map.get_mut(&id).and_then(|q| q.pop_front())] *)
Definition pop_script {A} (id : N) (m : gmap N (list A)) : option A * gmap N (list A) :=
  match m !! id with
  | Some (a :: q) => (Some a, <[id := q]> m)
  | _ => (None, m)
  end.

Definition recv (id : N) (out : Bytes) : ST MockConn (QResult (N * bool) * Bytes) :=
  λ c,
    let c := c <| recv_calls ::= λ l, l ++ [id] |> in
    let p := pop_script id (recv_script c) in
    let c := c <| recv_script := p.2 |> in
    match default (RecvErr quiche.Done) p.1 with
    | RecvData bytes fin =>
        let n := Nat.min (length bytes) (length out) in
        let out := take n bytes ++ drop n out in
        if (n <? length bytes)%nat then
          let rest := default [] (recv_script c !! id) in
          ((Ok (N.of_nat n, false), out),
           c <| recv_script ::= <[id := RecvData (drop n bytes) fin :: rest]> |>)
        else
          let c := match default [] (recv_script c !! id) with
                   | [] => c <| readable_ids ::= (.∖ {[id]}) |>
                   | _ => c
                   end in
          ((Ok (N.of_nat n, fin), out), c)
    | RecvErr e => ((Err e, out), c <| readable_ids ::= (.∖ {[id]}) |>)
    end.

Definition send (id : N) (buf : Bytes) (fin : bool) : ST MockConn (QResult N) :=
  λ c,
    let p := pop_script id (send_errors c) in
    match p.1 with
    | Some e => (Err e, c <| send_errors := p.2 |>)
    | None =>
        let len := N.of_nat (length buf) in
        let accept := N.min (default len (send_capacity c !! id)) len in
        (Ok accept,
         c <| sent ::= λ l, l ++ [(id, take (N.to_nat accept) buf, fin && (accept =? len))] |>)
    end.

Definition shutdown (id : N) (direction : quiche.Shutdown) (err : N)
    : ST MockConn (QResult unit) :=
  λ c,
    let p := pop_script id (shutdown_errors c) in
    match p.1 with
    | Some e => (Err e, c <| shutdown_errors := p.2 |>)
    | None =>
        (Ok tt, c <| shutdowns ::= λ l,
           l ++ [mkShutdownCall id (bool_decide (direction = quiche.Write)) err] |>)
    end.

Definition priority (id : N) (urgency : N) (incremental : bool)
    : ST MockConn (QResult unit) :=
  λ c,
    let p := pop_script id (priority_errors c) in
    match p.1 with
    | Some e => (Err e, c <| priority_errors := p.2 |>)
    | None => (Ok tt, c <| priorities ::= λ l, l ++ [(id, urgency, incremental)] |>)
    end.

Definition close (app : bool) (err : N) (reason : Bytes) : ST MockConn (QResult unit) :=
  λ c, match close_result c with
       | Some e => (Err e, c)
       | None => (Ok tt, c <| closed := Some (app, err, reason) |>)
       end.
End mock.

#[export] Instance MockConn_QuicConn : QuicConn MockConn := {|
  stream_recv := mock.recv;
  stream_send := mock.send;
  stream_shutdown := mock.shutdown;
  stream_readable_next := λ c, (head (readable_next c), c <| readable_next ::= tail |>);
  stream_writable_next := λ c, (head (writable_next c), c <| writable_next ::= tail |>);
  stream_writable id len := λ c,
    (default (Ok false) (writable_results c !! id), c <| rearms ::= λ l, l ++ [(id, len)] |>);
  stream_readable id c := bool_decide (id ∈ readable_ids c);
  stream_finished id c := bool_decide (id ∈ finished_ids c);
  stream_capacity id := λ c, (default (Ok usize_max) (capacity c !! id), c);
  stream_priority := mock.priority;
  peer_streams_left_bidi := streams_left_bidi;
  peer_streams_left_uni := streams_left_uni;
  conn_close := mock.close;
  peer_error := mock_peer_error;
  local_error := mock_local_error;
  is_timed_out := timed_out;
|}.

(** ** Laws of the mock *)

#[export] Instance MockConn_ok : QuicConnOk MockConn.
Proof.
  split; intros.
  - unfold result, stream_recv in *; simpl in *. unfold mock.recv in *.
    repeat (case_match; simplify_eq/=); lia.
  - unfold result, stream_recv; simpl. unfold mock.recv.
    repeat (case_match; simplify_eq/=);
      rewrite ?length_app, ?length_take, ?length_drop; lia.
  - unfold result, stream_send in *; simpl in *. unfold mock.send in *.
    repeat (case_match; simplify_eq/=). lia.
Qed.
