(* ===== verification/DriverTypes.v ===== *)
(** * The driver's data (driver.rs)

    What the worker owns ([QuicheDriver]) and what it shares with the front end
    ([Store]).  In the source the shared objects are [Arc]s, channels and
    oneshots held from both sides; here they live in a store and both sides
    hold their addresses, so that a write through one alias is seen through the
    other.  A connection has one store: the objects that exist once are fields
    of it, the per-stream ones live in heaps. *)

From S2P Require Import Prelude Interfaces Error Buffer Conn.

(** The runtime libraries, together. *)
Class Runtime := {
  runtime_waker :: AtomicWaker;
  runtime_mpsc :: Mpsc;
  runtime_oneshot :: Oneshot;
  runtime_hash :: HashOrder;
}.

(** An address of a heap. *)
Abbreviation loc := nat.

(** ** Budgets and defaults *)

Definition READ_BUDGET : N := 32.
Definition DISCOVERY_BUDGET : nat := 32.
Definition RECV_RESUME_BUDGET : nat := 16.
Definition READABLE_BUDGET : nat := 32.
Definition ADMIT_BUDGET : nat := 32.
Definition PROMOTE_BUDGET : nat := 32.
Definition CHUNK_BUDGET : nat := 16.
Definition BYTE_CHANNEL_DEPTH : N := 64.
Definition CMD_BUDGET : nat := 64.
Definition WRITABLE_BUDGET : nat := 32.
Definition WRITE_BUDGET : nat := 32.
Definition MAX_WRITE_CHUNK : N := MAX_CHUNK.
Definition REARM_THRESHOLD : N := 1.
Definition OPEN_BUDGET : nat := 32.

Record DriverBufferConfig := mkDriverBufferConfig {
  cfg_recv_channel_depth : N;
  cfg_max_buffered_send_bytes : option N;
}.

Definition default_buffers : DriverBufferConfig :=
  mkDriverBufferConfig BYTE_CHANNEL_DEPTH None.

Definition is_bidi (id : N) : bool := N.land id 0x2 =? 0.

(** ** Handoffs *)

Record HandoffCleanup := mkHandoffCleanup {
  hc_id : N;
  hc_is_recv : bool;
  hc_armed : bool;
}.

Definition cleanup_new (id : N) (is_recv : bool) : HandoffCleanup :=
  mkHandoffCleanup id is_recv true.

(** A handoff's [cmd_tx] and [send_accounting] are the connection's only ones;
    the strong senders it holds are counted by the command channel. *)
Record RecvHandoff := mkRecvHandoff {
  rh_id : N;
  rh_bytes : loc;
  rh_terminal : loc;
  rh_resume : loc;
  rh_blocked : loc;
  rh_cleanup : HandoffCleanup;
}.

Record SendHandoff := mkSendHandoff {
  sh_id : N;
  sh_status : loc;
  sh_cleanup : HandoffCleanup;
}.

Record BidiHandoff := mkBidiHandoff {
  bh_send : SendHandoff;
  bh_recv : RecvHandoff;
}.

(** ** Commands *)

Inductive DriverCommand (B : Type) :=
| OpenBidi (reply : loc)
| OpenUni (reply : loc)
| Send (id : N) (buf : B) (done : WriteCompleter) (permit : option SendBytesPermit)
| Finish (id : N) (done : loc)
| Reset (id : N) (code : N)
| StopSending (id : N) (code : N)
| Close (code : N) (reason : Bytes)
| RecvResume (id : N)
| AcceptBidiResume
| AcceptUniResume
| ConnectionDropped.
Arguments OpenBidi {B}. Arguments OpenUni {B}. Arguments Send {B}.
Arguments Finish {B}. Arguments Reset {B}. Arguments StopSending {B}.
Arguments Close {B}. Arguments RecvResume {B}. Arguments AcceptBidiResume {B}.
Arguments AcceptUniResume {B}. Arguments ConnectionDropped {B}.

(** ** Registries *)

Record StreamRecvState := mkStreamRecvState {
  rs_bytes : loc;
  rs_terminal : loc;
  rs_resume : loc;
  rs_blocked : loc;
}.

Inductive SendOp (B : Type) :=
| OpWrite (buf : B) (done : WriteCompleter) (permit : option SendBytesPermit)
| OpFinish (done : loc).
Arguments OpWrite {B}. Arguments OpFinish {B}.

Record HeldWrite (B : Type) := mkHeldWrite { held_buf : B }.
Arguments mkHeldWrite {B}. Arguments held_buf {B}.

Inductive HeldFlush := FlushComplete | FlushMore | FlushBlocked | FlushTerminal.
Inductive TurnOutcome := Requeue | Park | Drop.

Record StreamSendState (B : Type) := mkStreamSendState {
  send_ops : list (SendOp B);
  pending_reset : option N;
  terminal : option SendEnd;
  status : loc;
  finished : bool;
  held : option (HeldWrite B);
}.
Arguments mkStreamSendState {B}.
Arguments send_ops {B}. Arguments pending_reset {B}. Arguments terminal {B}.
Arguments status {B}. Arguments finished {B}. Arguments held {B}.

#[export] Instance StreamSendState_eta {B} : Eta (StreamSendState B) := λ r,
  mkStreamSendState (send_ops r) (pending_reset r) (terminal r) (status r) (finished r) (held r).
#[export] Instance set_send_ops {B} : Setter (@send_ops B).
Proof. derive_setter. Defined.
#[export] Instance set_pending_reset {B} : Setter (@pending_reset B).
Proof. derive_setter. Defined.
#[export] Instance set_terminal {B} : Setter (@terminal B).
Proof. derive_setter. Defined.
#[export] Instance set_finished {B} : Setter (@finished B).
Proof. derive_setter. Defined.
#[export] Instance set_held {B} : Setter (@held B).
Proof. derive_setter. Defined.

(** [StreamSendState::new], around an already allocated status cell. *)
Definition send_state_new {B} (status : loc) : StreamSendState B :=
  mkStreamSendState [] None None status false None.

(** ** Peer-stream admission *)

Record PeerStream := mkPeerStream {
  ps_id : N;
  pending_send_terminal : option SendEnd;
  pending_recv_terminal : option RecvEnd;
}.

Definition peer_stream_new (id : N) : PeerStream := mkPeerStream id None None.

Inductive AdmitState :=
| Parked (peer : PeerStream)
| Registered (send_done recv_done : bool).

Inductive AdmitResult :=
| AdmitRegistered
| AdmitFull (peer : PeerStream)
| AdmitTornDown.

Inductive SetupFailure := PreHandshakeWorkerExit.

Record PendingClose := mkPendingClose { pc_code : N; pc_reason : Bytes }.
Record RecordedLocalClose := mkRecordedLocalClose { lc_code : N; lc_reason : Bytes }.

Inductive WaitDecision := WaitPending | WaitYield | WaitRecv.

(** ** The worker *)

Record QuicheDriver (B : Type) := mkQuicheDriver {
  inbox : list (DriverCommand B);
  is_server : bool;
  next_bidi_id : N;
  next_uni_id : N;
  open_bidi : list loc;
  open_uni : list loc;
  recv : gmap N StreamRecvState;
  send : gmap N (StreamSendState B);
  runnable_send : list N;
  runnable_send_set : gset N;
  admission : gmap N AdmitState;              (* the field [admit] *)
  pending_readable : list N;
  readable_set : gset N;
  pending_resume : list N;
  resume_set : gset N;
  pending_admit : gmap N PeerStream;
  pending_admit_bidi : list N;
  pending_admit_uni : list N;
  parked_bidi : list N;
  parked_uni : list N;
  established : bool;                         (* the [established] sender is present *)
  acting : bool;
  recv_channel_depth : N;
  recv_buf : option Bytes;
  needs_iteration : bool;
  graceful_close_issued : bool;
  last_handle_teardown : bool;
  reads_ran_this_iter : bool;
  read_budget : N;
  pending_close : option PendingClose;
  explicit_close_attempted : bool;
  local_close : option RecordedLocalClose;
  close_bug : option string;
  conn_registration : option N;
}.
Arguments mkQuicheDriver {B}.
Arguments inbox {B}. Arguments is_server {B}. Arguments next_bidi_id {B}. Arguments next_uni_id {B}.
Arguments open_bidi {B}. Arguments open_uni {B}. Arguments recv {B}. Arguments send {B}.
Arguments runnable_send {B}. Arguments runnable_send_set {B}. Arguments admission {B}. Arguments pending_readable {B}.
Arguments readable_set {B}. Arguments pending_resume {B}. Arguments resume_set {B}. Arguments pending_admit {B}.
Arguments pending_admit_bidi {B}. Arguments pending_admit_uni {B}. Arguments parked_bidi {B}. Arguments parked_uni {B}.
Arguments established {B}. Arguments acting {B}. Arguments recv_channel_depth {B}. Arguments recv_buf {B}.
Arguments needs_iteration {B}. Arguments graceful_close_issued {B}. Arguments last_handle_teardown {B}. Arguments reads_ran_this_iter {B}.
Arguments read_budget {B}. Arguments pending_close {B}. Arguments explicit_close_attempted {B}. Arguments local_close {B}.
Arguments close_bug {B}. Arguments conn_registration {B}.

#[export] Instance QuicheDriver_eta {B} : Eta (QuicheDriver B) := λ r,
  mkQuicheDriver
    (inbox r) (is_server r) (next_bidi_id r) (next_uni_id r)
    (open_bidi r) (open_uni r) (recv r) (send r)
    (runnable_send r) (runnable_send_set r) (admission r) (pending_readable r)
    (readable_set r) (pending_resume r) (resume_set r) (pending_admit r)
    (pending_admit_bidi r) (pending_admit_uni r) (parked_bidi r) (parked_uni r)
    (established r) (acting r) (recv_channel_depth r) (recv_buf r)
    (needs_iteration r) (graceful_close_issued r) (last_handle_teardown r) (reads_ran_this_iter r)
    (read_budget r) (pending_close r) (explicit_close_attempted r) (local_close r)
    (close_bug r) (conn_registration r).
#[export] Instance set_inbox {B} : Setter (@inbox B).
Proof. derive_setter. Defined.
#[export] Instance set_next_bidi_id {B} : Setter (@next_bidi_id B).
Proof. derive_setter. Defined.
#[export] Instance set_next_uni_id {B} : Setter (@next_uni_id B).
Proof. derive_setter. Defined.
#[export] Instance set_open_bidi {B} : Setter (@open_bidi B).
Proof. derive_setter. Defined.
#[export] Instance set_open_uni {B} : Setter (@open_uni B).
Proof. derive_setter. Defined.
#[export] Instance set_recv {B} : Setter (@recv B).
Proof. derive_setter. Defined.
#[export] Instance set_send {B} : Setter (@send B).
Proof. derive_setter. Defined.
#[export] Instance set_runnable_send {B} : Setter (@runnable_send B).
Proof. derive_setter. Defined.
#[export] Instance set_runnable_send_set {B} : Setter (@runnable_send_set B).
Proof. derive_setter. Defined.
#[export] Instance set_admission {B} : Setter (@admission B).
Proof. derive_setter. Defined.
#[export] Instance set_pending_readable {B} : Setter (@pending_readable B).
Proof. derive_setter. Defined.
#[export] Instance set_readable_set {B} : Setter (@readable_set B).
Proof. derive_setter. Defined.
#[export] Instance set_pending_resume {B} : Setter (@pending_resume B).
Proof. derive_setter. Defined.
#[export] Instance set_resume_set {B} : Setter (@resume_set B).
Proof. derive_setter. Defined.
#[export] Instance set_pending_admit {B} : Setter (@pending_admit B).
Proof. derive_setter. Defined.
#[export] Instance set_pending_admit_bidi {B} : Setter (@pending_admit_bidi B).
Proof. derive_setter. Defined.
#[export] Instance set_pending_admit_uni {B} : Setter (@pending_admit_uni B).
Proof. derive_setter. Defined.
#[export] Instance set_parked_bidi {B} : Setter (@parked_bidi B).
Proof. derive_setter. Defined.
#[export] Instance set_parked_uni {B} : Setter (@parked_uni B).
Proof. derive_setter. Defined.
#[export] Instance set_established {B} : Setter (@established B).
Proof. derive_setter. Defined.
#[export] Instance set_acting {B} : Setter (@acting B).
Proof. derive_setter. Defined.
#[export] Instance set_recv_buf {B} : Setter (@recv_buf B).
Proof. derive_setter. Defined.
#[export] Instance set_needs_iteration {B} : Setter (@needs_iteration B).
Proof. derive_setter. Defined.
#[export] Instance set_graceful_close_issued {B} : Setter (@graceful_close_issued B).
Proof. derive_setter. Defined.
#[export] Instance set_last_handle_teardown {B} : Setter (@last_handle_teardown B).
Proof. derive_setter. Defined.
#[export] Instance set_reads_ran_this_iter {B} : Setter (@reads_ran_this_iter B).
Proof. derive_setter. Defined.
#[export] Instance set_read_budget {B} : Setter (@read_budget B).
Proof. derive_setter. Defined.
#[export] Instance set_pending_close {B} : Setter (@pending_close B).
Proof. derive_setter. Defined.
#[export] Instance set_explicit_close_attempted {B} : Setter (@explicit_close_attempted B).
Proof. derive_setter. Defined.
#[export] Instance set_local_close {B} : Setter (@local_close B).
Proof. derive_setter. Defined.
#[export] Instance set_close_bug {B} : Setter (@close_bug B).
Proof. derive_setter. Defined.
#[export] Instance set_conn_registration {B} : Setter (@conn_registration B).
Proof. derive_setter. Defined.

(** ** The shared store *)

Record Store `{Runtime} (B : Type) := mkStore {
  conn_terminal : TerminalCell ConnTerminal;
  send_accounting : SendAccounting;
  cmd_chan : chan (DriverCommand B);
  accept_bidi_chan : chan BidiHandoff;
  accept_uni_chan : chan RecvHandoff;
  accept_terminal_bidi : TerminalCell ConnTerminal;
  accept_terminal_uni : TerminalCell ConnTerminal;
  accept_bidi_resume : bool;
  accept_uni_resume : bool;
  established_reply : oneshot (Result unit SetupFailure);
  recv_cells : list (TerminalCell RecvEnd);
  send_cells : list (TerminalCell SendEnd);
  flags : list bool;
  byte_chans : list (chan Bytes);
  write_cells : list (WriteCompletion SendEnd);
  finish_replies : list (oneshot (Result unit SendEnd));
  bidi_replies : list (oneshot (Result BidiHandoff ConnTerminal));
  uni_replies : list (oneshot (Result SendHandoff ConnTerminal));
  woken : list Waker;                         (* the tasks woken so far *)
}.
Arguments mkStore {_ B}.
Arguments conn_terminal {_ B}. Arguments send_accounting {_ B}. Arguments cmd_chan {_ B}. Arguments accept_bidi_chan {_ B}.
Arguments accept_uni_chan {_ B}. Arguments accept_terminal_bidi {_ B}. Arguments accept_terminal_uni {_ B}. Arguments accept_bidi_resume {_ B}.
Arguments accept_uni_resume {_ B}. Arguments established_reply {_ B}. Arguments recv_cells {_ B}. Arguments send_cells {_ B}.
Arguments flags {_ B}. Arguments byte_chans {_ B}. Arguments write_cells {_ B}. Arguments finish_replies {_ B}.
Arguments bidi_replies {_ B}. Arguments uni_replies {_ B}. Arguments woken {_ B}.

#[export] Instance Store_eta `{Runtime} {B} : Eta (Store B) := λ r,
  mkStore
    (conn_terminal r) (send_accounting r) (cmd_chan r) (accept_bidi_chan r)
    (accept_uni_chan r) (accept_terminal_bidi r) (accept_terminal_uni r) (accept_bidi_resume r)
    (accept_uni_resume r) (established_reply r) (recv_cells r) (send_cells r)
    (flags r) (byte_chans r) (write_cells r) (finish_replies r)
    (bidi_replies r) (uni_replies r) (woken r).
#[export] Instance set_conn_terminal `{Runtime} {B} : Setter (@conn_terminal _ B).
Proof. derive_setter. Defined.
#[export] Instance set_send_accounting `{Runtime} {B} : Setter (@send_accounting _ B).
Proof. derive_setter. Defined.
#[export] Instance set_cmd_chan `{Runtime} {B} : Setter (@cmd_chan _ B).
Proof. derive_setter. Defined.
#[export] Instance set_accept_bidi_chan `{Runtime} {B} : Setter (@accept_bidi_chan _ B).
Proof. derive_setter. Defined.
#[export] Instance set_accept_uni_chan `{Runtime} {B} : Setter (@accept_uni_chan _ B).
Proof. derive_setter. Defined.
#[export] Instance set_accept_terminal_bidi `{Runtime} {B} : Setter (@accept_terminal_bidi _ B).
Proof. derive_setter. Defined.
#[export] Instance set_accept_terminal_uni `{Runtime} {B} : Setter (@accept_terminal_uni _ B).
Proof. derive_setter. Defined.
#[export] Instance set_accept_bidi_resume `{Runtime} {B} : Setter (@accept_bidi_resume _ B).
Proof. derive_setter. Defined.
#[export] Instance set_accept_uni_resume `{Runtime} {B} : Setter (@accept_uni_resume _ B).
Proof. derive_setter. Defined.
#[export] Instance set_established_reply `{Runtime} {B} : Setter (@established_reply _ B).
Proof. derive_setter. Defined.
#[export] Instance set_recv_cells `{Runtime} {B} : Setter (@recv_cells _ B).
Proof. derive_setter. Defined.
#[export] Instance set_send_cells `{Runtime} {B} : Setter (@send_cells _ B).
Proof. derive_setter. Defined.
#[export] Instance set_flags `{Runtime} {B} : Setter (@flags _ B).
Proof. derive_setter. Defined.
#[export] Instance set_byte_chans `{Runtime} {B} : Setter (@byte_chans _ B).
Proof. derive_setter. Defined.
#[export] Instance set_write_cells `{Runtime} {B} : Setter (@write_cells _ B).
Proof. derive_setter. Defined.
#[export] Instance set_finish_replies `{Runtime} {B} : Setter (@finish_replies _ B).
Proof. derive_setter. Defined.
#[export] Instance set_bidi_replies `{Runtime} {B} : Setter (@bidi_replies _ B).
Proof. derive_setter. Defined.
#[export] Instance set_uni_replies `{Runtime} {B} : Setter (@uni_replies _ B).
Proof. derive_setter. Defined.
#[export] Instance set_woken `{Runtime} {B} : Setter (@woken _ B).
Proof. derive_setter. Defined.

(** ** The world of one connection: worker, shared store, transport *)

Record World `{Runtime} (B C : Type) := mkWorld {
  drv : QuicheDriver B;
  sto : Store B;
  qc : C;
}.
Arguments mkWorld {_ B C}.
Arguments drv {_ B C}. Arguments sto {_ B C}. Arguments qc {_ B C}.

#[export] Instance World_eta `{Runtime} {B C} : Eta (World B C) := λ r,
  mkWorld (drv r) (sto r) (qc r).
#[export] Instance set_drv `{Runtime} {B C} : Setter (@drv _ B C).
Proof. derive_setter. Defined.
#[export] Instance set_sto `{Runtime} {B C} : Setter (@sto _ B C).
Proof. derive_setter. Defined.
#[export] Instance set_qc `{Runtime} {B C} : Setter (@qc _ B C).
Proof. derive_setter. Defined.
