(* ===== verification/DriverStore.v ===== *)
(** * Operations on the shared store

    The shared objects as the driver and the front end reach them: cells,
    channels, oneshots, flags and the accounting, by address.  Also what Rust
    runs when a value that owns such an object is dropped. *)

From S2P Require Import Prelude Interfaces Error Buffer Conn DriverTypes.

Section store.
Context `{Runtime} {B : Type}.
Abbreviation S := (Store B).

(** Update the object at address [a] of a heap, returning the operation's
    result; an address outside the heap is never handed out. *)
Definition at_loc {X A} (heap : S → list X) `{!Setter heap} (a : loc) (dflt : A)
    (f : X → A * X) : ST S A :=
  λ s, match heap s !! a with
       | Some x => let r := f x in (r.1, s <| heap ::= <[a := r.2]> |>)
       | None => (dflt, s)
       end.

Definition alloc {X} (heap : S → list X) `{!Setter heap} (x : X) : ST S loc :=
  λ s, (length (heap s), s <| heap ::= λ h, h ++ [x] |>).

Definition wake (ws : list Waker) : ST S unit :=
  modify (λ s, s <| woken ::= λ l, l ++ ws |>).

(** ** Terminal cells *)

Definition set_cell {T} (v : T) (c : TerminalCell T) : (bool * option Waker) * TerminalCell T :=
  let r := tc_set v c in ((r.1.1, r.1.2), r.2).

Definition recv_cell_set (a : loc) (e : RecvEnd) : ST S unit :=
  r ← at_loc recv_cells a (false, None) (set_cell e);
  wake (option_list r.2).

Definition send_cell_set (a : loc) (e : SendEnd) : ST S unit :=
  r ← at_loc send_cells a (false, None) (set_cell e);
  wake (option_list r.2).

(** One of the connection's three terminal cells. *)
Definition conn_cell_set (cell : S → TerminalCell ConnTerminal) `{!Setter cell}
    (t : ConnTerminal) : ST S unit :=
  w ← (λ s, let r := tc_set t (cell s) in (r.1.2, s <| cell := r.2 |>));
  wake (option_list w).

(** ** Flags ([Arc<AtomicBool>]) *)

Definition flag_load (a : loc) : ST S bool := gets (λ s, default false (flags s !! a)).
Definition flag_store (a : loc) (b : bool) : ST S unit :=
  modify (λ s, s <| flags ::= <[a := b]> |>).
Definition flag_swap (a : loc) (b : bool) : ST S bool :=
  old ← flag_load a; flag_store a b;; mret old.

(** ** Byte channels *)

Definition bytes_try_reserve (a : loc) : ST S Reserve :=
  at_loc byte_chans a ReserveClosed chan_try_reserve.
Definition bytes_permit_send (a : loc) (b : Bytes) : ST S unit :=
  at_loc byte_chans a tt (λ c, (tt, chan_permit_send b c)).
Definition bytes_permit_drop (a : loc) : ST S unit :=
  at_loc byte_chans a tt (λ c, (tt, chan_permit_drop c)).
Definition bytes_drop_tx (a : loc) : ST S unit :=
  at_loc byte_chans a tt (λ c, (tt, chan_drop_tx c)).
Definition bytes_drop_rx (a : loc) : ST S (list Bytes) :=
  at_loc byte_chans a [] chan_drop_rx.
Definition bytes_poll_recv (a : loc) (cx : Waker) : ST S (Poll (option Bytes)) :=
  at_loc byte_chans a (Ready None) (chan_poll_recv cx).

(** ** Completions, permits and replies *)

Definition release_permit (p : option SendBytesPermit) : ST S unit :=
  match p with
  | None => skip
  | Some p =>
      ws ← (λ s, let r := permit_drop p (send_accounting s) in
                 (r.1, s <| send_accounting := r.2 |>));
      wake ws
  end.

Definition complete_write (k : WriteCompleter) (r : Result unit SendEnd) : ST S unit :=
  w ← at_loc write_cells (wcr_cell k) None (wcr_complete r k);
  wake (option_list w).
Definition drop_completer (k : WriteCompleter) : ST S unit :=
  w ← at_loc write_cells (wcr_cell k) None (wcr_drop k);
  wake (option_list w).

Definition finish_send (a : loc) (r : Result unit SendEnd) : ST S bool :=
  at_loc finish_replies a false (os_send r).
Definition finish_drop_tx (a : loc) : ST S unit :=
  at_loc finish_replies a tt (λ o, (tt, os_drop_tx o)).

Definition bidi_reply_send (a : loc) (r : Result BidiHandoff ConnTerminal) : ST S bool :=
  at_loc bidi_replies a false (os_send r).
Definition bidi_reply_is_closed (a : loc) : ST S bool :=
  gets (λ s, from_option os_is_closed true (bidi_replies s !! a)).
Definition bidi_reply_drop_tx (a : loc) : ST S unit :=
  at_loc bidi_replies a tt (λ o, (tt, os_drop_tx o)).

Definition uni_reply_send (a : loc) (r : Result SendHandoff ConnTerminal) : ST S bool :=
  at_loc uni_replies a false (os_send r).
Definition uni_reply_is_closed (a : loc) : ST S bool :=
  gets (λ s, from_option os_is_closed true (uni_replies s !! a)).
Definition uni_reply_drop_tx (a : loc) : ST S unit :=
  at_loc uni_replies a tt (λ o, (tt, os_drop_tx o)).

(** ** The command channel *)

(** Dropping a command that was never applied: a [Send]'s completer fires
    [Cancelled] and its permit is released, a oneshot's sender is gone. *)
Definition drop_command (cmd : DriverCommand B) : ST S unit :=
  match cmd with
  | Send _ _ done permit => drop_completer done;; release_permit permit
  | Finish _ done => finish_drop_tx done
  | OpenBidi reply => bidi_reply_drop_tx reply
  | OpenUni reply => uni_reply_drop_tx reply
  | _ => skip
  end.

(** [cmd_tx.send(cmd)]; a refused command comes back in the error and is
    dropped. *)
Definition cmd_send (cmd : DriverCommand B) : ST S bool :=
  ok ← (λ s, let r := chan_send cmd (cmd_chan s) in (r.1, s <| cmd_chan := r.2 |>));
  (if (ok : bool) then skip else drop_command cmd);;
  mret ok.
Definition cmd_try_recv : ST S (TryRecv (DriverCommand B)) :=
  λ s, let r := chan_try_recv (cmd_chan s) in (r.1, s <| cmd_chan := r.2 |>).
Definition cmd_close : ST S unit := modify (λ s, s <| cmd_chan ::= chan_close |>).
Definition cmd_clone_tx : ST S unit := modify (λ s, s <| cmd_chan ::= chan_clone_tx |>).
Definition cmd_drop_tx : ST S unit := modify (λ s, s <| cmd_chan ::= chan_drop_tx |>).
(** [cmd_tx_weak.upgrade()]: [true] leaves one more strong sender. *)
Definition cmd_upgrade : ST S bool :=
  λ s, match chan_upgrade (cmd_chan s) with
       | Some c => (true, s <| cmd_chan := c |>)
       | None => (false, s)
       end.

(** ** Accept channels *)

Definition accept_bidi_try_reserve : ST S Reserve :=
  λ s, let r := chan_try_reserve (accept_bidi_chan s) in (r.1, s <| accept_bidi_chan := r.2 |>).
Definition accept_bidi_permit_drop : ST S unit :=
  modify (λ s, s <| accept_bidi_chan ::= chan_permit_drop |>).
Definition accept_bidi_permit_send (h : BidiHandoff) : ST S unit :=
  modify (λ s, s <| accept_bidi_chan ::= chan_permit_send h |>).
Definition accept_uni_try_reserve : ST S Reserve :=
  λ s, let r := chan_try_reserve (accept_uni_chan s) in (r.1, s <| accept_uni_chan := r.2 |>).
Definition accept_uni_permit_drop : ST S unit :=
  modify (λ s, s <| accept_uni_chan ::= chan_permit_drop |>).
Definition accept_uni_permit_send (h : RecvHandoff) : ST S unit :=
  modify (λ s, s <| accept_uni_chan ::= chan_permit_send h |>).

(** ** Drops *)

(** [Drop for HandoffCleanup], then its [cmd_tx]. *)
Definition cleanup_drop (h : HandoffCleanup) : ST S unit :=
  (if negb (hc_armed h) then skip
   else if hc_is_recv h then
     cmd_send (StopSending (hc_id h) 0);; skip
   else
     done ← alloc finish_replies os_new;
     cmd_send (Finish (hc_id h) done);;
     at_loc finish_replies done tt (λ o, (tt, (os_drop_rx o).2)));;
  cmd_drop_tx.

(** [HandoffCleanup::disarm], which consumes the guard. *)
Definition cleanup_disarm (h : HandoffCleanup) : ST S unit :=
  cleanup_drop (mkHandoffCleanup (hc_id h) (hc_is_recv h) false).

Definition drop_recv_handoff (h : RecvHandoff) : ST S unit :=
  bytes_drop_rx (rh_bytes h);;
  cmd_drop_tx;;
  cleanup_drop (rh_cleanup h).
Definition drop_send_handoff (h : SendHandoff) : ST S unit :=
  cmd_drop_tx;;
  cleanup_drop (sh_cleanup h).
Definition drop_bidi_handoff (h : BidiHandoff) : ST S unit :=
  drop_send_handoff (bh_send h);;
  drop_recv_handoff (bh_recv h).

(** [SendOp::complete]: resolve the op's completion, then drop the rest of it,
    which releases a write's permit. *)
Definition op_complete (op : SendOp B) (r : Result unit SendEnd) : ST S unit :=
  match op with
  | OpWrite _ done permit => complete_write done r;; release_permit permit
  | OpFinish done => finish_send done r;; skip
  end.
Definition drop_send_op (op : SendOp B) : ST S unit :=
  match op with
  | OpWrite _ done permit => drop_completer done;; release_permit permit
  | OpFinish done => finish_drop_tx done
  end.
Definition drop_send_state (s : StreamSendState B) : ST S unit :=
  for_each (send_ops s) drop_send_op.
Definition drop_recv_state (s : StreamRecvState) : ST S unit :=
  bytes_drop_tx (rs_bytes s).
End store.
