(* ===== verification/DriverCore.v ===== *)
(** * The driver's bookkeeping (driver.rs)

    The registries, the queues with their membership sets and the terminal
    transitions that every stage of the worker shares. *)

From S2P Require Import Prelude Interfaces Error Buffer Conn DriverTypes DriverStore.

Section core.
Context `{Runtime} {B C : Type} `{!Buf B} `{!QuicConn C}.
Abbreviation M := (ST (World B C)).

(** ** Access to the three parts of the world *)

Definition dget {A} (f : QuicheDriver B → A) : M A := gets (λ w, f (drv w)).
Definition dmod (f : QuicheDriver B → QuicheDriver B) : M unit :=
  modify (λ w, w <| drv ::= f |>).
Definition shared {A} (m : ST (Store B) A) : M A :=
  λ w, let r := m (sto w) in (r.1, w <| sto := r.2 |>).
Definition sget {A} (f : Store B → A) : M A := gets (λ w, f (sto w)).
Definition call {A} (m : ST C A) : M A :=
  λ w, let r := m (qc w) in (r.1, w <| qc := r.2 |>).
Definition ask {A} (f : C → A) : M A := gets (λ w, f (qc w)).

(** The worker's whole state. *)
Definition id_d (d : QuicheDriver B) : QuicheDriver B := d.

(** Change the send-registry entry of [id], if there is one. *)
Definition upd_send (id : N) (f : StreamSendState B → StreamSendState B) : M unit :=
  dmod (λ d, d <| send ::= alter f id |>).

(** ** Registry updates, with the drops they cause *)

Definition recv_insert (id : N) (s : StreamRecvState) : M unit :=
  old ← dget (λ d, recv d !! id);
  dmod (λ d, d <| recv ::= <[id := s]> |>);;
  for_some old (λ o, shared (drop_recv_state o)).
Definition recv_remove (id : N) : M unit :=
  old ← dget (λ d, recv d !! id);
  dmod (λ d, d <| recv ::= delete id |>);;
  for_some old (λ o, shared (drop_recv_state o)).
Definition send_insert (id : N) (s : StreamSendState B) : M unit :=
  old ← dget (λ d, send d !! id);
  dmod (λ d, d <| send ::= <[id := s]> |>);;
  for_some old (λ o, shared (drop_send_state o)).
Definition send_remove (id : N) : M unit :=
  old ← dget (λ d, send d !! id);
  dmod (λ d, d <| send ::= delete id |>);;
  for_some old (λ o, shared (drop_send_state o)).

(** [self.send.entry(id).or_insert_with(StreamSendState::new)] *)
Definition send_entry (id : N) : M (StreamSendState B) :=
  o ← dget (λ d, send d !! id);
  match o with
  | Some s => mret s
  | None =>
      c ← shared (alloc send_cells tc_new);
      let s := send_state_new c in
      dmod (λ d, d <| send ::= <[id := s]> |>);;
      mret s
  end.

(** ** Queues with membership sets *)

Definition requeue_readable (id : N) : M unit :=
  dmod (λ d, if decide (id ∈ readable_set d) then d
             else d <| readable_set ::= ({[id]} ∪.) |>
                    <| pending_readable ::= λ q, q ++ [id] |>).

Definition enqueue_resume (id : N) : M unit :=
  dmod (λ d, if decide (id ∈ resume_set d) then d
             else d <| resume_set ::= ({[id]} ∪.) |>
                    <| pending_resume ::= λ q, q ++ [id] |>).

Definition mark_send_runnable (id : N) : M unit :=
  dmod (λ d, if decide (id ∈ runnable_send_set d) then d
             else d <| runnable_send_set ::= ({[id]} ∪.) |>
                    <| runnable_send ::= λ q, q ++ [id] |>).

Definition drop_recv_memberships (id : N) : M unit :=
  dmod (λ d, if decide (id ∈ readable_set d)
             then d <| readable_set ::= (.∖ {[id]}) |>
                    <| pending_readable ::= filter (λ queued, queued ≠ id) |>
             else d);;
  dmod (λ d, if decide (id ∈ resume_set d)
             then d <| resume_set ::= (.∖ {[id]}) |>
                    <| pending_resume ::= filter (λ queued, queued ≠ id) |>
             else d).

Definition drop_send_membership (id : N) : M unit :=
  dmod (λ d, if decide (id ∈ runnable_send_set d)
             then d <| runnable_send_set ::= (.∖ {[id]}) |>
                    <| runnable_send ::= filter (λ queued, queued ≠ id) |>
             else d).

(** [runnable_send.pop_front()] and its siblings: the popped id leaves the set
    too. *)
Definition pop_runnable_send : M (option N) :=
  q ← dget runnable_send;
  match q with
  | [] => mret None
  | id :: q =>
      dmod (λ d, d <| runnable_send := q |> <| runnable_send_set ::= (.∖ {[id]}) |>);;
      mret (Some id)
  end.
Definition pop_readable : M (option N) :=
  q ← dget pending_readable;
  match q with
  | [] => mret None
  | id :: q =>
      dmod (λ d, d <| pending_readable := q |> <| readable_set ::= (.∖ {[id]}) |>);;
      mret (Some id)
  end.
Definition pop_resume : M (option N) :=
  q ← dget pending_resume;
  match q with
  | [] => mret None
  | id :: q =>
      dmod (λ d, d <| pending_resume := q |> <| resume_set ::= (.∖ {[id]}) |>);;
      mret (Some id)
  end.

Definition push_pending_admit (id : N) : M unit :=
  if is_bidi id then dmod (λ d, d <| pending_admit_bidi ::= λ q, q ++ [id] |>)
  else dmod (λ d, d <| pending_admit_uni ::= λ q, q ++ [id] |>).

(** ** Terminal transitions *)

(** All applicable directions of a registered stream are done. *)
Definition all_terminal (id : N) (d : QuicheDriver B) : bool :=
  match admission d !! id with
  | Some (Registered send_done recv_done) =>
      if is_bidi id then send_done && recv_done else recv_done
  | _ => false
  end.

Definition terminal_transition (id : N) : M unit :=
  t ← dget (all_terminal id);
  when t (
    dmod (λ d, d <| admission ::= delete id |>);;
    recv_remove id;;
    drop_recv_memberships id;;
    drop_send_membership id).

Definition reclaim_finished_send (id : N) : M unit :=
  fin ← dget (λ d, from_option finished false (send d !! id));
  live ← dget (λ d, bool_decide (is_Some (recv d !! id)));
  when (fin && negb live) (
    send_remove id;;
    dmod (λ d, d <| admission ::= delete id |>)).

Definition set_recv_done (a : AdmitState) : AdmitState :=
  match a with Registered send_done _ => Registered send_done true | p => p end.
Definition set_send_done (a : AdmitState) : AdmitState :=
  match a with Registered _ recv_done => Registered true recv_done | p => p end.

Definition mark_recv_done (id : N) : M unit :=
  recv_remove id;;
  drop_recv_memberships id;;
  dmod (λ d, d <| admission ::= alter set_recv_done id |>);;
  terminal_transition id;;
  reclaim_finished_send id.

Definition mark_send_done (id : N) : M unit :=
  upd_send id (λ s, s <| finished := true |>);;
  drop_send_membership id;;
  dmod (λ d, d <| admission ::= alter set_send_done id |>);;
  terminal_transition id.

Definition publish_recv_terminal (id : N) (end_ : RecvEnd) : M unit :=
  s ← dget (λ d, recv d !! id);
  for_some s (λ s, shared (recv_cell_set (rs_terminal s) end_)).

Definition abandon_recv (id : N) : M unit :=
  call (stream_shutdown id quiche.Read H3_NO_ERROR);;
  mark_recv_done id.

Definition resolve_recv_via_conn (id : N) : M unit :=
  t ← sget (λ s, tc_get (conn_terminal s));
  match t with
  | Some t => publish_recv_terminal id (RecvConn t);; mark_recv_done id
  | None => drop_recv_memberships id
  end.

Definition shutdown_peer_directions (id : N) (bidi : bool) : M unit :=
  call (stream_shutdown id quiche.Read H3_NO_ERROR);;
  when bidi (call (stream_shutdown id quiche.Write H3_NO_ERROR);; skip).
End core.

Arguments id_d {B} d /.
