(* ===== verification/DriverRecv.v ===== *)
(** * The read pump (driver.rs)

    Destructive readable intake, resumed and registered drains, admission of
    peer streams and promotion of parked ones. *)

From S2P Require Import Prelude Interfaces Error Buffer Conn DriverTypes DriverStore DriverCore.

Section recv.
Context `{Runtime} {B C : Type} `{!Buf B} `{!QuicConn C}.
Abbreviation M := (ST (World B C)).

Definition set_needs_iteration : M unit := dmod (λ d, d <| needs_iteration := true |>).

(** ** Intake *)

(** One turn of the intake loop; [false] when quiche has no readable id. *)
Definition intake_readable_one : M bool :=
  o ← call stream_readable_next;
  match o with
  | None => mret false
  | Some id =>
      d ← dget id_d;
      (if decide (is_Some (recv d !! id)) then requeue_readable id
       else if decide (is_Some (admission d !! id) ∨ is_Some (pending_admit d !! id)) then skip
       else
         dmod (λ d, d <| pending_admit ::= <[id := peer_stream_new id]> |>);;
         push_pending_admit id);;
      mret true
  end.

Definition intake_readable : M unit :=
  left ← budget_loop DISCOVERY_BUDGET intake_readable_one;
  when (Nat.eqb left 0) set_needs_iteration.

(** ** Draining one stream *)

(** Reserve a slot of the stream's byte channel.  On a full channel the park
    flag is published before the capacity is checked again; [false] means the
    drain returns. *)
Definition reserve_for_read (id : N) (s : StreamRecvState) : M bool :=
  r ← shared (bytes_try_reserve (rs_bytes s));
  match r with
  | Reserved => mret true
  | ReserveFull =>
      live ← dget (λ d, recv d !! id);
      for_some live (λ l, shared (flag_store (rs_blocked l) true));;
      r ← shared (bytes_try_reserve (rs_bytes s));
      match r with
      | Reserved =>
          live ← dget (λ d, recv d !! id);
          for_some live (λ l, shared (flag_store (rs_blocked l) false));;
          mret true
      | ReserveFull => mret false
      | ReserveClosed => abandon_recv id;; mret false
      end
  | ReserveClosed => abandon_recv id;; mret false
  end.

(** [buf.resize(MAX_CHUNK, 0)] *)
Definition window (buf : Bytes) : Bytes := resize (N.to_nat MAX_CHUNK) x00 buf.

(** Read into the arena window: the carved chunk (if any bytes came) and the
    FIN flag, or the error.  The arena is left fully carved. *)
Definition read_chunk (id : N) : M (QResult (option Bytes * bool)) :=
  buf ← dget (λ d, default [] (recv_buf d));
  r ← call (stream_recv id (window buf));
  match r.1 with
  | Ok (len, fin) =>
      if 0 <? len then
        let buf := take (N.to_nat len) r.2 in
        dmod (λ d, d <| recv_buf := Some (drop (N.to_nat len) buf) |>);;
        mret (Ok (Some (take (N.to_nat len) buf), fin))
      else
        dmod (λ d, d <| recv_buf := Some [] |>);;
        mret (Ok (None, fin))
  | Err e =>
      dmod (λ d, d <| recv_buf := Some [] |>);;
      mret (Err e)
  end.

(** One turn of the chunk loop; [false] when the drain returns. *)
Definition drain_chunk (id : N) (s : StreamRecvState) : M bool :=
  budget ← dget read_budget;
  if budget =? 0 then
    requeue_readable id;; set_needs_iteration;; mret false
  else
    ok ← reserve_for_read id s;
    if negb ok then mret false
    else
      read ← read_chunk id;
      match read with
      | Ok (chunk, fin) =>
          match chunk with
          | Some chunk =>
              shared (bytes_permit_send (rs_bytes s) chunk);;
              dmod (λ d, d <| read_budget ::= λ b, b - 1 |>)
          | None => shared (bytes_permit_drop (rs_bytes s))
          end;;
          if fin : bool then
            publish_recv_terminal id RecvFin;;
            mark_recv_done id;;
            mret false
          else
            more ← ask (stream_readable id);
            mret (bool_decide (is_Some chunk) && more)
      | Err err =>
          shared (bytes_permit_drop (rs_bytes s));;
          match classify_stream_recv_error err with
          | RClassDone => skip
          | RClassReset code => publish_recv_terminal id (RecvReset code);; mark_recv_done id
          | RClassConnGone => resolve_recv_via_conn id
          | RClassBug msg =>
              publish_recv_terminal id (RecvConn (Internal msg));; mark_recv_done id
          end;;
          mret false
      end.

(** The clone of the byte sender made at entry is dropped on every return. *)
Definition drain_stream (id : N) : M unit :=
  o ← dget (λ d, recv d !! id);
  match o with
  | None => skip
  | Some s =>
      left ← budget_loop CHUNK_BUDGET (drain_chunk id s);
      more ← ask (stream_readable id);
      when (Nat.eqb left 0 && more) (requeue_readable id;; set_needs_iteration)
  end.

Definition drain_resumed_one : M bool :=
  o ← pop_resume;
  match o with
  | None => mret false
  | Some id =>
      s ← dget (λ d, recv d !! id);
      match s with
      | Some s =>
          shared (flag_store (rs_resume s) false);;
          shared (flag_store (rs_blocked s) false);;
          drain_stream id
      | None => skip
      end;;
      mret true
  end.

Definition drain_resumed : M unit := budget_loop RECV_RESUME_BUDGET drain_resumed_one;; skip.

Definition phase1_one : M bool :=
  budget ← dget read_budget;
  if budget =? 0 then
    q ← dget pending_readable;
    when (negb (bool_decide (q = []))) set_needs_iteration;;
    mret false
  else
    o ← pop_readable;
    match o with
    | None => mret false
    | Some id =>
        live ← dget (λ d, bool_decide (is_Some (recv d !! id)));
        when live (drain_stream id);;
        mret true
    end.

Definition phase1_registered_drain : M unit := budget_loop READABLE_BUDGET phase1_one;; skip.

(** ** Admission *)

(** The strong senders a handoff holds: the one passed in goes to the cleanup
    guard, a clone of it is the handoff's own. *)
Definition build_recv (id : N) (retained : option RecvEnd)
    : M (option StreamRecvState * RecvHandoff * bool) :=
  depth ← dget recv_channel_depth;
  tx ← shared (alloc byte_chans (chan_new (Some (N.to_nat (N.max depth 1)))));
  terminal ← shared (alloc recv_cells tc_new);
  resume ← shared (alloc flags false);
  blocked ← shared (alloc flags false);
  let recv_done := bool_decide (is_Some retained) in
  for_some retained (λ e, shared (recv_cell_set terminal e));;
  shared cmd_clone_tx;;
  let handoff := mkRecvHandoff id tx terminal resume blocked (cleanup_new id true) in
  if recv_done then
    shared (bytes_drop_tx tx);;
    mret (None, handoff, true)
  else mret (Some (mkStreamRecvState tx terminal resume blocked), handoff, false).

Definition build_send (id : N) (retained : option SendEnd)
    : M (SendHandoff * option (StreamSendState B) * bool) :=
  status ← shared (alloc send_cells tc_new);
  let send_done := bool_decide (is_Some retained) in
  for_some retained (λ e, shared (send_cell_set status e));;
  shared cmd_clone_tx;;
  let handoff := mkSendHandoff id status (cleanup_new id false) in
  mret (handoff, if send_done then None else Some (send_state_new status), send_done).

(** What follows the registration of either class. *)
Definition admit_finish (id : N) : M AdmitResult :=
  terminal_transition id;;
  live ← dget (λ d, bool_decide (is_Some (recv d !! id)));
  when live (drain_stream id);;
  mret AdmitRegistered.

Definition admit_bidi (peer : PeerStream) : M AdmitResult :=
  let id := ps_id peer in
  r ← shared accept_bidi_try_reserve;
  match r with
  | ReserveFull => mret (AdmitFull peer)
  | ReserveClosed => shutdown_peer_directions id true;; mret AdmitTornDown
  | Reserved =>
      up ← shared cmd_upgrade;
      if negb up then
        shutdown_peer_directions id true;;
        shared accept_bidi_permit_drop;;
        mret AdmitTornDown
      else
        shared cmd_clone_tx;;
        rb ← build_recv id (pending_recv_terminal peer);
        sb ← build_send id (pending_send_terminal peer);
        let '(recv_state, recv_handoff, recv_done) := rb in
        let '(send_handoff, send_state, send_done) := sb in
        for_some recv_state (recv_insert id);;
        for_some send_state (send_insert id);;
        dmod (λ d, d <| admission ::= <[id := Registered send_done recv_done]> |>);;
        shared (accept_bidi_permit_send (mkBidiHandoff send_handoff recv_handoff));;
        admit_finish id
  end.

Definition admit_uni (peer : PeerStream) : M AdmitResult :=
  let id := ps_id peer in
  r ← shared accept_uni_try_reserve;
  match r with
  | ReserveFull => mret (AdmitFull peer)
  | ReserveClosed => shutdown_peer_directions id false;; mret AdmitTornDown
  | Reserved =>
      up ← shared cmd_upgrade;
      if negb up then
        shutdown_peer_directions id false;;
        shared accept_uni_permit_drop;;
        mret AdmitTornDown
      else
        rb ← build_recv id (pending_recv_terminal peer);
        let '(recv_state, recv_handoff, recv_done) := rb in
        for_some recv_state (recv_insert id);;
        dmod (λ d, d <| admission ::= <[id := Registered true recv_done]> |>);;
        shared (accept_uni_permit_send recv_handoff);;
        admit_finish id
  end.

Definition admit_one (peer : PeerStream) : M AdmitResult :=
  if is_bidi (ps_id peer) then admit_bidi peer else admit_uni peer.

Definition park (bidi : bool) (id : N) (peer : PeerStream) : M unit :=
  dmod (λ d, d <| admission ::= <[id := Parked peer]> |>);;
  if bidi then dmod (λ d, d <| parked_bidi ::= λ q, q ++ [id] |>)
  else dmod (λ d, d <| parked_uni ::= λ q, q ++ [id] |>).

Definition pop_pending (bidi : bool) : M (option N) :=
  if bidi then
    q ← dget pending_admit_bidi;
    dmod (λ d, d <| pending_admit_bidi ::= tail |>);; mret (head q)
  else
    q ← dget pending_admit_uni;
    dmod (λ d, d <| pending_admit_uni ::= tail |>);; mret (head q).

(** The loop of phase 2.  An iteration that finds a stale id pops it without
    spending budget, so the loop is bounded by the queues: [fuel] stands for
    their length. *)
Fixpoint phase2_loop (fuel budget : nat) (bidi_blocked uni_blocked prefer_bidi : bool)
    : M unit :=
  match fuel, budget with
  | O, _ | _, O => skip
  | Datatypes.S fuel, Datatypes.S budget' =>
      qb ← dget pending_admit_bidi;
      qu ← dget pending_admit_uni;
      let bidi_ready := negb bidi_blocked && negb (bool_decide (qb = [])) in
      let uni_ready := negb uni_blocked && negb (bool_decide (qu = [])) in
      if negb bidi_ready && negb uni_ready then skip
      else
        let bidi := match bidi_ready, uni_ready with
                    | true, true => prefer_bidi
                    | b, _ => b
                    end in
        o ← pop_pending bidi;
        match o with
        | None => phase2_loop fuel budget bidi_blocked uni_blocked (negb bidi)
        | Some id =>
            d ← dget id_d;
            if decide (is_Some (admission d !! id) ∨ is_Some (recv d !! id)) then
              dmod (λ d, d <| pending_admit ::= delete id |>);;
              phase2_loop fuel budget bidi_blocked uni_blocked (negb bidi)
            else
              dmod (λ d, d <| pending_admit ::= delete id |>);;
              match pending_admit d !! id with
              | None => phase2_loop fuel budget bidi_blocked uni_blocked (negb bidi)
              | Some peer =>
                  r ← admit_one peer;
                  match r with
                  | AdmitRegistered =>
                      phase2_loop fuel budget' bidi_blocked uni_blocked (negb bidi)
                  | AdmitFull peer =>
                      park bidi id peer;;
                      phase2_loop fuel budget' (bidi_blocked || bidi)
                        (uni_blocked || negb bidi) (negb bidi)
                  | AdmitTornDown =>
                      phase2_loop fuel budget' (bidi_blocked || bidi)
                        (uni_blocked || negb bidi) (negb bidi)
                  end
              end
        end
  end.

Definition phase2_admission : M unit :=
  d ← dget id_d;
  phase2_loop (Datatypes.S (length (pending_admit_bidi d) + length (pending_admit_uni d)))
    ADMIT_BUDGET false false true.

(** ** Promotion of parked streams *)

Definition pop_parked (bidi : bool) : M (option N) :=
  if bidi then
    q ← dget parked_bidi;
    dmod (λ d, d <| parked_bidi ::= tail |>);; mret (head q)
  else
    q ← dget parked_uni;
    dmod (λ d, d <| parked_uni ::= tail |>);; mret (head q).

Definition promote_one (bidi : bool) : M bool :=
  o ← pop_parked bidi;
  match o with
  | None => mret false
  | Some id =>
      a ← dget (λ d, admission d !! id);
      match a with
      | Some (Parked peer) =>
          dmod (λ d, d <| admission ::= delete id |>);;
          r ← admit_one peer;
          match r with
          | AdmitRegistered => mret true
          | AdmitFull peer =>
              dmod (λ d, d <| admission ::= <[id := Parked peer]> |>);;
              (if bidi then dmod (λ d, d <| parked_bidi ::= cons id |>)
               else dmod (λ d, d <| parked_uni ::= cons id |>));;
              mret false
          | AdmitTornDown => mret false
          end
      | _ => mret true
      end
  end.

Definition promote_parked (bidi : bool) : M unit :=
  armed ← sget (if bidi then accept_bidi_resume else accept_uni_resume);
  when armed (
    (if bidi then shared (modify (λ s, s <| accept_bidi_resume := false |>))
     else shared (modify (λ s, s <| accept_uni_resume := false |>)));;
    budget_loop PROMOTE_BUDGET (promote_one bidi);; skip).

Definition run_read_pump : M unit :=
  intake_readable;;
  drain_resumed;;
  phase1_registered_drain;;
  phase2_admission;;
  promote_parked true;;
  promote_parked false.
End recv.
