(* ===== verification/DriverSend.v ===== *)
(** * The send machine (driver.rs)

    Ordered per-stream operations, the reset preemption, the destructive
    writable scan and the round-robin send stage with its deferred ("held")
    writes. *)

From S2P Require Import Prelude Interfaces Error Buffer Conn DriverTypes DriverStore DriverCore DriverRecv.

Section send.
Context `{Runtime} {B C : Type} `{!Buf B} `{!QuicConn C}.
Abbreviation M := (ST (World B C)).

(** ** Queueing *)

Definition enqueue_send_op (id : N) (op : SendOp B) : M unit :=
  state ← send_entry id;
  match terminal state with
  | Some end_ => shared (op_complete op (Err end_))
  | None =>
      upd_send id (λ s, s <| send_ops ::= λ q, q ++ [op] |>);;
      mark_send_runnable id
  end.

Definition apply_reset (id : N) (code : N) : M unit :=
  state ← send_entry id;
  if bool_decide (is_Some (pending_reset state)) || bool_decide (is_Some (terminal state))
  then skip
  else
    let end_ := SendReset code in
    shared (send_cell_set (status state) end_);;
    let t := default end_ (terminal state) in
    upd_send id (λ s, s <| pending_reset := Some code |> <| terminal := Some t |>
                        <| send_ops := [] |> <| held := None |>);;
    for_each (send_ops state) (λ op, shared (op_complete op (Err t)));;
    mark_send_runnable id.

Definition send_terminal_transition (id : N) (end_ : SendEnd) : M unit :=
  o ← dget (λ d, send d !! id);
  match o with
  | None => skip
  | Some state =>
      shared (send_cell_set (status state) end_);;
      let t := default end_ (terminal state) in
      upd_send id (λ s, s <| terminal := Some t |> <| held := None |> <| send_ops := [] |>);;
      for_each (send_ops state) (λ op, shared (op_complete op (Err t)));;
      mark_send_done id
  end.

(** ** The writable scan *)

Definition stopped_end (r : QResult N) : option SendEnd :=
  match r with
  | Err (quiche.StreamStopped code) => Some (SendStopped code)
  | _ => None
  end.

(** Keep an already captured send terminal. *)
Definition capture_stop (stopped : option SendEnd) (p : PeerStream) : PeerStream :=
  match pending_send_terminal p with
  | None => mkPeerStream (ps_id p) stopped (pending_recv_terminal p)
  | Some _ => p
  end.

Definition writable_registered (id : N) (state : StreamSendState B) : M unit :=
  cap ← call (stream_capacity id);
  match cap with
  | Err (quiche.StreamStopped code) =>
      let owns_reset := bool_decide (is_Some (pending_reset state))
                        || bool_decide (is_Some (terminal state)) in
      when (negb owns_reset) (send_terminal_transition id (SendStopped code))
  | _ =>
      let has_work := negb (bool_decide (length (send_ops state) = 0%nat))
                      || bool_decide (is_Some (pending_reset state)) in
      when has_work (mark_send_runnable id)
  end.

Definition writable_peer (id : N) : M unit :=
  cap ← call (stream_capacity id);
  let stopped := stopped_end cap in
  d ← dget id_d;
  match pending_admit d !! id with
  | Some _ => dmod (λ d, d <| pending_admit ::= alter (capture_stop stopped) id |>)
  | None =>
      match admission d !! id with
      | Some (Parked peer) =>
          dmod (λ d, d <| admission ::= <[id := Parked (capture_stop stopped peer)]> |>)
      | _ =>
          dmod (λ d, d <| pending_admit ::=
                           <[id := capture_stop stopped (peer_stream_new id)]> |>);;
          push_pending_admit id;;
          set_needs_iteration
      end
  end.

Definition stage_writable_one : M bool :=
  o ← call stream_writable_next;
  match o with
  | None => mret false
  | Some id =>
      d ← dget id_d;
      match send d !! id with
      | Some state => writable_registered id state
      | None =>
          if negb (is_bidi id) then skip
          else match admission d !! id with
               | Some (Registered _ _) => skip
               | _ => writable_peer id
               end
      end;;
      mret true
  end.

Definition stage_writable : M unit :=
  left ← budget_loop WRITABLE_BUDGET stage_writable_one;
  when (Nat.eqb left 0) set_needs_iteration.

(** ** One round-robin turn *)

Definition rearm_send (id : N) : M TurnOutcome :=
  r ← call (stream_writable id REARM_THRESHOLD);
  match r with
  | Err (quiche.StreamStopped code) =>
      send_terminal_transition id (SendStopped code);; mret Drop
  | _ => mret Park
  end.

Definition classify_send_err (id : N) (err : quiche.Error) : M TurnOutcome :=
  match classify_stream_send_error err with
  | SClassStopped code => send_terminal_transition id (SendStopped code);; mret Drop
  | SClassBlocked => rearm_send id
  | SClassConnGone =>
      t ← sget (λ s, tc_get (conn_terminal s));
      match t with
      | Some t => send_terminal_transition id (SendConn t)
      | None => drop_send_membership id
      end;;
      mret Drop
  | SClassLimit | SClassBug _ =>
      send_terminal_transition id (SendConn (Internal "unexpected stream_send error"));;
      mret Drop
  end.

Definition runnable_after_pop (id : N) : M TurnOutcome :=
  o ← dget (λ d, send d !! id);
  match o with
  | Some s =>
      if bool_decide (terminal s = None) && negb (bool_decide (length (send_ops s) = 0%nat))
      then mret Requeue else mret Drop
  | None => mret Drop
  end.

(** The bytes one turn offers to [stream_send]. *)
Definition offer (chunk : Bytes) : Bytes := take (N.to_nat MAX_WRITE_CHUNK) chunk.
Definition offered (buf : B) : N :=
  if buf_has_remaining buf
  then N.min (N.of_nat (length (buf_chunk buf))) MAX_WRITE_CHUNK else 0.

Definition flush_held_once (id : N) (fin : bool) : M HeldFlush :=
  o ← dget (λ d, send d !! id ≫= held);
  match o with
  | None => mret FlushComplete
  | Some h =>
      let remaining := buf_remaining (held_buf h) in
      r ← send_from_buf (held_buf h) (λ chunk,
            let n := N.min (N.of_nat (length chunk)) MAX_WRITE_CHUNK in
            let last := fin && (n =? remaining) in
            call (stream_send id (offer chunk) last));
      upd_send id (λ s, s <| held := Some (mkHeldWrite r.2) |>);;
      match r.1 with
      | Ok written =>
          if negb (buf_has_remaining r.2) then
            upd_send id (λ s, s <| held := None |>);;
            mret FlushComplete
          else if written =? offered (held_buf h) then mret FlushMore
          else
            t ← rearm_send id;
            mret (match t with Drop => FlushTerminal | _ => FlushBlocked end)
      | Err err =>
          t ← classify_send_err id err;
          mret (match t with
                | Park => FlushBlocked
                | Requeue => FlushMore
                | Drop => FlushTerminal
                end)
      end
  end.

Definition pop_op (id : N) : M unit := upd_send id (λ s, s <| send_ops ::= tail |>).

(** Defer a write that fits the stream's capacity: complete it now, release
    its permit and keep the buffer for the next send action. *)
Definition hold_write (id : N) (buf : B) (done : WriteCompleter)
    (permit : option SendBytesPermit) : M TurnOutcome :=
  pop_op id;;
  shared (complete_write done (Ok tt));;
  shared (release_permit permit);;
  upd_send id (λ s, s <| held := Some (mkHeldWrite buf) |>);;
  runnable_after_pop id.

(** The capacity-limited write of the head operation. *)
Definition partial_write (id : N) (buf : B) (done : WriteCompleter)
    (permit : option SendBytesPermit) : M TurnOutcome :=
  r ← send_from_buf buf (λ chunk, call (stream_send id (offer chunk) false));
  upd_send id (λ s, s <| send_ops ::= λ q, OpWrite r.2 done permit :: tail q |>);;
  match r.1 with
  | Ok written =>
      if negb (buf_has_remaining r.2) then
        pop_op id;;
        shared (op_complete (OpWrite r.2 done permit) (Ok tt));;
        runnable_after_pop id
      else if written =? offered buf then mret Requeue
      else rearm_send id
  | Err err => classify_send_err id err
  end.

Definition service_head_write (id : N) : M TurnOutcome :=
  o ← dget (λ d, head (from_option send_ops [] (send d !! id)));
  match o with
  | Some (OpWrite buf done permit) =>
      let remaining := buf_remaining buf in
      cap ← call (stream_capacity id);
      match cap with
      | Err err => classify_send_err id err
      | Ok cap =>
          if (0 <? remaining) && (remaining <=? cap)
          then hold_write id buf done permit
          else partial_write id buf done permit
      end
  | _ => mret Drop
  end.

Definition service_write_turn (id : N) : M TurnOutcome :=
  h ← dget (λ d, bool_decide (is_Some (send d !! id ≫= held)));
  if h : bool then
    f ← flush_held_once id false;
    match f with
    | FlushComplete => service_head_write id
    | FlushMore => mret Requeue
    | FlushBlocked => mret Park
    | FlushTerminal => mret Drop
    end
  else service_head_write id.

Definition complete_finish_op (id : N) : M unit :=
  o ← dget (λ d, head (from_option send_ops [] (send d !! id)));
  for_some o (λ op, pop_op id;; shared (op_complete op (Ok tt)));;
  mark_send_done id;;
  reclaim_finished_send id.

Definition service_finish_turn (id : N) : M TurnOutcome :=
  h ← dget (λ d, bool_decide (is_Some (send d !! id ≫= held)));
  if h : bool then
    f ← flush_held_once id true;
    match f with
    | FlushComplete => complete_finish_op id;; mret Drop
    | FlushMore => mret Requeue
    | FlushBlocked => mret Park
    | FlushTerminal => mret Drop
    end
  else
    r ← call (stream_send id [] true);
    match r with
    | Ok _ => complete_finish_op id;; mret Drop
    | Err err => classify_send_err id err
    end.

Definition service_send_turn (id : N) : M TurnOutcome :=
  o ← dget (λ d, send d !! id);
  match o ≫= pending_reset with
  | Some code =>
      upd_send id (λ s, s <| pending_reset := None |>);;
      call (stream_shutdown id quiche.Write code);;
      mark_send_done id;;
      mret Drop
  | None =>
      match o with
      | None => mret Drop
      | Some s =>
          if negb (bool_decide (terminal s = None)
                   && (negb (bool_decide (length (send_ops s) = 0%nat))
                       || bool_decide (is_Some (held s)))) then mret Drop
          else if bool_decide (is_Some (held s)) && bool_decide (length (send_ops s) = 0%nat)
          then
            f ← flush_held_once id false;
            mret (match f with
                  | FlushComplete | FlushTerminal => Drop
                  | FlushMore => Requeue
                  | FlushBlocked => Park
                  end)
          else match head (send_ops s) with
               | Some (OpWrite _ _ _) => service_write_turn id
               | _ => service_finish_turn id
               end
      end
  end.

Definition stage_send_one : M bool :=
  o ← pop_runnable_send;
  match o with
  | None => mret false
  | Some id =>
      t ← service_send_turn id;
      match t with
      | Requeue => mark_send_runnable id;; set_needs_iteration
      | Park | Drop => skip
      end;;
      mret true
  end.

Definition stage_send : M unit :=
  budget_loop WRITE_BUDGET stage_send_one;;
  q ← dget runnable_send;
  when (negb (bool_decide (q = []))) set_needs_iteration.

(** ** Quiescent held writes *)

Definition quiescent_held (s : StreamSendState B) : bool :=
  bool_decide (terminal s = None) && bool_decide (is_Some (held s))
    && bool_decide (length (send_ops s) = 0%nat).

Definition has_quiescent_held_write (d : QuicheDriver B) : bool :=
  existsb (λ p, quiescent_held p.2) (hash_iter (send d)).

Definition mark_quiescent_held_writes_runnable : M unit :=
  ids ← dget (λ d, (filter (λ p, quiescent_held p.2 = true) (hash_iter (send d))).*1);
  for_each ids mark_send_runnable;;
  q ← dget runnable_send;
  when (negb (bool_decide (q = []))) set_needs_iteration.
End send.
