(* ===== verification/Driver.v ===== *)
(** * The worker's callbacks (driver.rs)

    Local opens, command application, the close barrier, teardown, and the
    [ApplicationOverQuic] callbacks that compose the stages. *)

From S2P Require Import Prelude Interfaces Error Buffer Conn DriverTypes DriverStore DriverCore DriverRecv DriverSend.

Section driver.
Context `{Runtime} {B C : Type} `{!Buf B} `{!QuicConn C}.
Abbreviation M := (ST (World B C)).

(** ** Local opens *)

Definition open_terminal : M ConnTerminal :=
  sget (λ s, default (Internal "open declined without a terminal") (tc_get (conn_terminal s))).

Definition cleanup_undeliverable_open (id : N) (bidi : bool) : M unit :=
  send_remove id;;
  call (stream_shutdown id quiche.Write H3_REQUEST_CANCELLED);;
  when bidi (
    recv_remove id;;
    call (stream_shutdown id quiche.Read H3_REQUEST_CANCELLED);; skip).

(** Materialize one bidi open: the halves are registered and handed over. *)
Definition materialize_bidi (id : N) (reply : loc) : M unit :=
  dmod (λ d, d <| next_bidi_id := u64_wrap (id + 4) |>);;
  shared cmd_clone_tx;;
  rb ← build_recv id None;
  sb ← build_send id None;
  let '(recv_state, recv_handoff, _) := rb in
  let '(send_handoff, send_state, _) := sb in
  for_some recv_state (recv_insert id);;
  for_some send_state (send_insert id);;
  let handoff := mkBidiHandoff send_handoff recv_handoff in
  ok ← shared (bidi_reply_send reply (Ok handoff));
  when (negb ok) (
    shared (drop_bidi_handoff handoff);;
    cleanup_undeliverable_open id true).

(** Serve one queued request; [true]: out of peer credit, the stage returns. *)
Definition open_bidi_one (reply : loc) : M bool :=
  closed ← shared (bidi_reply_is_closed reply);
  if closed : bool then shared (bidi_reply_drop_tx reply);; mret false
  else
    credit ← ask peer_streams_left_bidi;
    if credit =? 0 then
      dmod (λ d, d <| open_bidi ::= cons reply |>);; mret true
    else
      id ← dget next_bidi_id;
      up ← shared cmd_upgrade;
      if negb up then
        t ← open_terminal; shared (bidi_reply_send reply (Err t));; mret false
      else
        r ← call (stream_priority id 127 true);
        match r with
        | Err _ =>
            t ← open_terminal; shared (bidi_reply_send reply (Err t));;
            shared cmd_drop_tx;; mret false
        | Ok _ => materialize_bidi id reply;; mret false
        end.

Fixpoint open_bidi_loop (budget : nat) : M bool :=
  match budget with
  | O => mret false
  | S b =>
      q ← dget open_bidi;
      match q with
      | [] => mret false
      | reply :: q =>
          dmod (λ d, d <| open_bidi := q |>);;
          blocked ← open_bidi_one reply;
          if blocked : bool then mret true else open_bidi_loop b
      end
  end.

Definition stage_open_bidi : M unit :=
  blocked ← open_bidi_loop OPEN_BUDGET;
  if blocked : bool then skip
  else
    q ← dget open_bidi;
    when (negb (bool_decide (q = []))) set_needs_iteration.

Definition materialize_uni (id : N) (reply : loc) : M unit :=
  dmod (λ d, d <| next_uni_id := u64_wrap (id + 4) |>);;
  sb ← build_send id None;
  let '(send_handoff, send_state, _) := sb in
  for_some send_state (send_insert id);;
  ok ← shared (uni_reply_send reply (Ok send_handoff));
  when (negb ok) (
    shared (drop_send_handoff send_handoff);;
    cleanup_undeliverable_open id false).

Definition open_uni_one (reply : loc) : M bool :=
  closed ← shared (uni_reply_is_closed reply);
  if closed : bool then shared (uni_reply_drop_tx reply);; mret false
  else
    credit ← ask peer_streams_left_uni;
    if credit =? 0 then
      dmod (λ d, d <| open_uni ::= cons reply |>);; mret true
    else
      id ← dget next_uni_id;
      up ← shared cmd_upgrade;
      if negb up then
        t ← open_terminal; shared (uni_reply_send reply (Err t));; mret false
      else
        r ← call (stream_priority id 127 true);
        match r with
        | Err _ =>
            t ← open_terminal; shared (uni_reply_send reply (Err t));;
            shared cmd_drop_tx;; mret false
        | Ok _ => materialize_uni id reply;; mret false
        end.

Fixpoint open_uni_loop (budget : nat) : M bool :=
  match budget with
  | O => mret false
  | S b =>
      q ← dget open_uni;
      match q with
      | [] => mret false
      | reply :: q =>
          dmod (λ d, d <| open_uni := q |>);;
          blocked ← open_uni_one reply;
          if blocked : bool then mret true else open_uni_loop b
      end
  end.

Definition stage_open_uni : M unit :=
  blocked ← open_uni_loop OPEN_BUDGET;
  if blocked : bool then skip
  else
    q ← dget open_uni;
    when (negb (bool_decide (q = []))) set_needs_iteration.

Definition stage_open : M unit := stage_open_bidi;; stage_open_uni.

(** ** Commands *)

Definition clean_parked (id : N) : M unit :=
  a ← dget (λ d, admission d !! id);
  match a with
  | Some (Parked _) =>
      shutdown_peer_directions id (is_bidi id);;
      dmod (λ d, d <| admission ::= delete id |>)
  | _ => skip
  end.

Definition clean_pending (id : N) : M unit :=
  p ← dget (λ d, pending_admit d !! id);
  dmod (λ d, d <| pending_admit ::= delete id |>);;
  when (bool_decide (is_Some p)) (shutdown_peer_directions id (is_bidi id)).

Definition clean_undelivered_peer_streams : M unit :=
  parked ← dget (λ d, parked_bidi d ++ parked_uni d);
  dmod (λ d, d <| parked_bidi := [] |> <| parked_uni := [] |>);;
  for_each parked clean_parked;;
  pending ← dget (λ d, pending_admit_bidi d ++ pending_admit_uni d);
  dmod (λ d, d <| pending_admit_bidi := [] |> <| pending_admit_uni := [] |>);;
  for_each pending clean_pending.

Definition apply_command (cmd : DriverCommand B) : M unit :=
  match cmd with
  | RecvResume id => enqueue_resume id
  | AcceptBidiResume => shared (modify (λ s, s <| accept_bidi_resume := true |>))
  | AcceptUniResume => shared (modify (λ s, s <| accept_uni_resume := true |>))
  | Send id buf done permit => enqueue_send_op id (OpWrite buf done permit)
  | Finish id done => enqueue_send_op id (OpFinish done)
  | Reset id code => apply_reset id code
  | StopSending id code =>
      call (stream_shutdown id quiche.Read code);;
      mark_recv_done id
  | Close code reason =>
      dmod (λ d, if bool_decide (pending_close d = None) && negb (explicit_close_attempted d)
                 then d <| pending_close := Some (mkPendingClose code reason) |>
                 else d)
  | ConnectionDropped => clean_undelivered_peer_streams
  | OpenBidi reply => dmod (λ d, d <| open_bidi ::= λ q, q ++ [reply] |>)
  | OpenUni reply => dmod (λ d, d <| open_uni ::= λ q, q ++ [reply] |>)
  end.

(** The next command in receipt order: the inbox first, then the channel. *)
Definition next_command : M (option (DriverCommand B)) :=
  q ← dget inbox;
  match q with
  | cmd :: q => dmod (λ d, d <| inbox := q |>);; mret (Some cmd)
  | [] =>
      r ← shared cmd_try_recv;
      mret (match r with Received cmd => Some cmd | _ => None end)
  end.

Definition apply_inbox_one : M bool :=
  o ← next_command;
  match o with
  | None => mret false
  | Some cmd => apply_command cmd;; mret true
  end.

Definition apply_inbox : M unit :=
  budget_loop CMD_BUDGET apply_inbox_one;;
  n ← dget (λ d, length (inbox d));
  when (negb (Nat.eqb n 0)) set_needs_iteration.

(** ** The close barrier *)

Definition explicit_close_error : string := "explicit qconn.close returned an unexpected error".
Definition last_handle_close_error : string :=
  "last-handle qconn.close returned an unexpected error".

(** [qconn.close(true, code, reason)] and the classification of its result. *)
Definition issue_close (code : N) (reason : Bytes) (bug : string) : M (Result unit string) :=
  dmod (λ d, d <| explicit_close_attempted := true |>);;
  r ← call (conn_close true code reason);
  match r with
  | Ok _ =>
      dmod (λ d, d <| local_close := Some (mkRecordedLocalClose code reason) |>
                   <| graceful_close_issued := true |>);;
      mret (Ok tt)
  | Err quiche.Done =>
      dmod (λ d, d <| graceful_close_issued := true |>);;
      mret (Ok tt)
  | Err _ =>
      dmod (λ d, d <| close_bug := Some bug |>);;
      mret (Err bug)
  end.

Definition apply_close_barrier : M (Result unit string) :=
  d ← dget id_d;
  if explicit_close_attempted d then mret (Ok tt)
  else
    match pending_close d with
    | Some pc =>
        dmod (λ d, d <| pending_close := None |>);;
        issue_close (pc_code pc) (pc_reason pc) explicit_close_error
    | None =>
        c ← ask (λ c, c);
        if last_handle_teardown d
           && negb (bool_decide (is_Some (peer_error c)))
           && negb (bool_decide (is_Some (local_error c)))
           && negb (is_timed_out c)
           && negb (bool_decide (is_Some (local_close d)))
        then issue_close H3_NO_ERROR [] last_handle_close_error
        else mret (Ok tt)
    end.

(** ** The acting iteration *)

Definition has_runnable_remainder (w : World B C) : bool :=
  let d := drv w in let s := sto w in
  negb (bool_decide (pending_resume d = []))
  || negb (bool_decide (pending_readable d = []))
  || (negb (bool_decide (pending_admit_bidi d = []))
      && (bool_decide (parked_bidi d = []) || accept_bidi_resume s))
  || (negb (bool_decide (pending_admit_uni d = []))
      && (bool_decide (parked_uni d = []) || accept_uni_resume s))
  || negb (bool_decide (runnable_send d = []))
  || (negb (bool_decide (parked_bidi d = [])) && accept_bidi_resume s)
  || (negb (bool_decide (parked_uni d = [])) && accept_uni_resume s).

Definition do_process_reads : M unit :=
  dmod (λ d, d <| needs_iteration := false |> <| read_budget := READ_BUDGET |>
               <| reads_ran_this_iter := true |>);;
  run_read_pump.

Definition do_process_writes : M (Result unit string) :=
  ran ← dget reads_ran_this_iter;
  let no_packet := negb ran in
  when no_packet
    (dmod (λ d, d <| needs_iteration := false |> <| read_budget := READ_BUDGET |>));;
  apply_inbox;;
  when no_packet run_read_pump;;
  stage_open;;
  stage_writable;;
  stage_send;;
  dmod (λ d, d <| reads_ran_this_iter := false |>);;
  more ← gets has_runnable_remainder;
  dmod (λ d, d <| needs_iteration ::= λ n, n || more |>);;
  apply_close_barrier.

(** ** Waiting *)

Definition wait_decision (d : QuicheDriver B) : WaitDecision :=
  if graceful_close_issued d then WaitPending
  else if negb (Nat.eqb (length (inbox d)) 0) || needs_iteration d then WaitYield
  else WaitRecv.

(** Where the [wait_for_data] future is suspended. *)
Inductive WaitPoint := AwaitPending | AwaitYield | AwaitQuiescent | AwaitRecv.

Definition wait_for_data_start (d : QuicheDriver B) : WaitPoint :=
  match wait_decision d with
  | WaitPending => AwaitPending
  | WaitYield => AwaitYield
  | WaitRecv => if has_quiescent_held_write d then AwaitQuiescent else AwaitRecv
  end.

(** One poll of the future at its suspension point: [true] once it has
    resolved.  Other tasks may run between the start and the poll. *)
Definition wait_for_data_poll (p : WaitPoint) : M bool :=
  match p with
  | AwaitPending => mret false
  | AwaitYield => mret true
  | AwaitQuiescent =>
      r ← shared cmd_try_recv;
      match r with
      | Received cmd => dmod (λ d, d <| inbox ::= λ q, q ++ [cmd] |>)
      | TryEmpty => mark_quiescent_held_writes_runnable
      | TryDisconnected => dmod (λ d, d <| last_handle_teardown := true |>)
      end;;
      mret true
  | AwaitRecv =>
      r ← shared cmd_try_recv;
      match r with
      | Received cmd => dmod (λ d, d <| inbox ::= λ q, q ++ [cmd] |>);; mret true
      | TryEmpty => mret false
      | TryDisconnected => dmod (λ d, d <| last_handle_teardown := true |>);; mret true
      end
  end.

(** ** Teardown *)

Definition classify_conn_terminal (d : QuicheDriver B) (c : C) : ConnTerminal :=
  match close_bug d with
  | Some msg => Internal msg
  | None =>
      match peer_error c with
      | Some pe => conn_terminal_from_error Peer pe
      | None =>
          if is_timed_out c then TimedOut
          else match local_close d with
               | Some lc => AppClose Local (lc_code lc) (lc_reason lc)
               | None =>
                   match local_error c with
                   | Some le => conn_terminal_from_error Local le
                   | None => Internal "connection closed without a recorded terminal"
                   end
               end
      end
  end.

Definition complete_command_on_close (cmd : DriverCommand B) (t : ConnTerminal)
    : ST (Store B) unit :=
  match cmd with
  | Send _ _ done permit =>
      complete_write done (Err (SendConn t));; release_permit permit
  | Finish _ done => finish_send done (Err (SendConn t));; skip
  | OpenBidi reply => bidi_reply_send reply (Err t);; skip
  | OpenUni reply => uni_reply_send reply (Err t);; skip
  | _ => skip
  end.

(** Publish the terminal into one live send half; its operations are collected
    by the caller. *)
Definition seal_send_state (t : ConnTerminal) (s : StreamSendState B) : StreamSendState B :=
  s <| terminal := Some (default (SendConn t) (terminal s)) |> <| held := None |>
    <| send_ops := [] |>.

(** The drain of the closed command channel: [fuel] is its length. *)
Fixpoint close_drain_loop (fuel : nat) (t : ConnTerminal) : M unit :=
  match fuel with
  | O => skip
  | S f =>
      o ← next_command;
      match o with
      | None => skip
      | Some cmd => shared (complete_command_on_close cmd t);; close_drain_loop f t
      end
  end.

(** Publish to the connection's cells and to every live receive half. *)
Definition close_publish (t : ConnTerminal) : M unit :=
  shared (conn_cell_set conn_terminal t);;
  shared (conn_cell_set accept_terminal_bidi t);;
  shared (conn_cell_set accept_terminal_uni t);;
  rs ← dget (λ d, (hash_iter (recv d)).*2);
  for_each rs (λ s, shared (recv_cell_set (rs_terminal s) (RecvConn t))).

(** Seal every live send half and complete the operations it held. *)
Definition close_sends (t : ConnTerminal) : M unit :=
  ss ← dget (λ d, (hash_iter (send d)).*2);
  for_each ss (λ s, shared (send_cell_set (status s) (SendConn t)));;
  dmod (λ d, d <| send ::= fmap (seal_send_state t) |>);;
  for_each (mjoin (send_ops <$> ss)) (λ op, shared (op_complete op (Err (SendConn t)))).

(** Close the command ingress and resolve what is left in it. *)
Definition close_commands (t : ConnTerminal) : M unit :=
  shared cmd_close;;
  n ← gets (λ w, (length (inbox (drv w)) + length (cs_queue (chan_view (cmd_chan (sto w)))))%nat);
  close_drain_loop (S n) t.

(** Decline the opens already staged. *)
Definition close_opens (t : ConnTerminal) : M unit :=
  ob ← dget open_bidi;
  dmod (λ d, d <| open_bidi := [] |>);;
  for_each ob (λ reply, shared (bidi_reply_send reply (Err t));; skip);;
  ou ← dget open_uni;
  dmod (λ d, d <| open_uni := [] |>);;
  for_each ou (λ reply, shared (uni_reply_send reply (Err t));; skip).

Definition do_on_conn_close : M unit :=
  t ← gets (λ w, classify_conn_terminal (drv w) (qc w));
  close_publish t;;
  close_sends t;;
  close_commands t;;
  close_opens t.

(** ** Setup and exit *)

Definition established_send (r : Result unit SetupFailure) : ST (Store B) unit :=
  modify (λ s, s <| established_reply ::= λ o, (os_send r o).2 |>).

Definition on_conn_established : M unit :=
  dmod (λ d, d <| acting := true |>);;
  e ← dget established;
  dmod (λ d, d <| established := false |>);;
  when e (shared (established_send (Ok tt))).

Definition should_act (d : QuicheDriver B) : bool := acting d.

(** [Drop for QuicheDriver], then the drops of its fields in declaration
    order.  The registration guard is the caller's to drop. *)
Definition driver_drop : M (option N) :=
  e ← dget established;
  dmod (λ d, d <| established := false |>);;
  when e (shared (established_send (Err PreHandshakeWorkerExit)));;
  cmds ← shared (λ s, let r := chan_drop_rx (cmd_chan s) in (r.1, s <| cmd_chan := r.2 |>));
  for_each cmds (λ cmd, shared (drop_command cmd));;
  d ← dget id_d;
  for_each (inbox d) (λ cmd, shared (drop_command cmd));;
  shared (modify (λ s, s <| accept_bidi_chan ::= chan_drop_tx |>));;
  shared (modify (λ s, s <| accept_uni_chan ::= chan_drop_tx |>));;
  for_each (open_bidi d) (λ reply, shared (bidi_reply_drop_tx reply));;
  for_each (open_uni d) (λ reply, shared (uni_reply_drop_tx reply));;
  for_each (hash_iter (recv d)).*2 (λ s, shared (drop_recv_state s));;
  for_each (hash_iter (send d)).*2 (λ s, shared (drop_send_state s));;
  mret (conn_registration d).

(** ** Construction *)

Definition driver_init (srv : bool) (buffers : DriverBufferConfig) : QuicheDriver B :=
  mkQuicheDriver [] srv (if srv then 1 else 0) (if srv then 3 else 2) [] []
    ∅ ∅ [] ∅ ∅ [] ∅ [] ∅ ∅ [] [] [] [] true false
    (cfg_recv_channel_depth buffers) None false false false false READ_BUDGET
    None false None None None.

Definition store_init (accept_bidi_cap accept_uni_cap : N) (buffers : DriverBufferConfig)
    : Store B :=
  mkStore tc_new (sa_new (cfg_max_buffered_send_bytes buffers)) (chan_new None)
    (chan_new (Some (N.to_nat (N.max accept_bidi_cap 1))))
    (chan_new (Some (N.to_nat (N.max accept_uni_cap 1))))
    tc_new tc_new false false os_new [] [] [] [] [] [] [] [] [].

(** [QuicheDriver::with_buffers]: the driver and, in the store, the objects its
    front-end handles share with it. *)
Definition with_buffers (srv : bool) (accept_bidi_cap accept_uni_cap : N)
    (buffers : DriverBufferConfig) (c : C) : World B C :=
  mkWorld (driver_init srv buffers) (store_init accept_bidi_cap accept_uni_cap buffers) c.

(** [QuicheDriver::new] *)
Definition driver_new (srv : bool) (accept_bidi_cap accept_uni_cap : N) (c : C) : World B C :=
  with_buffers srv accept_bidi_cap accept_uni_cap default_buffers c.

Definition set_registration (reg : N) : M unit :=
  dmod (λ d, d <| conn_registration := Some reg |>).
End driver.
