(* ===== verification/DriverLogic.v ===== *)
(** * Reasoning about the worker

    An invariant of the worker's own state is a predicate [I] on [QuicheDriver];
    [keeps (on_drv I)] is its preservation.  The shared store and the transport
    are out of its reach, so only the [dmod]s of a function matter, and the
    tactic [worker] walks down to them. *)

From S2P Require Import Prelude Interfaces Error Buffer Conn DriverTypes DriverStore DriverCore.

Section logic.
Context `{Runtime} {B C : Type} `{!Buf B} `{!QuicConn C}.
Abbreviation M := (ST (World B C)).

Definition on_drv (I : QuicheDriver B → Prop) (w : World B C) : Prop := I (drv w).

Lemma respects_dmod (I : QuicheDriver B → Prop) f :
  (∀ d, I d → I (f d)) → respects (keeps (on_drv I)) (dmod f).
Proof. intros Hf w Hw. apply Hf, Hw. Qed.
Lemma respects_shared (I : QuicheDriver B → Prop) {A} (m : ST (Store B) A) :
  respects (keeps (on_drv I)) (shared m).
Proof. intros w Hw. exact Hw. Qed.
Lemma respects_call (I : QuicheDriver B → Prop) {A} (m : ST C A) :
  respects (keeps (on_drv I)) (call m).
Proof. intros w Hw. exact Hw. Qed.

(** What a function leaves alone. *)
Lemma same_dmod {T} (g : QuicheDriver B → T) f :
  (∀ d, g (f d) = g d) → respects (same (λ w : World B C, g (drv w))) (dmod f).
Proof. intros Hf w. apply Hf. Qed.
Lemma same_shared {T} (g : QuicheDriver B → T) {A} (m : ST (Store B) A) :
  respects (same (λ w : World B C, g (drv w))) (shared m).
Proof. intros w. reflexivity. Qed.
Lemma same_call {T} (g : QuicheDriver B → T) {A} (m : ST C A) :
  respects (same (λ w : World B C, g (drv w))) (call m).
Proof. intros w. reflexivity. Qed.

(** How the accessors run. *)
Lemma exec_dget {A} (f : QuicheDriver B → A) (w : World B C) : exec (dget f) w = w.
Proof. reflexivity. Qed.
Lemma result_dget {A} (f : QuicheDriver B → A) (w : World B C) : result (dget f) w = f (drv w).
Proof. reflexivity. Qed.
Lemma exec_dmod f (w : World B C) : exec (dmod f) w = w <| drv ::= f |>.
Proof. reflexivity. Qed.
Lemma exec_sget {A} (f : Store B → A) (w : World B C) : exec (sget f) w = w.
Proof. reflexivity. Qed.
Lemma result_sget {A} (f : Store B → A) (w : World B C) : result (sget f) w = f (sto w).
Proof. reflexivity. Qed.
Lemma exec_ask {A} (f : C → A) (w : World B C) : exec (ask f) w = w.
Proof. reflexivity. Qed.
Lemma result_ask {A} (f : C → A) (w : World B C) : result (ask f) w = f (qc w).
Proof. reflexivity. Qed.
Lemma exec_shared {A} (m : ST (Store B) A) (w : World B C) :
  exec (shared m) w = w <| sto := exec m (sto w) |>.
Proof. reflexivity. Qed.
Lemma result_shared {A} (m : ST (Store B) A) (w : World B C) :
  result (shared m) w = result m (sto w).
Proof. reflexivity. Qed.
Lemma exec_call {A} (m : ST C A) (w : World B C) :
  exec (call m) w = w <| qc := exec m (qc w) |>.
Proof. reflexivity. Qed.
Lemma result_call {A} (m : ST C A) (w : World B C) : result (call m) w = result m (qc w).
Proof. reflexivity. Qed.
Lemma exec_shared_drv {A} (m : ST (Store B) A) (w : World B C) :
  drv (exec (shared m) w) = drv w.
Proof. reflexivity. Qed.
Lemma exec_call_drv {A} (m : ST C A) (w : World B C) : drv (exec (call m) w) = drv w.
Proof. reflexivity. Qed.
End logic.

Create Rewrite HintDb run.
#[export] Hint Rewrite @exec_bind @result_bind @exec_ret @result_ret @exec_gets @result_gets
  @exec_modify @exec_skip @exec_dget @result_dget @exec_dmod @exec_sget @result_sget
  @exec_ask @result_ask @exec_shared @result_shared @exec_call @result_call : run.

#[export] Hint Resolve respects_shared respects_call same_shared same_call : steps.

Ltac head_of t := lazymatch t with ?f _ => head_of f | _ => t end.

(** One step down the structure of a worker function: composition, branches,
    loops, then the definition of the function itself. *)
Ltac worker_step :=
  first
    [ solve [ eauto 2 with steps nocore ]
    | lazymatch goal with
      | |- respects _ (mbind _ _) => apply respects_bind; [typeclasses eauto | | intros ?]
      | |- respects _ (mret _) => apply respects_ret; typeclasses eauto
      | |- respects _ skip => apply respects_skip; typeclasses eauto
      | |- respects _ (gets _) => apply respects_gets; typeclasses eauto
      | |- respects _ (dget _) => apply respects_gets; typeclasses eauto
      | |- respects _ (sget _) => apply respects_gets; typeclasses eauto
      | |- respects _ (ask _) => apply respects_gets; typeclasses eauto
      | |- respects _ (when _ _) => apply respects_when; [typeclasses eauto |]
      | |- respects _ (for_each _ _) =>
          apply respects_for_each; [typeclasses eauto | intros ?]
      | |- respects _ (for_some _ _) =>
          apply respects_for_some; [typeclasses eauto | intros ? ?]
      | |- respects _ (budget_loop _ _) => apply respects_budget_loop; [typeclasses eauto |]
      | |- respects _ (match ?x with _ => _ end) => destruct x eqn:?
      | |- respects _ (dmod _) => fail
      | |- respects _ (shared _) => fail
      | |- respects _ (call _) => fail
      | |- respects _ (let _ := _ in _) => cbv zeta
      | |- respects _ ?m => let h := head_of m in unfold h
      end ].
Ltac worker := repeat worker_step.

(** Symbolic execution from a known state. *)
Ltac run := autorewrite with run; simpl.
Tactic Notation "run" "in" hyp(H) := autorewrite with run in H; simpl in H.

(** The walk, with a tactic for the state changes themselves. *)
Ltac worker_with leaf := repeat (first [leaf | worker_step]).
