(* ===== verification/StoreLogic.v ===== *)
(** * What the store never forgets

    [settles]: terminal cells keep their first value, and a write generation that
    was completed stays completed.  Every operation the worker performs on the
    shared store is related by it. *)

From S2P Require Import Prelude Interfaces Error Buffer Conn DriverTypes DriverStore DriverCore DriverLogic.

Section store_logic.
Context `{Runtime} {B : Type}.
Abbreviation S := (Store B).

Definition keeps_value {T} (c c' : TerminalCell T) : Prop :=
  ∀ v, tc_value c = Some v → tc_value c' = Some v.

(** Terminal cells are sticky. *)
Record sticky (s s' : S) : Prop := {
  sticky_conn : keeps_value (conn_terminal s) (conn_terminal s');
  sticky_bidi : keeps_value (accept_terminal_bidi s) (accept_terminal_bidi s');
  sticky_uni : keeps_value (accept_terminal_uni s) (accept_terminal_uni s');
  sticky_recv : grows tc_value (recv_cells s) (recv_cells s');
  sticky_send : grows tc_value (send_cells s) (send_cells s');
}.

#[export] Instance sticky_preorder : PreOrder sticky.
Proof.
  split.
  - intros s. split; first [reflexivity | by intros ?].
  - intros s1 s2 s3 [] []. split; first [by etrans | unfold keeps_value in *; eauto].
Qed.

(** A completed generation stays completed, with the same outcome. *)
Definition completes (h h' : list (WriteCompletion SendEnd)) : Prop :=
  length h' = length h ∧ ∀ a c, h !! a = Some c → ∃ c', h' !! a = Some c' ∧ wc_generation c' = wc_generation c ∧
    (∀ o, wc_slot c = Some o → wc_slot c' = Some o).

#[export] Instance completes_preorder : PreOrder completes.
Proof.
  split.
  - intros h. split; [done|]. eauto.
  - intros h1 h2 h3 [L1 H1] [L2 H2]. split; [congruence|]. intros a x Hx.
    destruct (H1 a x Hx) as (y&Hy&Hg&Hv). destruct (H2 a y Hy) as (z&Hz&Hg'&Hw).
    exists z. split_and!; [done|congruence|auto].
Qed.

(** A oneshot whose sender has answered: its value is there for a receiver that
    still waits; dropping the sender unanswered would be a bare cancel. *)
Definition answered {A} (o : oneshot A) : option unit :=
  if os_tx (os_view o) then None
  else match os_value (os_view o) with
       | Some _ => Some tt
       | None => if os_rx (os_view o) then None else Some tt
       end.

Record settles (s s' : S) : Prop := {
  settles_sticky : sticky s s';
  settles_writes : completes (write_cells s) (write_cells s');
  settles_finish : grows answered (finish_replies s) (finish_replies s');
  settles_bidi : grows answered (bidi_replies s) (bidi_replies s');
  settles_uni : grows answered (uni_replies s) (uni_replies s');
}.

#[export] Instance settles_preorder : PreOrder settles.
Proof.
  split.
  - intros s. split; reflexivity.
  - intros s1 s2 s3 [] []. split; by etrans.
Qed.

(** ** Objects outside [settles] *)

Definition settled_view (s : S) :=
  (conn_terminal s, accept_terminal_bidi s, accept_terminal_uni s, recv_cells s, send_cells s,
   write_cells s, finish_replies s, bidi_replies s, uni_replies s).

Lemma settles_same s s' : settled_view s' = settled_view s → settles s s'.
Proof.
  intros [= E1 E2 E3 E4 E5 E6 E7 E8 E9]. split; [split|..]; unfold keeps_value;
    rewrite ?E1, ?E2, ?E3, ?E4, ?E5, ?E6, ?E7, ?E8, ?E9; first [reflexivity | done].
Qed.

Lemma at_loc_settles {X A} (heap : S → list X) `{!Setter heap} a (dflt : A) f :
  (∀ s h, settled_view (s <| heap ::= h |>) = settled_view s) →
  respects settles (at_loc heap a dflt f).
Proof.
  intros Hv s. unfold at_loc, exec. case_match; [|done]. apply settles_same, Hv.
Qed.
Lemma alloc_settles {X} (heap : S → list X) `{!Setter heap} x :
  (∀ s h, settled_view (s <| heap ::= h |>) = settled_view s) → respects settles (alloc heap x).
Proof. intros Hv s. apply settles_same, Hv. Qed.
Lemma modify_settles (f : S → S) :
  (∀ s, settled_view (f s) = settled_view s) → respects settles (modify f).
Proof. intros Hv s. apply settles_same, Hv. Qed.

(** ** Cells *)

Lemma tc_set_value {T} (v : T) c :
  tc_value (tc_set v c).2 = Some (default v (tc_value c)).
Proof. unfold tc_set, tc_install. by destruct (tc_value c) eqn:E; simpl. Qed.

Lemma alloc_recv_settles c : respects settles (alloc recv_cells c).
Proof. intros s. split; [split|..]; simpl; first [reflexivity | by intros ? | apply grows_app]. Qed.
Lemma alloc_send_settles c : respects settles (alloc send_cells c).
Proof. intros s. split; [split|..]; simpl; first [reflexivity | by intros ? | apply grows_app]. Qed.

Lemma wake_settles ws : respects settles (wake ws).
Proof. by apply modify_settles. Qed.

Lemma recv_cell_set_settles a e : respects settles (recv_cell_set a e).
Proof.
  apply respects_bind; [apply _| |intros; apply wake_settles].
  intros s. unfold at_loc, exec. destruct (recv_cells s !! a) as [c|] eqn:Hc; [|done].
  split; [split|..]; simpl; try first [reflexivity | by intros ?]. apply grows_insert. intros x v Hx Hv. simplify_eq.
  by rewrite tc_set_value, Hv.
Qed.
Lemma send_cell_set_settles a e : respects settles (send_cell_set a e).
Proof.
  apply respects_bind; [apply _| |intros; apply wake_settles].
  intros s. unfold at_loc, exec. destruct (send_cells s !! a) as [c|] eqn:Hc; [|done].
  split; [split|..]; simpl; try first [reflexivity | by intros ?]. apply grows_insert. intros x v Hx Hv. simplify_eq.
  by rewrite tc_set_value, Hv.
Qed.

Lemma tc_set_keeps {T} (v : T) c : keeps_value c (tc_set v c).2.
Proof. intros x Hx. unfold tc_set, tc_install. by rewrite Hx. Qed.

Lemma conn_cell_set_settles t : respects settles (conn_cell_set conn_terminal t) ∧
  respects settles (conn_cell_set accept_terminal_bidi t) ∧
  respects settles (conn_cell_set accept_terminal_uni t).
Proof.
  split_and!; (apply respects_bind; [apply _| |intros; apply wake_settles]); intros s;
    (split; [split|..]); simpl; first [reflexivity | apply tc_set_keeps | by intros ?].
Qed.

(** ** Write completions *)

Lemma set_if_current_keeps g o (c : WriteCompletion SendEnd) :
  wc_generation (wc_set_if_current g o c).2 = wc_generation c ∧
  ∀ x, wc_slot c = Some x → wc_slot (wc_set_if_current g o c).2 = Some x.
Proof.
  unfold wc_set_if_current, wc_store.
  destruct (negb _ || _) eqn:E; simpl; [done|]. apply orb_false_iff in E as [_ E%bool_decide_eq_false].
  split; [done|]. intros x Hx. destruct E. eauto.
Qed.

Lemma completes_insert h a c c' :
  h !! a = Some c → wc_generation c' = wc_generation c →
  (∀ o, wc_slot c = Some o → wc_slot c' = Some o) → completes h (<[a := c']> h).
Proof.
  intros Hc Hg Hs. split; [apply length_insert|]. intros b x Hx. destruct (decide (a = b)) as [->|].
  - exists c'. rewrite list_lookup_insert_eq by by eapply lookup_lt_Some. naive_solver.
  - exists x. by rewrite list_lookup_insert_ne.
Qed.

Lemma at_write_settles a (f : WriteCompletion SendEnd → option Waker * WriteCompletion SendEnd) :
  (∀ c, wc_generation (f c).2 = wc_generation c ∧
        ∀ o, wc_slot c = Some o → wc_slot (f c).2 = Some o) →
  respects settles (at_loc write_cells a None f).
Proof.
  intros Hf s. unfold at_loc, exec. destruct (write_cells s !! a) as [c|] eqn:Hc; [|done].
  split; [split|..]; simpl; try first [reflexivity | by intros ?].
  by eapply completes_insert; [|apply Hf..].
Qed.

Lemma complete_write_settles k r : respects settles (complete_write k r).
Proof.
  apply respects_bind; [apply _| |intros; apply wake_settles]. apply at_write_settles.
  intros c. apply set_if_current_keeps.
Qed.
Lemma drop_completer_settles k : respects settles (drop_completer k).
Proof.
  apply respects_bind; [apply _| |intros; apply wake_settles]. apply at_write_settles.
  intros c. unfold wcr_drop. case_match; [done | apply set_if_current_keeps].
Qed.

(** The completer's generation has its outcome, unless it is no longer current. *)
Definition resolved (k : WriteCompleter) (s : S) : Prop :=
  ∀ c, write_cells s !! wcr_cell k = Some c → wc_generation c = wcr_generation k →
       wc_slot c ≠ None.

Lemma resolved_settles k s s' : settles s s' → resolved k s → resolved k s'.
Proof.
  intros [_ [Hlen Hw] _ _ _] Hr c' Hc' Hg.
  destruct (lookup_lt_is_Some_2 (write_cells s) (wcr_cell k)) as [c Hc].
  { rewrite <-Hlen. by eapply lookup_lt_Some. }
  destruct (Hw _ _ Hc) as (c''&Hc''&Hg'&Hs). simplify_eq.
  destruct (wc_slot c) eqn:E; [by erewrite Hs|]. destruct (Hr c Hc); [congruence|done].
Qed.

Lemma complete_write_resolves k r s : resolved k (exec (complete_write k r) s).
Proof.
  intros c'. unfold complete_write. rewrite exec_bind. unfold at_loc, exec, result, wake, modify.
  destruct (write_cells s !! wcr_cell k) as [c|] eqn:Hc; simpl; [|congruence].
  rewrite list_lookup_insert_eq by by eapply lookup_lt_Some. intros [= <-].
  unfold wc_set_if_current, wc_store. destruct (negb _ || _) eqn:E; simpl; [|done].
  intros Hg. rewrite Hg, N.eqb_refl in E. by apply bool_decide_eq_true in E as [? ->].
Qed.

(** ** Replies *)

Lemma os_send_answers {A} (v : A) o : answered (os_send v o).2 = Some tt.
Proof. unfold answered. rewrite os_send_view. simpl. destruct (os_rx (os_view o)); [done|]. by case_match. Qed.
Lemma os_drop_tx_answered {A} (o : oneshot A) u :
  answered o = Some u → answered (os_drop_tx o) = Some u.
Proof. unfold answered. rewrite os_drop_tx_view. simpl. by destruct (os_tx (os_view o)). Qed.
Lemma os_drop_rx_answered {A} (o : oneshot A) u :
  answered o = Some u → answered (os_drop_rx o).2 = Some u.
Proof.
  unfold answered. rewrite os_drop_rx_view. simpl.
  destruct u. by destruct (os_tx (os_view o)).
Qed.

Lemma at_finish_settles {A} a (dflt : A) f :
  (∀ o u, answered o = Some u → answered (f o).2 = Some u) →
  respects settles (at_loc finish_replies a dflt f).
Proof.
  intros Hf s. unfold at_loc, exec. destruct (finish_replies s !! a) as [o|] eqn:Ho; [|done].
  split; [split|..]; simpl; try first [reflexivity | by intros ?].
  apply grows_insert. intros x v Hx. simplify_eq. apply Hf.
Qed.
Lemma at_bidi_settles {A} a (dflt : A) f :
  (∀ o u, answered o = Some u → answered (f o).2 = Some u) →
  respects settles (at_loc bidi_replies a dflt f).
Proof.
  intros Hf s. unfold at_loc, exec. destruct (bidi_replies s !! a) as [o|] eqn:Ho; [|done].
  split; [split|..]; simpl; try first [reflexivity | by intros ?].
  apply grows_insert. intros x v Hx. simplify_eq. apply Hf.
Qed.
Lemma at_uni_settles {A} a (dflt : A) f :
  (∀ o u, answered o = Some u → answered (f o).2 = Some u) →
  respects settles (at_loc uni_replies a dflt f).
Proof.
  intros Hf s. unfold at_loc, exec. destruct (uni_replies s !! a) as [o|] eqn:Ho; [|done].
  split; [split|..]; simpl; try first [reflexivity | by intros ?].
  apply grows_insert. intros x v Hx. simplify_eq. apply Hf.
Qed.
Lemma alloc_finish_settles c : respects settles (alloc finish_replies c).
Proof. intros s. split; [split|..]; simpl; first [reflexivity | by intros ? | apply grows_app]. Qed.

Lemma os_send_keeps {A} (v : A) o u : answered o = Some u → answered (os_send v o).2 = Some u.
Proof. destruct u. intros _. apply os_send_answers. Qed.

Lemma finish_send_settles a r : respects settles (finish_send a r).
Proof. apply at_finish_settles. intros o u. apply os_send_keeps. Qed.
Lemma finish_drop_tx_settles a : respects settles (finish_drop_tx a).
Proof. apply at_finish_settles. intros o u. apply os_drop_tx_answered. Qed.
Lemma finish_drop_rx_settles a :
  respects settles (at_loc finish_replies a tt (λ o, (tt, (os_drop_rx o).2))).
Proof. apply at_finish_settles. intros o u. apply os_drop_rx_answered. Qed.
Lemma bidi_reply_send_settles a r : respects settles (bidi_reply_send a r).
Proof. apply at_bidi_settles. intros o u. apply os_send_keeps. Qed.
Lemma bidi_reply_drop_tx_settles a : respects settles (bidi_reply_drop_tx a).
Proof. apply at_bidi_settles. intros o u. apply os_drop_tx_answered. Qed.
Lemma uni_reply_send_settles a r : respects settles (uni_reply_send a r).
Proof. apply at_uni_settles. intros o u. apply os_send_keeps. Qed.
Lemma uni_reply_drop_tx_settles a : respects settles (uni_reply_drop_tx a).
Proof. apply at_uni_settles. intros o u. apply os_drop_tx_answered. Qed.

(** ** Publishing one terminal to many cells *)

Section fills.
Context {T : Type} (e : T).

(** Empty cells may have received [e]; nothing else has changed. *)
Definition fills (h h' : list (TerminalCell T)) : Prop :=
  ∀ a c, h !! a = Some c → ∃ c', h' !! a = Some c' ∧
    (tc_value c' = tc_value c ∨ tc_value c' = Some (default e (tc_value c))).

#[export] Instance fills_preorder : PreOrder fills.
Proof.
  split.
  - intros h a c Hc. eauto.
  - intros h1 h2 h3 H1 H2 a c Hc. destruct (H1 a c Hc) as (c2&Hc2&E2).
    destruct (H2 a c2 Hc2) as (c3&Hc3&E3). exists c3. split; [done|].
    destruct E2 as [E2|E2], E3 as [E3|E3]; rewrite ?E3, ?E2; simpl; auto.
Qed.

Lemma fills_insert h a : fills h (alter (λ c, (tc_set e c).2) a h).
Proof.
  intros b c Hc. destruct (decide (a = b)) as [->|].
  - eexists. rewrite list_lookup_alter_eq, Hc. split; [done|]. right. apply tc_set_value.
  - exists c. rewrite list_lookup_alter_ne by done. auto.
Qed.

(** Cell [a] has its own value, or [e]. *)
Definition filled (h0 : list (TerminalCell T)) (a : loc) (h : list (TerminalCell T)) : Prop :=
  ∀ c0, h0 !! a = Some c0 → ∃ c, h !! a = Some c ∧ tc_value c = Some (default e (tc_value c0)).

Lemma filled_fills h0 a h h' : fills h h' → filled h0 a h → filled h0 a h'.
Proof.
  intros Hf Hh c0 Hc0. destruct (Hh c0 Hc0) as (c&Hc&Ev). destruct (Hf a c Hc) as (c'&Hc'&E).
  exists c'. split; [done|]. destruct E as [->| ->]; [done|]. by rewrite Ev.
Qed.
Lemma filled_insert h0 a h : fills h0 h → filled h0 a (alter (λ c, (tc_set e c).2) a h).
Proof.
  intros Hf c0 Hc0. destruct (Hf a c0 Hc0) as (c&Hc&E). eexists.
  rewrite list_lookup_alter_eq, Hc. split; [done|]. simpl. rewrite tc_set_value.
  by destruct E as [->| ->].
Qed.
End fills.

Lemma recv_cell_set_cells a e (s : S) :
  recv_cells (exec (recv_cell_set a e) s) = alter (λ c, (tc_set e c).2) a (recv_cells s).
Proof.
  unfold recv_cell_set. rewrite exec_bind. unfold at_loc, exec, result, wake, modify.
  destruct (recv_cells s !! a) as [c|] eqn:Hc; simpl.
  - by rewrite (list_alter_Some _ _ _ c).
  - by rewrite list_alter_None.
Qed.
Lemma send_cell_set_cells a e (s : S) :
  send_cells (exec (send_cell_set a e) s) = alter (λ c, (tc_set e c).2) a (send_cells s).
Proof.
  unfold send_cell_set. rewrite exec_bind. unfold at_loc, exec, result, wake, modify.
  destruct (send_cells s !! a) as [c|] eqn:Hc; simpl.
  - by rewrite (list_alter_Some _ _ _ c).
  - by rewrite list_alter_None.
Qed.

(** ** Objects an operation leaves alone *)

Lemma at_loc_same {X A T} (heap : Store B → list X) `{!Setter heap} (g : Store B → T)
    b (dflt : A) f :
  (∀ s h, g (s <| heap ::= h |>) = g s) → respects (same g) (at_loc heap b dflt f).
Proof. intros Hg s. unfold same, at_loc, exec. case_match; [apply Hg|done]. Qed.
End store_logic.

#[export] Hint Resolve wake_settles recv_cell_set_settles send_cell_set_settles
  complete_write_settles drop_completer_settles alloc_recv_settles alloc_send_settles
  alloc_finish_settles finish_send_settles finish_drop_tx_settles finish_drop_rx_settles
  bidi_reply_send_settles bidi_reply_drop_tx_settles uni_reply_send_settles
  uni_reply_drop_tx_settles : steps.

(** Walk through a store operation that changes other objects only. *)
Ltac store_leaf :=
  idtac; first
    [ apply at_loc_same; intros; reflexivity
    | intros ?; reflexivity ].
Ltac store := worker_with store_leaf.
