(* ===== verification/DriverInv.v ===== *)
(** * Well-formedness of the worker's state

    The registries and cursors of [QuicheDriver] agree with one another in every
    state the worker can reach, whatever the front end does to the shared store
    and the peer to the transport in between. *)

From S2P Require Import Prelude Interfaces Error Buffer Conn DriverTypes DriverStore DriverCore DriverRecv DriverSend Driver DriverLogic.

Section invariants.
Context {B : Type} `{!Buf B}.

(** ** The invariants *)

(** A cursor and its membership set hold the same ids, once each. *)
Definition queue_ok (q : list N) (s : gset N) : Prop :=
  NoDup q ∧ ∀ id, id ∈ q ↔ id ∈ s.

Record queues_wf (d : QuicheDriver B) : Prop := {
  readable_ok : queue_ok (pending_readable d) (readable_set d);
  resume_ok : queue_ok (pending_resume d) (resume_set d);
  runnable_ok : queue_ok (runnable_send d) (runnable_send_set d);
}.

Definition pending_ids (d : QuicheDriver B) : list N :=
  pending_admit_bidi d ++ pending_admit_uni d.
Definition parked_of (id : N) (d : QuicheDriver B) : list N :=
  if is_bidi id then parked_bidi d else parked_uni d.

(** A discovered stream is queued for admission once, in the queue of its class,
    and is not yet admitted; a parked one is in its class's promotion queue. *)
Record admission_wf (d : QuicheDriver B) : Prop := {
  pend_nodup : NoDup (pending_ids d);
  pend_dom id : id ∈ pending_ids d ↔ is_Some (pending_admit d !! id);
  pend_bidi id : id ∈ pending_admit_bidi d → is_bidi id = true;
  pend_uni id : id ∈ pending_admit_uni d → is_bidi id = false;
  pend_id id p : pending_admit d !! id = Some p → ps_id p = id;
  pend_new id : is_Some (pending_admit d !! id) → admission d !! id = None;
  park_id id p : admission d !! id = Some (Parked p) → ps_id p = id;
  park_queued id p : admission d !! id = Some (Parked p) → id ∈ parked_of id d;
  park_bidi id : id ∈ parked_bidi d → is_bidi id = true;
  park_uni id : id ∈ parked_uni d → is_bidi id = false;
}.

(** A terminal send half owes nothing: no queued operation, no deferred bytes.
    A reset is always published as the terminal, and a deferred write always has
    bytes left for a FIN to ride on. *)
Record send_ok (s : StreamSendState B) : Prop := {
  terminal_ops : terminal s ≠ None → send_ops s = [];
  terminal_held : terminal s ≠ None → held s = None;
  reset_terminal : pending_reset s ≠ None → terminal s ≠ None;
  held_nonempty h : held s = Some h → buf_has_remaining (held_buf h) = true;
}.

Definition send_wf (d : QuicheDriver B) : Prop :=
  map_Forall (λ _, send_ok) (send d).

Record driver_wf (d : QuicheDriver B) : Prop := {
  wf_queues : queues_wf d;
  wf_admission : admission_wf d;
  wf_send : send_wf d;
}.

(** ** Cursors *)

Lemma queue_ok_push q s id : queue_ok q s → id ∉ s → queue_ok (q ++ [id]) ({[id]} ∪ s).
Proof.
  intros [Hq Hs] Hid. split.
  - apply NoDup_app. split_and!; [done| |apply NoDup_singleton]. set_solver.
  - set_solver.
Qed.
Lemma queue_ok_drop q s id : queue_ok q s → queue_ok (filter (λ x, x ≠ id) q) (s ∖ {[id]}).
Proof.
  intros [Hq Hs]. split; [by apply NoDup_filter|].
  intros x. rewrite list_elem_of_filter. set_solver.
Qed.
Lemma queue_ok_pop q s id : queue_ok (id :: q) s → queue_ok q (s ∖ {[id]}).
Proof. intros [[Hid Hq]%NoDup_cons Hs]. split; [done|]. set_solver. Qed.
End invariants.

#[export] Hint Resolve queue_ok_push queue_ok_drop queue_ok_pop : core.

(** ** The cursors agree with their sets *)

Section queues.
Context `{Runtime} {B C : Type} `{!Buf B} `{!QuicConn C}.
Abbreviation R := (keeps (on_drv (B := B) (C := C) queues_wf)).

Ltac cursor :=
  apply respects_dmod; intros ? []; try case_decide; split; simpl in *; auto.

Lemma requeue_readable_queues id : respects R (requeue_readable id).
Proof. cursor. Qed.
Lemma enqueue_resume_queues id : respects R (enqueue_resume id).
Proof. cursor. Qed.
Lemma mark_send_runnable_queues id : respects R (mark_send_runnable id).
Proof. cursor. Qed.
Lemma drop_send_membership_queues id : respects R (drop_send_membership id).
Proof. cursor. Qed.
Lemma drop_recv_memberships_queues id : respects R (drop_recv_memberships id).
Proof. apply respects_bind; [apply _| |intros _]; cursor. Qed.
Lemma pop_readable_queues : respects R pop_readable.
Proof.
  intros w []. unfold on_drv, pop_readable. run. destruct (pending_readable (drv w)) eqn:E;
    run; split; simpl; rewrite ?E; eauto.
Qed.
Lemma pop_resume_queues : respects R pop_resume.
Proof.
  intros w []. unfold on_drv, pop_resume. run. destruct (pending_resume (drv w)) eqn:E;
    run; split; simpl; rewrite ?E; eauto.
Qed.
Lemma pop_runnable_send_queues : respects R pop_runnable_send.
Proof.
  intros w []. unfold on_drv, pop_runnable_send. run. destruct (runnable_send (drv w)) eqn:E;
    run; split; simpl; rewrite ?E; eauto.
Qed.
#[local] Hint Resolve requeue_readable_queues enqueue_resume_queues mark_send_runnable_queues
  drop_send_membership_queues drop_recv_memberships_queues pop_readable_queues
  pop_resume_queues pop_runnable_send_queues : steps.

(** Every other state change leaves the cursors alone. *)
Ltac cursors_untouched :=
  idtac; lazymatch goal with
  | |- respects _ (dmod _) => apply respects_dmod; intros ? []; repeat case_match; split; assumption
  end.
Ltac queues := worker_with cursors_untouched.

Lemma drain_stream_queues id : respects R (drain_stream id).
Proof. queues. Qed.
#[local] Hint Resolve drain_stream_queues : steps.
Lemma admit_one_queues peer : respects R (admit_one peer).
Proof. queues. Qed.
#[local] Hint Resolve admit_one_queues : steps.
Lemma phase2_loop_queues fuel budget bb ub pb : respects R (phase2_loop fuel budget bb ub pb).
Proof.
  revert budget bb ub pb. induction fuel; intros; simpl; destruct budget; queues.
Qed.
#[local] Hint Resolve phase2_loop_queues : steps.
Lemma run_read_pump_queues : respects R run_read_pump.
Proof. queues. Qed.
#[local] Hint Resolve run_read_pump_queues : steps.
Lemma open_bidi_loop_queues n : respects R (open_bidi_loop n).
Proof. induction n; simpl; queues. Qed.
Lemma open_uni_loop_queues n : respects R (open_uni_loop n).
Proof. induction n; simpl; queues. Qed.
Lemma send_terminal_transition_queues id e : respects R (send_terminal_transition id e).
Proof. queues. Qed.
#[local] Hint Resolve open_bidi_loop_queues open_uni_loop_queues
  send_terminal_transition_queues : steps.
Lemma service_send_turn_queues id : respects R (service_send_turn id).
Proof. queues. Qed.
Lemma close_drain_loop_queues n t : respects R (close_drain_loop n t).
Proof. induction n; simpl; queues. Qed.
#[local] Hint Resolve service_send_turn_queues close_drain_loop_queues : steps.

Lemma do_process_reads_queues : respects R do_process_reads.
Proof. queues. Qed.
Lemma do_process_writes_queues : respects R do_process_writes.
Proof. queues. Qed.
Lemma wait_for_data_queues p : respects R (wait_for_data_poll p).
Proof. queues. Qed.
Lemma do_on_conn_close_queues : respects R do_on_conn_close.
Proof. queues. Qed.
Lemma on_conn_established_queues : respects R on_conn_established.
Proof. queues. Qed.
End queues.

#[export] Hint Resolve do_process_reads_queues do_process_writes_queues wait_for_data_queues
  do_on_conn_close_queues on_conn_established_queues : steps.

(** ** Admission *)

Section admission.
Context `{Runtime} {B C : Type} `{!Buf B} `{!QuicConn C}.
Abbreviation R := (keeps (on_drv (B := B) (C := C) admission_wf)).

(** Forgetting admissions, or marking directions of registered ones done, is
    harmless. *)
Lemma admission_wf_delete id d :
  admission_wf d → admission_wf (d <| admission ::= delete id |> : QuicheDriver B).
Proof.
  intros []. split; simpl in *; auto; intros id'.
  - intros Hp. destruct (decide (id = id')) as [->|];
      by rewrite ?lookup_delete_eq, ?lookup_delete_ne by done; auto.
  - intros p Hp%lookup_delete_Some. naive_solver.
  - intros p Hp%lookup_delete_Some. naive_solver.
Qed.

Lemma admission_wf_alter f id d :
  (∀ a p, f a = Parked p → a = Parked p) →
  admission_wf d → admission_wf (d <| admission ::= alter f id |> : QuicheDriver B).
Proof.
  intros Hf []. split; simpl in *; auto; intros id'.
  - intros Hp. destruct (decide (id = id')) as [->|].
    + rewrite lookup_alter_eq. by rewrite pend_new0.
    + rewrite lookup_alter_ne by done. auto.
  - intros p [(->&a&?&?)|[]]%lookup_alter_Some; eauto.
    eapply park_id0. naive_solver.
  - intros p [(->&a&?&?)|[]]%lookup_alter_Some; eauto.
    eapply park_queued0. naive_solver.
Qed.

(** Entering admission and leaving it. *)
Lemma admission_wf_register id a b d :
  pending_admit d !! id = None → admission_wf d →
  admission_wf (d <| admission ::= <[id := Registered a b]> |> : QuicheDriver B).
Proof.
  intros Hid []. split; simpl in *; auto; intros id'.
  - intros Hp. rewrite lookup_insert_ne; [auto|]. intros ->. by destruct Hp; simplify_eq.
  - intros p [[]|[]]%lookup_insert_Some; naive_solver.
  - intros p [[]|[]]%lookup_insert_Some; naive_solver.
Qed.

Lemma admission_wf_discover id p d :
  ps_id p = id → admission d !! id = None → pending_admit d !! id = None → admission_wf d →
  admission_wf (if is_bidi id
    then d <| pending_admit ::= <[id := p]> |> <| pending_admit_bidi ::= λ q, q ++ [id] |>
    else d <| pending_admit ::= <[id := p]> |> <| pending_admit_uni ::= λ q, q ++ [id] |>
    : QuicheDriver B).
Proof.
  intros Hp Ha Hid []. pose proof (pend_dom0 id) as Hdom.
  assert (id ∉ pending_ids d) by (rewrite Hdom, Hid; intros []; done).
  unfold pending_ids in *.
  destruct (is_bidi id) eqn:Eb; split; unfold pending_ids in *; simpl in *; auto;
    try (intros id' p' [[]|[]]%lookup_insert_Some; naive_solver);
    try (intros id' [[]|[]]%lookup_insert_is_Some; naive_solver).
  - rewrite <-app_assoc. simpl. apply NoDup_app in pend_nodup0 as (?&?&?).
    apply NoDup_app. rewrite NoDup_cons. set_solver.
  - intros id'. rewrite lookup_insert_is_Some'. set_solver.
  - intros id' [|]%elem_of_app; set_solver.
  - rewrite app_assoc. apply NoDup_app.
    split_and!; [done| |apply NoDup_singleton]. set_solver.
  - intros id'. rewrite lookup_insert_is_Some'. set_solver.
  - intros id' [|]%elem_of_app; set_solver.
Qed.

(** Taking the head of a class's queue together with its record. *)
Definition pending_queue (bidi : bool) (d : QuicheDriver B) : list N :=
  if bidi then pending_admit_bidi d else pending_admit_uni d.

Lemma admission_wf_take bidi id q d :
  pending_queue bidi d = id :: q → admission_wf d →
  admission_wf ((if bidi then d <| pending_admit_bidi ::= tail |>
                 else d <| pending_admit_uni ::= tail |>) <| pending_admit ::= delete id |>).
Proof.
  intros Hq []. unfold pending_queue, pending_ids in *.
  assert (∀ id', is_Some (delete id (pending_admit d) !! id') ↔
                 id ≠ id' ∧ is_Some (pending_admit d !! id')) as Hdel
    by (intros id'; rewrite lookup_delete_is_Some; naive_solver).
  destruct bidi; split; unfold pending_ids; simpl in *; auto;
    try (intros id' p' Hp%lookup_delete_Some; naive_solver);
    try (intros id' [_ ?]%Hdel; by auto);
    try (intros id' Hin; rewrite Hq in Hin; simpl in Hin;
         first [apply pend_bidi0 | apply pend_uni0]; rewrite Hq; by right).
  - rewrite Hq in *. by apply NoDup_cons in pend_nodup0 as [].
  - intros id'. rewrite Hdel, <-pend_dom0, Hq. rewrite Hq in pend_nodup0. simpl in *.
    apply NoDup_cons in pend_nodup0. set_solver.
  - rewrite Hq in *. apply NoDup_app in pend_nodup0 as (?&?&[]%NoDup_cons).
    apply NoDup_app. set_solver.
  - intros id'. rewrite Hdel, <-pend_dom0, Hq. rewrite Hq in pend_nodup0. simpl in *.
    apply NoDup_app in pend_nodup0 as (?&?&[]%NoDup_cons). set_solver.
Qed.

(** Parking a stream that has left the admission queue. *)
Lemma admission_wf_park id p d :
  ps_id p = id → pending_admit d !! id = None → admission_wf d →
  id ∈ parked_of id d →
  admission_wf (d <| admission ::= <[id := Parked p]> |> : QuicheDriver B).
Proof.
  intros Hp Hid [] Hq. split; simpl in *; auto; intros id'.
  - intros Hs. rewrite lookup_insert_ne; [auto|]. intros ->. by destruct Hs; simplify_eq.
  - intros p' [[]|[]]%lookup_insert_Some; naive_solver.
  - intros p' [[]|[]]%lookup_insert_Some; naive_solver.
Qed.

Lemma admission_wf_parked_push f id d :
  (∀ q x, x ∈ f q ↔ x = id ∨ x ∈ q) → admission_wf d →
  admission_wf (if is_bidi id then d <| parked_bidi ::= f |> else d <| parked_uni ::= f |>
                : QuicheDriver B).
Proof.
  intros Hf []. destruct (is_bidi id) eqn:Eb; split; simpl in *; auto.
  - intros id' p' Hp. specialize (park_queued0 id' p' Hp). unfold parked_of in *. simpl.
    destruct (is_bidi id'); [|done]. rewrite Hf. auto.
  - intros id' [->|]%Hf; auto.
  - intros id' p' Hp. specialize (park_queued0 id' p' Hp). unfold parked_of in *. simpl.
    destruct (is_bidi id'); [done|]. rewrite Hf. auto.
  - intros id' [->|]%Hf; auto.
Qed.

Definition fresh_wf (id : N) (d : QuicheDriver B) : Prop :=
  admission_wf d ∧ pending_admit d !! id = None.

Lemma set_recv_done_parked a p : set_recv_done a = Parked p → a = Parked p.
Proof. by destruct a. Qed.
Lemma set_send_done_parked a p : set_send_done a = Parked p → a = Parked p.
Proof. by destruct a. Qed.
#[local] Hint Resolve set_recv_done_parked set_send_done_parked : core.

Ltac admission_change :=
  first
    [ apply admission_wf_delete; assumption
    | apply admission_wf_alter; [by auto | assumption]
    | apply admission_wf_register; assumption
    | repeat case_match; match goal with H : admission_wf _ |- _ => destruct H end;
      split; assumption ].
Ltac admission_leaf :=
  idtac; lazymatch goal with
  | |- respects (keeps (on_drv (fresh_wf _))) (dmod _) =>
      apply respects_dmod; intros ? [? ?]; split; [admission_change | repeat case_match; assumption]
  | |- respects _ (dmod _) => apply respects_dmod; intros ? ?; admission_change
  end.
Ltac admissions := worker_with admission_leaf.

Lemma drain_stream_fresh id id' : respects (keeps (on_drv (C := C) (fresh_wf id))) (drain_stream id').
Proof. admissions. Qed.
Lemma drain_stream_admission id : respects R (drain_stream id).
Proof. admissions. Qed.
#[local] Hint Resolve drain_stream_fresh drain_stream_admission : steps.

Lemma admit_one_fresh peer :
  respects (keeps (on_drv (C := C) (fresh_wf (ps_id peer)))) (admit_one peer).
Proof. admissions. Qed.

Lemma admit_one_full peer peer' w :
  result (admit_one peer) w = AdmitFull peer' →
  peer' = peer ∧ drv (exec (admit_one peer) w : World B C) = drv w.
Proof.
  unfold admit_one, admit_bidi, admit_uni, admit_finish.
  destruct (is_bidi _); rewrite exec_bind, result_bind, result_shared;
    repeat (first [rewrite result_bind | case_match]); intros E;
    try discriminate E; by injection E as <-.
Qed.

Lemma requeue_readable_admission id : respects R (requeue_readable id).
Proof. admissions. Qed.
Lemma intake_readable_one_admission : respects R intake_readable_one.
Proof.
  intros w Hw. unfold on_drv, intake_readable_one. run. case_match; run; [|done].
  repeat case_decide; run.
  - by apply requeue_readable_admission.
  - done.
  - unfold push_pending_admit. pose proof (admission_wf_discover n (peer_stream_new n) (drv w)) as Hd.
    destruct (is_bidi n); run; apply Hd; try done;
      apply eq_None_not_Some; naive_solver.
Qed.

Lemma park_again f id peer (d : QuicheDriver B) :
  (∀ q x, x ∈ f q ↔ x = id ∨ x ∈ q) → ps_id peer = id → fresh_wf id d →
  admission_wf (if is_bidi id
    then d <| admission ::= <[id := Parked peer]> |> <| parked_bidi ::= f |>
    else d <| admission ::= <[id := Parked peer]> |> <| parked_uni ::= f |>).
Proof.
  intros Hf Hp [Hw Hid]. pose proof (admission_wf_parked_push f id d Hf Hw) as Hpush.
  pose proof (λ d' H1 H2, admission_wf_park id peer d' Hp H1 H2) as Hpark.
  unfold parked_of in Hpark. destruct (is_bidi id).
  - change (admission_wf (d <| parked_bidi ::= f |> <| admission ::= <[id := Parked peer]> |>)).
    apply Hpark; [done..|]. apply Hf. by left.
  - change (admission_wf (d <| parked_uni ::= f |> <| admission ::= <[id := Parked peer]> |>)).
    apply Hpark; [done..|]. apply Hf. by left.
Qed.

Lemma park_admission id peer w :
  ps_id peer = id → on_drv (C := C) (fresh_wf id) w →
  on_drv admission_wf (exec (park (is_bidi id) id peer) w).
Proof.
  intros Hp Hw. unfold park, on_drv. run.
  pose proof (park_again (λ q, q ++ [id]) id peer (drv w)) as Hpark.
  destruct (is_bidi id); run; apply Hpark; try done; set_solver.
Qed.

(** What [pop_pending] returns is a stream of the class it was asked for. *)
Lemma pop_pending_class bidi id q (d : QuicheDriver B) :
  admission_wf d → pending_queue bidi d = id :: q → is_bidi id = bidi.
Proof.
  intros [] Hq. unfold pending_queue in Hq.
  destruct bidi; [apply pend_bidi0 | apply pend_uni0]; rewrite Hq; by left.
Qed.

Lemma exec_pop_pending bidi (w : World B C) :
  exec (pop_pending bidi) w = w <| drv ::= λ d,
    if bidi then d <| pending_admit_bidi ::= tail |> else d <| pending_admit_uni ::= tail |> |>.
Proof. by destruct bidi. Qed.
Lemma result_pop_pending bidi (w : World B C) :
  result (pop_pending bidi) w = head (pending_queue bidi (drv w)).
Proof. by destruct bidi. Qed.

Lemma admission_wf_pop_empty bidi (d : QuicheDriver B) :
  pending_queue bidi d = [] → admission_wf d →
  admission_wf (if bidi then d <| pending_admit_bidi ::= tail |>
                else d <| pending_admit_uni ::= tail |>).
Proof.
  intros Hq []. destruct bidi; simpl in Hq; split; unfold pending_ids in *; simpl;
    rewrite ?Hq in *; auto.
Qed.

(** The stream just taken out of the queues is admitted, or parked by class. *)
Lemma admit_taken peer w :
  on_drv (C := C) (fresh_wf (ps_id peer)) w →
  let w' := exec (admit_one peer) w in
  on_drv admission_wf w' ∧
  ∀ peer', result (admit_one peer) w = AdmitFull peer' →
    on_drv admission_wf (exec (park (is_bidi (ps_id peer)) (ps_id peer) peer') w').
Proof.
  intros Hw. pose proof (admit_one_fresh peer w Hw) as [? ?]. split; [done|].
  intros peer' [-> Hd]%admit_one_full. apply park_admission; [done|].
  unfold on_drv. by rewrite Hd.
Qed.

Lemma phase2_loop_admission fuel budget bb ub pb : respects R (phase2_loop fuel budget bb ub pb).
Proof.
  revert budget bb ub pb. induction fuel as [|fuel IH]; intros budget bb ub pb w Hw;
    simpl; destruct budget as [|budget]; try done.
  run. case_match; [done|].
  set (bidi := match _ with true => _ | false => _ end). clearbody bidi.
  rewrite exec_bind, exec_pop_pending, result_pop_pending.
  destruct (pending_queue bidi (drv w)) as [|id q] eqn:Hq; simpl.
  { apply IH. by apply admission_wf_pop_empty. }
  pose proof (admission_wf_take bidi id q (drv w) Hq Hw) as Ht.
  rewrite exec_bind, exec_dget, result_dget. unfold id_d. simpl.
  case_decide; run; [apply IH, Ht|].
  assert (pending_admit (if bidi then drv w <| pending_admit_bidi ::= tail |>
            else drv w <| pending_admit_uni ::= tail |>) = pending_admit (drv w)) as ->
    by by destruct bidi.
  destruct (pending_admit (drv w) !! id) as [peer|] eqn:Hp; [|apply IH, Ht].
  assert (ps_id peer = id) as <- by eauto using pend_id.
  rewrite exec_bind.
  match goal with |- context [exec (admit_one peer) ?w'] =>
    destruct (admit_taken peer w') as [Ha Hpark] end;
    [split; [exact Ht | apply lookup_delete_eq]|].
  rewrite (pop_pending_class _ _ _ _ Hw Hq) in Hpark.
  destruct (result (admit_one peer) _) eqn:Er;
    [apply IH, Ha | rewrite exec_bind; by apply IH, Hpark | apply IH, Ha].
Qed.

(** ** Promotion *)

Definition parked_queue (bidi : bool) (d : QuicheDriver B) : list N :=
  if bidi then parked_bidi d else parked_uni d.

Lemma exec_pop_parked bidi (w : World B C) :
  exec (pop_parked bidi) w = w <| drv ::= λ d,
    if bidi then d <| parked_bidi ::= tail |> else d <| parked_uni ::= tail |> |>.
Proof. by destruct bidi. Qed.
Lemma result_pop_parked bidi (w : World B C) :
  result (pop_parked bidi) w = head (parked_queue bidi (drv w)).
Proof. by destruct bidi. Qed.

(** Popping a promotion queue loses only its head. *)
Lemma admission_wf_pop_parked bidi (d : QuicheDriver B) :
  admission_wf d →
  (∀ id q p, parked_queue bidi d = id :: q → admission d !! id ≠ Some (Parked p)) →
  admission_wf (if bidi then d <| parked_bidi ::= tail |> else d <| parked_uni ::= tail |>).
Proof.
  intros [] Hne. destruct bidi; split; simpl in *; auto;
    try (intros id Hin; first [apply park_bidi0 | apply park_uni0];
         by apply elem_of_tail in Hin);
    intros id p Hp; specialize (park_queued0 id p Hp) as Hin; unfold parked_of in *; simpl;
    destruct (is_bidi id); try done.
  - destruct (parked_bidi d) as [|id' q]; [done|]. simpl.
    apply elem_of_cons in Hin as [->|]; [|done]. by destruct (Hne id' q p).
  - destruct (parked_uni d) as [|id' q]; [done|]. simpl.
    apply elem_of_cons in Hin as [->|]; [|done]. by destruct (Hne id' q p).
Qed.

Lemma promote_one_admission bidi : respects R (promote_one bidi).
Proof.
  intros w Hw. unfold promote_one, on_drv.
  rewrite exec_bind, exec_pop_parked, result_pop_parked.
  destruct (parked_queue bidi (drv w)) as [|id q] eqn:Hq; simpl.
  { apply admission_wf_pop_parked; [done|]. intros. by rewrite Hq in *. }
  assert (is_bidi id = bidi) as Hb.
  { destruct bidi; simpl in Hq; [eapply park_bidi | eapply park_uni]; [done | | done |];
      rewrite Hq; by left. }
  rewrite exec_bind, exec_dget, result_dget. simpl.
  assert (admission (if bidi then drv w <| parked_bidi ::= tail |>
            else drv w <| parked_uni ::= tail |>) = admission (drv w)) as ->
    by by destruct bidi.
  destruct (admission (drv w) !! id) as [[peer|]|] eqn:Ha; simpl;
    [|apply admission_wf_pop_parked; [done|]; intros; rewrite Hq in *; congruence..].
  assert (ps_id peer = id) as <- by eauto using park_id.
  rewrite exec_bind, exec_dmod, exec_bind.
  assert (on_drv (fresh_wf (ps_id peer)) (w <| drv ::= λ d : QuicheDriver B,
    if bidi then d <| parked_bidi ::= tail |> else d <| parked_uni ::= tail |> |>
    <| drv ::= λ d, d <| admission ::= delete (ps_id peer) |> |>)) as Hf.
  { pose proof (admission_wf_pop_parked bidi (drv w <| admission ::= delete (ps_id peer) |>)
      (admission_wf_delete _ _ Hw)) as Hpop.
    split.
    - destruct bidi; apply Hpop; simpl in *; rewrite Hq; intros ? ? ? Hc;
        injection Hc as <- _; by rewrite lookup_delete_eq.
    - apply eq_None_not_Some. destruct bidi; simpl in *; intros Hs%(pend_new _ Hw); congruence. }
  pose proof (admit_one_fresh peer _ Hf) as [Ha' _].
  destruct (result (admit_one peer) _) as [|peer'|] eqn:Er; simpl; [done| |done].
  apply admit_one_full in Er as [-> Hd].
  pose proof (park_again (cons (ps_id peer)) (ps_id peer) peer) as Hpark.
  run. destruct bidi; rewrite Hb in Hpark; run; rewrite Hd; apply Hpark; try done; set_solver.
Qed.

(** ** The writable scan *)

Lemma capture_stop_id stopped p : ps_id (capture_stop stopped p) = ps_id p.
Proof. unfold capture_stop. by case_match. Qed.

Lemma admission_wf_capture stopped id (d : QuicheDriver B) :
  admission_wf d → admission_wf (d <| pending_admit ::= alter (capture_stop stopped) id |>).
Proof.
  intros []. split; simpl in *; auto; intros id'.
  - rewrite lookup_alter_is_Some. apply pend_dom0.
  - intros p [(->&p'&?&->)|[]]%lookup_alter_Some; [|by auto].
    rewrite capture_stop_id. auto.
  - rewrite lookup_alter_is_Some. apply pend_new0.
Qed.

Lemma writable_peer_admission id (w : World B C) :
  on_drv (C := C) admission_wf w →
  (∀ a b, admission (drv w) !! id ≠ Some (Registered a b)) →
  on_drv admission_wf (exec (writable_peer id) w).
Proof.
  intros Hw Hr. unfold writable_peer, on_drv. run.
  destruct (pending_admit (drv w) !! id) eqn:Hp; run; [by apply admission_wf_capture|].
  destruct (admission (drv w) !! id) as [[peer|]|] eqn:Ha; run.
  - apply admission_wf_park; [|done|done|].
    + rewrite capture_stop_id. eauto using park_id.
    + eapply park_queued; eauto.
  - by destruct (Hr send_done recv_done).
  - set (p := capture_stop _ _).
    pose proof (admission_wf_discover id p (drv w)) as Hd.
    unfold push_pending_admit. specialize (Hd (capture_stop_id _ _) Ha Hp Hw).
    destruct (is_bidi id); run; destruct Hd; split; assumption.
Qed.

Lemma send_terminal_transition_admission id e : respects R (send_terminal_transition id e).
Proof. admissions. Qed.
#[local] Hint Resolve send_terminal_transition_admission : steps.
Lemma writable_registered_admission id st : respects R (writable_registered id st).
Proof. admissions. Qed.

Lemma stage_writable_one_admission : respects R stage_writable_one.
Proof.
  intros w Hw. unfold stage_writable_one, on_drv. run.
  case_match; run; [|done]. case_match; [by apply writable_registered_admission|].
  destruct (is_bidi n); simpl; [|done].
  destruct (admission (drv w) !! n) as [[]|] eqn:Ha; run; try done;
    apply writable_peer_admission; simpl; congruence || done.
Qed.

(** ** Cleaning up undelivered streams *)

Lemma shutdown_peer_directions_drv id bidi (w : World B C) :
  drv (exec (shutdown_peer_directions id bidi) w) = drv w.
Proof. by destruct bidi. Qed.

Lemma clean_parked_all l (w : World B C) :
  ∃ A', drv (exec (for_each l clean_parked) w) = drv w <| admission := A' |> ∧
        A' ⊆ admission (drv w) ∧ ∀ id p, A' !! id = Some (Parked p) → id ∉ l.
Proof.
  revert w. induction l as [|id l IH]; intros w.
  { exists (admission (drv w)). split; [by destruct w as [[]]|]. set_solver. }
  simpl. rewrite exec_bind. set (w1 := exec (clean_parked id) w).
  assert (∃ A1, drv w1 = drv w <| admission := A1 |> ∧ A1 ⊆ admission (drv w) ∧
                ∀ p, A1 !! id ≠ Some (Parked p)) as (A1&Hw1&HA1&Hid).
  { subst w1. unfold clean_parked. run.
    destruct (admission (drv w) !! id) as [[]|] eqn:Ha; run.
    - exists (delete id (admission (drv w))). rewrite shutdown_peer_directions_drv.
      split; [done|]. split; [apply delete_subseteq|].
      intros p. by rewrite lookup_delete_eq.
    - exists (admission (drv w)). split; [by destruct w as [[]]|]. split; congruence || done.
    - exists (admission (drv w)). split; [by destruct w as [[]]|]. split; congruence || done. }
  destruct (IH w1) as (A'&Hw'&HA'&Hl). exists A'. rewrite Hw', Hw1.
  rewrite Hw1 in HA'. simpl in HA'. split; [done|]. split; [by etrans|].
  intros id' p Hp [->|]%elem_of_cons; [|by eapply Hl].
  eapply Hid, lookup_weaken; done.
Qed.

Lemma clean_pending_all l (w : World B C) :
  ∃ P', drv (exec (for_each l clean_pending) w) = drv w <| pending_admit := P' |> ∧
        P' ⊆ pending_admit (drv w) ∧ ∀ id, id ∈ l → P' !! id = None.
Proof.
  revert w. induction l as [|id l IH]; intros w.
  { exists (pending_admit (drv w)). split; [by destruct w as [[]]|]. set_solver. }
  simpl. rewrite exec_bind. set (w1 := exec (clean_pending id) w).
  assert (drv w1 = drv w <| pending_admit ::= delete id |>) as Hw1.
  { subst w1. unfold clean_pending, when. run.
    case_match; [by rewrite shutdown_peer_directions_drv | done]. }
  destruct (IH w1) as (P'&Hw'&HP'&Hl). exists P'. rewrite Hw', Hw1.
  rewrite Hw1 in HP'. simpl in HP'. split; [done|].
  split; [etrans; [done|apply delete_subseteq]|].
  intros id' [->|]%elem_of_cons; [|by apply Hl].
  eapply lookup_weaken_None; [|done]. apply lookup_delete_eq.
Qed.

Lemma clean_undelivered_admission : respects R clean_undelivered_peer_streams.
Proof.
  intros w []. unfold clean_undelivered_peer_streams, on_drv, pending_ids, parked_of in *.
  rewrite exec_bind, exec_dget, result_dget, exec_bind, exec_dmod, exec_bind.
  set (w0 := w <| drv ::= _ |>).
  destruct (clean_parked_all (parked_bidi (drv w) ++ parked_uni (drv w)) w0) as (A'&Hd&HA&Hl).
  set (w1 := exec (for_each _ _) w0) in *. clearbody w1.
  rewrite exec_bind, exec_dget, result_dget, exec_bind, exec_dmod, Hd.
  set (w2 := w1 <| drv ::= _ |>).
  destruct (clean_pending_all (pending_admit_bidi (drv w) ++ pending_admit_uni (drv w)) w2)
    as (P'&Hd'&HP&Hp).
  simpl in *. rewrite Hd', Hd. rewrite Hd in HP. simpl in *.
  assert (∀ id, P' !! id = None) as HP'.
  { intros id. apply eq_None_not_Some. intros Hs.
    destruct Hs as [p Hs]. pose proof (lookup_weaken _ _ _ _ Hs HP) as Hin.
    rewrite Hp in Hs; [done|]. apply pend_dom0. eauto. }
  split; unfold pending_ids, parked_of; simpl in *; auto; try (by intros ? ?%elem_of_nil).
  - apply NoDup_nil_2.
  - intros id. rewrite HP', elem_of_nil. split; [done|]. by intros [].
  - intros id p. by rewrite HP'.
  - intros id. rewrite HP'. by intros [].
  - intros id p Ha. eapply park_id0, lookup_weaken; done.
  - intros id p Ha. exfalso. apply (Hl id p Ha).
    pose proof (lookup_weaken _ _ _ _ Ha HA) as Ha'. apply park_queued0 in Ha'.
    apply elem_of_app. destruct (is_bidi id); auto.
Qed.

#[local] Hint Resolve intake_readable_one_admission phase2_loop_admission
  promote_one_admission stage_writable_one_admission clean_undelivered_admission : steps.

(** ** The callbacks *)

Lemma run_read_pump_admission : respects R run_read_pump.
Proof. admissions. Qed.
#[local] Hint Resolve run_read_pump_admission : steps.
Lemma open_bidi_loop_admission n : respects R (open_bidi_loop n).
Proof. induction n; simpl; admissions. Qed.
Lemma open_uni_loop_admission n : respects R (open_uni_loop n).
Proof. induction n; simpl; admissions. Qed.
Lemma service_send_turn_admission id : respects R (service_send_turn id).
Proof. admissions. Qed.
Lemma close_drain_loop_admission n t : respects R (close_drain_loop n t).
Proof. induction n; simpl; admissions. Qed.
#[local] Hint Resolve open_bidi_loop_admission open_uni_loop_admission
  service_send_turn_admission close_drain_loop_admission : steps.

Lemma do_process_reads_admission : respects R do_process_reads.
Proof. admissions. Qed.
Lemma do_process_writes_admission : respects R do_process_writes.
Proof. admissions. Qed.
Lemma wait_for_data_admission p : respects R (wait_for_data_poll p).
Proof. admissions. Qed.
Lemma do_on_conn_close_admission : respects R do_on_conn_close.
Proof. admissions. Qed.
Lemma on_conn_established_admission : respects R on_conn_established.
Proof. admissions. Qed.
End admission.

#[export] Hint Resolve do_process_reads_admission do_process_writes_admission
  wait_for_data_admission do_on_conn_close_admission on_conn_established_admission : steps.
