(* ===== verification/Cursor.v ===== *)
(** * The worker's cursors

    Three queues of stream ids drive the worker: readable streams, resumed streams
    and streams with something to send.  Each is a [VecDeque] with a [HashSet] of
    its members beside it, so that membership is a hash lookup and a queue is only
    scanned when it is known to hold the id.  The reference is a plain list in which
    an id is looked for by scanning. *)

From S2P Require Import Prelude Interfaces Error Buffer Conn DriverTypes DriverStore DriverCore DriverRecv DriverSend Driver DriverLogic DriverInv.

Inductive Cursor := Readable | Resumed | Runnable.
#[export] Instance Cursor_eq_dec : EqDecision Cursor.
Proof. solve_decision. Defined.

(** [ForgetRecv] and [ForgetSend] are the removals of a finished direction. *)
Inductive CursorOp :=
| Enqueue (c : Cursor) (id : N)
| PopFront (c : Cursor)
| ForgetRecv (id : N)
| ForgetSend (id : N).

(** ** The reference: lists without duplicates *)

Definition Lists := Cursor → list N.
Definition list_push (id : N) (q : list N) : list N := if decide (id ∈ q) then q else q ++ [id].
Definition list_forget (id : N) (q : list N) : list N := filter (λ x, x ≠ id) q.

Definition ref_op (op : CursorOp) (q : Lists) : option N * Lists :=
  match op with
  | Enqueue c id => (None, λ c', if decide (c' = c) then list_push id (q c) else q c')
  | PopFront c => (head (q c), λ c', if decide (c' = c) then tail (q c) else q c')
  | ForgetRecv id => (None, λ c, match c with Runnable => q c | _ => list_forget id (q c) end)
  | ForgetSend id => (None, λ c, match c with Runnable => list_forget id (q c) | _ => q c end)
  end.
Fixpoint ref_ops (ops : list CursorOp) (q : Lists) : list (option N) * Lists :=
  match ops with
  | [] => ([], q)
  | op :: ops => let r := ref_op op q in let rs := ref_ops ops r.2 in (r.1 :: rs.1, rs.2)
  end.

(** ** The worker's *)

Section cursors.
Context `{Runtime} {B C : Type} `{!Buf B} `{!QuicConn C}.
Abbreviation W := (World B C).
Abbreviation M := (ST W).

Definition queue_of (d : QuicheDriver B) : Lists := λ c,
  match c with
  | Readable => pending_readable d
  | Resumed => pending_resume d
  | Runnable => runnable_send d
  end.
Definition members_of (d : QuicheDriver B) (c : Cursor) : gset N :=
  match c with
  | Readable => readable_set d
  | Resumed => resume_set d
  | Runnable => runnable_send_set d
  end.

Definition run_op (op : CursorOp) : M (option N) :=
  match op with
  | Enqueue Readable id => requeue_readable id;; mret None
  | Enqueue Resumed id => enqueue_resume id;; mret None
  | Enqueue Runnable id => mark_send_runnable id;; mret None
  | PopFront Readable => pop_readable
  | PopFront Resumed => pop_resume
  | PopFront Runnable => pop_runnable_send
  | ForgetRecv id => drop_recv_memberships id;; mret None
  | ForgetSend id => drop_send_membership id;; mret None
  end.
Fixpoint run_ops (ops : list CursorOp) : M (list (option N)) :=
  match ops with
  | [] => mret []
  | op :: ops => r ← run_op op; rs ← run_ops ops; mret (r :: rs)
  end.

Lemma queue_of_ok d c : queues_wf d → queue_ok (queue_of d c) (members_of d c).
Proof. intros []. by destruct c. Qed.

(** The set decides as the scan would, and a scan for an id that is not there
    changes nothing. *)
Lemma push_member q s id :
  queue_ok q s → (if decide (id ∈ s) then q else q ++ [id]) = list_push id q.
Proof. intros [_ Hs]. unfold list_push. specialize (Hs id). repeat case_decide; tauto. Qed.
Lemma forget_member q s id :
  queue_ok q s → (if decide (id ∈ s) then filter (λ x, x ≠ id) q else q) = list_forget id q.
Proof.
  intros [_ Hs]. unfold list_forget. case_decide as Hid; [done|]. symmetry. apply filter_absent. by rewrite Hs.
Qed.

#[local] Hint Resolve requeue_readable_queues enqueue_resume_queues mark_send_runnable_queues
  drop_send_membership_queues drop_recv_memberships_queues pop_readable_queues
  pop_resume_queues pop_runnable_send_queues : steps.
Lemma run_op_queues op : respects (keeps (on_drv queues_wf)) (run_op op).
Proof. destruct op as [[]| []| |]; cbn [run_op]; worker. Qed.

Lemma run_op_ref op (w : W) :
  queues_wf (drv w) →
  result (run_op op) w = (ref_op op (queue_of (drv w))).1 ∧
  ∀ c, queue_of (drv (exec (run_op op) w)) c = (ref_op op (queue_of (drv w))).2 c.
Proof.
  intros [H1 H2 H3]. destruct op as [c id|c|id|id]; cbn [run_op ref_op].
  - split; [by destruct c|]. intros c'. destruct c, c'; run; unfold requeue_readable, enqueue_resume, mark_send_runnable; run;
      rewrite <-?(push_member _ _ _ H1), <-?(push_member _ _ _ H2), <-?(push_member _ _ _ H3); by repeat case_decide.
  - unfold pop_readable, pop_resume, pop_runnable_send. destruct c; run;
      [destruct (pending_readable (drv w)) eqn:E|destruct (pending_resume (drv w)) eqn:E|destruct (runnable_send (drv w)) eqn:E];
      run; (split; [done|]); intros []; simpl; by rewrite ?E.
  - split; [done|]. intros c. unfold drop_recv_memberships. run.
    destruct c; simpl; rewrite <-?(forget_member _ _ id H1), <-?(forget_member _ _ id H2); by repeat case_decide.
  - split; [done|]. intros c. unfold drop_send_membership. run.
    destruct c; simpl; rewrite <-?(forget_member _ _ id H3); by case_decide.
Qed.

(** C38.  The hash sets beside the worker's queues change nothing but the cost:
    from any well-formed state, any sequence of enqueueing, popping and forgetting
    streams gives the same ids in the same order, and leaves the same queues, as
    lists that are scanned for every id; and the sets still hold exactly the
    queued ids. *)
Theorem cursors_are_scanned_lists ops (w : W) :
  queues_wf (drv w) →
  let d' := drv (exec (run_ops ops) w) in
  let r := ref_ops ops (queue_of (drv w)) in
  result (run_ops ops) w = r.1 ∧
  ∀ c, queue_of d' c = r.2 c ∧ ∀ id, id ∈ members_of d' c ↔ id ∈ r.2 c.
Proof.
  intros Hw. cut (∀ q, (∀ c, queue_of (drv w) c = q c) →
    result (run_ops ops) w = (ref_ops ops q).1 ∧ queues_wf (drv (exec (run_ops ops) w)) ∧
    ∀ c, queue_of (drv (exec (run_ops ops) w)) c = (ref_ops ops q).2 c).
  { intros Hc. destruct (Hc (queue_of (drv w))) as (Hr&Hw'&Hq); [done|]. split; [done|]. intros c.
    split; [done|]. rewrite <-Hq. intros id. symmetry. apply (queue_of_ok _ c Hw'). }
  revert w Hw. induction ops as [|op ops IH]; intros w Hw q Hq; [done|]. cbn [run_ops ref_ops].
  rewrite !result_bind, !exec_bind, result_ret, exec_ret. destruct (run_op_ref op w Hw) as [Hr Hc].
  destruct (IH _ (run_op_queues op w Hw) (ref_op op q).2) as (Hr'&Hw'&Hc').
  - intros c. rewrite Hc. destruct op as [c0 id|c0|id|id]; simpl; repeat case_match; by rewrite ?Hq.
  - split_and!; [|done..]. simpl. rewrite Hr, Hr'. f_equal. destruct op; simpl; by rewrite ?Hq.
Qed.
End cursors.
