(* ===== verification/Fairness.v ===== *)
(** * No stream is starved

    The send stage and the registered drain are round robins: they serve the streams
    in the order of their queue, and one that has more to do goes behind the others,
    so that none is starved by one that always has work. *)

From S2P Require Import Prelude RoundRobin Interfaces Error Buffer Conn DriverTypes DriverStore DriverCore DriverRecv DriverSend Driver DriverLogic DriverInv.

(** ** A turn touches its own stream only *)

Section spares.
Context `{Runtime} {B C : Type} `{!Buf B} `{!QuicConn C}.
Abbreviation W := (World B C).

(** [spares id]: a queue that does not hold [id] is left as it is. *)
Definition spares (id : N) : relation W := λ w w',
  id ∉ runnable_send (drv w) → runnable_send (drv w') = runnable_send (drv w).
#[export] Instance spares_preorder id : PreOrder (spares id).
Proof.
  split; [by intros w ?|]. intros w1 w2 w3 H1 H2 Hid. rewrite H2, H1; [done..|]. by rewrite H1.
Qed.

Lemma spares_dmod id f : (∀ d, runnable_send (f d) = runnable_send d) → respects (spares id) (dmod f).
Proof. intros Hf w _. apply Hf. Qed.
Lemma spares_shared id {A} (m : ST (Store B) A) : respects (spares id) (shared m).
Proof. by intros w ?. Qed.
Lemma spares_call id {A} (m : ST C A) : respects (spares id) (call m).
Proof. by intros w ?. Qed.
Lemma spares_forget id : respects (spares id) (drop_send_membership id).
Proof.
  intros w Hid. simpl. case_decide; simpl; [|done]. by apply filter_absent.
Qed.
End spares.
#[export] Hint Resolve spares_shared spares_call spares_forget : steps.
Ltac spares_leaf :=
  idtac; lazymatch goal with
  | |- respects _ (dmod _) => apply spares_dmod; intros ?; repeat case_match; reflexivity
  end.
Ltac sparing := worker_with spares_leaf.

(** ** Turns *)

Section turns.
Context `{Runtime} {B C : Type} `{!Buf B} `{!QuicConn C}.
Abbreviation W := (World B C).

Lemma send_terminal_transition_spares id e : respects (spares (B := B) (C := C) id) (send_terminal_transition id e).
Proof. sparing. Qed.
#[local] Hint Resolve send_terminal_transition_spares : steps.
Lemma service_send_turn_spares id : respects (spares (B := B) (C := C) id) (service_send_turn id).
Proof. sparing. Qed.

(** One turn: the head of the queue is served and comes back last, or not at
    all. *)
Lemma stage_send_one_rotates id q (w : W) :
  queues_wf (drv w) → runnable_send (drv w) = id :: q →
  let w' := exec stage_send_one w in
  result stage_send_one w = true ∧ queues_wf (drv w') ∧
  ∃ again, again `sublist_of` [id] ∧ runnable_send (drv w') = q ++ again.
Proof.
  intros Hw Hq w'. subst w'. unfold stage_send_one. rewrite exec_bind, result_bind.
  pose proof (pop_runnable_send_queues w Hw) as Hw1.
  assert (result pop_runnable_send w = Some id ∧ runnable_send (drv (exec pop_runnable_send w)) = q) as [Hr Hq1].
  { unfold pop_runnable_send. run. by rewrite Hq. }
  set (w1 := exec pop_runnable_send w) in *. clearbody w1. rewrite Hr, !exec_bind, !result_bind.
  assert (id ∉ q) as Hid.
  { destruct (runnable_ok _ Hw) as [Hnd _]. rewrite Hq in Hnd. by apply NoDup_cons in Hnd as [? _]. }
  pose proof (service_send_turn_spares id w1) as Hq2. unfold spares in Hq2. rewrite Hq1 in Hq2. specialize (Hq2 Hid).
  pose proof (service_send_turn_queues id w1 Hw1) as Hw2.
  set (w2 := exec (service_send_turn id) w1) in *. clearbody w2.
  destruct (result (service_send_turn id) w1).
  2,3: split_and!; [done..|]; exists []; split; [apply sublist_nil_l|by rewrite app_nil_r].
  rewrite exec_bind. pose proof (mark_send_runnable_queues id w2 Hw2) as Hw3.
  split_and!; [done|by destruct Hw3|]. exists [id]. split; [done|]. simpl.
  destruct (runnable_ok _ Hw2) as [_ Hs]. rewrite decide_False by (by rewrite <-Hs, Hq2). simpl. by rewrite Hq2.
Qed.

#[export] Instance stage_send_round_robin :
  RoundRobin (λ w : W, runnable_send (drv w)) (λ _, true) stage_send_one (on_drv queues_wf).
Proof.
  split.
  - intros w id q Hw _ Hq. by apply stage_send_one_rotates.
  - intros w [Hq|]; [|done]. unfold stage_send_one, pop_runnable_send. run. by rewrite Hq.
Qed.

(** The streams the first [n] turns serve, in order. *)
Definition sends_served : nat → W → list N :=
  served (λ w, runnable_send (drv w)) (λ _, true) stage_send_one.

End turns.

(** ** Reads *)

Section reads.
Context `{Runtime} {B C : Type} `{!Buf B} `{!QuicConn C}.
Abbreviation W := (World B C).

(** [id] was taken from the front of the queue and left [q] behind: it is out, or
    queued again as the last. *)
Definition behind (id : N) (q : list N) (d : QuicheDriver B) : Prop :=
  (pending_readable d = q ∧ id ∉ readable_set d) ∨
  (pending_readable d = q ++ [id] ∧ id ∈ readable_set d).
Abbreviation R id q := (keeps (on_drv (B := B) (C := C) (behind id q))).

Lemma requeue_behind id q : respects (R id q) (requeue_readable id).
Proof.
  apply respects_dmod. intros d [[Hq Hs]|[Hq Hs]]; case_decide; try done.
  - right. simpl. split; [by rewrite Hq|set_solver].
  - by right.
Qed.
Lemma forget_behind id q : id ∉ q → respects (R id q) (drop_recv_memberships id).
Proof.
  intros Hid. apply respects_bind; [apply _| |intros _]; apply respects_dmod; intros d Hd.
  2:{ by case_decide. }
  case_decide; [|done]. destruct Hd as [[Hq Hs]|[Hq Hs]]; [done|]. left. simpl. split; [|set_solver].
  rewrite Hq, filter_app, filter_absent by done. rewrite filter_cons_False; [apply app_nil_r|tauto].
Qed.
#[local] Hint Resolve requeue_behind forget_behind : steps.
Ltac behind_leaf :=
  idtac; lazymatch goal with
  | |- respects _ (dmod _) => apply respects_dmod; intros ? ?; repeat case_match; assumption
  end.

Lemma drain_stream_behind id q : id ∉ q → respects (R id q) (drain_stream id).
Proof. intros Hid. worker_with behind_leaf. Qed.

(** One attempt: the head of the queue is drained and comes back last, or not at
    all. *)
Lemma phase1_one_rotates id q (w : W) :
  queues_wf (drv w) → read_budget (drv w) ≠ 0 → pending_readable (drv w) = id :: q →
  let w' := exec phase1_one w in
  result phase1_one w = true ∧ queues_wf (drv w') ∧
  ∃ again, again `sublist_of` [id] ∧ pending_readable (drv w') = q ++ again.
Proof.
  intros Hw Hb Hq w'. subst w'. unfold phase1_one.
  rewrite exec_bind, result_bind, exec_dget, result_dget.
  apply N.eqb_neq in Hb. rewrite Hb, exec_bind, result_bind.
  pose proof (pop_readable_queues w Hw) as Hw1. unfold on_drv in Hw1.
  assert (result pop_readable w = Some id ∧ pending_readable (drv (exec pop_readable w)) = q) as [Hr Hq1].
  { unfold pop_readable. run. by rewrite Hq. }
  assert (id ∉ q) as Hid.
  { destruct (readable_ok _ Hw) as [Hnd _]. rewrite Hq in Hnd. by apply NoDup_cons in Hnd as [? _]. }
  set (w1 := exec pop_readable w) in *. clearbody w1.
  rewrite Hr, !exec_bind, !result_bind, exec_dget, result_dget.
  set (m := when _ (drain_stream id)).
  assert (respects (keeps (on_drv queues_wf)) m) as Hm by (apply respects_when; [apply _|apply drain_stream_queues]).
  assert (respects (R id q) m) as Hm' by (apply respects_when; [apply _|by apply drain_stream_behind]).
  specialize (Hm w1 Hw1). assert (behind id q (drv w1)) as Hbe.
  { left. split; [done|]. destruct (readable_ok _ Hw1) as [_ Hs]. by rewrite <-Hs, Hq1. }
  specialize (Hm' w1 Hbe). split_and!; [done|done|].
  destruct Hm' as [[Hq2 _]|[Hq2 _]]; [exists []|exists [id]]; split; [apply sublist_nil_l| |done|exact Hq2].
  rewrite app_nil_r. exact Hq2.
Qed.

Lemma phase1_one_stops (w : W) :
  pending_readable (drv w) = [] ∨ read_budget (drv w) = 0 →
  let w' := exec phase1_one w in
  result phase1_one w = false ∧ pending_readable (drv w') = pending_readable (drv w) ∧
  read_budget (drv w') = read_budget (drv w).
Proof.
  intros Hs w'. subst w'. unfold phase1_one, pop_readable. run.
  destruct (read_budget (drv w) =? 0) eqn:Hb; run.
  - by destruct (negb _).
  - apply N.eqb_neq in Hb. destruct Hs as [Hq|]; [|done]. by rewrite Hq.
Qed.

#[export] Instance phase1_round_robin :
  RoundRobin (λ w : W, pending_readable (drv w)) (λ w, negb (read_budget (drv w) =? 0)) phase1_one
    (on_drv queues_wf).
Proof.
  split.
  - intros w id q Hw Hb%negb_true_iff%N.eqb_neq Hq. by apply phase1_one_rotates.
  - intros w Hs. destruct (phase1_one_stops w) as (Hr&Hq&Hb).
    { destruct Hs as [?|Hb%negb_false_iff%N.eqb_eq]; auto. }
    split_and!; [exact Hr|exact Hq|]. cbv beta. by rewrite Hb.
Qed.

(** The streams the first [n] attempts take, in order; an attempt needs read
    budget. *)
Definition drained : nat → W → list N :=
  served (λ w, pending_readable (drv w)) (λ w, negb (read_budget (drv w) =? 0)) phase1_one.

End reads.
