(* ===== verification/DriverSendInv.v ===== *)
(** * The send registry stays well formed

    Preservation of [send_wf] by every stage: a terminal half owes nothing, a
    pending reset is terminal, a deferred write has bytes left. *)

From S2P Require Import Prelude Interfaces Error Buffer Conn DriverTypes DriverStore DriverCore DriverRecv DriverSend Driver DriverLogic DriverInv.

Section send_inv.
Context `{Runtime} {B C : Type} `{!Buf B} `{!QuicConn C}.
Abbreviation R := (keeps (on_drv (B := B) (C := C) send_wf)).

(** ** Changes of one entry *)

Lemma send_wf_alter f id (d : QuicheDriver B) :
  (∀ s, send d !! id = Some s → send_ok s → send_ok (f s)) →
  send_wf d → send_wf (d <| send ::= alter f id |>).
Proof.
  intros Hf Hw id' s. simpl. intros [(->&s'&Hs&->)|[]]%lookup_alter_Some; [|by eapply Hw].
  apply Hf; [done|]. by eapply Hw.
Qed.
Lemma send_wf_insert id s (d : QuicheDriver B) :
  send_ok s → send_wf d → send_wf (d <| send ::= <[id := s]> |>).
Proof. intros Hs Hw. by apply map_Forall_insert_2. Qed.
Lemma send_wf_delete id (d : QuicheDriver B) :
  send_wf d → send_wf (d <| send ::= delete id |>).
Proof. apply map_Forall_delete. Qed.
Lemma send_ok_new c : send_ok (send_state_new (B := B) c).
Proof. by split. Qed.
Lemma send_ok_seal t (s : StreamSendState B) : send_ok (seal_send_state t s).
Proof. by split. Qed.
Lemma send_wf_seal t (d : QuicheDriver B) : send_wf (d <| send ::= fmap (seal_send_state t) |>).
Proof. intros id s. simpl. rewrite lookup_fmap_Some. intros (s'&<-&_). apply send_ok_seal. Qed.

Lemma upd_send_wf id (f : StreamSendState B → StreamSendState B) :
  (∀ s, send_ok s → send_ok (f s)) → respects R (upd_send id f).
Proof. intros Hf. apply respects_dmod. intros d. apply send_wf_alter. auto. Qed.

Lemma send_ok_finished (s : StreamSendState B) : send_ok s → send_ok (s <| finished := true |>).
Proof. intros []. by split. Qed.
Lemma send_ok_no_reset (s : StreamSendState B) : send_ok s → send_ok (s <| pending_reset := None |>).
Proof. intros []. by split. Qed.
Lemma send_ok_pop (s : StreamSendState B) : send_ok s → send_ok (s <| send_ops ::= tail |>).
Proof. intros [Hops ???]. split; try done. simpl. intros Ht. by rewrite Hops. Qed.
Lemma send_ok_reset code t (s : StreamSendState B) :
  send_ok (s <| pending_reset := Some code |> <| terminal := Some t |>
             <| send_ops := [] |> <| held := None |>).
Proof. by split. Qed.
Lemma send_ok_terminal t (s : StreamSendState B) :
  send_ok (s <| terminal := Some t |> <| held := None |> <| send_ops := [] |>).
Proof. by split. Qed.

(** A half that has not ended accepts operations and deferred bytes. *)
Lemma send_ok_push op (s : StreamSendState B) :
  terminal s = None → send_ok s → send_ok (s <| send_ops ::= λ q, q ++ [op] |>).
Proof. intros Ht []. by split. Qed.
Lemma send_ok_hold h (s : StreamSendState B) :
  terminal s = None → buf_has_remaining (held_buf h) = true →
  send_ok s → send_ok (s <| held := Some h |>).
Proof. intros Ht Hh []. split; simpl; try done. naive_solver. Qed.
Lemma send_ok_unhold (s : StreamSendState B) : send_ok s → send_ok (s <| held := None |>).
Proof. intros []. by split. Qed.
Lemma send_ok_head op (s : StreamSendState B) :
  terminal s = None → send_ok s → send_ok (s <| send_ops ::= λ q, op :: tail q |>).
Proof. intros Ht []. by split. Qed.

(** ** Stages that do not depend on the entry *)

Lemma build_send_ok id retained (w : World B C) s :
  (result (build_send id retained) w).1.2 = Some s → send_ok s.
Proof.
  unfold build_send. rewrite !result_bind, result_ret.
  destruct retained; simpl; intros [= <-]. apply send_ok_new.
Qed.

#[local] Hint Resolve send_ok_finished send_ok_no_reset send_ok_pop send_ok_reset
  send_ok_terminal send_ok_unhold send_ok_new : core.

Ltac send_leaf :=
  idtac; lazymatch goal with
  | |- respects _ (upd_send _ _) => apply upd_send_wf; intros ? ?; by auto
  | |- respects _ (dmod _) =>
      apply respects_dmod; intros ? ?;
      first
        [ apply send_wf_delete; assumption
        | apply send_wf_insert; [by auto | assumption]
        | apply send_wf_seal
        | repeat case_match; assumption ]
  end.
Ltac sends := worker_with send_leaf.

Lemma send_insert_wf id s : send_ok s → respects R (send_insert id s).
Proof. intros Hs. sends. Qed.
Lemma drain_stream_send id : respects R (drain_stream id).
Proof. sends. Qed.
Lemma build_recv_send id e : respects R (build_recv id e).
Proof. sends. Qed.
Lemma build_send_send id e : respects R (build_send id e).
Proof. sends. Qed.
#[local] Hint Resolve send_insert_wf drain_stream_send build_recv_send build_send_send : steps.

(** What is registered is what [build_send] returned. *)
Lemma register_send {A} id e (k : SendHandoff * option (StreamSendState B) * bool → ST (World B C) A) :
  (∀ h o b, (∀ s, o = Some s → send_ok s) → respects R (k (h, o, b))) →
  respects R (build_send id e ≫= k).
Proof.
  intros Hk. apply respects_bind_result; [apply _ | apply build_send_send |]. intros w.
  destruct (result _ w) as [[h o] b] eqn:E. apply Hk. intros s ->.
  eapply (build_send_ok id e w). by rewrite E.
Qed.

Lemma register_for_some id (o : option (StreamSendState B)) :
  (∀ s, o = Some s → send_ok s) → respects R (for_some o (send_insert id)).
Proof. intros Ho. apply respects_for_some; [apply _|]. intros s Hs. apply send_insert_wf; auto. Qed.
#[local] Hint Resolve register_for_some : steps.

Ltac registers :=
  worker_with ltac:(idtac; first
    [ send_leaf
    | lazymatch goal with
      | |- respects _ (mbind _ (build_send _ _)) => apply register_send; intros
      end ]).

Lemma admit_one_send peer : respects R (admit_one peer).
Proof. registers. Qed.
Lemma materialize_bidi_send id reply : respects R (materialize_bidi id reply).
Proof. registers. Qed.
Lemma materialize_uni_send id reply : respects R (materialize_uni id reply).
Proof. registers. Qed.
#[local] Hint Resolve admit_one_send materialize_bidi_send materialize_uni_send : steps.
Lemma phase2_loop_send fuel budget bb ub pb : respects R (phase2_loop fuel budget bb ub pb).
Proof.
  revert budget bb ub pb. induction fuel; intros; simpl; destruct budget; sends.
Qed.
#[local] Hint Resolve phase2_loop_send : steps.
Lemma run_read_pump_send : respects R run_read_pump.
Proof. sends. Qed.
Lemma open_bidi_loop_send n : respects R (open_bidi_loop n).
Proof. induction n; simpl; sends. Qed.
Lemma open_uni_loop_send n : respects R (open_uni_loop n).
Proof. induction n; simpl; sends. Qed.
Lemma send_terminal_transition_send id e : respects R (send_terminal_transition id e).
Proof. sends. Qed.
Lemma close_drain_loop_send n t : respects R (close_drain_loop n t).
Proof. induction n; simpl; sends. Qed.
#[local] Hint Resolve run_read_pump_send open_bidi_loop_send open_uni_loop_send
  send_terminal_transition_send close_drain_loop_send : steps.
Lemma stage_writable_send : respects R stage_writable.
Proof. sends. Qed.
Lemma classify_send_err_send id err : respects R (classify_send_err id err).
Proof. sends. Qed.
Lemma rearm_send_send id : respects R (rearm_send id).
Proof. sends. Qed.
Lemma apply_reset_send id code : respects R (apply_reset id code).
Proof. sends. Qed.
#[local] Hint Resolve stage_writable_send classify_send_err_send rearm_send_send
  apply_reset_send : steps.

(** ** Operations on a live half *)

Definition live (id : N) (d : QuicheDriver B) : Prop :=
  ∃ s, send d !! id = Some s ∧ terminal s = None.

Lemma upd_live id f (w : World B C) :
  (∀ s, terminal s = None → send_ok s → send_ok (f s)) →
  live id (drv w) → on_drv send_wf w → on_drv send_wf (exec (upd_send id f) w).
Proof.
  intros Hf (s&Hs&Ht) Hw. apply send_wf_alter; [|done]. intros s' Hs' ?. simplify_eq. auto.
Qed.
Lemma live_upd id f (w : World B C) :
  (∀ s, terminal (f s) = terminal s) →
  live id (drv w) → live id (drv (exec (upd_send id f) w)).
Proof.
  intros Hf (s&Hs&Ht). exists (f s). simpl. rewrite lookup_alter_eq, Hs, Hf. done.
Qed.

Lemma send_entry_spec id (w : World B C) :
  let w' := exec (send_entry id) w in
  send (drv w') !! id = Some (result (send_entry id) w) ∧
  (on_drv send_wf w → on_drv send_wf w').
Proof.
  simpl. unfold send_entry, on_drv. run. destruct (send (drv w) !! id) eqn:Hs; run; [done|].
  split; [apply lookup_insert_eq|]. apply send_wf_insert; auto.
Qed.

Lemma enqueue_send_op_send id op : respects R (enqueue_send_op id op).
Proof.
  intros w Hw. unfold enqueue_send_op. rewrite exec_bind.
  destruct (send_entry_spec id w) as [Hs Hw']. specialize (Hw' Hw).
  destruct (terminal _) eqn:Ht; [exact Hw'|]. rewrite exec_bind.
  assert (respects R (mark_send_runnable id)) as Hm by sends. apply Hm.
  apply upd_live; [by auto using send_ok_push | by eexists | done].
Qed.

(** The transport's part of a send turn does not touch the worker. *)
Lemma send_from_buf_drv (buf : B) (sink : Bytes → ST (World B C) (Result N quiche.Error)) w :
  (∀ c w, drv (exec (sink c) w) = drv w) →
  drv (exec (send_from_buf buf sink) w) = drv w.
Proof.
  intros Hs. unfold send_from_buf. case_match; [done|]. rewrite exec_bind.
  by case_match; rewrite exec_ret, Hs.
Qed.
Lemma send_from_buf_err {S} (buf : B) (sink : Bytes → ST S (Result N quiche.Error)) s e :
  (result (send_from_buf buf sink) s).1 = Err e → (result (send_from_buf buf sink) s).2 = buf.
Proof.
  unfold send_from_buf. case_match; [done|]. rewrite result_bind. by case_match.
Qed.

Lemma flush_held_once_send id fin (w : World B C) :
  on_drv send_wf w → live id (drv w) →
  on_drv send_wf (exec (flush_held_once id fin) w) ∧
  (result (flush_held_once id fin) w = FlushComplete →
   live id (drv (exec (flush_held_once id fin) w))).
Proof.
  intros Hw Hl. unfold flush_held_once.
  rewrite exec_bind, result_bind, exec_dget, result_dget.
  destruct (send (drv w) !! id ≫= held) as [h|] eqn:Hh; [|done].
  rewrite exec_bind, result_bind.
  set (m := send_from_buf _ _).
  assert (drv (exec m w) = drv w) as Hd by by apply send_from_buf_drv.
  assert (∀ e, (result m w).1 = Err e → (result m w).2 = held_buf h) as Herr
    by (intros e; apply send_from_buf_err).
  set (r := result m w) in *. set (w1 := exec m w) in *. clearbody r w1 m.
  rewrite <-Hd in Hl. unfold on_drv in Hw. rewrite <-Hd in Hw.
  rewrite exec_bind, result_bind.
  set (w2 := exec (upd_send id _) w1).
  assert (live id (drv w2)) as Hl2 by by apply live_upd.
  destruct r.1 as [written|err] eqn:Er; [destruct (buf_has_remaining r.2) eqn:Hr; simpl|].
  - assert (on_drv send_wf w2) as Hw2.
    { apply upd_live; [|done|done]. intros s Hs. by apply send_ok_hold. }
    case_match; [done|]. rewrite exec_bind, result_bind.
    split; [by apply rearm_send_send|]. by destruct (result (rearm_send id) w2).
  - rewrite exec_bind, result_bind. split; [|intros _; by apply (live_upd id _ w2)].
    unfold on_drv, send_wf. simpl. rewrite alter_alter_eq.
    apply (send_wf_alter _ id (drv w1)); [|done]. intros s _. apply send_ok_unhold.
  - assert (on_drv send_wf w2) as Hw2.
    { apply upd_live; [|done|done]. intros s Hs. apply send_ok_hold; [done|]. simpl.
      rewrite (Herr err eq_refl). destruct Hl as (s'&Hs'&_). rewrite Hd in *.
      apply bind_Some in Hh as (s''&?&Hh). simplify_eq. by eapply held_nonempty, Hh; eapply Hw. }
    rewrite exec_bind, result_bind. split; [by apply classify_send_err_send|].
    by destruct (result (classify_send_err id err) w2).
Qed.

Lemma runnable_after_pop_drv id (w : World B C) : exec (runnable_after_pop id) w = w.
Proof. unfold runnable_after_pop. run. by repeat case_match. Qed.

Lemma hold_write_send id buf k permit (w : World B C) :
  buf_has_remaining buf = true → on_drv send_wf w → live id (drv w) →
  on_drv send_wf (exec (hold_write id buf k permit) w).
Proof.
  intros Hb Hw Hl. unfold hold_write. rewrite !exec_bind, runnable_after_pop_drv.
  apply upd_live.
  - intros s Ht. by apply send_ok_hold.
  - by apply (live_upd id _ w).
  - apply (upd_send_wf id _ (λ s, send_ok_pop s) w Hw).
Qed.

Lemma partial_write_send id buf k permit (w : World B C) :
  on_drv send_wf w → live id (drv w) →
  on_drv send_wf (exec (partial_write id buf k permit) w).
Proof.
  intros Hw Hl. unfold partial_write. rewrite exec_bind. set (m := send_from_buf _ _).
  assert (drv (exec m w) = drv w) as Hd by by apply send_from_buf_drv.
  unfold on_drv in Hw. rewrite <-Hd in Hw, Hl.
  rewrite exec_bind. set (w2 := exec (upd_send id _) (exec m w)).
  assert (on_drv send_wf w2) as Hw2.
  { apply upd_live; [|done|done]. intros s. apply send_ok_head. }
  destruct (result m w).1 as [written|err]; [|by apply classify_send_err_send].
  case_match; [|case_match; [done|by apply rearm_send_send]].
  rewrite !exec_bind, runnable_after_pop_drv. apply (upd_send_wf id _ (λ s, send_ok_pop s) w2 Hw2).
Qed.

Lemma service_head_write_send id (w : World B C) :
  on_drv send_wf w → live id (drv w) → on_drv send_wf (exec (service_head_write id) w).
Proof.
  intros Hw Hl. unfold service_head_write. rewrite exec_bind, exec_dget, result_dget.
  destruct (head _) as [[buf k permit|]|]; [|done|done].
  rewrite exec_bind. destruct (result _ w) as [cap|err]; [|by apply classify_send_err_send].
  case_match eqn:Hc; [|by apply partial_write_send].
  apply andb_prop in Hc as [Hr _]. by apply hold_write_send.
Qed.

Lemma service_write_turn_send id (w : World B C) :
  on_drv send_wf w → live id (drv w) → on_drv send_wf (exec (service_write_turn id) w).
Proof.
  intros Hw Hl. unfold service_write_turn. rewrite exec_bind, exec_dget, result_dget.
  case_match; [|by apply service_head_write_send]. rewrite exec_bind.
  destruct (flush_held_once_send id false w Hw Hl) as [Hw' Hl'].
  destruct (result _ w); [|done..]. apply service_head_write_send; auto.
Qed.

Lemma complete_finish_op_send id : respects R (complete_finish_op id).
Proof. sends. Qed.

Lemma service_finish_turn_send id (w : World B C) :
  on_drv send_wf w → live id (drv w) → on_drv send_wf (exec (service_finish_turn id) w).
Proof.
  intros Hw Hl. unfold service_finish_turn. rewrite exec_bind, exec_dget, result_dget.
  case_match; rewrite exec_bind.
  - destruct (flush_held_once_send id true w Hw Hl) as [Hw' _].
    destruct (result _ w); [by apply complete_finish_op_send|done..].
  - destruct (result _ w); [by apply complete_finish_op_send | by apply classify_send_err_send].
Qed.

Lemma service_send_turn_send id : respects R (service_send_turn id).
Proof.
  intros w Hw. unfold service_send_turn. rewrite exec_bind, exec_dget, result_dget.
  destruct (send (drv w) !! id) as [s|] eqn:Hs; simpl; [|done].
  destruct (pending_reset s).
  { assert (respects R (upd_send id (λ s, s <| pending_reset := None |>);;
      call (stream_shutdown id quiche.Write n);; mark_send_done id;; mret Drop)) as Hm by sends.
    by apply Hm. }
  case_match eqn:Hc; [done|]. apply negb_false_iff, andb_prop in Hc as [Ht _].
  apply bool_decide_eq_true in Ht.
  assert (live id (drv w)) as Hl by by eexists.
  case_match; [rewrite exec_bind; by apply flush_held_once_send|].
  case_match; [case_match|]; by auto using service_write_turn_send, service_finish_turn_send.
Qed.
#[local] Hint Resolve enqueue_send_op_send service_send_turn_send : steps.

(** ** The callbacks *)

Lemma do_process_reads_send : respects R do_process_reads.
Proof. sends. Qed.
Lemma do_process_writes_send : respects R do_process_writes.
Proof. sends. Qed.
Lemma wait_for_data_send p : respects R (wait_for_data_poll p).
Proof. sends. Qed.
Lemma do_on_conn_close_send : respects R do_on_conn_close.
Proof. sends. Qed.
Lemma on_conn_established_send : respects R on_conn_established.
Proof. sends. Qed.
End send_inv.

#[export] Hint Resolve do_process_reads_send do_process_writes_send wait_for_data_send
  do_on_conn_close_send on_conn_established_send : steps.
