(* ===== verification/Trace.v ===== *)
(** * Observing the transport

    [Traced C] is the connection [C] with a log of the calls made on it and
    their results.  The worker is modelled over any [QuicConn], so running it
    over [Traced C] tells exactly what it asks of [C]. *)

From S2P Require Import Prelude Interfaces Error Conn DriverTypes DriverStore DriverCore DriverLogic.

Inductive Call :=
| CRecv (id : N) (r : QResult (N * bool)) (data : Bytes)
| CSend (id : N) (buf : Bytes) (fin : bool) (r : QResult N)
| CShutdown (id : N) (dir : quiche.Shutdown) (code : N)
| CReadableNext (o : option N)
| CWritableNext (o : option N)
| CWritable (id len : N) (r : QResult bool)
| CCapacity (id : N) (r : QResult N)
| CPriority (id : N) (r : QResult unit)
| CClose (app : bool) (code : N) (reason : Bytes) (r : QResult unit).

Record Traced (C : Type) := mkTraced { inner : C; calls : list Call }.
Arguments mkTraced {C}. Arguments inner {C}. Arguments calls {C}.

Section traced.
Context {C : Type} `{!QuicConn C}.

(** Run [m] on the connection and log [ev] of its result. *)
Definition logged {A} (m : ST C A) (ev : A → Call) : ST (Traced C) A := λ t,
  let r := m (inner t) in (r.1, mkTraced r.2 (calls t ++ [ev r.1])).

(** The bytes a read left in the buffer it was given. *)
Definition recv_data (r : QResult (N * bool) * Bytes) : Bytes :=
  match r.1 with Ok (len, _) => take (N.to_nat len) r.2 | Err _ => [] end.

#[export] Instance Traced_QuicConn : QuicConn (Traced C) := {|
  stream_recv id out := logged (stream_recv id out) (λ r, CRecv id r.1 (recv_data r));
  stream_send id buf fin := logged (stream_send id buf fin) (CSend id buf fin);
  stream_shutdown id dir code := logged (stream_shutdown id dir code) (λ _, CShutdown id dir code);
  stream_readable_next := logged stream_readable_next CReadableNext;
  stream_writable_next := logged stream_writable_next CWritableNext;
  stream_writable id len := logged (stream_writable id len) (CWritable id len);
  stream_readable id t := stream_readable id (inner t);
  stream_finished id t := stream_finished id (inner t);
  stream_capacity id := logged (stream_capacity id) (CCapacity id);
  stream_priority id u i := logged (stream_priority id u i) (CPriority id);
  peer_streams_left_bidi t := peer_streams_left_bidi (inner t);
  peer_streams_left_uni t := peer_streams_left_uni (inner t);
  conn_close app code reason := logged (conn_close app code reason) (CClose app code reason);
  peer_error t := peer_error (inner t);
  local_error t := local_error (inner t);
  is_timed_out t := is_timed_out (inner t);
|}.

#[export] Instance Traced_ok `{!QuicConnOk C} : QuicConnOk (Traced C).
Proof.
  split; intros.
  - by eapply (stream_recv_len id out (inner c)).
  - apply (stream_recv_out id out (inner c)).
  - by eapply (stream_send_len id buf fin (inner c)).
Qed.

Lemma exec_logged {A} (m : ST C A) ev t :
  calls (exec (logged m ev) t) = calls t ++ [ev (result (logged m ev) t)].
Proof. reflexivity. Qed.
End traced.

(** ** The log of a worker *)

Section log.
Context `{Runtime} {B C : Type} `{!Buf B} `{!QuicConn C}.
Abbreviation TW := (World B (Traced C)).

Definition log (w : TW) : list Call := calls (qc w).

(** [emits P]: the log only grows, by calls satisfying [P]. *)
Definition emits (P : Call → Prop) : relation TW :=
  λ w w', ∃ l, log w' = log w ++ l ∧ Forall P l.

#[export] Instance emits_preorder P : PreOrder (emits P).
Proof.
  split.
  - intros w. exists []. by rewrite app_nil_r.
  - intros w1 w2 w3 (l1&H1&Hl1) (l2&H2&Hl2). exists (l1 ++ l2).
    split; [by rewrite H2, H1, app_assoc | by apply Forall_app].
Qed.

Lemma emits_dmod P f : respects (emits P) (dmod f).
Proof. intros w. exists []. by rewrite app_nil_r. Qed.
Lemma emits_shared P {A} (m : ST (Store B) A) : respects (emits P) (shared m).
Proof. intros w. exists []. by rewrite app_nil_r. Qed.
Lemma emits_call P {A} (m : ST C A) ev :
  (∀ a, P (ev a)) → respects (emits P) (call (logged m ev)).
Proof. intros Hev w. eexists [_]. split; [reflexivity|]. by apply Forall_singleton. Qed.

Lemma emits_mono P Q w w' : (∀ c, P c → Q c) → emits P w w' → emits Q w w'.
Proof. intros HPQ (l&?&?). exists l. split; [done|]. by eapply Forall_impl. Qed.
End log.

#[export] Hint Resolve emits_dmod emits_shared : steps.
