(* ===== verification/DriverReach.v ===== *)
(** * Executions of a connection

    A connection runs as a sequence of worker callbacks and of steps of its
    environment.  tokio-quiche calls the callbacks one at a time; between any
    two of them the front-end tasks may change the shared store and packets and
    timers may change the transport.  The relation leaves both arbitrary: an
    invariant of the worker's own state cannot depend on them. *)

From S2P Require Import Prelude Interfaces Error Buffer Conn DriverTypes DriverStore DriverCore DriverRecv DriverSend Driver DriverLogic DriverInv DriverSendInv Trace.

Section executions.
Context `{Runtime} {B C : Type} `{!Buf B} `{!QuicConn C}.

(** One callback of [ApplicationOverQuic].  [process_reads], [process_writes]
    and [wait_for_data] run once [should_act] holds. *)
Inductive worker_turn : relation (World B C) :=
| turn_established w :
    worker_turn w (exec on_conn_established w)
| turn_reads w :
    should_act (drv w) = true → worker_turn w (exec do_process_reads w)
| turn_writes w :
    should_act (drv w) = true → worker_turn w (exec do_process_writes w)
| turn_wait w :
    should_act (drv w) = true →
    worker_turn w (exec (wait_for_data_poll (wait_for_data_start (drv w))) w)
| turn_close w :
    worker_turn w (exec do_on_conn_close w).

(** [env] is what may happen between callbacks, [fresh] what a new transport
    looks like. *)
Definition system (env : relation (World B C)) : relation (World B C) :=
  λ w w', worker_turn w w' ∨ env w w'.

Definition initial (fresh : C → Prop) (w : World B C) : Prop :=
  ∃ srv bidi_cap uni_cap buffers c,
    fresh c ∧ w = with_buffers srv bidi_cap uni_cap buffers c.

Definition reachable_in (env : relation (World B C)) (fresh : C → Prop) (w : World B C) : Prop :=
  ∃ w0, initial fresh w0 ∧ rtc (system env) w0 w.

(** Anything may happen to the store and the transport. *)
Definition environment : relation (World B C) := λ w w', drv w' = drv w.
Definition reachable : World B C → Prop := reachable_in environment (λ _, True).

Lemma reachable_in_ind env fresh (I : World B C → Prop) :
  (∀ w, initial fresh w → I w) → (∀ w w', worker_turn w w' → I w → I w') →
  (∀ w w', env w w' → I w → I w') →
  ∀ w, reachable_in env fresh w → I w.
Proof.
  intros Hi Ht He w (w0&Hw0&Hs). apply Hi in Hw0.
  induction Hs as [|x y z [Hstep|Hstep] _ IH]; eauto.
Qed.

(** ** [do_process_writes] in three parts *)

Definition write_body : ST (World B C) unit :=
  ran ← dget reads_ran_this_iter;
  let no_packet := negb ran in
  when no_packet
    (dmod (λ d, d <| needs_iteration := false |> <| read_budget := READ_BUDGET |>));;
  apply_inbox;;
  when no_packet run_read_pump;;
  stage_open;;
  stage_writable;;
  stage_send;;
  dmod (λ d, d <| reads_ran_this_iter := false |>).

Definition announce_remainder : ST (World B C) unit :=
  more ← gets has_runnable_remainder;
  dmod (λ d, d <| needs_iteration ::= λ n, n || more |>).

(** Everything up to the barrier. *)
Definition write_stages : ST (World B C) unit := write_body;; announce_remainder.

Lemma do_process_writes_split w :
  do_process_writes w = apply_close_barrier (exec write_stages w).
Proof. reflexivity. Qed.
Lemma exec_do_process_writes w :
  exec do_process_writes w = exec apply_close_barrier (exec write_stages w).
Proof. unfold exec at 1. rewrite do_process_writes_split. unfold exec at 2. reflexivity. Qed.

(** A preorder respected by the callbacks relates the ends of every turn. *)
Lemma worker_turn_respects (R : relation (World B C)) w w' :
  respects R on_conn_established → respects R do_process_reads →
  respects R do_process_writes → (∀ p, respects R (wait_for_data_poll p)) →
  respects R do_on_conn_close → worker_turn w w' → R w w'.
Proof. intros He Hr Hw Hp Hc []; [apply He|apply Hr|apply Hw|apply Hp|apply Hc]. Qed.

Lemma initial_wf fresh w : initial fresh w → driver_wf (drv w).
Proof.
  intros (srv&?&?&?&?&_&->). split; repeat split; simpl; unfold pending_ids; simpl;
    try (by intros ?%elem_of_nil); try apply NoDup_nil_2; try done; try set_solver;
    try (by intros [? ?%lookup_empty_Some]).
Qed.

Lemma turn_wf w w' : worker_turn w w' → driver_wf (drv w) → driver_wf (drv w').
Proof.
  intros Ht [Hq Ha Hs]. split.
  - revert Hq. apply (worker_turn_respects (keeps (on_drv queues_wf)) w w');
      eauto 2 with steps nocore.
  - revert Ha. apply (worker_turn_respects (keeps (on_drv admission_wf)) w w');
      eauto 2 with steps nocore.
  - revert Hs. apply (worker_turn_respects (keeps (on_drv send_wf)) w w');
      eauto 2 with steps nocore.
Qed.

(** ** The command backlog *)

(** The commands the worker has not applied yet, in receipt order. *)
Definition backlog (w : World B C) : list (DriverCommand B) :=
  inbox (drv w) ++ cs_queue (chan_view (cmd_chan (sto w))).

Lemma next_command_backlog (w : World B C) :
  result next_command w = head (backlog w) ∧ backlog (exec next_command w) = tail (backlog w).
Proof.
  unfold next_command, backlog. rewrite exec_bind, result_bind, exec_dget, result_dget.
  destruct (inbox (drv w)) as [|cmd q] eqn:Hi; [|done].
  rewrite exec_bind, result_bind, result_shared, exec_shared. unfold cmd_try_recv, exec, result.
  simpl. rewrite Hi, chan_try_recv_res, chan_try_recv_view. simpl. unfold view_recv.
  destruct (cs_queue (chan_view (cmd_chan (sto w)))); simpl; [|done].
  split; [|done]. by destruct (negb _ || _).
Qed.

(** C1.  In every state of every execution, whatever the front end and the
    network do between callbacks, the worker's registries are well formed: each
    cursor holds exactly the ids of its membership set, once each; a discovered
    stream is queued once, by class, and not yet admitted; a parked stream is in
    its promotion queue; a terminal send half has no operation and no deferred
    bytes left, a pending reset is terminal, a deferred write is non-empty. *)
Theorem reachable_driver_wf w : reachable w → driver_wf (drv w).
Proof.
  apply (reachable_in_ind _ _ (λ w, driver_wf (drv w))).
  - apply initial_wf.
  - apply turn_wf.
  - intros ? ? <-. done.
Qed.
End executions.

(** ** Observed executions *)

Section observed.
Context `{Runtime} {B C : Type} `{!Buf B} `{!QuicConn C}.

(** The environment does not write the log: only the worker calls the
    connection's methods. *)
Definition observed_env : relation (World B (Traced C)) :=
  λ w w', drv w' = drv w ∧ log w' = log w.
Definition unobserved (t : Traced C) : Prop := calls t = [].
Definition observed : World B (Traced C) → Prop := reachable_in observed_env unobserved.
End observed.
