(* ===== verification/DriverClose.v ===== *)
(** * The close barrier

    The worker closes a connection at most once, and its record of the close is
    exactly what the transport answered. *)

From S2P Require Import Prelude Interfaces Error Buffer Conn DriverTypes DriverStore DriverCore DriverRecv DriverSend Driver DriverLogic StoreLogic Trace DriverReach.

Definition is_close (c : Call) : bool := match c with CClose _ _ _ _ => true | _ => false end.
Definition closes (l : list Call) : list Call := filter (λ c, is_close c = true) l.

(** The worker's record of closing. *)
Record CloseState := mkCloseState {
  cl_attempted : bool;
  cl_issued : bool;
  cl_local : option RecordedLocalClose;
  cl_bug : option string;
}.
Definition close_state {B} (d : QuicheDriver B) : CloseState :=
  mkCloseState (explicit_close_attempted d) (graceful_close_issued d) (local_close d) (close_bug d).

(** What the record must be once the transport has answered [r]. *)
Definition close_record (code : N) (reason : Bytes) (bug : string) (r : QResult unit) : CloseState :=
  match r with
  | Ok _ => mkCloseState true true (Some (mkRecordedLocalClose code reason)) None
  | Err quiche.Done => mkCloseState true true None None
  | Err _ => mkCloseState true false None (Some bug)
  end.

Section close.
Context `{Runtime} {B C : Type} `{!Buf B} `{!QuicConn C}.
Abbreviation TW := (World B (Traced C)).

(** ** No other stage closes the connection *)

Definition close_view (w : TW) : list Call * CloseState := (closes (log w), close_state (drv w)).
Abbreviation Quiet := (same close_view).

Lemma quiet_dmod f :
  (∀ d, close_state (f d) = close_state d) → respects Quiet (dmod f).
Proof. intros Hf w. unfold same, close_view. simpl. by rewrite Hf. Qed.
Lemma quiet_shared {A} (m : ST (Store B) A) : respects Quiet (shared m).
Proof. intros w. reflexivity. Qed.
Lemma quiet_call {A} (m : ST C A) ev :
  (∀ a, is_close (ev a) = false) → respects Quiet (call (logged m ev)).
Proof.
  intros Hev w. unfold same, close_view, log. simpl. f_equal.
  unfold closes. rewrite filter_app, filter_cons_False, filter_nil, app_nil_r; [done|].
  by rewrite Hev.
Qed.
#[local] Hint Resolve quiet_shared : steps.

Ltac quiet_leaf :=
  idtac; lazymatch goal with
  | |- respects _ (dmod _) => apply quiet_dmod; intros ?; repeat case_match; reflexivity
  | |- respects _ (call _) => apply quiet_call; intros ?; reflexivity
  end.
Ltac quiet := worker_with quiet_leaf.

Lemma drain_stream_quiet id : respects Quiet (drain_stream id).
Proof. quiet. Qed.
#[local] Hint Resolve drain_stream_quiet : steps.
Lemma admit_one_quiet peer : respects Quiet (admit_one peer).
Proof. quiet. Qed.
#[local] Hint Resolve admit_one_quiet : steps.
Lemma phase2_loop_quiet fuel budget bb ub pb : respects Quiet (phase2_loop fuel budget bb ub pb).
Proof.
  revert budget bb ub pb. induction fuel; intros; simpl; destruct budget; quiet.
Qed.
#[local] Hint Resolve phase2_loop_quiet : steps.
Lemma run_read_pump_quiet : respects Quiet run_read_pump.
Proof. quiet. Qed.
Lemma open_bidi_loop_quiet n : respects Quiet (open_bidi_loop n).
Proof. induction n; simpl; quiet. Qed.
Lemma open_uni_loop_quiet n : respects Quiet (open_uni_loop n).
Proof. induction n; simpl; quiet. Qed.
Lemma send_terminal_transition_quiet id e : respects Quiet (send_terminal_transition id e).
Proof. quiet. Qed.
Lemma close_drain_loop_quiet n t : respects Quiet (close_drain_loop n t).
Proof. induction n; simpl; quiet. Qed.
#[local] Hint Resolve run_read_pump_quiet open_bidi_loop_quiet open_uni_loop_quiet
  send_terminal_transition_quiet close_drain_loop_quiet : steps.
Lemma service_send_turn_quiet id : respects Quiet (service_send_turn id).
Proof. quiet. Qed.
#[local] Hint Resolve service_send_turn_quiet : steps.

Lemma do_process_reads_quiet : respects Quiet do_process_reads.
Proof. quiet. Qed.
Lemma wait_for_data_quiet p : respects Quiet (wait_for_data_poll p).
Proof. quiet. Qed.
Lemma do_on_conn_close_quiet : respects Quiet do_on_conn_close.
Proof. quiet. Qed.
Lemma on_conn_established_quiet : respects Quiet on_conn_established.
Proof. quiet. Qed.

Lemma write_stages_quiet : respects Quiet write_stages.
Proof. quiet. Qed.

(** ** The barrier *)

(** The close the barrier is to issue: a staged explicit close, else the
    synthetic one once the last handle is gone and nothing else ended the
    connection. *)
Definition barrier_target {C'} `{!QuicConn C'} (d : QuicheDriver B) (c : C')
    : option (N * Bytes * string) :=
  if explicit_close_attempted d then None
  else match pending_close d with
       | Some pc => Some (pc_code pc, pc_reason pc, explicit_close_error)
       | None =>
           if last_handle_teardown d
              && negb (bool_decide (is_Some (peer_error c)))
              && negb (bool_decide (is_Some (local_error c)))
              && negb (is_timed_out c)
              && negb (bool_decide (is_Some (local_close d)))
           then Some (H3_NO_ERROR, [], last_handle_close_error) else None
       end.

Definition unclosed (s : CloseState) : Prop := s = mkCloseState false false None None.

Lemma closes_snoc l c : closes (l ++ [c]) = closes l ++ (if is_close c then [c] else []).
Proof.
  unfold closes. rewrite filter_app. f_equal. rewrite filter_cons. by case_decide; case_match.
Qed.

Lemma issue_close_spec code reason bug (w : TW) :
  unclosed (close_state (drv w)) →
  let r := result (conn_close true code reason) (qc w) in
  let w' := exec (issue_close code reason bug) w in
  closes (log w') = closes (log w) ++ [CClose true code reason r] ∧
  close_state (drv w') = close_record code reason bug r.
Proof.
  intros [=Ha Hi Hl Hb] r w'. subst w'. unfold issue_close.
  rewrite exec_bind, exec_dmod, exec_bind, result_call, exec_call.
  match goal with |- context [result (conn_close _ _ _) ?c] => change c with (qc w) end. fold r.
  match goal with |- context [exec _ ?w0] =>
    assert (closes (log w0) = closes (log w) ++ [CClose true code reason r]) as Hlog
      by exact (closes_snoc _ _) end.
  destruct r as [|[]]; (split; [exact Hlog|]); unfold close_state; simpl; congruence.
Qed.

Lemma apply_close_barrier_spec (w : TW) :
  (explicit_close_attempted (drv w) = false → unclosed (close_state (drv w))) →
  let w' := exec apply_close_barrier w in
  match barrier_target (drv w) (qc w) with
  | None => close_view w' = close_view w
  | Some (code, reason, bug) =>
      let r := result (conn_close true code reason) (qc w) in
      closes (log w') = closes (log w) ++ [CClose true code reason r] ∧
      close_state (drv w') = close_record code reason bug r
  end.
Proof.
  intros Hu w'. subst w'. unfold apply_close_barrier, barrier_target.
  rewrite exec_bind, exec_dget, result_dget. simpl.
  destruct (explicit_close_attempted (drv w)); [done|]. specialize (Hu eq_refl).
  destruct (pending_close (drv w)) as [pc|].
  - rewrite exec_bind. apply (issue_close_spec _ _ _ (exec (dmod _) w)). exact Hu.
  - rewrite exec_bind, exec_ask, result_ask. cbv beta.
    match goal with |- context [if ?b then Some _ else _] => destruct b end; [|done].
    by apply issue_close_spec.
Qed.

(** The log and the record agree: no close and a blank record, or one close and
    the record its answer calls for. *)
Inductive close_agrees : list Call → CloseState → Prop :=
| agrees_open s : unclosed s → close_agrees [] s
| agrees_closed code reason bug r :
    bug = explicit_close_error ∨ bug = last_handle_close_error →
    close_agrees [CClose true code reason r] (close_record code reason bug r).

Lemma barrier_target_bug {C'} `{!QuicConn C'} (d : QuicheDriver B) (c : C') code reason bug :
  barrier_target d c = Some (code, reason, bug) →
  bug = explicit_close_error ∨ bug = last_handle_close_error.
Proof. unfold barrier_target. repeat case_match; naive_solver. Qed.
Lemma barrier_target_attempted {C'} `{!QuicConn C'} (d : QuicheDriver B) (c : C') :
  explicit_close_attempted d = true → barrier_target d c = None.
Proof. unfold barrier_target. by intros ->. Qed.
Lemma close_record_attempted code reason bug r : cl_attempted (close_record code reason bug r) = true.
Proof. by destruct r as [|[]]. Qed.

Definition close_ok (w : TW) : Prop := close_agrees (closes (log w)) (close_state (drv w)).

Lemma quiet_close_ok w w' : Quiet w w' → close_ok w → close_ok w'.
Proof.
  intros E Hw. unfold close_ok. unfold same in E.
  change (close_agrees (close_view w').1 (close_view w').2). by rewrite E.
Qed.

Lemma quiet_parts w w' : Quiet w w' →
  closes (log w') = closes (log w) ∧ close_state (drv w') = close_state (drv w).
Proof. intros E. split; [exact (f_equal fst E) | exact (f_equal snd E)]. Qed.

Lemma close_ok_unattempted w :
  close_ok w → explicit_close_attempted (drv w) = false →
  closes (log w) = [] ∧ unclosed (close_state (drv w)).
Proof.
  intros Hw Ha. unfold close_ok in Hw.
  inversion Hw as [s Hu Hl Hs|code reason bug r Hbug Hl Hs]; [done|].
  pose proof (close_record_attempted code reason bug r) as Hr.
  rewrite Hs in Hr. simpl in Hr. congruence.
Qed.

Lemma apply_close_barrier_ok : respects (keeps close_ok) apply_close_barrier.
Proof.
  intros w Hw. pose proof (apply_close_barrier_spec w) as Hspec. simpl in Hspec.
  unfold close_ok in Hw. inversion Hw as [s Hu Hl Hs|code reason bug r Hbug Hl Hs].
  - specialize (Hspec (λ _, Hu)).
    destruct (barrier_target _ _) as [[[code reason] bug]|] eqn:Ht; [|by eapply quiet_close_ok].
    destruct Hspec as [HL HS]. unfold close_ok. rewrite HL, HS, <-Hl.
    constructor. exact (barrier_target_bug _ _ _ _ _ Ht).
  - assert (explicit_close_attempted (drv w) = true) as Ha.
    { change (cl_attempted (close_state (drv w)) = true). rewrite <-Hs.
      apply close_record_attempted. }
    rewrite (barrier_target_attempted _ _ Ha) in Hspec. eapply quiet_close_ok; [|exact Hw].
    apply Hspec. congruence.
Qed.

Lemma do_process_writes_ok : respects (keeps close_ok) do_process_writes.
Proof.
  intros w Hw. rewrite exec_do_process_writes.
  eapply apply_close_barrier_ok, quiet_close_ok; [apply write_stages_quiet | done].
Qed.

Lemma observed_close_ok w : observed w → close_ok w.
Proof.
  apply reachable_in_ind.
  - intros w0 (?&?&?&?&c&Hc&->). unfold close_ok, log. simpl. rewrite Hc.
    apply agrees_open. reflexivity.
  - intros w0 w1 Ht. apply (worker_turn_respects (keeps close_ok)); [..|exact Ht].
    + intros x Hx. eapply quiet_close_ok; [apply on_conn_established_quiet | done].
    + intros x Hx. eapply quiet_close_ok; [apply do_process_reads_quiet | done].
    + apply do_process_writes_ok.
    + intros p x Hx. eapply quiet_close_ok; [apply wait_for_data_quiet | done].
    + intros x Hx. eapply quiet_close_ok; [apply do_on_conn_close_quiet | done].
  - intros w0 w1 [Hd HL]. unfold close_ok. by rewrite Hd, HL.
Qed.

(** C6.  Over a connection's whole life the worker makes at most one
    [qconn.close] call, always an application close, and what it has recorded is
    exactly that call's outcome: nothing while it has not closed; the local close
    with its code and reason on [Ok]; only that closing is under way on [Done];
    an adapter bug on any other error. *)
Theorem at_most_one_close w :
  observed w → close_agrees (closes (log w)) (close_state (drv w)).
Proof. apply observed_close_ok. Qed.

(** ** A staged close is issued at the end of the same callback *)

Definition staged (pc : PendingClose) (d : QuicheDriver B) : Prop := pending_close d = Some pc.
Abbreviation Staged pc := (keeps (on_drv (C := Traced C) (staged pc))).

Ltac staged_leaf :=
  idtac; lazymatch goal with
  | |- respects _ (dmod _) =>
      apply respects_dmod; intros ? Hpc;
      first [ exact Hpc
            | rewrite bool_decide_eq_false_2 by (rewrite Hpc; done); exact Hpc
            | repeat case_match; exact Hpc ]
  end.
Ltac staged := worker_with staged_leaf.

Lemma drain_stream_staged pc id :
  respects (Staged pc) (drain_stream id).
Proof. staged. Qed.
#[local] Hint Resolve drain_stream_staged : steps.
Lemma phase2_loop_staged pc fuel budget bb ub pb :
  respects (Staged pc)
    (phase2_loop fuel budget bb ub pb).
Proof.
  revert budget bb ub pb. induction fuel; intros; simpl; destruct budget; staged.
Qed.
Lemma open_bidi_loop_staged pc n :
  respects (Staged pc) (open_bidi_loop n).
Proof. induction n; simpl; staged. Qed.
Lemma open_uni_loop_staged pc n :
  respects (Staged pc) (open_uni_loop n).
Proof. induction n; simpl; staged. Qed.
#[local] Hint Resolve phase2_loop_staged open_bidi_loop_staged open_uni_loop_staged : steps.
Lemma write_stages_staged pc :
  respects (Staged pc) write_stages.
Proof. staged. Qed.

(** The batch of commands up to the first [Close] leaves the close state alone. *)
Definition is_close_cmd (cmd : DriverCommand B) : bool :=
  match cmd with Close _ _ => true | _ => false end.

Definition batch_view (w : TW) :=
  (inbox (drv w), cmd_chan (sto w), pending_close (drv w), explicit_close_attempted (drv w)).

Lemma batch_shared {A} (m : ST (Store B) A) :
  respects (same (@cmd_chan _ B)) m → respects (same batch_view) (shared m).
Proof.
  intros Hm w. unfold same, batch_view.
  change (sto (exec (shared m) w)) with (exec m (sto w)). by rewrite (Hm (sto w)).
Qed.
Ltac batch_leaf :=
  idtac; lazymatch goal with
  | |- respects _ (dmod _) => intros ?; unfold same, batch_view; simpl; repeat case_match; reflexivity
  | |- respects _ (call _) => intros ?; reflexivity
  | |- respects _ (shared _) => apply batch_shared; solve [store]
  end.

Lemma apply_command_batch cmd :
  is_close_cmd cmd = false → respects (same batch_view) (apply_command cmd).
Proof. intros Hc. destruct cmd; try done; worker_with batch_leaf. Qed.

Lemma batch_backlog (w w' : TW) : same batch_view w w' → backlog w' = backlog w.
Proof. intros E. unfold same, batch_view in E. unfold backlog. by injection E as -> -> _ _. Qed.

Lemma next_command_close_state (w : TW) :
  pending_close (drv (exec next_command w)) = pending_close (drv w) ∧
  explicit_close_attempted (drv (exec next_command w)) = explicit_close_attempted (drv w).
Proof.
  unfold next_command. rewrite exec_bind, exec_dget, result_dget.
  by destruct (inbox (drv w)).
Qed.

Lemma apply_inbox_one_spec (w : TW) cmd q :
  backlog w = cmd :: q →
  result apply_inbox_one w = true ∧
  exec apply_inbox_one w = exec (apply_command cmd) (exec next_command w).
Proof.
  intros Hb. destruct (next_command_backlog w) as [Hr _]. rewrite Hb in Hr.
  unfold apply_inbox_one. by rewrite exec_bind, result_bind, Hr.
Qed.

(** Commands are applied in receipt order, so the first [Close] within the
    budget is the one that is staged. *)
Lemma apply_batch_stages code reason post pre budget (w : TW) :
  backlog w = pre ++ Close code reason :: post → (∀ cmd, cmd ∈ pre → is_close_cmd cmd = false) →
  (length pre < budget)%nat → pending_close (drv w) = None → explicit_close_attempted (drv w) = false →
  staged (mkPendingClose code reason) (drv (exec (budget_loop budget apply_inbox_one) w)).
Proof.
  revert pre w. induction budget as [|budget IH]; intros pre w Hb Hpre Hlen Hp Ha; [lia|].
  destruct (next_command_backlog w) as [Hr Hb']. destruct (next_command_close_state w) as [Hp' Ha'].
  simpl. rewrite exec_bind.
  destruct pre as [|cmd pre]; destruct (apply_inbox_one_spec w _ _ Hb) as [-> ->];
    set (w1 := exec next_command w) in *; clearbody w1; rewrite Hb in Hb'; simpl in Hb'.
  - rewrite <-Hp' in Hp. rewrite <-Ha' in Ha.
    assert (staged (mkPendingClose code reason) (drv (exec (apply_command (Close code reason)) w1))) as Hs.
    { unfold staged, apply_command. rewrite exec_dmod. simpl. by rewrite Hp, Ha. }
    revert Hs. generalize (exec (apply_command (Close code reason)) w1). intros w2 Hs.
    match goal with |- staged ?pc (drv (exec ?m ?w2)) =>
      assert (respects (Staged pc) m) as Hm by staged; by apply (Hm w2) end.
  - pose proof (apply_command_batch cmd (Hpre cmd ltac:(by left)) w1) as Hc.
    apply (IH pre); [|by intros c Hin; apply Hpre; right|simpl in Hlen; lia|..].
    + by rewrite (batch_backlog _ _ Hc).
    + unfold same, batch_view in Hc. injection Hc as _ _ -> _. congruence.
    + unfold same, batch_view in Hc. injection Hc as _ _ _ ->. congruence.
Qed.

Lemma write_stages_stages code reason post pre (w : TW) :
  backlog w = pre ++ Close code reason :: post → (∀ cmd, cmd ∈ pre → is_close_cmd cmd = false) →
  (length pre < CMD_BUDGET)%nat → pending_close (drv w) = None → explicit_close_attempted (drv w) = false →
  staged (mkPendingClose code reason) (drv (exec write_stages w)).
Proof.
  intros Hb Hpre Hlen Hp Ha. unfold write_stages, write_body.
  rewrite exec_bind, exec_bind, exec_dget, result_dget, exec_bind.
  match goal with |- context [exec (when ?b ?m) w] => set (w0 := exec (when b m) w) end.
  assert (backlog w0 = backlog w ∧ pending_close (drv w0) = None ∧ explicit_close_attempted (drv w0) = false)
    as (Hb0&Hp0&Ha0) by (unfold w0; by destruct (negb _)).
  clearbody w0. rewrite <-Hb0 in Hb. rewrite exec_bind.
  assert (staged (mkPendingClose code reason) (drv (exec apply_inbox w0))) as Hst.
  { pose proof (apply_batch_stages code reason post pre CMD_BUDGET w0 Hb Hpre Hlen Hp0 Ha0) as Hst.
    unfold apply_inbox. rewrite exec_bind.
    set (w1 := exec (budget_loop CMD_BUDGET apply_inbox_one) w0) in *. clearbody w1. revert Hst.
    match goal with |- _ → staged ?pc (drv (exec ?m w1)) =>
      assert (respects (Staged pc) m) as Hm by staged; exact (Hm w1) end. }
  revert Hst. generalize (exec apply_inbox w0). intros w1.
  match goal with |- _ → staged ?pc (drv (exec ?m1 (exec ?m2 w1))) =>
    assert (respects (Staged pc) (m2;; m1)) as Hm by staged; exact (Hm w1) end.
Qed.

(** C5.  The close barrier is mandatory and the first close wins: if a [Close] is
    among the next [CMD_BUDGET] commands of the backlog and none was staged or
    attempted yet, [process_writes] ends by closing the connection with that
    command's code and reason, however much stream work is left over and whatever
    further [Close] commands follow. *)
Theorem first_close_is_issued (w : TW) pre code reason post :
  observed w → explicit_close_attempted (drv w) = false → pending_close (drv w) = None →
  backlog w = pre ++ Close code reason :: post → (∀ cmd, cmd ∈ pre → is_close_cmd cmd = false) →
  (length pre < CMD_BUDGET)%nat →
  ∃ r, closes (log (exec do_process_writes w)) = [CClose true code reason r] ∧
       close_state (drv (exec do_process_writes w)) = close_record code reason explicit_close_error r.
Proof.
  intros Hw%observed_close_ok Ha Hp Hb Hpre Hlen. rewrite exec_do_process_writes.
  pose proof (write_stages_stages code reason post pre w Hb Hpre Hlen Hp Ha) as Hpc1.
  destruct (quiet_parts _ _ (write_stages_quiet w)) as [Hl1 Hs1].
  generalize dependent (exec write_stages w). intros w1 Hpc1 Hl1 Hs1.
  destruct (close_ok_unattempted w Hw Ha) as [Hl Hu].
  pose proof (apply_close_barrier_spec w1) as Hspec. unfold barrier_target in Hspec.
  unfold staged in Hpc1. rewrite Hs1, Hl1, Hl, Hpc1 in Hspec.
  assert (explicit_close_attempted (drv w1) = false) as Ha1
    by (apply (f_equal cl_attempted) in Hs1; rewrite Hu in Hs1; exact Hs1).
  rewrite Ha1 in Hspec. eexists. by apply Hspec.
Qed.

(** C31.  h3 sees a peer's application close exactly when the peer sent one
    (and no adapter bug was recorded): a local close, a timeout or a transport
    error is never reported as [ApplicationClose], and a peer's application
    close is never masked by a concurrent local close. *)
Theorem application_close_iff_peer (d : QuicheDriver B) (c : C) code :
  conn_to_h3 (classify_conn_terminal d c) = ApplicationClose code ↔
  close_bug d = None ∧
  ∃ pe, peer_error c = Some pe ∧ quiche.is_app pe = true ∧ quiche.error_code pe = code.
Proof.
  unfold classify_conn_terminal, conn_terminal_from_error. split.
  - repeat case_match; simpl; intros [= <-]; eauto.
  - intros (->&pe&->&->&<-). done.
Qed.
End close.
