(* ===== verification/DriverIds.v ===== *)
(** * Stream-id allocation

    The ids the worker materializes are the QUIC sequence of its role, one after
    the other: no id is skipped by a failed or cancelled open, none is reused. *)

From S2P Require Import Prelude Interfaces Error Buffer Conn DriverTypes DriverStore DriverCore DriverRecv DriverSend Driver DriverLogic Trace DriverReach.

(** ** The sequences *)

(** The [k]-th id of a class: client 0, 4, 8, … / 2, 6, …; server 1, 5, … / 3, 7, … *)
Definition id_base (srv bidi : bool) : N := (if srv then 1 else 0) + (if bidi then 0 else 2).
Definition nth_id (srv bidi : bool) (k : nat) : N := u64_wrap (id_base srv bidi + 4 * N.of_nat k).

(** The ids of a class successfully materialized, in order. *)
Definition materialized_id (bidi : bool) (c : Call) : option N :=
  match c with
  | CPriority id (Ok _) => if Bool.eqb (is_bidi id) bidi then Some id else None
  | _ => None
  end.
Definition materialized (bidi : bool) (l : list Call) : list N := omap (materialized_id bidi) l.

Lemma is_bidi_mod id : is_bidi id = (id mod 4 <? 2).
Proof.
  assert (N.land id 2 = N.land (id mod 4) 2) as E.
  { change 4 with (2 ^ 2). rewrite <-N.land_ones, <-N.land_assoc. done. }
  unfold is_bidi. change 0x2 with 2. rewrite E.
  pose proof (N.mod_lt id 4 ltac:(done)) as Hr. set (r := id mod 4) in *. clearbody r.
  assert (r = 0 ∨ r = 1 ∨ r = 2 ∨ r = 3) as Hcases by lia.
  by destruct Hcases as [H|[H|[H|H]]]; rewrite H.
Qed.

Lemma u64_wrap_mod4 n : u64_wrap n mod 4 = n mod 4.
Proof.
  unfold u64_wrap. change (2 ^ 64) with (4 * 2 ^ 62).
  rewrite N.Div0.mod_mul_r, (N.mul_comm 4), N.Div0.mod_add. apply N.Div0.mod_mod.
Qed.

(** The two low bits name the class and the initiator. *)
Lemma nth_id_mod4 srv bidi k : nth_id srv bidi k mod 4 = id_base srv bidi.
Proof.
  unfold nth_id. rewrite u64_wrap_mod4, (N.mul_comm 4), N.Div0.mod_add. by destruct srv, bidi.
Qed.
Lemma nth_id_class srv bidi k : is_bidi (nth_id srv bidi k) = bidi.
Proof. rewrite is_bidi_mod, nth_id_mod4. by destruct srv, bidi. Qed.
Lemma nth_id_succ srv bidi k : u64_wrap (nth_id srv bidi k + 4) = nth_id srv bidi (S k).
Proof.
  unfold nth_id, u64_wrap. rewrite N.Div0.add_mod_idemp_l. f_equal. lia.
Qed.
Lemma nth_id_inj srv bidi j k :
  (N.of_nat j < 2 ^ 62) → (N.of_nat k < 2 ^ 62) →
  nth_id srv bidi j = nth_id srv bidi k → j = k.
Proof.
  assert (id_base srv bidi < 4) by by destruct srv, bidi.
  intros Hj Hk. unfold nth_id, u64_wrap. rewrite !N.mod_small by lia. lia.
Qed.

Section ids.
Context `{Runtime} {B C : Type} `{!Buf B} `{!QuicConn C}.
Abbreviation TW := (World B (Traced C)).

(** ** Only the open stage allocates *)

Definition id_view (w : TW) : list N * list N * N * N * bool :=
  (materialized true (log w), materialized false (log w),
   next_bidi_id (drv w), next_uni_id (drv w), is_server (drv w)).
Abbreviation Quiet := (same id_view).

Lemma ids_dmod f :
  (∀ d, next_bidi_id (f d) = next_bidi_id d ∧ next_uni_id (f d) = next_uni_id d ∧
        is_server (f d) = is_server d) →
  respects Quiet (dmod f).
Proof. intros Hf w. unfold same, id_view. simpl. by destruct (Hf (drv w)) as (->&->&->). Qed.
Lemma ids_shared {A} (m : ST (Store B) A) : respects Quiet (shared m).
Proof. intros w. reflexivity. Qed.

Lemma materialized_snoc bidi l c :
  materialized bidi (l ++ [c]) = materialized bidi l ++ option_list (materialized_id bidi c).
Proof. unfold materialized. rewrite omap_app. by f_equal. Qed.

Lemma ids_call {A} (m : ST C A) ev :
  (∀ a bidi, materialized_id bidi (ev a) = None) → respects Quiet (call (logged m ev)).
Proof.
  intros Hev w. unfold same, id_view, log. simpl.
  by rewrite !materialized_snoc, !Hev, !app_nil_r.
Qed.
#[local] Hint Resolve ids_shared : steps.

Ltac ids_leaf :=
  idtac; lazymatch goal with
  | |- respects _ (dmod _) => apply ids_dmod; intros ?; repeat case_match; by split_and!
  | |- respects _ (call _) => apply ids_call; intros ? ?; reflexivity
  end.
Ltac ids := worker_with ids_leaf.

Lemma drain_stream_ids id : respects Quiet (drain_stream id).
Proof. ids. Qed.
#[local] Hint Resolve drain_stream_ids : steps.
Lemma admit_one_ids peer : respects Quiet (admit_one peer).
Proof. ids. Qed.
#[local] Hint Resolve admit_one_ids : steps.
Lemma phase2_loop_ids fuel budget bb ub pb : respects Quiet (phase2_loop fuel budget bb ub pb).
Proof.
  revert budget bb ub pb. induction fuel; intros; simpl; destruct budget; ids.
Qed.
#[local] Hint Resolve phase2_loop_ids : steps.
Lemma run_read_pump_ids : respects Quiet run_read_pump.
Proof. ids. Qed.
Lemma send_terminal_transition_ids id e : respects Quiet (send_terminal_transition id e).
Proof. ids. Qed.
Lemma close_drain_loop_ids n t : respects Quiet (close_drain_loop n t).
Proof. induction n; simpl; ids. Qed.
#[local] Hint Resolve run_read_pump_ids send_terminal_transition_ids close_drain_loop_ids : steps.
Lemma service_send_turn_ids id : respects Quiet (service_send_turn id).
Proof. ids. Qed.
#[local] Hint Resolve service_send_turn_ids : steps.

Lemma do_process_reads_ids : respects Quiet do_process_reads.
Proof. ids. Qed.
Lemma wait_for_data_ids p : respects Quiet (wait_for_data_poll p).
Proof. ids. Qed.
Lemma do_on_conn_close_ids : respects Quiet do_on_conn_close.
Proof. ids. Qed.
Lemma on_conn_established_ids : respects Quiet on_conn_established.
Proof. ids. Qed.

(** ** The open stage *)

(** After [n] bidi and [m] uni materializations. *)
Definition ids_at (srv : bool) (n m : nat) (w : TW) : Prop :=
  id_view w = (nth_id srv true <$> seq 0 n, nth_id srv false <$> seq 0 m,
               nth_id srv true n, nth_id srv false m, srv).
Definition ids_ok (srv : bool) (w : TW) : Prop := ∃ n m, ids_at srv n m w.

Lemma quiet_ids_ok {A} srv (m : ST TW A) : respects Quiet m → respects (keeps (ids_ok srv)) m.
Proof.
  apply respects_mono. intros w w' E (n&k&Hw). exists n, k. unfold ids_at. by rewrite E.
Qed.

(** A successful materialization of the next id, then the counter. *)
Lemma ids_open_bidi {A} srv (k : ST TW A) (w : TW) id u i :
  id = next_bidi_id (drv w) → result (stream_priority id u i) (qc w) = Ok tt →
  respects Quiet k → ids_ok srv w →
  ids_ok srv (exec (dmod (λ d, d <| next_bidi_id := u64_wrap (id + 4) |>);; k)
                (exec (call (stream_priority id u i)) w)).
Proof.
  intros -> Hr Hk (n&m&Hw). exists (S n), m. rewrite exec_bind. unfold ids_at.
  rewrite seq_S, fmap_app, (Hk _). injection Hw as Hb Hu Hnb Hnu Hsrv. unfold log in Hb, Hu.
  unfold id_view, log. simpl.
  rewrite !materialized_snoc. unfold result in Hr. simpl in Hr. rewrite Hr. simpl.
  rewrite Hnb, nth_id_class, nth_id_succ, Hnu. simpl. rewrite app_nil_r, Hu.
  by rewrite Hb, Hsrv.
Qed.
Lemma ids_open_uni {A} srv (k : ST TW A) (w : TW) id u i :
  id = next_uni_id (drv w) → result (stream_priority id u i) (qc w) = Ok tt →
  respects Quiet k → ids_ok srv w →
  ids_ok srv (exec (dmod (λ d, d <| next_uni_id := u64_wrap (id + 4) |>);; k)
                (exec (call (stream_priority id u i)) w)).
Proof.
  intros -> Hr Hk (n&m&Hw). exists n, (S m). rewrite exec_bind. unfold ids_at.
  rewrite seq_S, fmap_app, (Hk _). injection Hw as Hb Hu Hnb Hnu Hsrv. unfold log in Hb, Hu.
  unfold id_view, log. simpl.
  rewrite !materialized_snoc. unfold result in Hr. simpl in Hr. rewrite Hr. simpl.
  rewrite Hnu, nth_id_class, nth_id_succ, Hnb. simpl. rewrite app_nil_r, Hb.
  by rewrite Hu, Hsrv.
Qed.

Lemma failed_priority id u i (w : TW) e :
  result (stream_priority id u i) (qc w) = Err e →
  Quiet w (exec (call (stream_priority id u i)) w).
Proof.
  intros Hr. unfold same, id_view, log. simpl. rewrite !materialized_snoc.
  unfold result in Hr. simpl in Hr. rewrite Hr. simpl. by rewrite !app_nil_r.
Qed.

Lemma cmd_upgrade_ids : respects Quiet (shared cmd_upgrade).
Proof. ids. Qed.

Lemma open_bidi_one_ids srv reply : respects (keeps (ids_ok srv)) (open_bidi_one reply).
Proof.
  unfold open_bidi_one.
  apply respects_bind; [apply _|apply quiet_ids_ok; ids|]. intros [].
  { apply quiet_ids_ok. ids. }
  apply respects_bind; [apply _|apply quiet_ids_ok; ids|]. intros credit.
  case_match; [apply quiet_ids_ok; ids|].
  intros w Hw. rewrite exec_bind, exec_dget, result_dget, exec_bind.
  assert (ids_ok srv (exec (shared cmd_upgrade) w)) as Hw' by exact Hw.
  case_match; [apply (quiet_ids_ok srv); [ids | exact Hw']|].
  set (w1 := exec (shared cmd_upgrade) w) in *.
  change (next_bidi_id (drv w)) with (next_bidi_id (drv w1)). clearbody w1.
  rewrite exec_bind, result_call.
  destruct (result (stream_priority _ _ _) (qc w1)) as [[]|e] eqn:Hr.
  - unfold materialize_bidi. rewrite exec_bind, exec_ret.
    apply ids_open_bidi; [done|done| |done]. ids.
  - apply (quiet_ids_ok srv); [ids|].
    destruct Hw' as (n&m&Hw'). exists n, m. unfold ids_at. by rewrite (failed_priority _ _ _ _ _ Hr).
Qed.
Lemma open_uni_one_ids srv reply : respects (keeps (ids_ok srv)) (open_uni_one reply).
Proof.
  unfold open_uni_one.
  apply respects_bind; [apply _|apply quiet_ids_ok; ids|]. intros [].
  { apply quiet_ids_ok. ids. }
  apply respects_bind; [apply _|apply quiet_ids_ok; ids|]. intros credit.
  case_match; [apply quiet_ids_ok; ids|].
  intros w Hw. rewrite exec_bind, exec_dget, result_dget, exec_bind.
  assert (ids_ok srv (exec (shared cmd_upgrade) w)) as Hw' by exact Hw.
  case_match; [apply (quiet_ids_ok srv); [ids | exact Hw']|].
  set (w1 := exec (shared cmd_upgrade) w) in *.
  change (next_uni_id (drv w)) with (next_uni_id (drv w1)). clearbody w1.
  rewrite exec_bind, result_call.
  destruct (result (stream_priority _ _ _) (qc w1)) as [[]|e] eqn:Hr.
  - unfold materialize_uni. rewrite exec_bind, exec_ret.
    apply ids_open_uni; [done|done| |done]. ids.
  - apply (quiet_ids_ok srv); [ids|].
    destruct Hw' as (n&m&Hw'). exists n, m. unfold ids_at. by rewrite (failed_priority _ _ _ _ _ Hr).
Qed.

(** ** Executions *)

#[local] Hint Resolve open_bidi_one_ids open_uni_one_ids : steps.

Ltac ids_ok_leaf := idtac; apply quiet_ids_ok; solve [ids].

Lemma open_bidi_loop_ids srv n : respects (keeps (ids_ok srv)) (open_bidi_loop n).
Proof. induction n; simpl; worker_with ids_ok_leaf. Qed.
Lemma open_uni_loop_ids srv n : respects (keeps (ids_ok srv)) (open_uni_loop n).
Proof. induction n; simpl; worker_with ids_ok_leaf. Qed.
#[local] Hint Resolve open_bidi_loop_ids open_uni_loop_ids : steps.
Lemma do_process_writes_ids srv : respects (keeps (ids_ok srv)) do_process_writes.
Proof. worker_with ids_ok_leaf. Qed.

Lemma observed_ids_ok (w : TW) : observed w → ∃ srv, ids_ok srv w.
Proof.
  apply (reachable_in_ind _ _ (λ w, ∃ srv, ids_ok srv w)).
  - intros w0 (srv&?&?&?&c&Hc&->). exists srv, 0%nat, 0%nat. unfold ids_at, id_view, log. simpl.
    rewrite Hc. by destruct srv.
  - intros w0 w1 Ht [srv Hw]. exists srv. revert Hw.
    apply (worker_turn_respects (keeps (ids_ok srv))); [..|exact Ht].
    + apply quiet_ids_ok, on_conn_established_ids.
    + apply quiet_ids_ok, do_process_reads_ids.
    + apply do_process_writes_ids.
    + intros p. apply quiet_ids_ok, wait_for_data_ids.
    + apply quiet_ids_ok, do_on_conn_close_ids.
  - intros w0 w1 [Hd HL]. unfold ids_ok, ids_at, id_view. by rewrite Hd, HL.
Qed.

(** C27.  Over a connection's whole life the streams it opens take consecutive
    ids of its role: the bidi streams materialized are exactly the first [n] ids
    of the sequence 0, 4, 8, … (client) or 1, 5, 9, … (server) and the next one
    to be used is the [n]-th, and likewise for uni streams from 2 or 3.  Declined,
    cancelled or failed opens burn no id.  Wrap-around is that of [u64]. *)
Theorem stream_ids_consecutive (w : TW) :
  observed w →
  let srv := is_server (drv w) in
  ∃ n m, materialized true (log w) = nth_id srv true <$> seq 0 n ∧
         next_bidi_id (drv w) = nth_id srv true n ∧
         materialized false (log w) = nth_id srv false <$> seq 0 m ∧
         next_uni_id (drv w) = nth_id srv false m.
Proof.
  intros (srv&n&m&[= Hb Hu Hnb Hnu Hs])%observed_ids_ok. simpl. rewrite Hs. eauto 10.
Qed.
End ids.

(** Until the 62-bit id space is exhausted no id is used twice, and an id
    tells its class and its initiator by its low two bits. *)
Theorem stream_ids_distinct srv bidi n :
  N.of_nat n ≤ 2 ^ 62 →
  NoDup (nth_id srv bidi <$> seq 0 n) ∧
  Forall (λ id, id mod 4 = id_base srv bidi ∧ is_bidi id = bidi) (nth_id srv bidi <$> seq 0 n).
Proof.
  intros Hn. split.
  - apply NoDup_fmap_2_strong; [|apply NoDup_seq].
    intros j k Hj%elem_of_seq Hk%elem_of_seq. apply nth_id_inj; lia.
  - apply Forall_fmap, Forall_forall. intros k _. split; [apply nth_id_mod4 | apply nth_id_class].
Qed.
