(* ===== verification/DriverBytes.v ===== *)
(** * Outgoing bytes

    The bytes the transport accepted for a stream, followed by the bytes the
    worker still owes it, are the bytes that were queued, in order: the send
    stage moves bytes from the queue to the transport and only a terminal
    discards what is left. *)

From S2P Require Import Prelude Interfaces Error Buffer Conn DriverTypes DriverStore DriverCore DriverRecv DriverSend Driver DriverLogic DriverInv DriverSendInv Trace DriverReach.

(** The bytes of stream [id] a call moved into the transport. *)
Definition accepted_by (id : N) (c : Call) : Bytes :=
  match c with
  | CSend id' buf _ (Ok n) => if id' =? id then take (N.to_nat n) buf else []
  | _ => []
  end.
Definition accepted (id : N) (l : list Call) : Bytes := mjoin (accepted_by id <$> l).

Section owed.
Context {B : Type} `{!Buf B}.

Definition op_bytes (op : SendOp B) : Bytes :=
  match op with OpWrite buf _ _ => buf_bytes buf | OpFinish _ => [] end.
Definition held_bytes (s : StreamSendState B) : Bytes :=
  from_option (buf_bytes ∘ held_buf) [] (held s).
Definition owed (s : StreamSendState B) : Bytes :=
  held_bytes s ++ mjoin (op_bytes <$> send_ops s).
End owed.

Section bytes.
Context `{Runtime} {B C : Type} `{!Buf B} `{!QuicConn C} `{!QuicConnOk C}.
Abbreviation TW := (World B (Traced C)).

Definition outgoing (id : N) (w : TW) : Bytes :=
  accepted id (log w) ++ from_option owed [] (send (drv w) !! id).

(** [flows]: every stream's outgoing bytes are kept, except that a half that is
    no longer live may have lost a tail. *)
Definition flows : relation TW := λ w w', ∀ id,
  outgoing id w' `prefix_of` outgoing id w ∧
  (live id (drv w') → live id (drv w) ∧ outgoing id w' = outgoing id w).

#[export] Instance flows_preorder : PreOrder flows.
Proof.
  split.
  - intros w id. done.
  - intros w1 w2 w3 H1 H2 id. destruct (H1 id) as [P1 L1], (H2 id) as [P2 L2].
    split; [by etrans|]. intros Hl. destruct (L2 Hl) as [Hl2 ->]. auto.
Qed.

(** ** Steps that move no byte *)

Lemma accepted_snoc id l c : accepted id (l ++ [c]) = accepted id l ++ accepted_by id c.
Proof.
  unfold accepted. rewrite fmap_app. simpl. rewrite join_app. f_equal. apply app_nil_r.
Qed.

Lemma flows_same w w' : log w' = log w → send (drv w') = send (drv w) → flows w w'.
Proof. intros Hl Hs id. unfold outgoing, live. by rewrite Hl, Hs. Qed.

Lemma flows_dmod f : (∀ d, send (f d) = send d) → respects flows (dmod f).
Proof. intros Hf w. apply flows_same; [done|apply Hf]. Qed.
Lemma flows_shared {A} (m : ST (Store B) A) : respects flows (shared m).
Proof. intros w. by apply flows_same. Qed.
Lemma flows_call {A} (m : ST C A) ev :
  (∀ a id, accepted_by id (ev a) = []) → respects flows (call (logged m ev)).
Proof.
  intros Hev w id. unfold outgoing, log. simpl.
  rewrite accepted_snoc, Hev, app_nil_r. done.
Qed.

(** Changing one entry. *)
Lemma flows_alter id f (w w' : TW) :
  log w' = log w → send (drv w') = alter f id (send (drv w)) →
  (∀ s, send (drv w) !! id = Some s →
    owed (f s) = owed s ∧ (terminal (f s) = None → terminal s = None) ∨
    owed (f s) `prefix_of` owed s ∧ terminal (f s) ≠ None) →
  flows w w'.
Proof.
  intros Hl Hs Hf id'. unfold outgoing, live. rewrite Hl, Hs.
  destruct (decide (id = id')) as [->|]; [|by rewrite !lookup_alter_ne].
  rewrite lookup_alter_eq. destruct (send (drv w) !! id') as [s|] eqn:Es; simpl; [|done].
  destruct (Hf s eq_refl) as [[Ho Ht]|[Ho Ht]].
  - rewrite Ho. split; [done|]. intros (?&[= <-]&?). eauto.
  - split; [by apply prefix_app|]. intros (?&[= <-]&?). done.
Qed.

Lemma flows_upd id f :
  (∀ s, owed (f s) = owed s ∧ (terminal (f s) = None → terminal s = None) ∨
        owed (f s) `prefix_of` owed s ∧ terminal (f s) ≠ None) →
  respects flows (upd_send id f).
Proof. intros Hf w. eapply flows_alter; [done|reflexivity|auto]. Qed.

Lemma flows_delete id (w w' : TW) :
  log w' = log w → send (drv w') = delete id (send (drv w)) → flows w w'.
Proof.
  intros Hl Hs id'. unfold outgoing, live. rewrite Hl, Hs.
  destruct (decide (id = id')) as [->|]; [|by rewrite !lookup_delete_ne].
  rewrite lookup_delete_eq. simpl. split; [|by intros (?&?&?)].
  rewrite app_nil_r. by apply prefix_app_r.
Qed.
Lemma flows_dmod_delete id : respects flows (dmod (λ d, d <| send ::= delete id |>)).
Proof. intros w. by eapply flows_delete. Qed.
#[local] Hint Resolve flows_shared flows_dmod_delete : steps.

Ltac flows_leaf :=
  idtac; lazymatch goal with
  | |- respects _ (upd_send _ _) =>
      apply flows_upd; intros ?; first [left; done | right; split; [apply prefix_nil | done]]
  | |- respects _ (dmod _) => apply flows_dmod; intros ?; repeat case_match; reflexivity
  | |- respects _ (call _) => apply flows_call; intros ? ?; reflexivity
  end.
Ltac bytes := worker_with flows_leaf.

Lemma mark_send_done_bytes id : respects flows (mark_send_done id).
Proof. bytes. Qed.
Lemma send_terminal_transition_bytes id e : respects flows (send_terminal_transition id e).
Proof. bytes. Qed.
#[local] Hint Resolve mark_send_done_bytes send_terminal_transition_bytes : steps.
Lemma rearm_send_bytes id : respects flows (rearm_send id).
Proof. bytes. Qed.
Lemma classify_send_err_bytes id err : respects flows (classify_send_err id err).
Proof. bytes. Qed.

(** ** Steps that move bytes *)

Lemma offer_take : ∃ max, ∀ chunk, offer chunk = take max chunk.
Proof. by exists (N.to_nat MAX_WRITE_CHUNK). Qed.

Lemma stream_send_accepts id chunk fin (w : TW) n :
  result (call (stream_send id (offer chunk) fin)) w = Ok n →
  n ≤ N.of_nat (length chunk) ∧
  accepted_by id (CSend id (offer chunk) fin (Ok n)) = take (N.to_nat n) chunk.
Proof.
  rewrite result_call. intros Hn%stream_send_len.
  destruct offer_take as [max Hmax]. rewrite Hmax in *. rewrite length_take in Hn. split; [lia|]. simpl. rewrite N.eqb_refl, take_take.
  f_equal. lia.
Qed.

(** One turn of the cursor of stream [id] over the transport. *)
Lemma cursor_turn id (buf : B) (f : Bytes → bool) (w : TW) :
  let m := send_from_buf buf (λ chunk, call (stream_send id (offer chunk) (f chunk))) in
  let w' := exec m w in
  drv w' = drv w ∧
  (∀ id', id' ≠ id → accepted id' (log w') = accepted id' (log w)) ∧
  accepted id (log w') ++ buf_bytes (result m w).2 = accepted id (log w) ++ buf_bytes buf.
Proof.
  intros m w'. subst m w'. unfold send_from_buf. case_match; [done|].
  rewrite exec_bind, result_bind.
  set (sink := call (stream_send id (offer (buf_chunk buf)) (f (buf_chunk buf)))).
  assert (∀ id', accepted id' (log (exec sink w)) = accepted id' (log w) ++
    accepted_by id' (CSend id (offer (buf_chunk buf)) (f (buf_chunk buf)) (result sink w)))
    as Hlog by (intros id'; apply accepted_snoc).
  assert (drv (exec sink w) = drv w) as Hd by done.
  destruct (result sink w) as [n|e] eqn:Hr; rewrite exec_ret, result_ret; (split; [done|]).
  - destruct (stream_send_accepts _ _ _ _ _ Hr) as [Hn Hacc]. split.
    + intros id' Hid. rewrite Hlog. simpl.
      rewrite (proj2 (N.eqb_neq id id')) by done. apply app_nil_r.
    + rewrite Hlog, Hacc, <-app_assoc. simpl. by rewrite <-buf_advance_split.
  - split; [intros id' _|]; rewrite Hlog; simpl; by rewrite app_nil_r.
Qed.

(** Moving bytes of one entry's front into the transport. *)
Lemma flows_turn id (w w' : TW) s s' :
  (∀ id', id' ≠ id → accepted id' (log w') = accepted id' (log w)) →
  send (drv w) !! id = Some s → send (drv w') = <[id := s']> (send (drv w)) →
  accepted id (log w') ++ owed s' = accepted id (log w) ++ owed s →
  (terminal s' = None → terminal s = None) → flows w w'.
Proof.
  intros Hne Hs Hs' Ho Ht id'. unfold outgoing, live. rewrite Hs'.
  destruct (decide (id' = id)) as [->|]; [|by rewrite !lookup_insert_ne, Hne].
  rewrite lookup_insert_eq, Hs. simpl. rewrite Ho. split; [done|].
  intros (?&[= <-]&?). eauto.
Qed.

Lemma alter_insert_entry {V} (f : V → V) id (m : gmap N V) s :
  m !! id = Some s → alter f id m = <[id := f s]> m.
Proof. intros Hs. apply map_eq. intros id'.
  destruct (decide (id' = id)) as [->|].
  - by rewrite lookup_alter_eq, lookup_insert_eq, Hs.
  - by rewrite lookup_alter_ne, lookup_insert_ne.
Qed.

Lemma flush_held_once_bytes id fin : respects flows (flush_held_once id fin).
Proof.
  intros w. unfold flush_held_once. rewrite exec_bind, exec_dget, result_dget.
  destruct (send (drv w) !! id ≫= held) as [h|] eqn:Hh; [|done].
  apply bind_Some in Hh as (s&Hs&Hh). rewrite exec_bind.
  destruct (cursor_turn id (held_buf h) (λ chunk,
    fin && (N.min (N.of_nat (length chunk)) MAX_WRITE_CHUNK =? buf_remaining (held_buf h))) w)
    as (Hd&Hne&Hacc). cbv beta zeta in *.
  set (m := send_from_buf _ _) in *. set (r := result m w) in *. set (w1 := exec m w) in *.
  clearbody m r w1. rewrite exec_bind.
  set (s2 := s <| held := Some (mkHeldWrite r.2) |>).
  set (w2 := exec (upd_send id _) w1).
  assert (send (drv w2) = <[id := s2]> (send (drv w))) as Hs2.
  { simpl. rewrite Hd. by apply alter_insert_entry. }
  assert (flows w w2) as Hf.
  { eapply flows_turn; [exact Hne|done|done| |done]. unfold owed, held_bytes. simpl.
    rewrite Hh. simpl. rewrite !app_assoc. f_equal. exact Hacc. }
  destruct r.1 as [written|err]; [destruct (buf_has_remaining r.2) eqn:Hr; simpl|].
  - case_match; [done|]. rewrite exec_bind. etrans; [done|]. apply rearm_send_bytes.
  - rewrite exec_bind, exec_ret. etrans; [done|].
    eapply (flows_alter id (λ s, s <| held := None |>)); [done|done|].
    rewrite Hs2, lookup_insert_eq. intros ? [= <-]. left. split; [|done].
    unfold owed, held_bytes. simpl. apply buf_has_remaining_bytes in Hr. by rewrite Hr.
  - rewrite exec_bind. etrans; [done|]. apply classify_send_err_bytes.
Qed.

(** A complete flush leaves the entry without deferred bytes and is otherwise
    silent in the registry. *)
Lemma flush_complete id fin (w : TW) :
  result (flush_held_once id fin) w = FlushComplete →
  send (drv (exec (flush_held_once id fin) w)) !! id =
    (λ s, s <| held := None |>) <$> send (drv w) !! id.
Proof.
  unfold flush_held_once. rewrite exec_bind, result_bind, exec_dget, result_dget.
  destruct (send (drv w) !! id ≫= held) as [h|] eqn:Hh.
  2: { intros _. simpl. destruct (send (drv w) !! id) as [[]|] eqn:Hs; simpl in *; by subst. }
  rewrite exec_bind, result_bind. set (m := send_from_buf _ _).
  assert (drv (exec m w) = drv w) as Hd by by apply send_from_buf_drv.
  set (r := result m w). set (w1 := exec m w) in *. clearbody m r w1.
  rewrite exec_bind, result_bind. destruct r.1 as [written|err]; [case_match|].
  - intros _. rewrite exec_bind, exec_ret. simpl. rewrite Hd, !lookup_alter_eq.
    by destruct (send (drv w) !! id).
  - case_match; [done|]. rewrite result_bind. by destruct (result (rearm_send id) _).
  - rewrite result_bind. by destruct (result (classify_send_err id err) _).
Qed.

Lemma hold_write_bytes id buf k permit ops (w : TW) s :
  send (drv w) !! id = Some s → held s = None → send_ops s = OpWrite buf k permit :: ops →
  flows w (exec (hold_write id buf k permit) w).
Proof.
  intros Hs Hh Hops. unfold hold_write. rewrite !exec_bind, runnable_after_pop_drv.
  eapply (flows_alter id (λ s, s <| send_ops ::= tail |> <| held := Some (mkHeldWrite buf) |>));
    [done| |].
  - simpl. by rewrite alter_alter_eq.
  - rewrite Hs. intros ? [= <-]. left. split; [|done]. unfold owed, held_bytes. simpl.
    by rewrite Hh, Hops.
Qed.

Lemma partial_write_bytes id buf k permit ops (w : TW) s :
  send (drv w) !! id = Some s → held s = None → send_ops s = OpWrite buf k permit :: ops →
  flows w (exec (partial_write id buf k permit) w).
Proof.
  intros Hs Hh Hops. unfold partial_write. rewrite exec_bind.
  destruct (cursor_turn id buf (λ _, false) w) as (Hd&Hne&Hacc). cbv beta zeta in *.
  set (m := send_from_buf _ _) in *. set (r := result m w) in *. set (w1 := exec m w) in *.
  clearbody m r w1. rewrite exec_bind.
  set (s2 := s <| send_ops := OpWrite r.2 k permit :: ops |>).
  set (w2 := exec (upd_send id _) w1).
  assert (send (drv w2) = <[id := s2]> (send (drv w))) as Hs2.
  { simpl. rewrite Hd, (alter_insert_entry _ _ _ s Hs). subst s2.
    destruct s; simpl in *. by subst. }
  assert (flows w w2) as Hf.
  { eapply flows_turn; [exact Hne|done|done| |done]. unfold owed, held_bytes. simpl.
    rewrite Hh, Hops. simpl. rewrite !app_assoc. f_equal. exact Hacc. }
  destruct r.1 as [written|err]; [case_match eqn:Hr; [|case_match]|].
  - rewrite !exec_bind, runnable_after_pop_drv. etrans; [done|].
    eapply (flows_alter id (λ s, s <| send_ops ::= tail |>)); [done|done|].
    rewrite Hs2, lookup_insert_eq. intros ? [= <-]. left. split; [|done].
    unfold owed, held_bytes. simpl. apply negb_true_iff, buf_has_remaining_bytes in Hr.
    by rewrite Hr.
  - done.
  - etrans; [done|]. apply rearm_send_bytes.
  - etrans; [done|]. apply classify_send_err_bytes.
Qed.

Lemma service_head_write_bytes id (w : TW) s :
  send (drv w) !! id = Some s → held s = None → flows w (exec (service_head_write id) w).
Proof.
  intros Hs Hh. unfold service_head_write. rewrite exec_bind, exec_dget, result_dget, Hs. simpl.
  destruct (send_ops s) as [|[buf k permit|] ops] eqn:Hops; simpl; [done| |done].
  rewrite exec_bind. set (w1 := exec (call (stream_capacity id)) w).
  assert (flows w w1) as Hf by by apply flows_call.
  destruct (result _ w) as [cap|err];
    [case_match|]; (etrans; [exact Hf|]).
  - by eapply (hold_write_bytes id buf k permit ops w1).
  - by eapply (partial_write_bytes id buf k permit ops w1).
  - apply classify_send_err_bytes.
Qed.

Lemma service_write_turn_bytes id (w : TW) s :
  send (drv w) !! id = Some s → flows w (exec (service_write_turn id) w).
Proof.
  intros Hs. unfold service_write_turn. rewrite exec_bind, exec_dget, result_dget, Hs. simpl.
  destruct (held s) as [h|] eqn:Hh; simpl; [|by eapply service_head_write_bytes].
  rewrite exec_bind. pose proof (flush_complete id false w) as Hc.
  pose proof (flush_held_once_bytes id false w) as Hf. rewrite Hs in Hc.
  destruct (result (flush_held_once id false) w); try exact Hf.
  etrans; [exact Hf|]. by eapply service_head_write_bytes; [by apply Hc|].
Qed.

Lemma complete_finish_op_bytes id (w : TW) s k ops :
  send (drv w) !! id = Some s → send_ops s = OpFinish k :: ops →
  flows w (exec (complete_finish_op id) w).
Proof.
  intros Hs Hops. unfold complete_finish_op.
  rewrite exec_bind, exec_dget, result_dget, Hs. simpl. rewrite Hops. simpl.
  rewrite !exec_bind.
  assert (respects flows (mark_send_done id;; reclaim_finished_send id)) as Hrest by bytes.
  etrans; [|apply Hrest].
  eapply (flows_alter id (λ s, s <| send_ops ::= tail |>)); [done|done|].
  rewrite Hs. intros ? [= <-]. left. split; [|done]. unfold owed. simpl. by rewrite Hops.
Qed.

Lemma service_finish_turn_bytes id (w : TW) s k ops :
  send (drv w) !! id = Some s → send_ops s = OpFinish k :: ops →
  flows w (exec (service_finish_turn id) w).
Proof.
  intros Hs Hops. unfold service_finish_turn. rewrite exec_bind, exec_dget, result_dget, Hs. simpl.
  destruct (held s) as [h|] eqn:Hh; simpl; rewrite exec_bind.
  - pose proof (flush_complete id true w) as Hc.
    pose proof (flush_held_once_bytes id true w) as Hf. rewrite Hs in Hc.
    destruct (result (flush_held_once id true) w); try exact Hf.
    etrans; [exact Hf|]. rewrite exec_bind, exec_ret.
    by eapply complete_finish_op_bytes; [by apply Hc|].
  - assert (respects flows (call (stream_send id [] true))) as Hf.
    { apply flows_call. intros [n|e] id'; simpl; [|done]. case_match; [apply take_nil|done]. }
    specialize (Hf w). destruct (result _ w); (etrans; [exact Hf|]).
    + rewrite exec_bind, exec_ret. by eapply complete_finish_op_bytes.
    + apply classify_send_err_bytes.
Qed.

Lemma service_send_turn_bytes id : respects flows (service_send_turn id).
Proof.
  intros w. unfold service_send_turn. rewrite exec_bind, exec_dget, result_dget.
  destruct (send (drv w) !! id) as [s|] eqn:Hs; simpl; [|done].
  destruct (pending_reset s).
  { by_respects bytes. }
  case_match eqn:Hc; [done|]. case_match eqn:Hho.
  { rewrite exec_bind, exec_ret. apply flush_held_once_bytes. }
  destruct (send_ops s) as [|[buf k permit|k] ops] eqn:Hops; simpl.
  - destruct (held s); simpl in *; [done|]. by rewrite andb_false_r in Hc.
  - by eapply service_write_turn_bytes.
  - by eapply service_finish_turn_bytes.
Qed.
#[local] Hint Resolve service_send_turn_bytes : steps.

Lemma stage_send_bytes : respects flows stage_send.
Proof. bytes. Qed.

(** C2.  The send stage is a FIFO: for every stream, the bytes the transport
    has accepted followed by the bytes still owed (deferred write first, then the
    queued writes in order) are unchanged by it while the half is live; once the
    half has ended, what was accepted is a prefix of them.  No byte is lost,
    duplicated, reordered or sent on another stream. *)
Theorem stage_send_fifo (w : TW) id :
  let w' := exec stage_send w in
  outgoing id w' `prefix_of` outgoing id w ∧
  (live id (drv w') → outgoing id w' = outgoing id w).
Proof. destruct (stage_send_bytes w id) as [Hp Hl]. split; [done|]. intros Hl'. by apply Hl. Qed.

(** ** The FIN *)

(** A turn of [id] sends only on [id]; a FIN needs [fin] and carries exactly
    [last]. *)
Definition turn_sends (id : N) (fin : bool) (last : Bytes) (c : Call) : Prop :=
  match c with
  | CSend id' buf f _ => id' = id ∧ (f = true → fin = true ∧ buf = last)
  | _ => True
  end.

Ltac sends_leaf :=
  idtac; lazymatch goal with
  | |- respects _ (call _) => apply emits_call; intros ?; solve [by repeat split | done]
  end.
Ltac no_sends := worker_with sends_leaf.

Lemma emits_send_from_buf P (buf : B) (sink : Bytes → ST TW (Result N quiche.Error)) :
  respects (emits P) (sink (buf_chunk buf)) → respects (emits P) (send_from_buf buf sink).
Proof. intros Hs. unfold send_from_buf. no_sends. Qed.

Lemma send_terminal_transition_fin id fin last id' e :
  respects (emits (B := B) (C := C) (turn_sends id fin last)) (send_terminal_transition id' e).
Proof. no_sends. Qed.
#[local] Hint Resolve send_terminal_transition_fin : steps.
Lemma classify_send_err_fin id fin last id' err :
  respects (emits (B := B) (C := C) (turn_sends id fin last)) (classify_send_err id' err).
Proof. no_sends. Qed.
#[local] Hint Resolve classify_send_err_fin : steps.

(** The chunk that empties the buffer is the whole buffer. *)
Lemma offer_last (buf : B) :
  N.min (N.of_nat (length (buf_chunk buf))) MAX_WRITE_CHUNK = buf_remaining buf →
  offer (buf_chunk buf) = buf_bytes buf.
Proof.
  rewrite buf_remaining_bytes. unfold offer. intros Hmin.
  destruct (buf_chunk_prefix buf) as [rest Hrest]. rewrite Hrest, length_app in Hmin.
  rewrite take_ge by lia. destruct rest; [by rewrite Hrest, app_nil_r|]. simpl in Hmin. lia.
Qed.

Lemma flush_held_once_fin id fin (w : TW) s :
  send (drv w) !! id = Some s →
  emits (turn_sends id fin (held_bytes s)) w (exec (flush_held_once id fin) w).
Proof.
  intros Hs. unfold flush_held_once. rewrite exec_bind, exec_dget, result_dget, Hs. simpl.
  destruct (held s) as [h|] eqn:Hh; [|done].
  match goal with |- emits ?P w (exec ?m w) => assert (respects (emits P) m) as Hm end.
  2: { apply Hm. }
  apply respects_bind; [apply _| |intros r; no_sends].
  apply emits_send_from_buf, emits_call. intros a. split; [done|].
  intros [-> Hlast%N.eqb_eq]%andb_prop. split; [done|].
  unfold held_bytes. rewrite Hh. simpl. by apply offer_last.
Qed.

Lemma service_head_write_fin id last :
  respects (emits (B := B) (C := C) (turn_sends id false last)) (service_head_write id).
Proof.
  unfold service_head_write, partial_write.
  worker_with ltac:(idtac; first
    [ sends_leaf
    | lazymatch goal with |- respects _ (send_from_buf _ _) =>
        apply emits_send_from_buf, emits_call; intros ?; by split end ]).
Qed.

Lemma service_send_turn_fin id (w : TW) s :
  send (drv w) !! id = Some s →
  ∃ f, (f = true → ∃ k ops, send_ops s = OpFinish k :: ops) ∧
       emits (turn_sends id f (held_bytes s)) w (exec (service_send_turn id) w).
Proof.
  intros Hs. unfold service_send_turn. rewrite exec_bind, exec_dget, result_dget, Hs. simpl.
  destruct (pending_reset s).
  { exists false. split; [done|].
    by_respects no_sends. }
  case_match eqn:Hc; [by exists false|]. case_match eqn:Hho.
  { exists false. split; [done|]. rewrite exec_bind, exec_ret. by apply flush_held_once_fin. }
  destruct (send_ops s) as [|[buf k permit|k] ops] eqn:Hops; simpl.
  - destruct (held s); simpl in *; [done|]. by rewrite andb_false_r in Hc.
  - exists false. split; [done|]. unfold service_write_turn.
    rewrite exec_bind, exec_dget. case_match; [|apply service_head_write_fin].
    rewrite exec_bind. pose proof (flush_held_once_fin id false w s Hs) as Hf.
    destruct (result (flush_held_once id false) w); try exact Hf.
    etrans; [exact Hf|]. apply service_head_write_fin.
  - exists true. split; [eauto|]. unfold service_finish_turn.
    rewrite exec_bind, exec_dget, result_dget, Hs. simpl.
    assert (respects (emits (turn_sends id true (held_bytes s)))
              (complete_finish_op id : ST TW unit)) as Hcomp by no_sends.
    destruct (held s) as [h|] eqn:Hh; simpl; rewrite exec_bind.
    + pose proof (flush_held_once_fin id true w s Hs) as Hf.
      destruct (result (flush_held_once id true) w); try exact Hf.
      etrans; [exact Hf|]. rewrite exec_bind, exec_ret. apply Hcomp.
    + assert (respects (emits (B := B) (turn_sends id true (held_bytes s)))
                (call (stream_send id [] true))) as Hf.
      { apply emits_call. intros a. split; [done|]. intros _. split; [done|].
        unfold held_bytes. by rewrite Hh. }
      specialize (Hf w). destruct (result _ w); (etrans; [exact Hf|]).
      * rewrite exec_bind, exec_ret. apply Hcomp.
      * apply classify_send_err_fin.
Qed.

(** C18.  FIN comes last: every [stream_send] of a round-robin turn of [id] is
    on [id], and one that carries FIN is made only when a [Finish] is at the head
    of the queue, with exactly the bytes still deferred ahead of it, so that
    nothing queued before the [Finish] is left behind. *)
Theorem fin_rides_the_last_byte id (w : TW) s l :
  send (drv w) !! id = Some s →
  log (exec (service_send_turn id) w) = log w ++ l →
  ∀ id' buf fin r, CSend id' buf fin r ∈ l →
    id' = id ∧
    (fin = true → (∃ k ops, send_ops s = OpFinish k :: ops) ∧ buf = held_bytes s).
Proof.
  intros (f&Hf&l'&Hl'&HF)%service_send_turn_fin Hl. rewrite Hl in Hl'. simplify_list_eq.
  intros id' buf fin r Hin. rewrite Forall_forall in HF.
  destruct (HF _ Hin) as [-> Hfin]. split; [done|]. intros [??]%Hfin. auto.
Qed.

(** ** Queueing *)

Lemma mark_send_runnable_send id (w : TW) :
  send (drv (exec (mark_send_runnable id) w)) = send (drv w).
Proof. simpl. by case_decide. Qed.

Lemma send_entry_outgoing id (w : TW) :
  let w' := exec (send_entry id) w in
  send (drv w') !! id = Some (result (send_entry id) w) ∧ log w' = log w ∧
  ∀ id', outgoing id' w' = outgoing id' w.
Proof.
  intros w'. subst w'. unfold send_entry. rewrite exec_bind, result_bind, exec_dget, result_dget.
  destruct (send (drv w) !! id) as [s|] eqn:Hs; [done|].
  rewrite exec_bind, result_bind. set (c := result _ w). set (w1 := exec _ w).
  split; [apply lookup_insert_eq|]. split; [done|]. intros id'. unfold outgoing. f_equal. simpl.
  destruct (decide (id' = id)) as [->|]; [by rewrite lookup_insert_eq, Hs|].
  by rewrite lookup_insert_ne.
Qed.

(** A write command appends its bytes at the end of its stream's outgoing
    bytes, or, on a half that has ended, is refused; no other stream changes. *)
Theorem enqueue_appends id op (w : TW) :
  let w' := exec (enqueue_send_op id op) w in
  (outgoing id w' = outgoing id w ++ op_bytes op ∧ live id (drv w') ∨
   outgoing id w' = outgoing id w ∧ ¬ live id (drv w')) ∧
  ∀ id', id' ≠ id → outgoing id' w' = outgoing id' w.
Proof.
  intros w'. subst w'. unfold enqueue_send_op. rewrite exec_bind.
  destruct (send_entry_outgoing id w) as (Hs&Hl&Hout).
  set (s := result (send_entry id) w) in *. set (w1 := exec (send_entry id) w) in *.
  clearbody s w1. destruct (terminal s) eqn:Ht.
  - split; [right; split; [by rewrite <-Hout|] | intros; by rewrite <-Hout].
    intros (?&?&?). simpl in *. congruence.
  - rewrite exec_bind. set (w2 := exec (upd_send id _) w1).
    assert (send (drv (exec (mark_send_runnable id) w2)) =
            <[id := s <| send_ops ::= λ q, q ++ [op] |>]> (send (drv w1))) as E.
    { rewrite mark_send_runnable_send. by apply alter_insert_entry. }
    assert (log (exec (mark_send_runnable id) w2) = log w1) as EL by done.
    unfold outgoing, live. rewrite E, EL. split; [left; split|].
    + rewrite lookup_insert_eq. simpl. unfold outgoing in Hout. rewrite <-Hout, Hs. simpl.
      unfold owed, held_bytes. simpl. rewrite fmap_app, join_app. simpl.
      by rewrite app_nil_r, !app_assoc.
    + rewrite lookup_insert_eq. eauto.
    + intros id' Hid. rewrite lookup_insert_ne by done. unfold outgoing in Hout. by rewrite <-Hout.
Qed.
End bytes.
