(* ===== verification/Finish.v ===== *)
(** * What a finished stream means

    A [Finish] is answered with success in exactly the turn in which the transport
    takes the FIN, together with the bytes that were still deferred ahead of it. *)

From S2P Require Import Prelude Interfaces Error Buffer Conn DriverTypes DriverStore DriverCore DriverRecv DriverSend Driver DriverLogic StoreLogic DriverInv DriverSendInv Trace DriverReach DriverBytes.

(** ** Replies *)

Section replies.
Context `{Runtime} {B : Type}.
Abbreviation St := (Store B).
Context (k : loc).

Definition finish_reply (s : St) : option (Result unit SendEnd) :=
  finish_replies s !! k ≫= λ o, os_value (os_view o).
(** The application has been told that its stream is finished. *)
Definition finish_succeeded (s : St) : Prop := finish_reply s = Some (Ok tt).
(** Somebody waits for the answer. *)
Definition finish_awaited (s : St) : bool :=
  from_option (λ o, os_rx (os_view o)) false (finish_replies s !! k).

(** [declines]: no success is reported. *)
Definition declines : relation St := λ s s', finish_succeeded s' → finish_succeeded s.
#[export] Instance declines_preorder : PreOrder declines.
Proof. unfold declines. split; [by intros s|]. intros ? ? ?. auto. Qed.

Lemma declines_same {A} (m : ST St A) : respects (same finish_replies) m → respects declines m.
Proof. intros Hm s. unfold declines, finish_succeeded, finish_reply. by rewrite (Hm s). Qed.

(** What sending an answer does to the reply at [k]. *)
Lemma finish_send_reply a r s :
  finish_reply (exec (finish_send a r) s) =
    if bool_decide (a = k) && finish_awaited s then Some r else finish_reply s.
Proof.
  unfold finish_send, at_loc, finish_reply, finish_awaited, exec.
  destruct (finish_replies s !! a) as [o|] eqn:Ho.
  2: { case_bool_decide as Ha; [|done]. simpl. by rewrite <-Ha, Ho. }
  simpl. case_bool_decide as Ha; [subst|by rewrite list_lookup_insert_ne].
  rewrite list_lookup_insert_eq by by eapply lookup_lt_Some. simpl. rewrite os_send_view, Ho. simpl. by case_match.
Qed.
Lemma finish_fail_declines a e : respects declines (finish_send (B := B) a (Err e)).
Proof. intros s. unfold declines, finish_succeeded. rewrite finish_send_reply. by case_match. Qed.
Lemma finish_drop_reply a : respects (same finish_reply) (finish_drop_tx (B := B) a).
Proof.
  intros s. unfold same, finish_reply, finish_drop_tx, at_loc, exec.
  destruct (finish_replies s !! a) as [o|] eqn:Ho; [|done]. simpl. destruct (decide (a = k)) as [->|].
  - rewrite list_lookup_insert_eq by by eapply lookup_lt_Some. simpl. by rewrite os_drop_tx_view, Ho.
  - by rewrite list_lookup_insert_ne.
Qed.
Lemma finish_drop_declines a : respects declines (finish_drop_tx (B := B) a).
Proof. intros s. unfold declines, finish_succeeded. by rewrite (finish_drop_reply a s). Qed.
End replies.

#[export] Hint Resolve finish_fail_declines finish_drop_declines : steps.
Ltac declines_leaf :=
  idtac; lazymatch goal with
  | |- respects _ (at_loc finish_replies _ _ _) => fail
  | |- respects _ (at_loc _ _ _ _) => apply declines_same; solve [store_leaf]
  | |- respects _ (alloc finish_replies _) => fail
  | |- respects _ (alloc _ _) => apply declines_same; solve [store_leaf]
  | |- respects _ (modify _) => apply declines_same; solve [store_leaf]
  | |- respects _ (λ _, _) => apply declines_same; solve [store_leaf]
  end.
Ltac declining := worker_with declines_leaf.

(** Walk through code that leaves every answer alone. *)
Ltac reply_leaf :=
  idtac; lazymatch goal with
  | |- respects _ (finish_drop_tx _) => apply finish_drop_reply
  | _ => store_leaf
  end.

(** ** Turns *)

Section turns.
Context `{Runtime} {B C : Type} `{!Buf B} `{!QuicConn C} `{!QuicConnOk C}.
Abbreviation TW := (World B (Traced C)).
Context (k : loc).

(** The same for the worker. *)
Definition stalls : relation TW := λ w w', declines k (sto w) (sto w').
#[export] Instance stalls_preorder : PreOrder stalls.
Proof. unfold stalls. split; [by intros w|]. intros ? ? ?. by etrans. Qed.
Lemma stalls_shared {A} (m : ST (Store B) A) : respects (declines k) m → respects stalls (shared m).
Proof. intros Hm w. apply Hm. Qed.
Lemma stalls_dmod f : respects stalls (dmod f).
Proof. by intros w ?. Qed.
Lemma stalls_call {A} (m : ST (Traced C) A) : respects stalls (call m).
Proof. by intros w ?. Qed.
End turns.
#[export] Hint Resolve stalls_dmod stalls_call : steps.
Ltac stalls_leaf :=
  idtac; lazymatch goal with
  | |- respects _ (shared _) => apply stalls_shared; solve [declining]
  end.
Ltac stalling := worker_with stalls_leaf.

Section turn.
Context `{Runtime} {B C : Type} `{!Buf B} `{!QuicConn C} `{!QuicConnOk C}.
Abbreviation TW := (World B (Traced C)).
Context (k : loc).
Abbreviation Stalls := (stalls (B := B) (C := C) k).

Lemma send_terminal_transition_stalls id e : respects Stalls (send_terminal_transition id e).
Proof. stalling. Qed.
#[local] Hint Resolve send_terminal_transition_stalls : steps.
Lemma rearm_send_stalls id : respects Stalls (rearm_send id).
Proof. stalling. Qed.
Lemma classify_send_err_stalls id err : respects Stalls (classify_send_err id err).
Proof. stalling. Qed.
#[local] Hint Resolve rearm_send_stalls classify_send_err_stalls : steps.
Lemma flush_held_once_stalls id fin : respects Stalls (flush_held_once id fin).
Proof. stalling. Qed.
#[local] Hint Resolve flush_held_once_stalls : steps.
Lemma mark_send_done_stalls id : respects Stalls (mark_send_done id).
Proof. stalling. Qed.
#[local] Hint Resolve mark_send_done_stalls : steps.
Lemma service_head_write_stalls id : respects Stalls (service_head_write id).
Proof. stalling. Qed.

(** ** Completing a [Finish] *)

(** The rest of [complete_finish_op], after the answer. *)
Lemma finish_cleanup_quiet id :
  respects (same (λ w : TW, (log w, finish_reply k (sto w)))) (mark_send_done id;; reclaim_finished_send id).
Proof.
  worker_with ltac:(idtac; lazymatch goal with
    | |- respects _ (dmod _) => intros ?; reflexivity
    | |- respects _ (shared ?m) =>
        let Hm := fresh in
        assert (respects (same (finish_reply k)) m) as Hm by worker_with reply_leaf;
        intros w; unfold same; f_equal; apply (Hm (sto w))
    end).
Qed.

Lemma complete_finish_op_replies id (w : TW) s j ops :
  send (drv w) !! id = Some s → send_ops s = OpFinish j :: ops →
  let w' := exec (complete_finish_op id) w in
  log w' = log w ∧
  finish_reply k (sto w') = if bool_decide (j = k) && finish_awaited k (sto w) then Some (Ok tt) else finish_reply k (sto w).
Proof.
  intros Hs Hops w'. subst w'. unfold complete_finish_op. rewrite exec_bind, exec_dget, result_dget, Hs.
  cbn [from_option]. rewrite Hops. cbn [head for_some]. rewrite exec_bind.
  set (m := (pop_op id;; _) : ST TW unit).
  assert (log (exec m w) = log w ∧ sto (exec m w) = exec (finish_send j (Ok tt)) (sto w)) as [<- Hsto] by done.
  pose proof (finish_cleanup_quiet id (exec m w)) as Hq. set (w1 := exec m w) in *. clearbody w1. clear m.
  set (w2 := exec (mark_send_done id;; _) w1) in *. clearbody w2. unfold same in Hq.
  split; [exact (f_equal fst Hq)|]. etrans; [exact (f_equal snd Hq)|]. cbn [snd]. rewrite Hsto. apply finish_send_reply.
Qed.

(** ** The deferred write that carries the FIN *)

(** The call that takes the FIN: it is made with all the bytes ahead of it and
    takes them all. *)
Definition fin_taken (id : N) (s : StreamSendState B) : Call :=
  CSend id (held_bytes s) true (Ok (N.of_nat (length (held_bytes s)))).

Lemma rearm_send_logs id (w : TW) : ∃ c l, log (exec (rearm_send id) w) = log w ++ c :: l.
Proof.
  unfold rearm_send. rewrite exec_bind. set (w1 := exec (call _) w).
  match goal with |- context [exec ?m w1] => assert (respects (emits (C := C) (λ _, True)) m) as Hm end.
  { worker_with sends_leaf. }
  destruct (Hm w1) as (l&Hl&_). eexists _, l. rewrite Hl. unfold w1, log. simpl. by rewrite <-app_assoc.
Qed.

Lemma offer_length chunk : N.of_nat (length (offer chunk)) = N.min (N.of_nat (length chunk)) MAX_WRITE_CHUNK.
Proof. unfold offer. rewrite length_take. generalize MAX_WRITE_CHUNK. lia. Qed.

Lemma cursor_call id (buf : B) (f : Bytes → bool) (w : TW) :
  buf_has_remaining buf = true →
  let m := send_from_buf buf (λ chunk, call (stream_send id (offer chunk) (f chunk))) in
  ∃ res, (result m w).1 = res ∧
    (∀ n, res = Ok n → n ≤ N.of_nat (length (offer (buf_chunk buf))) ∧
                       buf_bytes (result m w).2 = drop (N.to_nat n) (buf_bytes buf)) ∧
    log (exec m w) = log w ++ [CSend id (offer (buf_chunk buf)) (f (buf_chunk buf)) res].
Proof.
  intros Hr m. subst m. unfold send_from_buf. rewrite Hr. cbn [negb]. rewrite exec_bind, result_bind.
  set (sink := call _). exists (result sink w).
  assert (log (exec sink w) = log w ++ [CSend id (offer (buf_chunk buf)) (f (buf_chunk buf)) (result sink w)]) as Hl by done.
  destruct (result sink w) as [n|e] eqn:Hn; rewrite exec_ret, result_ret; simpl; [|done].
  split_and!; [done| |done]. intros ? [= <-]. unfold sink in Hn. rewrite result_call in Hn. apply stream_send_len in Hn. split; [done|].
  apply buf_advance_bytes. rewrite buf_remaining_bytes. destruct (buf_chunk_prefix buf) as [rest ->].
  rewrite length_app. rewrite offer_length in Hn. revert Hn. generalize MAX_WRITE_CHUNK. lia.
Qed.

Lemma flush_fin_taken id (w : TW) s h :
  send (drv w) !! id = Some s → held s = Some h → buf_has_remaining (held_buf h) = true →
  result (flush_held_once id true) w = FlushComplete ↔
  log (exec (flush_held_once id true) w) = log w ++ [fin_taken id s].
Proof.
  intros Hs Hh Hr. unfold flush_held_once. rewrite exec_bind, result_bind, exec_dget, result_dget, Hs. simpl. rewrite Hh.
  destruct (cursor_call id (held_buf h) (λ chunk, true && (N.min (N.of_nat (length chunk)) MAX_WRITE_CHUNK =? buf_remaining (held_buf h))) w Hr)
    as (res&Hres&Hb&Hl). cbv beta zeta in *.
  set (m := send_from_buf _ _) in *. rewrite !exec_bind, !result_bind.
  set (r := result m w) in *. set (w1 := exec m w) in *. clearbody m r w1. rewrite Hres.
  set (w2 := exec (upd_send id (λ s0, s0 <| held := Some (mkHeldWrite r.2) |>)) w1).
  unfold fin_taken, held_bytes. rewrite Hh. simpl.
  set (b := held_buf h) in *. destruct res as [n|err].
  - destruct (Hb n eq_refl) as [Hn Hr2]. destruct (buf_has_remaining r.2) eqn:Hrem; simpl.
    + assert (N.to_nat n < length (buf_bytes b))%nat as Hlt.
      { destruct (decide (N.to_nat n < length (buf_bytes b))%nat); [done|]. rewrite drop_ge in Hr2 by lia.
        apply buf_has_remaining_bytes in Hr2. congruence. }
      case_match.
      * rewrite exec_ret, result_ret. split; [done|]. change (log w2) with (log w1). rewrite Hl.
        intros E. simplify_list_eq. lia.
      * rewrite exec_bind, result_bind, exec_ret, result_ret. split; [by destruct (result (rearm_send id) w2)|].
        destruct (rearm_send_logs id w2) as (c&l&->). change (log w2) with (log w1). rewrite Hl, <-app_assoc.
        intros E. simplify_list_eq.
    + rewrite exec_bind, result_bind, exec_ret, result_ret. split; [intros _|done].
      etrans; [exact Hl|]. apply buf_has_remaining_bytes in Hrem. rewrite Hrem in Hr2.
      symmetry in Hr2. apply (f_equal length) in Hr2. rewrite length_drop in Hr2. simpl in Hr2.
      assert (N.min (N.of_nat (length (buf_chunk b))) MAX_WRITE_CHUNK = buf_remaining b) as Hmin.
      { rewrite buf_remaining_bytes. destruct (buf_chunk_prefix b) as [rest Hrest]. rewrite Hrest, length_app in *.
        rewrite offer_length in Hn. revert Hn. generalize MAX_WRITE_CHUNK. lia. }
      rewrite Hmin, N.eqb_refl, offer_last by done. rewrite offer_last in Hn by done. do 4 f_equal. lia.
  - rewrite exec_bind, result_bind, exec_ret, result_ret. split; [by destruct (result (classify_send_err id err) w2)|].
    destruct (classify_send_err_fin id true [] id err w2) as (l&->&_). change (log w2) with (log w1).
    rewrite Hl, <-app_assoc. intros E. simplify_list_eq.
Qed.

(** ** A whole turn *)

(** A complete flush leaves the store alone. *)
Lemma flush_complete_sto id fin (w : TW) :
  result (flush_held_once id fin) w = FlushComplete → sto (exec (flush_held_once id fin) w) = sto w.
Proof.
  unfold flush_held_once. rewrite exec_bind, result_bind, exec_dget, result_dget.
  destruct (send (drv w) !! id ≫= held) as [h|]; [|done].
  rewrite !exec_bind, !result_bind. set (m := send_from_buf _ _).
  assert (sto (exec m w) = sto w) as Hm.
  { unfold m, send_from_buf. case_match; [done|]. rewrite exec_bind. by case_match. }
  set (r := result m w). set (w1 := exec m w) in *. clearbody m r w1. destruct r.1 as [written|err]; [case_match|].
  - by rewrite exec_bind, exec_ret.
  - case_match; [done|]. rewrite result_bind. by destruct (result (rearm_send id) _).
  - rewrite result_bind. by destruct (result (classify_send_err id err) _).
Qed.

Lemma finish_answer id (w w1 : TW) s j ops :
  send (drv w1) !! id = Some s → send_ops s = OpFinish j :: ops → sto w1 = sto w → ¬ finish_succeeded k (sto w) →
  finish_succeeded k (sto (exec (complete_finish_op id;; mret Drop) w1)) ↔
    j = k ∧ finish_awaited k (sto w) = true ∧ log (exec (complete_finish_op id;; mret Drop) w1) = log w1.
Proof.
  intros Hs Hops Hsto Hk. rewrite exec_bind, exec_ret. destruct (complete_finish_op_replies id w1 s j ops Hs Hops) as [Hl Hr].
  set (w2 := exec (complete_finish_op id) w1) in *. clearbody w2. rewrite Hl. unfold finish_succeeded at 1. rewrite Hr, Hsto.
  case_bool_decide; simpl; [|naive_solver]. destruct (finish_awaited k (sto w)); naive_solver.
Qed.

Lemma service_finish_turn_answers id (w : TW) s j ops :
  send_ok s → send (drv w) !! id = Some s → send_ops s = OpFinish j :: ops → ¬ finish_succeeded k (sto w) →
  let w' := exec (service_finish_turn id) w in
  finish_succeeded k (sto w') ↔
    j = k ∧ finish_awaited k (sto w) = true ∧ log w' = log w ++ [fin_taken id s].
Proof.
  intros Hok Hs Hops Hk w'. subst w'. unfold service_finish_turn. rewrite exec_bind, exec_dget, result_dget, Hs. cbn [mbind option_bind].
  destruct (held s) as [h|] eqn:Hh.
  - rewrite bool_decide_eq_true_2 by eauto. rewrite exec_bind.
    pose proof (flush_fin_taken id w s h Hs Hh (held_nonempty _ Hok _ Hh)) as Hfin.
    pose proof (flush_held_once_stalls id true w) as Hst. pose proof (flush_complete id true w) as Hc.
    pose proof (flush_complete_sto id true w) as Hsto. rewrite Hs in Hc.
    set (w1 := exec (flush_held_once id true) w) in *. clearbody w1.
    destruct (result (flush_held_once id true) w).
    1: { rewrite (finish_answer id w w1 (s <| held := None |>) j ops), (proj1 Hfin eq_refl); auto. }
    all: rewrite exec_ret; split; [by intros ?%Hst | intros (_&_&?%Hfin); done].
  - rewrite bool_decide_eq_false_2 by (by intros [??]). rewrite exec_bind. set (m := call (stream_send id [] true)).
    assert (log (exec m w) = log w ++ [CSend id [] true (result m w)]) as Hl by done.
    assert (drv (exec m w) = drv w ∧ sto (exec m w) = sto w) as [Hd Hsto] by done.
    assert (∀ n, result m w = Ok n → n = 0) as Hn.
    { intros n. unfold m. rewrite result_call. intros ?%stream_send_len. simpl in *. lia. }
    assert (fin_taken id s = CSend id [] true (Ok 0)) as -> by (unfold fin_taken, held_bytes; by rewrite Hh).
    set (w1 := exec m w) in *. clearbody w1. destruct (result m w) as [n|err].
    + rewrite (Hn n eq_refl) in Hl. rewrite <-Hl. by eapply finish_answer; rewrite ?Hd.
    + pose proof (classify_send_err_stalls id err w1) as Hst. unfold stalls, declines in Hst. rewrite Hsto in Hst.
      destruct (classify_send_err_fin id true [] id err w1) as (l&->&_). rewrite Hl, <-app_assoc.
      split; [by intros ?%Hst|]. intros (_&_&?). simplify_list_eq.
Qed.
End turn.

Section finish.
Context `{Runtime} {B C : Type} `{!Buf B} `{!QuicConn C} `{!QuicConnOk C}.
Abbreviation TW := (World B (Traced C)).

(** C19.  A stream is reported as finished exactly when the transport has taken
    everything: in a turn of stream [id], a [Finish] that was not answered yet is
    answered with success if and only if it is the next operation of [id], somebody
    waits for the answer, and the only call of the turn is a [stream_send] that
    carries the FIN, is made with all the bytes still deferred and is taken
    whole. *)
Theorem finish_succeeds_iff_fin_taken id k (w : TW) s :
  send_wf (drv w) → send (drv w) !! id = Some s → ¬ finish_succeeded k (sto w) →
  let w' := exec (service_send_turn id) w in
  finish_succeeded k (sto w') ↔
    (∃ ops, send_ops s = OpFinish k :: ops) ∧ finish_awaited k (sto w) = true ∧
    log w' = log w ++ [CSend id (held_bytes s) true (Ok (N.of_nat (length (held_bytes s))))].
Proof.
  intros Hwf Hs Hk w'. subst w'. pose proof (Hwf _ _ Hs) as Hok.
  assert (∀ w', stalls k w w' → ¬ finish_succeeded k (sto w')) as Hno by (intros w' Hst ?%Hst; done).
  unfold service_send_turn. rewrite exec_bind, exec_dget, result_dget, Hs. cbn [mbind option_bind].
  destruct (pending_reset s) eqn:Hp.
  { rewrite (terminal_ops _ Hok) by (apply (reset_terminal _ Hok); by rewrite Hp).
    split; [|naive_solver]. intros []%Hno. by_respects stalling. }
  case_match eqn:Hc.
  { split; [done|]. intros ((ops&Hops)&_). rewrite Hops in Hc. destruct (terminal s) eqn:Ht; [|done].
    by rewrite (terminal_ops _ Hok) in Hops by (by rewrite Ht). }
  case_match eqn:Hho.
  { rewrite exec_bind, exec_ret. split; [intros []%Hno; apply flush_held_once_stalls|].
    intros ((ops&Hops)&_). rewrite Hops in Hho. by destruct (held s). }
  destruct (send_ops s) as [|[buf k' permit|j] ops] eqn:Hops; cbn [head].
  - destruct (held s); simpl in *; [done|]. by rewrite andb_false_r in Hc.
  - split; [|naive_solver]. intros []%Hno. unfold service_write_turn.
    pose proof flush_held_once_stalls. pose proof service_head_write_stalls. by_respects stalling.
  - rewrite (service_finish_turn_answers k id w s j ops) by done. naive_solver.
Qed.
End finish.
