(* ===== verification/DriverRecvBytes.v ===== *)
(** * Incoming bytes

    What [stream_recv] returned is what the stream's byte channel receives, chunk
    by chunk and in order; the read budget bounds it; FIN seals the stream. *)

From S2P Require Import Prelude Interfaces Error Buffer Conn DriverTypes DriverStore DriverCore DriverRecv DriverSend Driver DriverLogic StoreLogic Trace DriverReach.

(** The chunk of stream [id] a call read, if it read any byte. *)
Definition chunk_of (id : N) (c : Call) : option Bytes :=
  match c with
  | CRecv id' (Ok (len, _)) data => if (id' =? id) && (0 <? len) then Some data else None
  | _ => None
  end.
Definition chunks (id : N) (l : list Call) : list Bytes := omap (chunk_of id) l.

(** ** Store operations that leave a byte channel's queue alone *)

Section queue.
Context `{Runtime} {B : Type}.

Definition queue_at (a : loc) (s : Store B) : list Bytes :=
  from_option (cs_queue ∘ chan_view) [] (byte_chans s !! a).

Lemma at_chan_queue {A} a b (dflt : A) f :
  (∀ c, cs_queue (chan_view (f c).2) = cs_queue (chan_view c)) →
  respects (same (queue_at a)) (at_loc byte_chans b dflt f).
Proof.
  intros Hf s. unfold same, at_loc, exec, queue_at.
  destruct (byte_chans s !! b) as [c|] eqn:Hc; [|done]. simpl.
  destruct (decide (a = b)) as [->|]; [|by rewrite list_lookup_insert_ne].
  rewrite list_lookup_insert_eq by by eapply lookup_lt_Some. rewrite Hc. apply Hf.
Qed.

Lemma wake_queue a ws : respects (same (queue_at a)) (wake ws).
Proof. intros s. reflexivity. Qed.
Lemma flag_store_queue a b v : respects (same (queue_at a)) (flag_store b v).
Proof. intros s. reflexivity. Qed.
Lemma recv_cell_set_queue a b e : respects (same (queue_at a)) (recv_cell_set b e).
Proof.
  apply respects_bind; [apply _| |intros; apply wake_queue]. by apply at_loc_same.
Qed.
Lemma try_reserve_queue a b : respects (same (queue_at a)) (bytes_try_reserve b).
Proof.
  apply at_chan_queue. intros c. rewrite chan_try_reserve_view. by case_decide.
Qed.
Lemma permit_drop_queue a b : respects (same (queue_at a)) (bytes_permit_drop b).
Proof. apply at_chan_queue. intros c. simpl. by rewrite chan_permit_drop_view. Qed.
Lemma drop_tx_queue a b : respects (same (queue_at a)) (bytes_drop_tx b).
Proof. apply at_chan_queue. intros c. simpl. by rewrite chan_drop_tx_view. Qed.
End queue.

#[export] Hint Resolve wake_queue flag_store_queue recv_cell_set_queue try_reserve_queue
  permit_drop_queue drop_tx_queue : steps.

Section deliver.
Context `{Runtime} {B C : Type} `{!Buf B} `{!QuicConn C} `{!QuicConnOk C}.
Abbreviation TW := (World B (Traced C)).

Lemma drop_send_state_queue a (s : StreamSendState B) :
  respects (same (queue_at a)) (drop_send_state s).
Proof. store. Qed.

(** [delivers id a]: the queue of channel [a] grows by exactly the chunks read
    from [id]. *)
Definition delivers (id : N) (a : loc) : relation TW := λ w w', ∃ l,
  log w' = log w ++ l ∧ queue_at a (sto w') = queue_at a (sto w) ++ chunks id l.

#[export] Instance delivers_preorder id a : PreOrder (delivers id a).
Proof.
  split.
  - intros w. exists []. by rewrite !app_nil_r.
  - intros w1 w2 w3 (l1&L1&Q1) (l2&L2&Q2). exists (l1 ++ l2).
    unfold chunks. by rewrite L2, L1, Q2, Q1, omap_app, !app_assoc.
Qed.

Lemma delivers_dmod id a f : respects (delivers id a) (dmod f).
Proof. intros w. exists []. by rewrite !app_nil_r. Qed.
Lemma delivers_shared id a {A} (m : ST (Store B) A) :
  respects (same (queue_at a)) m → respects (delivers id a) (shared m).
Proof. intros Hm w. exists []. rewrite !app_nil_r. split; [done|]. apply Hm. Qed.
Lemma delivers_call id a {A} (m : ST C A) ev :
  (∀ x, chunk_of id (ev x) = None) → respects (delivers id a) (call (logged m ev)).
Proof.
  intros Hev w. eexists [_]. split; [reflexivity|]. unfold chunks. simpl.
  by rewrite Hev, app_nil_r.
Qed.
#[local] Hint Resolve delivers_dmod drop_send_state_queue : steps.

Ltac deliver_leaf :=
  idtac; lazymatch goal with
  | |- respects (delivers _ _) (shared _) => apply delivers_shared; solve [store]
  | |- respects _ (call _) => apply delivers_call; intros ?; reflexivity
  end.
Ltac deliver := worker_with deliver_leaf.

Lemma mark_recv_done_delivers id a id' : respects (delivers id a) (mark_recv_done id').
Proof. deliver. Qed.
#[local] Hint Resolve mark_recv_done_delivers : steps.
Lemma reserve_for_read_delivers id a s : respects (delivers id a) (reserve_for_read id s).
Proof. deliver. Qed.

(** ** Reading one chunk *)

Definition chan_open (a : loc) (s : Store B) : Prop :=
  ∃ c, byte_chans s !! a = Some c ∧ cs_rx_open (chan_view c) = true.

Lemma try_reserve_open a (st : Store B) :
  result (bytes_try_reserve a) st = Reserved → chan_open a (exec (bytes_try_reserve a) st).
Proof.
  unfold bytes_try_reserve, at_loc, result, exec, chan_open.
  destruct (byte_chans st !! a) as [c|] eqn:Hc; [|done]. simpl. rewrite chan_try_reserve_res.
  intros Hr. eexists. rewrite list_lookup_insert_eq by by eapply lookup_lt_Some.
  split; [done|]. rewrite chan_try_reserve_view, decide_True by done. simpl.
  unfold view_reserve in Hr. by destruct (cs_rx_open (chan_view c)).
Qed.

Lemma permit_send_queue a b (st : Store B) :
  chan_open a st → queue_at a (exec (bytes_permit_send a b) st) = queue_at a st ++ [b].
Proof.
  intros (c&Hc&Ho). unfold bytes_permit_send, at_loc, exec, queue_at. rewrite Hc. simpl.
  rewrite list_lookup_insert_eq by by eapply lookup_lt_Some. simpl.
  by rewrite chan_permit_send_view.
Qed.

(** A successful reservation holds a slot of an open channel. *)
Lemma reserve_for_read_open id s (w : TW) :
  result (reserve_for_read id s) w = true →
  chan_open (rs_bytes s) (sto (exec (reserve_for_read id s) w)).
Proof.
  unfold reserve_for_read. rewrite exec_bind, result_bind, result_shared, exec_shared.
  destruct (result (bytes_try_reserve _) (sto w)) eqn:Hr.
  - intros _. by apply try_reserve_open.
  - clear Hr. rewrite !exec_bind, !result_bind, !result_shared.
    match goal with |- context [result (bytes_try_reserve _) (sto ?x)] => generalize x end.
    intros w2. destruct (result (bytes_try_reserve _) (sto w2)) eqn:Hr2; [intros _| |].
    + rewrite !exec_bind. apply try_reserve_open in Hr2 as (c&Hc&Ho). exists c. split; [|done].
      rewrite <-Hc, exec_dget, result_dget. by destruct (recv _ !! id).
    + done.
    + by rewrite result_bind.
  - by rewrite result_bind.
Qed.

(** [read_chunk] carves exactly what the transport wrote. *)
Lemma read_chunk_spec id (w : TW) :
  let r := result (stream_recv id (window (default [] (recv_buf (drv w))))) (qc w) in
  let w' := exec (read_chunk id) w in
  sto w' = sto w ∧ recv (drv w') = recv (drv w) ∧
  log w' = log w ++ [CRecv id r.1 (recv_data r)] ∧
  read_budget (drv w') = read_budget (drv w) ∧
  result (read_chunk id) w =
    match r.1 with
    | Ok (len, fin) => Ok (if 0 <? len then Some (recv_data r) else None, fin)
    | Err e => Err e
    end.
Proof.
  intros r w'. subst r w'. unfold read_chunk.
  rewrite exec_bind, result_bind, exec_dget, result_dget, exec_bind, result_bind, result_call.
  set (out := window _). clearbody out.
  assert (log (exec (call (stream_recv id out)) w) = log w ++
    [CRecv id (result (stream_recv id out) (qc w)).1
       (recv_data (result (stream_recv id out) (qc w)))]) as Hl by done.
  set (w1 := exec (call (stream_recv id out)) w) in *.
  assert (sto w1 = sto w ∧ drv w1 = drv w) as [Hs Hd] by done. rewrite <-Hl. clear Hl.
  unfold recv_data. set (r := result (stream_recv id out) (qc w)). clearbody r w1.
  destruct r.1 as [[len fin]|e]; [case_match|]; rewrite exec_bind, result_bind, exec_ret, result_ret;
    simpl; rewrite ?Hd, ?Hs; split_and!; try done.
  by rewrite take_take, Nat.min_id.
Qed.

(** ** Draining *)

(** What follows a read, once its chunk is in the channel. *)
Lemma drain_chunk_delivers id s : respects (delivers id (rs_bytes s)) (drain_chunk id s).
Proof.
  intros w. unfold drain_chunk. rewrite exec_bind, exec_dget, result_dget.
  case_match.
  { by_respects deliver. }
  rewrite exec_bind. pose proof (reserve_for_read_delivers id (rs_bytes s) s w) as Hres.
  pose proof (reserve_for_read_open id s w) as Hopen.
  destruct (result (reserve_for_read id s) w); simpl; [|done]. specialize (Hopen eq_refl).
  etrans; [exact Hres|]. set (w1 := exec (reserve_for_read id s) w) in *. clearbody w1.
  rewrite exec_bind. destruct (read_chunk_spec id w1) as (Hs&_&Hl&_&Hr).
  set (r := result (stream_recv id _) (qc w1)) in *.
  set (w2 := exec (read_chunk id) w1) in *. clearbody w2 r. rewrite Hr. clear Hr.
  destruct r.1 as [[len fin]|e] eqn:Er.
  - destruct (0 <? len) eqn:Hlen.
    + set (w3 := exec (shared (bytes_permit_send (rs_bytes s) (recv_data r))) w2).
      assert (queue_at (rs_bytes s) (sto w3) = queue_at (rs_bytes s) (sto w2) ++ [recv_data r])
        as Hq by (apply permit_send_queue; by rewrite Hs).
      assert (delivers id (rs_bytes s) w1 w3) as Hd.
      { eexists. split; [exact Hl|]. rewrite Hq, Hs. unfold chunks. simpl.
        by rewrite N.eqb_refl, Hlen. }
      etrans; [exact Hd|].
      match goal with |- delivers _ _ _ ?x => change x with
        (exec (dmod (λ d, d <| read_budget ::= λ b, b - 1 |>);;
          (if fin then publish_recv_terminal id RecvFin;; mark_recv_done id;; mret false
           else more ← ask (stream_readable id); mret (true && more))) w3) end.
      by_respects ltac:(destruct fin; deliver).
    + assert (delivers id (rs_bytes s) w1 w2) as Hd.
      { eexists. split; [exact Hl|]. unfold chunks. simpl. rewrite N.eqb_refl, Hlen, Hs.
        by rewrite app_nil_r. }
      etrans; [exact Hd|].
      by_respects ltac:(destruct fin; deliver).
  - assert (delivers id (rs_bytes s) w1 w2) as Hd.
    { eexists. split; [exact Hl|]. unfold chunks. simpl. by rewrite Hs, app_nil_r. }
    etrans; [exact Hd|].
    by_respects deliver.
Qed.
#[local] Hint Resolve drain_chunk_delivers : steps.

Lemma drain_stream_delivers id s (w : TW) :
  recv (drv w) !! id = Some s → delivers id (rs_bytes s) w (exec (drain_stream id) w).
Proof.
  intros Hs. unfold drain_stream. rewrite exec_bind, exec_dget, result_dget, Hs.
  by_respects deliver.
Qed.

(** Receive integrity: draining a stream appends to its byte channel
    exactly the chunks [stream_recv] returned for it, in order and unmodified,
    with nothing dropped on any exit (full channel, budget, reset, error, FIN). *)
Theorem drain_delivers_what_was_read id s (w : TW) :
  recv (drv w) !! id = Some s →
  ∃ l, log (exec (drain_stream id) w) = log w ++ l ∧
       queue_at (rs_bytes s) (sto (exec (drain_stream id) w)) =
         queue_at (rs_bytes s) (sto w) ++ chunks id l.
Proof. apply drain_stream_delivers. Qed.

(** ** The read budget *)

Definition any_chunk (c : Call) : option Bytes :=
  match c with
  | CRecv _ (Ok (len, _)) data => if 0 <? len then Some data else None
  | _ => None
  end.

(** [spends]: each chunk read takes one unit of the budget, and fits the arena
    window. *)
Definition spends : relation TW := λ w w', ∃ l,
  log w' = log w ++ l ∧
  read_budget (drv w') + N.of_nat (length (omap any_chunk l)) = read_budget (drv w) ∧
  Forall (λ b, N.of_nat (length b) ≤ MAX_CHUNK) (omap any_chunk l).

#[export] Instance spends_preorder : PreOrder spends.
Proof.
  split.
  - intros w. exists []. rewrite app_nil_r. simpl. split_and!; [done|lia|constructor].
  - intros w1 w2 w3 (l1&L1&B1&F1) (l2&L2&B2&F2). exists (l1 ++ l2).
    rewrite omap_app, length_app, L2, L1, app_assoc. split_and!; [done|lia|by apply Forall_app].
Qed.

Lemma spends_dmod f : (∀ d, read_budget (f d) = read_budget d) → respects spends (dmod f).
Proof.
  intros Hf w. exists []. rewrite app_nil_r. simpl. rewrite Hf. split_and!; [done|lia|constructor].
Qed.
Lemma spends_shared {A} (m : ST (Store B) A) : respects spends (shared m).
Proof. intros w. exists []. rewrite app_nil_r. simpl. split_and!; [done|lia|constructor]. Qed.
Lemma spends_call {A} (m : ST C A) ev :
  (∀ x, any_chunk (ev x) = None) → respects spends (call (logged m ev)).
Proof.
  intros Hev w. eexists [_]. split; [reflexivity|]. simpl. rewrite Hev. simpl.
  split; [lia|constructor].
Qed.
#[local] Hint Resolve spends_shared : steps.

Ltac spend_leaf :=
  idtac; lazymatch goal with
  | |- respects _ (dmod _) => apply spends_dmod; intros ?; repeat case_match; reflexivity
  | |- respects _ (call _) => apply spends_call; intros ?; reflexivity
  end.
Ltac spend := worker_with spend_leaf.

Lemma window_length buf : N.of_nat (length (window buf)) = MAX_CHUNK.
Proof. unfold window. rewrite length_resize. apply N2Nat.id. Qed.

Lemma recv_data_length id buf (c : C) :
  N.of_nat (length (recv_data (result (stream_recv id (window buf)) c))) ≤ MAX_CHUNK.
Proof.
  rewrite <-(window_length buf), <-(stream_recv_out id (window buf) c). unfold recv_data.
  set (r := result _ c). destruct r.1 as [[len fin]|]; simpl; [|lia]. rewrite length_take. lia.
Qed.

Lemma drain_chunk_spends id s : respects spends (drain_chunk id s).
Proof.
  intros w. unfold drain_chunk. rewrite exec_bind, exec_dget, result_dget.
  case_match eqn:Hb; [by_respects spend|]. apply N.eqb_neq in Hb.
  rewrite exec_bind.
  assert (respects (both spends (same (λ w, read_budget (drv w)))) (reserve_for_read id s))
    as Hres.
  { apply respects_both; [spend|].
    worker_with ltac:(idtac; lazymatch goal with |- respects _ (dmod _) =>
      apply same_dmod; intros ?; repeat case_match; reflexivity end). }
  destruct (Hres w) as [Hres1 Hres2]. unfold same in Hres2.
  case_match; simpl; [done|]. etrans; [exact Hres1|].
  set (w1 := exec (reserve_for_read id s) w) in *. clearbody w1.
  rewrite exec_bind. destruct (read_chunk_spec id w1) as (_&_&Hl&Hbud&Hr).
  pose proof (recv_data_length id (default [] (recv_buf (drv w1))) (inner (qc w1))) as Hlen.
  set (r := result (stream_recv id _) (qc w1)) in *.
  change (result (stream_recv id _) (inner (qc w1))) with r in Hlen.
  set (w2 := exec (read_chunk id) w1) in *. clearbody w2 r. rewrite Hr. clear Hr.
  destruct r.1 as [[len fin]|e] eqn:Er; [destruct (0 <? len) eqn:Hl0|].
  - set (w3 := exec (shared (bytes_permit_send (rs_bytes s) (recv_data r));;
                     dmod (λ d, d <| read_budget ::= λ b, b - 1 |>)) w2).
    assert (spends w1 w3) as Hd.
    { eexists. split; [exact Hl|]. simpl. rewrite Hl0, Hbud, Hres2. simpl.
      split; [lia|]. by apply Forall_singleton. }
    etrans; [exact Hd|].
    match goal with |- spends _ ?x => change x with
      (exec (if fin then publish_recv_terminal id RecvFin;; mark_recv_done id;; mret false
             else more ← ask (stream_readable id); mret (true && more)) w3) end.
    by_respects ltac:(destruct fin; spend).
  - assert (spends w1 w2) as Hd.
    { eexists. split; [exact Hl|]. simpl. rewrite Hl0, Hbud. simpl. split; [lia|constructor]. }
    etrans; [exact Hd|]. by_respects ltac:(destruct fin; spend).
  - assert (spends w1 w2) as Hd.
    { eexists. split; [exact Hl|]. simpl. rewrite Hbud. simpl. split; [lia|constructor]. }
    etrans; [exact Hd|]. by_respects spend.
Qed.
#[local] Hint Resolve drain_chunk_spends : steps.

Lemma drain_stream_spends id : respects spends (drain_stream id).
Proof. spend. Qed.
#[local] Hint Resolve drain_stream_spends : steps.
Lemma admit_one_spends peer : respects spends (admit_one peer).
Proof. spend. Qed.
#[local] Hint Resolve admit_one_spends : steps.
Lemma phase2_loop_spends fuel budget bb ub pb : respects spends (phase2_loop fuel budget bb ub pb).
Proof.
  revert budget bb ub pb. induction fuel; intros; simpl; destruct budget; spend.
Qed.
#[local] Hint Resolve phase2_loop_spends : steps.
Lemma run_read_pump_spends : respects spends run_read_pump.
Proof. spend. Qed.

(** C28.  Bounded work per iteration: however many streams are readable, one
    packet-driven pass of the read pump, through resumed streams, registered
    streams and newly admitted ones together, reads at most [READ_BUDGET] chunks,
    each of at most [MAX_CHUNK] bytes. *)
Theorem read_pump_bounded (w : TW) :
  ∃ l, log (exec do_process_reads w) = log w ++ l ∧
       N.of_nat (length (omap any_chunk l)) ≤ READ_BUDGET ∧
       Forall (λ b, N.of_nat (length b) ≤ MAX_CHUNK) (omap any_chunk l).
Proof.
  unfold do_process_reads. rewrite exec_bind.
  match goal with |- context [exec run_read_pump ?x] =>
    assert (read_budget (drv x) = READ_BUDGET) as Hx by reflexivity;
    destruct (run_read_pump_spends x) as (l&Hl&Hb&Hf) end.
  rewrite Hx in Hb. exists l. split; [exact Hl|]. split; [|exact Hf].
  clear Hl Hf. generalize dependent (length (omap any_chunk l)). intros n Hb.
  rewrite <-Hb. apply N.le_add_l.
Qed.

(** ** Sealing *)

Definition no_recv (id : N) (d : QuicheDriver B) : Prop := recv d !! id = None.

Ltac no_recv_leaf :=
  idtac; lazymatch goal with
  | |- respects _ (dmod _) =>
      apply respects_dmod; intros ? Hn; repeat case_match;
      first [ exact Hn | unfold no_recv in *; simpl; rewrite lookup_delete_None; by auto ]
  end.

(** [mark_recv_done] removes the entry, touches no terminal cell and no queue. *)
Lemma mark_recv_done_seals id (w : TW) : recv (drv (exec (mark_recv_done id) w)) !! id = None.
Proof.
  unfold mark_recv_done. rewrite exec_bind.
  match goal with |- context [exec ?k (exec (recv_remove id) w)] =>
    assert (respects (keeps (on_drv (C := Traced C) (no_recv id))) k) as Hk
      by worker_with no_recv_leaf end.
  apply Hk. unfold recv_remove, on_drv, no_recv. rewrite exec_bind, exec_dget, result_dget, exec_bind.
  destruct (recv (drv w) !! id); apply lookup_delete_eq.
Qed.

Definition cell_at (a : loc) (s : Store B) : option RecvEnd := recv_cells s !! a ≫= tc_value.

Lemma cells_shared {A} a (m : ST (Store B) A) :
  respects (same (cell_at a)) m →
  respects (same (λ w : TW, (cell_at a (sto w), log w))) (shared m).
Proof. intros Hm w. unfold same. simpl. f_equal. apply Hm. Qed.

Lemma mark_recv_done_cells a id :
  respects (same (λ w : TW, (cell_at a (sto w), log w))) (mark_recv_done id).
Proof.
  worker_with ltac:(idtac; lazymatch goal with
    | |- respects _ (dmod _) => intros ?; reflexivity
    | |- respects _ (shared _) => apply cells_shared; store
    end).
Qed.

Lemma recv_cell_set_value a e (s : Store B) c :
  recv_cells s !! a = Some c → cell_at a (exec (recv_cell_set a e) s) = Some (default e (tc_value c)).
Proof.
  intros Hc. unfold recv_cell_set, cell_at. rewrite exec_bind.
  unfold at_loc, exec, result, wake, modify. rewrite Hc. simpl.
  rewrite list_lookup_insert_eq by by eapply lookup_lt_Some. simpl.
  unfold set_cell, tc_set, tc_install. by destruct (tc_value c) eqn:E; simpl.
Qed.

(** Publishing FIN and releasing the entry. *)
Lemma publish_fin_seals id s cell (w : TW) :
  recv (drv w) !! id = Some s → recv_cells (sto w) !! rs_terminal s = Some cell →
  tc_value cell = None →
  let w' := exec (publish_recv_terminal id RecvFin;; mark_recv_done id;; mret false) w in
  cell_at (rs_terminal s) (sto w') = Some RecvFin ∧ recv (drv w') !! id = None ∧ log w' = log w.
Proof.
  intros Hs Hc Hn w'. subst w'. rewrite !exec_bind, exec_ret.
  assert (exec (publish_recv_terminal id RecvFin) w =
          exec (shared (recv_cell_set (rs_terminal s) RecvFin)) w) as ->.
  { unfold publish_recv_terminal. by rewrite exec_bind, exec_dget, result_dget, Hs. }
  set (w1 := exec (shared _) w).
  pose proof (mark_recv_done_cells (rs_terminal s) id w1) as HE.
  pose proof (f_equal fst HE) as HC. pose proof (f_equal snd HE) as HL. cbv beta iota in HC, HL.
  cbn [fst snd] in HC, HL.
  rewrite HC, HL. split; [|split; [apply mark_recv_done_seals|done]].
  change (sto w1) with (exec (recv_cell_set (rs_terminal s) RecvFin) (sto w)).
  by rewrite (recv_cell_set_value _ _ _ _ Hc), Hn.
Qed.

Lemma recv_view_shared {A} (m : ST (Store B) A) :
  respects (same recv_cells) m →
  respects (same (λ w : TW, (recv (drv w), recv_cells (sto w), log w))) (shared m).
Proof. intros Hm w. unfold same. simpl. do 2 f_equal. apply Hm. Qed.

(** The state in which the bytes of a read that returned FIN are delivered. *)
Lemma drain_chunk_fin id s len (w : TW) :
  read_budget (drv w) ≠ 0 →
  result (bytes_try_reserve (rs_bytes s)) (sto w) = Reserved →
  let r := result (stream_recv id (window (default [] (recv_buf (drv w))))) (qc w) in
  r.1 = Ok (len, true) →
  ∃ w3 : TW,
    recv (drv w3) = recv (drv w) ∧ recv_cells (sto w3) = recv_cells (sto w) ∧
    log w3 = log w ++ [CRecv id (Ok (len, true)) (recv_data r)] ∧
    exec (drain_chunk id s) w =
      exec (publish_recv_terminal id RecvFin;; mark_recv_done id;; mret false) w3 ∧
    result (drain_chunk id s) w = false.
Proof.
  intros Hb Hres r Hr.
  set (w1 := exec (shared (bytes_try_reserve (rs_bytes s))) w).
  destruct (read_chunk_spec id w1) as (Hsto&Hrecv&Hlog&_&Hread).
  change (result _ (qc w1)) with r in Hlog, Hread. rewrite Hr in Hread, Hlog.
  set (w2 := exec (read_chunk id) w1) in *.
  set (after := match (if 0 <? len then Some (recv_data r) else None) with
    | Some chunk => shared (bytes_permit_send (rs_bytes s) chunk);;
                    dmod (λ d, d <| read_budget ::= λ b, b - 1 |>)
    | None => shared (bytes_permit_drop (rs_bytes s)) end : ST TW unit).
  exists (exec after w2).
  assert (respects (same (λ w : TW, (recv (drv w), recv_cells (sto w), log w))) after) as Ha.
  { subst after. destruct (0 <? len); worker_with ltac:(idtac; lazymatch goal with
      | |- respects _ (dmod _) => intros ?; reflexivity
      | |- respects _ (shared _) => apply recv_view_shared; store end). }
  specialize (Ha w2).
  pose proof (f_equal (fst ∘ fst) Ha) as Ha1. pose proof (f_equal (snd ∘ fst) Ha) as Ha2.
  pose proof (f_equal snd Ha) as Ha3. cbn [fst snd compose] in Ha1, Ha2, Ha3. rewrite Ha1, Ha2, Ha3, Hlog, Hrecv, Hsto.
  assert (respects (same (@recv_cells _ B)) (bytes_try_reserve (rs_bytes s))) as Hcells by store.
  split; [done|]. split; [apply Hcells|].
  split; [done|].
  assert (exec (reserve_for_read id s) w = w1 ∧ result (reserve_for_read id s) w = true) as [He Ht].
  { unfold reserve_for_read. by rewrite exec_bind, result_bind, result_shared, Hres. }
  unfold drain_chunk. rewrite exec_bind, result_bind, exec_dget, result_dget.
  rewrite (proj2 (N.eqb_neq _ _) Hb). rewrite exec_bind, result_bind, He, Ht. simpl negb. cbv iota.
  rewrite exec_bind, result_bind, Hread. fold w2. cbv iota beta.
  rewrite exec_bind, result_bind. fold after. split; [done|]. by rewrite !result_bind.
Qed.

End deliver.
