(* ===== verification/DriverProgress.v ===== *)
(** * Progress of the worker

    The worker parks only when nothing is runnable, and its loops are bounded by
    the queues they drain. *)

From S2P Require Import Prelude Interfaces Error Buffer Conn DriverTypes DriverStore DriverCore DriverRecv DriverSend Driver DriverLogic DriverInv DriverReach.

Section progress.
Context `{Runtime} {B C : Type} `{!Buf B} `{!QuicConn C}.
Abbreviation W := (World B C).

(** ** Parking *)

(** Nothing is left that an iteration could advance without outside help: no
    command, no readable, resumed or runnable stream; a class with streams
    awaiting admission or promotion is waiting for its accept queue. *)
Record idle (w : W) : Prop := {
  idle_inbox : inbox (drv w) = [];
  idle_resume : pending_resume (drv w) = [];
  idle_readable : pending_readable (drv w) = [];
  idle_runnable : runnable_send (drv w) = [];
  idle_held : has_quiescent_held_write (drv w) = false;
  idle_bidi : pending_admit_bidi (drv w) = [] ∨
              parked_bidi (drv w) ≠ [] ∧ accept_bidi_resume (sto w) = false;
  idle_uni : pending_admit_uni (drv w) = [] ∨
             parked_uni (drv w) ≠ [] ∧ accept_uni_resume (sto w) = false;
  idle_parked_bidi : parked_bidi (drv w) = [] ∨ accept_bidi_resume (sto w) = false;
  idle_parked_uni : parked_uni (drv w) = [] ∨ accept_uni_resume (sto w) = false;
}.

Definition remainder_view (w : W) : bool * bool :=
  (has_runnable_remainder w, needs_iteration (drv w)).

Lemma apply_close_barrier_remainder : respects (same remainder_view) apply_close_barrier.
Proof.
  worker_with ltac:(idtac; lazymatch goal with
    | |- respects _ (dmod _) => intros ?; reflexivity
    | |- respects _ (call _) => intros ?; reflexivity end).
Qed.

Lemma no_remainder (w : W) : has_runnable_remainder w = false →
  pending_resume (drv w) = [] ∧ pending_readable (drv w) = [] ∧ runnable_send (drv w) = [] ∧
  (pending_admit_bidi (drv w) = [] ∨
   parked_bidi (drv w) ≠ [] ∧ accept_bidi_resume (sto w) = false) ∧
  (pending_admit_uni (drv w) = [] ∨
   parked_uni (drv w) ≠ [] ∧ accept_uni_resume (sto w) = false) ∧
  (parked_bidi (drv w) = [] ∨ accept_bidi_resume (sto w) = false) ∧
  (parked_uni (drv w) = [] ∨ accept_uni_resume (sto w) = false).
Proof.
  unfold has_runnable_remainder. cbv zeta. rewrite !orb_false_iff, !andb_false_iff, !negb_false_iff,
    !orb_false_iff, !bool_decide_eq_true, !bool_decide_eq_false. tauto.
Qed.

Lemma remainder_parts (w w' : W) : same remainder_view w w' →
  has_runnable_remainder w' = has_runnable_remainder w ∧
  needs_iteration (drv w') = needs_iteration (drv w).
Proof. intros E. split; [exact (f_equal fst E) | exact (f_equal snd E)]. Qed.

Lemma announce (w : W) :
  let w' := exec announce_remainder w in
  has_runnable_remainder w' = true → needs_iteration (drv w') = true.
Proof.
  simpl. intros Hr. change (has_runnable_remainder w = true) in Hr. rewrite Hr. apply orb_true_r.
Qed.

(** [do_process_writes] leaves no remainder unannounced. *)
Lemma remainder_announced (w : W) :
  let w' := exec do_process_writes w in
  has_runnable_remainder w' = true → needs_iteration (drv w') = true.
Proof.
  intros w'. subst w'. rewrite exec_do_process_writes.
  destruct (remainder_parts _ _ (apply_close_barrier_remainder (exec write_stages w))) as [Hr Hn].
  rewrite Hr, Hn. unfold write_stages. rewrite exec_bind. apply announce.
Qed.

(** C11.  No stranded work: if after an iteration the worker goes to sleep on
    its command channel, then it is idle.  Any resumed, readable, runnable,
    admissible or promotable stream, any queued command and any deferred write
    with nothing behind it makes [wait_for_data] come back by itself. *)
Theorem parks_only_when_idle (w : W) :
  let w' := exec do_process_writes w in
  wait_for_data_start (drv w') = AwaitRecv → idle w'.
Proof.
  intros w'. pose proof (remainder_announced w) as Hrem. fold w' in Hrem. cbv zeta in Hrem.
  clearbody w'. unfold wait_for_data_start, wait_decision.
  destruct (graceful_close_issued (drv w')); [done|].
  destruct (length (inbox (drv w')) =? 0)%nat eqn:Hi; simpl; [|done].
  destruct (needs_iteration (drv w')); [done|]. destruct (has_quiescent_held_write _) eqn:Hq; [done|].
  intros _. destruct (has_runnable_remainder w') eqn:Hr; [by specialize (Hrem eq_refl)|].
  apply no_remainder in Hr as (?&?&?&?&?&?&?).
  apply Nat.eqb_eq, length_zero_iff_nil in Hi. by split.
Qed.

(** ** The admission loop terminates *)

Definition pending_length (d : QuicheDriver B) : nat :=
  length (pending_admit_bidi d) + length (pending_admit_uni d).

Lemma admit_one_pending peer :
  respects (same (λ w : W, (pending_admit_bidi (drv w), pending_admit_uni (drv w)))) (admit_one peer).
Proof.
  worker_with ltac:(idtac; lazymatch goal with
    | |- respects _ (dmod _) => intros ?; unfold same; simpl; repeat case_match; reflexivity
    | |- respects _ (shared _) => intros ?; reflexivity
    | |- respects _ (call _) => intros ?; reflexivity end).
Qed.
Lemma park_pending bidi id peer :
  respects (same (λ w : W, (pending_admit_bidi (drv w), pending_admit_uni (drv w))))
    (park bidi id peer).
Proof.
  worker_with ltac:(idtac; lazymatch goal with |- respects _ (dmod _) => intros ?; reflexivity end).
Qed.

Lemma same_pending_length (w w' : W) :
  same (λ w : W, (pending_admit_bidi (drv w), pending_admit_uni (drv w))) w w' →
  pending_length (drv w') = pending_length (drv w).
Proof. intros [= Hb Hu]. unfold pending_length. by rewrite Hb, Hu. Qed.

(** An iteration always takes an id out of a non-empty queue. *)
Lemma chosen_queue_nonempty (bb ub pb : bool) (qb qu : list N) :
  let bidi_ready := negb bb && negb (bool_decide (qb = [])) in
  let uni_ready := negb ub && negb (bool_decide (qu = [])) in
  negb bidi_ready && negb uni_ready = false →
  (if match bidi_ready, uni_ready with true, true => pb | b, _ => b end then qb else qu) ≠ [].
Proof. destruct bb, ub, pb, qb, qu; simpl; done. Qed.

Lemma phase2_fuel_irrelevant fuel1 fuel2 budget bb ub pb (w : W) :
  (pending_length (drv w) < fuel1)%nat → (pending_length (drv w) < fuel2)%nat →
  exec (phase2_loop fuel1 budget bb ub pb) w = exec (phase2_loop fuel2 budget bb ub pb) w.
Proof.
  revert fuel2 budget bb ub pb w.
  induction fuel1 as [|fuel1 IH]; intros [|fuel2] budget bb ub pb w H1 H2; try lia.
  simpl. destruct budget as [|budget]; [done|].
  rewrite !exec_bind, !exec_dget, !result_dget.
  case_match eqn:Hready; [done|]. apply (chosen_queue_nonempty bb ub pb) in Hready.
  cbv zeta in Hready.
  match goal with |- context [pop_pending ?b] => set (bidi := b) in * end. clearbody bidi.
  rewrite !exec_bind, exec_pop_pending, result_pop_pending.
  set (w1 := w <| drv ::= _ |>).
  assert (pending_length (drv w1) < pending_length (drv w))%nat as Hlt.
  { unfold pending_length, w1. simpl. destruct bidi; simpl in Hready |- *.
    - destruct (pending_admit_bidi (drv w)); [done|]. simpl. lia.
    - destruct (pending_admit_uni (drv w)); [done|]. simpl. lia. }
  destruct (head _) as [id|]; [|apply IH; lia].
  rewrite !exec_bind, !exec_dget, !result_dget.
  set (w2 := exec (dmod (λ d, d <| pending_admit ::= delete id |>)) w1).
  assert (pending_length (drv w2) = pending_length (drv w1)) as H2' by done.
  case_decide; rewrite !exec_bind; fold w2; [apply IH; lia|].
  destruct (pending_admit (id_d (drv w1)) !! id) as [p|]; [|apply IH; lia]. rewrite !exec_bind.
  pose proof (same_pending_length _ _ (admit_one_pending p w2)) as Ha.
  destruct (result (admit_one p) w2) as [|p'|]; [apply IH; lia| |apply IH; lia].
  rewrite !exec_bind.
  pose proof (same_pending_length _ _ (park_pending bidi id p' (exec (admit_one p) w2))) as Hp.
  apply IH; lia.
Qed.

(** C30.  Admission terminates: the source's unbounded [while] consumes one id of
    the two queues per iteration, so running it for as many iterations as there
    are queued ids (as [phase2_admission] does) is running it to the end: any
    larger number of iterations gives the same result. *)
Theorem phase2_admission_terminates (w : W) fuel :
  (pending_length (drv w) < fuel)%nat →
  exec phase2_admission w = exec (phase2_loop fuel ADMIT_BUDGET false false true) w.
Proof.
  intros Hf. unfold phase2_admission. rewrite exec_bind, exec_dget, result_dget.
  apply phase2_fuel_irrelevant; [|done]. unfold pending_length, id_d. lia.
Qed.
End progress.
