(* ===== verification/DriverTeardown.v ===== *)
(** * Terminals and teardown

    Published terminals never change, and [on_conn_close] settles everything: every
    cell carries a terminal, every pending operation and command is resolved,
    and nothing can be queued any more. *)

From S2P Require Import Prelude Interfaces Error Buffer Conn DriverTypes DriverStore DriverCore DriverRecv DriverSend Driver DriverLogic StoreLogic DriverReach DriverRecvBytes.

(** Walk through a store operation down to the objects it changes. *)
Ltac settle_leaf :=
  idtac; lazymatch goal with
  | |- respects _ (at_loc _ _ _ _) => apply at_loc_settles; intros; reflexivity
  | |- respects _ (alloc _ _) => apply alloc_settles; intros; reflexivity
  | |- respects _ (conn_cell_set _ _) => apply conn_cell_set_settles
  | |- respects _ (modify _) => apply modify_settles; intros; reflexivity
  | |- respects _ cmd_upgrade =>
      intros ?; apply settles_same; unfold exec, cmd_upgrade; case_match; reflexivity
  | |- respects _ (λ _, _) => intros ?; apply settles_same; reflexivity
  | |- respects _ cmd_try_recv => intros ?; apply settles_same; reflexivity
  | |- respects _ accept_bidi_try_reserve => intros ?; apply settles_same; reflexivity
  | |- respects _ accept_uni_try_reserve => intros ?; apply settles_same; reflexivity
  end.
Ltac settle := worker_with settle_leaf.

Section store_ops.
Context `{Runtime} {B : Type}.

Lemma release_permit_settles p : respects (settles (B := B)) (release_permit p).
Proof. settle. Qed.
#[local] Hint Resolve release_permit_settles : steps.
Lemma op_complete_settles op r : respects (settles (B := B)) (op_complete op r).
Proof. settle. Qed.
Lemma drop_send_op_settles op : respects (settles (B := B)) (drop_send_op op).
Proof. settle. Qed.
Lemma drop_command_settles cmd : respects (settles (B := B)) (drop_command cmd).
Proof. settle. Qed.
#[local] Hint Resolve op_complete_settles drop_send_op_settles drop_command_settles : steps.
Lemma cmd_send_settles cmd : respects (settles (B := B)) (cmd_send cmd).
Proof. settle. Qed.
#[local] Hint Resolve cmd_send_settles : steps.
Lemma drop_bidi_handoff_settles h : respects (settles (B := B)) (drop_bidi_handoff h).
Proof. settle. Qed.
Lemma drop_send_handoff_settles h : respects (settles (B := B)) (drop_send_handoff h).
Proof. settle. Qed.
Lemma complete_command_on_close_settles cmd t :
  respects (settles (B := B)) (complete_command_on_close cmd t).
Proof. settle. Qed.
End store_ops.
#[export] Hint Resolve release_permit_settles op_complete_settles drop_send_op_settles
  drop_command_settles cmd_send_settles drop_bidi_handoff_settles drop_send_handoff_settles
  complete_command_on_close_settles : steps.

Section teardown.
Context `{Runtime} {B C : Type} `{!Buf B} `{!QuicConn C}.
Abbreviation W := (World B C).

Abbreviation Settles := (on_part (@sto _ B C) settles).

Lemma Settles_dmod f : respects Settles (dmod f).
Proof. intros w. by apply settles_same. Qed.
Lemma Settles_call {A} (m : ST C A) : respects Settles (call m).
Proof. intros w. by apply settles_same. Qed.
Lemma Settles_shared {A} (m : ST (Store B) A) : respects settles m → respects Settles (shared m).
Proof. intros Hm w. apply Hm. Qed.
#[local] Hint Resolve Settles_dmod Settles_call : steps.

Ltac settles_leaf :=
  idtac; lazymatch goal with
  | |- respects _ (shared _) => apply Settles_shared; solve [settle]
  end.
Ltac settling := worker_with settles_leaf.

Lemma mark_recv_done_settles id : respects Settles (mark_recv_done id).
Proof. settling. Qed.
#[local] Hint Resolve mark_recv_done_settles : steps.
Lemma drain_stream_settles id : respects Settles (drain_stream id).
Proof. settling. Qed.
#[local] Hint Resolve drain_stream_settles : steps.
Lemma admit_one_settles peer : respects Settles (admit_one peer).
Proof. settling. Qed.
#[local] Hint Resolve admit_one_settles : steps.
Lemma phase2_loop_settles fuel budget bb ub pb : respects Settles (phase2_loop fuel budget bb ub pb).
Proof.
  revert budget bb ub pb. induction fuel; intros; simpl; destruct budget; settling.
Qed.
#[local] Hint Resolve phase2_loop_settles : steps.
Lemma run_read_pump_settles : respects Settles run_read_pump.
Proof. settling. Qed.
Lemma open_bidi_loop_settles n : respects Settles (open_bidi_loop n).
Proof. induction n; simpl; settling. Qed.
Lemma open_uni_loop_settles n : respects Settles (open_uni_loop n).
Proof. induction n; simpl; settling. Qed.
Lemma send_terminal_transition_settles id e : respects Settles (send_terminal_transition id e).
Proof. settling. Qed.
Lemma close_drain_loop_settles n t : respects Settles (close_drain_loop n t).
Proof. induction n; simpl; settling. Qed.
#[local] Hint Resolve run_read_pump_settles open_bidi_loop_settles open_uni_loop_settles
  send_terminal_transition_settles close_drain_loop_settles : steps.
Lemma service_send_turn_settles id : respects Settles (service_send_turn id).
Proof. settling. Qed.
#[local] Hint Resolve service_send_turn_settles : steps.

Lemma worker_turn_settles w w' : worker_turn w w' → Settles w w'.
Proof. apply worker_turn_respects; intros; settling. Qed.

(** Terminals are sticky: whatever callback runs, a connection, accept,
    receive or send terminal that has been published keeps its first value, and
    a write generation that has been completed keeps its outcome. *)
Theorem worker_keeps_terminals w w' : worker_turn w w' → settles (sto w) (sto w').
Proof. apply worker_turn_settles. Qed.

(** ** Publication *)

Lemma close_publish_settles t : respects Settles (close_publish t).
Proof. settling. Qed.
Lemma close_sends_settles t : respects Settles (close_sends t).
Proof. settling. Qed.
Lemma close_commands_settles t : respects Settles (close_commands t).
Proof. settling. Qed.
Lemma close_opens_settles t : respects Settles (close_opens t).
Proof. settling. Qed.

Lemma respects_fills_recv a e :
  respects (on_part (λ w : W, recv_cells (sto w)) (fills e))
    (shared (recv_cell_set a e)).
Proof.
  intros w. change (fills e (recv_cells (sto w)) (recv_cells (exec (recv_cell_set a e) (sto w)))).
  rewrite recv_cell_set_cells. apply fills_insert.
Qed.
Lemma respects_fills_send a e :
  respects (on_part (λ w : W, send_cells (sto w)) (fills e))
    (shared (send_cell_set a e)).
Proof.
  intros w. change (fills e (send_cells (sto w)) (send_cells (exec (send_cell_set a e) (sto w)))).
  rewrite send_cell_set_cells. apply fills_insert.
Qed.

Lemma hash_values {A} (m : gmap N A) id x : m !! id = Some x → x ∈ (hash_iter m).*2.
Proof.
  intros Hx. apply list_elem_of_fmap. exists (id, x). split; [done|]. by apply elem_of_hash_iter.
Qed.

(** Every live receive half sees the terminal, unless it already had one. *)
Lemma publish_recv_all t (w : W) rs s :
  s ∈ rs →
  filled (RecvConn t) (recv_cells (sto w)) (rs_terminal s)
    (recv_cells (sto (exec (for_each rs (λ s, shared (recv_cell_set (rs_terminal s) (RecvConn t)))) w))).
Proof.
  intros Hs.
  apply (for_each_establishes (on_part (λ w : W, recv_cells (sto w)) (fills (RecvConn t)))
    (λ w' : W, fills (RecvConn t) (recv_cells (sto w)) (recv_cells (sto w')))
    (λ s (w' : W), filled (RecvConn t) (recv_cells (sto w)) (rs_terminal s) (recv_cells (sto w')))); try done.
  - intros s'. apply respects_fills_recv.
  - intros w1 w2 H12 H1. by etrans; [exact H1 | exact H12].
  - intros s' w1 w2 H12. by apply filled_fills.
  - intros s' w1 H1.
    match goal with |- context [sto (exec (shared ?m) w1)] =>
      change (sto (exec (shared m) w1)) with (exec m (sto w1)) end.
    rewrite recv_cell_set_cells. by apply filled_insert.
Qed.
Lemma publish_send_all t (w : W) (ss : list (StreamSendState B)) s :
  s ∈ ss →
  filled (SendConn t) (send_cells (sto w)) (status s)
    (send_cells (sto (exec (for_each ss (λ s, shared (send_cell_set (status s) (SendConn t)))) w))).
Proof.
  intros Hs.
  apply (for_each_establishes (on_part (λ w : W, send_cells (sto w)) (fills (SendConn t)))
    (λ w' : W, fills (SendConn t) (send_cells (sto w)) (send_cells (sto w')))
    (λ s (w' : W), filled (SendConn t) (send_cells (sto w)) (status s) (send_cells (sto w')))); try done.
  - intros s'. apply respects_fills_send.
  - intros w1 w2 H12 H1. by etrans; [exact H1 | exact H12].
  - intros s' w1 w2 H12. by apply filled_fills.
  - intros s' w1 H1.
    match goal with |- context [sto (exec (shared ?m) w1)] =>
      change (sto (exec (shared m) w1)) with (exec m (sto w1)) end.
    rewrite send_cell_set_cells. by apply filled_insert.
Qed.

(** ** Replies *)

(** The oneshot [a] of the starting heap has been answered. *)
Definition replied {A} (h0 : list (oneshot A)) (a : loc) (h : list (oneshot A)) : Prop :=
  ∀ o, h0 !! a = Some o → ∃ o', h !! a = Some o' ∧ answered o' = Some tt.

Lemma replied_grows {A} (h0 : list (oneshot A)) a h h' :
  grows answered h h' → replied h0 a h → replied h0 a h'.
Proof.
  intros Hg Hr o Ho. destruct (Hr o Ho) as (o'&Ho'&Ha). destruct (Hg a o' Ho') as (o''&?&?). eauto.
Qed.
Lemma replied_send {A} (h0 : list (oneshot A)) a h (v : A) :
  grows answered h0 h →
  replied h0 a (match h !! a with Some o => <[a := (os_send v o).2]> h | None => h end).
Proof.
  intros Hg o Ho. destruct (Hg a o Ho) as (o'&Ho'&_). rewrite Ho'.
  eexists. rewrite list_lookup_insert_eq by by eapply lookup_lt_Some.
  split; [done|]. apply os_send_answers.
Qed.

(** What an operation, or a command, waits for has come. *)
Definition op_resolved (s0 : Store B) (op : SendOp B) (s : Store B) : Prop :=
  match op with
  | OpWrite _ k _ => resolved k s
  | OpFinish a => replied (finish_replies s0) a (finish_replies s)
  end.
Definition cmd_resolved (s0 : Store B) (cmd : DriverCommand B) (s : Store B) : Prop :=
  match cmd with
  | Send _ _ k _ => resolved k s
  | Finish _ a => replied (finish_replies s0) a (finish_replies s)
  | OpenBidi a => replied (bidi_replies s0) a (bidi_replies s)
  | OpenUni a => replied (uni_replies s0) a (uni_replies s)
  | _ => True
  end.

Lemma op_resolved_settles s0 op s s' : settles s s' → op_resolved s0 op s → op_resolved s0 op s'.
Proof.
  intros Hs. destruct op; simpl; [by apply resolved_settles | apply replied_grows, Hs].
Qed.
Lemma cmd_resolved_settles s0 cmd s s' :
  settles s s' → cmd_resolved s0 cmd s → cmd_resolved s0 cmd s'.
Proof.
  intros Hs. destruct cmd; simpl; try done;
    [apply replied_grows, Hs | apply replied_grows, Hs | by apply resolved_settles
    | apply replied_grows, Hs].
Qed.

Lemma finish_send_replies s0 a r (s : Store B) :
  settles s0 s → replied (finish_replies s0) a (finish_replies (exec (finish_send a r) s)).
Proof.
  intros [_ _ Hf _ _]. unfold finish_send, at_loc, exec.
  pose proof (replied_send _ a _ r Hf) as Hr. by destruct (finish_replies s !! a).
Qed.
Lemma bidi_reply_send_replies s0 a r (s : Store B) :
  settles s0 s → replied (bidi_replies s0) a (bidi_replies (exec (bidi_reply_send a r) s)).
Proof.
  intros [_ _ _ Hf _]. unfold bidi_reply_send, at_loc, exec.
  pose proof (replied_send _ a _ r Hf) as Hr. by destruct (bidi_replies s !! a).
Qed.
Lemma uni_reply_send_replies s0 a r (s : Store B) :
  settles s0 s → replied (uni_replies s0) a (uni_replies (exec (uni_reply_send a r) s)).
Proof.
  intros [_ _ _ _ Hf]. unfold uni_reply_send, at_loc, exec.
  pose proof (replied_send _ a _ r Hf) as Hr. by destruct (uni_replies s !! a).
Qed.

Lemma op_complete_resolves s0 op r s : settles s0 s → op_resolved s0 op (exec (op_complete op r) s).
Proof.
  intros Hs. destruct op as [buf k permit|a]; simpl.
  - rewrite exec_bind. eapply resolved_settles; [apply release_permit_settles|].
    apply complete_write_resolves.
  - rewrite exec_bind. by apply finish_send_replies.
Qed.
Lemma complete_command_resolves s0 cmd t s :
  settles s0 s → cmd_resolved s0 cmd (exec (complete_command_on_close cmd t) s).
Proof.
  intros Hs. destruct cmd; simpl; try done; rewrite exec_bind.
  - by apply bidi_reply_send_replies.
  - by apply uni_reply_send_replies.
  - eapply resolved_settles; [apply release_permit_settles|]. apply complete_write_resolves.
  - by apply finish_send_replies.
Qed.

(** ** The command backlog *)

Lemma complete_command_backlog cmd t :
  respects (same (backlog (B := B) (C := C))) (shared (complete_command_on_close cmd t)).
Proof.
  assert (respects (same (@cmd_chan _ B)) (complete_command_on_close cmd t)) as Hm by store.
  intros w. unfold same, backlog.
  change (sto (exec (shared (complete_command_on_close cmd t)) w))
    with (exec (complete_command_on_close cmd t) (sto w)).
  by rewrite (Hm (sto w)).
Qed.

(** The drain stops only when the backlog is empty, having resolved it all. *)
Lemma close_drain_loop_resolves s0 fuel t (w : W) :
  settles s0 (sto w) → (length (backlog w) < fuel)%nat →
  let w' := exec (close_drain_loop fuel t) w in
  backlog w' = [] ∧ ∀ cmd, cmd ∈ backlog w → cmd_resolved s0 cmd (sto w').
Proof.
  revert w. induction fuel as [|fuel IH]; intros w Hs Hlen; [lia|]. simpl.
  rewrite exec_bind. destruct (next_command_backlog w) as [-> Hb].
  assert (settles s0 (sto (exec next_command w))) as Hs1.
  { etrans; [exact Hs|]. assert (respects Settles next_command) as Hn by settling. apply Hn. }
  destruct (backlog w) as [|cmd q]; simpl in *.
  { split; [done|]. by intros cmd ?%elem_of_nil. }
  rewrite exec_bind. set (w1 := exec next_command w) in *.
  set (w2 := exec (shared (complete_command_on_close cmd t)) w1).
  assert (backlog w2 = q) as Hb2 by by rewrite (complete_command_backlog cmd t w1 : backlog w2 = _).
  assert (settles (sto w1) (sto w2)) as Hs12 by apply complete_command_on_close_settles.
  destruct (IH w2) as [He Hres]; [by etrans | rewrite Hb2; lia|].
  split; [exact He|]. intros cmd' [->|Hin]%elem_of_cons; [|apply Hres; by rewrite Hb2].
  eapply cmd_resolved_settles; [apply (close_drain_loop_settles fuel t w2)|].
  by apply complete_command_resolves.
Qed.

(** ** The whole funnel *)

Definition teardown_terminal (w : W) : ConnTerminal := classify_conn_terminal (drv w) (qc w).

Lemma do_on_conn_close_split w :
  let t := teardown_terminal w in
  exec do_on_conn_close w =
  exec (close_opens t) (exec (close_commands t) (exec (close_sends t) (exec (close_publish t) w))).
Proof. unfold do_on_conn_close. by rewrite !exec_bind. Qed.

(** What each part leaves to the others. *)
Lemma close_publish_drv t (w : W) : drv (exec (close_publish t) w) = drv w.
Proof.
  assert (respects (same (@drv _ B C)) (close_publish t)) as Hm; [|apply Hm].
  worker_with ltac:(idtac; lazymatch goal with
    |- respects _ (shared _) => intros ?; reflexivity end).
Qed.
Lemma close_sends_drv t (w : W) :
  drv (exec (close_sends t) w) = drv w <| send ::= fmap (seal_send_state t) |>.
Proof.
  unfold close_sends. rewrite exec_bind, exec_dget, result_dget, !exec_bind.
  set (ss := (hash_iter (send (drv w))).*2). clearbody ss.
  assert (∀ {A} (l : list A) (f : A → ST (Store B) unit) (w : W),
    drv (exec (for_each l (λ x, shared (f x))) w) = drv w) as Hf.
  { intros A l f. induction l as [|x l IH]; intros w'; [done|]. simpl. rewrite exec_bind, IH. reflexivity. }
  rewrite Hf, exec_dmod. simpl. by rewrite Hf.
Qed.

(** The cells only [close_publish] touches; and what the drains leave alone. *)
Definition store_cells (s : Store B) :=
  (conn_terminal s, accept_terminal_bidi s, accept_terminal_uni s, recv_cells s, send_cells s).
Definition quiet_cells (w : W) := (store_cells (sto w)).1.
Definition rest_cells (w : W) := (store_cells (sto w), send (drv w)).

Lemma rest_cells_shared {A} (m : ST (Store B) A) :
  respects (same store_cells) m → respects (same rest_cells) (shared m).
Proof. intros Hm w. exact (f_equal (λ x, (x, send (drv w))) (Hm (sto w))). Qed.
Lemma quiet_cells_shared {A} (m : ST (Store B) A) :
  respects (same (λ s, (store_cells s).1)) m → respects (same quiet_cells) (shared m).
Proof. intros Hm w. exact (Hm (sto w)). Qed.

Ltac cells_leaf :=
  idtac; lazymatch goal with
  | |- respects _ (dmod _) => intros ?; reflexivity
  | |- respects (same rest_cells) (shared _) => apply rest_cells_shared; solve [store]
  | |- respects (same quiet_cells) (shared _) => apply quiet_cells_shared; solve [store]
  end.

Lemma close_publish_conn t (w : W) : let w' := exec (close_publish t) w in
  tc_value (conn_terminal (sto w')) = Some (default t (tc_value (conn_terminal (sto w)))) ∧
  tc_value (accept_terminal_bidi (sto w')) = Some (default t (tc_value (accept_terminal_bidi (sto w)))) ∧
  tc_value (accept_terminal_uni (sto w')) = Some (default t (tc_value (accept_terminal_uni (sto w)))).
Proof.
  intros w'. unfold w', close_publish.
  rewrite exec_bind, exec_bind, exec_bind, exec_bind, exec_dget, result_dget.
  match goal with |- context [for_each ?l _] => generalize l; intros rs end.
  match goal with |- context [exec (for_each ?l ?f) ?w0] =>
    assert (respects (same (λ w : W, (conn_terminal (sto w), accept_terminal_bidi (sto w),
      accept_terminal_uni (sto w)))) (for_each l f)) as Hl end.
  { worker_with ltac:(idtac; lazymatch goal with |- respects _ (shared _) =>
      intros ?; unfold recv_cell_set, at_loc, same, exec; simpl; case_match; reflexivity end). }
  match goal with |- context [exec (for_each ?l ?f) ?w0] => specialize (Hl w0) end.
  unfold same in Hl. injection Hl as -> -> ->. simpl. rewrite !tc_set_value. done.
Qed.
Lemma close_publish_recv t (w : W) id s : recv (drv w) !! id = Some s →
  filled (RecvConn t) (recv_cells (sto w)) (rs_terminal s)
    (recv_cells (sto (exec (close_publish t) w))).
Proof.
  intros Hs. unfold close_publish.
  rewrite exec_bind, exec_bind, exec_bind, exec_bind, exec_dget, result_dget.
  match goal with |- context [exec (for_each ?l ?f) ?w0] =>
    change (recv_cells (sto w)) with (recv_cells (sto w0)) end.
  apply publish_recv_all. by eapply hash_values.
Qed.
Lemma close_publish_send_cells t : respects (same (λ w : W, send_cells (sto w))) (close_publish t).
Proof.
  worker_with ltac:(idtac; lazymatch goal with |- respects _ (shared ?m) =>
    let Hm := fresh in assert (respects (same (@send_cells _ B)) m) as Hm by store;
    intros ?; apply Hm end).
Qed.
Lemma close_sends_quiet t : respects (same quiet_cells) (close_sends t).
Proof. worker_with cells_leaf. Qed.
Lemma close_sends_send t (w : W) id s : send (drv w) !! id = Some s →
  filled (SendConn t) (send_cells (sto w)) (status s)
    (send_cells (sto (exec (close_sends t) w))).
Proof.
  intros Hs. unfold close_sends. rewrite exec_bind, exec_dget, result_dget, exec_bind, exec_bind.
  match goal with |- context [exec (for_each ?l ?f) ?w0] =>
    lazymatch l with mjoin _ =>
      assert (respects (same (λ w : W, send_cells (sto w))) (for_each l f)) as Hl;
        [|pose proof (Hl w0) as Hw] end end.
  { worker_with ltac:(idtac; lazymatch goal with |- respects _ (shared ?m) =>
      let Hm := fresh in assert (respects (same (@send_cells _ B)) m) as Hm by store;
      intros ?; apply Hm end). }
  unfold same in Hw. rewrite Hw. apply publish_send_all. by eapply hash_values.
Qed.
Lemma close_commands_quiet t : respects (same rest_cells) (close_commands t).
Proof.
  assert (∀ n, respects (same rest_cells) (close_drain_loop n t)).
  { induction n; simpl; worker_with cells_leaf. }
  worker_with ltac:(idtac; first [solve [auto] | cells_leaf]).
Qed.
Lemma close_opens_quiet t : respects (same rest_cells) (close_opens t).
Proof. worker_with cells_leaf. Qed.

(** C8.  Teardown publishes one terminal everywhere: the connection cell, both
    accept cells, every live receive half and every live send half end up with a
    terminal, the classified one unless they already had theirs; every send half
    is sealed with no operation and no deferred bytes. *)
Theorem teardown_publishes (w : W) :
  let t := teardown_terminal w in
  let w' := exec do_on_conn_close w in
  (∀ id s, recv (drv w) !! id = Some s →
     filled (RecvConn t) (recv_cells (sto w)) (rs_terminal s) (recv_cells (sto w'))) ∧
  (∀ id s, send (drv w) !! id = Some s →
     filled (SendConn t) (send_cells (sto w)) (status s) (send_cells (sto w'))) ∧
  send (drv w') = seal_send_state t <$> send (drv w) ∧
  tc_value (conn_terminal (sto w')) = Some (default t (tc_value (conn_terminal (sto w)))) ∧
  tc_value (accept_terminal_bidi (sto w')) = Some (default t (tc_value (accept_terminal_bidi (sto w)))) ∧
  tc_value (accept_terminal_uni (sto w')) = Some (default t (tc_value (accept_terminal_uni (sto w)))).
Proof.
  intros t w'. assert (w' = exec (close_opens t) (exec (close_commands t)
    (exec (close_sends t) (exec (close_publish t) w)))) as -> by apply do_on_conn_close_split.
  pose proof (close_publish_drv t w) as Hd1.
  pose proof (close_publish_conn t w) as (Hc1&Hb1&Hu1).
  pose proof (close_publish_recv t w) as Hr1.
  pose proof (close_publish_send_cells t w : send_cells _ = _) as Hs1.
  set (w1 := exec (close_publish t) w) in *. clearbody w1.
  pose proof (close_sends_drv t w1) as Hd2.
  pose proof (close_sends_quiet t w1 : quiet_cells _ = _) as Hq2.
  pose proof (close_sends_send t w1) as Hs2.
  set (w2 := exec (close_sends t) w1) in *. clearbody w2.
  pose proof (close_commands_quiet t w2 : _ = _) as Hq3.
  set (w3 := exec (close_commands t) w2) in *. clearbody w3.
  pose proof (close_opens_quiet t w3 : _ = _) as Hq4.
  set (w4 := exec (close_opens t) w3) in *. clearbody w4.
  unfold rest_cells, store_cells in *. rewrite Hq3 in Hq4. injection Hq4 as E1 E2 E3 E4 E5 E6.
  unfold quiet_cells, store_cells in Hq2. injection Hq2 as F1 F2 F3 F4.
  rewrite E1, E2, E3, E4, E5, E6, F1, F2, F3, F4, Hd2, Hd1.
  rewrite Hd1, Hs1 in Hs2. split_and!; done.
Qed.
(** ** Everything pending is resolved *)

Lemma close_sends_resolves s0 t (w : W) id s op :
  settles s0 (sto w) → send (drv w) !! id = Some s → op ∈ send_ops s →
  op_resolved s0 op (sto (exec (close_sends t) w)).
Proof.
  intros Hs0 Hs Hop. unfold close_sends. rewrite exec_bind, exec_dget, result_dget, exec_bind, exec_bind.
  apply (for_each_establishes Settles (λ w, settles s0 (sto w)) (λ op w, op_resolved s0 op (sto w))).
  - intros op'. settling.
  - intros w1 w2 H12 H1. etrans; [exact H1 | exact H12].
  - intros op' w1 w2. apply op_resolved_settles.
  - intros op' w1 H1. by apply op_complete_resolves.
  - change (settles s0 (sto (exec (for_each (hash_iter (send (drv w))).*2
      (λ s, shared (send_cell_set (status s) (SendConn t)))) w))).
    etrans; [exact Hs0|].
    match goal with |- context [exec ?m w] => assert (respects Settles m) as Hm; [settling | apply Hm] end.
  - apply list_elem_of_join. exists (send_ops s). split; [done|].
    apply list_elem_of_fmap. exists s. split; [done|]. by eapply hash_values.
Qed.

Ltac same_drv :=
  worker_with ltac:(idtac; lazymatch goal with |- respects _ (shared _) => intros ?; reflexivity end).

Lemma reply_bidi_all s0 t (w : W) l :
  settles s0 (sto w) →
  let w' := exec (for_each l (λ reply, shared (bidi_reply_send reply (Err t));; skip)) w in
  (∀ a, a ∈ l → replied (bidi_replies s0) a (bidi_replies (sto w'))) ∧
  drv w' = drv w ∧ settles (sto w) (sto w').
Proof.
  intros Hs0 w'. split_and!.
  - intros a Ha. apply (for_each_establishes Settles (λ w, settles s0 (sto w))
      (λ a w, replied (bidi_replies s0) a (bidi_replies (sto w)))); try done.
    + intros a'. settling.
    + intros w1 w2 H12 H1. etrans; [exact H1 | exact H12].
    + intros a' w1 w2 H12. apply replied_grows, H12.
    + intros a' w1 H1. by apply bidi_reply_send_replies.
  - assert (respects (same (@drv _ B C))
      (for_each l (λ reply, shared (bidi_reply_send reply (Err t));; skip))) as Hm by same_drv. apply Hm.
  - assert (respects Settles
      (for_each l (λ reply, shared (bidi_reply_send reply (Err t));; skip))) as Hm by settling. apply Hm.
Qed.
Lemma reply_uni_all s0 t (w : W) l :
  settles s0 (sto w) →
  let w' := exec (for_each l (λ reply, shared (uni_reply_send reply (Err t));; skip)) w in
  (∀ a, a ∈ l → replied (uni_replies s0) a (uni_replies (sto w'))) ∧
  drv w' = drv w ∧ settles (sto w) (sto w').
Proof.
  intros Hs0 w'. split_and!.
  - intros a Ha. apply (for_each_establishes Settles (λ w, settles s0 (sto w))
      (λ a w, replied (uni_replies s0) a (uni_replies (sto w)))); try done.
    + intros a'. settling.
    + intros w1 w2 H12 H1. etrans; [exact H1 | exact H12].
    + intros a' w1 w2 H12. apply replied_grows, H12.
    + intros a' w1 H1. by apply uni_reply_send_replies.
  - assert (respects (same (@drv _ B C))
      (for_each l (λ reply, shared (uni_reply_send reply (Err t));; skip))) as Hm by same_drv. apply Hm.
  - assert (respects Settles
      (for_each l (λ reply, shared (uni_reply_send reply (Err t));; skip))) as Hm by settling. apply Hm.
Qed.

(** What is queued for the worker, and whether more can be. *)
Definition ingress (w : W) : list (DriverCommand B) * bool :=
  (backlog w, cs_rx_open (chan_view (cmd_chan (sto w)))).

Lemma same_ingress_shared {T A} (f : list (DriverCommand B) * bool → T) (m : ST (Store B) A) :
  respects (same (@cmd_chan _ B)) m → respects (same (λ w : W, f (ingress w))) (shared m).
Proof.
  intros Hm w. unfold same, ingress, backlog.
  change (sto (exec (shared m) w)) with (exec m (sto w)). by rewrite (Hm (sto w)).
Qed.
Ltac ingress_leaf :=
  idtac; lazymatch goal with
  | |- respects _ (dmod _) => intros ?; reflexivity
  | |- respects (same ingress) (shared _) => apply (same_ingress_shared id); solve [store]
  | |- respects _ (shared _) => apply (same_ingress_shared fst); solve [store]
  end.
Ltac closed_leaf :=
  idtac; lazymatch goal with
  | |- respects _ (shared cmd_try_recv) =>
      intros ?; unfold same, ingress, cmd_try_recv, exec; simpl; by rewrite chan_try_recv_view
  | |- respects _ (dmod _) => intros ?; reflexivity
  | |- respects _ (shared _) => apply (same_ingress_shared snd); solve [store]
  end.

Lemma close_opens_resolves s0 t (w : W) :
  settles s0 (sto w) → let w' := exec (close_opens t) w in
  (∀ a, a ∈ open_bidi (drv w) → replied (bidi_replies s0) a (bidi_replies (sto w'))) ∧
  (∀ a, a ∈ open_uni (drv w) → replied (uni_replies s0) a (uni_replies (sto w'))) ∧
  open_bidi (drv w') = [] ∧ open_uni (drv w') = [].
Proof.
  intros Hs0 w'. unfold w', close_opens.
  rewrite exec_bind, exec_dget, result_dget, exec_bind, exec_dmod, exec_bind, exec_bind, exec_dget,
    result_dget, exec_bind, exec_dmod.
  set (w1 := w <| drv ::= _ |>). assert (settles s0 (sto w1)) as Hs1 by exact Hs0.
  assert (open_bidi (drv w1) = [] ∧ open_uni (drv w1) = open_uni (drv w)) as [Hb1 Hu1] by done.
  clearbody w1.
  pose proof (reply_bidi_all s0 t w1 (open_bidi (drv w)) Hs1) as (Hr2&Hd2&Hs2).
  set (w2 := exec (for_each _ _) w1) in *. clearbody w2. rewrite Hd2, Hu1.
  set (w3 := w2 <| drv ::= _ |>).
  assert (settles s0 (sto w3)) as Hs3 by (etrans; [exact Hs1 | exact Hs2]).
  assert (sto w3 = sto w2 ∧ open_bidi (drv w3) = [] ∧ open_uni (drv w3) = []) as (E3&Hb3&Hu3).
  { split_and!; [done| |done]. change (open_bidi (drv w2) = []). by rewrite Hd2. }
  clearbody w3.
  pose proof (reply_uni_all s0 t w3 (open_uni (drv w)) Hs3) as (Hr4&Hd4&Hs4).
  set (w4 := exec (for_each _ _) w3) in *. clearbody w4. rewrite Hd4.
  split_and!; [|done..]. intros a Ha. eapply replied_grows; [apply Hs4|]. rewrite E3. by apply Hr2.
Qed.

Lemma close_backlog t :
  respects (same (backlog (B := B) (C := C))) (close_publish t) ∧ respects (same (backlog (B := B) (C := C))) (close_sends t) ∧
  respects (same ingress) (close_opens t).
Proof. split_and!; worker_with ingress_leaf. Qed.

Lemma close_commands_resolves s0 t (w : W) :
  settles s0 (sto w) → let w' := exec (close_commands t) w in
  (∀ cmd, cmd ∈ backlog w → cmd_resolved s0 cmd (sto w')) ∧ ingress w' = ([], false).
Proof.
  intros Hs0 w'. unfold w', close_commands. rewrite exec_bind, exec_bind, exec_gets, result_gets.
  set (w1 := exec (shared cmd_close) w).
  assert (backlog w1 = backlog w ∧ settles s0 (sto w1) ∧ snd (ingress w1) = false) as (Hb&Hs1&Hc).
  { split_and!; [|by etrans; [exact Hs0 | apply settles_same]|];
      unfold w1, ingress, backlog, exec; simpl; by rewrite chan_close_view. }
  clearbody w1. rewrite <-length_app. fold (backlog w1).
  destruct (close_drain_loop_resolves s0 (Datatypes.S (length (backlog w1))) t w1 Hs1) as [He Hr]; [lia|].
  rewrite <-Hb. split; [exact Hr|].
  assert (respects (same (λ w, snd (ingress w))) (close_drain_loop (Datatypes.S (length (backlog w1))) t)) as Hm.
  { generalize (Datatypes.S (length (backlog w1))). induction n; simpl; worker_with closed_leaf. }
  rewrite (surjective_pairing (ingress _)). f_equal; [exact He|]. rewrite <-Hc. apply Hm.
Qed.

Lemma close_opens_drv_opens t (w : W) :
  open_bidi (drv (exec (close_commands t) w)) = open_bidi (drv w) ∧
  open_uni (drv (exec (close_commands t) w)) = open_uni (drv w).
Proof.
  assert (respects (same (λ w : W, (open_bidi (drv w), open_uni (drv w)))) (close_commands t)) as Hm;
    [|by injection (Hm w)].
  assert (∀ n, respects (same (λ w : W, (open_bidi (drv w), open_uni (drv w)))) (close_drain_loop n t)).
  { induction n; simpl; worker_with ltac:(idtac; lazymatch goal with
      | |- respects _ (shared _) => intros ?; reflexivity
      | |- respects _ (dmod _) => intros ?; reflexivity end). }
  worker_with ltac:(idtac; first [solve [auto] | lazymatch goal with
    | |- respects _ (shared _) => intros ?; reflexivity end]).
Qed.

(** C7.  Teardown resolves everything that waits: every operation queued on a
    send half, every command still in the inbox or the channel and every staged
    open gets its answer (a completion, never a bare cancel), both queues and the
    staged opens end up empty, and the closed channel takes no more commands. *)
Theorem teardown_resolves (w : W) :
  let w' := exec do_on_conn_close w in
  (∀ id s op, send (drv w) !! id = Some s → op ∈ send_ops s → op_resolved (sto w) op (sto w')) ∧
  (∀ cmd, cmd ∈ backlog w → cmd_resolved (sto w) cmd (sto w')) ∧
  (∀ a, a ∈ open_bidi (drv w) → replied (bidi_replies (sto w)) a (bidi_replies (sto w'))) ∧
  (∀ a, a ∈ open_uni (drv w) → replied (uni_replies (sto w)) a (uni_replies (sto w'))) ∧
  ingress w' = ([], false) ∧ open_bidi (drv w') = [] ∧ open_uni (drv w') = [].
Proof.
  intros w'. set (t := teardown_terminal w).
  assert (w' = exec (close_opens t) (exec (close_commands t)
    (exec (close_sends t) (exec (close_publish t) w)))) as -> by apply do_on_conn_close_split.
  destruct (close_backlog t) as (B1&B2&B4). specialize (B1 w).
  pose proof (close_publish_settles t w : settles _ _) as S1.
  pose proof (close_publish_drv t w) as D1.
  set (w1 := exec (close_publish t) w) in *. clearbody w1. specialize (B2 w1).
  pose proof (close_sends_settles t w1 : settles _ _) as S2.
  pose proof (close_sends_drv t w1) as D2.
  pose proof (λ id s op, close_sends_resolves (sto w) t w1 id s op S1) as R2. rewrite D1 in R2, D2.
  set (w2 := exec (close_sends t) w1) in *. clearbody w2.
  assert (settles (sto w) (sto w2)) as S02 by by etrans.
  pose proof (close_commands_settles t w2 : settles _ _) as S3.
  pose proof (close_commands_resolves (sto w) t w2 S02) as [R3 I3].
  pose proof (close_opens_drv_opens t w2) as [D3 D3'].
  set (w3 := exec (close_commands t) w2) in *. clearbody w3. specialize (B4 w3).
  pose proof (close_opens_settles t w3 : settles _ _) as S4.
  pose proof (close_opens_resolves (sto w) t w3) as (R4&R4'&E4&E4'); [by etrans|].
  rewrite D3, D2 in R4. rewrite D3', D2 in R4'. unfold same in B1, B2, B4. rewrite B2, B1 in R3.
  set (w4 := exec (close_opens t) w3) in *. clearbody w4. split_and!.
  - intros id s op Hs Hop. eapply op_resolved_settles; [|by eapply R2]. by etrans.
  - intros cmd Hc. eapply cmd_resolved_settles; [exact S4|]. by apply R3.
  - exact R4.
  - exact R4'.
  - by rewrite B4.
  - exact E4.
  - exact E4'.
Qed.
End teardown.
