(* ===== verification/Stream.v ===== *)
(** * The front end (stream.rs)

    The objects h3 polls.  A method is a function of the object and the shared
    store; it returns its result with the object as it left it.  [cx] is the
    polling task's waker. *)

From S2P Require Import Prelude Interfaces Error Buffer Conn DriverTypes DriverStore.

Section stream.
Context `{Runtime} {B : Type} `{!Buf B}.
Abbreviation F := (ST (Store B)).

Definition conn_terminal_stream_err (t : ConnTerminal) : h3_stream_error :=
  StreamConnectionError (conn_to_h3 t).

(** [TerminalCell::poll] and [get] through an address. *)
Definition recv_cell_poll (a : loc) (cx : Waker) : F (Poll RecvEnd) :=
  at_loc recv_cells a Pending (tc_poll cx).
Definition recv_cell_get (a : loc) (s : Store B) : option RecvEnd :=
  recv_cells s !! a ≫= tc_get.
Definition send_cell_poll (a : loc) (cx : Waker) : F (Poll SendEnd) :=
  at_loc send_cells a Pending (tc_poll cx).
Definition send_cell_get (a : loc) (s : Store B) : option SendEnd :=
  send_cells s !! a ≫= tc_get.

(** ** Receive half *)

Record H3RecvStream := mkH3RecvStream {
  fr_id : N;
  fr_bytes : loc;
  fr_terminal : loc;
  fr_resume : loc;
  fr_blocked : loc;
  fr_terminal_seen : bool;
  fr_stop_sent : bool;
}.

#[export] Instance H3RecvStream_eta : Eta H3RecvStream := λ r,
  mkH3RecvStream (fr_id r) (fr_bytes r) (fr_terminal r) (fr_resume r) (fr_blocked r)
    (fr_terminal_seen r) (fr_stop_sent r).
#[export] Instance set_fr_terminal_seen : Setter fr_terminal_seen.
Proof. derive_setter. Defined.
#[export] Instance set_fr_stop_sent : Setter fr_stop_sent.
Proof. derive_setter. Defined.

Definition recv_from_handoff (h : RecvHandoff) : F H3RecvStream :=
  cleanup_disarm (rh_cleanup h);;
  mret (mkH3RecvStream (rh_id h) (rh_bytes h) (rh_terminal h) (rh_resume h) (rh_blocked h)
          false false).

Definition signal_resume (r : H3RecvStream) : F unit :=
  b ← flag_swap (fr_blocked r) false;
  if b : bool then
    old ← flag_swap (fr_resume r) true;
    if old : bool then skip else cmd_send (RecvResume (fr_id r));; skip
  else skip.

Abbreviation DataResult := (Poll (Result (option Bytes) h3_stream_error)).

Definition resolve_terminal (r : H3RecvStream) (end_ : RecvEnd) : DataResult * H3RecvStream :=
  (match recv_to_h3 end_ with
   | None => Ready (Ok None)
   | Some err => Ready (Err err)
   end, r <| fr_terminal_seen := true |>).

Definition recv_closed_error : string := "recv byte channel closed without a published terminal".

Definition poll_data (cx : Waker) (r : H3RecvStream) : F (DataResult * H3RecvStream) :=
  p ← bytes_poll_recv (fr_bytes r) cx;
  match p with
  | Ready (Some b) => signal_resume r;; mret (Ready (Ok (Some b)), r)
  | Ready None =>
      t ← recv_cell_poll (fr_terminal r) cx;
      match t with
      | Ready end_ => mret (resolve_terminal r end_)
      | Pending => mret (Ready (Err (internal_stream_error recv_closed_error)), r)
      end
  | Pending =>
      t ← recv_cell_poll (fr_terminal r) cx;
      match t with
      | Ready end_ =>
          p ← bytes_poll_recv (fr_bytes r) cx;
          match p with
          | Ready (Some b) => signal_resume r;; mret (Ready (Ok (Some b)), r)
          | _ => mret (resolve_terminal r end_)
          end
      | Pending => mret (Pending, r)
      end
  end.

Definition stop_sending (code : N) (r : H3RecvStream) : F H3RecvStream :=
  cmd_send (StopSending (fr_id r) code);;
  mret (r <| fr_stop_sent := true |>).

(** [Drop for H3RecvStream], then the byte receiver and the sender. *)
Definition recv_stream_drop (r : H3RecvStream) : F unit :=
  t ← gets (recv_cell_get (fr_terminal r));
  (if fr_stop_sent r || fr_terminal_seen r || bool_decide (is_Some t) then skip
   else cmd_send (StopSending (fr_id r) 0);; skip);;
  bytes_drop_rx (fr_bytes r);;
  cmd_drop_tx.

(** ** Send half *)

Record H3SendStream := mkH3SendStream {
  fs_id : N;
  fs_status : loc;
  fs_stash : option B;
  fs_write_completion : loc;
  fs_send_gen : option N;
  fs_finish_completion : option loc;
  fs_finish_result : option (Result unit SendEnd);
  fs_finalized : bool;
  fs_local_terminal : option SendEnd;
}.

#[export] Instance H3SendStream_eta : Eta H3SendStream := λ r,
  mkH3SendStream (fs_id r) (fs_status r) (fs_stash r) (fs_write_completion r) (fs_send_gen r)
    (fs_finish_completion r) (fs_finish_result r) (fs_finalized r) (fs_local_terminal r).
#[export] Instance set_fs_stash : Setter fs_stash.
Proof. derive_setter. Defined.
#[export] Instance set_fs_send_gen : Setter fs_send_gen.
Proof. derive_setter. Defined.
#[export] Instance set_fs_finish_completion : Setter fs_finish_completion.
Proof. derive_setter. Defined.
#[export] Instance set_fs_finish_result : Setter fs_finish_result.
Proof. derive_setter. Defined.
#[export] Instance set_fs_finalized : Setter fs_finalized.
Proof. derive_setter. Defined.
#[export] Instance set_fs_local_terminal : Setter fs_local_terminal.
Proof. derive_setter. Defined.

Definition send_from_handoff (h : SendHandoff) : F H3SendStream :=
  cleanup_disarm (sh_cleanup h);;
  cell ← alloc write_cells wc_new;
  mret (mkH3SendStream (sh_id h) (sh_status h) None cell None None None false None).

Definition terminal_now (cx : Waker) (r : H3SendStream) : F (option SendEnd) :=
  match fs_local_terminal r with
  | Some end_ => mret (Some end_)
  | None =>
      p ← send_cell_poll (fs_status r) cx;
      mret (match p with Ready end_ => Some end_ | Pending => None end)
  end.

Definition terminal_now_noctx (r : H3SendStream) (s : Store B) : option SendEnd :=
  match fs_local_terminal r with
  | Some end_ => Some end_
  | None => send_cell_get (fs_status r) s
  end.

Definition sticky_or_internal (cx : Waker) (r : H3SendStream) (msg : string)
    : F h3_stream_error :=
  t ← terminal_now cx r;
  mret (match t with Some end_ => send_to_h3 end_ | None => internal_stream_error msg end).

Definition sticky_send_end_or_internal (cx : Waker) (r : H3SendStream) (msg : string)
    : F SendEnd :=
  t ← terminal_now cx r;
  mret (default (SendConn (Internal msg)) t).

Definition resolve_write (cx : Waker) (r : H3SendStream) (outcome : WriteOutcome SendEnd)
    : F (Result unit h3_stream_error) :=
  match outcome with
  | WriteDone result => mret (map_err send_to_h3 result)
  | WriteCancelled =>
      e ← sticky_or_internal cx r "send completion cancelled without a terminal";
      mret (Err e)
  end.

Abbreviation UnitResult := (Poll (Result unit h3_stream_error)).

(** Poll the in-flight write of [generation]. *)
Definition poll_write (cx : Waker) (generation : N) (r : H3SendStream)
    : F (UnitResult * H3SendStream) :=
  p ← at_loc write_cells (fs_write_completion r) Pending (wc_poll generation cx);
  match p with
  | Ready outcome =>
      let r := r <| fs_send_gen := None |> in
      res ← resolve_write cx r outcome;
      mret (Ready res, r)
  | Pending => mret (Pending, r)
  end.

Definition acct {A} (f : SendAccounting → A * SendAccounting) : F A :=
  λ s, let r := f (send_accounting s) in (r.1, s <| send_accounting := r.2 |>).

(** Reserve the write's bytes; over the cap, register before checking again. *)
Definition reserve_bytes (cx : Waker) (id : N) (bytes : N) : F (option SendBytesPermit) :=
  p ← acct (sa_try_reserve bytes);
  match p with
  | Some p => mret (Some p)
  | None =>
      acct (λ a, (tt, sa_register_waiter id cx a));;
      acct (sa_try_reserve bytes)
  end.

(** Enqueue the stashed write as one [Send] and poll its completion. *)
Definition submit_write (cx : Waker) (buf : B) (permit : SendBytesPermit) (r : H3SendStream)
    : F (UnitResult * H3SendStream) :=
  acct (λ a, (tt, sa_unregister_waiter (fs_id r) a));;
  generation ← at_loc write_cells (fs_write_completion r) 0 wc_begin;
  let done := wc_completer (fs_write_completion r) generation in
  ok ← cmd_send (Send (fs_id r) buf done (Some permit));
  if negb ok then
    e ← sticky_or_internal cx r "send channel closed without a terminal";
    mret (Ready (Err e), r)
  else poll_write cx generation (r <| fs_send_gen := Some generation |>).

Definition poll_ready (cx : Waker) (r : H3SendStream) : F (UnitResult * H3SendStream) :=
  match fs_send_gen r with
  | Some generation => poll_write cx generation r
  | None =>
      t ← terminal_now cx r;
      match t with
      | Some end_ => mret (Ready (Err (send_to_h3 end_)), r)
      | None =>
          match fs_stash r with
          | None => mret (Ready (Ok tt), r)
          | Some buf =>
              let r := r <| fs_stash := None |> in
              p ← reserve_bytes cx (fs_id r) (buf_remaining buf);
              match p with
              | None => mret (Pending, r <| fs_stash := Some buf |>)
              | Some permit => submit_write cx buf permit r
              end
          end
      end
  end.

Definition double_send_error : string :=
  "send_data called while a previous write is still pending poll_ready".

Definition send_data (data : B) (r : H3SendStream)
    : Result unit h3_stream_error * H3SendStream :=
  match fs_stash r with
  | Some _ => (Err (internal_stream_error double_send_error), r)
  | None => (Ok tt, r <| fs_stash := Some data |>)
  end.

Definition finish_poll (a : loc) (cx : Waker) : F (Poll (option (Result unit SendEnd))) :=
  at_loc finish_replies a (Ready None) (os_poll cx).

Definition finish_cancelled : string := "finish completion cancelled without a terminal".

(** Poll the in-flight finish and retain its outcome. *)
Definition poll_finish_completion (cx : Waker) (a : loc) (r : H3SendStream)
    : F (UnitResult * H3SendStream) :=
  p ← finish_poll a cx;
  match p with
  | Ready (Some result) =>
      mret (Ready (map_err send_to_h3 result),
            r <| fs_finish_completion := None |> <| fs_finish_result := Some result |>)
  | Ready None =>
      let r := r <| fs_finish_completion := None |> in
      e ← sticky_send_end_or_internal cx r finish_cancelled;
      mret (Ready (Err (send_to_h3 e)), r <| fs_finish_result := Some (Err e) |>)
  | Pending => mret (Pending, r)
  end.

Definition poll_finish (cx : Waker) (r : H3SendStream) : F (UnitResult * H3SendStream) :=
  match fs_finish_result r with
  | Some result => mret (Ready (map_err send_to_h3 result), r)
  | None =>
      match fs_finish_completion r with
      | Some a => poll_finish_completion cx a r
      | None =>
          t ← terminal_now cx r;
          if fs_finalized r then
            mret (Ready (match t with Some e => Err (send_to_h3 e) | None => Ok tt end), r)
          else
            let r := r <| fs_finalized := true |> in
            match t with
            | Some e =>
                mret (Ready (Err (send_to_h3 e)), r <| fs_finish_result := Some (Err e) |>)
            | None =>
                done ← alloc finish_replies os_new;
                ok ← cmd_send (Finish (fs_id r) done);
                if negb ok then
                  e ← sticky_send_end_or_internal cx r
                        "finish channel closed without a terminal";
                  mret (Ready (Err (send_to_h3 e)), r <| fs_finish_result := Some (Err e) |>)
                else
                  poll_finish_completion cx done (r <| fs_finish_completion := Some done |>)
            end
      end
  end.

Definition reset (code : N) (r : H3SendStream) : F H3SendStream :=
  if fs_finalized r then mret r
  else
    t ← gets (send_cell_get (fs_status r));
    cmd_send (Reset (fs_id r) code);;
    let r := r <| fs_finalized := true |> in
    mret (match t with
          | None => r <| fs_local_terminal := Some (SendReset code) |>
          | Some _ => r
          end).

(** [Drop for H3SendStream], then its sender and an unread finish receiver. *)
Definition send_stream_drop (r : H3SendStream) : F unit :=
  acct (λ a, (tt, sa_unregister_waiter (fs_id r) a));;
  t ← gets (terminal_now_noctx r);
  (if fs_finalized r || bool_decide (is_Some t) then skip
   else
     done ← alloc finish_replies os_new;
     cmd_send (Finish (fs_id r) done);;
     at_loc finish_replies done tt (λ o, (tt, (os_drop_rx o).2)));;
  cmd_drop_tx;;
  for_some (fs_finish_completion r)
    (λ a, at_loc finish_replies a tt (λ o, (tt, (os_drop_rx o).2))).

(** ** Bidirectional stream *)

Record H3Stream := mkH3Stream { fb_send : H3SendStream; fb_recv : H3RecvStream }.

Definition bidi_from_handoff (h : BidiHandoff) : F H3Stream :=
  s ← send_from_handoff (bh_send h);
  r ← recv_from_handoff (bh_recv h);
  mret (mkH3Stream s r).

Definition split (b : H3Stream) : H3SendStream * H3RecvStream := (fb_send b, fb_recv b).

(** ** Stream opener *)

Record StreamOpener := mkStreamOpener {
  so_pending_bidi : option loc;
  so_pending_uni : option loc;
}.

Definition opener_new : StreamOpener := mkStreamOpener None None.

(** [Clone for StreamOpener]: fresh pending slots. *)
Definition opener_clone (o : StreamOpener) : F StreamOpener :=
  cmd_clone_tx;; mret (mkStreamOpener None None).

Definition submit_terminal (s : Store B) : h3_stream_error :=
  match tc_get (conn_terminal s) with
  | Some t => conn_terminal_stream_err t
  | None => internal_stream_error "open declined without a published terminal"
  end.

Definition poll_pending_bidi (cx : Waker) (a : loc) (o : StreamOpener)
    : F (Poll (Result H3Stream h3_stream_error) * StreamOpener) :=
  p ← at_loc bidi_replies a (Ready None) (os_poll cx);
  let cleared := mkStreamOpener None (so_pending_uni o) in
  match p with
  | Ready (Some (Ok h)) => b ← bidi_from_handoff h; mret (Ready (Ok b), cleared)
  | Ready (Some (Err t)) => mret (Ready (Err (conn_terminal_stream_err t)), cleared)
  | Ready None => e ← gets submit_terminal; mret (Ready (Err e), cleared)
  | Pending => mret (Pending, o)
  end.

Definition poll_open_bidi (cx : Waker) (o : StreamOpener)
    : F (Poll (Result H3Stream h3_stream_error) * StreamOpener) :=
  match so_pending_bidi o with
  | Some a => poll_pending_bidi cx a o
  | None =>
      t ← gets (λ s, tc_get (conn_terminal s));
      match t with
      | Some t => mret (Ready (Err (conn_terminal_stream_err t)), o)
      | None =>
          a ← alloc bidi_replies os_new;
          ok ← cmd_send (OpenBidi a);
          if negb ok then e ← gets submit_terminal; mret (Ready (Err e), o)
          else poll_pending_bidi cx a (mkStreamOpener (Some a) (so_pending_uni o))
      end
  end.

Definition poll_pending_uni (cx : Waker) (a : loc) (o : StreamOpener)
    : F (Poll (Result H3SendStream h3_stream_error) * StreamOpener) :=
  p ← at_loc uni_replies a (Ready None) (os_poll cx);
  let cleared := mkStreamOpener (so_pending_bidi o) None in
  match p with
  | Ready (Some (Ok h)) => b ← send_from_handoff h; mret (Ready (Ok b), cleared)
  | Ready (Some (Err t)) => mret (Ready (Err (conn_terminal_stream_err t)), cleared)
  | Ready None => e ← gets submit_terminal; mret (Ready (Err e), cleared)
  | Pending => mret (Pending, o)
  end.

Definition poll_open_send (cx : Waker) (o : StreamOpener)
    : F (Poll (Result H3SendStream h3_stream_error) * StreamOpener) :=
  match so_pending_uni o with
  | Some a => poll_pending_uni cx a o
  | None =>
      t ← gets (λ s, tc_get (conn_terminal s));
      match t with
      | Some t => mret (Ready (Err (conn_terminal_stream_err t)), o)
      | None =>
          a ← alloc uni_replies os_new;
          ok ← cmd_send (OpenUni a);
          if negb ok then e ← gets submit_terminal; mret (Ready (Err e), o)
          else poll_pending_uni cx a (mkStreamOpener (so_pending_bidi o) (Some a))
      end
  end.

Definition opener_close (code : N) (reason : Bytes) : F unit :=
  cmd_send (Close code reason);; skip.

(** Dropping an opener: its sender, then pending receivers with any handoff
    already delivered into them. *)
Definition opener_drop (o : StreamOpener) : F unit :=
  cmd_drop_tx;;
  for_some (so_pending_bidi o) (λ a,
    v ← at_loc bidi_replies a None os_drop_rx;
    match v with Some (Ok h) => drop_bidi_handoff h | _ => skip end);;
  for_some (so_pending_uni o) (λ a,
    v ← at_loc uni_replies a None os_drop_rx;
    match v with Some (Ok h) => drop_send_handoff h | _ => skip end).

(** ** Connection *)

Definition signal_accept_bidi_resume : F unit :=
  old ← gets accept_bidi_resume;
  modify (λ s, s <| accept_bidi_resume := true |>);;
  if old : bool then skip else cmd_send AcceptBidiResume;; skip.
Definition signal_accept_uni_resume : F unit :=
  old ← gets accept_uni_resume;
  modify (λ s, s <| accept_uni_resume := true |>);;
  if old : bool then skip else cmd_send AcceptUniResume;; skip.

Definition accept_bidi_poll (cx : Waker) : F (Poll (option BidiHandoff)) :=
  λ s, let r := chan_poll_recv cx (accept_bidi_chan s) in (r.1, s <| accept_bidi_chan := r.2 |>).
Definition accept_uni_poll (cx : Waker) : F (Poll (option RecvHandoff)) :=
  λ s, let r := chan_poll_recv cx (accept_uni_chan s) in (r.1, s <| accept_uni_chan := r.2 |>).
Definition conn_cell_poll (cell : Store B → TerminalCell ConnTerminal) `{!Setter cell}
    (cx : Waker) : F (Poll ConnTerminal) :=
  λ s, let r := tc_poll cx (cell s) in (r.1, s <| cell := r.2 |>).

Definition poll_accept_recv (cx : Waker) : F (Poll (Result H3RecvStream h3_conn_error)) :=
  p ← accept_uni_poll cx;
  match p with
  | Ready (Some h) => signal_accept_uni_resume;; r ← recv_from_handoff h; mret (Ready (Ok r))
  | Ready None =>
      t ← conn_cell_poll accept_terminal_uni cx;
      mret (Ready (Err (match t with
                        | Ready t => conn_to_h3 t
                        | Pending => InternalError
                            "uni accept channel closed without a published terminal"
                        end)))
  | Pending =>
      t ← conn_cell_poll accept_terminal_uni cx;
      match t with
      | Ready t =>
          p ← accept_uni_poll cx;
          match p with
          | Ready (Some h) =>
              signal_accept_uni_resume;; r ← recv_from_handoff h; mret (Ready (Ok r))
          | _ => mret (Ready (Err (conn_to_h3 t)))
          end
      | Pending => mret Pending
      end
  end.

Definition poll_accept_bidi (cx : Waker) : F (Poll (Result H3Stream h3_conn_error)) :=
  p ← accept_bidi_poll cx;
  match p with
  | Ready (Some h) => signal_accept_bidi_resume;; r ← bidi_from_handoff h; mret (Ready (Ok r))
  | Ready None =>
      t ← conn_cell_poll accept_terminal_bidi cx;
      mret (Ready (Err (match t with
                        | Ready t => conn_to_h3 t
                        | Pending => InternalError
                            "bidi accept channel closed without a published terminal"
                        end)))
  | Pending =>
      t ← conn_cell_poll accept_terminal_bidi cx;
      match t with
      | Ready t =>
          p ← accept_bidi_poll cx;
          match p with
          | Ready (Some h) =>
              signal_accept_bidi_resume;; r ← bidi_from_handoff h; mret (Ready (Ok r))
          | _ => mret (Ready (Err (conn_to_h3 t)))
          end
      | Pending => mret Pending
      end
  end.

Definition accept_bidi_drop_rx : F (list BidiHandoff) :=
  λ s, let r := chan_drop_rx (accept_bidi_chan s) in (r.1, s <| accept_bidi_chan := r.2 |>).
Definition accept_uni_drop_rx : F (list RecvHandoff) :=
  λ s, let r := chan_drop_rx (accept_uni_chan s) in (r.1, s <| accept_uni_chan := r.2 |>).

(** [Drop for Connection], then its accept receivers, with the handoffs still
    queued in them, and its opener. *)
Definition connection_drop (opener : StreamOpener) : F unit :=
  cmd_send ConnectionDropped;;
  hs ← accept_bidi_drop_rx;
  for_each hs drop_bidi_handoff;;
  us ← accept_uni_drop_rx;
  for_each us drop_recv_handoff;;
  opener_drop opener.

Definition established_poll (cx : Waker) : F (Poll (option (Result unit SetupFailure))) :=
  λ s, let r := os_poll cx (established_reply s) in (r.1, s <| established_reply := r.2 |>).

(** The front end's share of a connection, dropped before it became a
    [Connection]: the accept receivers and the command sender. *)
Definition drop_handles : F unit :=
  us ← accept_uni_drop_rx;
  for_each us drop_recv_handoff;;
  hs ← accept_bidi_drop_rx;
  for_each hs drop_bidi_handoff;;
  cmd_drop_tx.

(** [DriverHandles::into_established_connection], once its oneshot is polled:
    the connection's opener, or why setup failed, and then the handles are
    dropped. *)
Definition into_established_connection (cx : Waker)
    : F (Poll (Result StreamOpener SetupFailure)) :=
  p ← established_poll cx;
  match p with
  | Pending => mret Pending
  | Ready (Some (Ok _)) => mret (Ready (Ok opener_new))
  | Ready (Some (Err e)) => drop_handles;; mret (Ready (Err e))
  | Ready None => drop_handles;; mret (Ready (Err PreHandshakeWorkerExit))
  end.
End stream.
