(* ===== verification/StreamLogic.v ===== *)
(** * What the front end guarantees (stream.rs)

    The halves h3 polls: a receive half hands over everything that was queued, in
    order, before its terminal; a send half submits its writes in order, one at a
    time, and finalizes its stream at most once.  The worker and the other
    handles may do anything between two calls. *)

From S2P Require Import Prelude Interfaces Error Buffer Conn DriverTypes DriverStore DriverCore DriverLogic StoreLogic DriverRecvBytes Stream.

(** ** The commands a front-end call sends *)

Section sends.
Context `{Runtime} {B : Type}.
Abbreviation S := (Store B).
Abbreviation Cmd := (DriverCommand B).

Definition cmd_queue (s : S) : list Cmd := cs_queue (chan_view (cmd_chan s)).
Definition cmd_open (s : S) : bool := cs_rx_open (chan_view (cmd_chan s)).

(** From [s] to [s'] the commands [l] were sent, and arrived unless the worker
    has closed the channel. *)
Definition emits (l : list Cmd) (s s' : S) : Prop :=
  cmd_queue s' = cmd_queue s ++ (if cmd_open s then l else []) ∧ cmd_open s' = cmd_open s.

Lemma emits_nil s : emits [] s s.
Proof. unfold emits. by destruct (cmd_open s); rewrite app_nil_r. Qed.
Lemma emits_app l1 l2 s1 s2 s3 : emits l1 s1 s2 → emits l2 s2 s3 → emits (l1 ++ l2) s1 s3.
Proof.
  intros [Q1 O1] [Q2 O2]. unfold emits. rewrite Q2, O2, O1, Q1.
  destruct (cmd_open s1); rewrite <-?app_assoc; done.
Qed.
Lemma emits_same s s' : cmd_chan s' = cmd_chan s → emits [] s s'.
Proof. intros Hc. unfold emits, cmd_queue, cmd_open. rewrite Hc. apply emits_nil. Qed.

(** [sends m Q]: [m] sends commands [l] and returns [a] with [Q l a]. *)
Definition sends {A} (m : ST S A) (Q : list Cmd → A → Prop) : Prop :=
  ∀ s, ∃ l, emits l s (exec m s) ∧ Q l (result m s).

Lemma sends_mono {A} (m : ST S A) (Q Q' : list Cmd → A → Prop) :
  (∀ l a, Q l a → Q' l a) → sends m Q → sends m Q'.
Proof. intros HQ Hm s. destruct (Hm s) as (l&?&?). eauto. Qed.
Lemma sends_ret {A} (a : A) (Q : list Cmd → A → Prop) : Q [] a → sends (mret a) Q.
Proof. intros HQ s. exists []. split; [apply emits_nil | done]. Qed.
Lemma sends_bind {A A'} (m : ST S A) (k : A → ST S A') Q :
  sends m (λ l a, sends (k a) (λ l' b, Q (l ++ l') b)) → sends (m ≫= k) Q.
Proof.
  intros Hm s. destruct (Hm s) as (l&He&Hk). destruct (Hk (exec m s)) as (l'&He'&HQ).
  exists (l ++ l'). rewrite exec_bind, result_bind. split; [by eapply emits_app | done].
Qed.
Lemma sends_quiet {A} (m : ST S A) (Q : list Cmd → A → Prop) :
  respects (same cmd_chan) m → (∀ s, Q [] (result m s)) → sends m Q.
Proof. intros Hm HQ s. exists []. split; [apply emits_same, Hm | apply HQ]. Qed.
Lemma sends_cmd cmd (Q : list Cmd → bool → Prop) : (∀ b, Q [cmd] b) → sends (cmd_send cmd) Q.
Proof.
  intros HQ s. exists [cmd]. split; [|apply HQ]. unfold cmd_send. rewrite exec_bind, exec_bind, exec_ret.
  set (s1 := exec (λ s, let r := chan_send cmd (cmd_chan s) in _) s).
  assert (emits [cmd] s s1) as Hs1.
  { unfold s1, emits, cmd_queue, cmd_open, exec. simpl. rewrite chan_send_view.
    destruct (cs_rx_open _) eqn:Ho; simpl; rewrite ?Ho, ?app_nil_r; done. }
  destruct (result _ s); [done|]. rewrite <-(app_nil_r [cmd]). eapply emits_app; [exact Hs1|].
  apply emits_same. assert (respects (same (@cmd_chan _ B)) (drop_command cmd)) as Hd by store. apply Hd.
Qed.
Lemma cmd_send_emits cmd s : emits [cmd] s (exec (cmd_send cmd) s).
Proof. destruct (sends_cmd cmd (λ l _, l = [cmd]) (λ _, eq_refl) s) as (l&He&->). exact He. Qed.
Lemma sends_drop_tx (Q : list Cmd → unit → Prop) : Q [] tt → sends cmd_drop_tx Q.
Proof.
  intros HQ s. exists []. split; [|done]. unfold emits, cmd_queue, cmd_open, cmd_drop_tx. rewrite exec_modify.
  simpl. rewrite chan_drop_tx_view. simpl. by destruct (cs_rx_open _); rewrite app_nil_r.
Qed.
End sends.

Ltac sends_step :=
  first
    [ apply sends_bind
    | apply sends_ret
    | apply sends_cmd; intros ?
    | lazymatch goal with
      | |- sends (match ?x with _ => _ end) _ => destruct x eqn:?
      | |- sends skip _ => apply sends_ret
      end
    | apply sends_quiet; [solve [store] | intros ?] ].

(** ** One send half *)

Section send_half.
Context `{Runtime} {B : Type} `{!Buf B}.
Abbreviation R := (H3SendStream (B := B)).
Abbreviation Cmd := (DriverCommand B).

(** No write is in flight, the stashed buffer goes out as one [Send] with its
    bytes reserved. *)
Definition submits (r : R) (buf : B) (l : list Cmd) (r' : R) : Prop :=
  ∃ k p, fs_send_gen r = None ∧ fs_stash r = Some buf ∧ fs_stash r' = None ∧
    l = [Send (fs_id r) buf k (Some p)] ∧ permit_bytes p = buf_remaining buf.

Definition same_half (r r' : R) : Prop :=
  fs_id r' = fs_id r ∧ fs_finalized r' = fs_finalized r.

Lemma reserve_bytes_permit cx id n (s : Store B) p :
  result (reserve_bytes cx id n) s = Some p → permit_bytes p = n.
Proof.
  unfold reserve_bytes. rewrite result_bind.
  assert (∀ (s : Store B) p, result (acct (sa_try_reserve n)) s = Some p → permit_bytes p = n) as Ha.
  { intros s' p'. unfold acct, result, sa_try_reserve. simpl. case_match; simpl; by intros [= <-]. }
  destruct (result (acct (sa_try_reserve n)) s) eqn:Hr; [|rewrite result_bind; apply Ha].
  rewrite result_ret. intros [= <-]. by eapply Ha.
Qed.

Lemma poll_write_sends cx g (r : R) :
  sends (poll_write cx g r) (λ l x, l = [] ∧ fs_stash x.2 = fs_stash r ∧ same_half r x.2).
Proof. unfold poll_write, resolve_write, sticky_or_internal, terminal_now, same_half. repeat sends_step; done. Qed.

Lemma poll_ready_sends cx (r : R) :
  sends (poll_ready cx r) (λ l x, same_half r x.2 ∧
    ((l = [] ∧ fs_stash x.2 = fs_stash r) ∨ ∃ buf, submits r buf l x.2)).
Proof.
  unfold poll_ready. destruct (fs_send_gen r) as [g|] eqn:Hg.
  { eapply sends_mono; [|apply poll_write_sends]. simpl. naive_solver. }
  apply sends_bind, sends_quiet; [unfold terminal_now; store|]. intros s0.
  destruct (result (terminal_now cx r) s0); [apply sends_ret; by split; [|left]|].
  destruct (fs_stash r) as [buf|] eqn:Hst; [|apply sends_ret; by split; [|left]].
  apply sends_bind, sends_quiet; [unfold reserve_bytes, acct; store|]. intros s1.
  destruct (result (reserve_bytes _ _ _) s1) as [p|] eqn:Hp; [|apply sends_ret; by split; [|left]].
  apply reserve_bytes_permit in Hp. unfold submit_write.
  apply sends_bind, sends_quiet; [unfold acct; store|]. intros s2.
  apply sends_bind, sends_quiet; [store|]. intros s3. apply sends_bind, sends_cmd. intros ok.
  destruct ok; simpl.
  - eapply sends_mono; [|apply poll_write_sends]. intros l x (->&Hx&Hh). simpl in *. split; [done|].
    right. exists buf. by eexists _, _.
  - apply sends_bind, sends_quiet; [unfold sticky_or_internal, terminal_now; store|]. intros s4.
    apply sends_ret. split; [done|]. right. exists buf. by eexists _, _.
Qed.

(** At most one finalizer, from a half that was not finalized, which then is. *)
Definition finalizes (r : R) (l : list Cmd) (finalized' : bool) : Prop :=
  (l = [] ∧ (fs_finalized r = true → finalized' = true)) ∨
  (∃ f, l = [f] ∧ fs_finalized r = false ∧ finalized' = true ∧
     (f = Finish (fs_id r) match f with Finish _ a => a | _ => O end ∨
      ∃ code, f = Reset (fs_id r) code)).

Definition idle_half (r r' : R) : Prop := fs_id r' = fs_id r ∧ fs_stash r' = fs_stash r.

Lemma poll_finish_completion_sends cx a (r : R) :
  sends (poll_finish_completion cx a r)
    (λ l x, l = [] ∧ idle_half r x.2 ∧ fs_finalized x.2 = fs_finalized r).
Proof.
  unfold poll_finish_completion, finish_poll, sticky_send_end_or_internal, terminal_now, idle_half.
  repeat sends_step; done.
Qed.

Lemma poll_finish_sends cx (r : R) :
  sends (poll_finish cx r) (λ l x, idle_half r x.2 ∧ finalizes r l (fs_finalized x.2)).
Proof.
  unfold poll_finish. destruct (fs_finish_result r); [apply sends_ret; split; [done | by left]|].
  destruct (fs_finish_completion r) as [a|].
  { eapply sends_mono; [|apply poll_finish_completion_sends]. intros l x (->&?&Hf). simpl in *.
    split; [done|]. left. by rewrite Hf. }
  apply sends_bind, sends_quiet; [unfold terminal_now; store|]. intros s0.
  destruct (fs_finalized r) eqn:Hfin; [apply sends_ret; split; [done | by left]|].
  destruct (result (terminal_now cx r) s0); [apply sends_ret; split; [done | left; simpl; split; congruence]|].
  apply sends_bind, sends_quiet; [store|]. intros s1. apply sends_bind, sends_cmd. intros ok.
  destruct ok; simpl.
  - eapply sends_mono; [|apply poll_finish_completion_sends]. intros l x (->&?&Hf). simpl in *.
    split; [done|]. right. eexists. rewrite Hf. by split_and!; [..|left].
  - apply sends_bind, sends_quiet; [unfold sticky_send_end_or_internal, terminal_now; store|]. intros s2.
    apply sends_ret. split; [done|]. right. eexists. by split_and!; [..|left].
Qed.

Lemma reset_sends code (r : R) :
  sends (reset code r) (λ l r', idle_half r r' ∧ finalizes r l (fs_finalized r')).
Proof.
  unfold reset. destruct (fs_finalized r) eqn:Hf; [apply sends_ret; split; [done | by left]|].
  apply sends_bind, sends_quiet; [store|]. intros s0. apply sends_bind, sends_cmd. intros ok.
  apply sends_ret. set (t := result _ s0). clearbody t.
  split; [by destruct t|]. right. eexists.
  split_and!; [done..|by destruct t|]. right. by eexists.
Qed.

Lemma send_stream_drop_sends (r : R) : sends (send_stream_drop r) (λ l _, finalizes r l true).
Proof.
  unfold send_stream_drop. apply sends_bind, sends_quiet; [unfold acct; store|]. intros s0.
  apply sends_bind, sends_quiet; [store|]. intros s1. apply sends_bind.
  eapply (sends_mono _ (λ l _, finalizes r l true)); [|].
  - intros l [] Hl. apply sends_bind, sends_drop_tx, sends_quiet; [store|]. intros s2.
    by rewrite !app_nil_r, app_nil_l.
  - destruct (fs_finalized r) eqn:Hf; simpl; [apply sends_ret; left; by rewrite Hf|].
    destruct (bool_decide _); [apply sends_ret; left; split; [done | congruence]|].
    apply sends_bind, sends_quiet; [store|]. intros s2. apply sends_bind, sends_cmd. intros ok.
    apply sends_quiet; [store|]. intros s3. right. eexists. by split_and!; [..|left].
Qed.

(** ** Sessions

    A session is any sequence of calls on one send half, with any change of the
    shared store before each. *)

Inductive SendCall := CallReady (cx : Waker) | CallData (data : B) | CallFinish (cx : Waker) | CallReset (code : N).

Definition run_call (call : SendCall) (r : R) : ST (Store B) R :=
  match call with
  | CallReady cx => x ← poll_ready cx r; mret x.2
  | CallData data => mret (send_data data r).2
  | CallFinish cx => x ← poll_finish cx r; mret x.2
  | CallReset code => reset code r
  end.

(** The data a call takes over: [send_data]'s, unless it is refused. *)
Definition taken (call : SendCall) (r : R) : list B :=
  match call, fs_stash r with
  | CallData data, None => [data]
  | _, _ => []
  end.

(** The commands that reached the channel. *)
Definition new_cmds (s s' : Store B) : list Cmd := drop (length (cmd_queue s)) (cmd_queue s').

Record SessionLog := mkSessionLog { sl_taken : list B; sl_cmds : list Cmd }.

Fixpoint session (calls : list ((Store B → Store B) * SendCall)) (r : R) (s : Store B)
    : SessionLog * R * Store B :=
  match calls with
  | [] => (mkSessionLog [] [], r, s)
  | (env, call) :: calls =>
      let s := env s in
      let s' := exec (run_call call r) s in
      let rest := session calls (result (run_call call r) s) s' in
      (mkSessionLog (taken call r ++ sl_taken rest.1.1) (new_cmds s s' ++ sl_cmds rest.1.1),
       rest.1.2, rest.2)
  end.

Definition is_finalizer (cmd : Cmd) : bool :=
  match cmd with Finish _ _ | Reset _ _ => true | _ => false end.
Definition finalizers (l : list Cmd) : list Cmd := filter (λ c, is_finalizer c = true) l.
Definition written (l : list Cmd) : list B :=
  omap (λ c, match c with Send _ buf _ _ => Some buf | _ => None end) l.

Lemma emits_new_cmds l s s' : emits l s s' → new_cmds s s' = if cmd_open s then l else [].
Proof. intros [Hq _]. unfold new_cmds. rewrite Hq. apply drop_app_length. Qed.

(** A write goes to stream [id]. *)
Definition writes_to (id : N) (cmd : Cmd) : Prop :=
  match cmd with Send id' _ _ _ => id' = id | _ => True end.

(** What one call does, whatever the state it runs in. *)
Lemma run_call_spec call (r : R) :
  sends (run_call call r) (λ l r', (fs_id r' = fs_id r ∧ Forall (writes_to (fs_id r)) l) ∧
    (length (finalizers l) + Nat.b2n (fs_finalized r) ≤ Nat.b2n (fs_finalized r'))%nat ∧
    option_list (fs_stash r) ++ taken call r = written l ++ option_list (fs_stash r')).
Proof.
  assert (∀ l (r' : R), finalizes r l (fs_finalized r') → idle_half r r' →
    (fs_id r' = fs_id r ∧ Forall (writes_to (fs_id r)) l) ∧
    (length (finalizers l) + Nat.b2n (fs_finalized r) ≤ Nat.b2n (fs_finalized r'))%nat ∧
    option_list (fs_stash r) = written l ++ option_list (fs_stash r')) as Hfin.
  { intros l r' Hf [Hid Hst]. rewrite Hst.
    destruct Hf as [[-> Hf]|(f&->&->&->&Hf)].
    - split_and!; [done|constructor| |done]. destruct (fs_finalized r); [by rewrite Hf|]. simpl. lia.
    - destruct Hf as [->|[code ->]]; simpl; (split_and!; [done|by repeat constructor|lia | done]). }
  destruct call as [cx|data|cx|code]; unfold run_call, taken.
  - apply sends_bind. eapply sends_mono; [|apply poll_ready_sends]. intros l x [[Hid Hf] Hc].
    apply sends_ret. rewrite !app_nil_r, Hf. destruct Hc as [[-> ->]|(buf&k&p&_&Hst&Hst'&->&_)]; [by split_and!; simpl; [|constructor|lia|]|].
    rewrite Hst, Hst'. by split_and!; simpl; [|repeat constructor|lia|].
  - apply sends_ret. unfold send_data. destruct (fs_stash r) as [b|] eqn:Hst; simpl; rewrite ?Hst; simpl;
      by split_and!; [|constructor|..].
  - apply sends_bind. eapply sends_mono; [|apply poll_finish_sends]. intros l x [Hi Hf].
    apply sends_ret. rewrite !app_nil_r. by apply Hfin.
  - eapply sends_mono; [|apply reset_sends]. intros l r' [Hi Hf].
    rewrite app_nil_r. by apply Hfin.
Qed.

Lemma finalizers_app l1 l2 : finalizers (l1 ++ l2) = finalizers l1 ++ finalizers l2.
Proof. apply filter_app. Qed.

(** C13.  A send half finalizes its stream at most once: over any sequence of
    calls, whatever happens to the shared state in between, and including the
    final drop, at most one FIN or RESET is requested. *)
Theorem at_most_one_finalizer calls (r : R) (s : Store B) :
  let x := session calls r s in
  let s' := exec (send_stream_drop x.1.2) x.2 in
  (length (finalizers (sl_cmds x.1.1 ++ new_cmds x.2 s')) + Nat.b2n (fs_finalized r) ≤ 1)%nat.
Proof.
  revert r s. induction calls as [|[env call] calls IH]; intros r s; simpl.
  - destruct (send_stream_drop_sends r s) as (l&He&Hf). rewrite (emits_new_cmds l) by done.
    destruct Hf as [[-> _]|(f&->&->&_&_)]; [by destruct (cmd_open s), (fs_finalized r); simpl; lia|].
    destruct (cmd_open s); [|simpl; lia]. unfold finalizers. rewrite filter_cons. case_decide; simpl; lia.
  - destruct (run_call_spec call r (env s)) as (l&He&_&Hf&_). rewrite (emits_new_cmds l) by done.
    specialize (IH (result (run_call call r) (env s)) (exec (run_call call r) (env s))). simpl in IH.
    rewrite !finalizers_app, !length_app in *.
    destruct (cmd_open (env s)); [lia|]. simpl. lia.
Qed.

(** The worker's command channel is open at each call. *)
Fixpoint stays_open (calls : list ((Store B → Store B) * SendCall)) (r : R) (s : Store B) : Prop :=
  match calls with
  | [] => True
  | (env, call) :: calls =>
      cmd_open (env s) = true ∧
      stays_open calls (result (run_call call r) (env s)) (exec (run_call call r) (env s))
  end.

(** Writes go out in order, complete and once: while the worker's command
    channel stays open, the buffers accepted by [send_data] are exactly those
    submitted, in order, plus the one still stashed. *)
Theorem writes_submitted_in_order calls (r : R) (s : Store B) :
  stays_open calls r s →
  let x := session calls r s in
  option_list (fs_stash r) ++ sl_taken x.1.1 = written (sl_cmds x.1.1) ++ option_list (fs_stash x.1.2).
Proof.
  revert r s. induction calls as [|[env call] calls IH]; intros r s; simpl; [by rewrite app_nil_r|].
  intros [Ho Hopen]. destruct (run_call_spec call r (env s)) as (l&He&_&_&Hw).
  rewrite (emits_new_cmds l), Ho by done. unfold written in *.
  rewrite omap_app, app_assoc, Hw, <-!app_assoc. f_equal. by apply IH.
Qed.

(** One write at a time: [poll_ready] sends a command only when no earlier
    write awaits its completion, and then exactly the stashed buffer, on this
    stream, with a permit for all its bytes. *)
Theorem poll_ready_single_outstanding cx (r : R) (s : Store B) :
  let x := result (poll_ready cx r) s in
  new_cmds s (exec (poll_ready cx r) s) = [] ∨
  ∃ buf k p, fs_send_gen r = None ∧ fs_stash r = Some buf ∧ fs_stash x.2 = None ∧
    new_cmds s (exec (poll_ready cx r) s) = [Send (fs_id r) buf k (Some p)] ∧
    permit_bytes p = buf_remaining buf.
Proof.
  destruct (poll_ready_sends cx r s) as (l&He&_&Hc). simpl. rewrite (emits_new_cmds l) by done.
  destruct (cmd_open s); [|by left]. destruct Hc as [[-> _]|(buf&k&p&?&?&?&->&?)]; [by left|].
  right. by exists buf, k, p.
Qed.
End send_half.

(** ** Finishing *)

Section finishing.
Context `{Runtime} {B : Type} `{!Buf B}.
Abbreviation R := (H3SendStream (B := B)).

Lemma terminal_now_res cx (r : R) (s : Store B) :
  result (terminal_now cx r) s = terminal_now_noctx r s.
Proof.
  unfold terminal_now, terminal_now_noctx. destruct (fs_local_terminal r); [done|].
  rewrite result_bind, result_ret. unfold send_cell_poll, send_cell_get, at_loc, result.
  destruct (send_cells s !! fs_status r) as [c|]; simpl; [|done].
  unfold tc_poll, tc_get. by destruct (tc_value c) eqn:Hc; simpl; rewrite ?Hc.
Qed.

Lemma terminal_now_sticky (r : R) (s s' : Store B) e :
  sticky s s' → terminal_now_noctx r s = Some e → terminal_now_noctx r s' = Some e.
Proof.
  intros Hs. unfold terminal_now_noctx. destruct (fs_local_terminal r); [done|]. unfold send_cell_get.
  destruct (send_cells s !! fs_status r) as [c|] eqn:Hc; simpl; [|done]. intros Hv.
  destruct (sticky_send s s' Hs _ _ Hc) as (c'&->&Hk). by apply Hk.
Qed.

(** A half finalized by [reset] has a terminal to show for it. *)
Definition half_ok (r : R) (s : Store B) : Prop :=
  fs_finalized r = true → fs_finish_result r = None → fs_finish_completion r = None →
  is_Some (terminal_now_noctx r s).

(** Once ready, the outcome is retained, or it is the sticky terminal. *)
Definition settled_as (x : Result unit h3_stream_error) (r : R) (s : Store B) : Prop :=
  (∃ v, fs_finish_result r = Some v ∧ x = map_err send_to_h3 v) ∨
  (∃ e, fs_finish_result r = None ∧ fs_finish_completion r = None ∧ fs_finalized r = true ∧
     terminal_now_noctx r s = Some e ∧ x = Err (send_to_h3 e)).

Lemma poll_finish_completion_settles cx a (r : R) s x r' :
  result (poll_finish_completion cx a r) s = (Ready x, r') →
  ∃ v, fs_finish_result r' = Some v ∧ x = map_err send_to_h3 v.
Proof.
  unfold poll_finish_completion. rewrite result_bind.
  destruct (result (finish_poll a cx) s) as [[v|]|]; rewrite ?result_bind, ?result_ret; intros; simplify_eq/=;
    eauto.
Qed.

Lemma poll_finish_settles cx (r : R) s x r' :
  half_ok r s → result (poll_finish cx r) s = (Ready x, r') → settled_as x r' s.
Proof.
  intros Hok. unfold poll_finish. destruct (fs_finish_result r) as [v|] eqn:Hv.
  { rewrite result_ret. intros; simplify_eq. left. eauto. }
  destruct (fs_finish_completion r) as [a|] eqn:Ha.
  { intros Hr. left. by eapply poll_finish_completion_settles. }
  rewrite result_bind, terminal_now_res. destruct (fs_finalized r) eqn:Hf.
  { rewrite result_ret. intros; simplify_eq. destruct (Hok Hf Hv Ha) as [e He]. rewrite He. right. eauto 10. }
  destruct (terminal_now_noctx r s) as [e|]; [rewrite result_ret; intros; simplify_eq; left; eauto|].
  rewrite result_bind, result_bind. match goal with |- context [negb ?b] => destruct b end; simpl.
  - intros Hr. left. by eapply poll_finish_completion_settles.
  - rewrite result_bind, result_ret. intros; simplify_eq. left. eauto.
Qed.

Lemma settled_poll cx x (r : R) s : settled_as x r s → result (poll_finish cx r) s = (Ready x, r).
Proof.
  intros [(v&Hv&->)|(e&Hv&Ha&Hf&Ht&->)]; unfold poll_finish; rewrite Hv; [done|].
  by rewrite Ha, result_bind, terminal_now_res, Hf, Ht.
Qed.

(** [poll_finish] is idempotent once ready: the outcome it reported is the
    one every later poll reports, whatever happens to the store in between as long
    as terminals are sticky. *)
Theorem poll_finish_stable cx cx' (r : R) s x r' s' :
  half_ok r s → result (poll_finish cx r) s = (Ready x, r') → sticky s s' →
  result (poll_finish cx' r') s' = (Ready x, r').
Proof.
  intros Hok Hr Hs. apply settled_poll. destruct (poll_finish_settles _ _ _ _ _ Hok Hr) as [?|(e&?&?&?&Ht&->)].
  - by left.
  - right. exists e. split_and!; try done. by eapply terminal_now_sticky.
Qed.
End finishing.

(** ** Receiving *)

Section recv_half.
Context `{Runtime} {B : Type}.
Abbreviation DataResult := (Poll (Result (option Bytes) h3_stream_error)).

(** A receive half whose channel holds [q] and whose terminal is [e]. *)
Definition half_holds (r : H3RecvStream) (q : list Bytes) (e : RecvEnd) (s : Store B) : Prop :=
  (∃ ch, byte_chans s !! fr_bytes r = Some ch ∧ cs_queue (chan_view ch) = q) ∧
  (∃ c, recv_cells s !! fr_terminal r = Some c ∧ tc_value c = Some e).

Definition terminal_result (e : RecvEnd) : DataResult :=
  match recv_to_h3 e with None => Ready (Ok None) | Some err => Ready (Err err) end.

Lemma bytes_poll_spec cx r q e (s : Store B) :
  half_holds r q e s →
  half_holds r (tail q) e (exec (bytes_poll_recv (fr_bytes r) cx) s) ∧
  match q with
  | b :: _ => result (bytes_poll_recv (fr_bytes r) cx) s = Ready (Some b)
  | [] => ∀ b, result (bytes_poll_recv (fr_bytes r) cx) s ≠ Ready (Some b)
  end.
Proof.
  intros [(ch&Hch&Hq) Hc]. unfold bytes_poll_recv, at_loc, exec, result. rewrite Hch. simpl. split.
  - split; [|done]. eexists. simpl. rewrite list_lookup_insert_eq by by eapply lookup_lt_Some. split; [done|].
    rewrite chan_poll_recv_view. simpl. by rewrite Hq.
  - rewrite chan_poll_recv_res. unfold view_recv. rewrite Hq. destruct q; [|done]. simpl. by destruct (_ || _).
Qed.

Lemma recv_cell_poll_spec cx r q e (s : Store B) :
  half_holds r q e s →
  half_holds r q e (exec (recv_cell_poll (fr_terminal r) cx) s) ∧
  result (recv_cell_poll (fr_terminal r) cx) s = Ready e.
Proof.
  intros [Hb (c&Hc&Hv)]. unfold recv_cell_poll, at_loc, exec, result. rewrite Hc. simpl.
  unfold tc_poll, tc_get. rewrite Hv. simpl. split; [|done]. split; [done|]. exists c.
  simpl. by rewrite list_lookup_insert_eq by by eapply lookup_lt_Some.
Qed.

Lemma signal_resume_holds r q e :
  respects (keeps (half_holds r q e)) (signal_resume (B := B) r).
Proof.
  assert (respects (same (λ s : Store B, (byte_chans s, recv_cells s))) (signal_resume r)) as Hm by store.
  intros s. specialize (Hm s). unfold keeps, half_holds, same in *. by injection Hm as -> ->.
Qed.

Lemma poll_data_spec cx r q e (s : Store B) :
  half_holds r q e s →
  half_holds r (tail q) e (exec (poll_data cx r) s) ∧
  result (poll_data cx r) s =
    match q with
    | b :: _ => (Ready (Ok (Some b)), r)
    | [] => (terminal_result e, r <| fr_terminal_seen := true |>)
    end.
Proof.
  intros Hh. unfold poll_data. rewrite exec_bind, result_bind.
  destruct (bytes_poll_spec cx r q e s Hh) as [H1 R1]. set (s1 := exec (bytes_poll_recv _ _) s) in *.
  destruct q as [|b q]; simpl in *.
  - destruct (recv_cell_poll_spec cx r [] e s1 H1) as [H2 R2].
    destruct (result (bytes_poll_recv _ _) s) as [[b|]|]; [by destruct (R1 b)|..];
      rewrite exec_bind, result_bind, R2.
    + rewrite exec_ret, result_ret. unfold resolve_terminal, terminal_result. by destruct (recv_to_h3 e).
    + destruct (bytes_poll_spec cx r [] e _ H2) as [H3 R3].
      rewrite exec_bind, result_bind.
      destruct (result (bytes_poll_recv _ _) (exec (recv_cell_poll _ _) s1)) as [[b|]|]; [by destruct (R3 b)|..];
        rewrite exec_ret, result_ret; unfold resolve_terminal, terminal_result; by destruct (recv_to_h3 e).
  - rewrite R1, exec_bind, result_bind, exec_ret, result_ret. split; [|done]. by apply signal_resume_holds.
Qed.

Fixpoint poll_times (n : nat) (cx : Waker) (r : H3RecvStream) : ST (Store B) (list DataResult) :=
  match n with
  | O => mret []
  | S n => x ← poll_data cx r; rest ← poll_times n cx x.2; mret (x.1 :: rest)
  end.

End recv_half.
