(* ===== verification/System.v ===== *)
(** * The whole connection

    Worker and front end together: any interleaving of worker callbacks, front-end
    calls and transport activity on one connection. *)

From S2P Require Import Prelude Interfaces Error Buffer Conn DriverTypes DriverStore DriverCore DriverRecv DriverSend Driver DriverLogic StoreLogic DriverReach DriverRecvBytes DriverTeardown Stream.

Section front.
Context `{Runtime} {B : Type} `{!Buf B}.
Abbreviation St := (Store B).

(** The operations of the front end. *)
Inductive FrontOp :=
| FrontRecvFrom (h : RecvHandoff)
| FrontPollData (cx : Waker) (r : H3RecvStream)
| FrontStop (code : N) (r : H3RecvStream)
| FrontRecvDrop (r : H3RecvStream)
| FrontSendFrom (h : SendHandoff)
| FrontPollReady (cx : Waker) (r : H3SendStream (B := B))
| FrontPollFinish (cx : Waker) (r : H3SendStream (B := B))
| FrontReset (code : N) (r : H3SendStream (B := B))
| FrontSendDrop (r : H3SendStream (B := B))
| FrontOpenBidi (cx : Waker) (o : StreamOpener)
| FrontOpenUni (cx : Waker) (o : StreamOpener)
| FrontClose (code : N) (reason : Bytes)
| FrontClone (o : StreamOpener)
| FrontOpenerDrop (o : StreamOpener)
| FrontAcceptRecv (cx : Waker)
| FrontAcceptBidi (cx : Waker)
| FrontEstablished (cx : Waker)
| FrontDrop (o : StreamOpener).

Definition run_front (op : FrontOp) : ST St unit :=
  match op with
  | FrontRecvFrom h => recv_from_handoff h;; skip
  | FrontPollData cx r => poll_data cx r;; skip
  | FrontStop code r => stop_sending code r;; skip
  | FrontRecvDrop r => recv_stream_drop r
  | FrontSendFrom h => send_from_handoff (B := B) h;; skip
  | FrontPollReady cx r => poll_ready cx r;; skip
  | FrontPollFinish cx r => poll_finish cx r;; skip
  | FrontReset code r => reset code r;; skip
  | FrontSendDrop r => send_stream_drop r
  | FrontOpenBidi cx o => poll_open_bidi cx o;; skip
  | FrontOpenUni cx o => poll_open_send cx o;; skip
  | FrontClose code reason => opener_close code reason
  | FrontClone o => opener_clone o;; skip
  | FrontOpenerDrop o => opener_drop o
  | FrontAcceptRecv cx => poll_accept_recv cx;; skip
  | FrontAcceptBidi cx => poll_accept_bidi cx;; skip
  | FrontEstablished cx => into_established_connection cx;; skip
  | FrontDrop o => connection_drop o
  end.

(** One call of the front end. *)
Definition front_step : relation St := λ s s', ∃ op, s' = exec (run_front op) s.

Definition sticky_view (s : St) :=
  (conn_terminal s, accept_terminal_bidi s, accept_terminal_uni s, recv_cells s, send_cells s).

Lemma sticky_same s s' : sticky_view s' = sticky_view s → sticky s s'.
Proof.
  intros [= E1 E2 E3 E4 E5]. split; unfold keeps_value; rewrite ?E1, ?E2, ?E3, ?E4, ?E5; done || reflexivity.
Qed.
Lemma sticky_untouched {A} (m : ST St A) : respects (same sticky_view) m → respects sticky m.
Proof. intros Hm s. apply sticky_same, Hm. Qed.

Lemma tc_poll_value {T} cx (c : TerminalCell T) : tc_value (tc_poll cx c).2 = tc_value c.
Proof. unfold tc_poll, tc_get. by destruct (tc_value c) eqn:E; simpl; rewrite ?E. Qed.

Lemma recv_cell_poll_sticky a cx : respects (sticky (B := B)) (recv_cell_poll a cx).
Proof.
  intros s. unfold recv_cell_poll, at_loc, exec. destruct (recv_cells s !! a) as [c|] eqn:Hc; [|done].
  split; simpl; try first [reflexivity | by intros ?]. apply grows_insert. intros x v Hx Hv. simplify_eq. by rewrite tc_poll_value.
Qed.
Lemma send_cell_poll_sticky a cx : respects (sticky (B := B)) (send_cell_poll a cx).
Proof.
  intros s. unfold send_cell_poll, at_loc, exec. destruct (send_cells s !! a) as [c|] eqn:Hc; [|done].
  split; simpl; try first [reflexivity | by intros ?]. apply grows_insert. intros x v Hx Hv. simplify_eq. by rewrite tc_poll_value.
Qed.
Lemma conn_cell_poll_sticky cx :
  respects (sticky (B := B)) (conn_cell_poll accept_terminal_bidi cx) ∧
  respects (sticky (B := B)) (conn_cell_poll accept_terminal_uni cx).
Proof.
  split; intros s; (split; simpl; try first [reflexivity | by intros ?]); intros v Hv; simpl; by rewrite tc_poll_value.
Qed.
End front.

#[export] Hint Resolve recv_cell_poll_sticky send_cell_poll_sticky : steps.

Ltac sticky_leaf :=
  idtac; lazymatch goal with
  | |- respects _ (conn_cell_poll _ _) => apply conn_cell_poll_sticky
  | |- respects _ (at_loc _ _ _ _) => apply sticky_untouched; solve [store_leaf]
  | |- respects _ (alloc _ _) => apply sticky_untouched; solve [store_leaf]
  | |- respects _ (modify _) => apply sticky_untouched; solve [store_leaf]
  | |- respects _ (λ _, _) => apply sticky_untouched; solve [store_leaf]
  | |- respects _ (cmd_send _) => apply sticky_untouched; solve [store]
  | |- respects _ (acct _) => apply sticky_untouched; solve [store]
  end.
Ltac sticking := worker_with sticky_leaf.

Section system.
Context `{Runtime} {B C : Type} `{!Buf B} `{!QuicConn C}.
Abbreviation W := (World B C).

Lemma front_step_sticky (s s' : Store B) : front_step s s' → sticky s s'.
Proof. intros [[] ->]; cbn [run_front]; by_respects sticking. Qed.

(** One step of the connection: a worker callback, a front-end call, or the
    transport. *)
Inductive system_step : relation W :=
| system_worker w w' : worker_turn w w' → system_step w w'
| system_front w s : front_step (sto w) s → system_step w (w <| sto := s |>)
| system_transport w c : system_step w (w <| qc := c |>).

(** C9.  Terminals are final for the whole connection: in any interleaving of
    worker callbacks, front-end calls and transport activity, a connection,
    accept, receive or send terminal, once published, is never changed or
    withdrawn. *)
Theorem system_terminals_final (w w' : W) : rtc system_step w w' → sticky (sto w) (sto w').
Proof.
  induction 1 as [w|w1 w2 w3 Hs _ IH]; [reflexivity|]. etrans; [|exact IH]. destruct Hs as [w w' Ht|w s Hf|w c].
  - apply (worker_turn_settles w w' Ht).
  - by apply front_step_sticky.
  - simpl. reflexivity.
Qed.
End system.
