(* ===== verification/Outbound.v ===== *)
(** * From the application to the transport

    One send stream end to end: the application hands buffers to its half, the
    half submits them as commands, the worker takes the commands in receipt order,
    queues them on the stream and offers them to the transport.  What the
    application gave is what the transport accepted followed by what is on its
    way, in any interleaving of whole worker callbacks, of calls on this and on
    other handles, and of transport activity, for as long as the half is live. *)

From S2P Require Import Prelude Interfaces Error Buffer Conn DriverTypes DriverStore DriverCore DriverRecv DriverSend Driver DriverLogic StoreLogic DriverInv DriverSendInv Trace DriverReach DriverBytes DriverTeardown Stream StreamLogic System.

(** ** The store: submitted bytes *)

Section quiet.
Context `{Runtime} {B : Type} `{!Buf B}.
Abbreviation St := (Store B).

(** The bytes of stream [id] a command carries. *)
Definition cmd_bytes (id : N) (cmd : DriverCommand B) : Bytes :=
  match cmd with
  | Send id' buf _ _ => if id' =? id then buf_bytes buf else []
  | _ => []
  end.
Definition cmds_bytes (id : N) (l : list (DriverCommand B)) : Bytes := mjoin (cmd_bytes id <$> l).

Lemma cmds_bytes_app id l k : cmds_bytes id (l ++ k) = cmds_bytes id l ++ cmds_bytes id k.
Proof. unfold cmds_bytes. by rewrite fmap_app, join_app. Qed.
Lemma cmds_bytes_tail id l : cmds_bytes id l = from_option (cmd_bytes id) [] (head l) ++ cmds_bytes id (tail l).
Proof. by destruct l. Qed.

(** [quiet id]: no byte of [id] is submitted; cells are only added. *)
Record quiet (id : N) (s s' : St) : Prop := {
  quiet_send_cells : (length (send_cells s) ≤ length (send_cells s'))%nat;
  quiet_queue : cmds_bytes id (cmd_queue s') = cmds_bytes id (cmd_queue s);
  quiet_open : cmd_open s' = cmd_open s;
}.
#[export] Instance quiet_preorder id : PreOrder (quiet id).
Proof.
  split.
  - intros s. by split.
  - intros s1 s2 s3 [] []. split; [lia|congruence..].
Qed.

Definition submission_view (s : St) := (length (send_cells s), cmd_chan s).
Lemma quiet_same {A} id (m : ST St A) : respects (same submission_view) m → respects (quiet id) m.
Proof.
  intros Hm s. specialize (Hm s). unfold same, submission_view in Hm. injection Hm as E1 E2.
  split; [lia|unfold cmd_queue|unfold cmd_open]; by rewrite E2.
Qed.
Lemma quiet_send_cell {A} id a (dflt : A) f : respects (quiet id) (at_loc send_cells a dflt f).
Proof.
  apply quiet_same. intros s. unfold same, submission_view, at_loc, exec. case_match; [|done].
  simpl. by rewrite length_insert.
Qed.
Lemma quiet_alloc_cell id c : respects (quiet id) (alloc send_cells c).
Proof. intros s. split; [|done..]. simpl. rewrite length_app. lia. Qed.
Lemma quiet_cmd_send id cmd : cmd_bytes id cmd = [] → respects (quiet id) (cmd_send cmd).
Proof.
  intros Hb. unfold cmd_send. apply respects_bind; [apply _| |].
  - intros s. unfold exec. split; unfold cmd_queue, cmd_open; simpl; [done|rewrite chan_send_view..].
    + destruct (cs_rx_open _); [|done]. simpl. rewrite cmds_bytes_app. unfold cmds_bytes at 2. simpl.
      by rewrite Hb, !app_nil_r.
    + by case_match.
  - intros ok. apply respects_bind; [apply _| |intros; apply respects_ret, _].
    destruct ok; [apply respects_skip, _|]. apply quiet_same. store.
Qed.
Lemma quiet_chan id f :
  (∀ c, cs_queue (chan_view (f c)) = cs_queue (chan_view c)) →
  (∀ c, cs_rx_open (chan_view (f c)) = cs_rx_open (chan_view c)) →
  respects (quiet id) (modify (λ s : St, s <| cmd_chan ::= f |>)).
Proof. intros Hq Ho s. split; unfold cmd_queue, cmd_open; simpl; rewrite ?Hq, ?Ho; done. Qed.
Lemma quiet_clone id : respects (quiet id) cmd_clone_tx.
Proof. apply quiet_chan; intros c; by rewrite chan_clone_tx_view. Qed.
Lemma quiet_drop_tx id : respects (quiet id) cmd_drop_tx.
Proof. apply quiet_chan; intros c; by rewrite chan_drop_tx_view. Qed.
Lemma quiet_upgrade id : respects (quiet id) cmd_upgrade.
Proof.
  intros s. unfold cmd_upgrade, exec. pose proof (chan_upgrade_view _ (cmd_chan s)) as Hu.
  destruct (chan_upgrade (cmd_chan s)) as [c|]; [|done]. simpl in Hu.
  destruct (_ =? _)%nat; [done|]. injection Hu as Hu.
  split; unfold cmd_queue, cmd_open; simpl; by rewrite ?Hu.
Qed.
End quiet.

#[export] Hint Resolve quiet_send_cell quiet_alloc_cell quiet_clone quiet_drop_tx quiet_upgrade : steps.

Ltac quiet_leaf :=
  idtac; lazymatch goal with
  | |- respects (quiet _) (cmd_send _) => apply quiet_cmd_send; reflexivity
  | |- respects (quiet _) (at_loc send_cells _ _ _) => apply quiet_send_cell
  | |- respects (quiet _) (at_loc _ _ _ _) => apply quiet_same; solve [store_leaf]
  | |- respects (quiet _) (alloc _ _) =>
      first [apply quiet_alloc_cell | apply quiet_same; solve [store_leaf]]
  | |- respects (quiet _) (modify _) => apply quiet_same; solve [store_leaf]
  | |- respects (quiet _) (λ _, _) => apply quiet_same; solve [store_leaf]
  end.
Ltac quiets := worker_with quiet_leaf.

(** ** The worker *)

Section ships.
Context `{Runtime} {B C : Type} `{!Buf B} `{!QuicConn C} `{!QuicConnOk C}.
Abbreviation TW := (World B (Traced C)).
Context (id : N) (a : loc).

Definition liveb (d : QuicheDriver B) : bool :=
  from_option (λ s, bool_decide (terminal s = None)) false (send d !! id).
Lemma liveb_live d : liveb d = true ↔ live id d.
Proof.
  unfold liveb, live. split.
  - destruct (send d !! id) as [s|]; simpl; [|done]. intros ?%bool_decide_eq_true. eauto.
  - intros (s&->&Ht). by apply bool_decide_eq_true.
Qed.

(** The half's status cell exists; the registry's entry is this half's. *)
Definition allocated (w : TW) : Prop := (a < length (send_cells (sto w)))%nat.
Definition owned (w : TW) : Prop := ∃ s, send (drv w) !! id = Some s ∧ status s = a.

(** What the transport accepted, what the half still owes it, and, while the
    half is live, [x] and the commands that have not been applied. *)
Definition promise (x : Bytes) (w : TW) : Bytes :=
  outgoing id w ++ (if liveb (drv w) then x ++ cmds_bytes id (backlog w) else []).

(** [ships x y]: as long as the entry stays this half's, the promise shrinks
    only when the half ends, from behind; [x] is in hand before, [y] after. *)
Definition ships (x y : Bytes) : relation TW := λ w w', allocated w → allocated w' ∧
  (owned w' → owned w ∧ promise y w' `prefix_of` promise x w ∧
     (live id (drv w') → live id (drv w) ∧ promise y w' = promise x w ∧
        cmd_open (sto w') = cmd_open (sto w))).

Lemma ships_trans x y z w1 w2 w3 : ships x y w1 w2 → ships y z w2 w3 → ships x z w1 w3.
Proof.
  intros H1 H2 A1. destruct (H1 A1) as [A2 S1]. destruct (H2 A2) as [A3 S2]. split; [done|].
  intros O3. destruct (S2 O3) as (O2&P2&L2). destruct (S1 O2) as (O1&P1&L1). split_and!; [done|by etrans|].
  intros V3. destruct (L2 V3) as (V2&->&->). auto.
Qed.
#[export] Instance ships_preorder x : PreOrder (ships x x).
Proof. split; [|intros ? ? ?; apply ships_trans]. intros w Ha. by split. Qed.

(** The half's bytes move on, or are lost with the half. *)
Lemma ships_intro x y (w w' : TW) :
  (length (send_cells (sto w)) ≤ length (send_cells (sto w')))%nat →
  (∀ s', send (drv w') !! id = Some s' → status s' = a →
    ∃ s, send (drv w) !! id = Some s ∧ status s = a) →
  outgoing id w' `prefix_of` outgoing id w →
  (live id (drv w') → live id (drv w) ∧ cmd_open (sto w') = cmd_open (sto w) ∧
     outgoing id w' ++ y ++ cmds_bytes id (backlog w') = outgoing id w ++ x ++ cmds_bytes id (backlog w)) →
  ships x y w w'.
Proof.
  intros Hc Hs Ho Hl Ha. split; [unfold allocated in *; lia|]. intros (s'&Hs'&Hst).
  destruct (Hs s' Hs' Hst) as (s&?&?).
  assert (live id (drv w') → live id (drv w) ∧ promise y w' = promise x w ∧ cmd_open (sto w') = cmd_open (sto w)) as HL.
  { intros V'. destruct (Hl V') as (V&?&E). split_and!; [done| |done]. unfold promise.
    apply liveb_live in V as ->. apply liveb_live in V' as ->. done. }
  split_and!; [by exists s| |done]. destruct (liveb (drv w')) eqn:E.
  - apply liveb_live in E. destruct (HL E) as (_&->&_). done.
  - unfold promise at 1. rewrite E, app_nil_r. etrans; [exact Ho|]. apply prefix_app_r. done.
Qed.

(** What the send machine leaves alone: the commands, and which half the entry
    belongs to. *)
Record frame (w w' : TW) : Prop := {
  frame_cells : (length (send_cells (sto w)) ≤ length (send_cells (sto w')))%nat;
  frame_cmds : cmds_bytes id (backlog w') = cmds_bytes id (backlog w);
  frame_open : cmd_open (sto w') = cmd_open (sto w);
  frame_status : ∀ s', send (drv w') !! id = Some s' →
    ∃ s, send (drv w) !! id = Some s ∧ status s = status s';
}.
#[export] Instance frame_preorder : PreOrder frame.
Proof.
  split.
  - intros w. split; eauto.
  - intros w1 w2 w3 [c1 b1 o1 s1] [c2 b2 o2 s2]. split; [lia|congruence..|].
    intros s3 (s&Hs&<-)%s2. by apply s1.
Qed.
Lemma ships_flows x (w w' : TW) : flows w w' → frame w w' → ships x x w w'.
Proof.
  intros Hf [Hc Hb Ho Hs]. destruct (Hf id) as [Hp Hl]. apply ships_intro; [done| |done|].
  - intros s' (s&?&E)%Hs ?. exists s. by rewrite E.
  - intros V'. destruct (Hl V') as [V ->]. by rewrite Hb.
Qed.
Lemma respects_ships_flows x {A} (m : ST TW A) : respects flows m → respects frame m → respects (ships x x) m.
Proof. intros Hf Hm w. apply ships_flows; [apply Hf|apply Hm]. Qed.

Lemma frame_store {A} (m : ST (Store B) A) : respects (quiet id) m → respects frame (shared m).
Proof.
  intros Hm w. destruct (Hm (sto w)) as [Hc Hq Ho]. split; [exact Hc| |exact Ho|eauto].
  unfold backlog. rewrite !cmds_bytes_app. f_equal. exact Hq.
Qed.
Lemma frame_call {A} (m : ST (Traced C) A) : respects frame (call m).
Proof. intros w. split; try done. eauto. Qed.
Lemma frame_dmod f :
  (∀ d, inbox (f d) = inbox d) →
  (∀ d s', send (f d) !! id = Some s' → ∃ s, send d !! id = Some s ∧ status s = status s') →
  respects frame (dmod f).
Proof. intros Hi Hs w. split; try done. - unfold backlog. simpl. by rewrite Hi. - apply Hs. Qed.
Lemma frame_keep f : (∀ d, inbox (f d) = inbox d) → (∀ d, send (f d) = send d) → respects frame (dmod f).
Proof. intros Hi Hs. apply frame_dmod; [done|]. intros d s'. rewrite Hs. eauto. Qed.
Lemma frame_upd id' f : (∀ s, status (f s) = status s) → respects frame (upd_send id' f).
Proof.
  intros Hf. apply frame_dmod; [done|]. intros d s'. simpl. rewrite lookup_alter. case_decide; [|eauto].
  intros (s&?&->)%fmap_Some. exists s. rewrite Hf. simplify_eq. done.
Qed.
Lemma frame_delete id' : respects frame (dmod (λ d, d <| send ::= delete id' |>)).
Proof. apply frame_dmod; [done|]. intros d s'. simpl. intros [_ ?]%lookup_delete_Some. eauto. Qed.

(** A new entry, for this stream or another. *)
Lemma ships_fresh x (w w' : TW) :
  (length (send_cells (sto w)) ≤ length (send_cells (sto w')))%nat → log w' = log w →
  backlog w' = backlog w → cmd_open (sto w') = cmd_open (sto w) →
  (allocated w → owned w' → send (drv w') !! id = send (drv w) !! id) → ships x x w w'.
Proof.
  intros Hc Hl Hb Ho Hs Ha. split; [unfold allocated in *; lia|]. intros Hw'. specialize (Hs Ha Hw').
  unfold owned, promise, live, liveb, outgoing in *. rewrite Hs in *. by rewrite Hl, Hb.
Qed.
Lemma ships_bind x {A A'} (m : ST TW A) (k : A → ST TW A') :
  respects (ships x x) m → (∀ w, allocated w → respects (ships x x) (k (result m w))) →
  respects (ships x x) (m ≫= k).
Proof. intros Hm Hk w Ha. rewrite exec_bind. exact (ships_trans x x x _ _ _ (Hm w) (Hk w Ha _) Ha). Qed.
End ships.

#[export] Hint Resolve frame_call frame_delete : steps.
Ltac frame_leaf :=
  idtac; lazymatch goal with
  | |- respects _ (upd_send _ _) => apply frame_upd; intros ?; reflexivity
  | |- respects _ (dmod _) => apply frame_keep; intros ?; repeat case_match; reflexivity
  | |- respects _ (shared _) => apply frame_store; solve [quiets]
  end.
Ltac frames := worker_with frame_leaf.

Section worker_ops.
Context `{Runtime} {B C : Type} `{!Buf B} `{!QuicConn C} `{!QuicConnOk C}.
Abbreviation TW := (World B (Traced C)).
Context (id : N) (a : loc) (x : Bytes).
Abbreviation Ships := (ships (B := B) (C := C) id a x x).
Abbreviation Frame := (frame (B := B) (C := C) id).

Lemma send_from_buf_frame (buf : B) id' fin :
  respects Frame (send_from_buf buf (λ chunk, call (stream_send id' (offer chunk) (fin chunk)))).
Proof. frames. Qed.
Lemma send_terminal_transition_frame id' e : respects Frame (send_terminal_transition id' e).
Proof. frames. Qed.
Lemma stage_send_ships : respects Ships stage_send.
Proof. apply respects_ships_flows; [apply stage_send_bytes|]. frames. Qed.

Lemma ships_store {A} (m : ST (Store B) A) : respects (quiet id) m → respects Ships (shared m).
Proof. intros Hm. apply respects_ships_flows; [apply flows_shared|by apply frame_store]. Qed.
Lemma ships_dmod f : (∀ d, inbox (f d) = inbox d) → (∀ d, send (f d) = send d) → respects Ships (dmod f).
Proof. intros Hi Hs. apply respects_ships_flows; [by apply flows_dmod|by apply frame_keep]. Qed.
Lemma ships_call {A} (m : ST C A) ev : (∀ a id, accepted_by id (ev a) = []) → respects Ships (call (logged m ev)).
Proof. intros He. apply respects_ships_flows; [by apply flows_call|apply frame_call]. Qed.
Lemma ships_upd id' f :
  (∀ s, owed (f s) = owed s ∧ (terminal (f s) = None → terminal s = None) ∨
        owed (f s) `prefix_of` owed s ∧ terminal (f s) ≠ None) →
  (∀ s, status (f s) = status s) → respects Ships (upd_send id' f).
Proof. intros Hf Hs. apply respects_ships_flows; [by apply flows_upd|by apply frame_upd]. Qed.
Lemma ships_delete id' : respects Ships (dmod (λ d, d <| send ::= delete id' |>)).
Proof. apply respects_ships_flows; [apply flows_dmod_delete|apply frame_delete]. Qed.

Lemma ships_new id' s : status s ≠ a → respects Ships (dmod (λ d, d <| send ::= <[id' := s]> |>)).
Proof.
  intros Hs w. apply ships_fresh; [done..|]. intros _ (s'&Hs'&Ha). simpl in *.
  destruct (decide (id' = id)) as [->|]; [|by rewrite lookup_insert_ne].
  rewrite lookup_insert_eq in Hs'. by simplify_eq.
Qed.
Lemma ships_upd_other id' f : id' ≠ id → respects Ships (upd_send id' f).
Proof. intros Hne w. apply ships_fresh; [done..|]. intros _ _. simpl. by rewrite lookup_alter_ne. Qed.
End worker_ops.

#[export] Hint Resolve stage_send_ships ships_delete : steps.
Ltac ships_leaf :=
  idtac; lazymatch goal with
  | |- respects _ (upd_send _ _) =>
      apply ships_upd; [intros ?; first [left; done | right; split; [apply prefix_nil | done]] | done]
  | |- respects _ (dmod _) => apply ships_dmod; intros ?; repeat case_match; reflexivity
  | |- respects _ (call _) => apply ships_call; intros ? ?; reflexivity
  | |- respects _ (shared _) => apply ships_store; solve [quiets]
  end.
Ltac shipping := worker_with ships_leaf.

Section worker_stages.
Context `{Runtime} {B C : Type} `{!Buf B} `{!QuicConn C} `{!QuicConnOk C}.
Abbreviation TW := (World B (Traced C)).
Context (id : N) (a : loc) (x : Bytes).
Abbreviation Ships := (ships (B := B) (C := C) id a x x).

Lemma send_entry_ships id' : respects Ships (send_entry id').
Proof.
  intros w. unfold send_entry. rewrite exec_bind, exec_dget, result_dget.
  destruct (send (drv w) !! id') eqn:Hs; [done|]. rewrite !exec_bind, exec_ret.
  apply ships_fresh; simpl; [rewrite length_app; lia|done..|]. intros Ha (s'&Hs'&Hst). simpl in *.
  destruct (decide (id' = id)) as [->|]; [|by rewrite lookup_insert_ne].
  rewrite lookup_insert_eq in Hs'. simplify_eq. unfold allocated, result in Ha. simpl in Ha. lia.
Qed.
Lemma send_insert_ships id' s : status s ≠ a → respects Ships (send_insert id' s).
Proof.
  intros Hs. unfold send_insert. apply respects_bind; [apply _|shipping|]. intros old.
  apply respects_bind; [apply _|by apply ships_new|]. intros _. shipping.
Qed.
Lemma register_ships {A} id' e (k : SendHandoff * option (StreamSendState B) * bool → ST TW A) :
  (∀ h o b, (∀ s, o = Some s → status s ≠ a) → respects Ships (k (h, o, b))) →
  respects Ships (build_send id' e ≫= k).
Proof.
  intros Hk. apply ships_bind; [shipping|]. intros w Ha. destruct (result _ w) as [[h o] b] eqn:E.
  apply Hk. intros s ->. unfold build_send in E. rewrite !result_bind, result_ret in E.
  destruct e; simpl in E; simplify_eq. unfold allocated in Ha. unfold result. simpl. lia.
Qed.
Lemma register_some_ships id' (o : option (StreamSendState B)) :
  (∀ s, o = Some s → status s ≠ a) → respects Ships (for_some o (send_insert id')).
Proof. intros Ho. apply respects_for_some; [apply _|]. intros s Hs. apply send_insert_ships; auto. Qed.
#[local] Hint Resolve send_entry_ships register_some_ships : steps.

Ltac registers :=
  worker_with ltac:(idtac; first
    [ ships_leaf
    | lazymatch goal with
      | |- respects _ (mbind _ (build_send _ _)) => apply register_ships; intros
      end ]).

Lemma drain_stream_ships id' : respects Ships (drain_stream id').
Proof. shipping. Qed.
#[local] Hint Resolve drain_stream_ships : steps.
Lemma admit_one_ships peer : respects Ships (admit_one peer).
Proof. registers. Qed.
Lemma materialize_bidi_ships id' reply : respects Ships (materialize_bidi id' reply).
Proof. registers. Qed.
Lemma materialize_uni_ships id' reply : respects Ships (materialize_uni id' reply).
Proof. registers. Qed.
#[local] Hint Resolve admit_one_ships materialize_bidi_ships materialize_uni_ships : steps.
Lemma phase2_loop_ships fuel budget bb ub pb : respects Ships (phase2_loop fuel budget bb ub pb).
Proof. revert budget bb ub pb. induction fuel; intros; simpl; destruct budget; shipping. Qed.
#[local] Hint Resolve phase2_loop_ships : steps.
Lemma run_read_pump_ships : respects Ships run_read_pump.
Proof. shipping. Qed.
Lemma open_bidi_loop_ships budget : respects Ships (open_bidi_loop budget).
Proof. induction budget; simpl; shipping. Qed.
Lemma open_uni_loop_ships budget : respects Ships (open_uni_loop budget).
Proof. induction budget; simpl; shipping. Qed.
Lemma apply_reset_ships id' code : respects Ships (apply_reset id' code).
Proof. shipping. Qed.
Lemma stage_writable_ships : respects Ships stage_writable.
Proof. shipping. Qed.
End worker_stages.

#[export] Hint Resolve send_entry_ships apply_reset_ships run_read_pump_ships open_bidi_loop_ships
  open_uni_loop_ships stage_writable_ships : steps.

(** ** Commands and callbacks *)

Section turns.
Context `{Runtime} {B C : Type} `{!Buf B} `{!QuicConn C} `{!QuicConnOk C}.
Abbreviation TW := (World B (Traced C)).
Context (id : N) (a : loc).
Abbreviation Ships := (ships (B := B) (C := C) id a).

(** Bytes in hand do not count for a half that has ended. *)
Lemma ships_dead x y (w w' : TW) : ¬ live id (drv w) → ships id a x x w w' → ships id a x y w w'.
Proof.
  intros Hd Hs Ha. destruct (Hs Ha) as [Ha' Hw]. split; [done|]. intros (?&Hp&Hl)%Hw.
  assert (¬ live id (drv w')) as Hd' by (intros []%Hl; done).
  split_and!; [done| |done]. unfold promise in *. rewrite <-liveb_live in Hd'.
  by destruct (liveb id (drv w')).
Qed.

(** An operation is queued behind the others. *)
Lemma ships_append op s (w : TW) :
  send (drv w) !! id = Some s → terminal s = None →
  Ships (op_bytes op) [] w (exec (upd_send id (λ s, s <| send_ops ::= λ q, q ++ [op] |>)) w).
Proof.
  intros Hs Ht. set (w' := exec _ w).
  assert (send (drv w') !! id = Some (s <| send_ops ::= λ q, q ++ [op] |>)) as Hs'.
  { unfold w'. simpl. by rewrite lookup_alter_eq, Hs. }
  assert (promise id [] w' = promise id (op_bytes op) w) as E.
  { unfold promise, liveb, outgoing. rewrite Hs, Hs'. simpl. rewrite bool_decide_eq_true_2 by done.
    change (log w') with (log w). change (backlog w') with (backlog w).
    unfold owed, held_bytes. simpl. rewrite fmap_app, join_app. simpl. by rewrite app_nil_r, <-!app_assoc. }
  intros Ha. split; [done|]. rewrite E. intros (?&?&?). simplify_eq. split_and!; [by exists s|done|].
  intros _. split_and!; [by exists s|done..].
Qed.

(** The bytes a command brings to [id]. *)
Lemma enqueue_ships id' op :
  ∀ w : TW, Ships (if id' =? id then op_bytes op else []) [] w (exec (enqueue_send_op id' op) w).
Proof.
  intros w. unfold enqueue_send_op. rewrite exec_bind. set (x := if _ =? _ then _ else _).
  pose proof (send_entry_ships id a x id' w) as Hr. destruct (send_entry_outgoing id' w) as (Hs&_&_).
  eapply ships_trans; [exact Hr|]. clear Hr. set (s := result (send_entry id') w) in *.
  set (w1 := exec (send_entry id') w) in *. clearbody s w1. subst x.
  destruct (terminal s) as [e|] eqn:Ht; destruct (N.eqb_spec id' id) as [->|Hne].
  - apply ships_dead; [|by_respects shipping]. intros (s'&?&?). congruence.
  - by_respects shipping.
  - rewrite exec_bind. set (w2 := exec (upd_send id _) w1).
    apply (ships_trans id a _ [] _ _ w2); [|by_respects shipping].
    by apply (ships_append op s).
  - rewrite exec_bind. set (w2 := exec (upd_send id' _) w1).
    apply (ships_trans id a _ [] _ _ w2); [by apply ships_upd_other | by_respects shipping].
Qed.
Lemma apply_command_ships cmd : ∀ w : TW, Ships (cmd_bytes id cmd) [] w (exec (apply_command cmd) w).
Proof.
  destruct cmd as [| |id' buf k p|id' k| | | | | | |]; intros w; cbn [cmd_bytes apply_command].
  3: exact (enqueue_ships id' (OpWrite buf k p) w).
  3: { pose proof (enqueue_ships id' (OpFinish k) w) as He. simpl in He. by destruct (id' =? id). }
  all: by_respects shipping.
Qed.

(** Commands change hands, the registry does not. *)
Lemma ships_cmds x y (w w' : TW) :
  send (drv w') = send (drv w) → qc w' = qc w → send_cells (sto w') = send_cells (sto w) →
  cmd_open (sto w') = cmd_open (sto w) →
  y ++ cmds_bytes id (backlog w') = x ++ cmds_bytes id (backlog w) → Ships x y w w'.
Proof.
  intros Hs Hq Hc Ho Hb Ha. split; [unfold allocated in *; by rewrite Hc|].
  unfold owned, promise, live, liveb, outgoing, log. rewrite Hs, Hq, Hb. done.
Qed.
Lemma cmd_try_recv_rest (w : TW) :
  let w' := exec (shared cmd_try_recv) w in
  drv w' = drv w ∧ qc w' = qc w ∧ send_cells (sto w') = send_cells (sto w) ∧
  cmd_open (sto w') = cmd_open (sto w).
Proof. unfold cmd_open, cmd_try_recv. simpl. by rewrite chan_try_recv_view. Qed.
Lemma next_command_ships (w : TW) :
  Ships [] (from_option (cmd_bytes id) [] (result next_command w)) w (exec next_command w).
Proof.
  destruct (next_command_backlog w) as [Hr Hb].
  assert (drv (exec next_command w) = drv w <| inbox := tail (inbox (drv w)) |> ∧ qc (exec next_command w) = qc w ∧
    send_cells (sto (exec next_command w)) = send_cells (sto w) ∧
    cmd_open (sto (exec next_command w)) = cmd_open (sto w)) as (Hd&Hq&Hc&Ho).
  { unfold next_command. rewrite exec_bind, exec_dget, result_dget. destruct (inbox (drv w)) eqn:E.
    - rewrite exec_bind, exec_ret. destruct (cmd_try_recv_rest w) as (->&?&?&?). split_and!; [|done..].
      simpl. rewrite <-E. by destruct (drv w).
    - by rewrite exec_bind, exec_ret. }
  apply ships_cmds; [by rewrite Hd|done..|]. rewrite Hr, Hb. symmetry. apply cmds_bytes_tail.
Qed.
Lemma apply_inbox_ships : respects (Ships [] []) apply_inbox.
Proof.
  unfold apply_inbox. apply respects_bind; [apply _| |intros ?; shipping].
  apply respects_budget_loop; [apply _|]. intros w. unfold apply_inbox_one. rewrite exec_bind.
  pose proof (next_command_ships w) as Hn. destruct (result next_command w) as [cmd|]; [|done].
  rewrite exec_bind, exec_ret. eapply ships_trans; [exact Hn|apply apply_command_ships].
Qed.

(** A command received while waiting goes to the inbox. *)
Lemma cmd_try_recv_queue (w : TW) :
  let w' := exec (shared cmd_try_recv) w in
  match result (shared cmd_try_recv) w with
  | Received cmd => cmd_queue (sto w) = cmd :: cmd_queue (sto w')
  | _ => cmd_queue (sto w) = [] ∧ cmd_queue (sto w') = []
  end.
Proof.
  unfold cmd_queue, cmd_try_recv, result. simpl. rewrite chan_try_recv_view, chan_try_recv_res. unfold view_recv.
  simpl. destruct (cs_queue _); [by destruct (negb _ || _)|done].
Qed.
Lemma recv_ships {A} (k : TryRecv (DriverCommand B) → ST TW A) :
  (∀ r, (∀ cmd, r ≠ Received cmd) → respects (Ships [] []) (k r)) →
  (∀ cmd, ∃ k', k (Received cmd) = dmod (λ d, d <| inbox ::= λ q, q ++ [cmd] |>) ≫= k' ∧
                ∀ u, respects (Ships [] []) (k' u)) →
  respects (Ships [] []) (shared cmd_try_recv ≫= k).
Proof.
  intros Hk Hc w. rewrite exec_bind. destruct (cmd_try_recv_rest w) as (Hd&Hq&Hcell&Ho).
  pose proof (cmd_try_recv_queue w) as Hr. cbv zeta in Hr. unfold cmd_queue in Hr.
  set (w1 := exec (shared cmd_try_recv) w) in *. clearbody w1. destruct (result (shared cmd_try_recv) w) as [cmd| |].
  1: destruct (Hc cmd) as (k'&->&Hk'); rewrite exec_bind; etrans; [|apply Hk'].
  2-3: etrans; [|by apply Hk].
  all: apply ships_cmds; simpl; rewrite ?Hd; try done; unfold backlog; simpl; rewrite Hd.
  - by rewrite Hr, <-app_assoc.
  - destruct Hr as [-> Hr]. by rewrite Hr.
  - destruct Hr as [-> Hr]. by rewrite Hr.
Qed.
Lemma wait_for_data_poll_ships p : respects (Ships [] []) (wait_for_data_poll p).
Proof.
  destruct p; [shipping|shipping| |]; apply recv_ships.
  1,3: intros [cmd| |] Hr; [by destruct (Hr cmd)|shipping..].
  all: intros cmd; eexists; split; [reflexivity|]; intros u; cbv beta; shipping.
Qed.

(** ** Teardown *)

Lemma sealed_dead t (w : TW) : ¬ live id (drv (exec (close_sends t) w)).
Proof. rewrite close_sends_drv. intros (s&Hs&Ht). simpl in Hs. rewrite lookup_fmap in Hs. apply fmap_Some in Hs as (?&_&->). done. Qed.
Lemma ships_seal t : respects (Ships [] []) (dmod (λ d, d <| send ::= fmap (seal_send_state t) |>)).
Proof.
  intros w. apply ships_intro; [done|..]; simpl.
  - intros s'. rewrite lookup_fmap. intros (s&?&->)%fmap_Some. eauto.
  - unfold outgoing. simpl. rewrite lookup_fmap. apply prefix_app. destruct (send (drv w) !! id); [|done].
    apply prefix_nil.
  - intros (s'&Hs'&Ht). simpl in Hs'. rewrite lookup_fmap in Hs'. by apply fmap_Some in Hs' as (?&_&->).
Qed.
Lemma close_sends_ships t : respects (Ships [] []) (close_sends t).
Proof.
  worker_with ltac:(idtac; first [ships_leaf | lazymatch goal with
    | |- respects _ (dmod _) => apply ships_seal end]).
Qed.

(** What is done to the commands no longer matters to a half that has ended. *)
Definition registry_view (w : TW) := (send (drv w), calls (qc w), length (send_cells (sto w))).
Lemma close_rest t : respects (same registry_view) (close_commands t;; close_opens t).
Proof.
  assert (∀ {A} (m : ST (Store B) A), respects (same (λ s, length (send_cells s))) m →
    respects (same registry_view) (shared m)) as Hm.
  { intros A m Hm w. unfold same, registry_view. f_equal. apply (Hm (sto w)). }
  assert (∀ n, respects (same registry_view) (close_drain_loop n t)) as Hl.
  { induction n; simpl; worker_with ltac:(idtac; lazymatch goal with
      | |- respects _ (dmod _) => intros ?; reflexivity
      | |- respects _ (shared _) => apply Hm; solve [store] end). }
  worker_with ltac:(idtac; first [apply Hl | lazymatch goal with
    | |- respects _ (dmod _) => intros ?; reflexivity
    | |- respects _ (shared _) => apply Hm; solve [store] end]).
Qed.
Lemma do_on_conn_close_ships : respects (Ships [] []) do_on_conn_close.
Proof.
  intros w. rewrite do_on_conn_close_split. set (t := teardown_terminal w).
  set (w1 := exec (close_publish t) w). set (w2 := exec (close_sends t) w1).
  trans w2; [trans w1; [unfold w1; by_respects shipping | apply close_sends_ships]|].
  assert (¬ live id (drv w2)) as Hd by apply sealed_dead.
  pose proof (close_rest t w2) as Hr. unfold same, registry_view in Hr. rewrite exec_bind in Hr.
  injection Hr as Hs Hl Hc. set (w3 := exec (close_opens t) _) in *.
  apply ships_intro; [lia|intros s'; rewrite Hs; eauto| |].
  - unfold outgoing, log. by rewrite Hs, Hl.
  - unfold live. by rewrite Hs.
Qed.

#[local] Hint Resolve apply_inbox_ships : steps.
Lemma worker_turn_ships (w w' : TW) : worker_turn w w' → Ships [] [] w w'.
Proof.
  apply worker_turn_respects; [shipping..| |apply do_on_conn_close_ships]. apply wait_for_data_poll_ships.
Qed.
End turns.

(** ** The pipe of one stream *)

Section pipe.
Context `{Runtime} {B C : Type} `{!Buf B} `{!QuicConn C} `{!QuicConnOk C}.
Abbreviation TW := (World B (Traced C)).
Abbreviation Half := (H3SendStream (B := B)).

(** The stream a front-end call may submit bytes on. *)
Definition writes_on (op : FrontOp (B := B)) : option N :=
  match op with FrontPollReady _ r => Some (fs_id r) | _ => None end.

(** A connection, the half an application writes to, and the buffers it has
    taken over. *)
Record Source := mkSource { src_world : TW; src_half : Half; src_given : list B }.

Inductive source_step (id : N) : relation Source :=
| source_worker w w' r given :                 (* a callback of the worker *)
    worker_turn w w' → source_step id (mkSource w r given) (mkSource w' r given)
| source_call w r given call :                 (* a call on this half *)
    source_step id (mkSource w r given)
      (mkSource (w <| sto := exec (run_call call r) (sto w) |>) (result (run_call call r) (sto w))
         (given ++ taken call r))
| source_other w r given op :                  (* a call on any other handle *)
    writes_on op ≠ Some id →
    source_step id (mkSource w r given) (mkSource (w <| sto := exec (run_front op) (sto w) |>) r given)
| source_transport w r given c :               (* packets and timers *)
    calls c = calls (qc w) → source_step id (mkSource w r given) (mkSource (w <| qc := c |>) r given).

Definition content (l : list B) : Bytes := mjoin (buf_bytes <$> l).
Lemma content_app l k : content (l ++ k) = content l ++ content k.
Proof. unfold content. by rewrite fmap_app, join_app. Qed.

(** What this half has given is promised or stashed. *)
Definition sourced (id : N) (a : loc) (p : Source) : Prop :=
  let w := src_world p in
  allocated a w ∧ fs_id (src_half p) = id ∧
  (owned id a w → promise id [] w `prefix_of` content (src_given p) ∧
     (live id (drv w) → cmd_open (sto w) = true ∧
        content (src_given p) = promise id [] w ++ content (option_list (fs_stash (src_half p))))).

Lemma written_bytes id (l : list (DriverCommand B)) :
  Forall (writes_to id) l → cmds_bytes id l = content (written l).
Proof.
  induction 1 as [|cmd l Hc _ IH]; [done|]. change (cmd_bytes id cmd ++ cmds_bytes id l = content (written (cmd :: l))).
  rewrite IH. destruct cmd; try done. simpl in Hc. subst. simpl. by rewrite N.eqb_refl.
Qed.

(** Calls submit bytes on their own stream only. *)
Lemma poll_ready_quiet id cx (r : Half) : fs_id r ≠ id → respects (quiet id) (poll_ready cx r).
Proof.
  intros Hne. worker_with ltac:(idtac; first [quiet_leaf | lazymatch goal with
    | |- respects _ (cmd_send _) => apply quiet_cmd_send; simpl; by rewrite (proj2 (N.eqb_neq _ _) Hne)
    end]).
Qed.
#[local] Hint Resolve poll_ready_quiet : steps.
Lemma run_front_quiet id op : writes_on op ≠ Some id → respects (quiet id) (run_front op).
Proof. destruct op; cbn [run_front writes_on]; intros Hne; try assert (fs_id r ≠ id) by congruence; quiets. Qed.
Lemma run_call_quiet id call (r : Half) : fs_id r ≠ id → respects (quiet id) (run_call call r).
Proof. intros Hne. destruct call; unfold run_call; quiets. Qed.

Lemma ships_front id a {A} (m : ST (Store B) A) (w : TW) :
  respects (quiet id) m → ships id a [] [] w (w <| sto := exec m (sto w) |>).
Proof. intros Hm. exact (ships_store id a [] m Hm w). Qed.

(** The world of a source moves on, the half does not. *)
Lemma sourced_ships id a w w' r given :
  ships id a [] [] w w' → sourced id a (mkSource w r given) → sourced id a (mkSource w' r given).
Proof.
  intros Hs (Ha&Hid&Hw). destruct (Hs Ha) as [Ha' Hw']. split_and!; [done..|]. intros (O&P&L)%Hw'. simpl in *.
  destruct (Hw O) as [P0 L0]. split; [by etrans|]. intros (V&->&->)%L. by apply L0.
Qed.
Lemma sourced_call id a w r given call :
  sourced id a (mkSource w r given) →
  sourced id a (mkSource (w <| sto := exec (run_call call r) (sto w) |>) (result (run_call call r) (sto w))
                  (given ++ taken call r)).
Proof.
  intros (Ha&Hid&Hw). simpl in *. set (s' := exec (run_call call r) (sto w)). set (r' := result _ _).
  destruct (run_call_spec call r (sto w)) as (l&[Hq Ho]&[Hid' Hl]&_&Hst). fold s' in Hq, Ho. fold r' in Hid', Hst.
  rewrite Hid in Hl, Hid'. apply written_bytes in Hl. apply (f_equal content) in Hst. rewrite !content_app in Hst.
  assert (allocated a (w <| sto := s' |>)) as Ha'.
  { assert (fs_id r ≠ N.succ (fs_id r)) as Hne by lia.
    destruct (run_call_quiet _ call r Hne (sto w)) as [Hc _ _]. fold s' in Hc. unfold allocated in *. simpl. lia. }
  split_and!; [done|done|]. intros O. destruct (Hw O) as [P0 L0]. simpl.
  destruct (liveb id (drv w)) eqn:V.
  - pose proof V as V'. apply liveb_live in V'. destruct (L0 V') as [Hop E].
    assert (promise id [] (w <| sto := s' |>) = promise id [] w ++ content (written l)) as Hp.
    { unfold promise, backlog. simpl. rewrite V. rewrite !cmds_bytes_app. unfold cmd_queue in Hq. rewrite Hq, Hop.
      rewrite cmds_bytes_app, Hl. change (outgoing id (w <| sto := s' |>)) with (outgoing id w).
      by rewrite <-!app_assoc. }
    assert (content (given ++ taken call r) = promise id [] (w <| sto := s' |>) ++ content (option_list (fs_stash r'))) as E'.
    { by rewrite content_app, E, Hp, <-!app_assoc, <-Hst. }
    split; [rewrite E'; by apply prefix_app_r|]. intros _. by rewrite Ho.
  - split; [|by intros ?%liveb_live; congruence]. unfold promise in *. simpl. rewrite V in *.
    change (outgoing id (w <| sto := s' |>)) with (outgoing id w). rewrite content_app. by apply prefix_app_r.
Qed.
Lemma sourced_step id a p p' : source_step id p p' → sourced id a p → sourced id a p'.
Proof.
  intros [w w' r given Ht|w r given call|w r given op Hop|w r given c Hc].
  - apply sourced_ships. by apply worker_turn_ships.
  - apply sourced_call.
  - apply sourced_ships. by apply ships_front, run_front_quiet.
  - apply sourced_ships. apply ships_intro; [done|simpl; eauto|..]; unfold outgoing, log; simpl; by rewrite Hc.
Qed.

Lemma sourced_run id a p p' : rtc (source_step id) p p' → sourced id a p → sourced id a p'.
Proof. induction 1 as [|x y z Hxy _ IH]; [done|]. intros Hx. by apply IH, (sourced_step _ _ _ _ Hxy). Qed.

(** A half that has just been handed over: its entry is in the registry, live,
    nothing has been written on its stream and the worker takes commands. *)
Record handed_over (r : Half) (w : TW) : Prop := {
  handed_stash : fs_stash r = None;
  handed_status : allocated (fs_status r) w;
  handed_live : live (fs_id r) (drv w);
  handed_open : cmd_open (sto w) = true;
  handed_clean : promise (fs_id r) [] w = [];
}.

(** C3.  What the transport is given is what the application wrote: from the
    moment a half is handed over, in any interleaving of worker callbacks, calls on
    this and on other handles and transport activity, as long as the registry's
    entry is this half's, the bytes the transport accepted on the stream are a
    prefix, in order, of the bytes [send_data] took over; and while the half is
    live, what is missing is exactly what the worker holds for the stream, then
    the submitted commands, then the stashed buffer. *)
Theorem transport_gets_what_was_written w0 r0 p :
  let id := fs_id r0 in let w := src_world p in
  handed_over r0 w0 → rtc (source_step id) (mkSource w0 r0 []) p → owned id (fs_status r0) w →
  accepted id (log w) `prefix_of` content (src_given p) ∧
  ∀ s, send (drv w) !! id = Some s → terminal s = None →
    content (src_given p) = accepted id (log w) ++ owed s ++ cmds_bytes id (backlog w)
                              ++ content (option_list (fs_stash (src_half p))).
Proof.
  intros id w [Hst Ha Hl Hop Hp] Hs Hw.
  destruct (sourced_run id (fs_status r0) _ _ Hs) as (_&_&Hsrc).
  { split_and!; [done..|]. simpl. fold id in Hp. by rewrite Hp, Hst. }
  destruct (Hsrc Hw) as [HP HL]. fold w in HP, HL. split.
  - etrans; [|exact HP]. unfold promise, outgoing. rewrite <-app_assoc. by apply prefix_app_r.
  - intros s Hs' Ht. destruct (HL ltac:(by exists s)) as [_ ->]. unfold promise, outgoing, liveb.
    rewrite Hs'. simpl. rewrite bool_decide_eq_true_2 by done. by rewrite <-!app_assoc.
Qed.
End pipe.
