(* ===== verification/Typing.v ===== *)
(** * Which stream may be used how

    A QUIC stream id says who opened the stream and whether it is unidirectional:
    a unidirectional stream can be written only by the side that opened it and read
    only by the other.  The bridge carries ids untyped through registries, queues,
    commands and handoffs.  Here: what the shared store may hold, that every call
    of the front end keeps it so, and that the halves an application is handed
    are of streams it can use them on. *)

From S2P Require Import Prelude Interfaces Error Buffer Conn DriverTypes DriverStore DriverCore DriverRecv DriverSend Driver DriverLogic StoreLogic DriverInv Trace DriverReach DriverIds DriverTeardown Stream StreamLogic System.

Section typing.
Context `{Runtime} {B : Type} `{!Buf B} (srv : bool).
Abbreviation St := (Store B).

(** All but the peer's unidirectional streams; all but our own. *)
Definition sendable (id : N) : Prop := id mod 4 ≠ id_base (negb srv) false.
Definition receivable (id : N) : Prop := id mod 4 ≠ id_base srv false.

Lemma bidi_both id : is_bidi id = true → sendable id ∧ receivable id.
Proof.
  rewrite is_bidi_mod, N.ltb_lt. unfold sendable, receivable, id_base. intros. destruct srv; simpl; lia.
Qed.

Definition typed_cmd (cmd : DriverCommand B) : Prop :=
  match cmd with
  | Send id _ _ _ | Finish id _ | Reset id _ => sendable id
  | StopSending id _ => receivable id
  | _ => True
  end.
Definition typed_cleanup (h : HandoffCleanup) : Prop :=
  if hc_is_recv h then receivable (hc_id h) else sendable (hc_id h).
Definition typed_recv (h : RecvHandoff) : Prop := receivable (rh_id h) ∧ typed_cleanup (rh_cleanup h).
Definition typed_send (h : SendHandoff) : Prop := sendable (sh_id h) ∧ typed_cleanup (sh_cleanup h).
Definition typed_bidi (h : BidiHandoff) : Prop := typed_send (bh_send h) ∧ typed_recv (bh_recv h).

(** An unread answer carries a typed handoff. *)
Definition typed_reply {T E} (P : T → Prop) (o : oneshot (Result T E)) : Prop :=
  ∀ h, os_value (os_view o) = Some (Ok h) → P h.

Record typed_store (s : St) : Prop := {
  ts_cmds : Forall typed_cmd (cmd_queue s);
  ts_bidi : Forall typed_bidi (cs_queue (chan_view (accept_bidi_chan s)));
  ts_uni : Forall typed_recv (cs_queue (chan_view (accept_uni_chan s)));
  ts_bidi_replies : Forall (typed_reply typed_bidi) (bidi_replies s);
  ts_uni_replies : Forall (typed_reply typed_send) (uni_replies s);
}.

(** ** The store *)

Definition handoff_view (s : St) :=
  (cmd_chan s, accept_bidi_chan s, accept_uni_chan s, bidi_replies s, uni_replies s).
Lemma typed_same {A} (m : ST St A) : respects (same handoff_view) m → respects (keeps typed_store) m.
Proof.
  intros Hm s [T1 T2 T3 T4 T5]. specialize (Hm s). unfold same, handoff_view in Hm.
  injection Hm as E1 E2 E3 E4 E5. split; unfold cmd_queue in *; by rewrite ?E1, ?E2, ?E3, ?E4, ?E5.
Qed.

Lemma typed_at_bidi {A} a (dflt : A) f :
  (∀ o, typed_reply typed_bidi o → typed_reply typed_bidi (f o).2) →
  respects (keeps typed_store) (at_loc bidi_replies a dflt f).
Proof.
  intros Hf s Hs. unfold at_loc, exec. destruct (bidi_replies s !! a) as [o|] eqn:Ho; [|done].
  destruct Hs as [T1 T2 T3 T4 T5]. split; try done. apply Forall_insert; [done|].
  apply Hf. by eapply Forall_lookup_1.
Qed.
Lemma typed_at_uni {A} a (dflt : A) f :
  (∀ o, typed_reply typed_send o → typed_reply typed_send (f o).2) →
  respects (keeps typed_store) (at_loc uni_replies a dflt f).
Proof.
  intros Hf s Hs. unfold at_loc, exec. destruct (uni_replies s !! a) as [o|] eqn:Ho; [|done].
  destruct Hs as [T1 T2 T3 T4 T5]. split; try done. apply Forall_insert; [done|].
  apply Hf. by eapply Forall_lookup_1.
Qed.
Lemma typed_alloc_bidi : respects (keeps typed_store) (alloc bidi_replies os_new).
Proof.
  intros s [T1 T2 T3 T4 T5]. split; try done. apply Forall_app. split; [done|]. constructor; [|done].
  intros h. by rewrite os_new_view.
Qed.
Lemma typed_alloc_uni : respects (keeps typed_store) (alloc uni_replies os_new).
Proof.
  intros s [T1 T2 T3 T4 T5]. split; try done. apply Forall_app. split; [done|]. constructor; [|done].
  intros h. by rewrite os_new_view.
Qed.

(** Oneshot operations: only an answer brings a value in. *)
Lemma typed_os_drop_tx {T E} (P : T → Prop) (o : oneshot (Result T E)) :
  typed_reply P o → typed_reply P (os_drop_tx o).
Proof. intros Ho h. rewrite os_drop_tx_view. apply Ho. Qed.
Lemma typed_os_drop_rx {T E} (P : T → Prop) (o : oneshot (Result T E)) : typed_reply P (os_drop_rx o).2.
Proof. intros h. by rewrite os_drop_rx_view. Qed.
Lemma typed_os_poll {T E} (P : T → Prop) cx (o : oneshot (Result T E)) : typed_reply P (os_poll cx o).2.
Proof. intros h. by rewrite os_poll_view. Qed.
Lemma typed_os_send {T E} (P : T → Prop) r (o : oneshot (Result T E)) :
  (∀ h, r = Ok h → P h) → typed_reply P o → typed_reply P (os_send r o).2.
Proof. intros Hr Ho h. rewrite os_send_view. simpl. destruct (os_rx _); [|apply Ho]. intros [= ->]. by apply Hr. Qed.

Lemma typed_bidi_send a r : (∀ h, r = Ok h → typed_bidi h) → respects (keeps typed_store) (bidi_reply_send a r).
Proof. intros Hr. apply typed_at_bidi. intros o. by apply typed_os_send. Qed.
Lemma typed_uni_send a r : (∀ h, r = Ok h → typed_send h) → respects (keeps typed_store) (uni_reply_send a r).
Proof. intros Hr. apply typed_at_uni. intros o. by apply typed_os_send. Qed.
Lemma typed_bidi_drop_tx a : respects (keeps typed_store) (bidi_reply_drop_tx a).
Proof. apply typed_at_bidi. intros o. apply typed_os_drop_tx. Qed.
Lemma typed_uni_drop_tx a : respects (keeps typed_store) (uni_reply_drop_tx a).
Proof. apply typed_at_uni. intros o. apply typed_os_drop_tx. Qed.

(** Channel operations that add nothing. *)
Lemma typed_cmd_chan f :
  (∀ c, cs_queue (chan_view (f c)) = cs_queue (chan_view c)) →
  respects (keeps typed_store) (modify (λ s : St, s <| cmd_chan ::= f |>)).
Proof.
  intros Hf s [T1 T2 T3 T4 T5]. rewrite exec_modify. split; try done. unfold cmd_queue in *. simpl. by rewrite Hf.
Qed.
Lemma typed_clone : respects (keeps typed_store) cmd_clone_tx.
Proof. apply typed_cmd_chan. intros c. by rewrite chan_clone_tx_view. Qed.
Lemma typed_drop_tx : respects (keeps typed_store) cmd_drop_tx.
Proof. apply typed_cmd_chan. intros c. by rewrite chan_drop_tx_view. Qed.
Lemma typed_close : respects (keeps typed_store) cmd_close.
Proof. apply typed_cmd_chan. intros c. by rewrite chan_close_view. Qed.
Lemma typed_upgrade : respects (keeps typed_store) cmd_upgrade.
Proof.
  intros s Hs. unfold cmd_upgrade, exec. pose proof (chan_upgrade_view _ (cmd_chan s)) as Hu.
  destruct (chan_upgrade (cmd_chan s)) as [c|]; [|done]. simpl in Hu. destruct (_ =? _)%nat; [done|].
  injection Hu as Hu. destruct Hs as [T1 T2 T3 T4 T5]. split; try done. unfold cmd_queue in *. simpl. by rewrite Hu.
Qed.
Lemma typed_permit_drop_bidi : respects (keeps typed_store) accept_bidi_permit_drop.
Proof. intros s [T1 T2 T3 T4 T5]. split; try done. simpl. by rewrite chan_permit_drop_view. Qed.
Lemma typed_permit_drop_uni : respects (keeps typed_store) accept_uni_permit_drop.
Proof. intros s [T1 T2 T3 T4 T5]. split; try done. simpl. by rewrite chan_permit_drop_view. Qed.
End typing.

#[export] Hint Resolve typed_permit_drop_bidi typed_permit_drop_uni typed_alloc_bidi typed_alloc_uni typed_bidi_drop_tx typed_uni_drop_tx typed_clone
  typed_drop_tx typed_close typed_upgrade : steps.

Ltac typed_leaf :=
  idtac; lazymatch goal with
  | |- respects (keeps (typed_store _)) (at_loc bidi_replies _ _ os_drop_rx) => apply typed_at_bidi; intros; apply typed_os_drop_rx
  | |- respects (keeps (typed_store _)) (at_loc uni_replies _ _ os_drop_rx) => apply typed_at_uni; intros; apply typed_os_drop_rx
  | |- respects (keeps (typed_store _)) (at_loc bidi_replies _ _ (os_poll _)) => apply typed_at_bidi; intros; apply typed_os_poll
  | |- respects (keeps (typed_store _)) (at_loc uni_replies _ _ (os_poll _)) => apply typed_at_uni; intros; apply typed_os_poll
  | |- respects (keeps (typed_store _)) (at_loc _ _ _ _) => apply typed_same; solve [store_leaf]
  | |- respects (keeps (typed_store _)) (alloc _ _) =>
      first [apply typed_alloc_bidi | apply typed_alloc_uni | apply typed_same; solve [store_leaf]]
  | |- respects (keeps (typed_store _)) (modify _) => apply typed_same; solve [store_leaf]
  | |- respects (keeps (typed_store _)) (λ _, _) => apply typed_same; solve [store_leaf]
  end.
Ltac typed_steps := worker_with typed_leaf.

Section store_ops.
Context `{Runtime} {B : Type} `{!Buf B} (srv : bool).
Abbreviation St := (Store B).
Abbreviation T := (keeps (typed_store (B := B) srv)).

Lemma typed_drop_command cmd : respects T (drop_command cmd).
Proof. typed_steps. Qed.
Lemma typed_cmd_send cmd : typed_cmd srv cmd → respects T (cmd_send cmd).
Proof.
  intros Hc. unfold cmd_send. apply respects_bind; [apply _| |].
  - intros s []. unfold exec. split; simpl; try done. unfold cmd_queue. simpl. rewrite chan_send_view.
    destruct (cs_rx_open _); [|done]. simpl. apply Forall_app. split; [done|by repeat constructor].
  - intros ok. apply respects_bind; [apply _| |intros; apply respects_ret, _].
    destruct ok; [apply respects_skip, _|apply typed_drop_command].
Qed.
Lemma typed_cleanup_drop h : typed_cleanup srv h → respects T (cleanup_drop h).
Proof.
  destruct h as [id [] []]; unfold typed_cleanup, cleanup_drop; simpl; intros Hh;
    worker_with ltac:(idtac; first [typed_leaf | lazymatch goal with
      | |- respects _ (cmd_send _) => by apply typed_cmd_send end]).
Qed.
Lemma typed_drop_recv h : typed_recv srv h → respects T (drop_recv_handoff h).
Proof. intros [_ Hh]. pose proof (typed_cleanup_drop _ Hh). unfold drop_recv_handoff. typed_steps; auto. Qed.
Lemma typed_drop_send h : typed_send srv h → respects T (drop_send_handoff h).
Proof. intros [_ Hh]. pose proof (typed_cleanup_drop _ Hh). unfold drop_send_handoff. typed_steps; auto. Qed.
Lemma typed_drop_bidi h : typed_bidi srv h → respects T (drop_bidi_handoff h).
Proof.
  intros [Hs Hr]. apply respects_bind; [apply _|by apply typed_drop_send|]. intros _. by apply typed_drop_recv.
Qed.
Lemma typed_disarm h : respects T (cleanup_disarm h).
Proof. unfold cleanup_disarm, cleanup_drop. simpl. typed_steps. Qed.
#[local] Hint Resolve typed_disarm : steps.

(** ** The front end *)

(** The application uses a half on the stream it was handed. *)
Definition typed_op (op : FrontOp (B := B)) : Prop :=
  match op with
  | FrontRecvFrom h => typed_recv srv h
  | FrontSendFrom h => typed_send srv h
  | FrontPollData _ r | FrontStop _ r | FrontRecvDrop r => receivable srv (fr_id r)
  | FrontPollReady _ r | FrontPollFinish _ r | FrontReset _ r | FrontSendDrop r => sendable srv (fs_id r)
  | _ => True
  end.

(** A oneshot is read: what it held was typed. *)
Lemma typed_drop_bidi_rx a (k : option (Result BidiHandoff ConnTerminal) → ST St unit) :
  (∀ v, (∀ h, v = Some (Ok h) → typed_bidi srv h) → respects T (k v)) →
  respects T (at_loc bidi_replies a None os_drop_rx ≫= k).
Proof.
  intros Hk s Hs. rewrite exec_bind. apply Hk.
  - unfold at_loc, result. destruct (bidi_replies s !! a) as [o|] eqn:Ho; [|done]. simpl. rewrite os_drop_rx_res.
    intros h. destruct Hs as [_ _ _ Hr _]. apply (Forall_lookup_1 _ _ _ _ Hr Ho).
  - revert Hs. change (T s (exec (at_loc bidi_replies a None os_drop_rx) s)). by_respects typed_steps.
Qed.
Lemma typed_drop_uni_rx a (k : option (Result SendHandoff ConnTerminal) → ST St unit) :
  (∀ v, (∀ h, v = Some (Ok h) → typed_send srv h) → respects T (k v)) →
  respects T (at_loc uni_replies a None os_drop_rx ≫= k).
Proof.
  intros Hk s Hs. rewrite exec_bind. apply Hk.
  - unfold at_loc, result. destruct (uni_replies s !! a) as [o|] eqn:Ho; [|done]. simpl. rewrite os_drop_rx_res.
    intros h. destruct Hs as [_ _ _ _ Hr]. apply (Forall_lookup_1 _ _ _ _ Hr Ho).
  - revert Hs. change (T s (exec (at_loc uni_replies a None os_drop_rx) s)). by_respects typed_steps.
Qed.
Lemma typed_opener_drop o : respects T (opener_drop o).
Proof.
  unfold opener_drop. apply respects_bind; [apply _|typed_steps|]. intros _. apply respects_bind; [apply _| |intros _].
  - apply respects_for_some; [apply _|]. intros a _. apply typed_drop_bidi_rx. intros [[h|]|] Hh; [|typed_steps..].
    by apply typed_drop_bidi, Hh.
  - apply respects_for_some; [apply _|]. intros a _. apply typed_drop_uni_rx. intros [[h|]|] Hh; [|typed_steps..].
    by apply typed_drop_send, Hh.
Qed.

(** An accept queue is read, or dropped with what is in it. *)
Lemma typed_accept_bidi_poll cx : respects T (accept_bidi_poll cx).
Proof.
  intros s [T1 T2 T3 T4 T5]. split; try done. simpl. rewrite chan_poll_recv_view. simpl. by apply Forall_tail.
Qed.
Lemma typed_accept_uni_poll cx : respects T (accept_uni_poll cx).
Proof.
  intros s [T1 T2 T3 T4 T5]. split; try done. simpl. rewrite chan_poll_recv_view. simpl. by apply Forall_tail.
Qed.
Lemma typed_accept_bidi_drop {A} (k : unit → ST St A) :
  (∀ u, respects T (k u)) → respects T (hs ← accept_bidi_drop_rx; for_each hs drop_bidi_handoff ≫= k).
Proof.
  intros Hk s Hs. rewrite exec_bind, exec_bind. apply Hk. refine (respects_for_each_Forall T _ _ _ _ _).
  - unfold accept_bidi_drop_rx, result. simpl. rewrite chan_drop_rx_res. destruct Hs as [_ Hb _ _ _].
    eapply Forall_impl; [exact Hb|]. apply typed_drop_bidi.
  - destruct Hs as [T1 T2 T3 T4 T5]. split; try done. simpl. by rewrite chan_drop_rx_view.
Qed.
Lemma typed_accept_uni_drop {A} (k : unit → ST St A) :
  (∀ u, respects T (k u)) → respects T (us ← accept_uni_drop_rx; for_each us drop_recv_handoff ≫= k).
Proof.
  intros Hk s Hs. rewrite exec_bind, exec_bind. apply Hk. refine (respects_for_each_Forall T _ _ _ _ _).
  - unfold accept_uni_drop_rx, result. simpl. rewrite chan_drop_rx_res. destruct Hs as [_ _ Hu _ _].
    eapply Forall_impl; [exact Hu|]. apply typed_drop_recv.
  - destruct Hs as [T1 T2 T3 T4 T5]. split; try done. simpl. by rewrite chan_drop_rx_view.
Qed.
#[local] Hint Resolve typed_opener_drop typed_accept_bidi_poll typed_accept_uni_poll : steps.

(** Every call of the front end keeps the store typed. *)
Lemma run_front_typed op : typed_op op → respects T (run_front op).
Proof.
  intros Hop. destruct op; cbn [run_front]; simpl in Hop;
    worker_with ltac:(idtac; first [typed_leaf | lazymatch goal with
      | |- respects _ (cmd_send _) => by apply typed_cmd_send
      | |- respects _ (mbind _ accept_bidi_drop_rx) => apply typed_accept_bidi_drop; intros ?
      | |- respects _ (mbind _ accept_uni_drop_rx) => apply typed_accept_uni_drop; intros ?
      end]).
Qed.
End store_ops.

#[export] Hint Resolve typed_drop_command typed_disarm typed_opener_drop : steps.

(** ** What an application is handed *)

Section grants.
Context `{Runtime} {B : Type} `{!Buf B} (srv : bool).
Abbreviation St := (Store B).
Abbreviation T := (keeps (typed_store (B := B) srv)).

(** [yields m P]: on a typed store, [m] returns a value satisfying [P]. *)
Definition yields {A} (m : ST St A) (P : A → Prop) : Prop := ∀ s, typed_store srv s → P (result m s).
Lemma yields_bind {A A'} (m : ST St A) (k : A → ST St A') Q P :
  respects T m → yields m Q → (∀ a, Q a → yields (k a) P) → yields (m ≫= k) P.
Proof. intros Hm HQ Hk s Hs. rewrite result_bind. apply Hk; [by apply HQ|by apply Hm]. Qed.
Lemma yields_then {A A'} (m : ST St A) (k : A → ST St A') P :
  respects T m → (∀ a, yields (k a) P) → yields (m ≫= k) P.
Proof. intros Hm Hk. eapply (yields_bind m k (λ _, True)); [done|by intros s|auto]. Qed.
Lemma yields_ret {A} (a : A) (P : A → Prop) : P a → yields (mret a) P.
Proof. by intros Ha s. Qed.

Definition given_recv (x : H3RecvStream) : Prop := receivable srv (fr_id x).
Definition given_send (x : H3SendStream (B := B)) : Prop := sendable srv (fs_id x).
Definition given_bidi (x : H3Stream (B := B)) : Prop := given_send (fb_send x) ∧ given_recv (fb_recv x).
(** A poll that returns a value returns one satisfying [P]. *)
Definition ready_ok {A E} (P : A → Prop) (p : Poll (Result A E)) : Prop := ∀ a, p = Ready (Ok a) → P a.

Lemma recv_from_handoff_given h : typed_recv srv h → yields (recv_from_handoff h) given_recv.
Proof. by intros [Hh _] s _. Qed.
Lemma send_from_handoff_given h : typed_send srv h → yields (send_from_handoff h) given_send.
Proof. by intros [Hh _] s _. Qed.
Lemma bidi_from_handoff_given h : typed_bidi srv h → yields (bidi_from_handoff h) given_bidi.
Proof. by intros [[Hs _] [Hr _]] s _. Qed.

Lemma accept_bidi_poll_yields cx :
  yields (accept_bidi_poll cx) (λ p, ∀ h, p = Ready (Some h) → typed_bidi srv h).
Proof.
  intros s [_ Hq _ _ _]. unfold accept_bidi_poll, result. simpl. rewrite chan_poll_recv_res. unfold view_recv.
  destruct (cs_queue _); [by destruct (negb _ || _)|]. intros h [= <-]. by apply Forall_cons in Hq as [].
Qed.
Lemma accept_uni_poll_yields cx :
  yields (accept_uni_poll cx) (λ p, ∀ h, p = Ready (Some h) → typed_recv srv h).
Proof.
  intros s [_ _ Hq _ _]. unfold accept_uni_poll, result. simpl. rewrite chan_poll_recv_res. unfold view_recv.
  destruct (cs_queue _); [by destruct (negb _ || _)|]. intros h [= <-]. by apply Forall_cons in Hq as [].
Qed.
#[local] Hint Resolve typed_accept_bidi_poll typed_accept_uni_poll : steps.
Lemma signal_bidi_typed : respects T signal_accept_bidi_resume.
Proof.
  worker_with ltac:(idtac; first [typed_leaf | lazymatch goal with
    | |- respects _ (cmd_send _) => by apply typed_cmd_send end]).
Qed.
Lemma signal_uni_typed : respects T signal_accept_uni_resume.
Proof.
  worker_with ltac:(idtac; first [typed_leaf | lazymatch goal with
    | |- respects _ (cmd_send _) => by apply typed_cmd_send end]).
Qed.
#[local] Hint Resolve signal_bidi_typed signal_uni_typed : steps.

Lemma poll_accept_bidi_given cx : yields (poll_accept_bidi cx) (ready_ok given_bidi).
Proof.
  assert (∀ h, typed_bidi srv h → yields (signal_accept_bidi_resume;; r ← bidi_from_handoff h; mret (Ready (Ok r)))
    (ready_ok (E := h3_conn_error) given_bidi)) as Hh.
  { intros h Hh. apply yields_then; [typed_steps|]. intros _.
    eapply yields_bind; [typed_steps|by apply bidi_from_handoff_given|]. intros b Hb. apply yields_ret. by intros ? [= <-]. }
  unfold poll_accept_bidi. eapply yields_bind; [typed_steps|apply accept_bidi_poll_yields|].
  intros [[h|]|] Hp; [by apply Hh, Hp|apply yields_then; [typed_steps|]; by intros t|].
  apply yields_then; [typed_steps|]. intros [t|]; [|by apply yields_ret].
  eapply yields_bind; [typed_steps|apply accept_bidi_poll_yields|]. intros [[h|]|] Hp'; [by apply Hh, Hp'|by apply yields_ret..].
Qed.
Lemma poll_accept_recv_given cx : yields (poll_accept_recv cx) (ready_ok given_recv).
Proof.
  assert (∀ h, typed_recv srv h → yields (signal_accept_uni_resume;; r ← recv_from_handoff h; mret (Ready (Ok r)))
    (ready_ok (E := h3_conn_error) given_recv)) as Hh.
  { intros h Hh. apply yields_then; [typed_steps|]. intros _.
    eapply yields_bind; [typed_steps|by apply recv_from_handoff_given|]. intros b Hb. apply yields_ret. by intros ? [= <-]. }
  unfold poll_accept_recv. eapply yields_bind; [typed_steps|apply accept_uni_poll_yields|].
  intros [[h|]|] Hp; [by apply Hh, Hp|apply yields_then; [typed_steps|]; by intros t|].
  apply yields_then; [typed_steps|]. intros [t|]; [|by apply yields_ret].
  eapply yields_bind; [typed_steps|apply accept_uni_poll_yields|]. intros [[h|]|] Hp'; [by apply Hh, Hp'|by apply yields_ret..].
Qed.

Lemma bidi_replies_poll_yields a cx :
  yields (at_loc bidi_replies a (Ready None) (os_poll cx)) (λ p, ∀ h, p = Ready (Some (Ok h)) → typed_bidi srv h).
Proof.
  intros s [_ _ _ Hr _]. unfold at_loc, result. destruct (bidi_replies s !! a) as [o|] eqn:Ho; [|done]. simpl.
  rewrite os_poll_res. intros h. destruct (os_value _) eqn:Hv; [|by destruct (os_tx _)]. intros [= ->].
  by apply (Forall_lookup_1 _ _ _ _ Hr Ho).
Qed.
Lemma uni_replies_poll_yields a cx :
  yields (at_loc uni_replies a (Ready None) (os_poll cx)) (λ p, ∀ h, p = Ready (Some (Ok h)) → typed_send srv h).
Proof.
  intros s [_ _ _ _ Hr]. unfold at_loc, result. destruct (uni_replies s !! a) as [o|] eqn:Ho; [|done]. simpl.
  rewrite os_poll_res. intros h. destruct (os_value _) eqn:Hv; [|by destruct (os_tx _)]. intros [= ->].
  by apply (Forall_lookup_1 _ _ _ _ Hr Ho).
Qed.
Lemma poll_pending_bidi_given cx a o : yields (poll_pending_bidi cx a o) (λ x, ready_ok given_bidi x.1).
Proof.
  unfold poll_pending_bidi. eapply yields_bind; [typed_steps|apply bidi_replies_poll_yields|].
  intros [[[h|t]|]|] Hp; [|by apply yields_ret| |by apply yields_ret].
  - eapply yields_bind; [typed_steps|by apply bidi_from_handoff_given, Hp|]. intros b Hb. apply yields_ret. by intros ? [= <-].
  - apply yields_then; [typed_steps|]. by intros e.
Qed.
Lemma poll_pending_uni_given cx a o : yields (poll_pending_uni cx a o) (λ x, ready_ok given_send x.1).
Proof.
  unfold poll_pending_uni. eapply yields_bind; [typed_steps|apply uni_replies_poll_yields|].
  intros [[[h|t]|]|] Hp; [|by apply yields_ret| |by apply yields_ret].
  - eapply yields_bind; [typed_steps|by apply send_from_handoff_given, Hp|]. intros b Hb. apply yields_ret. by intros ? [= <-].
  - apply yields_then; [typed_steps|]. by intros e.
Qed.
Lemma poll_open_bidi_given cx o : yields (poll_open_bidi cx o) (λ x, ready_ok given_bidi x.1).
Proof.
  unfold poll_open_bidi. case_match; [apply poll_pending_bidi_given|]. apply yields_then; [typed_steps|].
  intros [t|]; [by apply yields_ret|]. apply yields_then; [typed_steps|]. intros a.
  apply yields_then; [by apply typed_cmd_send|]. intros [|]; simpl; [apply poll_pending_bidi_given|].
  apply yields_then; [typed_steps|]. by intros e.
Qed.
Lemma poll_open_send_given cx o : yields (poll_open_send cx o) (λ x, ready_ok given_send x.1).
Proof.
  unfold poll_open_send. case_match; [apply poll_pending_uni_given|]. apply yields_then; [typed_steps|].
  intros [t|]; [by apply yields_ret|]. apply yields_then; [typed_steps|]. intros a.
  apply yields_then; [by apply typed_cmd_send|]. intros [|]; simpl; [apply poll_pending_uni_given|].
  apply yields_then; [typed_steps|]. by intros e.
Qed.

(** The streams an application can send and receive on: those of the halves the
    bridge has given it. *)
Record Held := mkHeld { held_sends : list N; held_recvs : list N }.

Definition granted (op : FrontOp (B := B)) (s : St) : Held :=
  match op with
  | FrontAcceptRecv cx =>
      match result (poll_accept_recv cx) s with Ready (Ok r) => mkHeld [] [fr_id r] | _ => mkHeld [] [] end
  | FrontAcceptBidi cx =>
      match result (poll_accept_bidi cx) s with
      | Ready (Ok b) => mkHeld [fs_id (fb_send b)] [fr_id (fb_recv b)] | _ => mkHeld [] [] end
  | FrontOpenBidi cx o =>
      match (result (poll_open_bidi cx o) s).1 with
      | Ready (Ok b) => mkHeld [fs_id (fb_send b)] [fr_id (fb_recv b)] | _ => mkHeld [] [] end
  | FrontOpenUni cx o =>
      match (result (poll_open_send cx o) s).1 with Ready (Ok r) => mkHeld [fs_id r] [] | _ => mkHeld [] [] end
  | _ => mkHeld [] []
  end.

(** A call on a half needs the half; handoffs are converted inside the bridge. *)
Definition permitted (h : Held) (op : FrontOp (B := B)) : Prop :=
  match op with
  | FrontRecvFrom _ | FrontSendFrom _ => False
  | FrontPollData _ r | FrontStop _ r | FrontRecvDrop r => fr_id r ∈ held_recvs h
  | FrontPollReady _ r | FrontPollFinish _ r | FrontReset _ r | FrontSendDrop r => fs_id r ∈ held_sends h
  | _ => True
  end.

Definition typed_held (h : Held) : Prop := Forall (sendable srv) (held_sends h) ∧ Forall (receivable srv) (held_recvs h).

Lemma permitted_typed h op : typed_held h → permitted h op → typed_op srv op.
Proof. intros [Hs Hr]. rewrite Forall_forall in Hs, Hr. destruct op; simpl; auto; done. Qed.
Lemma granted_typed op (s : St) : typed_store srv s → typed_held (granted op s).
Proof.
  intros Hs. destruct op; simpl; try by split; constructor.
  - pose proof (poll_open_bidi_given cx o s Hs) as Hg. cbv beta in Hg. destruct (result _ s).1 as [[b|]|]; [|by split; constructor..].
    destruct (Hg b eq_refl). split; by repeat constructor.
  - pose proof (poll_open_send_given cx o s Hs) as Hg. cbv beta in Hg. destruct (result _ s).1 as [[b|]|]; [|by split; constructor..].
    pose proof (Hg b eq_refl). split; by repeat constructor.
  - pose proof (poll_accept_recv_given cx s Hs) as Hg. destruct (result _ s) as [[b|]|]; [|by split; constructor..].
    pose proof (Hg b eq_refl). split; by repeat constructor.
  - pose proof (poll_accept_bidi_given cx s Hs) as Hg. destruct (result _ s) as [[b|]|]; [|by split; constructor..].
    destruct (Hg b eq_refl). split; by repeat constructor.
Qed.
End grants.
