(* ===== verification/Directions.v ===== *)
(** * Streams are used in their direction

    The typing of [Typing] extended to the worker: its registries, queues and the
    commands it has taken.  Every callback preserves it, and therefore every call
    made on the transport names a stream in a direction it has. *)

From S2P Require Import Prelude Interfaces Error Buffer Conn DriverTypes DriverStore DriverCore DriverRecv DriverSend Driver DriverLogic StoreLogic DriverInv Trace DriverReach DriverIds DriverTeardown Stream StreamLogic System Typing.

(** ** The worker *)

Section calls.
Context (srv : bool).

(** A call names a stream in a direction it has. *)
Definition directed (c : Call) : Prop :=
  match c with
  | CRecv id _ _ | CShutdown id quiche.Read _ => receivable srv id
  | CSend id _ _ _ | CShutdown id quiche.Write _ => sendable srv id
  | CWritable id _ _ | CCapacity id _ | CPriority id _ => sendable srv id
  | _ => True
  end.
(** What the transport reports as readable can be read. *)
Definition reported (c : Call) : Prop :=
  match c with CReadableNext (Some id) => receivable srv id | _ => True end.
End calls.

Section worker.
Context `{Runtime} {B C : Type} `{!Buf B} `{!QuicConn C} (srv : bool).
Abbreviation TW := (World B (Traced C)).

Record typed_driver (d : QuicheDriver B) : Prop := {
  td_inbox : Forall (typed_cmd srv) (inbox d);
  td_send id : is_Some (send d !! id) → sendable srv id;
  td_recv id : is_Some (recv d !! id) → receivable srv id;
  td_pending id p : pending_admit d !! id = Some p → receivable srv id ∧ ps_id p = id;
  td_parked id p : admission d !! id = Some (Parked p) → receivable srv id ∧ ps_id p = id;
  td_next_bidi : next_bidi_id d mod 4 = id_base srv true;
  td_next_uni : next_uni_id d mod 4 = id_base srv false;
}.

Record typed (w : TW) : Prop := {
  t_driver : typed_driver (drv w);
  t_store : typed_store srv (sto w);
  t_log : Forall (directed srv) (log w);
}.

(** Typing is kept as long as the transport reports readable streams only. *)
Definition types : relation TW := λ w w',
  ∃ l, log w' = log w ++ l ∧ (Forall (reported srv) l → typed w → typed w').
#[export] Instance types_preorder : PreOrder types.
Proof.
  split.
  - intros w. exists []. by rewrite app_nil_r.
  - intros w1 w2 w3 (l1&E1&H1) (l2&E2&H2). exists (l1 ++ l2). rewrite E2, E1, app_assoc. split; [done|].
    intros [??]%Forall_app ?. auto.
Qed.

Lemma types_dmod f : (∀ d, typed_driver d → typed_driver (f d)) → respects types (dmod f).
Proof. intros Hf w. exists []. rewrite app_nil_r. split; [done|]. intros _ []. split; [|done..]. by apply Hf. Qed.
Lemma types_shared {A} (m : ST (Store B) A) : respects (keeps (typed_store srv)) m → respects types (shared m).
Proof. intros Hm w. exists []. rewrite app_nil_r. split; [done|]. intros _ []. split; [done| |done]. by apply Hm. Qed.
Lemma types_call {A} (m : ST C A) ev : (∀ a, directed srv (ev a)) → respects types (call (logged m ev)).
Proof.
  intros He w. eexists [_]. split; [reflexivity|]. intros _ []. split; [done..|]. apply Forall_app.
  split; [done|]. constructor; [apply He|done].
Qed.

(** The log grows whatever happens. *)
Abbreviation logs := (Trace.emits (B := B) (C := C) (λ _, True)).

(** What a typed state tells about a value that is read off it. *)
Lemma types_know {A A'} (m : ST TW A) (k : A → ST TW A') (P : A → Prop) :
  (∀ w, exec m w = w) → (∀ w, typed w → P (result m w)) → (∀ a, P a → respects types (k a)) →
  (∀ a, respects logs (k a)) → respects types (m ≫= k).
Proof.
  intros Hm HP Hk Hl w. rewrite exec_bind, Hm. destruct (Hl (result m w) w) as (l&El&_). exists l. split; [done|].
  intros Hr Hw. destruct (Hk _ (HP w Hw) w) as (l'&El'&Ht). rewrite El' in El. simplify_list_eq. auto.
Qed.
End worker.

Ltac log_leaf := idtac; lazymatch goal with |- respects _ (call _) => apply emits_call; intros; exact I end.
Ltac logs := worker_with log_leaf.

(** Solve for one entry of an updated registry. *)
Ltac entries :=
  repeat match goal with
  | Hs : is_Some (_ !! _) |- _ => destruct Hs as [? Hs]
  | Hs : delete _ _ !! _ = Some _ |- _ => apply lookup_delete_Some in Hs as [? Hs]
  | Hs : <[_ := _]> _ !! _ = Some _ |- _ => apply lookup_insert_Some in Hs as [[? ?]|[? ?]]
  | Hs : alter _ _ _ !! _ = Some _ |- _ => rewrite lookup_alter in Hs; case_decide
  | Hs : _ <$> _ = Some _ |- _ => apply fmap_Some in Hs as (?&?&?)
  end; simplify_eq; eauto.
Ltac types_driver :=
  intros ? [? ? ? ? ? ? ?]; repeat case_match; split; simpl; intros; entries.
Ltac types_leaf :=
  idtac; lazymatch goal with
  | |- respects _ (dmod _) => apply types_dmod; solve [types_driver]
  | |- respects _ (call _) => apply types_call; intros; cbn [directed]; solve [done | auto]
  | |- respects _ (shared _) => apply types_shared; solve [typed_steps]
  end.
Ltac types_steps := worker_with types_leaf.

Section worker_ops.
Context `{Runtime} {B C : Type} `{!Buf B} `{!QuicConn C} (srv : bool).
Abbreviation TW := (World B (Traced C)).
Abbreviation Types := (types (B := B) (C := C) srv).

(** ** Registries *)

Lemma types_recv_insert id s : receivable srv id → respects Types (recv_insert id s).
Proof. intros Hid. types_steps. Qed.
Lemma types_send_insert id s : sendable srv id → respects Types (send_insert id s).
Proof. intros Hid. types_steps. Qed.
Lemma types_send_entry id : sendable srv id → respects Types (send_entry id).
Proof. intros Hid. types_steps. Qed.
Lemma types_set_done id f :
  (∀ a p, f a = Parked p → a = Parked p) → respects Types (dmod (λ d, d <| admission ::= alter f id |>)).
Proof.
  intros Hf. apply types_dmod. intros ? [? ? ? ? Hp ? ?]. split; simpl; intros; entries.
  match goal with Hs : Parked _ = f _ |- _ => symmetry in Hs; apply Hf in Hs; subst end. eauto.
Qed.
Lemma types_recv_done id : respects Types (dmod (λ d, d <| admission ::= alter set_recv_done id |>)).
Proof. apply types_set_done. by intros [|] p. Qed.
Lemma types_send_done id : respects Types (dmod (λ d, d <| admission ::= alter set_send_done id |>)).
Proof. apply types_set_done. by intros [|] p. Qed.
#[local] Hint Resolve types_recv_done types_send_done : steps.

Lemma mark_recv_done_types id : respects Types (mark_recv_done id).
Proof. types_steps. Qed.
Lemma mark_send_done_types id : respects Types (mark_send_done id).
Proof. types_steps. Qed.
#[local] Hint Resolve mark_recv_done_types mark_send_done_types : steps.
Lemma abandon_recv_types id : receivable srv id → respects Types (abandon_recv id).
Proof. intros Hid. types_steps. Qed.
Lemma shutdown_peer_types id bidi :
  receivable srv id → (bidi = true → sendable srv id) → respects Types (shutdown_peer_directions id bidi).
Proof. intros Hr Hs. unfold shutdown_peer_directions, when. destruct bidi; types_steps. Qed.
Lemma shutdown_uni_types id : receivable srv id → respects Types (shutdown_peer_directions id false).
Proof. intros Hr. by apply shutdown_peer_types. Qed.
#[local] Hint Resolve abandon_recv_types shutdown_peer_types shutdown_uni_types : steps.

(** ** Reading *)

Lemma drain_stream_types id : receivable srv id → respects Types (drain_stream id).
Proof. intros Hid. types_steps. Qed.
#[local] Hint Resolve drain_stream_types : steps.

Lemma types_readable_next {A} (k : option N → ST TW A) :
  (∀ id, receivable srv id → respects Types (k (Some id))) → respects Types (k None) →
  (∀ o, respects (Trace.emits (λ _, True)) (k o)) → respects Types (call stream_readable_next ≫= k).
Proof.
  intros Hs Hn Hl w. rewrite exec_bind. set (o := result _ w). set (w1 := exec _ w).
  assert (log w1 = log w ++ [CReadableNext o]) as E1 by done.
  destruct (Hl o w1) as (l&El&_). exists (CReadableNext o :: l). rewrite El, E1, <-app_assoc. split; [done|].
  intros [Ho Hr]%Forall_cons Hw. assert (typed srv w1) as Hw1.
  { destruct Hw. split; [done..|]. rewrite E1. apply Forall_app. split; [done|]. by constructor. }
  assert (respects Types (k o)) as Hk by (destruct o; auto). destruct (Hk w1) as (l'&El'&Ht).
  rewrite El in El'. simplify_list_eq. auto.
Qed.
Lemma intake_readable_types : respects Types intake_readable.
Proof.
  unfold intake_readable. apply respects_bind; [apply _| |intros ?; types_steps].
  apply respects_budget_loop; [apply _|]. apply types_readable_next; [|types_steps|intros []; logs].
  intros id Hid. types_steps.
Qed.
Lemma types_recv_entry id {A} (k : option StreamRecvState → ST TW A) :
  (receivable srv id → ∀ s, respects Types (k (Some s))) → respects Types (k None) →
  (∀ o, respects (Trace.emits (λ _, True)) (k o)) → respects Types (dget (λ d, recv d !! id) ≫= k).
Proof.
  intros Hs Hn Hl. apply (types_know srv _ _ (λ o, is_Some o → receivable srv id)); [done| |intros [s|] Ho|done].
  - intros w [Hd _ _] Ho. by apply (td_recv srv (drv w) Hd).
  - apply Hs. by apply Ho.
  - done.
Qed.
Lemma drain_resumed_types : respects Types drain_resumed.
Proof.
  unfold drain_resumed. apply respects_bind; [apply _| |intros ?; types_steps].
  apply respects_budget_loop; [apply _|]. unfold drain_resumed_one. apply respects_bind; [apply _|types_steps|].
  intros [id|]; [|types_steps]. apply types_recv_entry; [intros Hid s; cbv beta iota; types_steps|cbv beta iota; types_steps|intros []; cbv beta iota; logs].
Qed.
Lemma phase1_types : respects Types phase1_registered_drain.
Proof.
  unfold phase1_registered_drain. apply respects_bind; [apply _| |intros ?; types_steps].
  apply respects_budget_loop; [apply _|]. unfold phase1_one. apply respects_bind; [apply _|types_steps|]. intros budget.
  destruct (budget =? 0); [types_steps|]. apply respects_bind; [apply _|types_steps|]. intros [id|]; [|types_steps].
  apply (types_know srv _ _ (λ b, b = true → receivable srv id)); [done| |intros [] Hb|intros []; logs].
  - intros w [Hd _ _] Ho%bool_decide_eq_true. by apply (td_recv srv (drv w) Hd).
  - simpl. specialize (Hb eq_refl). types_steps.
  - simpl. types_steps.
Qed.
End worker_ops.

(** ** Admission *)

#[export] Hint Resolve types_recv_insert types_send_insert types_send_entry types_recv_done types_send_done
  mark_recv_done_types mark_send_done_types abandon_recv_types shutdown_peer_types shutdown_uni_types drain_stream_types
  intake_readable_types drain_resumed_types phase1_types : steps.

Section admission.
Context `{Runtime} {B C : Type} `{!Buf B} `{!QuicConn C} (srv : bool).
Abbreviation TW := (World B (Traced C)).
Abbreviation Types := (types (B := B) (C := C) srv).

(** A reserved slot's queue stays open until the slot is used. *)
Definition accepts (bidi : bool) (s : Store B) : bool :=
  if bidi then cs_rx_open (chan_view (accept_bidi_chan s)) else cs_rx_open (chan_view (accept_uni_chan s)).
Definition types_open (bidi : bool) : relation TW := λ w w',
  accepts bidi (sto w) = true → accepts bidi (sto w') = true ∧ Types w w'.
#[export] Instance types_open_preorder bidi : PreOrder (types_open bidi).
Proof.
  split.
  - intros w. by split.
  - intros w1 w2 w3 H1 H2 O1. destruct (H1 O1) as [O2 T1]. destruct (H2 O2) as [O3 T2]. split; [done|by etrans].
Qed.
Lemma types_open_keep bidi {A} (m : ST TW A) :
  respects (same (λ w : TW, accepts bidi (sto w))) m → respects Types m → respects (types_open bidi) m.
Proof. intros Ho Hm w Hw. split; [by rewrite (Ho w)|apply Hm]. Qed.
Lemma types_open_run bidi {A} (m : ST TW A) w :
  accepts bidi (sto w) = true → respects (types_open bidi) m → Types w (exec m w).
Proof. intros Ho Hm. apply (Hm w Ho). Qed.

Lemma types_build_recv R `{!PreOrder R} id e {A} (k : option StreamRecvState * RecvHandoff * bool → ST TW A) :
  respects R (build_recv id e) → receivable srv id →
  (∀ o h b, typed_recv srv h → respects R (k (o, h, b))) → respects R (build_recv id e ≫= k).
Proof.
  intros Hm Hid Hk. apply respects_bind_result; [done..|]. intros w. destruct (result _ w) as [[o h] b] eqn:E.
  apply Hk. unfold build_recv in E. rewrite !result_bind in E. cbv zeta in E.
  destruct (bool_decide _); rewrite ?result_bind, result_ret in E; simplify_eq; by split.
Qed.
Lemma types_build_send R `{!PreOrder R} id e {A} (k : SendHandoff * option (StreamSendState B) * bool → ST TW A) :
  respects R (build_send id e) → sendable srv id →
  (∀ h o b, typed_send srv h → respects R (k (h, o, b))) → respects R (build_send id e ≫= k).
Proof.
  intros Hm Hid Hk. apply respects_bind_result; [done..|]. intros w. destruct (result _ w) as [[h o] b] eqn:E.
  apply Hk. unfold build_send in E. rewrite !result_bind, result_ret in E. simplify_eq. by split.
Qed.
Lemma types_bidi_handoff h : typed_bidi srv h → respects (types_open true) (shared (accept_bidi_permit_send h)).
Proof.
  intros Hh w Ho. simpl in *. split; [unfold accepts; simpl; by rewrite chan_permit_send_view|].
  exists []. rewrite app_nil_r. split; [done|]. intros _ [Hd [T1 T2 T3 T4 T5] Hl]. split; [done| |done].
  split; try done. simpl. rewrite chan_permit_send_view by done. simpl. apply Forall_app. split; [done|by constructor].
Qed.
Lemma types_uni_handoff h : typed_recv srv h → respects (types_open false) (shared (accept_uni_permit_send h)).
Proof.
  intros Hh w Ho. simpl in *. split; [unfold accepts; simpl; by rewrite chan_permit_send_view|].
  exists []. rewrite app_nil_r. split; [done|]. intros _ [Hd [T1 T2 T3 T4 T5] Hl]. split; [done| |done].
  split; try done. simpl. rewrite chan_permit_send_view by done. simpl. apply Forall_app. split; [done|by constructor].
Qed.

Lemma same_accepts_shared bidi {A} (m : ST (Store B) A) :
  respects (same (accepts bidi)) m → respects (same (λ w : TW, accepts bidi (sto w))) (shared m).
Proof. intros Hm w. apply Hm. Qed.
Lemma cmd_upgrade_accepts bidi : respects (same (accepts bidi)) cmd_upgrade.
Proof. intros s. unfold same, cmd_upgrade, exec. by case_match. Qed.
Lemma permit_drop_accepts bidi :
  respects (same (accepts bidi)) accept_bidi_permit_drop ∧ respects (same (accepts bidi)) accept_uni_permit_drop.
Proof.
  split; intros s; unfold same, accepts; destruct bidi; simpl; rewrite ?chan_permit_drop_view; done.
Qed.
Ltac open_leaf :=
  idtac; lazymatch goal with
  | |- respects _ (shared cmd_upgrade) => apply same_accepts_shared, cmd_upgrade_accepts
  | |- respects _ (shared accept_bidi_permit_drop) => apply same_accepts_shared, permit_drop_accepts
  | |- respects _ (shared accept_uni_permit_drop) => apply same_accepts_shared, permit_drop_accepts
  | |- respects _ (dmod _) => intros ?; reflexivity
  | |- respects _ (call _) => intros ?; reflexivity
  | |- respects _ (shared _) => apply same_accepts_shared; solve [store]
  end.
Ltac opens := worker_with open_leaf.
Ltac open_types :=
  worker_with ltac:(idtac; lazymatch goal with
    | |- respects _ (mbind _ (build_recv _ _)) =>
        apply types_build_recv; [apply _|apply types_open_keep; [solve [opens]|solve [types_steps]]|done|intros ? ? ? ?]
    | |- respects _ (mbind _ (build_send _ _)) =>
        apply types_build_send; [apply _|apply types_open_keep; [solve [opens]|solve [types_steps]]|done|intros ? ? ? ?]
    | |- respects _ (shared (accept_bidi_permit_send _)) => by apply types_bidi_handoff
    | |- respects _ (shared (accept_uni_permit_send _)) => by apply types_uni_handoff
    | |- respects _ (mbind _ _) => fail
    | |- respects _ (match _ with _ => _ end) => fail
    | |- respects _ _ => apply types_open_keep; [solve [opens]|solve [types_steps]]
    end).

Lemma types_bidi_reserve : respects Types (shared accept_bidi_try_reserve).
Proof.
  apply types_shared; intros s [T1 T2 T3 T4 T5]; (split; try done); simpl. rewrite chan_try_reserve_view. by case_decide.
Qed.
Lemma types_uni_reserve : respects Types (shared accept_uni_try_reserve).
Proof.
  apply types_shared; intros s [T1 T2 T3 T4 T5]; (split; try done); simpl. rewrite chan_try_reserve_view. by case_decide.
Qed.
Lemma reserved_open (bidi : bool) (w : TW) :
  let m : ST (Store B) Reserve := if bidi then accept_bidi_try_reserve else accept_uni_try_reserve in
  result (shared m) w = Reserved → accepts bidi (sto (exec (shared m) w)) = true.
Proof.
  unfold accepts, view_reserve. destruct bidi; simpl;
    unfold accept_bidi_try_reserve, accept_uni_try_reserve, result; simpl;
    rewrite chan_try_reserve_res, chan_try_reserve_view; intros Hr; rewrite Hr; simpl;
    unfold view_reserve in Hr; by destruct (cs_rx_open _).
Qed.
Lemma admit_bidi_types peer :
  receivable srv (ps_id peer) → sendable srv (ps_id peer) → respects Types (admit_bidi peer).
Proof.
  intros Hr Hs w. unfold admit_bidi. rewrite exec_bind. etrans; [apply types_bidi_reserve|].
  pose proof (reserved_open true w) as Ho. cbv zeta iota in Ho. set (w1 := exec (shared _) w) in *.
  destruct (result (shared accept_bidi_try_reserve) w); [|by_respects types_steps..].
  apply (types_open_run true); [by apply Ho|]. clear w1 Ho. open_types.
Qed.
Lemma admit_uni_types peer : receivable srv (ps_id peer) → respects Types (admit_uni peer).
Proof.
  intros Hr w. unfold admit_uni. rewrite exec_bind. etrans; [apply types_uni_reserve|].
  pose proof (reserved_open false w) as Ho. cbv zeta iota in Ho. set (w1 := exec (shared _) w) in *.
  destruct (result (shared accept_uni_try_reserve) w); [|by_respects types_steps..].
  apply (types_open_run false); [by apply Ho|]. clear w1 Ho. open_types.
Qed.
Lemma admit_one_types peer : receivable srv (ps_id peer) → respects Types (admit_one peer).
Proof.
  intros Hr. unfold admit_one. destruct (is_bidi (ps_id peer)) eqn:Hb; [|by apply admit_uni_types].
  apply admit_bidi_types; [done|by apply bidi_both].
Qed.
#[local] Hint Resolve admit_one_types : steps.

(** A full queue gives the stream back. *)
Lemma admit_full peer p (w : TW) : result (admit_one peer) w = AdmitFull p → p = peer.
Proof.
  assert (∀ id (w : TW), result (admit_finish id) w = AdmitRegistered) as Hf by done.
  unfold admit_one, admit_bidi, admit_uni. destruct (is_bidi _); rewrite result_bind; (destruct (result _ w);
    [|by intros [= <-]|by rewrite result_bind, result_ret]); rewrite result_bind;
    (destruct (negb _); [by rewrite !result_bind, result_ret|]); rewrite !result_bind;
    repeat (case_match; rewrite ?result_bind); by rewrite ?Hf.
Qed.
Lemma types_admit {A} peer (k : AdmitResult → ST TW A) :
  receivable srv (ps_id peer) → respects Types (k AdmitRegistered) → respects Types (k (AdmitFull peer)) →
  respects Types (k AdmitTornDown) → respects Types (admit_one peer ≫= k).
Proof.
  intros Hr H1 H2 H3. apply respects_bind_result; [apply _|by apply admit_one_types|]. intros w.
  destruct (result (admit_one peer) w) as [|p|] eqn:E; [done| |done]. by rewrite (admit_full peer p w).
Qed.

Lemma phase2_loop_logs fuel budget bb ub pb :
  respects (Trace.emits (B := B) (C := C) (λ _, True)) (phase2_loop fuel budget bb ub pb).
Proof. revert budget bb ub pb. induction fuel; intros; simpl; destruct budget; logs. Qed.
Lemma phase2_loop_types fuel budget bb ub pb : respects Types (phase2_loop fuel budget bb ub pb).
Proof.
  revert budget bb ub pb. induction fuel as [|fuel IH]; intros; simpl; destruct budget; try solve [types_steps].
  apply respects_bind; [apply _|types_steps|]. intros qb. apply respects_bind; [apply _|types_steps|]. intros qu.
  case_match; [types_steps|]. apply respects_bind; [apply _|types_steps|]. intros [id|]; [|auto].
  apply (types_know srv _ _ (typed_driver srv)); [done|by intros w []| |].
  - intros d Hd. case_decide; [types_steps; auto|]. apply respects_bind; [apply _|types_steps|]. intros _.
    destruct (pending_admit d !! id) as [peer|] eqn:Hp; [|auto].
    destruct (td_pending srv d Hd id peer Hp) as [Hr Hid].
    apply types_admit; [by rewrite Hid|auto| |auto]. cbv beta iota. types_steps; auto.
  - intros d. pose proof phase2_loop_logs. cbv beta. logs; auto.
Qed.
#[local] Hint Resolve phase2_loop_types : steps.

(** A parked stream is typed, and stays in its place when its queue is full. *)
Lemma types_parked id {A} (k : option AdmitState → ST TW A) :
  (∀ p, receivable srv id → ps_id p = id → respects Types (k (Some (Parked p)))) →
  (∀ a, (∀ p, a ≠ Some (Parked p)) → respects Types (k a)) →
  (∀ a, respects (Trace.emits (λ _, True)) (k a)) → respects Types (dget (λ d, admission d !! id) ≫= k).
Proof.
  intros Hk Ho Hl.
  apply (types_know srv _ _ (λ a, ∀ p, a = Some (Parked p) → receivable srv id ∧ ps_id p = id)); [done| | |done].
  - intros w [Hd _ _] p Hp. by apply (td_parked srv (drv w) Hd).
  - intros [[p|sd rd]|] Ha; [|by apply Ho..]. destruct (Ha p eq_refl). by apply Hk.
Qed.
Lemma promote_one_types bidi : respects Types (promote_one bidi).
Proof.
  unfold promote_one. apply respects_bind; [apply _|types_steps|]. intros [id|]; [|types_steps].
  apply types_parked; [intros p Hr Hid|intros [[]|] Ha; try types_steps; by edestruct Ha|intros [[]|]; cbv beta iota; logs].
  apply respects_bind; [apply _|types_steps|]. intros _. apply types_admit; [by rewrite Hid|types_steps..].
Qed.
#[local] Hint Resolve promote_one_types : steps.
Lemma run_read_pump_types : respects Types run_read_pump.
Proof. types_steps. Qed.
End admission.

#[export] Hint Resolve admit_one_types run_read_pump_types : steps.
#[export] Hint Extern 1 (respects (keeps (typed_store _)) (bidi_reply_send _ (Err _))) =>
  apply typed_bidi_send; intros ? [=] : steps.
#[export] Hint Extern 1 (respects (keeps (typed_store _)) (uni_reply_send _ (Err _))) =>
  apply typed_uni_send; intros ? [=] : steps.

(** ** Opening, sending, commands *)

Section stages.
Context `{Runtime} {B C : Type} `{!Buf B} `{!QuicConn C} (srv : bool).
Abbreviation TW := (World B (Traced C)).
Abbreviation Types := (types (B := B) (C := C) srv).

Lemma own_bidi id : id mod 4 = id_base srv true → sendable srv id ∧ receivable srv id.
Proof. unfold sendable, receivable, id_base. intros ->. by destruct srv. Qed.
Lemma own_uni id : id mod 4 = id_base srv false → sendable srv id.
Proof. unfold sendable, id_base. intros ->. by destruct srv. Qed.
Lemma next_id_mod id : u64_wrap (id + 4) mod 4 = id mod 4.
Proof. rewrite u64_wrap_mod4. by rewrite <-(N.mul_1_l 4) at 1; rewrite N.Div0.mod_add. Qed.

Lemma cleanup_open_types id bidi :
  sendable srv id → receivable srv id → respects Types (cleanup_undeliverable_open id bidi).
Proof. intros. types_steps. Qed.
Lemma cleanup_uni_types id : sendable srv id → respects Types (cleanup_undeliverable_open id false).
Proof. intros. unfold cleanup_undeliverable_open, when. types_steps. Qed.
#[local] Hint Resolve cleanup_open_types cleanup_uni_types : steps.

Ltac handing :=
  worker_with ltac:(idtac; first [types_leaf | lazymatch goal with
    | |- respects _ (mbind _ (build_recv _ _)) => apply (types_build_recv srv); [apply _|solve [types_steps]|done|intros ? ? ? ?]
    | |- respects _ (mbind _ (build_send _ _)) => apply (types_build_send srv); [apply _|solve [types_steps]|done|intros ? ? ? ?]
    | |- respects _ (shared (bidi_reply_send _ _)) => apply types_shared, typed_bidi_send; by intros ? [= <-]
    | |- respects _ (shared (uni_reply_send _ _)) => apply types_shared, typed_uni_send; by intros ? [= <-]
    | |- respects _ (shared (drop_bidi_handoff _)) => by apply types_shared, typed_drop_bidi
    | |- respects _ (shared (drop_send_handoff _)) => by apply types_shared, typed_drop_send
    | |- respects _ (dmod _) => apply types_dmod; intros ? []; split; simpl; rewrite ?next_id_mod; by auto
    end]).

Lemma materialize_bidi_types id reply : id mod 4 = id_base srv true → respects Types (materialize_bidi id reply).
Proof. intros Hm. destruct (own_bidi id Hm). handing. Qed.
Lemma materialize_uni_types id reply : id mod 4 = id_base srv false → respects Types (materialize_uni id reply).
Proof. intros Hm. pose proof (own_uni id Hm). handing. Qed.
#[local] Hint Resolve materialize_bidi_types materialize_uni_types : steps.

Lemma open_bidi_one_types reply : respects Types (open_bidi_one reply).
Proof.
  unfold open_bidi_one. apply respects_bind; [apply _|types_steps|]. intros []; [types_steps|].
  apply respects_bind; [apply _|types_steps|]. intros credit. case_match; [types_steps|].
  apply (types_know srv _ _ (λ id, id mod 4 = id_base srv true)); [done|by intros w [[] _ _]| |intros; logs].
  intros id Hm. destruct (own_bidi id Hm). cbv beta. types_steps.
Qed.
Lemma open_uni_one_types reply : respects Types (open_uni_one reply).
Proof.
  unfold open_uni_one. apply respects_bind; [apply _|types_steps|]. intros []; [types_steps|].
  apply respects_bind; [apply _|types_steps|]. intros credit. case_match; [types_steps|].
  apply (types_know srv _ _ (λ id, id mod 4 = id_base srv false)); [done|by intros w [[] _ _]| |intros; logs].
  intros id Hm. pose proof (own_uni id Hm). cbv beta. types_steps.
Qed.
#[local] Hint Resolve open_bidi_one_types open_uni_one_types : steps.
Lemma open_bidi_loop_types budget : respects Types (open_bidi_loop budget).
Proof. induction budget; simpl; types_steps. Qed.
Lemma open_uni_loop_types budget : respects Types (open_uni_loop budget).
Proof. induction budget; simpl; types_steps. Qed.
#[local] Hint Resolve open_bidi_loop_types open_uni_loop_types : steps.
Lemma stage_open_types : respects Types stage_open.
Proof. types_steps. Qed.

(** ** Sending *)

Lemma send_terminal_transition_types id e : respects Types (send_terminal_transition id e).
Proof. types_steps. Qed.
#[local] Hint Resolve send_terminal_transition_types : steps.
Lemma classify_send_err_types id err : sendable srv id → respects Types (classify_send_err id err).
Proof. intros. types_steps. Qed.
#[local] Hint Resolve classify_send_err_types : steps.
Lemma flush_held_once_types id fin : sendable srv id → respects Types (flush_held_once id fin).
Proof. intros. types_steps. Qed.
#[local] Hint Resolve flush_held_once_types : steps.
Lemma service_head_write_types id : sendable srv id → respects Types (service_head_write id).
Proof. intros. types_steps. Qed.
#[local] Hint Resolve service_head_write_types : steps.

Lemma types_send_known id {A} (k : option (StreamSendState B) → ST TW A) :
  (sendable srv id → ∀ s, respects Types (k (Some s))) → respects Types (k None) →
  (∀ o, respects (Trace.emits (λ _, True)) (k o)) → respects Types (dget (λ d, send d !! id) ≫= k).
Proof.
  intros Hs Hn Hl. apply (types_know srv _ _ (λ o, is_Some o → sendable srv id)); [done| |intros [s|] Ho|done].
  - intros w [Hd _ _] Ho. by apply (td_send srv (drv w) Hd).
  - apply Hs. by apply Ho.
  - done.
Qed.
Lemma service_send_turn_types id : respects Types (service_send_turn id).
Proof.
  apply types_send_known; [intros Hid s|types_steps|intros []; logs]. cbv beta. types_steps.
Qed.
#[local] Hint Resolve service_send_turn_types : steps.
Lemma stage_send_types : respects Types stage_send.
Proof. types_steps. Qed.

Lemma writable_peer_types id : is_bidi id = true → respects Types (writable_peer id).
Proof.
  intros [Hs Hr]%(bidi_both srv). unfold writable_peer. apply respects_bind; [apply _|types_steps|]. intros cap.
  apply (types_know srv _ _ (typed_driver srv)); [done|by intros w []| |intros; logs].
  intros d Hd. destruct (pending_admit d !! id) as [p|].
  { apply types_dmod. intros ? [? ? ? Hp ? ? ?]. split; simpl; intros; entries. destruct (Hp _ _ ltac:(eassumption)).
    by rewrite capture_stop_id. }
  destruct (admission d !! id) as [[p|]|] eqn:Ha; [|types_steps..].
  destruct (td_parked srv d Hd id p Ha). apply types_dmod. intros ? [? ? ? ? ? ? ?]. split; simpl; intros; entries.
  by rewrite capture_stop_id.
Qed.
#[local] Hint Resolve writable_peer_types : steps.
Lemma stage_writable_types : respects Types stage_writable.
Proof.
  unfold stage_writable. apply respects_bind; [apply _| |intros ?; types_steps].
  apply respects_budget_loop; [apply _|]. unfold stage_writable_one. apply respects_bind; [apply _|types_steps|].
  intros [id|]; [|types_steps]. apply (types_know srv _ _ (typed_driver srv)); [done|by intros w []| |intros; logs].
  intros d Hd. destruct (send d !! id) as [s|] eqn:Hs.
  - assert (sendable srv id) by (by apply (td_send srv d Hd)). types_steps.
  - destruct (is_bidi id) eqn:Hb; simpl; types_steps.
Qed.
End stages.

#[export] Hint Resolve stage_open_types stage_send_types stage_writable_types : steps.

Section commands.
Context `{Runtime} {B C : Type} `{!Buf B} `{!QuicConn C} (srv : bool).
Abbreviation TW := (World B (Traced C)).
Abbreviation Types := (types (B := B) (C := C) srv).

Lemma clean_parked_types id : respects Types (clean_parked id).
Proof.
  apply types_parked; [intros p Hr _|intros [[]|] Ha; try types_steps; by edestruct Ha|intros [[]|]; logs].
  cbv beta iota. apply respects_bind; [apply _| |intros ?; types_steps]. apply shutdown_peer_types; [done|].
  by intros [? _]%(bidi_both srv).
Qed.
Lemma clean_pending_types id : respects Types (clean_pending id).
Proof.
  apply (types_know srv _ _ (λ o, is_Some o → receivable srv id)); [done| | |intros []; logs].
  - intros w [Hd _ _] [p Hp]. by eapply (td_pending srv (drv w) Hd).
  - intros o Ho. cbv beta. apply respects_bind; [apply _|types_steps|]. intros _. destruct o as [p|]; simpl; [|types_steps].
    apply shutdown_peer_types; [by apply Ho|]. by intros [? _]%(bidi_both srv).
Qed.
#[local] Hint Resolve clean_parked_types clean_pending_types : steps.
Lemma apply_command_types cmd : typed_cmd srv cmd → respects Types (apply_command cmd).
Proof. intros Hc. destruct cmd; simpl in Hc; types_steps. Qed.

(** Commands wait in the inbox and in the channel; either way they are typed. *)
Lemma typed_backlog (w : TW) : typed srv w → Forall (typed_cmd srv) (backlog w).
Proof. intros [[] [] _]. unfold backlog. by apply Forall_app. Qed.
Lemma next_command_types : respects Types next_command.
Proof.
  intros w. exists []. rewrite app_nil_r. unfold next_command. rewrite exec_bind, exec_dget, result_dget.
  destruct (inbox (drv w)) as [|cmd q] eqn:Hi; (split; [done|]); intros _ [Hd Hs Hl]; split; try done.
  - destruct Hs as [T1 T2 T3 T4 T5]. split; try done. unfold cmd_queue in *. simpl. rewrite chan_try_recv_view. simpl.
    by apply Forall_tail.
  - destruct Hd as [Hb ? ? ? ? ? ?]. split; simpl; try done. rewrite Hi in Hb. by apply Forall_cons in Hb as [].
Qed.
Lemma types_next {A} (k : option (DriverCommand B) → ST TW A) :
  (∀ cmd, typed_cmd srv cmd → respects Types (k (Some cmd))) → respects Types (k None) →
  (∀ o, respects (Trace.emits (λ _, True)) (k o)) → respects Types (next_command ≫= k).
Proof.
  intros Hs Hn Hl w. rewrite exec_bind. destruct (next_command_types w) as (l1&E1&H1).
  destruct (Hl (result next_command w) (exec next_command w)) as (l&El&_). exists (l1 ++ l).
  rewrite El, E1, app_assoc. split; [done|]. intros [Hr1 Hr]%Forall_app Hw.
  assert (respects Types (k (result next_command w))) as Hk.
  { destruct (next_command_backlog w) as [-> _]. apply typed_backlog in Hw. destruct (backlog w); [done|].
    apply Hs. by apply Forall_cons in Hw as []. }
  destruct (Hk (exec next_command w)) as (l'&El'&Ht). rewrite El in El'. simplify_list_eq. auto.
Qed.
Lemma apply_inbox_types : respects Types apply_inbox.
Proof.
  unfold apply_inbox. apply respects_bind; [apply _| |intros ?; types_steps].
  apply respects_budget_loop; [apply _|]. apply types_next; [|types_steps|intros []; logs].
  intros cmd Hc. apply respects_bind; [apply _|by apply apply_command_types|]. intros ?. types_steps.
Qed.
Lemma close_drain_loop_types fuel t : respects Types (close_drain_loop fuel t).
Proof.
  induction fuel as [|fuel IH]; simpl; [types_steps|]. apply respects_bind; [apply _|apply next_command_types|].
  intros [cmd|]; [|types_steps]. apply respects_bind; [apply _| |auto]. destruct cmd; types_steps.
Qed.
#[local] Hint Resolve apply_inbox_types close_drain_loop_types : steps.

Lemma types_recv_cmd {A} (k : TryRecv (DriverCommand B) → ST TW A) :
  (∀ r, (∀ cmd, r ≠ Received cmd) → respects Types (k r)) →
  (∀ cmd, typed_cmd srv cmd → respects Types (k (Received cmd))) →
  (∀ r, respects (Trace.emits (λ _, True)) (k r)) → respects Types (shared cmd_try_recv ≫= k).
Proof.
  intros Ho Hc Hl w. rewrite exec_bind. set (w1 := exec (shared cmd_try_recv) w). set (r := result _ w).
  destruct (Hl r w1) as (l&El&_). exists l. split; [exact El|]. intros Hr [Hd Hs Hlog].
  assert (typed srv w1 ∧ ∀ cmd, r = Received cmd → typed_cmd srv cmd) as [Hw1 Hcmd].
  { unfold r, w1, result, cmd_try_recv. simpl. rewrite chan_try_recv_res. destruct Hs as [T1 T2 T3 T4 T5]. split.
    - split; try done. split; try done. unfold cmd_queue in *. simpl. rewrite chan_try_recv_view. by apply Forall_tail.
    - unfold view_recv, cmd_queue in *. destruct (cs_queue _); [by destruct (negb _ || _)|]. intros ? [= <-].
      by apply Forall_cons in T1 as []. }
  assert (respects Types (k r)) as Hk by (destruct r; auto).
  destruct (Hk w1) as (l'&El'&Ht). rewrite El in El'. simplify_list_eq. auto.
Qed.
Lemma to_inbox_types cmd : typed_cmd srv cmd → respects Types (dmod (λ d, d <| inbox ::= λ q, q ++ [cmd] |>)).
Proof. intros Hc. apply types_dmod. intros ? []. split; try done. apply Forall_app. split; [done|by constructor]. Qed.
#[local] Hint Resolve to_inbox_types : steps.
Lemma wait_for_data_poll_types p : respects Types (wait_for_data_poll p).
Proof.
  destruct p; [types_steps|types_steps| |]; apply types_recv_cmd.
  1,4: intros [cmd| |] Hr; [by destruct (Hr cmd)|types_steps..].
  1,3: intros cmd Hc; cbv beta iota; types_steps.
  all: intros []; cbv beta iota; logs.
Qed.
Lemma seal_types t : respects Types (dmod (λ d, d <| send ::= fmap (seal_send_state t) |>)).
Proof.
  apply types_dmod. intros ? [? Hs ? ? ? ? ?]. split; try done. intros id. simpl. rewrite lookup_fmap, fmap_is_Some. apply Hs.
Qed.
#[local] Hint Resolve seal_types : steps.

(** Every callback of the worker keeps the typing. *)
Lemma worker_turn_types (w w' : TW) : worker_turn w w' → Types w w'.
Proof. apply worker_turn_respects; [types_steps..|apply wait_for_data_poll_types|types_steps]. Qed.
End commands.

(** ** The connection *)

Section connection.
Context `{Runtime} {B C : Type} `{!Buf B} `{!QuicConn C}.
Abbreviation TW := (World B (Traced C)).

(** A worker callback, a call the application is entitled to make, or the
    transport. *)
Inductive held_step : relation (TW * Held) :=
| held_worker w w' h : worker_turn w w' → held_step (w, h) (w', h)
| held_front w h op :
    permitted h op →
    let g := granted op (sto w) in
    held_step (w, h) (w <| sto := exec (run_front op) (sto w) |>,
                      mkHeld (held_sends h ++ held_sends g) (held_recvs h ++ held_recvs g))
| held_transport w h c : calls c = calls (qc w) → held_step (w, h) (w <| qc := c |>, h).

Lemma held_step_typed srv x x' :
  held_step x x' → ∃ l, log x'.1 = log x.1 ++ l ∧
    (Forall (reported srv) l → typed srv x.1 ∧ typed_held srv x.2 → typed srv x'.1 ∧ typed_held srv x'.2).
Proof.
  intros [w w' h Ht|w h op Hop g|w h c Hc]; simpl.
  - destruct (worker_turn_types srv w w' Ht) as (l&E&Hl). exists l. split; [done|]. intros Hr []. auto.
  - exists []. rewrite app_nil_r. split; [done|]. intros _ [[Hd Hs Hl] Hh]. split.
    + split; [done| |done]. apply run_front_typed; [by eapply permitted_typed|done].
    + destruct (granted_typed srv op (sto w) Hs), Hh. split; by apply Forall_app.
  - exists []. unfold log. simpl. rewrite Hc, app_nil_r. split; [done|]. intros _ [[Hd Hs Hl] Hh]. split; [|done].
    split; [done..|]. unfold log in *. simpl. by rewrite Hc.
Qed.

Lemma held_steps_typed srv x x' :
  rtc held_step x x' → ∃ l, log x'.1 = log x.1 ++ l ∧
    (Forall (reported srv) l → typed srv x.1 ∧ typed_held srv x.2 → typed srv x'.1 ∧ typed_held srv x'.2).
Proof.
  induction 1 as [x|x y z Hxy _ (l2&E2&H2)]; [exists []; by rewrite app_nil_r|].
  destruct (held_step_typed srv x y Hxy) as (l1&E1&H1). exists (l1 ++ l2). rewrite E2, E1, app_assoc. split; [done|].
  intros [??]%Forall_app ?. auto.
Qed.

Lemma initial_typed (w : TW) : initial unobserved w → typed (is_server (drv w)) w.
Proof.
  intros (srv&bc&uc&bf&c&Hc&->). unfold unobserved in Hc. split.
  - split; simpl; [constructor|by intros id [s ?%lookup_empty_Some]..| | | |]; try by destruct srv.
    all: by intros id p ?%lookup_empty_Some.
  - split; simpl; unfold cmd_queue; simpl; rewrite ?chan_new_view; by constructor.
  - unfold log. simpl. by rewrite Hc.
Qed.

(** C12.  Every stream is used in its direction only: over the whole life of a
    connection, in any interleaving of worker callbacks, transport activity and
    calls of an application on halves it was given, as long as the transport
    reports no stream as readable that cannot be read, the worker never reads or
    stops its own unidirectional streams, and never sends on, resets, probes or
    opens a unidirectional stream of the peer's; and each half an application
    holds is of a stream it can be used on. *)
Theorem calls_are_directed (w0 w : TW) h :
  let srv := is_server (drv w0) in
  initial unobserved w0 → rtc held_step (w0, mkHeld [] []) (w, h) →
  Forall (reported srv) (log w) →
  Forall (directed srv) (log w) ∧ Forall (sendable srv) (held_sends h) ∧ Forall (receivable srv) (held_recvs h).
Proof.
  intros srv Hi Hs Hr. destruct (held_steps_typed srv _ _ Hs) as (l&E&Ht). simpl in E, Ht.
  rewrite E in Hr. apply Forall_app in Hr as [_ Hr]. destruct Ht as [[_ _ ?] []]; [done| |done].
  split; [by apply initial_typed|by split; constructor].
Qed.
End connection.
