(* ===== verification/Accounting.v ===== *)
(** * Send-byte accounting over a whole connection

    A write's bytes are reserved by [poll_ready], travel with the [Send] command
    and then with the queued operation, and are released when the operation is
    completed or dropped.  In every state between two steps of the connection the
    accounting holds exactly the bytes of the commands and operations on their
    way; nothing is released twice and nothing is kept.

    [balanced n]: the accounting holds those bytes and [n] more, which are in the
    hands of the code that is running. *)

From S2P Require Import Prelude Interfaces Error Buffer BufferLogic Conn DriverTypes DriverStore DriverCore DriverRecv DriverSend Driver DriverLogic StoreLogic DriverReach DriverSendInv DriverTeardown Stream System.

Definition permit_size (p : option SendBytesPermit) : N := from_option permit_bytes 0 p.

Section sizes.
Context {B : Type}.

Definition cmd_size (cmd : DriverCommand B) : N :=
  match cmd with Send _ _ _ permit => permit_size permit | _ => 0 end.
Definition op_size (op : SendOp B) : N :=
  match op with OpWrite _ _ permit => permit_size permit | OpFinish _ => 0 end.

Definition sum_of {A} (f : A → N) (l : list A) : N := foldr (λ a n, f a + n) 0 l.

Lemma sum_of_app {A} (f : A → N) l k : sum_of f (l ++ k) = sum_of f l + sum_of f k.
Proof. induction l as [|a l IH]; simpl; lia. Qed.
Lemma sum_of_tail {A} (f : A → N) l : sum_of f l = from_option f 0 (head l) + sum_of f (tail l).
Proof. by destruct l. Qed.

Definition ops_size (s : StreamSendState B) : N := sum_of op_size (send_ops s).

(** The bytes queued in all send halves. *)
Definition sends_size (m : gmap N (StreamSendState B)) : N := map_fold (λ _ s n, ops_size s + n) 0 m.

Lemma sends_size_insert m id s : m !! id = None → sends_size (<[id := s]> m) = ops_size s + sends_size m.
Proof. intros Hm. unfold sends_size. rewrite map_fold_insert_L; [done|intros; lia|done]. Qed.
Lemma sends_size_delete m id s : m !! id = Some s → sends_size m = ops_size s + sends_size (delete id m).
Proof. intros Hm. unfold sends_size. rewrite (map_fold_delete_L _ _ id s m); [done|intros; lia|done]. Qed.
Lemma sends_size_replace m id s s' :
  m !! id = Some s → sends_size (<[id := s']> m) + ops_size s = sends_size m + ops_size s'.
Proof.
  intros Hm. rewrite (sends_size_delete m id s Hm), <-(insert_delete_eq m id s').
  rewrite sends_size_insert by apply lookup_delete_eq. lia.
Qed.
Lemma sends_size_alter f m id s :
  m !! id = Some s → sends_size (alter f id m) + ops_size s = sends_size m + ops_size (f s).
Proof.
  intros Hm. rewrite <-(sends_size_replace m id s (f s)) by done. do 2 f_equal.
  apply map_eq. intros j. destruct (decide (id = j)) as [->|].
  - by rewrite lookup_alter_eq, lookup_insert_eq, Hm.
  - by rewrite lookup_alter_ne, lookup_insert_ne.
Qed.
Lemma sends_size_alter_same f m id : (∀ s, send_ops (f s) = send_ops s) → sends_size (alter f id m) = sends_size m.
Proof.
  intros Hf. destruct (m !! id) as [s|] eqn:Hm.
  - pose proof (sends_size_alter f m id s Hm) as E. unfold ops_size in E. rewrite Hf in E. lia.
  - f_equal. apply map_eq. intros j. rewrite lookup_alter. case_decide; [|done]. subst. by rewrite Hm.
Qed.
End sizes.

(** ** The shared store *)

Section store.
Context `{Runtime} {B : Type} `{!Buf B}.
Abbreviation St := (Store B).

Definition accounting_view (s : St) := (sa_resident (send_accounting s), cs_queue (chan_view (cmd_chan s))).

Definition sbalanced (n : N) (s : St) : Prop :=
  let v := accounting_view s in v.1 = sum_of cmd_size v.2 + n.

(** [m] leaves the balance alone; [m] consumes [b] bytes in hand. *)
Definition sbal : relation St := λ s s', ∀ n, sbalanced n s → sbalanced n s'.
Definition sgives {A} (b : N) (m : ST St A) : Prop := ∀ s n, sbalanced (b + n) s → sbalanced n (exec m s).

#[export] Instance sbal_preorder : PreOrder sbal.
Proof. split; unfold sbal; repeat intro; eauto. Qed.

Lemma sbal_same {A} (m : ST St A) : respects (same accounting_view) m → respects sbal m.
Proof. intros Hm s n. unfold sbalanced. by rewrite (Hm s). Qed.

Lemma sgives_zero {A} (m : ST St A) : sgives 0 m ↔ respects sbal m.
Proof. split; intros Hm s n; [apply (Hm s n) | apply (Hm s n)]. Qed.
Lemma sgives_bal_bind {A A'} b (m : ST St A) (k : A → ST St A') :
  respects sbal m → (∀ a, sgives b (k a)) → sgives b (m ≫= k).
Proof. intros Hm Hk s n Hs. rewrite exec_bind. apply Hk, Hm, Hs. Qed.
Lemma sgives_bind_bal {A A'} b (m : ST St A) (k : A → ST St A') :
  sgives b m → (∀ a, respects sbal (k a)) → sgives b (m ≫= k).
Proof. intros Hm Hk s n Hs. rewrite exec_bind. apply Hk, Hm, Hs. Qed.

Lemma release_permit_gives p : sgives (permit_size p) (release_permit (B := B) p).
Proof.
  intros s n. destruct p as [p|]; [|done]. unfold release_permit. rewrite exec_bind.
  unfold sbalanced, permit_drop, exec, result. simpl.
  destruct (release_fields (permit_bytes p) (send_accounting s)) as [_ ->]. lia.
Qed.
End store.

(** Store operations that touch neither the accounting nor the command queue. *)
Ltac sbal_leaf :=
  idtac; lazymatch goal with
  | |- respects sbal (at_loc _ _ _ _) => apply sbal_same; solve [store_leaf]
  | |- respects sbal (alloc _ _) => apply sbal_same; solve [store_leaf]
  | |- respects sbal (modify _) =>
      apply sbal_same; intros ?; unfold same, exec, modify, accounting_view; simpl;
      rewrite ?chan_clone_tx_view, ?chan_drop_tx_view, ?chan_close_view; reflexivity
  | |- respects sbal (λ _, _) => apply sbal_same; solve [store_leaf]
  end.
Ltac sbals := worker_with sbal_leaf.

Section store_ops.
Context `{Runtime} {B : Type} `{!Buf B}.
Abbreviation St := (Store B).

Lemma complete_write_bal k r : respects sbal (complete_write (B := B) k r).
Proof. sbals. Qed.
Lemma drop_completer_bal k : respects sbal (drop_completer (B := B) k).
Proof. sbals. Qed.
Lemma finish_send_bal a r : respects sbal (finish_send (B := B) a r).
Proof. sbals. Qed.
#[local] Hint Resolve complete_write_bal drop_completer_bal finish_send_bal : steps.

Lemma op_complete_gives op r : sgives (op_size op) (op_complete (B := B) op r).
Proof.
  destruct op as [buf k p|k]; simpl.
  - apply sgives_bal_bind; [auto with steps|]. intros _. apply release_permit_gives.
  - apply sgives_zero. sbals.
Qed.
Lemma drop_send_op_gives op : sgives (op_size op) (drop_send_op (B := B) op).
Proof.
  destruct op as [buf k p|k]; simpl.
  - apply sgives_bal_bind; [auto with steps|]. intros _. apply release_permit_gives.
  - apply sgives_zero. sbals.
Qed.
Lemma drop_command_gives cmd : sgives (cmd_size cmd) (drop_command (B := B) cmd).
Proof.
  destruct cmd; simpl; [..|by apply sgives_zero; sbals].
  all: first [ apply sgives_bal_bind; [auto with steps|]; intros _; apply release_permit_gives
             | apply sgives_zero; sbals ].
Qed.
Lemma complete_command_gives cmd t : sgives (cmd_size cmd) (complete_command_on_close (B := B) cmd t).
Proof.
  destruct cmd; simpl; [..|by apply sgives_zero; sbals].
  all: first [ apply sgives_bal_bind; [auto with steps|]; intros _; apply release_permit_gives
             | apply sgives_zero; sbals ].
Qed.

(** Queued or refused, a command takes its bytes along. *)
Lemma cmd_send_gives cmd : sgives (cmd_size cmd) (cmd_send (B := B) cmd).
Proof.
  intros s n Hs. unfold cmd_send. rewrite !exec_bind, exec_ret.
  unfold result at 1. simpl. rewrite chan_send_res.
  destruct (cs_rx_open (chan_view (cmd_chan s))) eqn:Ho.
  - unfold sbalanced, exec in *. simpl in *. rewrite chan_send_view, Ho. simpl.
    rewrite sum_of_app. simpl. lia.
  - apply drop_command_gives. revert Hs. unfold sbalanced, exec. simpl. by rewrite chan_send_view, Ho.
Qed.
Lemma cmd_send_bal cmd : cmd_size cmd = 0 → respects sbal (cmd_send (B := B) cmd).
Proof. intros Hc. apply (proj1 (sgives_zero _)). pose proof (cmd_send_gives cmd) as Hg. by rewrite Hc in Hg. Qed.

Lemma cmd_upgrade_bal : respects sbal (cmd_upgrade (B := B)).
Proof.
  apply sbal_same. intros s. unfold same, exec, cmd_upgrade, accounting_view.
  pose proof (chan_upgrade_view _ (cmd_chan s)) as E. destruct (chan_upgrade _) as [c|]; [|done].
  simpl in *. case_match; simplify_eq. by rewrite E.
Qed.

Lemma for_each_gives {A} (size : A → N) (f : A → ST St unit) l :
  (∀ a, sgives (size a) (f a)) → sgives (sum_of size l) (for_each l f).
Proof.
  intros Hf. induction l as [|a l IH]; [by intros s n Hs|].
  intros s n Hs. simpl. rewrite exec_bind. apply IH, Hf. simpl in Hs. by rewrite N.add_assoc.
Qed.
Lemma drop_send_state_gives s : sgives (ops_size s) (drop_send_state (B := B) s).
Proof. apply for_each_gives, drop_send_op_gives. Qed.
End store_ops.

#[export] Hint Resolve complete_write_bal drop_completer_bal finish_send_bal cmd_upgrade_bal : steps.
#[export] Hint Extern 1 (respects sbal (cmd_send _)) => apply cmd_send_bal; reflexivity : steps.

(** ** The worker *)

Section worker.
Context `{Runtime} {B C : Type} `{!Buf B} `{!QuicConn C}.
Abbreviation W := (World B C).

Definition driver_size (d : QuicheDriver B) : N := sum_of cmd_size (inbox d) + sends_size (send d).

Definition balanced (n : N) (w : W) : Prop := sbalanced (driver_size (drv w) + n) (sto w).
Definition bal : relation W := λ w w', ∀ n, balanced n w → balanced n w'.
Definition gives {A} (b : N) (m : ST W A) : Prop := ∀ w n, balanced (b + n) w → balanced n (exec m w).

#[export] Instance bal_preorder : PreOrder bal.
Proof. split; unfold bal; repeat intro; eauto. Qed.

Lemma gives_shared {A} b (m : ST (Store B) A) : sgives b m → gives b (shared (C := C) m).
Proof. intros Hm w n Hw. unfold balanced in *. apply Hm. simpl. by replace (b + _) with (driver_size (drv w) + (b + n)) by lia. Qed.
Lemma bal_shared {A} (m : ST (Store B) A) : respects sbal m → respects bal (shared m).
Proof. intros Hm w n. apply Hm. Qed.
Lemma bal_dmod f : (∀ d, driver_size (f d) = driver_size d) → respects bal (dmod f).
Proof. intros Hf w n. unfold balanced. simpl. by rewrite Hf. Qed.
Lemma bal_call {A} (m : ST C A) : respects bal (call m).
Proof. intros w n. done. Qed.
Lemma bal_upd_send id f : (∀ s, send_ops (f s) = send_ops s) → respects bal (upd_send id f).
Proof. intros Hf. apply bal_dmod. intros d. unfold driver_size. simpl. by rewrite sends_size_alter_same. Qed.
(** An update of a half that takes bytes up or sets them free. *)
Lemma upd_send_balanced id f s n n' (w : W) :
  send (drv w) !! id = Some s → ops_size s + n = ops_size (f s) + n' →
  balanced n w → balanced n' (exec (upd_send id f) w).
Proof.
  intros Hs Hn. unfold balanced, sbalanced, driver_size. simpl.
  pose proof (sends_size_alter f (send (drv w)) id s Hs). lia.
Qed.

Lemma gives_zero {A} (m : ST W A) : gives 0 m ↔ respects bal m.
Proof. split; intros Hm s n; apply (Hm s n). Qed.
Lemma gives_bal_bind {A A'} b (m : ST W A) (k : A → ST W A') :
  respects bal m → (∀ a, gives b (k a)) → gives b (m ≫= k).
Proof. intros Hm Hk s n Hs. rewrite exec_bind. apply Hk, Hm, Hs. Qed.
Lemma gives_bind_bal {A A'} b (m : ST W A) (k : A → ST W A') :
  gives b m → (∀ a, respects bal (k a)) → gives b (m ≫= k).
Proof. intros Hm Hk s n Hs. rewrite exec_bind. apply Hk, Hm, Hs. Qed.

Lemma ops_complete_gives ops r :
  gives (sum_of op_size ops) (for_each ops (λ op, shared (C := C) (op_complete (B := B) op r))).
Proof.
  induction ops as [|op ops IH]; [by intros w n Hw|]. intros w n Hw. cbn [for_each]. rewrite exec_bind.
  apply IH. apply (gives_shared _ _ (op_complete_gives op r)). simpl in Hw. by rewrite N.add_assoc.
Qed.
End worker.

#[export] Hint Resolve bal_call : steps.

Ltac bal_leaf :=
  idtac; lazymatch goal with
  | |- respects bal (shared _) => apply bal_shared; solve [sbals]
  | |- respects bal (upd_send _ _) => apply bal_upd_send; intros; reflexivity
  | |- respects bal (dmod _) => apply bal_dmod; intros; first [reflexivity | case_match; reflexivity]
  end.
Ltac bals := worker_with bal_leaf.

Section worker_ops.
Context `{Runtime} {B C : Type} `{!Buf B} `{!QuicConn C}.
Abbreviation W := (World B C).
Abbreviation Bal := (bal (B := B) (C := C)).

Lemma sends_balanced m n n' (w : W) :
  sends_size (send (drv w)) + n = sends_size m + n' →
  balanced n w → balanced n' (exec (dmod (λ d, d <| send := m |>)) w).
Proof. intros Hn. unfold balanced, sbalanced, driver_size. simpl. lia. Qed.

Lemma send_remove_bal id : respects Bal (send_remove id).
Proof.
  intros w n Hw. unfold send_remove. rewrite !exec_bind, exec_dget, result_dget.
  destruct (send (drv w) !! id) as [s|] eqn:Hs; simpl.
  - apply (gives_shared _ _ (drop_send_state_gives s)). refine (sends_balanced _ n _ w _ Hw).
    rewrite (sends_size_delete _ _ _ Hs). simpl. lia.
  - refine (sends_balanced _ n _ w _ Hw). by rewrite delete_id.
Qed.
Lemma send_insert_bal id s : send_ops s = [] → respects Bal (send_insert id s).
Proof.
  intros He w n Hw. assert (ops_size s = 0) as Hz by (unfold ops_size; by rewrite He).
  unfold send_insert. rewrite !exec_bind, exec_dget, result_dget.
  destruct (send (drv w) !! id) as [s'|] eqn:Hs; simpl.
  - apply (gives_shared _ _ (drop_send_state_gives s')). refine (sends_balanced _ n _ w _ Hw).
    pose proof (sends_size_replace _ id s' s Hs). lia.
  - refine (sends_balanced _ n _ w _ Hw). rewrite sends_size_insert by done. lia.
Qed.

(** The entry [send_entry] returns is the one in the registry. *)
Lemma send_entry_lookup id (w : W) :
  send (drv (exec (send_entry id) w)) !! id = Some (result (send_entry id) w).
Proof.
  unfold send_entry. rewrite exec_bind, result_bind, exec_dget, result_dget.
  destruct (send (drv w) !! id) eqn:Hs; [done|]. run. by rewrite lookup_insert_eq.
Qed.
Lemma send_entry_bal id : respects Bal (send_entry id).
Proof.
  intros w n Hw. unfold send_entry. rewrite exec_bind, exec_dget, result_dget.
  destruct (send (drv w) !! id) eqn:Hs; [done|]. rewrite !exec_bind, exec_ret.
  refine (sends_balanced _ n n _ _ _).
  - simpl. by rewrite sends_size_insert.
  - revert n Hw. change (Bal w (exec (shared (alloc send_cells tc_new)) w)). by_respects bals.
Qed.
#[local] Hint Resolve send_remove_bal send_insert_bal send_entry_bal : steps.

Lemma mark_send_done_bal id : respects Bal (mark_send_done id).
Proof. bals. Qed.
Lemma mark_send_runnable_bal id : respects Bal (mark_send_runnable id).
Proof. bals. Qed.
#[local] Hint Resolve mark_send_done_bal mark_send_runnable_bal : steps.

Lemma enqueue_send_op_gives id op : gives (op_size op) (enqueue_send_op (B := B) (C := C) id op).
Proof.
  intros w n Hw. unfold enqueue_send_op. rewrite exec_bind.
  pose proof (send_entry_bal id w _ Hw) as Hb. pose proof (send_entry_lookup id w) as Hs.
  set (s := result (send_entry id) w) in *. set (w1 := exec (send_entry id) w) in *.
  destruct (terminal s) as [end_|].
  - by apply (gives_shared _ _ (op_complete_gives op _)).
  - rewrite exec_bind. apply mark_send_runnable_bal.
    refine (upd_send_balanced id _ s _ _ w1 Hs _ Hb).
    unfold ops_size. simpl. rewrite sum_of_app. simpl. lia.
Qed.

(** Emptying a half and completing what it held. *)
Lemma drain_ops id f s r n (w : W) :
  send (drv w) !! id = Some s → send_ops (f s) = [] → balanced n w →
  balanced n (exec (for_each (send_ops s) (λ op, shared (op_complete op r))) (exec (upd_send id f) w)).
Proof.
  intros Hs Hf Hw. apply ops_complete_gives. refine (upd_send_balanced id f s n _ w Hs _ Hw).
  unfold ops_size. rewrite Hf. simpl. lia.
Qed.

Lemma apply_reset_bal id code : respects Bal (apply_reset id code).
Proof.
  intros w n Hw. unfold apply_reset. rewrite exec_bind.
  pose proof (send_entry_bal id w n Hw) as Hb. pose proof (send_entry_lookup id w) as Hs.
  set (s := result (send_entry id) w) in *. set (w1 := exec (send_entry id) w) in *.
  case_match; [done|]. rewrite !exec_bind. apply mark_send_runnable_bal, drain_ops; [done..|].
  revert n Hw Hb. intros n _. revert n. change (Bal w1 (exec (shared (send_cell_set (status s) (SendReset code))) w1)).
  by_respects bals.
Qed.
Lemma send_terminal_transition_bal id end_ : respects Bal (send_terminal_transition id end_).
Proof.
  intros w n Hw. unfold send_terminal_transition. rewrite exec_bind, exec_dget, result_dget.
  destruct (send (drv w) !! id) as [s|] eqn:Hs; [|done].
  rewrite !exec_bind. apply mark_send_done_bal, drain_ops; [done..|].
  revert n Hw. change (Bal w (exec (shared (send_cell_set (status s) end_)) w)).
  by_respects bals.
Qed.
#[local] Hint Resolve apply_reset_bal send_terminal_transition_bal : steps.

Lemma rearm_send_bal id : respects Bal (rearm_send id).
Proof. bals. Qed.
#[local] Hint Resolve rearm_send_bal : steps.
Lemma classify_send_err_bal id err : respects Bal (classify_send_err id err).
Proof. bals. Qed.
#[local] Hint Resolve classify_send_err_bal : steps.

(** Offering bytes changes the transport only. *)
Lemma send_from_buf_outside (buf : B) id fin (w : W) :
  let w' := exec (send_from_buf buf (λ chunk, call (stream_send id (offer chunk) (fin chunk)))) w in
  drv w' = drv w ∧ sto w' = sto w.
Proof.
  assert (respects (same (λ w : W, (drv w, sto w)))
            (send_from_buf buf (λ chunk, call (stream_send id (offer chunk) (fin chunk))))) as Hr.
  { worker_with ltac:(idtac; lazymatch goal with |- respects _ (call _) => intros ?; reflexivity end). }
  specialize (Hr w). unfold same in Hr. by injection Hr.
Qed.
Lemma send_from_buf_bal (buf : B) id fin :
  respects Bal (send_from_buf buf (λ chunk, call (stream_send id (offer chunk) (fin chunk)))).
Proof. intros w n. unfold balanced. by destruct (send_from_buf_outside buf id fin w) as [-> ->]. Qed.

Lemma flush_held_once_bal id fin : respects Bal (flush_held_once id fin).
Proof.
  unfold flush_held_once. apply respects_bind; [apply _|bals|]. intros [h|]; [|bals].
  cbv zeta. apply respects_bind; [apply _|apply (send_from_buf_bal _ id (λ chunk, fin && (_ =? _)))|]. intros r. bals.
Qed.
#[local] Hint Resolve flush_held_once_bal : steps.

Definition head_op (id : N) (w : W) : option (SendOp B) :=
  head (from_option send_ops [] (send (drv w) !! id)).

(** The head operation taken off the queue is in hand. *)
Lemma pop_op_balanced id op n (w : W) :
  head_op id w = Some op → balanced n w → balanced (op_size op + n) (exec (pop_op id) w).
Proof.
  unfold head_op. intros Ho. destruct (send (drv w) !! id) as [s|] eqn:Hs; [|done]. simpl in Ho.
  apply (upd_send_balanced id _ s); [done|]. unfold ops_size. simpl.
  rewrite (sum_of_tail _ (send_ops s)), Ho. simpl. lia.
Qed.

Lemma hold_write_balanced id buf k p n (w : W) :
  head_op id w = Some (OpWrite buf k p) → balanced n w → balanced n (exec (hold_write id buf k p) w).
Proof.
  intros Ho Hw. unfold hold_write. rewrite !exec_bind.
  assert (respects Bal (runnable_after_pop id)) as Hr by bals. apply Hr.
  apply bal_upd_send; [done|]. apply (gives_shared _ _ (release_permit_gives p)).
  apply (bal_shared _ (complete_write_bal k (Ok tt))). by apply (pop_op_balanced id (OpWrite buf k p)).
Qed.

Lemma partial_write_balanced id buf k p n (w : W) :
  head_op id w = Some (OpWrite buf k p) → balanced n w → balanced n (exec (partial_write id buf k p) w).
Proof.
  intros Ho Hw. unfold partial_write. rewrite exec_bind.
  destruct (send_from_buf_outside buf id (λ _, false) w) as [Ed _].
  pose proof (send_from_buf_bal buf id (λ _, false) w n Hw) as Hb.
  set (r := result _ w). set (w1 := exec (send_from_buf _ _) w) in *. rewrite exec_bind.
  unfold head_op in Ho. destruct (send (drv w) !! id) as [s|] eqn:Hs; [|done]. simpl in Ho.
  set (f := λ s : StreamSendState B, s <| send_ops ::= λ q, OpWrite r.2 k p :: tail q |>).
  assert (balanced n (exec (upd_send id f) w1)) as Hb2.
  { refine (upd_send_balanced id f s n n w1 _ _ Hb); [by rewrite Ed|]. unfold ops_size, f. simpl.
    rewrite (sum_of_tail _ (send_ops s)), Ho. done. }
  destruct (r.1) as [written|err]; [|by apply classify_send_err_bal].
  case_match; [|by case_match; [|apply rearm_send_bal]].
  rewrite !exec_bind. assert (respects Bal (runnable_after_pop id)) as Hr by bals. apply Hr.
  apply (gives_shared _ _ (op_complete_gives (OpWrite r.2 k p) (Ok tt))).
  apply (pop_op_balanced id (OpWrite r.2 k p)); [|done].
  unfold head_op. simpl. rewrite lookup_alter_eq, Ed, Hs. done.
Qed.

Lemma service_head_write_bal id : respects Bal (service_head_write id).
Proof.
  intros w n Hw. unfold service_head_write. rewrite exec_bind, exec_dget, result_dget.
  fold (head_op id w). destruct (head_op id w) as [[buf k p|k]|] eqn:Ho; [|done..].
  rewrite exec_bind. destruct (result _ w); [|by apply classify_send_err_bal].
  case_match; [by apply hold_write_balanced | by apply partial_write_balanced].
Qed.
Lemma complete_finish_op_bal id : respects Bal (complete_finish_op id).
Proof.
  intros w n Hw. unfold complete_finish_op. rewrite exec_bind, exec_dget, result_dget.
  fold (head_op id w). rewrite !exec_bind.
  assert (respects Bal (reclaim_finished_send id)) as Hr by bals. apply Hr, mark_send_done_bal.
  destruct (head_op id w) as [op|] eqn:Ho; simpl; [|done]. rewrite exec_bind.
  apply (gives_shared _ _ (op_complete_gives op (Ok tt))). by apply pop_op_balanced.
Qed.
#[local] Hint Resolve service_head_write_bal complete_finish_op_bal : steps.

Lemma stage_send_bal : respects Bal stage_send.
Proof. bals. Qed.
Lemma stage_writable_bal : respects Bal stage_writable.
Proof. bals. Qed.
End worker_ops.
#[export] Hint Resolve send_remove_bal send_insert_bal send_entry_bal apply_reset_bal
  send_terminal_transition_bal stage_send_bal stage_writable_bal : steps.

Section worker_stages.
Context `{Runtime} {B C : Type} `{!Buf B} `{!QuicConn C}.
Abbreviation W := (World B C).
Abbreviation Bal := (bal (B := B) (C := C)).

Lemma build_send_ops id retained (w : W) s :
  (result (build_send id retained) w).1.2 = Some s → send_ops s = [].
Proof. unfold build_send. rewrite !result_bind, result_ret. destruct retained; simpl; by intros [= <-]. Qed.
Lemma build_send_bal id e : respects Bal (build_send id e).
Proof. bals. Qed.
Lemma register_bal {A} id e (k : SendHandoff * option (StreamSendState B) * bool → ST W A) :
  (∀ h o b, (∀ s, o = Some s → send_ops s = []) → respects Bal (k (h, o, b))) →
  respects Bal (build_send id e ≫= k).
Proof.
  intros Hk. apply respects_bind_result; [apply _ | apply build_send_bal |]. intros w.
  destruct (result _ w) as [[h o] b] eqn:E. apply Hk. intros s ->.
  eapply (build_send_ops id e w). by rewrite E.
Qed.
Lemma register_some_bal id (o : option (StreamSendState B)) :
  (∀ s, o = Some s → send_ops s = []) → respects Bal (for_some o (send_insert id)).
Proof. intros Ho. apply respects_for_some; [apply _|]. intros s Hs. apply send_insert_bal; auto. Qed.
#[local] Hint Resolve register_some_bal : steps.

Ltac registers :=
  worker_with ltac:(idtac; first
    [ bal_leaf
    | lazymatch goal with
      | |- respects _ (mbind _ (build_send _ _)) => apply register_bal; intros
      end ]).

Lemma drain_stream_bal id : respects Bal (drain_stream id).
Proof. bals. Qed.
#[local] Hint Resolve drain_stream_bal : steps.
Lemma admit_one_bal peer : respects Bal (admit_one peer).
Proof. registers. Qed.
Lemma materialize_bidi_bal id reply : respects Bal (materialize_bidi id reply).
Proof. registers. Qed.
Lemma materialize_uni_bal id reply : respects Bal (materialize_uni id reply).
Proof. registers. Qed.
#[local] Hint Resolve admit_one_bal materialize_bidi_bal materialize_uni_bal : steps.
Lemma phase2_loop_bal fuel budget bb ub pb : respects Bal (phase2_loop fuel budget bb ub pb).
Proof. revert budget bb ub pb. induction fuel; intros; simpl; destruct budget; bals. Qed.
#[local] Hint Resolve phase2_loop_bal : steps.
Lemma run_read_pump_bal : respects Bal run_read_pump.
Proof. bals. Qed.
Lemma open_bidi_loop_bal budget : respects Bal (open_bidi_loop budget).
Proof. induction budget; simpl; bals. Qed.
Lemma open_uni_loop_bal budget : respects Bal (open_uni_loop budget).
Proof. induction budget; simpl; bals. Qed.
#[local] Hint Resolve run_read_pump_bal open_bidi_loop_bal open_uni_loop_bal : steps.

(** A command that is applied brings its bytes into a queue or releases them. *)
Lemma apply_command_gives cmd : gives (cmd_size cmd) (apply_command (B := B) (C := C) cmd).
Proof.
  destruct cmd as [| |id buf k p|id k| | | | | | |]; cbn [cmd_size apply_command].
  3: exact (enqueue_send_op_gives id (OpWrite buf k p)).
  3: exact (enqueue_send_op_gives id (OpFinish k)).
  all: apply (proj2 (gives_zero _)); bals.
Qed.

Definition taken (o : option (DriverCommand B)) : N := from_option cmd_size 0 o.

Lemma balanced_backlog n (w : W) :
  balanced n w ↔ sa_resident (send_accounting (sto w)) =
                 sum_of cmd_size (backlog w) + sends_size (send (drv w)) + n.
Proof. unfold balanced, sbalanced, driver_size, backlog. simpl. rewrite sum_of_app. lia. Qed.

Lemma next_command_rest (w : W) :
  sa_resident (send_accounting (sto (exec next_command w))) = sa_resident (send_accounting (sto w)) ∧
  send (drv (exec next_command w)) = send (drv w).
Proof.
  assert (respects (same (λ w : W, (sa_resident (send_accounting (sto w)), send (drv w)))) next_command) as Hr.
  { worker_with ltac:(idtac; first [intros ?; reflexivity]). }
  specialize (Hr w). unfold same in Hr. by injection Hr.
Qed.
Lemma next_command_balanced n (w : W) :
  balanced n w → balanced (taken (result next_command w) + n) (exec next_command w).
Proof.
  rewrite !balanced_backlog. destruct (next_command_rest w) as [-> ->].
  destruct (next_command_backlog w) as [-> ->]. rewrite (sum_of_tail _ (backlog w)). unfold taken. lia.
Qed.

Lemma apply_inbox_bal : respects Bal apply_inbox.
Proof.
  unfold apply_inbox. apply respects_bind; [apply _| |intros ?; bals].
  apply respects_budget_loop; [apply _|]. intros w n Hw. unfold apply_inbox_one. rewrite exec_bind.
  apply next_command_balanced in Hw. destruct (result next_command w) as [cmd|]; [|done].
  rewrite exec_bind. by apply apply_command_gives.
Qed.
#[local] Hint Resolve apply_inbox_bal : steps.
Lemma close_drain_loop_bal fuel t : respects Bal (close_drain_loop fuel t).
Proof.
  induction fuel as [|fuel IH]; [by intros w n|]. intros w n Hw. simpl. rewrite exec_bind.
  apply next_command_balanced in Hw. destruct (result next_command w) as [cmd|]; [|done].
  rewrite exec_bind. apply IH. by apply (gives_shared _ _ (complete_command_gives cmd t)).
Qed.
#[local] Hint Resolve close_drain_loop_bal : steps.

(** ** Sums over the registry, in the order the map is iterated *)

Lemma sum_of_Permutation {A} (f : A → N) l k : l ≡ₚ k → sum_of f l = sum_of f k.
Proof. induction 1; simpl; lia. Qed.
Lemma sends_size_iter (m : gmap N (StreamSendState B)) : sends_size m = sum_of ops_size (hash_iter m).*2.
Proof.
  rewrite (sum_of_Permutation ops_size _ (map_to_list m).*2) by by rewrite hash_iter_perm.
  unfold sends_size. rewrite map_fold_foldr. induction (map_to_list m) as [|[id s] l IH]; [done|].
  simpl. by rewrite IH.
Qed.
Lemma sum_of_mjoin (ss : list (StreamSendState B)) : sum_of op_size (mjoin (send_ops <$> ss)) = sum_of ops_size ss.
Proof.
  induction ss as [|s ss IH]; [done|].
  trans (sum_of op_size (send_ops s ++ mjoin (send_ops <$> ss))); [done|]. by rewrite sum_of_app, IH.
Qed.
Lemma sends_size_sealed t (m : gmap N (StreamSendState B)) : sends_size (seal_send_state t <$> m) = 0.
Proof.
  induction m as [|id s m Hm IH] using map_ind; [by rewrite fmap_empty|].
  rewrite fmap_insert, sends_size_insert by by rewrite lookup_fmap, Hm. by rewrite IH.
Qed.

Lemma close_sends_bal t : respects Bal (close_sends t).
Proof.
  intros w n Hw. unfold close_sends. rewrite exec_bind, exec_dget, result_dget.
  set (ss := (hash_iter (send (drv w))).*2). rewrite !exec_bind. apply ops_complete_gives.
  rewrite sum_of_mjoin. unfold ss. rewrite <-sends_size_iter. fold ss.
  set (w1 := exec (for_each ss _) w).
  assert (drv w1 = drv w) as Ed.
  { assert (respects (same (@drv _ B C)) (for_each ss (λ s, shared (send_cell_set (status s) (SendConn t))))) as Hr.
    { apply respects_for_each; [apply _|]. intros s w'. done. }
    apply Hr. }
  assert (balanced n w1) as Hb.
  { revert n Hw. change (Bal w w1). unfold w1. by_respects bals. }
  refine (sends_balanced _ n _ w1 _ Hb). rewrite Ed. rewrite sends_size_sealed. lia.
Qed.
#[local] Hint Resolve close_sends_bal : steps.

(** A command moved from the channel to the inbox. *)
Lemma to_inbox_balanced cmd n (w : W) :
  result (shared cmd_try_recv) w = Received cmd → balanced n w →
  balanced n (exec (dmod (λ d, d <| inbox ::= λ q, q ++ [cmd] |>)) (exec (shared cmd_try_recv) w)).
Proof.
  rewrite result_shared. unfold result, cmd_try_recv, balanced, sbalanced, driver_size. simpl.
  rewrite chan_try_recv_res, chan_try_recv_view. unfold view_recv. simpl.
  destruct (cs_queue _) as [|c q]; simpl; [by destruct (negb _ || _)|]. intros [= ->].
  rewrite sum_of_app. simpl. lia.
Qed.
Lemma no_command_balanced n (w : W) :
  (∀ cmd, result (shared cmd_try_recv) w ≠ Received cmd) → balanced n w →
  balanced n (exec (shared cmd_try_recv) w).
Proof.
  rewrite result_shared. unfold result, cmd_try_recv, balanced, sbalanced, driver_size. simpl.
  rewrite chan_try_recv_res, chan_try_recv_view. unfold view_recv. simpl.
  destruct (cs_queue _) as [|c q]; simpl; [done|]. naive_solver.
Qed.
(** Waiting for a command: what is received goes to the inbox. *)
Lemma recv_bal {A} (k : TryRecv (DriverCommand B) → ST W A) :
  (∀ r, (∀ cmd, r ≠ Received cmd) → respects Bal (k r)) →
  (∀ cmd, ∃ k', k (Received cmd) = dmod (λ d, d <| inbox ::= λ q, q ++ [cmd] |>) ≫= k' ∧
                ∀ u, respects Bal (k' u)) →
  respects Bal (shared cmd_try_recv ≫= k).
Proof.
  intros Ho Hc w n Hw. rewrite exec_bind. destruct (result (shared cmd_try_recv) w) as [cmd| |] eqn:Hr.
  - destruct (Hc cmd) as (k'&->&Hk). rewrite exec_bind. apply Hk. exact (to_inbox_balanced cmd n w Hr Hw).
  - apply Ho; [done|]. apply no_command_balanced; [by rewrite Hr|done].
  - apply Ho; [done|]. apply no_command_balanced; [by rewrite Hr|done].
Qed.
Lemma wait_for_data_poll_bal p : respects Bal (wait_for_data_poll p).
Proof.
  destruct p; [bals|bals| |]; apply recv_bal.
  - intros [cmd| |] Hr; [by destruct (Hr cmd)|bals..].
  - intros cmd. eexists. split; [reflexivity|]. intros u. cbv beta. bals.
  - intros [cmd| |] Hr; [by destruct (Hr cmd)|bals..].
  - intros cmd. eexists. split; [reflexivity|]. intros u. cbv beta. bals.
Qed.

Lemma worker_turn_bal (w w' : W) : worker_turn w w' → bal w w'.
Proof.
  apply worker_turn_respects; [bals..| |bals]. apply wait_for_data_poll_bal.
Qed.
End worker_stages.

(** ** The front end *)

Section front.
Context `{Runtime} {B : Type} `{!Buf B}.
Abbreviation St := (Store B).

Lemma acct_register_bal id cx : respects sbal (acct (B := B) (λ a, (tt, sa_register_waiter id cx a))).
Proof.
  apply sbal_same. intros s. unfold same, exec, acct, accounting_view. simpl.
  by destruct (register_waiter_fields id cx (send_accounting s)) as [_ ->].
Qed.
Lemma acct_unregister_bal id : respects sbal (acct (B := B) (λ a, (tt, sa_unregister_waiter id a))).
Proof.
  apply sbal_same. intros s. unfold same, exec, acct, accounting_view. simpl.
  by destruct (unregister_waiter_fields id (send_accounting s)) as [_ ->].
Qed.
#[local] Hint Resolve acct_register_bal acct_unregister_bal : steps.

(** An admitted reservation is in hand. *)
Lemma try_reserve_balanced bytes n (s : St) :
  sbalanced n s →
  sbalanced (permit_size (result (acct (sa_try_reserve bytes)) s) + n) (exec (acct (sa_try_reserve bytes)) s).
Proof.
  unfold sbalanced, acct, exec, result, sa_try_reserve. simpl.
  destruct (sa_admit _ _ _) as [next|] eqn:Ha; simpl; [|done].
  apply sa_admit_spec in Ha as (->&_). lia.
Qed.
Lemma reserve_bytes_balanced cx id bytes n (s : St) :
  sbalanced n s →
  sbalanced (permit_size (result (reserve_bytes cx id bytes) s) + n) (exec (reserve_bytes cx id bytes) s).
Proof.
  intros Hs. unfold reserve_bytes. rewrite exec_bind, result_bind.
  apply (try_reserve_balanced bytes) in Hs. destruct (result (acct _) s) as [p|]; [done|].
  rewrite exec_bind, result_bind. apply try_reserve_balanced, acct_register_bal, Hs.
Qed.

Lemma poll_write_bal cx g r : respects sbal (poll_write (B := B) cx g r).
Proof. sbals. Qed.
#[local] Hint Resolve poll_write_bal : steps.
Lemma submit_write_gives cx buf p r : sgives (permit_bytes p) (submit_write (B := B) cx buf p r).
Proof.
  unfold submit_write. apply sgives_bal_bind; [sbals|]. intros _.
  apply sgives_bal_bind; [sbals|]. intros g. cbv zeta. apply sgives_bind_bal.
  - apply (cmd_send_gives (Send _ _ _ (Some p))).
  - intros ok. sbals.
Qed.
Lemma poll_ready_bal cx r : respects sbal (poll_ready (B := B) cx r).
Proof.
  unfold poll_ready. destruct (fs_send_gen r) as [g|]; [sbals|].
  apply respects_bind; [apply _|sbals|]. intros [end_|]; [sbals|].
  destruct (fs_stash r) as [buf|]; [|sbals]. cbv zeta. intros s n Hs. rewrite exec_bind.
  apply (reserve_bytes_balanced cx (fs_id r) (buf_remaining buf)) in Hs. simpl in *.
  destruct (result (reserve_bytes _ _ _) s) as [p|]; [|done]. by apply submit_write_gives.
Qed.
#[local] Hint Resolve poll_ready_bal : steps.

Lemma front_step_bal (s s' : St) : front_step s s' → sbal s s'.
Proof. intros [[] ->]; cbn [run_front]; by_respects sbals. Qed.
End front.

(** ** The connection *)

Section connection.
Context `{Runtime} {B C : Type} `{!Buf B} `{!QuicConn C}.
Abbreviation W := (World B C).

(** The bytes of the writes on their way: submitted and not applied yet, or
    queued on a half. *)
Definition outstanding (w : W) : N := sum_of cmd_size (backlog w) + sends_size (send (drv w)).

Lemma system_step_bal (w w' : W) : system_step w w' → bal w w'.
Proof.
  intros [w1 w2 Ht|w1 s Hf|w1 c] n.
  - by apply worker_turn_bal.
  - unfold balanced. simpl. by apply front_step_bal.
  - done.
Qed.
Lemma initial_balanced fresh (w : W) : initial fresh w → balanced 0 w.
Proof. intros (srv&bc&uc&bf&c&_&->). unfold balanced, sbalanced, driver_size. simpl. by rewrite chan_new_view. Qed.

(** After teardown no command and no operation is left. *)
Lemma teardown_send t (w : W) :
  send (drv (exec (close_opens t) (exec (close_commands t) w))) = send (drv w).
Proof.
  assert (∀ n, respects (same (λ w : W, send (drv w))) (close_drain_loop n t)) as Hl.
  { induction n; simpl; worker_with ltac:(idtac; lazymatch goal with
      | |- respects _ (dmod _) => intros ?; reflexivity end). }
  assert (respects (same (λ w : W, send (drv w))) (close_commands t;; close_opens t)) as Hm.
  { worker_with ltac:(idtac; first [solve [auto] | lazymatch goal with
      | |- respects _ (dmod _) => intros ?; reflexivity end]). }
  apply (Hm w).
Qed.
Lemma sealed_sends t (w : W) : send (drv (exec (close_sends t) w)) = seal_send_state t <$> send (drv w).
Proof. by rewrite close_sends_drv. Qed.
Lemma teardown_outstanding (w : W) : outstanding (exec do_on_conn_close w) = 0.
Proof.
  set (t := teardown_terminal w).
  replace (exec do_on_conn_close w) with (exec (close_opens t) (exec (close_commands t)
    (exec (close_sends t) (exec (close_publish t) w)))) by by rewrite do_on_conn_close_split.
  unfold outstanding. rewrite teardown_send, sealed_sends, sends_size_sealed.
  set (w2 := exec (close_sends t) _).
  destruct (close_commands_resolves (sto w2) t w2) as [_ Hi]; [reflexivity|].
  destruct (close_backlog (B := B) (C := C) t) as (_&_&B4). specialize (B4 (exec (close_commands t) w2)).
  unfold same in B4. rewrite Hi in B4. apply (f_equal fst) in B4. simpl in B4. by rewrite B4.
Qed.

(** C10.  The byte accounting is exact over the whole life of a connection: in any
    interleaving of worker callbacks, front-end calls and transport activity, the
    bytes resident are those of the writes submitted and not yet completed or
    dropped, and once the connection has been torn down none is left. *)
Theorem system_accounting_exact fresh (w0 w : W) :
  initial fresh w0 → rtc system_step w0 w →
  sa_resident (send_accounting (sto w)) = outstanding w ∧
  sa_resident (send_accounting (sto (exec do_on_conn_close w))) = 0.
Proof.
  intros Hi Hs. assert (balanced 0 w) as Hb.
  { apply initial_balanced in Hi. induction Hs as [|x y z Hxy _ IH]; [done|]. by apply IH, (system_step_bal x y Hxy). }
  split.
  - apply balanced_backlog in Hb. unfold outstanding. lia.
  - assert (bal w (exec do_on_conn_close w)) as Hc by apply worker_turn_bal, turn_close.
    apply Hc, balanced_backlog in Hb. fold (outstanding (exec do_on_conn_close w)) in Hb.
    rewrite teardown_outstanding in Hb. done.
Qed.
End connection.
