(* ===== verification/Delivery.v ===== *)
(** * From the transport to the application

    One receive stream end to end: the worker drains it into the byte channel, the
    front-end half polls the channel, and each may go on at any time, with the
    channel full or empty, parked or resumed.  What the application has received,
    followed by what is queued, is what the transport returned. *)

From S2P Require Import Prelude Interfaces Error Buffer Conn DriverTypes DriverStore DriverCore DriverRecv DriverSend Driver DriverLogic StoreLogic Trace DriverReach DriverRecvBytes Stream.

(** The chunk a poll of [poll_data] yields. *)
Definition yielded (x : Poll (Result (option Bytes) h3_stream_error)) : list Bytes :=
  match x with Ready (Ok (Some b)) => [b] | _ => [] end.

Section poll.
Context `{Runtime} {B : Type}.
Abbreviation St := (Store B).

(** One poll of the channel: the head of the queue, which leaves it. *)
Lemma bytes_poll_queue a cx (s : St) :
  queue_at a (exec (bytes_poll_recv a cx) s) = tail (queue_at a s) ∧
  match queue_at a s with
  | b :: _ => result (bytes_poll_recv a cx) s = Ready (Some b)
  | [] => ∀ b, result (bytes_poll_recv a cx) s ≠ Ready (Some b)
  end.
Proof.
  unfold bytes_poll_recv, at_loc, exec, result, queue_at.
  destruct (byte_chans s !! a) as [c|] eqn:Hc; simpl; [|by rewrite Hc].
  rewrite list_lookup_insert_eq by by eapply lookup_lt_Some. simpl.
  rewrite chan_poll_recv_view, chan_poll_recv_res. split; [done|]. unfold view_recv.
  destruct (cs_queue (chan_view c)); [|done]. simpl. by destruct (negb _ || _).
Qed.

Lemma recv_cell_poll_queue a b cx : respects (same (queue_at a)) (recv_cell_poll (B := B) b cx).
Proof. by apply at_loc_same. Qed.
Lemma signal_resume_queue a r : respects (same (queue_at a)) (signal_resume (B := B) r).
Proof. store. Qed.

(** A poll yields the head of the queue if there is one, and otherwise nothing. *)
Lemma poll_data_queue cx r (s : St) :
  queue_at (fr_bytes r) s =
    yielded (result (poll_data cx r) s).1 ++ queue_at (fr_bytes r) (exec (poll_data cx r) s) ∧
  fr_bytes (result (poll_data cx r) s).2 = fr_bytes r ∧
  (∀ b q, queue_at (fr_bytes r) s = b :: q → (result (poll_data cx r) s).1 = Ready (Ok (Some b))).
Proof.
  unfold poll_data. rewrite !exec_bind, !result_bind.
  destruct (bytes_poll_queue (fr_bytes r) cx s) as [Q1 R1]. set (s1 := exec (bytes_poll_recv _ _) s) in *.
  destruct (queue_at (fr_bytes r) s) as [|b q]; simpl in *.
  - assert (∀ x : Store B, queue_at (fr_bytes r) x = [] →
      queue_at (fr_bytes r) (exec (recv_cell_poll (fr_terminal r) cx) x) = []) as Hc.
    { intros x Hx. rewrite <-Hx. apply recv_cell_poll_queue. }
    destruct (result (bytes_poll_recv _ _) s) as [[b|]|]; [by destruct (R1 b)|..];
      rewrite exec_bind, result_bind; set (s2 := exec (recv_cell_poll _ _) s1) in *;
      assert (queue_at (fr_bytes r) s2 = []) as Q2 by by apply Hc.
    + destruct (result (recv_cell_poll _ _) s1) as [e|]; rewrite exec_ret, result_ret; simpl; rewrite Q2;
        [destruct (recv_to_h3 e)|]; done.
    + destruct (result (recv_cell_poll _ _) s1) as [e|]; [|by rewrite exec_ret, result_ret, Q2].
      rewrite exec_bind, result_bind. destruct (bytes_poll_queue (fr_bytes r) cx s2) as [Q3 R3].
      rewrite Q2 in *. destruct (result (bytes_poll_recv _ _) s2) as [[b|]|]; [by destruct (R3 b)|..];
        rewrite exec_ret, result_ret, Q3; simpl; destruct (recv_to_h3 e); done.
  - rewrite R1, exec_bind, result_bind, exec_ret, result_ret.
    split_and!; [|done|by intros ? ? [= -> ->]]. simpl. by rewrite signal_resume_queue, Q1.
Qed.
End poll.

(** ** The pipe of one stream *)

Section pipe.
Context `{Runtime} {B C : Type} `{!Buf B} `{!QuicConn C} `{!QuicConnOk C}.
Abbreviation TW := (World B (Traced C)).

(** A connection, the half an application polls, and what it has received. *)
Record Pipe := mkPipe { pp_world : TW; pp_half : H3RecvStream; pp_got : list Bytes }.

Inductive pipe_step (id : N) : relation Pipe :=
| pipe_drain w r got s :                       (* the worker drains the stream *)
    recv (drv w) !! id = Some s → rs_bytes s = fr_bytes r →
    pipe_step id (mkPipe w r got) (mkPipe (exec (drain_stream id) w) r got)
| pipe_poll w r got cx :                       (* the application polls *)
    let x := result (poll_data cx r) (sto w) in
    pipe_step id (mkPipe w r got)
      (mkPipe (w <| sto := exec (poll_data cx r) (sto w) |>) x.2 (got ++ yielded x.1))
| pipe_other w w' r got l :                    (* anything that is not about this stream *)
    log w' = log w ++ l → chunks id l = [] → queue_at (fr_bytes r) (sto w') = queue_at (fr_bytes r) (sto w) →
    pipe_step id (mkPipe w r got) (mkPipe w' r got).

(** What was received and what is queued grow by what is read. *)
Definition carries (id : N) (p p' : Pipe) : Prop := ∃ l,
  log (pp_world p') = log (pp_world p) ++ l ∧ fr_bytes (pp_half p') = fr_bytes (pp_half p) ∧
  pp_got p' ++ queue_at (fr_bytes (pp_half p')) (sto (pp_world p')) =
  pp_got p ++ queue_at (fr_bytes (pp_half p)) (sto (pp_world p)) ++ chunks id l.

#[local] Instance carries_preorder id : PreOrder (carries id).
Proof.
  split.
  - intros p. exists []. by rewrite !app_nil_r.
  - intros p1 p2 p3 (l1&L1&F1&Q1) (l2&L2&F2&Q2). exists (l1 ++ l2). split_and!; [by rewrite L2, L1, app_assoc|congruence|].
    unfold chunks in *. by rewrite Q2, app_assoc, Q1, omap_app, <-!app_assoc.
Qed.

Lemma pipe_step_carries id p p' : pipe_step id p p' → carries id p p'.
Proof.
  intros [w r got s Hs Ha|w r got cx x|w w' r got l Hl Hc Hq]; unfold carries;
    cbn [pp_world pp_half pp_got].
  - destruct (drain_stream_delivers id s w Hs) as (l&Hl&Hq). rewrite Ha in Hq. exists l. by rewrite Hq.
  - destruct (poll_data_queue cx r (sto w)) as (Hq&Hr&_). exists []. unfold x. rewrite Hr, !app_nil_r.
    split_and!; [done..|]. rewrite <-app_assoc. f_equal. symmetry. exact Hq.
  - exists l. by rewrite Hq, Hc, app_nil_r.
Qed.

End pipe.
