(* ===== verification/Handshake.v ===== *)
(** * The blocked/resume handshake of a receive half

    The worker parks a stream whose byte channel is full; the consumer, having
    freed a slot, tells it to resume.  The worker's [drain_stream] publishes
    [blocked] and then checks the capacity again; the consumer's [poll_data] pops
    a chunk and then swaps [blocked].  Under an interleaving semantics no wakeup
    is lost; the last section shows what a store buffer changes. *)

From S2P Require Import Prelude Interfaces Wakeup Error Buffer Conn DriverTypes DriverStore DriverCore DriverRecv DriverLogic StoreLogic DriverRecvBytes Stream StreamLogic.

Section handshake.
Context `{Runtime} {B : Type}.
Abbreviation St := (Store B).
Context (r : H3RecvStream).

(** The flag and the channel of the half [r]. *)
Definition park_flag (s : St) : bool := default false (flags s !! fr_blocked r).
Definition has_slot (s : St) : Prop := result (bytes_try_reserve (fr_bytes r)) s = Reserved.
Definition flags_allocated (s : St) : Prop :=
  is_Some (flags s !! fr_blocked r) ∧ is_Some (flags s !! fr_resume r) ∧ fr_blocked r ≠ fr_resume r.

(** Anything that leaves the park flag alone and frees no slot: the worker's own
    sends, other streams, other handles. *)
Definition elsewhere (s s' : St) : Prop :=
  (flags_allocated s → flags_allocated s') ∧ park_flag s' = park_flag s ∧ (has_slot s' → has_slot s).

Lemma flag_store_allocated a b (s : St) : flags_allocated s → flags_allocated (exec (flag_store a b) s).
Proof.
  intros ([x Hx]&[y Hy]&Hne). unfold flags_allocated, flag_store. rewrite exec_modify. simpl.
  split_and!; [..|done]; apply lookup_lt_is_Some; rewrite length_insert; by eapply lookup_lt_Some.
Qed.
Lemma flag_store_park b (s : St) :
  flags_allocated s → park_flag (exec (flag_store (fr_blocked r) b) s) = b.
Proof.
  intros ([x Hx]&_). unfold park_flag, flag_store. rewrite exec_modify. simpl.
  by rewrite list_lookup_insert_eq by by eapply lookup_lt_Some.
Qed.

Lemma signal_resume_fields :
  respects (same (λ s : St, (byte_chans s, length (flags s)))) (signal_resume r).
Proof.
  assert (∀ a b, respects (same (λ s : St, (byte_chans s, length (flags s)))) (flag_store a b)) as Hf.
  { intros a b s. unfold same, flag_store. rewrite exec_modify. simpl. by rewrite length_insert. }
  worker_with ltac:(idtac; first [apply Hf | lazymatch goal with
    | |- respects _ (cmd_send _) => store | |- respects _ (flag_load _) => intros ?; reflexivity end]).
Qed.
Lemma signal_resume_allocated s : flags_allocated s → flags_allocated (exec (signal_resume r) s).
Proof.
  pose proof (signal_resume_fields s) as Hs. unfold same in Hs. injection Hs as _ Hl.
  intros ([x Hx]&[y Hy]&Hne). split_and!; [..|done]; apply lookup_lt_is_Some; rewrite Hl; by eapply lookup_lt_Some.
Qed.
Lemma has_slot_chans (s s' : St) : byte_chans s' = byte_chans s → has_slot s' → has_slot s.
Proof.
  intros Hb. unfold has_slot, bytes_try_reserve, at_loc, result. rewrite Hb. by case_match.
Qed.

#[refine] Definition recv_parking (cx : Waker) : Parking St := {|
  pk_ready := has_slot;
  pk_armed s := park_flag s = true;
  pk_arm s := exec (flag_store (fr_blocked r) true) s;
  pk_publish s s' := s' = exec (bytes_poll_recv (fr_bytes r) cx) s;
  pk_other := elsewhere;
  pk_local s s' := (∃ b, s' = exec (flag_store (fr_blocked r) b) s) ∨ elsewhere s s';
  pk_notify s := (park_flag s, exec (signal_resume r) s);
  pk_valid := flags_allocated;
|}.
Proof.
  - intros s. apply flag_store_allocated.
  - intros s s' -> Hs. assert (respects (same (@flags _ B)) (bytes_poll_recv (fr_bytes r) cx)) as Hm by store.
    unfold flags_allocated. by rewrite (Hm s).
  - by intros s s' [Ha _].
  - intros s s' [[b ->]|[Ha _]]; [apply flag_store_allocated | done].
  - intros s. apply signal_resume_allocated.
  - intros s. apply flag_store_park.
  - intros s s' -> Hs. assert (respects (same (@flags _ B)) (bytes_poll_recv (fr_bytes r) cx)) as Hm by store.
    unfold park_flag in *. by rewrite (Hm s).
  - intros s s' (_&Hp&_). congruence.
  - by intros s s' (_&_&?).
  - done.
  - intros s. apply has_slot_chans. pose proof (signal_resume_fields s) as Hs. by injection Hs.
Defined.


Lemma exec_flag_swap a b (s : St) : exec (flag_swap a b) s = s <| flags ::= <[a := b]> |>.
Proof. reflexivity. Qed.
Lemma result_flag_swap a b (s : St) : result (flag_swap a b) s = default false (flags s !! a).
Proof. reflexivity. Qed.

(** A signal that finds the park flag set brings a resume: it clears the
    flag, sets the coalescing bit, and appends one [RecvResume] for the stream
    unless the bit says that one is already on its way; a signal that finds the
    flag clear sends nothing. *)
Theorem signal_resume_exactly_one (s : St) :
  flags_allocated s →
  let s' := exec (signal_resume r) s in
  let pending := default false (flags s !! fr_resume r) in
  park_flag s' = false ∧
  (park_flag s = true → default false (flags s' !! fr_resume r) = true) ∧
  emits (if park_flag s && negb pending then [RecvResume (fr_id r)] else []) s s'.
Proof.
  intros ([x Hx]&[y Hy]&Hne) s' pending. unfold s', signal_resume, park_flag.
  rewrite exec_bind, exec_flag_swap, result_flag_swap. set (s1 := s <| flags ::= _ |>).
  assert (flags s1 !! fr_blocked r = Some false) as Hb1
    by (simpl; by rewrite list_lookup_insert_eq by by eapply lookup_lt_Some).
  assert (flags s1 !! fr_resume r = flags s !! fr_resume r) as Hr1 by (simpl; by rewrite list_lookup_insert_ne).
  assert (emits [] s s1) as He1 by by apply emits_same.
  assert (length (flags s1) = length (flags s)) as Hl1 by apply length_insert. clearbody s1.
  rewrite Hx. destruct x; simpl; [|by rewrite exec_skip, Hb1].
  rewrite exec_bind, exec_flag_swap, result_flag_swap, Hr1. fold pending.
  set (s2 := s1 <| flags ::= _ |>).
  assert (flags s2 !! fr_blocked r = Some false) as Hb2 by (simpl; rewrite list_lookup_insert_ne by done; exact Hb1).
  assert (flags s2 !! fr_resume r = Some true) as Hr2.
  { simpl. rewrite list_lookup_insert_eq; [done|]. rewrite Hl1. by eapply lookup_lt_Some. }
  assert (emits [] s s2) as He2 by (apply (emits_app [] [] s s1); [done | by apply emits_same]).
  clearbody s2. destruct pending; simpl.
  - rewrite exec_skip, Hb2, Hr2. done.
  - rewrite exec_bind, exec_skip.
    assert (respects (same (@flags _ B)) (cmd_send (RecvResume (fr_id r)))) as Hm by store.
    rewrite (Hm s2 : flags _ = _), Hb2, Hr2. split_and!; [done..|].
    exact (emits_app [] _ _ _ _ He2 (cmd_send_emits _ s2)).
Qed.
End handshake.

(** ** The accept queues

    The worker parks a peer stream whose accept queue is full.  The resume flag is
    the other way round: [false] means that the worker wants to hear.  Before it
    tries to promote, the worker clears the flag; the application, having taken a
    stream, sets it and sends a command if it was clear. *)

Section accept.
Context `{Runtime} {B : Type}.
Abbreviation St := (Store B).
Context (bidi : bool).

Definition accept_flag (s : St) : bool := if bidi then accept_bidi_resume s else accept_uni_resume s.
Definition accept_slot (s : St) : Prop :=
  if bidi then result accept_bidi_try_reserve s = Reserved else result accept_uni_try_reserve s = Reserved.
(** The worker's [store(false)] of [promote_parked]. *)
Definition accept_clear : ST St unit :=
  if bidi then modify (λ s, s <| accept_bidi_resume := false |>)
  else modify (λ s, s <| accept_uni_resume := false |>).
(** The application's receive, and its signal. *)
Definition accept_take (cx : Waker) : ST St unit :=
  if bidi then accept_bidi_poll cx;; skip else accept_uni_poll cx;; skip.
Definition accept_signal : ST St unit :=
  if bidi then signal_accept_bidi_resume else signal_accept_uni_resume.

(** These are the steps of the code: promotion clears, then tries; accepting
    takes, then signals. *)
Lemma promote_clears_first {C} `{!Buf B} `{!QuicConn C} :
  promote_parked (B := B) (C := C) bidi =
  (armed ← sget accept_flag;
   when armed (shared accept_clear;; budget_loop PROMOTE_BUDGET (promote_one bidi);; skip)).
Proof. unfold accept_flag, accept_clear. by destruct bidi. Qed.
Lemma accept_signals_after cx (s : St) :
  (∀ h, bidi = true → result (accept_bidi_poll cx) s = Ready (Some h) →
    exec (poll_accept_bidi cx) s = exec (bidi_from_handoff h) (exec accept_signal (exec (accept_take cx) s))) ∧
  (∀ h, bidi = false → result (accept_uni_poll cx) s = Ready (Some h) →
    exec (poll_accept_recv cx) s = exec (recv_from_handoff h) (exec accept_signal (exec (accept_take cx) s))).
Proof.
  unfold poll_accept_bidi, poll_accept_recv, accept_signal, accept_take.
  split; intros h -> Hr; rewrite !exec_bind, Hr, exec_skip, !exec_bind, exec_ret; done.
Qed.

Definition accept_elsewhere (s s' : St) : Prop :=
  accept_flag s' = accept_flag s ∧ (accept_slot s' → accept_slot s).

Lemma accept_signal_chans :
  respects (same (λ s : St, (accept_bidi_chan s, accept_uni_chan s))) accept_signal.
Proof. unfold accept_signal. destruct bidi; store. Qed.
Lemma accept_slot_chans (s s' : St) :
  accept_bidi_chan s' = accept_bidi_chan s → accept_uni_chan s' = accept_uni_chan s →
  accept_slot s' → accept_slot s.
Proof.
  intros Eb Eu. unfold accept_slot, accept_bidi_try_reserve, accept_uni_try_reserve, result. simpl.
  by rewrite Eb, Eu.
Qed.

#[refine] Definition accept_parking (cx : Waker) : Parking St := {|
  pk_ready := accept_slot;
  pk_armed s := accept_flag s = false;
  pk_arm s := exec accept_clear s;
  pk_publish s s' := s' = exec (accept_take cx) s;
  pk_other := accept_elsewhere;
  pk_local _ _ := True;
  pk_notify s := (negb (accept_flag s), exec accept_signal s);
  pk_valid _ := True;
|}.
Proof.
  all: try done.
  - intros s _. unfold accept_flag, accept_clear. by destruct bidi.
  - intros s s' ->. unfold accept_flag, accept_take. by destruct bidi.
  - intros s s' [Hf _]. congruence.
  - by intros s s' [_ ?].
  - intros s _ Ha. by rewrite Ha.
  - intros s. pose proof (accept_signal_chans s) as Hc. injection Hc as Eb Eu. by apply accept_slot_chans.
Defined.


(** A signal that finds the flag clear sets it and sends exactly the resume
    command of its class; one that finds it set sends nothing. *)
Lemma accept_signal_sends (s : St) :
  let s' := exec accept_signal s in
  accept_flag s' = true ∧
  emits (if accept_flag s then [] else [if bidi then AcceptBidiResume else AcceptUniResume]) s s'.
Proof.
  unfold accept_signal, accept_flag, signal_accept_bidi_resume, signal_accept_uni_resume.
  destruct bidi; rewrite !exec_bind, exec_gets, result_gets, exec_modify.
  - set (s1 := s <| accept_bidi_resume := true |>).
    assert (emits [] s s1) as He by by apply emits_same. destruct (accept_bidi_resume s); [done|].
    rewrite exec_bind, exec_skip. split; [|exact (emits_app [] _ _ _ _ He (cmd_send_emits _ s1))].
    assert (respects (same (@accept_bidi_resume _ B)) (cmd_send AcceptBidiResume)) as Hm by store. apply (Hm s1).
  - set (s1 := s <| accept_uni_resume := true |>).
    assert (emits [] s s1) as He by by apply emits_same. destruct (accept_uni_resume s); [done|].
    rewrite exec_bind, exec_skip. split; [|exact (emits_app [] _ _ _ _ He (cmd_send_emits _ s1))].
    assert (respects (same (@accept_uni_resume _ B)) (cmd_send AcceptUniResume)) as Hm by store. apply (Hm s1).
Qed.
End accept.

(** ** The same handshake behind a store buffer

    The worker's [blocked.store(true, Release)] followed by the channel's
    capacity load are accesses to two locations, and release/acquire ordering
    does not keep a later load behind an earlier store: the store may still be
    in the worker core's buffer when the load is served.  The machine below has
    that buffer; the consumer's operations are read-modify-writes, which act on
    memory directly. *)

Module Buffered.

Record Mem := mkMem {
  slots : nat;                    (* free slots of the byte channel *)
  blocked : bool;
  buffered : option bool;         (* the worker's store to [blocked], not yet visible *)
  parked : bool;
  resumed : bool;                 (* the consumer sent [RecvResume] *)
}.

Inductive Access := WorkerStore | WorkerRecheck | Drain | ConsumerPop | ConsumerSwap.

Definition access (a : Access) (m : Mem) : Mem :=
  match a with
  | WorkerStore => mkMem (slots m) (blocked m) (Some true) (parked m) (resumed m)
  | WorkerRecheck => mkMem (slots m) (blocked m) (buffered m) (slots m =? 0)%nat (resumed m)
  | Drain => mkMem (slots m) (default (blocked m) (buffered m)) None (parked m) (resumed m)
  | ConsumerPop => mkMem (S (slots m)) (blocked m) (buffered m) (parked m) (resumed m)
  | ConsumerSwap => mkMem (slots m) false (buffered m) (parked m) (resumed m || blocked m)
  end.

Definition run (l : list Access) (m : Mem) : Mem := foldl (flip access) m l.

(** The channel is full and nobody has published anything. *)
Definition full : Mem := mkMem 0 false None false false.

(** Program order, per thread, with the drain anywhere after the store. *)
Definition lost_order : list Access := [WorkerStore; WorkerRecheck; ConsumerPop; ConsumerSwap; Drain].

(** The worker sleeps, a slot is free, and no resume was sent. *)
Definition lost (m : Mem) : bool := parked m && negb (slots m =? 0)%nat && negb (resumed m).

Theorem store_buffer_loses_wakeup : lost (run lost_order full) = true.
Proof. reflexivity. Qed.

(** With the store made visible before the re-check, as a sequentially consistent
    store or a fence would, no order of the four accesses loses it. *)
Definition fenced_orders : list (list Access) :=
  let w := [WorkerStore; Drain; WorkerRecheck] in let c := [ConsumerPop; ConsumerSwap] in
  (fix shuffles (l1 : list Access) := fix inner (l2 : list Access) : list (list Access) :=
     match l1, l2 with
     | [], _ => [l2]
     | _, [] => [l1]
     | a :: l1', b :: l2' => (cons a <$> shuffles l1' l2) ++ (cons b <$> inner l2')
     end) w c.
Theorem fence_keeps_wakeup : forallb (λ l, negb (lost (run l full))) fenced_orders = true.
Proof. reflexivity. Qed.
End Buffered.
