(* ===== verification/Endpoint.v ===== *)
(** * The endpoint registry (endpoint.rs)

    One registry serves all acceptors of a [bind]: which connection workers are
    alive, whether the endpoint is closing, and with which frame.  A worker is
    the connection's [World]; the registry reaches it through the weak command
    sender.  Each locked section is one step, each notification another. *)

From S2P Require Import Prelude Interfaces Wakeup Error Buffer Conn DriverTypes DriverStore.

Section endpoint.
Context `{Runtime} `{!Notify} {B C : Type}.

Record EndpointState := mkEndpointState {
  conns : gmap N loc;             (* weak senders, by the address of the connection *)
  live : N;
  closing : bool;
  close_frame : option (N * Bytes);
  next_id : N;
}.

#[export] Instance EndpointState_eta : Eta EndpointState := λ r,
  mkEndpointState (conns r) (live r) (closing r) (close_frame r) (next_id r).
#[export] Instance set_conns : Setter conns.
Proof. derive_setter. Defined.
#[export] Instance set_live : Setter live.
Proof. derive_setter. Defined.
#[export] Instance set_closing : Setter closing.
Proof. derive_setter. Defined.
#[export] Instance set_close_frame : Setter close_frame.
Proof. derive_setter. Defined.
#[export] Instance set_next_id : Setter next_id.
Proof. derive_setter. Defined.

Definition endpoint_state_new : EndpointState := mkEndpointState ∅ 0 false None 0.

(** The registry, its two notifiers, and the connections it governs. *)
Record EndpointShared := mkEndpointShared {
  ep_state : EndpointState;
  ep_idle : notify;
  ep_accept_wake : notify;
  ep_conns : list (World B C);
}.

#[export] Instance EndpointShared_eta : Eta EndpointShared := λ r,
  mkEndpointShared (ep_state r) (ep_idle r) (ep_accept_wake r) (ep_conns r).
#[export] Instance set_ep_state : Setter ep_state.
Proof. derive_setter. Defined.
#[export] Instance set_ep_idle : Setter ep_idle.
Proof. derive_setter. Defined.
#[export] Instance set_ep_accept_wake : Setter ep_accept_wake.
Proof. derive_setter. Defined.
#[export] Instance set_ep_conns : Setter ep_conns.
Proof. derive_setter. Defined.

Definition endpoint_shared_new : EndpointShared :=
  mkEndpointShared endpoint_state_new nt_new nt_new [].

Definition is_closing (e : EndpointShared) : bool := closing (ep_state e).

(** ** Registration *)

Definition register (conn : loc) (st : EndpointState) : option N * EndpointState :=
  if closing st then (None, st)
  else
    let id := next_id st in
    (Some id,
     st <| next_id := u64_wrap (id + 1) |> <| conns ::= <[id := conn]> |> <| live ::= N.succ |>).

Definition try_register (conn : loc) : ST EndpointShared (option N) := λ e,
  let r := register conn (ep_state e) in (r.1, e <| ep_state := r.2 |>).

(** The locked part of [Drop for ConnRegistration]: did the endpoint become
    idle?  The subtraction saturates. *)
Definition deregister (id : N) (st : EndpointState) : bool * EndpointState :=
  let st := st <| conns ::= delete id |> <| live ::= N.pred |> in
  (live st =? 0, st).

Definition registration_drop (id : N) : ST EndpointShared unit :=
  became_idle ← (λ e, let r := deregister id (ep_state e) in (r.1, e <| ep_state := r.2 |>));
  when became_idle (modify (λ e, e <| ep_idle ::= nt_notify_waiters |>)).

(** ** Close *)

(** The locked part of [close]: the frame and the registered connections. *)
Definition begin_close (code : N) (reason : Bytes) (st : EndpointState)
    : (N * Bytes) * EndpointState :=
  let frame := default (code, reason) (close_frame st) in
  (frame, st <| closing := true |> <| close_frame := Some frame |>).

Definition cmd_at {A} (conn : loc) (dflt : A)
    (f : chan (DriverCommand B) → A * chan (DriverCommand B)) : ST EndpointShared A := λ e,
  match ep_conns e !! conn with
  | Some w =>
      let r := f (cmd_chan (sto w)) in
      (r.1, e <| ep_conns ::= <[conn := w <| sto ::= λ s, s <| cmd_chan := r.2 |> |>]> |>)
  | None => (dflt, e)
  end.

(** [w.upgrade()]: a strong sender, if the channel still has one. *)
Definition upgrade (conn : loc) : ST EndpointShared bool :=
  cmd_at conn false (λ c, match chan_upgrade c with Some c' => (true, c') | None => (false, c) end).
(** Send through a strong sender and drop it. *)
Definition send_close (frame : N * Bytes) (conn : loc) : ST EndpointShared unit :=
  cmd_at conn tt (λ c, (tt, chan_drop_tx (chan_send (Close frame.1 frame.2) c).2)).

Fixpoint upgrade_all (cs : list loc) : ST EndpointShared (list loc) :=
  match cs with
  | [] => mret []
  | conn :: cs =>
      ok ← upgrade conn;
      rest ← upgrade_all cs;
      mret (if ok : bool then conn :: rest else rest)
  end.

Definition close (code : N) (reason : Bytes) : ST EndpointShared unit :=
  frame ← (λ e, let r := begin_close code reason (ep_state e) in (r.1, e <| ep_state := r.2 |>));
  cs ← gets (λ e, (hash_iter (conns (ep_state e))).*2);
  recipients ← upgrade_all cs;
  modify (λ e, e <| ep_accept_wake ::= nt_notify_waiters |>);;
  for_each recipients (send_close frame).

(** ** Wait until idle *)

(** One round of [wait_idle] for waiter [i]: enable, then look at [live];
    [true]: return, [false]: await the notification. *)
Definition wait_idle_round (i : nat) : ST EndpointShared bool :=
  modify (λ e, e <| ep_idle ::= nt_enable i |>);;
  gets (λ e, live (ep_state e) =? 0).

Definition registry_snapshot (e : EndpointShared) : N * N :=
  (next_id (ep_state e), live (ep_state e)).
End endpoint.
Arguments EndpointShared {_ _} B C.

(** ** The registry is exact *)

Section registry.
Context `{Runtime} `{!Notify} {B C : Type}.
Abbreviation EP := (EndpointShared B C).

(** An endpoint with the registration guards alive and the number of
    registrations so far. *)
Record Registry := mkRegistry { rg_ep : EP; rg_guards : list N; rg_count : N }.

Inductive registry_step : relation Registry :=
| reg_ok e gs n conn id e' : try_register conn e = (Some id, e') →
    registry_step (mkRegistry e gs n) (mkRegistry e' (gs ++ [id]) (n + 1))
| reg_refused e gs n conn e' : try_register conn e = (None, e') →
    registry_step (mkRegistry e gs n) (mkRegistry e' gs n)
| reg_drop e gs1 id gs2 n :
    registry_step (mkRegistry e (gs1 ++ id :: gs2) n)
      (mkRegistry (exec (registration_drop id) e) (gs1 ++ gs2) n)
| reg_close e gs n code reason :
    registry_step (mkRegistry e gs n) (mkRegistry (exec (close code reason) e) gs n)
| reg_wait e gs n i :
    registry_step (mkRegistry e gs n) (mkRegistry (exec (wait_idle_round i) e) gs n)
(** the connections and the waiters do their own work *)
| reg_env e e' gs n : ep_state e' = ep_state e →
    registry_step (mkRegistry e gs n) (mkRegistry e' gs n).

Definition registry_reachable : Registry → Prop :=
  rtc registry_step (mkRegistry endpoint_shared_new [] 0).

Record registry_inv (s : Registry) : Prop := {
  ri_next : next_id (ep_state (rg_ep s)) = rg_count s;
  ri_dom : dom (conns (ep_state (rg_ep s))) = list_to_set (rg_guards s);
  ri_nodup : NoDup (rg_guards s);
  ri_below : ∀ id, id ∈ rg_guards s → id < rg_count s;
  ri_live : live (ep_state (rg_ep s)) = N.of_nat (length (rg_guards s));
  ri_frame : closing (ep_state (rg_ep s)) = bool_decide (is_Some (close_frame (ep_state (rg_ep s))));
}.

(** Reaching a connection changes only the connections. *)
Definition apart_from_conns {T} (g : EP → T) : Prop := ∀ e h, g (e <| ep_conns ::= h |>) = g e.

Lemma cmd_at_same {T A} (g : EP → T) conn (dflt : A) f :
  apart_from_conns g → respects (same g) (cmd_at conn dflt f).
Proof. intros Hg e. unfold cmd_at, same, exec. case_match; [apply Hg | done]. Qed.
Lemma upgrade_all_same {T} (g : EP → T) cs :
  apart_from_conns g → respects (same g) (upgrade_all cs).
Proof.
  intros Hg. induction cs as [|c cs IH]; simpl; [apply respects_ret, _|].
  apply respects_bind; [apply _|by apply cmd_at_same|intros ok].
  apply respects_bind; [apply _|done|intros rest]. apply respects_ret, _.
Qed.
Lemma send_close_same {T} (g : EP → T) frame cs :
  apart_from_conns g → respects (same g) (for_each cs (send_close frame)).
Proof. intros Hg. apply respects_for_each; [apply _|]. intros conn. by apply cmd_at_same. Qed.

Lemma close_state code reason (e : EP) :
  ep_state (exec (close code reason) e) = (begin_close code reason (ep_state e)).2.
Proof.
  unfold close. rewrite !exec_bind, exec_gets, result_gets.
  etrans; [by apply (send_close_same (@ep_state _ _ B C))|]. rewrite exec_modify.
  etrans; [by apply (upgrade_all_same (@ep_state _ _ B C))|]. done.
Qed.
Lemma registration_drop_state id (e : EP) :
  ep_state (exec (registration_drop id) e) = (deregister id (ep_state e)).2.
Proof. unfold registration_drop. rewrite exec_bind. by destruct (result _ e). Qed.

Lemma registry_step_inv s s' :
  registry_step s s' → rg_count s' < 2 ^ 64 → registry_inv s → registry_inv s'.
Proof.
  intros Hstep Hn [Hnx Hd Hnd Hb Hl Hf]. destruct Hstep as
    [e gs n conn id e' Hr|e gs n conn e' Hr|e gs1 id gs2 n|e gs n code reason|e gs n i|e e' gs n He]; simpl in *.
  - unfold try_register, register in Hr. destruct (closing (ep_state e)) eqn:Hc; simplify_eq/=.
    split; simpl.
    + unfold u64_wrap. by rewrite N.mod_small.
    + rewrite dom_insert_L, Hd, list_to_set_app_L. set_solver.
    + apply NoDup_app. split_and!; [done| |apply NoDup_singleton].
      intros x Hx ->%list_elem_of_singleton. specialize (Hb _ Hx). lia.
    + intros x [Hx| ->%list_elem_of_singleton]%elem_of_app; [specialize (Hb _ Hx)|]; lia.
    + rewrite length_app, Hl. simpl. lia.
    + by rewrite <-Hf, Hc.
  - unfold try_register, register in Hr. destruct (closing (ep_state e)) eqn:Hc; simplify_eq/=.
    by split; simpl; rewrite ?Hc.
  - split; cbn [rg_ep rg_guards rg_count]; rewrite ?registration_drop_state; simpl; try done.
    + apply NoDup_app in Hnd as (?&Hx&Hy). apply NoDup_cons in Hy as [Hy _].
      rewrite dom_delete_L, Hd. apply set_eq. intros x. rewrite elem_of_difference, !elem_of_list_to_set.
      rewrite !elem_of_app, elem_of_cons, elem_of_singleton.
      split; [by intros [[?|[->|?]] ?]; auto|].
      intros [Hg|Hg]; (split; [auto|]); intros ->; [|done]. apply (Hx id Hg). by left.
    + apply (sublist_NoDup (gs1 ++ gs2) (gs1 ++ id :: gs2)); [done|]. apply sublist_app; [done|]. by constructor.
    + intros x Hx. apply Hb. set_solver.
    + rewrite Hl, !length_app. simpl. lia.
  - by split; cbn [rg_ep rg_guards rg_count]; rewrite ?close_state.
  - by split.
  - split; simpl; rewrite ?He; done.
Qed.

(** C32.  The registry counts the workers alive exactly: after any sequence of
    registrations (fewer than 2^64), guard drops, closes and waits, the entries
    are those of the live registration guards and [live] is their number, so
    [wait_idle] returns only when every registered worker has ended. *)
Theorem registry_exact s :
  registry_reachable s → rg_count s < 2 ^ 64 →
  dom (conns (ep_state (rg_ep s))) = list_to_set (rg_guards s) ∧
  live (ep_state (rg_ep s)) = N.of_nat (length (rg_guards s)) ∧
  (∀ i, result (wait_idle_round i) (rg_ep s) = true ↔ rg_guards s = []).
Proof.
  intros Hr Hn. assert (registry_inv s) as [_ Hd Hnd Hb Hl _].
  { revert Hr Hn. apply (rtc_ind_r (λ s, rg_count s < 2 ^ 64 → registry_inv s)).
    - intros _. split; simpl; try done; [constructor | set_solver].
    - intros s1 s2 _ Hs IH Hn. apply (registry_step_inv s1); [done..|]. apply IH.
      destruct Hs; simpl in *; lia. }
  split_and!; [done..|]. intros i. unfold wait_idle_round. rewrite result_bind, result_gets. simpl.
  rewrite N.eqb_eq, Hl. destruct (rg_guards s); simpl; (split; [done || lia | done]).
Qed.

(** C34.  Closing is a fence: from a closing endpoint no sequence of steps admits
    a worker, revokes the closing state or changes the frame; entries only
    leave. *)
Theorem admission_fence s s' :
  closing (ep_state (rg_ep s)) = true →
  rtc registry_step s s' →
  let st := ep_state (rg_ep s) in let st' := ep_state (rg_ep s') in
  closing st' = true ∧ next_id st' = next_id st ∧ conns st' ⊆ conns st ∧
  (∀ f, close_frame st = Some f → close_frame st' = Some f).
Proof.
  intros Hc Hr. induction Hr as [s|s1 s2 s3 Hs _ IH]; [done|].
  assert (let st := ep_state (rg_ep s1) in let st' := ep_state (rg_ep s2) in
    closing st' = true ∧ next_id st' = next_id st ∧ conns st' ⊆ conns st ∧
    (∀ f, close_frame st = Some f → close_frame st' = Some f)) as (Hc2&Hn2&Hs2&Hf2).
  { destruct Hs as [| | | | |e e' gs n He]; cbn [rg_ep] in *; rewrite ?registration_drop_state, ?close_state; simpl.
    - unfold try_register, register in *. by rewrite Hc in *.
    - unfold try_register, register in *. rewrite Hc in *. by simplify_eq/=.
    - split_and!; try done. apply delete_subseteq.
    - split_and!; try done. by intros f ->.
    - done.
    - by rewrite He. }
  destruct (IH Hc2) as (?&?&?&?). split_and!; [done|congruence|by etrans|auto].
Qed.
End registry.

(** ** The close broadcast *)

Section broadcast.
Context `{Runtime} `{!Notify} {B C : Type}.
Abbreviation EP := (EndpointShared B C).

(** The command channel of the connection at address [a]. *)
Definition cmd_view (e : EP) (a : loc) : option (ChanState (DriverCommand B)) :=
  (λ w, chan_view (cmd_chan (sto w))) <$> ep_conns e !! a.

Lemma cmd_at_view {A} conn (dflt : A) f g (e : EP) a :
  (∀ c, chan_view (f c).2 = g (chan_view c)) →
  cmd_view (exec (cmd_at conn dflt f) e) a =
  if decide (conn = a) then g <$> cmd_view e a else cmd_view e a.
Proof.
  intros Hf. unfold cmd_view, cmd_at, exec. destruct (ep_conns e !! conn) as [w|] eqn:Hw; simpl.
  - case_decide as Ha; [subst a|by rewrite list_lookup_insert_ne].
    rewrite list_lookup_insert_eq, Hw by by eapply lookup_lt_Some. simpl. by rewrite Hf.
  - case_decide as Ha; [subst a|done]. by rewrite Hw.
Qed.

Definition strong (v : ChanState (DriverCommand B)) : bool := negb (cs_senders v =? 0)%nat.
Definition upgrade_view (v : ChanState (DriverCommand B)) : ChanState (DriverCommand B) :=
  if strong v then v <| cs_senders ::= S |> else v.
Definition close_view (frame : N * Bytes) (v : ChanState (DriverCommand B)) : ChanState (DriverCommand B) :=
  (if cs_rx_open v then v <| cs_queue ::= λ q, q ++ [Close frame.1 frame.2] |> else v)
    <| cs_senders ::= pred |>.

Lemma upgrade_view_at conn (e : EP) a :
  cmd_view (exec (upgrade conn) e) a =
  if decide (conn = a) then upgrade_view <$> cmd_view e a else cmd_view e a.
Proof.
  apply cmd_at_view. intros c. pose proof (chan_upgrade_view _ c) as Hu.
  unfold upgrade_view, strong. destruct (chan_upgrade c); simpl in *;
    destruct (cs_senders (chan_view c) =? 0)%nat; simpl; naive_solver.
Qed.
Lemma upgrade_result conn (e : EP) :
  result (upgrade conn) e = from_option strong false (cmd_view e conn).
Proof.
  unfold upgrade, cmd_at, cmd_view, result. destruct (ep_conns e !! conn) as [w|]; simpl; [|done].
  pose proof (chan_upgrade_view _ (cmd_chan (sto w))) as Hu. unfold strong.
  destruct (chan_upgrade (cmd_chan (sto w))); simpl in *;
    destruct (cs_senders (chan_view (cmd_chan (sto w))) =? 0)%nat; simpl; naive_solver.
Qed.

Lemma upgrade_strong conn (e : EP) a :
  from_option strong false (cmd_view (exec (upgrade conn) e) a) = from_option strong false (cmd_view e a).
Proof.
  rewrite upgrade_view_at. case_decide; [|done]. destruct (cmd_view e a) as [v|]; [|done]. simpl.
  unfold upgrade_view. destruct (strong v) eqn:Hs; [|done]. unfold strong in *. simpl. done.
Qed.

(** Upgrading distinct connections picks those with a strong sender left. *)
Lemma upgrade_all_spec cs (e : EP) :
  NoDup cs →
  result (upgrade_all cs) e = filter (λ a, from_option strong false (cmd_view e a) = true) cs ∧
  ∀ a, cmd_view (exec (upgrade_all cs) e) a =
       if decide (a ∈ cs) then upgrade_view <$> cmd_view e a else cmd_view e a.
Proof.
  revert e. induction cs as [|c cs IH]; intros e Hnd; [done|].
  apply NoDup_cons in Hnd as [Hc Hnd]. simpl. rewrite result_bind, exec_bind, upgrade_result.
  rewrite result_bind, exec_bind, exec_ret, result_ret.
  destruct (IH (exec (upgrade c) e) Hnd) as [Hr Hv]. split.
  - rewrite filter_cons, Hr. assert (filter (λ a, from_option strong false (cmd_view (exec (upgrade c) e) a) = true) cs
      = filter (λ a, from_option strong false (cmd_view e a) = true) cs) as ->.
    { apply list_filter_iff. intros a. by rewrite upgrade_strong. }
    destruct (from_option strong false (cmd_view e c)); [by rewrite decide_True | by rewrite decide_False].
  - intros a. rewrite Hv, upgrade_view_at. destruct (decide (c = a)) as [->|].
    + rewrite decide_False by done. rewrite decide_True by by left. done.
    + destruct (decide (a ∈ cs)); [rewrite decide_True by by right | rewrite decide_False by set_solver]; done.
Qed.

Lemma send_close_all frame cs (e : EP) a :
  NoDup cs →
  cmd_view (exec (for_each cs (send_close frame)) e) a =
  if decide (a ∈ cs) then close_view frame <$> cmd_view e a else cmd_view e a.
Proof.
  revert e. induction cs as [|c cs IH]; intros e Hnd; [done|].
  apply NoDup_cons in Hnd as [Hc Hnd]. simpl. rewrite exec_bind, IH by done.
  assert (∀ a, cmd_view (exec (send_close frame c) e) a =
    if decide (c = a) then close_view frame <$> cmd_view e a else cmd_view e a) as Hv.
  { intros a'. apply cmd_at_view. intros ch. simpl. rewrite chan_drop_tx_view, chan_send_view.
    unfold close_view. by destruct (cs_rx_open (chan_view ch)). }
  rewrite Hv. destruct (decide (c = a)) as [->|].
  - rewrite decide_False by done. by rewrite decide_True by by left.
  - destruct (decide (a ∈ cs)); [rewrite decide_True by by right | rewrite decide_False by set_solver]; done.
Qed.

(** What [close] does to a registered connection: with a strong sender left and
    its channel open, exactly one [Close] is appended; nothing else changes. *)
Definition told (frame : N * Bytes) (v : ChanState (DriverCommand B)) : ChanState (DriverCommand B) :=
  if strong v && cs_rx_open v then v <| cs_queue ::= λ q, q ++ [Close frame.1 frame.2] |> else v.

Lemma told_views frame v :
  (if strong v then close_view frame (upgrade_view v) else upgrade_view v) = told frame v.
Proof.
  unfold told, upgrade_view, close_view. destruct v as [q cap r o n]. destruct (strong _); simpl; [|done].
  by destruct o.
Qed.

(** The addresses of the registered connections. *)
Definition registered_conns (st : EndpointState) : list loc := (map_to_list (conns st)).*2.

(** C33.  [close] reaches every registered worker once, with the first frame:
    each registered connection whose command channel is still alive and open gets
    exactly one [Close] appended, carrying the code and reason of the first close
    ever; every other channel is left as it was, and acceptors are notified. *)
Theorem close_broadcast code reason (e : EP) :
  NoDup (registered_conns (ep_state e)) →
  let e' := exec (close code reason) e in
  let frame := default (code, reason) (close_frame (ep_state e)) in
  close_frame (ep_state e') = Some frame ∧ closing (ep_state e') = true ∧
  ep_accept_wake e' = nt_notify_waiters (ep_accept_wake e) ∧
  ∀ a, cmd_view e' a =
       if decide (a ∈ registered_conns (ep_state e)) then told frame <$> cmd_view e a
       else cmd_view e a.
Proof.
  intros Hnd e' frame. unfold e', close. rewrite !exec_bind, exec_gets, result_gets.
  set (e1 := exec (λ e, let r := begin_close code reason (ep_state e) in _) e).
  change (ep_state e1) with (begin_close code reason (ep_state e)).2.
  set (cs := (hash_iter (conns (begin_close code reason (ep_state e)).2)).*2).
  assert (NoDup cs) as Hcs by (unfold cs; by rewrite hash_iter_perm).
  assert (∀ a, a ∈ cs ↔ a ∈ registered_conns (ep_state e)) as Hin.
  { intros a. unfold cs, registered_conns. by rewrite hash_iter_perm. }
  clearbody cs. destruct (upgrade_all_spec cs e1 Hcs) as [Hr Hv].
  change (result _ e) with frame. rewrite Hr, exec_modify.
  assert (ep_state (exec (upgrade_all cs) e1) = ep_state e1) as Hs2 by by apply upgrade_all_same.
  assert (ep_accept_wake (exec (upgrade_all cs) e1) = ep_accept_wake e1) as Hw2
    by by apply upgrade_all_same.
  set (e2 := exec (upgrade_all cs) e1) in *. clearbody e2.
  set (rs := filter _ cs). assert (NoDup rs) as Hrs by by apply NoDup_filter.
  set (e3 := e2 <| ep_accept_wake ::= _ |>).
  assert (ep_state (exec (for_each rs (send_close frame)) e3) = ep_state e3) as ->
    by by apply send_close_same.
  assert (ep_accept_wake (exec (for_each rs (send_close frame)) e3) = ep_accept_wake e3) as ->
    by by apply send_close_same.
  split_and!.
  - change (ep_state e3) with (ep_state e2). by rewrite Hs2.
  - change (ep_state e3) with (ep_state e2). by rewrite Hs2.
  - change (ep_accept_wake e3) with (nt_notify_waiters (ep_accept_wake e2)). by rewrite Hw2.
  - intros a. rewrite send_close_all by done. change (cmd_view e3 a) with (cmd_view e2 a).
    rewrite Hv. unfold rs. change (cmd_view e1) with (cmd_view e).
    destruct (decide (a ∈ registered_conns _)) as [Hx%Hin|Hx].
    + rewrite (decide_True (P := a ∈ cs)) by done.
      destruct (cmd_view e a) as [v|] eqn:Hva; simpl; [|by case_decide].
      rewrite <-told_views. destruct (strong v) eqn:Hst.
      * rewrite decide_True; [done|]. apply list_elem_of_filter. by rewrite Hva.
      * rewrite decide_False; [done|]. rewrite list_elem_of_filter. intros [Ht _].
        rewrite Hva in Ht. simpl in Ht. congruence.
    + rewrite (decide_False (P := a ∈ cs)) by by rewrite Hin.
      rewrite decide_False; [done|]. rewrite list_elem_of_filter, Hin. by intros [_ ?].
Qed.
End broadcast.

(** ** Waiting for idle *)

Section idle.
Context `{Runtime} `{!Notify} {B C : Type}.
Abbreviation EP := (EndpointShared B C).

(** Everything but a drop that leaves the endpoint idle, for waiter [i]. *)
Inductive idle_other (i : nat) : relation EP :=
| idle_register e conn : idle_other i e (exec (try_register conn) e)
| idle_deregister e id st : deregister id (ep_state e) = (false, st) →
    idle_other i e (e <| ep_state := st |>)
| idle_close e code reason : idle_other i e (exec (close code reason) e)
| idle_waiter e j : j ≠ i → idle_other i e (exec (wait_idle_round j) e)
| idle_leave e j : j ≠ i → idle_other i e (e <| ep_idle ::= nt_drop j |>)
| idle_conns e ws : idle_other i e (e <| ep_conns := ws |>).

Lemma close_idle code reason (e : EP) : ep_idle (exec (close code reason) e) = ep_idle e.
Proof.
  unfold close. rewrite !exec_bind, exec_gets, result_gets.
  etrans; [by apply (send_close_same (@ep_idle _ _ B C))|]. rewrite exec_modify.
  etrans; [by apply (upgrade_all_same (@ep_idle _ _ B C))|]. done.
Qed.

Lemma idle_other_fields i e e' :
  idle_other i e e' →
  (i ∈ nt_waiting (ep_idle e) → i ∈ nt_waiting (ep_idle e')) ∧
  (live (ep_state e') = 0 → live (ep_state e) = 0).
Proof.
  intros [e1 conn|e1 id st Hd|e1 code reason|e1 j Hj|e1 j Hj|e1 ws].
  - split; [done|]. unfold try_register, register, exec. simpl. case_match; simpl; [done|]. lia.
  - split; [done|]. simpl. unfold deregister in Hd. simplify_eq. simpl.
    match goal with H : (_ =? 0) = false |- _ => apply N.eqb_neq in H end. simpl in *. lia.
  - by rewrite close_idle, close_state.
  - unfold wait_idle_round. rewrite exec_bind, exec_modify, exec_gets. simpl.
    rewrite nt_enable_waiting. split; [set_solver | done].
  - simpl. rewrite nt_drop_waiting. split; [set_solver | done].
  - done.
Qed.

#[refine] Definition idle_parking (i : nat) : Parking EP := {|
  pk_ready e := live (ep_state e) = 0;
  pk_armed e := i ∈ nt_waiting (ep_idle e);
  pk_arm := exec (wait_idle_round i);
  pk_publish e e' := ∃ id st, deregister id (ep_state e) = (true, st) ∧ e' = e <| ep_state := st |>;
  pk_other := idle_other i;
  pk_local e e' := e' = e <| ep_idle ::= nt_drop i |>;
  pk_notify e := let e' := e <| ep_idle ::= nt_notify_waiters |> in (nt_poll i (ep_idle e'), e');
  pk_valid _ := True;
|}.
Proof.
  1-5: done.
  - intros e _. unfold wait_idle_round. rewrite exec_bind, exec_modify, exec_gets. simpl.
    rewrite nt_enable_waiting. set_solver.
  - by intros e e' (id&st&_&->).
  - intros e e' Ho. apply (idle_other_fields i e e' Ho).
  - intros e e' Ho. apply (idle_other_fields i e e' Ho).
  - intros e _ Hi. simpl. rewrite nt_poll_res, nt_notify_notified. apply bool_decide_eq_true. set_solver.
  - done.
Defined.

End idle.
