(* ===== verification/Setup.v ===== *)
(** * Configuration and validation (lib.rs, and what listener.rs and connector.rs
    validate before any connection exists)

    The operating system's files and sockets and tokio-quiche's entry points are
    parameters; what the bridge decides from their answers is modelled. *)

From S2P Require Import Prelude Interfaces Buffer DriverTypes.

(** ** The surroundings *)

(** [std::fs]: [metadata(path)?.is_file()] and [File::open]. *)
Class FileSystem := {
  fs_is_file : string → Result bool string;
  fs_open : string → Result unit string;
}.

(** The parts of tokio-quiche that set a connection up: settings, hooks and
    connection parameters are opaque but for the fields the bridge reads or
    writes. *)
Class TokioQuiche := {
  QuicSettings : Type;
  settings_alpn : QuicSettings → list Bytes;
  settings_set_verify_peer : bool → QuicSettings → QuicSettings;
  settings_default : QuicSettings;
  Hooks : Type;
  hooks_default : Hooks;
  ConnectionParams : Type;
  new_server : QuicSettings → string * string → Hooks → ConnectionParams;
  new_client : QuicSettings → option (string * string) → Hooks → ConnectionParams;
  UdpSocket : Type;
  QuicConnectionStream : Type;
  listen : list UdpSocket → ConnectionParams → Result (list QuicConnectionStream) string;
}.

(** Why setting up failed; the messages of the source, by case. *)
Inductive SetupError :=
| NotAccessible (label path err : string)
| NotRegularFile (label path : string)
| NotReadable (label path err : string)
| EmptyAlpn (label : string)
| NoSockets
| CertWithoutKey
| KeyWithoutCert
| ListenFailed (err : string)
| SocketFailed (err : string)
| HandshakeFailed (err : string)
| SetupFailed (e : SetupFailure).

Section validation.
Context `{FileSystem} `{!TokioQuiche}.

Definition ensure_readable_file (path label : string) : Result unit SetupError :=
  match fs_is_file path with
  | Err e => Err (NotAccessible label path e)
  | Ok false => Err (NotRegularFile label path)
  | Ok true => map_err (NotReadable label path) (fs_open path)
  end.

Definition ensure_nonempty_alpn (settings : QuicSettings) (label : string) : Result unit SetupError :=
  match settings_alpn settings with
  | [] => Err (EmptyAlpn label)
  | _ => Ok tt
  end.

(** What a file must be for validation to pass. *)
Definition readable_file (path : string) : Prop := fs_is_file path = Ok true ∧ fs_open path = Ok tt.

Lemma ensure_readable_file_ok path label :
  ensure_readable_file path label = Ok tt ↔ readable_file path.
Proof.
  unfold ensure_readable_file, readable_file.
  destruct (fs_is_file path) as [[]|]; [|naive_solver..].
  destruct (fs_open path) as [[]|]; naive_solver.
Qed.
Lemma ensure_nonempty_alpn_ok settings label :
  ensure_nonempty_alpn settings label = Ok tt ↔ settings_alpn settings ≠ [].
Proof. unfold ensure_nonempty_alpn. destruct (settings_alpn settings); naive_solver. Qed.
End validation.
