(* ===== verification/Listener.v ===== *)
(** * The acceptor (listener.rs)

    [bind] and the accept loop.  One iteration of [accept] is two steps: the top
    of the loop, which enables the wake-up waiter and reads [closing], and the
    arm [select!] takes, which may run after other tasks have changed the
    endpoint.  Which arm is ready is the environment's choice, within the
    guards. *)

From S2P Require Import Prelude Interfaces Wakeup Error Buffer Conn DriverTypes DriverStore Driver Stream Endpoint Setup.

Definition DEFAULT_MAX_IN_FLIGHT_HANDSHAKES : N := 256.
Definition DEFAULT_ACCEPT_BIDI_CAP : N := 128.
Definition DEFAULT_ACCEPT_UNI_CAP : N := 128.

Section bind.
Context `{FileSystem} `{!TokioQuiche}.

Record H3QuicheServerConfig := mkServerConfig {
  sc_cert_path : string;
  sc_key_path : string;
  sc_settings : QuicSettings;
  sc_hooks : Hooks;
  sc_accept_bidi_cap : N;
  sc_accept_uni_cap : N;
  sc_max_in_flight_handshakes : N;          (* a [NonZeroUsize] *)
  sc_recv_channel_depth : N;
  sc_max_buffered_send_bytes : option N;
}.

Definition server_config_default : H3QuicheServerConfig :=
  mkServerConfig EmptyString EmptyString settings_default hooks_default
    DEFAULT_ACCEPT_BIDI_CAP DEFAULT_ACCEPT_UNI_CAP DEFAULT_MAX_IN_FLIGHT_HANDSHAKES
    BYTE_CHANNEL_DEPTH None.

(** An acceptor; [ac_handshakes] are the in-flight handshakes, by the address of
    their connection. *)
Record H3QuicheAcceptor := mkAcceptor {
  ac_stream : QuicConnectionStream;
  ac_handshakes : list loc;
  ac_max_in_flight_handshakes : N;
  ac_accept_bidi_cap : N;
  ac_accept_uni_cap : N;
  ac_buffers : DriverBufferConfig;
  ac_incoming_done : bool;
}.

#[export] Instance H3QuicheAcceptor_eta : Eta H3QuicheAcceptor := λ r,
  mkAcceptor (ac_stream r) (ac_handshakes r) (ac_max_in_flight_handshakes r) (ac_accept_bidi_cap r)
    (ac_accept_uni_cap r) (ac_buffers r) (ac_incoming_done r).
#[export] Instance set_ac_handshakes : Setter ac_handshakes.
Proof. derive_setter. Defined.
#[export] Instance set_ac_incoming_done : Setter ac_incoming_done.
Proof. derive_setter. Defined.

Definition acceptor_of (config : H3QuicheServerConfig) (stream : QuicConnectionStream) : H3QuicheAcceptor :=
  mkAcceptor stream [] (sc_max_in_flight_handshakes config) (sc_accept_bidi_cap config)
    (sc_accept_uni_cap config)
    (mkDriverBufferConfig (sc_recv_channel_depth config) (sc_max_buffered_send_bytes config)) false.

(** [bind]: the acceptors, which share one fresh endpoint. *)
Definition bind (sockets : list UdpSocket) (config : H3QuicheServerConfig)
    : Result (list H3QuicheAcceptor) SetupError :=
  match sockets with
  | [] => Err NoSockets
  | _ =>
      match ensure_readable_file (sc_cert_path config) "TLS certificate" with
      | Err e => Err e
      | Ok _ =>
      match ensure_readable_file (sc_key_path config) "TLS private key" with
      | Err e => Err e
      | Ok _ =>
      match ensure_nonempty_alpn (sc_settings config) "server config" with
      | Err e => Err e
      | Ok _ =>
          let params := new_server (sc_settings config) (sc_cert_path config, sc_key_path config)
                          (sc_hooks config) in
          match listen sockets params with
          | Err e => Err (ListenFailed e)
          | Ok streams => Ok (acceptor_of config <$> streams)
          end
      end end end
  end.

(** [bind] validates before it listens: it succeeds exactly when there is a
    socket, both TLS files are readable regular files, the ALPN list is not empty
    and tokio-quiche accepts the sockets, and then yields one acceptor per
    stream, empty, with the configured caps. *)
Theorem bind_ok sockets config accs :
  bind sockets config = Ok accs ↔
  sockets ≠ [] ∧ readable_file (sc_cert_path config) ∧ readable_file (sc_key_path config) ∧
  settings_alpn (sc_settings config) ≠ [] ∧
  ∃ streams, listen sockets (new_server (sc_settings config)
      (sc_cert_path config, sc_key_path config) (sc_hooks config)) = Ok streams ∧
    accs = acceptor_of config <$> streams.
Proof.
  rewrite <-(ensure_readable_file_ok _ "TLS certificate"), <-(ensure_readable_file_ok _ "TLS private key"),
    <-(ensure_nonempty_alpn_ok _ "server config"). unfold bind.
  destruct sockets; [naive_solver|].
  destruct (ensure_readable_file _ "TLS certificate") as [[]|]; [|naive_solver].
  destruct (ensure_readable_file _ "TLS private key") as [[]|]; [|naive_solver].
  destruct (ensure_nonempty_alpn _ _) as [[]|]; [|naive_solver].
  destruct (listen _ _); naive_solver.
Qed.
End bind.

(** ** The accept loop *)

Section accept.
Context `{Runtime} `{!Notify} `{!TokioQuiche} {B C : Type}.

Record Listening := mkListening { acc : H3QuicheAcceptor; ep : EndpointShared B C }.

#[export] Instance Listening_eta : Eta Listening := λ r, mkListening (acc r) (ep r).
#[export] Instance set_acc : Setter acc.
Proof. derive_setter. Defined.
#[export] Instance set_ep : Setter ep.
Proof. derive_setter. Defined.

(** What the top of the loop read. *)
Record Snapshot := mkSnapshot { sn_closing : bool; sn_admission_done : bool }.

(** The top of the loop, for waiter [i]: [None] ends the stream. *)
Definition accept_top (i : nat) : ST Listening (option Snapshot) :=
  modify (λ l, l <| ep ::= λ e, e <| ep_accept_wake ::= nt_enable i |> |>);;
  cl ← gets (λ l, is_closing (ep l));
  done ← gets (λ l, ac_incoming_done (acc l));
  hs ← gets (λ l, ac_handshakes (acc l));
  let admission_done := done || cl in
  mret (match hs with
        | [] => if admission_done then None else Some (mkSnapshot cl admission_done)
        | _ => Some (mkSnapshot cl admission_done)
        end).

(** A store operation of the connection at an address. *)
Definition on_conn {A} (conn : loc) (dflt : A) (m : ST (Store B) A) : ST Listening A := λ l,
  match ep_conns (ep l) !! conn with
  | Some w =>
      let r := m (sto w) in
      (r.1, l <| ep ::= λ e, e <| ep_conns ::= <[conn := w <| sto := r.2 |>]> |> |>)
  | None => (dflt, l)
  end.

Inductive AcceptEvent :=
| Woken
| HandshakeDone (conn : loc)
| Incoming (item : option (Result C string)).

Inductive AcceptOutcome :=
| Continue
| Yield (conn : loc) (opener : StreamOpener).

(** The connection's establishment signal has come. *)
Definition handshake_ready (cx : Waker) (conn : loc) (l : Listening) : bool :=
  match ep_conns (ep l) !! conn with
  | Some w => match result (into_established_connection cx) (sto w) with Ready _ => true | Pending => false end
  | None => false
  end.

(** The arm's future is ready and its guard holds. *)
Definition arm_enabled (i : nat) (cx : Waker) (sn : Snapshot) (ev : AcceptEvent) (l : Listening) : bool :=
  match ev with
  | Woken => negb (sn_closing sn) && nt_poll i (ep_accept_wake (ep l))
  | HandshakeDone conn =>
      bool_decide (conn ∈ ac_handshakes (acc l)) && handshake_ready cx conn l
  | Incoming _ =>
      negb (sn_admission_done sn) &&
      (N.of_nat (length (ac_handshakes (acc l))) <? ac_max_in_flight_handshakes (acc l))
  end.

(** A handshake finished: its connection is yielded, unless the endpoint is
    closing by now. *)
Definition handshake_done (cx : Waker) (sn : Snapshot) (conn : loc) : ST Listening AcceptOutcome :=
  modify (λ l, l <| acc ::= λ a, a <| ac_handshakes ::= filter (λ c, c ≠ conn) |> |>);;
  r ← on_conn conn Pending (into_established_connection cx);
  match r with
  | Ready (Ok opener) =>
      cl ← gets (λ l, is_closing (ep l));
      if sn_closing sn || cl then on_conn conn tt (connection_drop opener);; mret Continue
      else mret (Yield conn opener)
  | _ => mret Continue
  end.

(** A new connection: build its driver, register it, start its worker.  A
    refused one is dropped whole, before anything shares it. *)
Definition incoming (item : option (Result C string)) : ST Listening AcceptOutcome :=
  match item with
  | None =>
      modify (λ l, l <| acc ::= λ a, a <| ac_incoming_done := true |> |>);; mret Continue
  | Some (Err _) => mret Continue
  | Some (Ok c) =>
      a ← gets acc;
      conn ← gets (λ l, length (ep_conns (ep l)));
      let w := with_buffers true (ac_accept_bidi_cap a) (ac_accept_uni_cap a) (ac_buffers a) c in
      reg ← (λ l, let r := try_register conn (ep l) in (r.1, l <| ep := r.2 |>));
      match reg with
      | None => mret Continue
      | Some id =>
          let w := exec (set_registration id) w in
          modify (λ l, l <| ep ::= λ e, e <| ep_conns ::= λ ws, ws ++ [w] |> |>);;
          modify (λ l, l <| acc ::= λ a, a <| ac_handshakes ::= λ hs, hs ++ [conn] |> |>);;
          mret Continue
      end
  end.

(** The arm, and the end of the iteration, which drops the waiter. *)
Definition accept_arm (i : nat) (cx : Waker) (sn : Snapshot) (ev : AcceptEvent)
    : ST Listening AcceptOutcome :=
  out ← match ev with
        | Woken => mret Continue
        | HandshakeDone conn => handshake_done cx sn conn
        | Incoming item => incoming item
        end;
  modify (λ l, l <| ep ::= λ e, e <| ep_accept_wake ::= nt_drop i |> |>);;
  mret out.

(** ** Runs of the loop *)

Inductive AcceptPc := AtTop | Selecting (sn : Snapshot) | Ended.

(** An acceptor with its position in the loop and the connections yielded. *)
Record AcceptRun := mkAcceptRun { ar_state : Listening; ar_pc : AcceptPc; ar_yielded : list loc }.

Definition yielded_by (out : AcceptOutcome) : list loc :=
  match out with Continue => [] | Yield conn _ => [conn] end.

Inductive accept_step (i : nat) (cx : Waker) : relation AcceptRun :=
| accept_step_top l ys :
    accept_step i cx (mkAcceptRun l AtTop ys)
      (mkAcceptRun (exec (accept_top i) l)
         (match result (accept_top i) l with None => Ended | Some sn => Selecting sn end) ys)
| accept_step_arm l sn ev ys : arm_enabled i cx sn ev l = true →
    accept_step i cx (mkAcceptRun l (Selecting sn) ys)
      (mkAcceptRun (exec (accept_arm i cx sn ev) l) AtTop
         (ys ++ yielded_by (result (accept_arm i cx sn ev) l)))
(** workers, other acceptors and endpoint handles; connections are only added *)
| accept_step_env l e pc ys : (length (ep_conns (ep l)) ≤ length (ep_conns e))%nat →
    accept_step i cx (mkAcceptRun l pc ys) (mkAcceptRun (l <| ep := e |>) pc ys).

Record accept_inv (r : AcceptRun) : Prop := {
  av_cap : N.of_nat (length (ac_handshakes (acc (ar_state r)))) ≤
           ac_max_in_flight_handshakes (acc (ar_state r));
  av_nodup : NoDup (ac_handshakes (acc (ar_state r)));
  av_handshakes : ∀ c, c ∈ ac_handshakes (acc (ar_state r)) → (c < length (ep_conns (ep (ar_state r))))%nat;
  av_yielded : ∀ c, c ∈ ar_yielded r → (c < length (ep_conns (ep (ar_state r))))%nat;
  av_once : NoDup (ar_yielded r);
  av_disjoint : ∀ c, c ∈ ar_yielded r → c ∉ ac_handshakes (acc (ar_state r));
}.

Lemma on_conn_spec {A} conn (dflt : A) (m : ST (Store B) A) l :
  let l' := exec (on_conn conn dflt m) l in
  acc l' = acc l ∧ length (ep_conns (ep l')) = length (ep_conns (ep l)) ∧ ep_state (ep l') = ep_state (ep l).
Proof.
  unfold on_conn, exec. case_match; simpl; [|done]. split_and!; [done| |done]. apply length_insert.
Qed.

(** What the handshake arm does to the acceptor. *)
Lemma handshake_done_spec cx sn conn l :
  let l' := exec (handshake_done cx sn conn) l in
  acc l' = acc l <| ac_handshakes ::= filter (λ c, c ≠ conn) |> ∧
  length (ep_conns (ep l')) = length (ep_conns (ep l)) ∧ ep_state (ep l') = ep_state (ep l) ∧
  match result (handshake_done cx sn conn) l with
  | Continue => True
  | Yield c _ => c = conn ∧ sn_closing sn = false ∧ is_closing (ep l) = false
  end.
Proof.
  unfold handshake_done. rewrite !exec_bind, !result_bind, exec_modify.
  set (l1 := l <| acc ::= _ |>).
  destruct (on_conn_spec conn Pending (into_established_connection cx) l1) as (Ha&Hc&Hs).
  set (l2 := exec (on_conn _ _ _) l1) in *. destruct (result (on_conn _ _ _) l1) as [[opener|e]|].
  2-3: rewrite exec_ret, result_ret; by rewrite Ha, Hc, Hs.
  rewrite exec_bind, result_bind, exec_gets, result_gets.
  destruct (sn_closing sn || is_closing (ep l2)) eqn:Hcl.
  - rewrite exec_bind, result_bind, exec_ret, result_ret.
    destruct (on_conn_spec conn tt (connection_drop opener) l2) as (Ha'&Hc'&Hs').
    by rewrite Ha', Hc', Hs', Ha, Hc, Hs.
  - rewrite exec_ret, result_ret, Ha, Hc, Hs. apply orb_false_iff in Hcl as [? Hcl].
    unfold is_closing in *. by rewrite Hs in Hcl.
Qed.

Lemma incoming_spec item l :
  let l' := exec (incoming item) l in
  ac_max_in_flight_handshakes (acc l') = ac_max_in_flight_handshakes (acc l) ∧
  result (incoming item) l = Continue ∧
  ((ac_handshakes (acc l') = ac_handshakes (acc l) ∧ length (ep_conns (ep l')) = length (ep_conns (ep l))) ∨
   (is_closing (ep l) = false ∧
    ac_handshakes (acc l') = ac_handshakes (acc l) ++ [length (ep_conns (ep l))] ∧
    length (ep_conns (ep l')) = S (length (ep_conns (ep l))))).
Proof.
  destruct item as [[c|e]|]; [|by split_and!; [done..|left]|by split_and!; [done..|left]].
  intros l'. unfold l', incoming, try_register, register, is_closing, result, exec, mbind, ST_bind. simpl.
  destruct (closing (ep_state (ep l))) eqn:Hc; simpl; [by split_and!; [done..|left]|].
  split_and!; [done..|]. right. split_and!; [done..|]. rewrite length_app. simpl. lia.
Qed.

Lemma accept_top_spec i l :
  let l' := exec (accept_top i) l in
  acc l' = acc l ∧ ep_conns (ep l') = ep_conns (ep l) ∧ ep_state (ep l') = ep_state (ep l) ∧
  (result (accept_top i) l = None ↔
   ac_handshakes (acc l) = [] ∧ (ac_incoming_done (acc l) = true ∨ is_closing (ep l) = true)).
Proof.
  intros l'. split_and!; [done..|]. unfold accept_top. rewrite !result_bind.
  unfold result, is_closing; simpl. destruct (ac_handshakes (acc l)); simpl; [|naive_solver].
  destruct (ac_incoming_done (acc l)), (closing (ep_state (ep l))); simpl; naive_solver.
Qed.

Lemma NoDup_snoc_fresh {A} (l : list A) x : NoDup l → x ∉ l → NoDup (l ++ [x]).
Proof.
  intros Hl Hx. apply NoDup_app. split_and!; [done| |apply NoDup_singleton].
  by intros y Hy ->%list_elem_of_singleton.
Qed.

Lemma accept_step_inv i cx r r' : accept_step i cx r r' → accept_inv r → accept_inv r'.
Proof.
  intros [l ys|l sn ev ys Hen|l e pc ys Hle] [Hcap Hnd Hh Hy Ho Hd]; simpl in *.
  - destruct (accept_top_spec i l) as (Ha&Hc&_&_).
    by split; cbn [ar_state ar_pc ar_yielded]; rewrite ?Ha, ?Hc.
  - unfold accept_arm. rewrite exec_bind, result_bind, exec_bind, result_bind, exec_ret, result_ret.
    rewrite exec_modify. destruct ev as [|conn|item]; simpl in Hen.
    + by rewrite exec_ret, result_ret, app_nil_r.
    + apply andb_true_iff in Hen as [Hin%bool_decide_eq_true _].
      destruct (handshake_done_spec cx sn conn l) as (Ha&Hc&_&Hr).
      set (l1 := exec (handshake_done cx sn conn) l) in *. clearbody l1.
      destruct (result (handshake_done cx sn conn) l) as [|c op]; simpl;
        [rewrite app_nil_r | destruct Hr as (->&_&_)]; split; simpl; rewrite ?Ha, ?Hc; simpl.
      * etrans; [|exact Hcap]. apply N2Z.inj_le. rewrite !nat_N_Z. apply inj_le, length_filter.
      * by apply NoDup_filter.
      * intros x [_ Hx]%list_elem_of_filter. auto.
      * auto.
      * done.
      * intros x Hx [_ Hx']%list_elem_of_filter. by eapply Hd.
      * etrans; [|exact Hcap]. apply N2Z.inj_le. rewrite !nat_N_Z. apply inj_le, length_filter.
      * by apply NoDup_filter.
      * intros x [_ Hx]%list_elem_of_filter. auto.
      * intros x [Hx| ->%list_elem_of_singleton]%elem_of_app; auto.
      * apply NoDup_snoc_fresh; [done|]. intros Hx. by apply (Hd conn).
      * intros x [Hx| ->%list_elem_of_singleton]%elem_of_app [Hne Hx']%list_elem_of_filter; [by eapply Hd | done].
    + apply andb_true_iff in Hen as [_ Hlt%N.ltb_lt].
      destruct (incoming_spec item l) as (Hm&->&Hcase). simpl. rewrite app_nil_r.
      set (l1 := exec (incoming item) l) in *. clearbody l1.
      destruct Hcase as [[Ha Hc]|(_&Ha&Hc)]; split; simpl; rewrite ?Ha, ?Hc, ?Hm; try done.
      * rewrite length_app. simpl. lia.
      * apply NoDup_snoc_fresh; [done|]. intros Hx. specialize (Hh _ Hx). lia.
      * intros x [Hx| ->%list_elem_of_singleton]%elem_of_app; [specialize (Hh x Hx)|]; lia.
      * intros x Hx. specialize (Hy x Hx). lia.
      * intros x Hx [Hx'| ->%list_elem_of_singleton]%elem_of_app; [by eapply Hd|]. specialize (Hy _ Hx). lia.
  - split; simpl; try done; intros x Hx; [specialize (Hh x Hx) | specialize (Hy x Hx)]; lia.
Qed.

(** C36.  The accept loop stays within its handshake cap and yields each
    connection once: in every run, whatever the endpoint and the workers do in
    between, the handshakes in flight never exceed the configured maximum, and no
    connection is yielded twice or while its handshake is still in flight. *)
Theorem accept_loop_safe i cx a0 e0 r :
  ac_handshakes a0 = [] →
  rtc (accept_step i cx) (mkAcceptRun (mkListening a0 e0) AtTop []) r →
  N.of_nat (length (ac_handshakes (acc (ar_state r)))) ≤ ac_max_in_flight_handshakes (acc (ar_state r)) ∧
  NoDup (ar_yielded r) ∧ ∀ c, c ∈ ar_yielded r → c ∉ ac_handshakes (acc (ar_state r)).
Proof.
  intros Ha Hr. assert (accept_inv r) as [? ? ? ? ? ?]; [|done].
  revert Hr. apply (rtc_ind_r accept_inv).
  - split; simpl; rewrite ?Ha; simpl; try lia; try constructor; set_solver.
  - intros r1 r2 _. apply accept_step_inv.
Qed.

(** A closing endpoint accepts nothing: whichever arm the loop takes and
    however stale its snapshot, no connection is yielded, no worker is started
    and the set of in-flight handshakes only shrinks. *)
Theorem closing_accepts_nothing i cx sn ev l :
  is_closing (ep l) = true →
  let l' := exec (accept_arm i cx sn ev) l in
  result (accept_arm i cx sn ev) l = Continue ∧
  length (ep_conns (ep l')) = length (ep_conns (ep l)) ∧
  (∀ c, c ∈ ac_handshakes (acc l') → c ∈ ac_handshakes (acc l)).
Proof.
  intros Hcl l'. unfold l', accept_arm.
  rewrite exec_bind, result_bind, exec_bind, result_bind, exec_ret, result_ret, exec_modify. simpl.
  destruct ev as [|conn|item].
  - done.
  - destruct (handshake_done_spec cx sn conn l) as (Ha&Hc&_&Hr).
    rewrite Ha, Hc. destruct (result (handshake_done cx sn conn) l); [|destruct Hr as (_&_&?); congruence].
    split_and!; [done..|]. intros c. simpl. rewrite list_elem_of_filter. by intros [_ ?].
  - destruct (incoming_spec item l) as (_&->&[[-> ->]|(?&_)]); [done | congruence].
Qed.

(** A closing acceptor comes to an end: once each in-flight handshake has
    reported, the next round of [accept] returns [None]. *)
Theorem closing_drains i cx sn l :
  is_closing (ep l) = true →
  result (accept_top i)
    (exec (for_each (ac_handshakes (acc l)) (λ c, accept_arm i cx sn (HandshakeDone c);; skip)) l) = None.
Proof.
  intros Hcl. set (hs := ac_handshakes (acc l)).
  assert (∀ c, c ∈ ac_handshakes (acc l) → c ∈ hs) as Hsub by done. clearbody hs.
  assert (∀ hs l, is_closing (ep l) = true → (∀ c, c ∈ ac_handshakes (acc l) → c ∈ hs) →
    let l' := exec (for_each hs (λ c, accept_arm i cx sn (HandshakeDone c);; skip)) l in
    is_closing (ep l') = true ∧ ac_handshakes (acc l') = []) as Hall.
  { clear. induction hs as [|c hs IH]; intros l Hcl Hsub.
    - split; [done|]. simpl. rewrite exec_skip. destruct (ac_handshakes (acc l)) as [|c ?]; [done|].
      assert (c ∈ []) as ?%elem_of_nil; [|done]. apply Hsub. by left.
    - simpl. rewrite exec_bind, exec_bind, exec_skip. apply IH; unfold accept_arm;
        rewrite exec_bind, exec_bind, exec_ret, exec_modify;
        destruct (handshake_done_spec cx sn c l) as (Ha&_&Hs&_).
      + unfold is_closing in *. cbn -[handshake_done]. by rewrite Hs.
      + intros x. cbn -[handshake_done]. rewrite Ha. simpl. rewrite list_elem_of_filter.
        intros [Hne Hx]. specialize (Hsub x Hx). set_solver. }
  destruct (Hall hs l Hcl Hsub) as [Hcl' Hnil]. apply accept_top_spec. auto.
Qed.

(** ** The accept wake-up *)

Inductive accept_other (i : nat) : relation (EndpointShared B C) :=
| accept_register e conn : accept_other i e (exec (try_register conn) e)
| accept_deregister e id : accept_other i e (exec (registration_drop id) e)
| accept_waiter e j : j ≠ i → accept_other i e (e <| ep_accept_wake ::= nt_enable j |>)
| accept_leave e j : j ≠ i → accept_other i e (e <| ep_accept_wake ::= nt_drop j |>)
| accept_conns e ws : accept_other i e (e <| ep_conns := ws |>).

Lemma accept_other_fields i e e' :
  accept_other i e e' →
  (i ∈ nt_waiting (ep_accept_wake e) → i ∈ nt_waiting (ep_accept_wake e')) ∧
  (is_closing e' = true → is_closing e = true).
Proof.
  intros [e1 conn|e1 id|e1 j Hj|e1 j Hj|e1 ws]; unfold is_closing; simpl.
  - split; [done|]. unfold try_register, register, exec. simpl.
    destruct (closing (ep_state e1)) eqn:Hc; simpl; congruence.
  - rewrite registration_drop_state. split; [|done].
    unfold registration_drop. rewrite exec_bind. by destruct (result _ e1).
  - rewrite nt_enable_waiting. split; [set_solver | done].
  - rewrite nt_drop_waiting. split; [set_solver | done].
  - done.
Qed.

#[refine] Definition accept_parking (i : nat) : Parking (EndpointShared B C) := {|
  pk_ready e := is_closing e = true;
  pk_armed e := i ∈ nt_waiting (ep_accept_wake e);
  pk_arm e := e <| ep_accept_wake ::= nt_enable i |>;
  pk_publish e e' := ∃ code reason, e' = e <| ep_state := (begin_close code reason (ep_state e)).2 |>;
  pk_other := accept_other i;
  pk_local e e' := e' = e <| ep_accept_wake ::= nt_drop i |>;
  pk_notify e := let e' := e <| ep_accept_wake ::= nt_notify_waiters |> in (nt_poll i (ep_accept_wake e'), e');
  pk_valid _ := True;
|}.
Proof.
  1-5: done.
  - intros e _. simpl. rewrite nt_enable_waiting. set_solver.
  - by intros e e' (code&reason&->).
  - intros e e' Ho. apply (accept_other_fields i e e' Ho).
  - intros e e' Ho. apply (accept_other_fields i e e' Ho).
  - intros e _ Hi. simpl. rewrite nt_poll_res, nt_notify_notified. apply bool_decide_eq_true. set_solver.
  - done.
Defined.

(** A parked [accept] always learns of a close: it enables its waiter before
    it reads [closing], so if it sleeps on a closing endpoint, it has been
    notified, or the closing task has yet to notify, and that reaches it. *)
Theorem accept_no_lost_wakeup i (e0 : EndpointShared B C) (c : Config) :
  pk_reachable (Parking0 := accept_parking i) e0 c →
  phase c = Asleep → is_closing (shared_st c) = true →
  wake_up c = true ∨
  ((0 < owed c)%nat ∧ nt_poll i (nt_notify_waiters (ep_accept_wake (shared_st c))) = true).
Proof.
  intros Hr Hp Hs.
  by destruct (pk_no_lost_wakeup (Parking0 := accept_parking i) e0 c I Hr Hp Hs) as [?|[? Hn]];
    [left | right].
Qed.
End accept.
Arguments Listening {_ _ _} B C.
