(* ===== verification/Connector.v ===== *)
(** * The connector (connector.rs)

    Validation in [new] and the sequence of [connect].  Sockets and tokio-quiche's
    [connect_with_config] are parameters; a connection that was set up is handed
    over as its [World]. *)

From S2P Require Import Prelude Interfaces Error Buffer Conn DriverTypes DriverStore DriverCore Driver DriverLogic Stream Setup Listener.

Section connector.
Context `{FileSystem} `{!TokioQuiche}.

Record H3QuicheClientConfig := mkClientConfig {
  cc_settings : QuicSettings;
  cc_hooks : Hooks;
  cc_cert_path : option string;
  cc_key_path : option string;
  cc_verify_peer : bool;
  cc_server_name : option string;
  cc_recv_channel_depth : N;
  cc_max_buffered_send_bytes : option N;
}.

Definition client_config_default : H3QuicheClientConfig :=
  mkClientConfig settings_default hooks_default None None true None BYTE_CHANNEL_DEPTH None.

Record H3QuicheConnector := mkConnector {
  cn_server_addr : string;
  cn_server_is_ipv6 : bool;
  cn_server_name : string;
  cn_config : H3QuicheClientConfig;
}.

(** The TLS material of a configuration: both paths or neither. *)
Definition check_mtls (config : H3QuicheClientConfig) : Result unit SetupError :=
  match cc_cert_path config, cc_key_path config with
  | Some cert, Some key =>
      match ensure_readable_file cert "client TLS certificate" with
      | Err e => Err e
      | Ok _ => ensure_readable_file key "client TLS private key"
      end
  | Some _, None => Err CertWithoutKey
  | None, Some _ => Err KeyWithoutCert
  | None, None => Ok tt
  end.

Definition connector_new (addr : string) (is_ipv6 : bool) (name : string)
    (config : H3QuicheClientConfig) : Result H3QuicheConnector SetupError :=
  match check_mtls config with
  | Err e => Err e
  | Ok _ =>
      match ensure_nonempty_alpn (cc_settings config) "client config" with
      | Err e => Err e
      | Ok _ => Ok (mkConnector addr is_ipv6 name config)
      end
  end.

(** What [new] demands of a client's TLS material. *)
Definition mtls_complete (config : H3QuicheClientConfig) : Prop :=
  match cc_cert_path config, cc_key_path config with
  | Some cert, Some key => readable_file cert ∧ readable_file key
  | None, None => True
  | _, _ => False
  end.

(** [H3QuicheConnector::new] accepts a configuration exactly when its TLS
    material is complete (a readable certificate and key, or neither) and its
    ALPN list is not empty; a lone certificate or key never passes. *)
Theorem connector_new_ok addr is_ipv6 name config cn :
  connector_new addr is_ipv6 name config = Ok cn ↔
  mtls_complete config ∧ settings_alpn (cc_settings config) ≠ [] ∧
  cn = mkConnector addr is_ipv6 name config.
Proof.
  rewrite <-(ensure_nonempty_alpn_ok _ "client config"). unfold connector_new, check_mtls, mtls_complete.
  destruct (cc_cert_path config) as [cert|], (cc_key_path config) as [key|];
    [|naive_solver..|destruct (ensure_nonempty_alpn _ _) as [[]|]; naive_solver].
  rewrite <-(ensure_readable_file_ok _ "client TLS certificate"),
    <-(ensure_readable_file_ok _ "client TLS private key").
  destruct (ensure_readable_file _ "client TLS certificate") as [[]|]; [|naive_solver].
  destruct (ensure_readable_file _ "client TLS private key") as [[]|]; [|naive_solver].
  destruct (ensure_nonempty_alpn _ _) as [[]|]; naive_solver.
Qed.

(** ** Connecting *)

Definition bind_addr (cn : H3QuicheConnector) : string :=
  if cn_server_is_ipv6 cn then "[::]:0" else "0.0.0.0:0".

Definition client_params (cn : H3QuicheConnector) : ConnectionParams :=
  let config := cn_config cn in
  let tls := match cc_cert_path config, cc_key_path config with
             | Some cert, Some key => Some (cert, key)
             | _, _ => None
             end in
  new_client (settings_set_verify_peer (cc_verify_peer config) (cc_settings config)) tls
    (cc_hooks config).

Section connect.
Context `{Runtime} {B C : Type}.

(** The driver and the objects its handles share, before there is a transport. *)
Definition client_driver (cn : H3QuicheConnector) : QuicheDriver B * Store B :=
  let buffers := mkDriverBufferConfig (cc_recv_channel_depth (cn_config cn))
                   (cc_max_buffered_send_bytes (cn_config cn)) in
  (driver_init false buffers,
   store_init DEFAULT_ACCEPT_BIDI_CAP DEFAULT_ACCEPT_UNI_CAP buffers).

Variables (udp_bind : string → Result UdpSocket string)
          (udp_connect : string → UdpSocket → Result UdpSocket string)
          (socket_try_from : UdpSocket → Result UdpSocket string)
          (connect_with_config : UdpSocket → string → ConnectionParams →
             QuicheDriver B * Store B → Result (World B C) string).

(** [connect]: [Ready] with the connection, as its opener and its world, or the
    error; [Pending] while the establishment signal is outstanding. *)
Definition connect (cx : Waker) (cn : H3QuicheConnector)
    : Poll (Result (StreamOpener * World B C) SetupError) :=
  match udp_bind (bind_addr cn) with
  | Err e => Ready (Err (SocketFailed e))
  | Ok udp =>
  match udp_connect (cn_server_addr cn) udp with
  | Err e => Ready (Err (SocketFailed e))
  | Ok udp =>
  match socket_try_from udp with
  | Err e => Ready (Err (SocketFailed e))
  | Ok socket =>
  match connect_with_config socket (cn_server_name cn) (client_params cn) (client_driver cn) with
  | Err e => Ready (Err (HandshakeFailed e))
  | Ok w =>
      let r := into_established_connection cx (sto w) in
      match r.1 with
      | Ready (Ok opener) => Ready (Ok (opener, w <| sto := r.2 |>))
      | Ready (Err e) => Ready (Err (SetupFailed e))
      | Pending => Pending
      end
  end end end end.

(** tokio-quiche resolves [connect_with_config] after the handshake, so after the
    driver's [on_conn_established] has run on the connection it made. *)
Hypothesis handshake_first : ∀ socket name params d w,
  connect_with_config socket name params d = Ok w →
  ∃ c, w = exec on_conn_established (mkWorld d.1 d.2 c).

(** A client whose handshake succeeded never waits and never sees a setup
    failure afterwards: [connect] is ready at once, with the connection in every
    such case and with the step's own error in every other. *)
Theorem connect_ready cx cn :
  match connect cx cn with
  | Pending => False
  | Ready (Ok (opener, w)) => opener = opener_new ∧ acting (drv w) = true
  | Ready (Err (SetupFailed _)) => False
  | Ready (Err _) => True
  end.
Proof.
  unfold connect. destruct (udp_bind _); [|done]. destruct (udp_connect _ _); [|done].
  destruct (socket_try_from _); [|done].
  destruct (connect_with_config _ _ _ _) as [w|] eqn:Hc; [|done].
  destruct (handshake_first _ _ _ _ _ Hc) as [c ->].
  unfold on_conn_established, into_established_connection, established_poll.
  rewrite !exec_bind. cbn -[os_send os_poll os_new].
  unfold mbind, ST_bind. cbn -[os_send os_poll os_new].
  by rewrite os_poll_res, os_send_view, os_new_view.
Qed.
End connect.
End connector.
