(* ===== verification/Bidi.v ===== *)
(** * Bidirectional streams (stream.rs)

    [H3Stream] passes each call to one of its halves.  The halves share the
    command channel and the store, yet using one of them cannot be noticed on the
    other: what each direction answers is what it would answer alone. *)

From S2P Require Import Prelude Interfaces Error Buffer Conn DriverTypes DriverStore DriverLogic Stream.

(** ** The delegating methods *)

Section delegation.
Context `{Runtime} {B : Type} `{!Buf B}.
Abbreviation F := (ST (Store B)).
Abbreviation UnitResult := (Poll (Result unit h3_stream_error)).
Abbreviation DataResult := (Poll (Result (option Bytes) h3_stream_error)).

(** [self.send.m()] and [self.recv.m()]: the half is updated in place. *)
Definition via_send {A} (m : H3SendStream (B := B) → F (A * H3SendStream (B := B))) (b : H3Stream)
    : F (A * H3Stream) :=
  p ← m (fb_send b); mret (p.1, mkH3Stream p.2 (fb_recv b)).
Definition via_recv {A} (m : H3RecvStream → F (A * H3RecvStream)) (b : H3Stream (B := B))
    : F (A * H3Stream) :=
  p ← m (fb_recv b); mret (p.1, mkH3Stream (fb_send b) p.2).

Definition bidi_poll_ready (cx : Waker) : H3Stream → F (UnitResult * H3Stream) :=
  via_send (poll_ready cx).
Definition bidi_send_data (data : B) : H3Stream → F (Result unit h3_stream_error * H3Stream) :=
  via_send (λ r, mret (send_data data r)).
Definition bidi_poll_finish (cx : Waker) : H3Stream → F (UnitResult * H3Stream) :=
  via_send (poll_finish cx).
Definition bidi_reset (code : N) : H3Stream → F (unit * H3Stream) :=
  via_send (λ r, r ← reset code r; mret (tt, r)).
Definition bidi_poll_data (cx : Waker) : H3Stream → F (DataResult * H3Stream) :=
  via_recv (poll_data cx).
Definition bidi_stop_sending (code : N) : H3Stream → F (unit * H3Stream) :=
  via_recv (λ r, r ← stop_sending code r; mret (tt, r)).
End delegation.

(** ** Computations that see a part of the store *)

Section sees.
Context {S : Type} (R : relation S) `{!Equivalence R}.

(** Started in states that agree on the part, they answer the same and agree on it
    again. *)
Definition sees {A} (m : ST S A) : Prop :=
  ∀ s s', R s s' → result m s = result m s' ∧ R (exec m s) (exec m s').

Lemma sees_ret {A} (a : A) : sees (mret a).
Proof. by intros s s' Hs. Qed.
Lemma sees_skip : sees skip.
Proof. apply sees_ret. Qed.
Lemma sees_bind {A A'} (m : ST S A) (k : A → ST S A') :
  sees m → (∀ a, sees (k a)) → sees (m ≫= k).
Proof.
  intros Hm Hk s s' Hs. destruct (Hm s s' Hs) as [Hr Hx]. rewrite !exec_bind, !result_bind, Hr. by apply Hk.
Qed.
(** A step elsewhere, the answer of which is not used. *)
Lemma sees_after {A A'} (m : ST S A) (k : ST S A') : respects R m → sees k → sees (m;; k).
Proof.
  intros Hm Hk s s' Hs. rewrite !exec_bind, !result_bind. apply Hk.
  rewrite <-(Hm s), <-(Hm s'). exact Hs.
Qed.
Lemma sees_nothing (m : ST S unit) : respects R m → sees m.
Proof.
  intros Hm s s' Hs. destruct (result m s), (result m s'). split; [done|].
  rewrite <-(Hm s), <-(Hm s'). exact Hs.
Qed.
Lemma sees_gets {A} (f : S → A) : (∀ s s', R s s' → f s = f s') → sees (gets f).
Proof. intros Hf s s' Hs. split; [by apply Hf|done]. Qed.
End sees.

Section parts.
Context `{Runtime} {B : Type} `{!Buf B}.
Abbreviation F := (ST (Store B)).

(** What the receive half works on, and what the send half works on: of the command
    channel, only whether it is open. *)
Record same_recv (s s' : Store B) : Prop := {
  sr_cells : recv_cells s = recv_cells s';
  sr_flags : flags s = flags s';
  sr_bytes : byte_chans s = byte_chans s';
}.
Record same_send (s s' : Store B) : Prop := {
  ss_cells : send_cells s = send_cells s';
  ss_writes : write_cells s = write_cells s';
  ss_finishes : finish_replies s = finish_replies s';
  ss_accounting : send_accounting s = send_accounting s';
  ss_open : cs_rx_open (chan_view (cmd_chan s)) = cs_rx_open (chan_view (cmd_chan s'));
}.
#[export] Instance same_recv_equiv : Equivalence same_recv.
Proof. split; [by split|by intros ?? []; split|intros ??? [] []; split; congruence]. Qed.
#[export] Instance same_send_equiv : Equivalence same_send.
Proof. split; [by split|by intros ?? []; split|intros ??? [] []; split; congruence]. Qed.

(** One object of a part. *)
Lemma sees_at_loc (R : relation (Store B)) {X A} (heap : Store B → list X) `{!Setter heap} a (dflt : A) f :
  (∀ s s', R s s' → heap s = heap s') →
  (∀ g s s', R s s' → R (s <| heap ::= g |>) (s' <| heap ::= g |>)) →
  sees R (at_loc heap a dflt f).
Proof.
  intros Hh Hg s s' Hs. unfold at_loc, exec, result. rewrite (Hh _ _ Hs).
  destruct (heap s' !! a) eqn:E; simpl; auto.
Qed.
Lemma sees_alloc (R : relation (Store B)) {X} (heap : Store B → list X) `{!Setter heap} (x : X) :
  (∀ s s', R s s' → heap s = heap s') →
  (∀ g s s', R s s' → R (s <| heap ::= g |>) (s' <| heap ::= g |>)) →
  sees R (alloc heap x).
Proof. intros Hh Hg s s' Hs. unfold alloc, exec, result. simpl. rewrite (Hh _ _ Hs). auto. Qed.
End parts.

(** A walk over a function's text: the objects of the part, then composition. *)
Create HintDb sees.
Ltac same := solve [ intros ?? []; assumption | intros ??? []; split; simpl; congruence ].
Ltac sees_step :=
  first
    [ solve [ eauto 2 with sees nocore ]
    | lazymatch goal with
      | |- sees _ (at_loc _ _ _ _) => apply sees_at_loc; same
      | |- sees _ (alloc _ _) => apply sees_alloc; same
      | |- sees _ (mret _) => apply sees_ret
      | |- sees _ skip => apply sees_skip
      | |- sees _ (mbind _ _) => apply sees_bind; [|intros ?]
      | |- sees _ (match ?x with _ => _ end) => destruct x
      | |- sees _ (let _ := _ in _) => cbv zeta
      | |- sees _ ?m => let h := head_of m in unfold h
      end ].
Ltac seeing := repeat sees_step.

(** The same walk for functions that leave the part alone. *)
Ltac blind_leaf :=
  idtac; lazymatch goal with
  | |- respects _ (at_loc _ _ _ _) => intros ?; unfold at_loc, exec; case_match; split; reflexivity
  | |- respects _ (alloc _ _) => intros ?; split; reflexivity
  | |- respects _ (modify _) => intros ?; split; reflexivity
  | |- respects _ (λ _, _) => intros ?; split; reflexivity
  end.
Ltac blind := worker_with blind_leaf.

Section sides.
Context `{Runtime} {B : Type} `{!Buf B}.
Abbreviation F := (ST (Store B)).

(** *** Receiving *)

Lemma cmd_send_blind_recv cmd : respects same_recv (cmd_send (B := B) cmd).
Proof. blind. Qed.
#[local] Hint Resolve cmd_send_blind_recv : steps.

Lemma flag_swap_sees a b : sees same_recv (flag_swap (B := B) a b).
Proof.
  intros s s' Hs. pose proof (sr_flags _ _ Hs) as Hf.
  unfold flag_swap, flag_load, flag_store. rewrite !exec_bind, !result_bind. unfold result, exec. simpl.
  rewrite Hf. split; [done|]. destruct Hs. by split; simpl; congruence.
Qed.
#[local] Hint Resolve flag_swap_sees : sees.

Lemma signal_resume_sees r : sees same_recv (signal_resume (B := B) r).
Proof.
  unfold signal_resume. apply sees_bind; [auto with sees|]. intros [|]; [|apply sees_skip].
  apply sees_bind; [auto with sees|]. intros [|]; [apply sees_skip|].
  apply sees_after; [apply _|apply cmd_send_blind_recv|apply sees_skip].
Qed.
#[local] Hint Resolve signal_resume_sees : sees.

Lemma poll_data_sees cx r : sees same_recv (poll_data (B := B) cx r).
Proof. seeing. Qed.
Lemma stop_sending_sees code r : sees same_recv (stop_sending (B := B) code r).
Proof. unfold stop_sending. apply sees_after; [apply _|apply cmd_send_blind_recv|apply sees_ret]. Qed.

(** Sending does not touch the receive part. *)
Lemma poll_ready_blind cx r : respects same_recv (poll_ready (B := B) cx r).
Proof. blind. Qed.
Lemma poll_finish_blind cx r : respects same_recv (poll_finish (B := B) cx r).
Proof. blind. Qed.
Lemma reset_blind code r : respects same_recv (reset (B := B) code r).
Proof. blind. Qed.

(** *** Sending *)

Lemma acct_sees {A} (f : SendAccounting → A * SendAccounting) : sees same_send (acct (B := B) f).
Proof.
  intros s s' Hs. unfold acct, result, exec. simpl. rewrite (ss_accounting _ _ Hs).
  split; [done|]. destruct Hs. by split.
Qed.
Lemma wake_sees ws : sees same_send (wake (B := B) ws).
Proof. intros s s' []. by split. Qed.
Lemma release_permit_sees p : sees same_send (release_permit (B := B) p).
Proof.
  destruct p as [p|]; [|apply sees_skip]. simpl. apply sees_bind; [|intros ?; apply wake_sees].
  apply (acct_sees (permit_drop p)).
Qed.
Lemma chan_send_sees cmd :
  sees same_send (λ s : Store B, let r := chan_send cmd (cmd_chan s) in (r.1, s <| cmd_chan := r.2 |>)).
Proof.
  intros s s' [? ? ? ? Ho]. unfold result, exec. simpl. autorewrite with chan. split; [done|].
  split; simpl; try done. autorewrite with chan. rewrite Ho.
  destruct (cs_rx_open (chan_view (cmd_chan s'))) eqn:E; simpl; congruence.
Qed.
#[local] Hint Resolve acct_sees wake_sees release_permit_sees chan_send_sees : sees.

Lemma drop_command_sees cmd : sees same_send (drop_command (B := B) cmd).
Proof.
  destruct cmd; try (apply sees_nothing; [apply _|blind; fail]); seeing.
Qed.
#[local] Hint Resolve drop_command_sees : sees.
Lemma cmd_send_sees cmd : sees same_send (cmd_send (B := B) cmd).
Proof. seeing. Qed.
#[local] Hint Resolve cmd_send_sees : sees.

Lemma send_cell_get_sees a : sees same_send (gets (send_cell_get (B := B) a)).
Proof. apply sees_gets. intros s s' Hs. unfold send_cell_get. by rewrite (ss_cells _ _ Hs). Qed.
#[local] Hint Resolve send_cell_get_sees : sees.

Lemma poll_ready_sees cx r : sees same_send (poll_ready (B := B) cx r).
Proof. seeing. Qed.
Lemma poll_finish_sees cx r : sees same_send (poll_finish (B := B) cx r).
Proof. seeing. Qed.
Lemma reset_sees code r : sees same_send (reset (B := B) code r).
Proof. seeing. Qed.

(** Receiving does not touch the send part: the commands it sends carry no
    completion. *)
Lemma cmd_send_blind_send cmd :
  drop_command (B := B) cmd = skip → respects same_send (cmd_send cmd).
Proof.
  intros Hd s. unfold cmd_send. rewrite exec_bind.
  assert (same_send s (exec (λ s : Store B, let r := chan_send cmd (cmd_chan s) in
    (r.1, s <| cmd_chan := r.2 |>)) s)) as Hs.
  { split; simpl; try done. autorewrite with chan. by destruct (cs_rx_open _) eqn:E. }
  rewrite Hd. by destruct (result _ s).
Qed.
Lemma resume_blind_send id : respects same_send (cmd_send (B := B) (RecvResume id)).
Proof. by apply cmd_send_blind_send. Qed.
Lemma stop_blind_send id code : respects same_send (cmd_send (B := B) (StopSending id code)).
Proof. by apply cmd_send_blind_send. Qed.
#[local] Hint Resolve resume_blind_send stop_blind_send : steps.

Lemma poll_data_blind cx r : respects same_send (poll_data (B := B) cx r).
Proof. blind. Qed.
Lemma stop_sending_blind code r : respects same_send (stop_sending (B := B) code r).
Proof. blind. Qed.
End sides.

(** ** Calls in any order *)

Section calls.
Context `{Runtime} {B : Type} `{!Buf B}.
Abbreviation F := (ST (Store B)).
Abbreviation UnitResult := (Poll (Result unit h3_stream_error)).
Abbreviation DataResult := (Poll (Result (option Bytes) h3_stream_error)).

Inductive SendCall := CallReady (cx : Waker) | CallSend (data : B) | CallFinish (cx : Waker) | CallReset (code : N).
Inductive RecvCall := CallData (cx : Waker) | CallStop (code : N).
Inductive SendAnswer := AnsPoll (r : UnitResult) | AnsSend (r : Result unit h3_stream_error) | AnsReset.
Inductive RecvAnswer := AnsData (r : DataResult) | AnsStop.

(** A call on the half alone and on the whole stream. *)
Definition send_call (c : SendCall) (r : H3SendStream) : F (SendAnswer * H3SendStream) :=
  match c with
  | CallReady cx => p ← poll_ready cx r; mret (AnsPoll p.1, p.2)
  | CallSend data => mret (AnsSend (send_data data r).1, (send_data data r).2)
  | CallFinish cx => p ← poll_finish cx r; mret (AnsPoll p.1, p.2)
  | CallReset code => r ← reset code r; mret (AnsReset, r)
  end.
Definition recv_call (c : RecvCall) (r : H3RecvStream) : F (RecvAnswer * H3RecvStream) :=
  match c with
  | CallData cx => p ← poll_data cx r; mret (AnsData p.1, p.2)
  | CallStop code => r ← stop_sending code r; mret (AnsStop, r)
  end.
Definition bidi_call (c : SendCall + RecvCall) (b : H3Stream) : F ((SendAnswer + RecvAnswer) * H3Stream) :=
  match c with
  | inl (CallReady cx) => p ← bidi_poll_ready cx b; mret (inl (AnsPoll p.1), p.2)
  | inl (CallSend data) => p ← bidi_send_data data b; mret (inl (AnsSend p.1), p.2)
  | inl (CallFinish cx) => p ← bidi_poll_finish cx b; mret (inl (AnsPoll p.1), p.2)
  | inl (CallReset code) => p ← bidi_reset code b; mret (inl AnsReset, p.2)
  | inr (CallData cx) => p ← bidi_poll_data cx b; mret (inr (AnsData p.1), p.2)
  | inr (CallStop code) => p ← bidi_stop_sending code b; mret (inr AnsStop, p.2)
  end.

(** A sequence of calls, with their answers. *)
Fixpoint run_calls {K X Y} (call : K → X → F (Y * X)) (cs : list K) (x : X) : F (list Y * X) :=
  match cs with
  | [] => mret ([], x)
  | c :: cs => p ← call c x; ps ← run_calls call cs p.2; mret (p.1 :: ps.1, ps.2)
  end.

Definition lefts {X Y} : list (X + Y) → list X := omap (λ z, match z with inl x => Some x | inr _ => None end).
Definition rights {X Y} : list (X + Y) → list Y := omap (λ z, match z with inl _ => None | inr y => Some y end).

Lemma send_call_sees c r : sees same_send (send_call c r).
Proof.
  destruct c; [apply sees_bind|apply sees_ret|apply sees_bind|apply sees_bind];
    try (intros ?; apply sees_ret); auto using poll_ready_sees, poll_finish_sees, reset_sees.
Qed.
Lemma recv_call_sees c r : sees same_recv (recv_call c r).
Proof. destruct c; apply sees_bind; try (intros ?; apply sees_ret); auto using poll_data_sees, stop_sending_sees. Qed.
Lemma send_call_blind c r : respects same_recv (send_call c r).
Proof.
  destruct c; try (by intros s); apply respects_bind; try apply _; try (by intros ? s);
    auto using poll_ready_blind, poll_finish_blind, reset_blind.
Qed.
Lemma recv_call_blind c r : respects same_send (recv_call c r).
Proof.
  destruct c; apply respects_bind; try apply _; try (by intros ? s); auto using poll_data_blind, stop_sending_blind.
Qed.

(** A call on the whole stream is one on its half. *)
Lemma bidi_call_send c b s :
  bidi_call (inl c) b s =
  let p := send_call c (fb_send b) s in ((inl p.1.1, mkH3Stream p.1.2 (fb_recv b)), p.2).
Proof. by destruct c. Qed.
Lemma bidi_call_recv c b s :
  bidi_call (inr c) b s =
  let p := recv_call c (fb_recv b) s in ((inr p.1.1, mkH3Stream (fb_send b) p.1.2), p.2).
Proof. by destruct c. Qed.

Lemma run_calls_cons {K X Y} (call : K → X → F (Y * X)) c cs x s :
  run_calls call (c :: cs) x s =
  let p := call c x s in let q := run_calls call cs p.1.2 p.2 in ((p.1.1 :: q.1.1, q.1.2), q.2).
Proof. done. Qed.

(** The two sides of a run, each against a run of its own calls alone. *)
Record independent (cs : list (SendCall + RecvCall)) (b : H3Stream) (s s1 s2 : Store B) : Prop := {
  ind_send : let p := run_calls bidi_call cs b s in
             let q := run_calls send_call (lefts cs) (fb_send b) s1 in
             (lefts p.1.1, fb_send p.1.2) = q.1 ∧ same_send p.2 q.2;
  ind_recv : let p := run_calls bidi_call cs b s in
             let q := run_calls recv_call (rights cs) (fb_recv b) s2 in
             (rights p.1.1, fb_recv p.1.2) = q.1 ∧ same_recv p.2 q.2;
}.

Lemma halves_run cs b s s1 s2 : same_send s s1 → same_recv s s2 → independent cs b s s1 s2.
Proof.
  revert b s s1 s2. induction cs as [|[c|c] cs IH]; intros b s s1 s2 H1 H2; [by split|..].
  - destruct (send_call_sees c (fb_send b) s s1 H1) as [Hr Hx].
    pose proof (send_call_blind c (fb_send b) s) as Hb. unfold result, exec in *.
    destruct (send_call c (fb_send b) s) as [[a r] t] eqn:E1, (send_call c (fb_send b) s1) as [[a' r'] t'] eqn:E2.
    simpl in *. injection Hr as <- <-. assert (same_recv t s2) as H2' by (by rewrite <-Hb).
    destruct (IH (mkH3Stream r (fb_recv b)) t t' s2 Hx H2') as [[Hs1 Hs2] [Hr1 Hr2]].
    split; rewrite run_calls_cons, bidi_call_send, E1; cbn [fst snd fb_send fb_recv] in *; [|by split].
    change (lefts (inl c :: cs)) with (c :: lefts (X := SendCall) cs).
    rewrite run_calls_cons, E2. cbn [fst snd]. rewrite <-Hs1. by split.
  - destruct (recv_call_sees c (fb_recv b) s s2 H2) as [Hr Hx].
    pose proof (recv_call_blind c (fb_recv b) s) as Hb. unfold result, exec in *.
    destruct (recv_call c (fb_recv b) s) as [[a r] t] eqn:E1, (recv_call c (fb_recv b) s2) as [[a' r'] t'] eqn:E2.
    simpl in *. injection Hr as <- <-. assert (same_send t s1) as H1' by (by rewrite <-Hb).
    destruct (IH (mkH3Stream (fb_send b) r) t s1 t' H1' Hx) as [[Hs1 Hs2] [Hr1 Hr2]].
    split; rewrite run_calls_cons, bidi_call_recv, E1; cbn [fst snd fb_send fb_recv] in *; [by split|].
    change (rights (inr c :: cs)) with (c :: rights (Y := RecvCall) cs).
    rewrite run_calls_cons, E2. cbn [fst snd]. rewrite <-Hr1. by split.
Qed.

End calls.
