(* ===== verification/Arena.v ===== *)
(** * The receive arena (driver.rs)

    The worker does not copy what it reads: the transport writes into a reusable
    buffer, the bytes written are carved off its front as a shared, frozen chunk,
    and the rest of the buffer takes the next read.  [DriverRecv] models a read by
    its value.  Here the memory is explicit: the buffer and the chunks are spans
    of allocations, and the theorems show that sharing is not observable, that the
    buffer is empty between reads and that allocation is amortised. *)

From S2P Require Import Prelude Interfaces Error Buffer Conn DriverTypes DriverStore DriverCore DriverRecv DriverLogic.

(** ** Memory *)

(** A span of one allocation: a pointer and a size. *)
Record Span := mkSpan { sp_block : N; sp_start : N; sp_size : N }.

Definition inside (s : Span) (b o : N) : Prop :=
  b = sp_block s ∧ sp_start s ≤ o < sp_start s + sp_size s.
#[export] Instance inside_dec s b o : Decision (inside s b o).
Proof. unfold inside. apply _. Defined.

Definition apart (s t : Span) : Prop := ∀ b o, inside s b o → ¬ inside t b o.

(** A byte per block and offset. *)
Definition Mem : Type := N → N → byte.

Definition load (m : Mem) (s : Span) : Bytes :=
  (λ i, m (sp_block s) (sp_start s + N.of_nat i)) <$> seq 0 (N.to_nat (sp_size s)).

(** [&mut s[..]] overwritten with [bs]. *)
Definition store (m : Mem) (s : Span) (bs : Bytes) : Mem := λ b o,
  if decide (inside s b o) then nth (N.to_nat (o - sp_start s)) bs x00 else m b o.

(** The memory, and the frozen chunks that somebody still holds. *)
Record Heap := mkHeap { h_mem : Mem; h_live : list Span }.

(** A growable buffer: [bm_span] is its pointer and capacity. *)
Record BytesMut := mkBytesMut { bm_span : Span; bm_len : N }.

Definition bm_capacity (b : BytesMut) : N := sp_size (bm_span b).

(** [&buf[i..j]] *)
Definition bm_slice (b : BytesMut) (i j : N) : Span :=
  mkSpan (sp_block (bm_span b)) (sp_start (bm_span b) + i) (j - i).

(** What the worker uses of the bytes crate.  [reserve] is free to move the buffer
    or to take its old allocation back, as long as no live chunk is in the way;
    [split_to] and [freeze] only hand out pointers. *)
Class BytesCrate := {
  bm_new : BytesMut;
  bm_reserve : N → BytesMut → Heap → BytesMut * Heap;
  bm_resize : N → byte → BytesMut → Heap → BytesMut * Heap;
  bm_truncate : N → BytesMut → BytesMut;
  bm_split_to : N → BytesMut → BytesMut * BytesMut;
  bm_freeze : BytesMut → Span;

  bm_new_empty : bm_len bm_new = 0 ∧ bm_capacity bm_new = 0;
  bm_reserve_len n b h : bm_len (bm_reserve n b h).1 = bm_len b;
  bm_reserve_capacity n b h : bm_len b + n ≤ bm_capacity (bm_reserve n b h).1;
  bm_reserve_live n b h : h_live (bm_reserve n b h).2 = h_live h;
  bm_reserve_keeps n b h s :
    s ∈ h_live h → load (h_mem (bm_reserve n b h).2) s = load (h_mem h) s;
  bm_reserve_apart n b h s :
    apart (bm_span b) s → s ∈ h_live h → apart (bm_span (bm_reserve n b h).1) s;
  bm_resize_grows n v b h :
    bm_len b ≤ n ≤ bm_capacity b →
    (bm_resize n v b h).1 = mkBytesMut (bm_span b) n ∧
    h_live (bm_resize n v b h).2 = h_live h ∧
    ∀ x o, h_mem (bm_resize n v b h).2 x o =
           if decide (inside (bm_slice b (bm_len b) n) x o) then v else h_mem h x o;
  bm_truncate_shortens n b : n ≤ bm_len b → bm_truncate n b = mkBytesMut (bm_span b) n;
  bm_split_to_carves n b :
    n ≤ bm_len b →
    bm_split_to n b = (mkBytesMut (bm_slice b 0 n) n,
                       mkBytesMut (bm_slice b n (bm_capacity b)) (bm_len b - n));
  bm_freeze_slice b : bm_freeze b = bm_slice b 0 (bm_len b);
}.

(** ** Reading *)

Definition RECV_ARENA : N := 8 * MAX_CHUNK.

Section arena.
Context `{BytesCrate} {C : Type} `{!QuicConn C}.

(** The arena of a worker, the memory it shares with the holders of its chunks,
    and the transport it reads from. *)
Record Arena := mkArena { ar_buf : option BytesMut; ar_heap : Heap; ar_conn : C }.

Definition arena_buf (a : Arena) : BytesMut := default bm_new (ar_buf a).

Definition arena_grows (a : Arena) : bool := bm_capacity (arena_buf a) <? MAX_CHUNK.

(** Capacity for one read, and the zero-filled window of [MAX_CHUNK] bytes. *)
Definition arena_window (a : Arena) : BytesMut * Heap :=
  let bh := if arena_grows a then bm_reserve RECV_ARENA (arena_buf a) (ar_heap a)
            else (arena_buf a, ar_heap a) in
  bm_resize MAX_CHUNK x00 bh.1 bh.2.

(** One read: the carved chunk (if any bytes came) and the FIN flag, or the
    error. *)
Definition arena_read (id : N) : ST Arena (QResult (option Span * bool)) := λ a,
  let buf := (arena_window a).1 in
  let heap := (arena_window a).2 in
  let s := bm_slice buf 0 (bm_len buf) in
  let r := stream_recv id (load (h_mem heap) s) (ar_conn a) in
  let heap := mkHeap (store (h_mem heap) s r.1.2) (h_live heap) in
  match r.1.1 with
  | Ok (len, fin) =>
      if 0 <? len then
        let parts := bm_split_to len (bm_truncate len buf) in
        let chunk := bm_freeze parts.1 in
        (Ok (Some chunk, fin),
         mkArena (Some parts.2) (mkHeap (h_mem heap) (h_live heap ++ [chunk])) r.2)
      else (Ok (None, fin), mkArena (Some (bm_truncate 0 buf)) heap r.2)
  | Err e => (Err e, mkArena (Some (bm_truncate 0 buf)) heap r.2)
  end.
End arena.
Arguments Arena : clear implicits.

(** ** Spans *)

Lemma length_load m s : length (load m s) = N.to_nat (sp_size s).
Proof. unfold load. by rewrite length_fmap, length_seq. Qed.

Lemma load_lookup m s i :
  (i < N.to_nat (sp_size s))%nat → load m s !! i = Some (m (sp_block s) (sp_start s + N.of_nat i)).
Proof. intros Hi. unfold load. rewrite list_lookup_fmap, lookup_seq_lt by done. done. Qed.

Lemma load_eq m m' s : (∀ b o, inside s b o → m b o = m' b o) → load m s = load m' s.
Proof.
  intros Hm. apply list_fmap_ext. intros i x [-> Hi]%lookup_seq. apply Hm. unfold inside. lia.
Qed.

Lemma load_apart m s t bs : apart t s → load (store m t bs) s = load m s.
Proof.
  intros Ht. apply load_eq. intros b o Hs. unfold store. rewrite decide_False; [done|].
  intros Hi. by apply (Ht b o).
Qed.

(** What is read back from the front of a span that was overwritten. *)
Lemma load_front m s bs n :
  n ≤ sp_size s → N.to_nat (sp_size s) = length bs →
  load (store m s bs) (mkSpan (sp_block s) (sp_start s) n) = take (N.to_nat n) bs.
Proof.
  intros Hn Hl. apply list_eq_same_length with (N.to_nat n).
  { rewrite length_take. lia. }
  { by rewrite length_load. }
  intros i x y Hi. rewrite load_lookup by done. simpl. unfold store.
  rewrite lookup_take_lt by done. rewrite decide_True by (unfold inside; lia).
  intros [= <-]. replace (N.to_nat _) with i by lia.
  intros ->%(nth_lookup_Some _ _ x00). done.
Qed.

Lemma load_filled m s (v : byte) :
  (∀ b o, inside s b o → m b o = v) → load m s = replicate (N.to_nat (sp_size s)) v.
Proof.
  intros Hm. symmetry. apply replicate_as_elem_of. split; [apply length_load|].
  intros x [i [-> Hi%elem_of_seq]]%list_elem_of_fmap. apply Hm. unfold inside. lia.
Qed.

Lemma apart_sub s t u : (∀ b o, inside u b o → inside s b o) → apart s t → apart u t.
Proof. intros Hu Hs b o Hi. by apply Hs, Hu. Qed.

(** ** One read *)

(** The result of a read with the chunk looked up, and the chunk alone. *)
Definition deref (m : Mem) (o : QResult (option Span * bool)) : QResult (option Bytes * bool) :=
  match o with Ok (c, fin) => Ok (load m <$> c, fin) | Err e => Err e end.

Definition read_bytes {A} (o : QResult (option A * bool)) : list A :=
  match o with Ok (Some c, _) => [c] | _ => [] end.

Definition bytes_total (chunks : list Bytes) : N := N.of_nat (length (concat chunks)).

(** What a call of [stream_recv] amounts to. *)
Definition value_read (r : QResult (N * bool) * Bytes) : QResult (option Bytes * bool) :=
  match r.1 with
  | Ok (len, fin) => Ok (if 0 <? len then Some (take (N.to_nat len) r.2) else None, fin)
  | Err e => Err e
  end.

Section read.
Context `{BytesCrate} {C : Type} `{!QuicConn C, !QuicConnOk C}.

(** Between reads the buffer is fully carved, and no chunk that is held lies in
    its memory. *)
Record arena_ok (a : Arena C) : Prop := {
  carved : bm_len (arena_buf a) = 0;
  unshared s : s ∈ h_live (ar_heap a) → apart (bm_span (arena_buf a)) s;
}.

Definition held_chunks (a : Arena C) : list Bytes := load (h_mem (ar_heap a)) <$> h_live (ar_heap a).

Record window_ok (a : Arena C) (buf : BytesMut) (h : Heap) : Prop := {
  win_len : bm_len buf = MAX_CHUNK;
  win_cap : MAX_CHUNK ≤ bm_capacity buf;
  win_grown : if arena_grows a then RECV_ARENA ≤ bm_capacity buf else bm_span buf = bm_span (arena_buf a);
  win_live : h_live h = h_live (ar_heap a);
  win_apart s : s ∈ h_live h → apart (bm_span buf) s;
  win_keeps s : s ∈ h_live h → load (h_mem h) s = load (h_mem (ar_heap a)) s;
  win_zero : load (h_mem h) (bm_slice buf 0 (bm_len buf)) = window [];
}.

Lemma slice_inside (b : BytesMut) i j x o :
  j ≤ bm_capacity b → inside (bm_slice b i j) x o → inside (bm_span b) x o.
Proof. unfold inside, bm_capacity. simpl. lia. Qed.

Lemma resize_window (b : BytesMut) h :
  bm_len b = 0 → MAX_CHUNK ≤ bm_capacity b → (∀ s, s ∈ h_live h → apart (bm_span b) s) →
  let r := bm_resize MAX_CHUNK x00 b h in
  r.1 = mkBytesMut (bm_span b) MAX_CHUNK ∧ h_live r.2 = h_live h ∧
  (∀ s, s ∈ h_live h → load (h_mem r.2) s = load (h_mem h) s) ∧
  load (h_mem r.2) (bm_slice b 0 MAX_CHUNK) = window [].
Proof.
  intros Hl Hc Hs. destruct (bm_resize_grows MAX_CHUNK x00 b h) as (Hb&Hlive&Hm); [lia|].
  rewrite Hl in Hm. intros r. split_and!; [done..| |].
  - intros s Hin. apply load_eq. intros x o Hi. subst r. rewrite Hm, decide_False; [done|].
    intros Hw%slice_inside; [|done]. by apply (Hs s Hin x o).
  - subst r. rewrite (load_filled _ _ x00).
    + unfold window. rewrite resize_nil. f_equal.
    + intros x o Hi. by rewrite Hm, decide_True.
Qed.

(** A buffer with room for a window, holding nothing: the window it is grown to. *)
Lemma window_intro (a : Arena C) (b : BytesMut) h :
  bm_len b = 0 → MAX_CHUNK ≤ bm_capacity b →
  (if arena_grows a then RECV_ARENA ≤ bm_capacity b else bm_span b = bm_span (arena_buf a)) →
  h_live h = h_live (ar_heap a) → (∀ s, s ∈ h_live h → apart (bm_span b) s) →
  (∀ s, s ∈ h_live h → load (h_mem h) s = load (h_mem (ar_heap a)) s) →
  let r := bm_resize MAX_CHUNK x00 b h in window_ok a r.1 r.2.
Proof.
  intros Hl Hc Hg Hlive Ha Hk. destruct (resize_window b h Hl Hc Ha) as (Hb&Hl2&Hm&Hz). cbv zeta.
  set (r := bm_resize _ _ _ _) in *. clearbody r.
  split; rewrite ?Hb, ?Hl2; [reflexivity|exact Hc|exact Hg|exact Hlive|exact Ha| |exact Hz].
  intros s Hs. by rewrite Hm, Hk.
Qed.

Lemma arena_window_ok (a : Arena C) :
  arena_ok a → window_ok a (arena_window a).1 (arena_window a).2.
Proof.
  intros [Hl Hu]. unfold arena_window. apply window_intro; destruct (arena_grows a) eqn:Hg; simpl; try done.
  - by rewrite bm_reserve_len.
  - pose proof (bm_reserve_capacity RECV_ARENA (arena_buf a) (ar_heap a)). unfold RECV_ARENA in *. lia.
  - by apply N.ltb_ge.
  - pose proof (bm_reserve_capacity RECV_ARENA (arena_buf a) (ar_heap a)). lia.
  - apply bm_reserve_live.
  - intros s. rewrite bm_reserve_live. eauto using bm_reserve_apart.
  - intros s. rewrite bm_reserve_live. apply bm_reserve_keeps.
Qed.

Lemma store_keeps (a : Arena C) buf h bs :
  window_ok a buf h →
  load (store (h_mem h) (bm_slice buf 0 (bm_len buf)) bs) <$> h_live h = held_chunks a.
Proof.
  intros Hw. unfold held_chunks. rewrite <-(win_live _ _ _ Hw). apply list_fmap_ext.
  intros i s Hs%list_elem_of_lookup_2.
  rewrite load_apart; [by apply (win_keeps _ _ _ Hw)|].
  apply apart_sub with (bm_span buf); [|by apply (win_apart _ _ _ Hw)].
  intros x o. apply slice_inside. rewrite (win_len _ _ _ Hw). apply (win_cap _ _ _ Hw).
Qed.

Lemma arena_read_spec id (a : Arena C) :
  arena_ok a →
  let r := stream_recv id (window []) (ar_conn a) in
  let o := result (arena_read id) a in
  let a' := exec (arena_read id) a in
  arena_ok a' ∧ ar_conn a' = r.2 ∧ deref (h_mem (ar_heap a')) o = value_read r.1 ∧
  held_chunks a' = held_chunks a ++ read_bytes (value_read r.1) ∧
  bm_capacity (arena_buf a') + bytes_total (read_bytes (value_read r.1)) = bm_capacity (arena_window a).1.
Proof.
  intros Ha r o a'. pose proof (arena_window_ok a Ha) as Hw. subst o a'. unfold arena_read, result, exec.
  set (buf := (arena_window a).1) in *. set (h := (arena_window a).2) in *. clearbody buf h.
  rewrite (win_zero _ _ _ Hw). fold r.
  pose proof (stream_recv_len id (window []) (ar_conn a)) as Hlen.
  pose proof (stream_recv_out id (window []) (ar_conn a)) as Hout.
  unfold result in Hlen, Hout. fold r in Hlen, Hout.
  pose proof (store_keeps a buf h r.1.2 Hw) as Hk.
  pose proof (win_len _ _ _ Hw) as Hbl. pose proof (win_cap _ _ _ Hw) as Hbc.
  assert (length (window []) = N.to_nat MAX_CHUNK) as Hwin by apply length_resize.
  rewrite Hwin in Hout, Hlen. generalize MAX_CHUNK Hbl Hbc Hout Hlen. clear Hbl Hbc Hout Hlen Hwin.
  intros M Hbl Hbc Hout Hlen. unfold value_read.
  assert (bm_truncate 0 buf = mkBytesMut (bm_span buf) 0) as Ht by (apply bm_truncate_shortens; lia).
  destruct r.1.1 as [[len fin]|e] eqn:Hr; simpl.
  2:{ rewrite app_nil_r, Ht. split_and!; [|done..|by apply N.add_0_r]. split; [done|]. apply (win_apart _ _ _ Hw). }
  destruct (0 <? len) eqn:H0; simpl.
  2:{ rewrite app_nil_r, Ht. split_and!; [|done..|by apply N.add_0_r]. split; [done|]. apply (win_apart _ _ _ Hw). }
  specialize (Hlen _ _ eq_refl). rewrite N2Nat.id in Hlen.
  rewrite bm_truncate_shortens, bm_split_to_carves by (simpl; lia). simpl. rewrite bm_freeze_slice. simpl.
  set (s := bm_slice buf 0 (bm_len buf)) in *.
  assert (load (store (h_mem h) s r.1.2) (mkSpan (sp_block s) (sp_start s) len) = take (N.to_nat len) r.1.2) as Hf.
  { apply load_front; subst s; simpl; lia. }
  assert (bm_slice (mkBytesMut (bm_slice (mkBytesMut (bm_span buf) len) 0 len) len) 0 len =
          mkSpan (sp_block s) (sp_start s) len) as ->.
  { subst s. unfold bm_slice. simpl. f_equal; lia. }
  split_and!; [|done|by rewrite Hf| |].
  - split; [simpl; lia|]. simpl. intros t [Ht'|Ht'%list_elem_of_singleton]%elem_of_app; [|subst t].
    + apply apart_sub with (bm_span buf); [|by apply (win_apart _ _ _ Hw)].
      intros x o. by apply (slice_inside buf).
    + unfold apart, inside. simpl. lia.
  - unfold held_chunks. simpl. by rewrite fmap_app, Hk, <-Hf.
  - unfold bytes_total, bm_capacity in *. simpl. rewrite app_nil_r, length_take. lia.
Qed.

(** A chunk is carved where the buffer stands: the buffer goes on right behind it,
    and unless memory was reserved it begins where the buffer began. *)
Lemma arena_read_in_place id (a : Arena C) c fin :
  arena_ok a → result (arena_read id) a = Ok (Some c, fin) →
  let s := bm_span (arena_buf a) in
  let s' := bm_span (arena_buf (exec (arena_read id) a)) in
  sp_block s' = sp_block c ∧ sp_start s' = sp_start c + sp_size c ∧
  (arena_grows a = false → sp_block c = sp_block s ∧ sp_start c = sp_start s).
Proof.
  intros Ha. pose proof (arena_window_ok a Ha) as Hw. unfold arena_read, result, exec.
  set (buf := (arena_window a).1) in *. set (h := (arena_window a).2) in *. clearbody buf h.
  rewrite (win_zero _ _ _ Hw). pose proof (win_len _ _ _ Hw) as Hbl. pose proof (win_grown _ _ _ Hw) as Hg.
  pose proof (stream_recv_len id (window []) (ar_conn a)) as Hlen. unfold result in Hlen.
  set (r := stream_recv _ _ _) in *. destruct r.1.1 as [[len f]|e] eqn:Hr; [|done].
  specialize (Hlen _ _ eq_refl). unfold window in Hlen. rewrite length_resize, N2Nat.id in Hlen.
  destruct (0 <? len) eqn:H0; [|done]. revert Hbl Hlen. generalize MAX_CHUNK. intros M Hbl Hlen.
  simpl. rewrite bm_truncate_shortens, bm_split_to_carves by (simpl; lia). simpl.
  rewrite bm_freeze_slice. simpl. intros [= <- <-]. simpl. split_and!; [done|lia|].
  intros Hf. rewrite Hf in Hg. rewrite Hg. split; [done|lia].
Qed.
End read.

(** ** Runs *)

(** The worker reads, a holder of a chunk lets it go, the transport moves on. *)
Inductive ArenaEv (C : Type) :=
| EvRead (id : N)
| EvRelease (i : nat)
| EvConn (c : C).
Arguments EvRead {C}. Arguments EvRelease {C}. Arguments EvConn {C}.

(** A run of [read] with the answers to its reads. *)
Section runs.
Context {C S A : Type} (read : N → ST S A) (release : nat → S → S) (conn : C → S → S).

Fixpoint run_arena (evs : list (ArenaEv C)) : ST S (list A) :=
  match evs with
  | [] => mret []
  | EvRead id :: evs => o ← read id; os ← run_arena evs; mret (o :: os)
  | EvRelease i :: evs => modify (release i);; run_arena evs
  | EvConn c :: evs => modify (conn c);; run_arena evs
  end.
End runs.

Section refinement.
Context `{Runtime, BytesCrate} {B C : Type} `{!Buf B} `{!QuicConn C, !QuicConnOk C}.

(** Shared memory: chunks are spans, looked up when they arrive. *)
Definition shared_read (id : N) : ST (Arena C) (QResult (option Bytes * bool)) :=
  o ← arena_read id; m ← gets (λ a, h_mem (ar_heap a)); mret (deref m o).
Definition shared_release (i : nat) (a : Arena C) : Arena C :=
  mkArena (ar_buf a) (mkHeap (h_mem (ar_heap a)) (delete i (h_live (ar_heap a)))) (ar_conn a).
Definition shared_conn (c : C) (a : Arena C) : Arena C := mkArena (ar_buf a) (ar_heap a) c.

(** Values: the worker's [read_chunk], and the chunks received so far. *)
Definition copied_read (id : N) : ST (World B C * list Bytes) (QResult (option Bytes * bool)) := λ s,
  let r := read_chunk id s.1 in (r.1, (r.2, s.2 ++ read_bytes r.1)).
Definition copied_release (i : nat) (s : World B C * list Bytes) := (s.1, delete i s.2).
Definition copied_conn (c : C) (s : World B C * list Bytes) :=
  (mkWorld (drv s.1) (sto s.1) c, s.2).

Definition run_shared := run_arena shared_read shared_release shared_conn.
Definition run_copied := run_arena copied_read copied_release copied_conn.

(** The arena's transport and chunks are those of the value model. *)
Record arena_sim (a : Arena C) (s : World B C * list Bytes) : Prop := {
  sim_ok : arena_ok a;
  sim_buf : default [] (recv_buf (drv s.1)) = [];
  sim_conn : ar_conn a = qc s.1;
  sim_held : held_chunks a = s.2;
}.

Lemma read_chunk_value id (w : World B C) :
  default [] (recv_buf (drv w)) = [] →
  let r := stream_recv id (window []) (qc w) in
  let w' := exec (read_chunk id) w in
  result (read_chunk id) w = value_read r.1 ∧ qc w' = r.2 ∧ default [] (recv_buf (drv w')) = [].
Proof.
  intros Hb r w'. subst w'. unfold read_chunk. rewrite exec_bind, result_bind, exec_dget, result_dget, Hb.
  rewrite exec_bind, result_bind.
  change (result (call (stream_recv id (window []))) w) with r.1.
  change (exec (call (stream_recv id (window []))) w) with (mkWorld (drv w) (sto w) r.2).
  clearbody r. unfold value_read. destruct r.1.1 as [[len fin]|e]; [destruct (0 <? len)|]; simpl; [|done..].
  split_and!; [by rewrite take_take, Nat.min_id|done|]. apply drop_ge. rewrite length_take. lia.
Qed.

Lemma arena_sim_read id a s :
  arena_sim a s →
  result (shared_read id) a = result (copied_read id) s ∧
  arena_sim (exec (shared_read id) a) (exec (copied_read id) s).
Proof.
  intros [Ha Hb Hc Hh]. destruct (arena_read_spec id a Ha) as (Ha'&Hc'&Ho&Hh'&_).
  destruct (read_chunk_value id s.1 Hb) as (Hr&Hq&Hb'). rewrite Hc in Hc', Ho, Hh'.
  change (result (copied_read id) s) with (result (read_chunk id) s.1).
  change (exec (copied_read id) s) with
    (exec (read_chunk id) s.1, s.2 ++ read_bytes (result (read_chunk id) s.1)).
  change (exec (shared_read id) a) with (exec (arena_read id) a).
  change (result (shared_read id) a) with
    (deref (h_mem (ar_heap (exec (arena_read id) a))) (result (arena_read id) a)).
  rewrite Hr, Ho. split; [done|]. split; [done|exact Hb'|exact (eq_trans Hc' (eq_sym Hq))|].
  rewrite Hh', Hh. reflexivity.
Qed.

Lemma arena_sim_run evs a s :
  arena_sim a s →
  result (run_shared evs) a = result (run_copied evs) s ∧
  arena_sim (exec (run_shared evs) a) (exec (run_copied evs) s).
Proof.
  revert a s. induction evs as [|[id|i|c] evs IH]; intros a s Hs; [done|..];
    unfold run_shared, run_copied; simpl; rewrite !exec_bind, !result_bind.
  - destruct (arena_sim_read id a s Hs) as [-> Hs'].
    destruct (IH _ _ Hs') as [Hr Hx].
    by split; [apply (f_equal (cons _)), Hr|].
  - apply IH. destruct Hs as [[Hl Hu] Hb Hc Hh]. split; [split| | |]; simpl; [done| |done..|].
    + intros t Ht. apply Hu. simpl in Ht. by eapply list_elem_of_delete_inv.
    + unfold held_chunks. simpl. by rewrite list_fmap_delete, <-Hh.
  - apply IH. by destruct Hs as [[Hl Hu] Hb _ Hh]; split; [split| | |].
Qed.

Definition arena_start (h : Heap) (c : C) : Arena C := mkArena None h c.

Lemma arena_start_ok h c : h_live h = [] → arena_ok (arena_start h c).
Proof.
  intros Hl. split; simpl; [apply bm_new_empty|]. rewrite Hl. by intros ? ?%not_elem_of_nil.
Qed.

(** C17.  Handing out shared slices of the receive arena instead of copies
    cannot be observed: in any sequence of reads, releases of chunks and transport
    activity, every read answers what the worker's read by value answers, and at
    any moment the chunks still held contain exactly the bytes they were delivered
    with, however often the buffer was refilled, moved or taken back since; and
    the buffer is empty between reads. *)
Theorem sharing_is_unobservable evs h (w : World B C) :
  h_live h = [] → recv_buf (drv w) = None →
  let a := exec (run_shared evs) (arena_start h (qc w)) in
  let s := exec (run_copied evs) (w, []) in
  result (run_shared evs) (arena_start h (qc w)) = result (run_copied evs) (w, []) ∧
  held_chunks a = s.2 ∧ ar_conn a = qc s.1 ∧ bm_len (arena_buf a) = 0.
Proof.
  intros Hl Hb. destruct (arena_sim_run evs (arena_start h (qc w)) (w, [])) as [Hr [[Hc _] _ Hq Hh]]; [|done].
  split; [by apply arena_start_ok|simpl; by rewrite Hb|done|]. unfold held_chunks. simpl. by rewrite Hl.
Qed.

(** ** Allocation *)

(** How many reads of a run reserve memory. *)
Fixpoint reserves (evs : list (ArenaEv C)) (a : Arena C) : N :=
  match evs with
  | [] => 0
  | ev :: evs =>
      (match ev with EvRead _ => if arena_grows a then 1 else 0 | _ => 0 end) +
      reserves evs (exec (run_shared [ev]) a)
  end.

Lemma reserves_bounded evs (a : Arena C) :
  arena_ok a →
  reserves evs a * (RECV_ARENA - MAX_CHUNK) ≤
  bytes_total (result (run_shared evs) a ≫= read_bytes) +
  N.min (RECV_ARENA - MAX_CHUNK) (RECV_ARENA - bm_capacity (arena_buf a)).
Proof.
  revert a. induction evs as [|[id|i|c] evs IH]; intros a Ha; [simpl; lia|..].
  2: apply (IH (shared_release i a)).
  3: apply (IH (shared_conn c a)).
  2,3: destruct Ha as [Hl Hu]; split; simpl; eauto using list_elem_of_delete_inv.
  destruct (arena_read_spec id a Ha) as (Ha'&_&Ho&_&Hcap).
  pose proof (arena_window_ok a Ha) as [_ Hwin Hg _ _ _ _].
  change (exec (run_shared [EvRead id]) a) with (exec (arena_read id) a).
  assert (bytes_total (result (run_shared (EvRead id :: evs)) a ≫= read_bytes) =
    bytes_total (read_bytes (value_read (stream_recv id (window []) (ar_conn a)).1)) +
    bytes_total (result (run_shared evs) (exec (arena_read id) a) ≫= read_bytes)) as Hd.
  { unfold bytes_total. rewrite <-Ho, <-Nat2N.inj_add, <-length_app, <-concat_app. done. }
  specialize (IH _ Ha'). simpl reserves. change (exec (run_shared [EvRead id]) a) with (exec (arena_read id) a).
  rewrite Hd. clear Hd Ho Ha Ha'. unfold arena_grows in *.
  set (x := bytes_total _) in *. set (y := bytes_total _) in *. set (n := reserves _ _) in *.
  assert (RECV_ARENA = 8 * MAX_CHUNK) as HR by done. revert Hwin Hg Hcap IH HR.
  generalize RECV_ARENA MAX_CHUNK. intros R M Hwin Hg Hcap IH HR. subst R.
  destruct (_ <? M) eqn:Hlt.
  - apply N.ltb_lt in Hlt. nia.
  - apply N.ltb_ge in Hlt. unfold bm_capacity in *. rewrite Hg in *. nia.
Qed.

(** C29.  Allocation is amortised: from a fresh arena, whatever is read and
    whoever still holds chunks, memory is reserved at most once per
    [RECV_ARENA - MAX_CHUNK] bytes delivered, and once more. *)
Theorem allocation_is_amortised evs h (c : C) :
  h_live h = [] →
  let a := arena_start h c in
  reserves evs a * (RECV_ARENA - MAX_CHUNK) ≤
  bytes_total (result (run_shared evs) a ≫= read_bytes) + (RECV_ARENA - MAX_CHUNK).
Proof.
  intros Hl a. pose proof (reserves_bounded evs a (arena_start_ok h c Hl)) as Hb.
  etrans; [exact Hb|]. apply N.add_le_mono_l, N.le_min_l.
Qed.
End refinement.

(** ** A reference instance

    Every reservation moves the buffer to a block of its own. *)

Definition fresh_block (b : BytesMut) (h : Heap) : N :=
  foldr N.max (sp_block (bm_span b)) (sp_block <$> h_live h) + 1.

Lemma fresh_block_fresh b h s : s ∈ h_live h → sp_block s < fresh_block b h.
Proof.
  unfold fresh_block. induction (h_live h) as [|t l IH]; [by intros ?%not_elem_of_nil|].
  csimpl. intros [->|?%IH]%elem_of_cons; lia.
Qed.

#[refine] Instance ref_bytes : BytesCrate := {
  bm_new := mkBytesMut (mkSpan 0 0 0) 0;
  bm_reserve n b h :=
    let s := mkSpan (fresh_block b h) 0 (bm_len b + n) in
    (mkBytesMut s (bm_len b),
     mkHeap (store (h_mem h) (mkSpan (fresh_block b h) 0 (bm_len b)) (load (h_mem h) (bm_slice b 0 (bm_len b))))
       (h_live h));
  bm_resize n v b h :=
    let s := bm_slice b (bm_len b) n in
    (mkBytesMut (bm_span b) n,
     mkHeap (λ x o, if decide (inside s x o) then v else h_mem h x o) (h_live h));
  bm_truncate n b := mkBytesMut (bm_span b) (N.min n (bm_len b));
  bm_split_to n b := (mkBytesMut (bm_slice b 0 n) n,
                      mkBytesMut (bm_slice b n (bm_capacity b)) (bm_len b - n));
  bm_freeze b := bm_slice b 0 (bm_len b);
}.
Proof.
  all: try done.
  - intros n b h s Hs. apply load_apart. intros x o Hi Hj.
    pose proof (fresh_block_fresh b h s Hs). unfold inside in *. simpl in *. lia.
  - intros n b h s _ Hs x o Hi Hj.
    pose proof (fresh_block_fresh b h s Hs). unfold inside in *. simpl in *. lia.
  - intros n b Hn. by rewrite N.min_l.
Defined.
