(* ===== verification/TestKit.v ===== *)
(** * Running the crate's unit tests on the model

    The unit tests of the crate drive the real code over the scripted mock
    connection and assert what they see.  Here the same scripts drive the model:
    a test is a computation that may fail, an assertion is a point of failure,
    and a test passes when it runs to its end.  This file holds the test monad and
    the fixtures of the test modules; the suites are in the files named [*Tests]. *)

From S2P Require Import Prelude Interfaces Reference Error Buffer Conn DriverTypes DriverStore DriverCore DriverRecv DriverSend Driver.

From Stdlib Require Strings.String.

#[export] Instance ref_runtime : Runtime := {}.

Abbreviation W := (World Segments MockConn).

Definition str (s : string) : Bytes := String.list_byte_of_string s.

(** ** Tests *)

Definition TestS (S A : Type) : Type := S → option (A * S).
#[export] Instance TestS_ret {S} : MRet (TestS S) := λ A a s, Some (a, s).
#[export] Instance TestS_bind {S} : MBind (TestS S) := λ A B k m s,
  match m s with Some r => k r.1 r.2 | None => None end.

Section tests.
Context {S : Type}.
Abbreviation T := (TestS S).

(** Run a piece of the program. *)
Definition act {A} (m : ST S A) : T A := λ s, Some (m s).
Definition look {A} (f : S → A) : T A := λ s, Some (f s, s).
(** [assert!], on a value and on the state; [expect] and [unwrap]. *)
Definition assert (b : bool) : T unit := λ s, if b then Some (tt, s) else None.
Definition check (f : S → bool) : T unit := λ s, if f s then Some (tt, s) else None.
Definition expect {A} (o : option A) : T A := λ s, a ← o; Some (a, s).
(** A computation that answers a [Result], with [expect] on it. *)
Definition act_ok {E} (m : ST S (Result unit E)) : T unit :=
  r ← act m; assert (match r with Ok _ => true | Err _ => false end).

Fixpoint each {A} (l : list A) (f : A → T unit) : T unit :=
  match l with [] => mret tt | a :: l => f a;; each l f end.

Definition passes (s : S) (t : T unit) : bool := bool_decide (is_Some (t s)).
End tests.

(** [a..a + n] *)
Definition seqN (a : N) (n : nat) : list N := (λ i, a + N.of_nat i) <$> seq 0 n.

(** The tests of a worker and its front end. *)
Abbreviation Test := (TestS W).

(** Script the connection. *)
Definition script (f : MockConn → MockConn) : Test unit := act (modify (λ w, w <| qc ::= f |>)).
Definition conn {A} (f : MockConn → A) : Test A := look (λ w, f (qc w)).

(** ** The fixtures of the driver's tests *)

(** [driver()] with the connection the tests give it. *)
Definition start (c : MockConn) : W := driver_new false 4 4 c.
Definition driver : W := start mock.new.
(** [QuicheDriver::new] and [with_buffers], on a fresh connection. *)
Definition new_driver (srv : bool) (bidi uni : N) : W := driver_new srv bidi uni mock.new.
Definition driver_with (buffers : DriverBufferConfig) : W := with_buffers false 4 4 buffers mock.new.

Definition data (bytes : string) (fin : bool) : RecvStep := RecvData (str bytes) fin.

Section push.
Context {C : Type}.
Abbreviation M := (ST (World Segments C)).

Definition push_cmd (cmd : DriverCommand Segments) : M unit :=
  dmod (λ d, d <| inbox ::= λ q, q ++ [cmd] |>).

Record SendProbe := mkSendProbe { probe_cell : loc; probe_generation : N }.

(** Begin a generation on a write cell, reserve the bytes and put the [Send]
    into the inbox. *)
Definition push_send_on (cell : loc) (id : N) (payload : Segments) : M SendProbe :=
  generation ← shared (at_loc write_cells cell 0 wc_begin);
  permit ← shared (λ s, let r := sa_try_reserve (buf_remaining payload) (send_accounting s) in
                        (r.1, s <| send_accounting := r.2 |>));
  push_cmd (Send id payload (wc_completer cell generation) permit);;
  mret (mkSendProbe cell generation).

Definition new_cell : M loc := shared (alloc write_cells wc_new).
Definition push_send (id : N) (payload : Segments) : M SendProbe :=
  cell ← new_cell; push_send_on cell id payload.

Definition push_finish (id : N) : M loc :=
  done ← shared (alloc finish_replies os_new);
  push_cmd (Finish id done);;
  mret done.
Definition push_open_bidi : M loc :=
  reply ← shared (alloc bidi_replies os_new);
  push_cmd (OpenBidi reply);;
  mret reply.
Definition push_open_uni : M loc :=
  reply ← shared (alloc uni_replies os_new);
  push_cmd (OpenUni reply);;
  mret reply.
End push.

(** [wbuf]: a buffer of two segments, a frame header and the payload.  h3 encodes
    a DATA frame as its type and the length of the payload, one byte each for the
    payloads of the tests. *)
Definition frame_header (payload : Bytes) : Bytes :=
  [x00; default x00 (Byte.of_N (N.of_nat (length payload)))].
Definition wbuf (payload : string) : Segments := [frame_header (str payload); str payload].
Definition wbuf_len (payload : string) : N := buf_remaining (wbuf payload).

Definition sent_len (c : MockConn) (id : N) : N :=
  foldr N.add 0 ((λ e, if e.1.1 =? id then N.of_nat (length e.1.2) else 0) <$> sent c).
Definition sent_fin (c : MockConn) (id : N) : bool := existsb (λ e, (e.1.1 =? id) && e.2) (sent c).

(** [SendProbe::state] consumes the outcome once it is there. *)
Inductive ProbeState := ProbePending | ProbeOk | ProbeErr (e : SendEnd) | ProbeCancelled.
#[export] Instance ProbeState_eq_dec : EqDecision ProbeState.
Proof. solve_decision. Defined.
Definition probe_state (p : SendProbe) : Test ProbeState :=
  r ← act (shared (at_loc write_cells (probe_cell p) Pending (wc_take (probe_generation p))));
  mret (match r with
        | Pending => ProbePending
        | Ready (WriteDone (Ok _)) => ProbeOk
        | Ready (WriteDone (Err e)) => ProbeErr e
        | Ready WriteCancelled => ProbeCancelled
        end).
Definition probe_is (p : SendProbe) (s : ProbeState) : Test unit :=
  r ← probe_state p; assert (bool_decide (r = s)).

Definition conn_err (is_app : bool) (code : N) (reason : string) : quiche.ConnectionError :=
  quiche.mkConnectionError is_app code (str reason).

(** ** Looking at shared objects *)

(** [Receiver::try_recv] of the accept queues and of a byte channel. *)
Definition received {A} (r : TryRecv A) : option A := match r with Received a => Some a | _ => None end.
Definition accept_bidi_try_recv : Test (option BidiHandoff) :=
  r ← act (shared (λ s, let r := chan_try_recv (accept_bidi_chan s) in (r.1, s <| accept_bidi_chan := r.2 |>)));
  mret (received r).
Definition bytes_try_recv (a : loc) : Test (option Bytes) :=
  r ← act (shared (at_loc byte_chans a TryDisconnected chan_try_recv));
  mret (received r).
Definition accept_bidi : Test BidiHandoff := o ← accept_bidi_try_recv; expect o.
Definition no_more_accepts : Test unit := o ← accept_bidi_try_recv; assert (bool_decide (¬ is_Some o)).
Definition receives (a : loc) (b : string) : Test unit :=
  o ← bytes_try_recv a; assert (bool_decide (o = Some (str b))).
Definition receives_nothing (a : loc) : Test unit := o ← bytes_try_recv a; assert (bool_decide (o = None)).

(** [TerminalCell::get]. *)
Definition recv_end (a : loc) (w : W) : option RecvEnd := recv_cells (sto w) !! a ≫= tc_get.
Definition send_end (a : loc) (w : W) : option SendEnd := send_cells (sto w) !! a ≫= tc_get.
Definition recv_end_is (a : loc) (e : option RecvEnd) : Test unit := check (λ w, bool_decide (recv_end a w = e)).
Definition send_end_is (a : loc) (e : option SendEnd) : Test unit := check (λ w, bool_decide (send_end a w = e)).
Definition conn_end_is (t : ConnTerminal) : Test unit :=
  check (λ w, bool_decide (tc_get (conn_terminal (sto w)) = Some t)).

(** [oneshot::Receiver::try_recv]: a value, or empty, or closed. *)
Definition one_try_recv {A} (o : oneshot A) : TryRecv A * oneshot A :=
  let r := os_poll 0%nat o in
  (match r.1 with Ready (Some a) => Received a | Ready None => TryDisconnected | Pending => TryEmpty end, r.2).
Definition finish_try_recv (a : loc) : Test (TryRecv (Result unit SendEnd)) :=
  act (shared (at_loc finish_replies a TryDisconnected one_try_recv)).
Definition finish_is_ok (a : loc) : Test unit :=
  r ← finish_try_recv a; assert (match r with Received (Ok _) => true | _ => false end).
Definition bidi_try_recv (a : loc) : Test (TryRecv (Result BidiHandoff ConnTerminal)) :=
  act (shared (at_loc bidi_replies a TryDisconnected one_try_recv)).
Definition uni_try_recv (a : loc) : Test (TryRecv (Result SendHandoff ConnTerminal)) :=
  act (shared (at_loc uni_replies a TryDisconnected one_try_recv)).

(** ** Registering by hand *)

(** [mpsc::channel::<Bytes>(BYTE_CHANNEL_DEPTH)], a fresh cell and two flags:
    the objects of a hand-made [StreamRecvState]. *)
Definition byte_channel : Test loc :=
  act (shared (alloc byte_chans (chan_new (Some (N.to_nat BYTE_CHANNEL_DEPTH))))).
Definition new_flag (b : bool) : Test loc := act (shared (alloc flags b)).
Definition new_recv_cell : Test loc := act (shared (alloc recv_cells tc_new)).
Definition new_recv_state (blocked : bool) : Test StreamRecvState :=
  tx ← byte_channel; terminal ← new_recv_cell; resume ← new_flag false; b ← new_flag blocked;
  mret (mkStreamRecvState tx terminal resume b).
Definition register_recv (id : N) (s : StreamRecvState) : Test unit :=
  act (dmod (λ d, d <| DriverTypes.recv ::= <[id := s]> |>)).
Definition register_admit (id : N) (a : AdmitState) : Test unit :=
  act (dmod (λ d, d <| admission ::= <[id := a]> |>)).
Definition register_send (id : N) : Test unit :=
  c ← act (shared (alloc send_cells tc_new));
  act (dmod (λ d, d <| DriverTypes.send ::= <[id := send_state_new c]> |>)).
(** [d.pending_readable.push_back(id); d.readable_set.insert(id);] *)
Definition queue_read (id : N) : Test unit :=
  act (dmod (λ d, d <| pending_readable ::= λ q, q ++ [id] |> <| readable_set ::= ({[id]} ∪.) |>)).
Definition queue_admit (p : PeerStream) : Test unit :=
  act (dmod (λ d, d <| pending_admit ::= <[ps_id p := p]> |>);; push_pending_admit (ps_id p)).
(** Fill a byte channel with [n] one-byte chunks. *)
Definition fill (a : loc) (n : nat) : Test unit :=
  each (replicate n tt) (λ _,
    r ← act (shared (bytes_try_reserve a)); assert (bool_decide (r = Reserved));;
    act (shared (bytes_permit_send a (str "x")))).
(** [d.read_budget = n; d.run_read_pump(&mut c);] *)
Definition pump_with (n : N) : Test unit := act (dmod (λ d, d <| read_budget := n |>);; run_read_pump).
Definition pump : Test unit := pump_with READ_BUDGET.

(** ** Predicates on the state *)

Definition is_registered (id : N) (w : W) : bool :=
  match admission (drv w) !! id with Some (Registered _ _) => true | _ => false end.
Definition is_parked (id : N) (w : W) : bool :=
  match admission (drv w) !! id with Some (Parked _) => true | _ => false end.
Definition has_admit (id : N) (w : W) : bool := bool_decide (is_Some (admission (drv w) !! id)).
Definition has_recv (id : N) (w : W) : bool := bool_decide (is_Some (DriverTypes.recv (drv w) !! id)).
Definition has_send (id : N) (w : W) : bool := bool_decide (is_Some (DriverTypes.send (drv w) !! id)).
Definition ops_of (id : N) (w : W) : list (SendOp Segments) := from_option send_ops [] (DriverTypes.send (drv w) !! id).
Definition resident (w : W) : N := sa_resident (send_accounting (sto w)).
Definition runnable (id : N) (w : W) : bool := bool_decide (id ∈ runnable_send_set (drv w)).
Definition no_ops (id : N) (w : W) : bool := match ops_of id w with [] => true | _ => false end.

#[export] Instance WaitDecision_eq_dec : EqDecision WaitDecision.
Proof. solve_decision. Defined.
#[export] Instance ShutdownCall_eq_dec : EqDecision ShutdownCall.
Proof. solve_decision. Defined.
Definition decides (x : WaitDecision) : Test unit := check (λ w, bool_decide (wait_decision (drv w) = x)).
