(* ===== verification/DriverReadTests.v ===== *)
(** * The driver's unit tests: waiting, reading, admission

    driver.rs, module [tests], up to the send state machine.  Three tests are left
    out: they assert the addresses of the receive arena or count registry
    look-ups, neither of which the model has. *)

From S2P Require Import Prelude Interfaces Reference Error Buffer Conn DriverTypes DriverStore DriverCore DriverRecv DriverSend Driver TestKit.

(** ** Waiting and construction *)

Definition wait_decision_idle_awaits_commands : bool := passes driver (decides WaitRecv).

Definition wait_decision_yields_when_inbox_nonempty : bool := passes driver (
  act (push_cmd AcceptBidiResume);;
  decides WaitYield).

Definition wait_decision_yields_when_needs_iteration : bool := passes driver (
  act (dmod (λ d, d <| needs_iteration := true |>));;
  decides WaitYield).

Definition wait_decision_pending_after_graceful_close : bool := passes driver (
  act (dmod (λ d, d <| needs_iteration := true |> <| graceful_close_issued := true |>));;
  decides WaitPending).

Definition should_act_false_until_established : bool := passes driver (
  check (λ w, negb (should_act (drv w)))).

Definition sf4_default_buffer_size_unchanged : bool := passes (new_driver false 4 4) (
  check (λ w, recv_channel_depth (drv w) =? BYTE_CHANNEL_DEPTH)).

(** [build_recv] for stream 0, then the capacity of its byte channel. *)
Definition built_capacity : Test (option nat) :=
  act (shared cmd_clone_tx);;
  r ← act (build_recv 0 None);
  state ← expect r.1.1;
  ch ← look (λ w, byte_chans (sto w) !! rs_bytes state);
  ch ← expect ch;
  mret (cs_cap (chan_view ch)).

Definition sf4_buffer_override_takes_effect : bool :=
  passes (driver_with (mkDriverBufferConfig 8 None)) (
    check (λ w, recv_channel_depth (drv w) =? 8);;
    cap ← built_capacity;
    assert (bool_decide (cap = Some 8%nat))).

Definition sf4_zero_size_clamped_to_one : bool :=
  passes (driver_with (mkDriverBufferConfig 0 None)) (
    cap ← built_capacity;
    assert (bool_decide (cap = Some 1%nat))).

Definition dropping_driver_before_handshake_reports_setup_failure : bool := passes driver (
  act driver_drop;;
  check (λ w, match (one_try_recv (established_reply (sto w))).1 with
              | Received (Err PreHandshakeWorkerExit) => true
              | _ => false
              end)).

Definition last_strong_sender_drop_closes_cmd_rx : bool := passes driver (
  up ← act (shared cmd_upgrade);
  assert up;;
  act (shared cmd_drop_tx);;                      (* the upgraded sender *)
  act (shared cmd_drop_tx);;                      (* drop(h) *)
  up ← act (shared cmd_upgrade);
  assert (negb up);;
  r ← act (shared cmd_try_recv);
  assert (bool_decide (¬ is_Some (received r)))).

(** ** The read pump *)

Definition buffered_bytes_then_fin_delivers_then_seals : bool := passes driver (
  script (mock.script_recv 0 [data "hello" true]);;
  script (mock.queue_readable [0]);;
  pump;;
  ho ← accept_bidi;
  assert (rh_id (bh_recv ho) =? 0);;
  receives (rh_bytes (bh_recv ho)) "hello";;
  recv_end_is (rh_terminal (bh_recv ho)) (Some RecvFin);;
  receives_nothing (rh_bytes (bh_recv ho));;
  no_more_accepts).

Definition sf1_multi_chunk_drain_no_aliasing_corruption : bool := passes driver (
  script (mock.script_recv 0 [data "AAAA" false; data "BBBB" true]);;
  script (mock.queue_readable [0]);;
  pump;;
  ho ← accept_bidi;
  c1 ← bytes_try_recv (rh_bytes (bh_recv ho));
  c2 ← bytes_try_recv (rh_bytes (bh_recv ho));
  assert (bool_decide (c1 = Some (str "AAAA")));;
  assert (bool_decide (c2 = Some (str "BBBB")));;
  recv_end_is (rh_terminal (bh_recv ho)) (Some RecvFin)).

Definition sf5_recv_buffer_lazily_allocated : bool := passes driver (
  check (λ w, bool_decide (¬ is_Some (recv_buf (drv w))));;
  script (mock.script_recv 0 [data "x" true]);;
  script (mock.queue_readable [0]);;
  pump;;
  accept_bidi;;
  check (λ w, bool_decide (is_Some (recv_buf (drv w))))).

Definition queued_bytes_then_reset_delivers_then_seals : bool := passes driver (
  script (mock.script_recv 0 [data "data" false; RecvErr (quiche.StreamReset 7)]);;
  script (mock.queue_readable [0]);;
  pump;;
  ho ← accept_bidi;
  receives (rh_bytes (bh_recv ho)) "data";;
  recv_end_is (rh_terminal (bh_recv ho)) (Some (RecvReset 7));;
  receives_nothing (rh_bytes (bh_recv ho))).

Definition reserve_before_read_full_channel_then_resume : bool := passes driver (
  s ← new_recv_state false;
  fill (rs_bytes s) (N.to_nat BYTE_CHANNEL_DEPTH);;
  register_recv 0 s;;
  register_admit 0 (Registered false false);;
  queue_read 0;;
  script (mock.script_recv 0 [data "late" true]);;
  pump;;
  calls ← conn recv_calls;
  assert (bool_decide (calls = []));;
  check (λ w, from_option (λ s, default false (flags (sto w) !! rs_blocked s)) false (recv (drv w) !! 0));;
  each (replicate (N.to_nat BYTE_CHANNEL_DEPTH) tt) (λ _, receives (rs_bytes s) "x");;
  act (push_cmd (RecvResume 0));;
  act apply_inbox;;
  pump;;
  calls ← conn recv_calls;
  assert (bool_decide (calls = [0]));;
  receives (rs_bytes s) "late";;
  recv_end_is (rs_terminal s) (Some RecvFin)).

Definition sf2_worker_recheck_does_not_park_with_free_slot : bool := passes driver (
  s ← new_recv_state true;
  register_recv 0 s;;
  register_admit 0 (Registered false false);;
  queue_read 0;;
  script (mock.script_recv 0 [data "ok" true]);;
  pump;;
  calls ← conn recv_calls;
  assert (bool_decide (calls = [0]));;
  receives (rs_bytes s) "ok";;
  recv_end_is (rs_terminal s) (Some RecvFin)).

Definition sf2_worker_publishes_blocked_on_full_channel : bool := passes driver (
  s ← new_recv_state false;
  fill (rs_bytes s) (N.to_nat BYTE_CHANNEL_DEPTH);;
  register_recv 0 s;;
  register_admit 0 (Registered false false);;
  queue_read 0;;
  script (mock.script_recv 0 [data "late" true]);;
  pump;;
  calls ← conn recv_calls;
  assert (bool_decide (calls = []));;
  check (λ w, default false (flags (sto w) !! rs_blocked s))).

(** ** Admission *)

Definition destructive_intake_admits_new_peer_once : bool := passes driver (
  script (mock.script_recv 0 [data "hi" false]);;
  script (mock.queue_readable [0]);;
  pump;;
  ho ← accept_bidi;
  receives (rh_bytes (bh_recv ho)) "hi";;
  check (is_registered 0);;
  pump;;
  no_more_accepts).

Definition parked_stream_single_admit_then_promote : bool := passes (new_driver false 1 1) (
  script (mock.script_recv 0 [data "a" false]);;
  script (mock.script_recv 4 [data "b" false]);;
  script (mock.queue_readable [0; 4]);;
  pump;;
  check (λ w, bool_decide (parked_bidi (drv w) = [4]));;
  check (is_parked 4);;
  check (is_registered 0);;
  ho0 ← accept_bidi;
  assert (rh_id (bh_recv ho0) =? 0);;
  act (push_cmd AcceptBidiResume);;
  act apply_inbox;;
  pump;;
  ho4 ← accept_bidi;
  assert (rh_id (bh_recv ho4) =? 4);;
  check (λ w, bool_decide (parked_bidi (drv w) = []));;
  check (is_registered 4);;
  no_more_accepts).

(** [phase2_pops]: the ids one admission pass takes off the queues. *)
Definition phase2_pops : Test nat :=
  before ← look (λ w, length (pending_admit_bidi (drv w)) + length (pending_admit_uni (drv w)))%nat;
  act phase2_admission;;
  after ← look (λ w, length (pending_admit_bidi (drv w)) + length (pending_admit_uni (drv w)))%nat;
  mret (before - after)%nat.

Definition mf1_parked_class_bounds_scan_and_quiesces_worker : bool := passes (new_driver false 1 1) (
  queue_admit (peer_stream_new 0);;
  act phase2_admission;;
  check (is_registered 0);;
  each (seqN 1 64) (λ k, assert (is_bidi (k * 4));; queue_admit (peer_stream_new (k * 4)));;
  check (λ w, length (pending_admit_bidi (drv w)) =? 64)%nat;;
  pops ← phase2_pops;
  assert (pops =? 1)%nat;;
  check (λ w, bool_decide (parked_bidi (drv w) = [4]));;
  check (λ w, length (pending_admit_bidi (drv w)) =? 63)%nat;;
  check (λ w, bool_decide (head (pending_admit_bidi (drv w)) = Some 8));;
  check (λ w, negb (has_runnable_remainder w));;
  pops ← phase2_pops;
  assert (pops =? 1)%nat;;
  check (λ w, negb (has_runnable_remainder w));;
  act (shared (modify (λ s, s <| accept_bidi_resume := true |>)));;
  check has_runnable_remainder).

Definition mf1_parked_class_resumes_in_fifo_order : bool := passes (new_driver false 1 1) (
  each [0; 4; 8] (λ id, queue_admit (peer_stream_new id));;
  act phase2_admission;;
  check (is_registered 0);;
  check (λ w, bool_decide (head (parked_bidi (drv w)) = Some 4));;
  check (λ w, bool_decide (head (pending_admit_bidi (drv w)) = Some 8));;
  ho0 ← accept_bidi;
  assert (rh_id (bh_recv ho0) =? 0);;
  act (shared (modify (λ s, s <| accept_bidi_resume := true |>)));;
  act (promote_parked true);;
  ho4 ← accept_bidi;
  assert (rh_id (bh_recv ho4) =? 4);;
  check (is_registered 4);;
  check (λ w, bool_decide (head (pending_admit_bidi (drv w)) = Some 8))).

Definition mf1_blocked_class_does_not_starve_other_class : bool := passes (new_driver false 1 16) (
  queue_admit (peer_stream_new 0);;
  act phase2_admission;;
  check (is_registered 0);;
  each (seqN 1 32) (λ k, queue_admit (peer_stream_new (k * 4)));;
  assert (negb (is_bidi 2));;
  queue_admit (peer_stream_new 2);;
  act phase2_admission;;
  check (is_registered 2);;
  check (λ w, bool_decide (pending_admit_uni (drv w) = []));;
  check (λ w, length (parked_bidi (drv w)) =? 1)%nat).

Definition mf1_fresh_never_parked_class_reports_runnable : bool :=
  passes driver (
    check (λ w, negb (has_runnable_remainder w));;
    queue_admit (peer_stream_new 0);;
    check (λ w, bool_decide (parked_bidi (drv w) = []));;
    check (λ w, negb (accept_bidi_resume (sto w)));;
    check has_runnable_remainder) &&
  passes driver (
    queue_admit (peer_stream_new 2);;
    check has_runnable_remainder).

Definition mf1_cross_class_fair_servicing : bool := passes (new_driver false 128 128) (
  each (seqN 0 40) (λ k, queue_admit (peer_stream_new (k * 4));; queue_admit (peer_stream_new (k * 4 + 2)));;
  act phase2_admission;;
  bidi ← look (λ w, 40 - length (pending_admit_bidi (drv w)))%nat;
  uni ← look (λ w, 40 - length (pending_admit_uni (drv w)))%nat;
  assert (bidi + uni =? ADMIT_BUDGET)%nat;;
  assert (bidi =? Nat.div ADMIT_BUDGET 2)%nat;;
  assert (uni =? Nat.div ADMIT_BUDGET 2)%nat).

Definition tombstone_contract_a_removes_bidi_at_both_terminal : bool := passes driver (
  script (mock.script_recv 0 [data "x" true]);;
  queue_admit (mkPeerStream 0 (Some (SendStopped 9)) None);;
  pump;;
  ho ← accept_bidi;
  receives (rh_bytes (bh_recv ho)) "x";;
  recv_end_is (rh_terminal (bh_recv ho)) (Some RecvFin);;
  send_end_is (sh_status (bh_send ho)) (Some (SendStopped 9));;
  check (λ w, negb (has_admit 0 w) && negb (has_recv 0 w));;
  check (λ w, bool_decide (¬ is_Some (pending_admit (drv w) !! 0)));;
  check (λ w, bool_decide (0 ∉ readable_set (drv w)));;
  pump;;
  no_more_accepts).

Definition writable_path_captures_peer_stop_sending : bool := passes driver (
  script (λ c, c <| writable_next ::= λ q, q ++ [0] |>);;
  script (λ c, c <| capacity ::= <[0 := Err (quiche.StreamStopped 66)]> |>);;
  act stage_writable;;
  pump;;
  ho ← accept_bidi;
  assert (rh_id (bh_recv ho) =? 0);;
  check (λ w, match admission (drv w) !! 0 with Some (Registered true _) => true | _ => false end);;
  send_end_is (sh_status (bh_send ho)) (Some (SendStopped 66))).

(** ** Budgets *)

Definition read_budget_boundary_requeues_with_membership : bool := passes driver (
  s ← new_recv_state false;
  register_recv 0 s;;
  register_admit 0 (Registered false false);;
  queue_read 0;;
  script (mock.script_recv 0 [data "a" false; data "b" false; data "c" false; data "d" false; data "e" false]);;
  pump_with 3;;
  calls ← conn recv_calls;
  assert (length calls =? 3)%nat;;
  check (λ w, needs_iteration (drv w));;
  check (λ w, bool_decide (0 ∈ readable_set (drv w)));;
  check (λ w, bool_decide (pending_readable (drv w) = [0]));;
  each ["a"; "b"; "c"]%string (receives (rs_bytes s));;
  receives_nothing (rs_bytes s)).

Definition needs_iteration_survives_full_packet_iteration : bool := passes driver (
  s ← new_recv_state false;
  register_recv 0 s;;
  register_admit 0 (Registered true false);;
  queue_read 0;;
  script (mock.script_recv 0 ((λ i, RecvData [default x00 (Byte.of_N (97 + N.modulo i 26))] false) <$> seqN 0 40));;
  act do_process_reads;;
  check (λ w, needs_iteration (drv w));;
  act_ok do_process_writes;;
  check (λ w, needs_iteration (drv w))).

(** ** The suite *)

Definition driver_read_tests : list bool :=
  [ wait_decision_idle_awaits_commands; wait_decision_yields_when_inbox_nonempty;
    wait_decision_yields_when_needs_iteration; wait_decision_pending_after_graceful_close;
    should_act_false_until_established; sf4_default_buffer_size_unchanged;
    sf4_buffer_override_takes_effect; sf4_zero_size_clamped_to_one;
    dropping_driver_before_handshake_reports_setup_failure; last_strong_sender_drop_closes_cmd_rx;
    buffered_bytes_then_fin_delivers_then_seals; sf1_multi_chunk_drain_no_aliasing_corruption;
    sf5_recv_buffer_lazily_allocated; queued_bytes_then_reset_delivers_then_seals;
    reserve_before_read_full_channel_then_resume; sf2_worker_recheck_does_not_park_with_free_slot;
    sf2_worker_publishes_blocked_on_full_channel; destructive_intake_admits_new_peer_once;
    parked_stream_single_admit_then_promote; mf1_parked_class_bounds_scan_and_quiesces_worker;
    mf1_parked_class_resumes_in_fifo_order; mf1_blocked_class_does_not_starve_other_class;
    mf1_fresh_never_parked_class_reports_runnable; mf1_cross_class_fair_servicing;
    tombstone_contract_a_removes_bidi_at_both_terminal; writable_path_captures_peer_stop_sending;
    read_budget_boundary_requeues_with_membership; needs_iteration_survives_full_packet_iteration ].

(** Every test passes. *)
Theorem driver_read_tests_pass : Forall Is_true driver_read_tests.
Proof. vm_compute. repeat constructor. Qed.
