(* ===== verification/DriverSendTests.v ===== *)
(** * The driver's unit tests: sending

    driver.rs, module [tests], the send state machine.  One test is left out: it
    offers a mebibyte to show that a bulk stream yields its turns. *)

From S2P Require Import Prelude Interfaces Reference Error Buffer Conn DriverTypes DriverStore DriverCore DriverRecv DriverSend Driver TestKit.

(** [stage_writable] and [stage_send] until [total] bytes of stream 0 are out,
    with a writable report before every round; [n] rounds are enough. *)
Fixpoint drain_writable (n : nat) (total : N) : Test unit :=
  match n with
  | O => assert false
  | S n =>
      act stage_writable;;
      act stage_send;;
      c ← conn id;
      if sent_len c 0 =? total then mret tt
      else script (λ c, c <| writable_next ::= λ q, q ++ [0] |>);; drain_writable n total
  end.

Definition partial_write_then_capacity_rearms_one_ok : bool := passes driver (
  let total := wbuf_len "hello world" in
  script (λ c, c <| send_capacity ::= <[0 := 3]> |> <| capacity ::= <[0 := Ok 3]> |>);;
  done ← act (push_send 0 (wbuf "hello world"));
  act apply_inbox;;
  act stage_send;;
  probe_is done ProbePending;;
  rearms ← conn (λ c, snd <$> filter (λ r, r.1 = 0) (rearms c));
  assert (negb (bool_decide (rearms = [])));;
  assert (bool_decide (last rearms = Some REARM_THRESHOLD));;
  after_first ← conn (λ c, sent_len c 0);
  assert ((0 <? after_first) && (after_first <? total));;
  script (λ c, c <| send_capacity ::= delete 0 |>);;
  script (λ c, c <| writable_next ::= λ q, q ++ [0] |>);;
  drain_writable 10 total;;
  n ← conn (λ c, sent_len c 0);
  assert (n =? total);;
  probe_is done ProbeOk).

Definition finish_accepted_at_zero_capacity_completes_once : bool := passes driver (
  script (λ c, c <| send_capacity ::= <[0 := 0]> |>);;
  done ← act (push_finish 0);
  act apply_inbox;;
  act stage_send;;
  check (λ w, sent_fin (qc w) 0);;
  finish_is_ok done;;
  check (λ w, bool_decide (runnable_send (drv w) = []));;
  act stage_send;;
  r ← finish_try_recv done;
  assert (match r with TryDisconnected => true | _ => false end)).

Definition coalesced_write_then_finish_emits_single_fin_frame : bool :=
  passes driver (
    let body_wire := wbuf_len "hi" in
    done ← act (push_send 0 (wbuf "hi"));
    fin ← act (push_finish 0);
    act apply_inbox;;
    act stage_send;;
    c ← conn id;
    assert (negb (existsb (λ e, (e.1.1 =? 0) && bool_decide (e.1.2 = []) && e.2) (sent c)));;
    let fin_frames := filter (λ e, e.1.1 = 0 ∧ e.2 = true) (sent c) in
    assert (length fin_frames =? 1)%nat;;
    assert (forallb (λ e, negb (bool_decide (e.1.2 = []))) fin_frames);;
    assert (sent_len c 0 =? body_wire);;
    probe_is done ProbeOk;;
    finish_is_ok fin;;
    check (λ w, negb (runnable 0 w))) &&
  passes driver (
    lone ← act (push_finish 4);
    act apply_inbox;;
    act stage_send;;
    sent2 ← conn (λ c, filter (λ e, e.1.1 = 4) (sent c));
    assert (match sent2 with [(_, [], true)] => true | _ => false end);;
    finish_is_ok lone).

(** [while d.runnable_send_set.contains(&0) { d.stage_send(&mut c); }], for at
    most [n] rounds. *)
Fixpoint send_while_runnable (n : nat) : Test unit :=
  r ← look (runnable 0);
  if negb r then mret tt
  else match n with
       | O => assert false
       | S n => act stage_send;; send_while_runnable n
       end.

Definition quiescent_held_write_flushes_without_waiting_for_a_following_op : bool := passes driver (
  let body_wire := wbuf_len "ping" in
  done ← act (push_send 0 (wbuf "ping"));
  act apply_inbox;;
  act stage_send;;
  probe_is done ProbeOk;;
  check (λ w, sent_len (qc w) 0 =? 0);;
  check (λ w, has_quiescent_held_write (drv w));;
  act mark_quiescent_held_writes_runnable;;
  send_while_runnable 10;;
  check (λ w, sent_len (qc w) 0 =? body_wire);;
  check (λ w, forallb (λ e, negb (e.1.1 =? 0) || negb e.2) (sent (qc w)));;
  check (λ w, negb (has_quiescent_held_write (drv w)));;
  finish ← act (push_finish 0);
  act apply_inbox;;
  act stage_send;;
  finish_is_ok finish;;
  check (λ w, sent_fin (qc w) 0)).

(** The sticky status of a registered send half. *)
Definition status_is (id : N) (e : option SendEnd) : Test unit :=
  o ← look (λ w, send (drv w) !! id);
  s ← expect o;
  send_end_is (status s) e.
Definition was_shutdown (id : N) (is_write : bool) (code : N) : Test unit :=
  check (λ w, bool_decide (mkShutdownCall id is_write code ∈ shutdowns (qc w))).

Definition reset_preempts_queued_write_keeps_earlier_ok : bool := passes driver (
  done1 ← act (push_send 0 (wbuf "a"));
  act apply_inbox;;
  act stage_send;;
  probe_is done1 ProbeOk;;
  done2 ← act (push_send 0 (wbuf "bcde"));
  act (push_cmd (Reset 0 42));;
  act apply_inbox;;
  probe_is done2 (ProbeErr (SendReset 42));;
  status_is 0 (Some (SendReset 42));;
  act stage_send;;
  was_shutdown 0 true 42).

(** ** Accounting *)

Definition sf6_accounting_reserves_on_admission_releases_on_completion : bool := passes driver (
  check (λ w, resident w =? 0);;
  done ← act (push_send 0 (wbuf "hello"));
  check (λ w, resident w =? wbuf_len "hello");;
  act apply_inbox;;
  act stage_send;;
  probe_is done ProbeOk;;
  check (λ w, resident w =? 0)).

Definition sf6_accounting_released_when_reset_drains_queued_write : bool := passes driver (
  done ← act (push_send 0 (wbuf "abcd"));
  act apply_inbox;;
  check (λ w, resident w =? wbuf_len "abcd");;
  act (push_cmd (Reset 0 7));;
  act apply_inbox;;
  probe_is done (ProbeErr (SendReset 7));;
  check (λ w, resident w =? 0)).

Definition sf3_reused_cell_across_generations_no_cross_bleed : bool := passes driver (
  cell ← act new_cell;
  g ← act (push_send_on cell 0 (wbuf "hello"));
  act apply_inbox;;
  act stage_send;;
  probe_is g ProbeOk;;
  check (λ w, resident w =? 0);;
  probe_is g ProbePending;;
  g1 ← act (push_send_on cell 0 (wbuf "world"));
  check (λ w, from_option wc_generation 0 (write_cells (sto w) !! cell) =? 2);;
  act apply_inbox;;
  check (λ w, resident w =? wbuf_len "world");;
  act (push_cmd (Reset 0 7));;
  act apply_inbox;;
  probe_is g1 (ProbeErr (SendReset 7));;
  probe_is g ProbePending;;
  check (λ w, resident w =? 0)).

(** [try_reserve(n)]: is there a permit?  It is dropped at once. *)
Definition would_reserve (n : N) (w : W) : bool :=
  bool_decide (is_Some (sa_try_reserve n (send_accounting (sto w))).1).

Definition sf6_worker_cap_bounds_admitted_bytes : bool :=
  let cap := wbuf_len "abc" in
  passes (driver_with (mkDriverBufferConfig BYTE_CHANNEL_DEPTH (Some cap))) (
    check (λ w, bool_decide (sa_cap (send_accounting (sto w)) = Some cap));;
    done ← act (push_send 0 (wbuf "abc"));
    check (λ w, resident w =? cap);;
    check (λ w, negb (would_reserve 1 w));;
    act apply_inbox;;
    act stage_send;;
    probe_is done ProbeOk;;
    check (λ w, resident w =? 0);;
    check (would_reserve cap)).

(** ** Terminals *)

Definition reset_emitted_at_zero_capacity : bool := passes driver (
  script (λ c, c <| send_capacity ::= <[0 := 0]> |>);;
  act (push_cmd (Reset 0 7));;
  act apply_inbox;;
  act stage_send;;
  was_shutdown 0 true 7).

Definition accepted_fin_marks_send_done_and_enables_contract_a : bool := passes driver (
  register_admit 0 (Registered false true);;
  register_send 0;;
  fin ← act (push_finish 0);
  act apply_inbox;;
  act stage_send;;
  finish_is_ok fin;;
  check (λ w, negb (has_admit 0 w));;
  check (λ w, negb (has_recv 0 w))).

Definition duplicate_reset_is_idempotent : bool := passes driver (
  act (push_cmd (Reset 0 7));;
  act apply_inbox;;
  act stage_send;;
  act (push_cmd (Reset 0 9));;
  act apply_inbox;;
  act stage_send;;
  resets ← conn (λ c, filter (λ s, sc_is_write s = true) (shutdowns c));
  assert (bool_decide (sc_code <$> resets = [7]))).

Definition deferred_send_after_contract_a_completes_with_sticky_terminal : bool := passes driver (
  register_admit 0 (Registered false true);;
  w1 ← act (push_send 0 (wbuf "aa"));
  script (λ c, c <| capacity ::= <[0 := Err (quiche.StreamStopped 55)]> |>);;
  act apply_inbox;;
  act stage_send;;
  probe_is w1 (ProbeErr (SendStopped 55));;
  check (λ w, negb (has_admit 0 w));;
  check (has_send 0);;
  late ← act (push_send 0 (wbuf "bb"));
  act apply_inbox;;
  probe_is late (ProbeErr (SendStopped 55))).

Definition stop_sending_on_send_drains_all_ops_once : bool := passes driver (
  w1 ← act (push_send 0 (wbuf "aa"));
  w2 ← act (push_send 0 (wbuf "bb"));
  fin ← act (push_finish 0);
  act apply_inbox;;
  script (λ c, c <| capacity ::= <[0 := Err (quiche.StreamStopped 9)]> |>);;
  act stage_send;;
  probe_is w1 (ProbeErr (SendStopped 9));;
  probe_is w2 (ProbeErr (SendStopped 9));;
  r ← finish_try_recv fin;
  assert (match r with Received (Err e) => bool_decide (e = SendStopped 9) | _ => false end);;
  status_is 0 (Some (SendStopped 9));;
  check (λ w, has_send 0 w && no_ops 0 w);;
  check (λ w, negb (runnable 0 w))).

Definition stop_sending_via_writable_probe_drains_ops : bool := passes driver (
  w1 ← act (push_send 0 (wbuf "aa"));
  w2 ← act (push_send 0 (wbuf "bb"));
  act apply_inbox;;
  script (λ c, c <| writable_next ::= λ q, q ++ [0] |>);;
  script (λ c, c <| capacity ::= <[0 := Err (quiche.StreamStopped 13)]> |>);;
  act stage_writable;;
  probe_is w1 (ProbeErr (SendStopped 13));;
  probe_is w2 (ProbeErr (SendStopped 13));;
  check (λ w, negb (runnable 0 w))).

Definition send_after_terminal_completes_immediately : bool := passes driver (
  act (push_cmd (Reset 0 5));;
  act apply_inbox;;
  act stage_send;;
  late ← act (push_send 0 (wbuf "late"));
  act apply_inbox;;
  probe_is late (ProbeErr (SendReset 5));;
  check (λ w, has_send 0 w && no_ops 0 w);;
  check (λ w, forallb (λ e, negb (bool_decide (e.1.2 = str "late"))) (sent (qc w)))).

Definition admitted_bidi_retains_send_state_sharing_status : bool := passes driver (
  script (mock.script_recv 0 [data "hi" false]);;
  script (mock.queue_readable [0]);;
  pump;;
  ho ← accept_bidi;
  check (has_send 0);;
  send_end_is (sh_status (bh_send ho)) None;;
  script (λ c, c <| writable_next ::= λ q, q ++ [0] |>);;
  script (λ c, c <| capacity ::= <[0 := Err (quiche.StreamStopped 88)]> |>);;
  act stage_writable;;
  send_end_is (sh_status (bh_send ho)) (Some (SendStopped 88))).

Definition send_entry_reclaimed_when_send_finishes_after_recv : bool := passes driver (
  register_admit 0 (Registered false false);;
  s ← new_recv_state false;
  register_recv 0 s;;
  register_send 0;;
  script (mock.script_recv 0 [data "req" true]);;
  queue_read 0;;
  pump;;
  check (λ w, negb (has_recv 0 w));;
  check (has_send 0);;
  fin ← act (push_finish 0);
  act apply_inbox;;
  act stage_send;;
  finish_is_ok fin;;
  check (λ w, negb (has_send 0 w))).

(** ** The suite *)

Definition driver_send_tests : list bool :=
  [ partial_write_then_capacity_rearms_one_ok; finish_accepted_at_zero_capacity_completes_once;
    coalesced_write_then_finish_emits_single_fin_frame;
    quiescent_held_write_flushes_without_waiting_for_a_following_op;
    reset_preempts_queued_write_keeps_earlier_ok;
    sf6_accounting_reserves_on_admission_releases_on_completion;
    sf6_accounting_released_when_reset_drains_queued_write;
    sf3_reused_cell_across_generations_no_cross_bleed; sf6_worker_cap_bounds_admitted_bytes;
    reset_emitted_at_zero_capacity; accepted_fin_marks_send_done_and_enables_contract_a;
    duplicate_reset_is_idempotent; deferred_send_after_contract_a_completes_with_sticky_terminal;
    stop_sending_on_send_drains_all_ops_once; stop_sending_via_writable_probe_drains_ops;
    send_after_terminal_completes_immediately; admitted_bidi_retains_send_state_sharing_status;
    send_entry_reclaimed_when_send_finishes_after_recv ].

(** Every test passes. *)
Theorem driver_send_tests_pass : Forall Is_true driver_send_tests.
Proof. vm_compute. repeat constructor. Qed.
