(* ===== verification/DriverCloseTests.v ===== *)
(** * The driver's unit tests: close, teardown and local opens

    driver.rs, module [tests], from the close phase on.  The loopback test that
    makes a real handshake is left out. *)

From S2P Require Import Prelude Interfaces Reference Error Buffer Conn DriverTypes DriverStore DriverCore DriverRecv DriverSend Driver TestKit.

Definition closed_with (c : option (bool * N * Bytes)) : Test unit := check (λ w, bool_decide (closed (qc w) = c)).
Definition recorded_close (code : N) (reason : Bytes) : Test unit :=
  check (λ w, match local_close (drv w) with
              | Some lc => (lc_code lc =? code) && bool_decide (lc_reason lc = reason)
              | None => false
              end).
Definition peer_error_is (e : quiche.ConnectionError) : Test unit :=
  script (λ c, c <| mock_peer_error := Some e |>).

(** ** Closing *)

Definition last_handle_teardown_issues_h3_no_error_close : bool := passes driver (
  act (dmod (λ d, d <| last_handle_teardown := true |>));;
  act_ok do_process_writes;;
  closed_with (Some (true, H3_NO_ERROR, []));;
  check (λ w, explicit_close_attempted (drv w));;
  check (λ w, graceful_close_issued (drv w));;
  recorded_close H3_NO_ERROR []).

Definition explicit_close_crosses_barrier_after_saturated_batch : bool := passes driver (
  each (seqN 0 (S WRITE_BUDGET)) (λ id,
    let sid := id * 4 in
    script (λ c, c <| send_capacity ::= <[sid := 1]> |>);;
    act (push_send sid (wbuf "hello world"));; mret tt);;
  act (push_cmd (Close 0x1234 (str "bye")));;
  act_ok do_process_writes;;
  check (λ w, needs_iteration (drv w));;
  closed_with (Some (true, 0x1234, str "bye"));;
  recorded_close 0x1234 (str "bye");;
  check (λ w, graceful_close_issued (drv w));;
  act (dmod (λ d, d <| last_handle_teardown := true |> <| reads_ran_this_iter := false |>));;
  act_ok do_process_writes;;
  closed_with (Some (true, 0x1234, str "bye"))).

Definition first_close_wins_second_ignored : bool := passes driver (
  act (push_cmd (Close 0xaaa (str "first")));;
  act (push_cmd (Close 0xbbb (str "second")));;
  act apply_inbox;;
  check (λ w, match pending_close (drv w) with
              | Some pc => (pc_code pc =? 0xaaa) && bool_decide (pc_reason pc = str "first")
              | None => false
              end);;
  act_ok apply_close_barrier;;
  closed_with (Some (true, 0xaaa, str "first"))).

Definition peer_app_close_outranks_last_handle_teardown : bool := passes driver (
  peer_error_is (conn_err true 0x99 "peer-bye");;
  act (dmod (λ d, d <| last_handle_teardown := true |>));;
  act_ok do_process_writes;;
  closed_with None;;
  act do_on_conn_close;;
  conn_end_is (AppClose Peer 0x99 (str "peer-bye"))).

Definition timeout_classifies_as_timeout : bool := passes driver (
  script (λ c, c <| timed_out := true |>);;
  act do_on_conn_close;;
  conn_end_is TimedOut).

Definition is_recv_conn (o : option RecvEnd) : bool := match o with Some (RecvConn _) => true | _ => false end.
Definition is_send_conn (o : option SendEnd) : bool := match o with Some (SendConn _) => true | _ => false end.
Definition probe_is_conn (p : SendProbe) : Test unit :=
  s ← probe_state p; assert (match s with ProbeErr (SendConn _) => true | _ => false end).

Definition on_conn_close_publishes_to_all_out_of_band_cells : bool := passes driver (
  script (mock.script_recv 0 [data "hi" false]);;
  script (mock.queue_readable [0]);;
  pump;;
  ho ← accept_bidi;
  script (λ c, c <| mock_local_error := Some (conn_err true 0x100 "") |>);;
  act do_on_conn_close;;
  check (λ w, is_recv_conn (recv_end (rh_terminal (bh_recv ho)) w));;
  check (λ w, is_send_conn (send_end (sh_status (bh_send ho)) w));;
  check (λ w, bool_decide (is_Some (tc_get (accept_terminal_bidi (sto w)))));;
  check (λ w, bool_decide (is_Some (tc_get (accept_terminal_uni (sto w)))));;
  check (λ w, bool_decide (is_Some (tc_get (conn_terminal (sto w)))))).

Definition pending_send_op_drains_with_conn_terminal : bool := passes driver (
  done ← act (push_send 0 (wbuf "payload"));
  act apply_inbox;;
  check (λ w, negb (no_ops 0 w));;
  peer_error_is (conn_err true 0x7 "");;
  act do_on_conn_close;;
  probe_is_conn done).

Definition unapplied_send_at_close_completes_generation_once : bool := passes driver (
  done ← act (push_send 0 (wbuf "payload"));
  check (λ w, negb (has_send 0 w));;
  peer_error_is (conn_err true 0x9 "");;
  act do_on_conn_close;;
  probe_is_conn done;;
  probe_is done ProbePending).

Definition send_conngone_in_closing_window_defers_to_on_conn_close : bool := passes driver (
  done ← act (push_send 0 (wbuf "x"));
  script (λ c, c <| capacity ::= <[0 := Err quiche.InvalidState]> |>);;
  act apply_inbox;;
  act stage_send;;
  probe_is done ProbePending;;
  check (λ w, negb (no_ops 0 w));;
  o ← look (λ w, send (drv w) !! 0);
  s ← expect o;
  send_end_is (status s) None;;
  peer_error_is (conn_err true 0x101 "");;
  act do_on_conn_close;;
  probe_is_conn done).

Definition recv_conngone_in_closing_window_defers_to_on_conn_close : bool := passes driver (
  s ← new_recv_state false;
  register_recv 0 s;;
  queue_read 0;;
  script (λ c, c <| readable_ids ::= ({[0]} ∪.) |>);;
  script (mock.script_recv 0 [RecvErr quiche.InvalidState]);;
  pump;;
  check (has_recv 0);;
  recv_end_is (rs_terminal s) None;;
  peer_error_is (conn_err true 0x102 "");;
  act do_on_conn_close;;
  check (λ w, is_recv_conn (recv_end (rs_terminal s) w))).

Definition deferred_open_bidi_resolves_err_after_close : bool := passes driver (
  reply ← act (shared (alloc bidi_replies os_new));
  ok ← act (shared (cmd_send (OpenBidi reply)));
  assert ok;;
  peer_error_is (conn_err true 0x2 "");;
  act do_on_conn_close;;
  r ← bidi_try_recv reply;
  assert (match r with Received (Err (AppClose Peer _ _)) => true | _ => false end)).

Definition done_close_result_defers_to_preexisting_terminal : bool := passes driver (
  script (λ c, c <| close_result := Some quiche.Done |>);;
  peer_error_is (conn_err true 0x55 "peer");;
  act (push_cmd (Close 0x1 (str "local")));;
  act apply_inbox;;
  act_ok apply_close_barrier;;
  check (λ w, explicit_close_attempted (drv w));;
  check (λ w, graceful_close_issued (drv w));;
  check (λ w, bool_decide (¬ is_Some (local_close (drv w))));;
  act do_on_conn_close;;
  check (λ w, match tc_get (conn_terminal (sto w)) with
              | Some (AppClose Peer code _) => code =? 0x55
              | _ => false
              end)).

Definition recorded_explicit_close_outranks_local_error : bool := passes driver (
  act (push_cmd (Close 0x321 (str "quit")));;
  act apply_inbox;;
  act_ok apply_close_barrier;;
  script (λ c, c <| mock_local_error := Some (conn_err true 0x999 "other") |>);;
  act do_on_conn_close;;
  conn_end_is (AppClose Local 0x321 (str "quit"))).

Definition unexpected_close_error_is_internal_bug : bool := passes driver (
  script (λ c, c <| close_result := Some (quiche.OtherError 0) |>);;      (* TlsFail *)
  act (dmod (λ d, d <| last_handle_teardown := true |>));;
  err ← act do_process_writes;
  assert (match err with Err _ => true | Ok _ => false end);;
  check (λ w, bool_decide (is_Some (close_bug (drv w))));;
  act do_on_conn_close;;
  check (λ w, match tc_get (conn_terminal (sto w)) with Some (Internal _) => true | _ => false end)).

Definition shut (id : N) (is_write : bool) (w : W) : bool :=
  existsb (λ s, (sc_id s =? id) && Bool.eqb (sc_is_write s) is_write) (shutdowns (qc w)).

Definition connection_dropped_cleans_parked_peer_streams : bool := passes driver (
  register_admit 0 (Parked (peer_stream_new 0));;
  act (dmod (λ d, d <| parked_bidi ::= λ q, q ++ [0] |>));;
  queue_admit (peer_stream_new 2);;
  act (push_cmd ConnectionDropped);;
  act apply_inbox;;
  check (λ w, negb (has_admit 0 w));;
  check (λ w, bool_decide (parked_bidi (drv w) = []));;
  check (λ w, bool_decide (length (map_to_list (pending_admit (drv w))) = 0%nat));;
  check (λ w, bool_decide (pending_admit_uni (drv w) = []));;
  check (shut 0 true);;
  check (shut 0 false);;
  check (shut 2 false);;
  check (λ w, negb (shut 2 true w))).

(** ** Local opens *)

Definition stage_open_bidi_allocates_one_id_and_increments_counter : bool := passes driver (
  script (λ c, c <| streams_left_bidi := 4 |>);;
  reply ← act push_open_bidi;
  act apply_inbox;;
  check (λ w, next_bidi_id (drv w) =? 0);;
  act stage_open;;
  check (λ w, bool_decide (priorities (qc w) = [(0, 127, true)]));;
  check (λ w, next_bidi_id (drv w) =? 4);;
  check (has_recv 0);;
  check (has_send 0);;
  r ← bidi_try_recv reply;
  assert (match r with
          | Received (Ok handoff) => (sh_id (bh_send handoff) =? 0) && (rh_id (bh_recv handoff) =? 0)
          | _ => false
          end);;
  check (λ w, bool_decide (open_bidi (drv w) = []))).

Definition stage_open_uni_allocates_send_only : bool := passes driver (
  script (λ c, c <| streams_left_uni := 4 |>);;
  reply ← act push_open_uni;
  act apply_inbox;;
  act stage_open;;
  check (λ w, bool_decide (priorities (qc w) = [(2, 127, true)]));;
  check (λ w, next_uni_id (drv w) =? 6);;
  check (has_send 2);;
  check (λ w, negb (has_recv 2 w));;
  r ← uni_try_recv reply;
  assert (match r with Received (Ok handoff) => sh_id handoff =? 2 | _ => false end)).

Definition stage_open_is_closed_skips_no_id_burned : bool := passes driver (
  script (λ c, c <| streams_left_bidi := 4 |>);;
  reply ← act push_open_bidi;
  act (shared (at_loc bidi_replies reply tt (λ o, (tt, (os_drop_rx o).2))));;      (* drop(reply) *)
  act apply_inbox;;
  act stage_open;;
  check (λ w, bool_decide (priorities (qc w) = []));;
  check (λ w, next_bidi_id (drv w) =? 0);;
  check (λ w, bool_decide (open_bidi (drv w) = []));;
  check (λ w, negb (has_send 0 w));;
  check (λ w, negb (has_recv 0 w))).

Definition stage_open_zero_credit_defers_request : bool := passes driver (
  script (λ c, c <| streams_left_bidi := 0 |>);;
  act push_open_bidi;;
  act apply_inbox;;
  act (dmod (λ d, d <| needs_iteration := false |>));;
  act stage_open;;
  check (λ w, bool_decide (priorities (qc w) = []));;
  check (λ w, next_bidi_id (drv w) =? 0);;
  check (λ w, length (open_bidi (drv w)) =? 1)%nat;;
  check (λ w, negb (needs_iteration (drv w)))).

Definition cleanup_undeliverable_open_is_direction_aware : bool := passes driver (
  up ← act (shared cmd_upgrade);
  assert up;;
  act (shared cmd_clone_tx);;
  rb ← act (build_recv 0 None);
  sb ← act (build_send 0 None);
  recv_state ← expect rb.1.1;
  send_state ← expect sb.1.2;
  register_recv 0 recv_state;;
  act (dmod (λ d, d <| send ::= <[0 := send_state]> |>));;
  act (cleanup_undeliverable_open 0 true);;
  check (λ w, negb (has_recv 0 w));;
  check (λ w, negb (has_send 0 w));;
  check (λ w, bool_decide (mkShutdownCall 0 true H3_REQUEST_CANCELLED ∈ shutdowns (qc w)));;
  check (λ w, bool_decide (mkShutdownCall 0 false H3_REQUEST_CANCELLED ∈ shutdowns (qc w)));;
  up ← act (shared cmd_upgrade);
  assert up;;
  sb ← act (build_send 2 None);
  send_state ← expect sb.1.2;
  act (dmod (λ d, d <| send ::= <[2 := send_state]> |>));;
  act (cleanup_undeliverable_open 2 false);;
  check (λ w, negb (has_send 2 w));;
  uni_shuts ← conn (λ c, filter (λ s, sc_id s = 2) (shutdowns c));
  assert (bool_decide (uni_shuts = [mkShutdownCall 2 true H3_REQUEST_CANCELLED]))).

Definition stage_open_bidi_uses_server_parity : bool := passes (new_driver true 4 4) (
  script (λ c, c <| streams_left_bidi := 4 |>);;
  act push_open_bidi;;
  act apply_inbox;;
  act stage_open;;
  check (λ w, bool_decide (priorities (qc w) = [(1, 127, true)]));;
  check (λ w, next_bidi_id (drv w) =? 5)).

Definition open_backlog_past_budget_sets_needs_iteration : bool := passes driver (
  script (λ c, c <| streams_left_bidi := 2 ^ 64 - 1 |>);;
  each (seqN 0 (OPEN_BUDGET + 4)) (λ _, act push_open_bidi;; mret tt);;
  act apply_inbox;;
  act (dmod (λ d, d <| needs_iteration := false |>));;
  act stage_open;;
  check (λ w, length (priorities (qc w)) =? OPEN_BUDGET)%nat;;
  check (λ w, length (open_bidi (drv w)) =? 4)%nat;;
  check (λ w, needs_iteration (drv w))).

Definition on_conn_close_drains_staged_open_queues : bool := passes driver (
  bidi_reply ← act push_open_bidi;
  uni_reply ← act push_open_uni;
  act apply_inbox;;
  check (λ w, length (open_bidi (drv w)) =? 1)%nat;;
  check (λ w, length (open_uni (drv w)) =? 1)%nat;;
  peer_error_is (conn_err true 0x3 "");;
  act do_on_conn_close;;
  r ← bidi_try_recv bidi_reply;
  assert (match r with Received (Err _) => true | _ => false end);;
  r ← uni_try_recv uni_reply;
  assert (match r with Received (Err _) => true | _ => false end);;
  check (λ w, bool_decide (open_bidi (drv w) = []));;
  check (λ w, bool_decide (open_uni (drv w) = []))).

Definition packet_path_resume_forces_another_iteration : bool := passes driver (
  act (dmod (λ d, d <| reads_ran_this_iter := true |> <| needs_iteration := false |>));;
  act (push_cmd (RecvResume 0));;
  act_ok do_process_writes;;
  check (λ w, needs_iteration (drv w))).

(** ** The suite *)

Definition driver_close_tests : list bool :=
  [ last_handle_teardown_issues_h3_no_error_close; explicit_close_crosses_barrier_after_saturated_batch;
    first_close_wins_second_ignored; peer_app_close_outranks_last_handle_teardown;
    timeout_classifies_as_timeout; on_conn_close_publishes_to_all_out_of_band_cells;
    pending_send_op_drains_with_conn_terminal; unapplied_send_at_close_completes_generation_once;
    send_conngone_in_closing_window_defers_to_on_conn_close;
    recv_conngone_in_closing_window_defers_to_on_conn_close;
    deferred_open_bidi_resolves_err_after_close; done_close_result_defers_to_preexisting_terminal;
    recorded_explicit_close_outranks_local_error; unexpected_close_error_is_internal_bug;
    connection_dropped_cleans_parked_peer_streams;
    stage_open_bidi_allocates_one_id_and_increments_counter; stage_open_uni_allocates_send_only;
    stage_open_is_closed_skips_no_id_burned; stage_open_zero_credit_defers_request;
    cleanup_undeliverable_open_is_direction_aware; stage_open_bidi_uses_server_parity;
    open_backlog_past_budget_sets_needs_iteration; on_conn_close_drains_staged_open_queues;
    packet_path_resume_forces_another_iteration ].

(** Every test passes. *)
Theorem driver_close_tests_pass : Forall Is_true driver_close_tests.
Proof. vm_compute. repeat constructor. Qed.
