(* ===== verification/StreamTests.v ===== *)
(** * The front end's unit tests

    stream.rs, module [tests].  A test connects its objects to a command channel of
    its own; in the model that is the connection's channel.  Handoffs a test
    fabricates on another channel are made here on the same one, and the streams
    built from them are left alone instead of dropped. *)

From S2P Require Import Prelude Interfaces Reference Error Buffer Conn DriverTypes DriverStore DriverCore Driver Stream TestKit.

Abbreviation RecvHalf := H3RecvStream.
Abbreviation SendHalf := (H3SendStream (B := Segments)).

(** ** Fixtures *)

Definition noop_cx : Waker := 0%nat.
Definition flag_waker : Waker := 1%nat.
Definition was_woken (cx : Waker) (w : W) : bool := bool_decide (cx ∈ woken (sto w)).

(** [recv_channel]: a receive half over a byte channel of four. *)
Definition recv_channel : Test RecvHalf :=
  tx ← act (shared (alloc byte_chans (chan_new (Some 4%nat))));
  terminal ← new_recv_cell;
  resume ← new_flag false;
  blocked ← new_flag false;
  act (shared cmd_clone_tx);;
  act (shared (recv_from_handoff (mkRecvHandoff 0 tx terminal resume blocked (cleanup_new 0 true)))).

(** [send_half] and [send_half_with]: the accounting is the world's. *)
Definition send_half (id : N) : Test SendHalf :=
  status ← act (shared (alloc send_cells tc_new));
  act (shared cmd_clone_tx);;
  act (shared (send_from_handoff (mkSendHandoff id status (cleanup_new id false)))).
Definition with_cap (cap : option N) : W := driver_with (mkDriverBufferConfig BYTE_CHANNEL_DEPTH cap).

(** [crx.try_recv()] and dropping [crx]. *)
Definition crx_try_recv : Test (option (DriverCommand Segments)) := r ← act (shared cmd_try_recv); mret (received r).
Definition no_command : Test unit := o ← crx_try_recv; assert (match o with None => true | Some _ => false end).
Definition drop_crx : Test unit :=
  cmds ← act (shared (λ s, let r := chan_drop_rx (cmd_chan s) in (r.1, s <| cmd_chan := r.2 |>)));
  each cmds (λ cmd, act (shared (drop_command cmd))).
(** Receive a [Send] of stream [id] for its completer; the rest is dropped. *)
Definition take_send (id : N) : Test WriteCompleter :=
  o ← crx_try_recv;
  match o with
  | Some (Send id' _ done permit) => assert (id' =? id);; act (shared (release_permit permit));; mret done
  | _ => expect None
  end.

Definition try_send (r : RecvHalf) (b : string) : Test unit :=
  p ← act (shared (bytes_try_reserve (fr_bytes r)));
  assert (bool_decide (p = Reserved));;
  act (shared (bytes_permit_send (fr_bytes r) (str b))).
Definition set_recv_end (r : RecvHalf) (e : RecvEnd) : Test unit := act (shared (recv_cell_set (fr_terminal r) e)).
Definition set_send_end (r : SendHalf) (e : SendEnd) : Test unit := act (shared (send_cell_set (fs_status r) e)).
Definition flag_is (a : loc) (b : bool) : Test unit := check (λ w, bool_decide (flags (sto w) !! a = Some b)).

(** The shapes the tests match on. *)
Definition is_internal {A} (p : Poll (Result A h3_stream_error)) : bool :=
  match p with Ready (Err (StreamConnectionError (InternalError _))) => true | _ => false end.
Definition is_terminated {A} (code : N) (p : Poll (Result A h3_stream_error)) : bool :=
  match p with Ready (Err (StreamTerminated c)) => c =? code | _ => false end.
Definition is_ok (p : Poll (Result unit h3_stream_error)) : bool := match p with Ready (Ok _) => true | _ => false end.
Definition is_pending {A} (p : Poll A) : bool := match p with Pending => true | _ => false end.
Definition is_eof (p : Poll (Result (option Bytes) h3_stream_error)) : bool :=
  match p with Ready (Ok None) => true | _ => false end.
Definition is_chunk (p : Poll (Result (option Bytes) h3_stream_error)) : bool :=
  match p with Ready (Ok (Some _)) => true | _ => false end.

(** A poll whose result has shape [f]; the half as the poll left it. *)
Definition polled {A S} (f : A → bool) (m : ST (Store Segments) (A * S)) : Test S :=
  p ← act (shared m); assert (f p.1);; mret p.2.
(** [send_data(wbuf(b)).unwrap()] *)
Definition stash (b : string) (r : SendHalf) : Test SendHalf :=
  let p := send_data (wbuf b) r in
  assert (match p.1 with Ok _ => true | Err _ => false end);; mret p.2.

Definition sf6_enqueue_failure_rolls_back_reserved_bytes : bool := passes (with_cap (Some 1024)) (
  send ← send_half 0;
  drop_crx;;
  set_send_end send (SendReset 9);;
  send ← stash "hello" send;
  check (λ w, resident w =? 0);;
  polled (λ p, match p with Ready (Err _) => true | _ => false end) (poll_ready noop_cx send);;
  check (λ w, resident w =? 0)).

(** ** Receive half *)

Definition poll_data_delivers_buffered_bytes_before_terminal : bool := passes driver (
  recv ← recv_channel;
  try_send recv "hi";;
  set_recv_end recv RecvFin;;
  recv ← polled (λ p, match p with Ready (Ok (Some b)) => bool_decide (b = str "hi") | _ => false end)
    (poll_data noop_cx recv);
  polled is_eof (poll_data noop_cx recv);;
  mret tt).

Definition poll_data_maps_fin_reset_conn : bool :=
  passes driver (
    recv ← recv_channel;
    set_recv_end recv RecvFin;;
    polled is_eof (poll_data noop_cx recv);; mret tt) &&
  passes driver (
    recv ← recv_channel;
    set_recv_end recv (RecvReset 42);;
    polled (is_terminated 42) (poll_data noop_cx recv);; mret tt) &&
  passes driver (
    recv ← recv_channel;
    set_recv_end recv (RecvConn TimedOut);;
    polled (λ p, match p with Ready (Err (StreamConnectionError Timeout)) => true | _ => false end)
      (poll_data noop_cx recv);; mret tt).

Definition poll_data_closed_channel_without_terminal_is_internal_error : bool := passes driver (
  recv ← recv_channel;
  act (shared (bytes_drop_tx (fr_bytes recv)));;
  polled is_internal (poll_data noop_cx recv);;
  mret tt).

Definition recv_resume_gated_when_worker_never_blocked : bool := passes driver (
  recv ← recv_channel;
  flag_is (fr_blocked recv) false;;
  try_send recv "a";;
  try_send recv "b";;
  recv ← polled is_chunk (poll_data noop_cx recv);
  recv ← polled is_chunk (poll_data noop_cx recv);
  flag_is (fr_resume recv) false;;
  no_command).

Definition recv_resume_sent_once_when_worker_blocked : bool := passes driver (
  recv ← recv_channel;
  act (shared (flag_store (fr_blocked recv) true));;
  try_send recv "a";;
  try_send recv "b";;
  recv ← polled is_chunk (poll_data noop_cx recv);
  flag_is (fr_resume recv) true;;
  flag_is (fr_blocked recv) false;;
  o ← crx_try_recv;
  assert (match o with Some (RecvResume id) => id =? 0 | _ => false end);;
  polled is_chunk (poll_data noop_cx recv);;
  no_command).

Definition is_stop_sending (id code : N) (o : option (DriverCommand Segments)) : bool :=
  match o with Some (StopSending i c) => (i =? id) && (c =? code) | _ => false end.
Definition is_finish (id : N) (o : option (DriverCommand Segments)) : bool :=
  match o with Some (Finish i _) => i =? id | _ => false end.

Definition recv_drop_enqueues_stop_sending_zero : bool := passes driver (
  recv ← recv_channel;
  act (shared (recv_stream_drop recv));;
  o ← crx_try_recv;
  assert (is_stop_sending 0 0 o)).

Definition recv_drop_after_terminal_does_not_stop_send : bool := passes driver (
  recv ← recv_channel;
  set_recv_end recv RecvFin;;
  act (shared (recv_stream_drop recv));;
  no_command).

(** ** Send half *)

Definition send_data_single_slot_errors_on_double_stash : bool := passes driver (
  send ← send_half 0;
  send ← stash "one" send;
  assert (is_internal (Ready (send_data (wbuf "two") send).1))).

Definition poll_ready_returns_recorded_completion_once_then_sticky : bool := passes driver (
  send ← send_half 0;
  send ← polled is_ok (poll_ready noop_cx send);
  send ← stash "body" send;
  send ← polled is_pending (poll_ready noop_cx send);
  done ← take_send 0;
  act (shared (complete_write done (Ok tt)));;
  set_send_end send (SendStopped 7);;
  send ← polled is_ok (poll_ready noop_cx send);
  polled (is_terminated 7) (poll_ready noop_cx send);;
  mret tt).

Definition write_generation (r : SendHalf) (w : W) : N :=
  from_option wc_generation 0 (write_cells (sto w) !! fs_write_completion r).

(** [K] cycles of [send_data] and [poll_ready] from generation [g] on. *)
Fixpoint write_cycles (k : nat) (g : N) (send : SendHalf) : Test SendHalf :=
  match k with
  | O => mret send
  | S k =>
      send ← stash "chunk" send;
      send ← polled is_pending (poll_ready noop_cx send);
      check (λ w, write_generation send w =? g);;
      done ← take_send 0;
      act (shared (complete_write done (Ok tt)));;
      send ← polled is_ok (poll_ready noop_cx send);
      send ← polled is_ok (poll_ready noop_cx send);
      write_cycles k (g + 1) send
  end.

Definition poll_ready_reuses_one_completion_cell_across_writes : bool := passes driver (
  send ← send_half 0;
  send ← write_cycles 6 1 send;
  check (λ w, write_generation send w =? 6)).

Definition sf6_unlimited_accounting_tracks_and_releases_bytes : bool := passes (with_cap None) (
  send ← send_half 0;
  check (λ w, resident w =? 0);;
  send ← stash "hello" send;
  send ← polled is_pending (poll_ready noop_cx send);
  let hello := wbuf_len "hello" in
  check (λ w, resident w =? hello);;
  o ← crx_try_recv;
  match o with
  | Some (Send _ _ done (Some permit)) =>
      assert (permit_bytes permit =? hello);;
      check (λ w, resident w =? hello);;
      act (shared (complete_write done (Ok tt)));;
      act (shared (release_permit (Some permit)));;
      check (λ w, resident w =? 0);;
      polled is_ok (poll_ready noop_cx send);; mret tt
  | _ => assert false
  end).

Definition sf6_capped_accounting_parks_then_admits_on_release : bool :=
  let hello := wbuf_len "hello" in let x := wbuf_len "x" in
  passes (with_cap (Some hello)) (
    send_a ← send_half 0;
    send_b ← send_half 4;
    send_a ← stash "hello" send_a;
    send_a ← polled is_pending (poll_ready noop_cx send_a);
    check (λ w, resident w =? hello);;
    o ← crx_try_recv;
    cmd_a ← expect o;
    send_b ← stash "x" send_b;
    send_b ← polled is_pending (poll_ready flag_waker send_b);
    no_command;;
    check (λ w, resident w =? hello);;
    act (shared (drop_command cmd_a));;
    check (λ w, resident w =? 0);;
    check (was_woken flag_waker);;
    send_b ← polled is_pending (poll_ready flag_waker send_b);
    check (λ w, resident w =? x);;
    o ← crx_try_recv;
    assert (match o with
            | Some (Send id _ _ (Some permit)) => (id =? 4) && (permit_bytes permit =? x)
            | _ => false
            end)).

Definition poll_ready_unapplied_send_resolves_via_sticky_terminal : bool := passes driver (
  send ← send_half 0;
  send ← stash "body" send;
  send ← polled is_pending (poll_ready noop_cx send);
  done ← take_send 0;
  act (shared (drop_completer done));;
  set_send_end send (SendStopped 9);;
  polled (is_terminated 9) (poll_ready noop_cx send);;
  mret tt).

Definition poll_finish_idempotent_one_finish : bool := passes driver (
  send ← send_half 0;
  send ← polled is_pending (poll_finish noop_cx send);
  o ← crx_try_recv;
  match o with
  | Some (Finish id done) =>
      assert (id =? 0);;
      send ← polled is_pending (poll_finish noop_cx send);
      no_command;;
      ok ← act (shared (finish_send done (Ok tt)));
      assert ok;;
      send ← polled is_ok (poll_finish noop_cx send);
      polled is_ok (poll_finish noop_cx send);;
      no_command
  | _ => assert false
  end).

Definition poll_finish_failure_is_retained_not_success : bool := passes driver (
  send ← send_half 0;
  drop_crx;;
  send ← polled is_internal (poll_finish noop_cx send);
  polled is_internal (poll_finish noop_cx send);;
  mret tt).

Definition reset_enqueues_once_and_finalizes : bool := passes driver (
  send ← send_half 4;
  send ← act (shared (reset 7 send));
  o ← crx_try_recv;
  assert (match o with Some (Reset id code) => (id =? 4) && (code =? 7) | _ => false end);;
  send ← act (shared (reset 9 send));
  no_command;;
  polled (is_terminated 7) (poll_finish noop_cx send);;
  mret tt).

Definition send_drop_enqueues_graceful_finish : bool := passes driver (
  send ← send_half 0;
  act (shared (send_stream_drop send));;
  o ← crx_try_recv;
  assert (is_finish 0 o)).

Definition send_drop_after_finalize_does_not_finish : bool := passes driver (
  send ← send_half 0;
  send ← act (shared (reset 3 send));
  crx_try_recv;;
  act (shared (send_stream_drop send));;
  no_command).

(** ** Handoffs *)

Definition make_recv_handoff (id : N) : Test RecvHandoff :=
  tx ← act (shared (alloc byte_chans (chan_new (Some 1%nat))));
  terminal ← new_recv_cell;
  resume ← new_flag false;
  blocked ← new_flag false;
  act (shared cmd_clone_tx);;
  mret (mkRecvHandoff id tx terminal resume blocked (cleanup_new id true)).
Definition make_send_handoff (id : N) : Test SendHandoff :=
  status ← act (shared (alloc send_cells tc_new));
  act (shared cmd_clone_tx);;
  mret (mkSendHandoff id status (cleanup_new id false)).

Definition dropped_recv_handoff_enqueues_stop_sending : bool := passes driver (
  handoff ← make_recv_handoff 8;
  act (shared (drop_recv_handoff handoff));;
  o ← crx_try_recv;
  assert (is_stop_sending 8 0 o)).

Definition dropped_send_handoff_enqueues_finish : bool := passes driver (
  handoff ← make_send_handoff 8;
  act (shared (drop_send_handoff handoff));;
  o ← crx_try_recv;
  assert (is_finish 8 o)).

Definition converted_handoff_disarms_guard : bool := passes driver (
  recv ← recv_channel;
  no_command;;
  act (shared (recv_stream_drop recv));;
  o ← crx_try_recv;
  assert (match o with Some (StopSending _ _) => true | _ => false end)).

(** ** Opener *)

Definition stream_opener_submit_helper_resolves_terminal_when_conn_terminal_preset : bool := passes driver (
  act (shared (conn_cell_set conn_terminal (AppClose Peer 0x101 [])));;
  polled (λ p, match p with
               | Ready (Err (StreamConnectionError (ApplicationClose code))) => code =? 0x101
               | _ => false
               end) (poll_open_bidi noop_cx opener_new);;
  no_command).

Definition cloned_opener_has_fresh_pending_slots : bool := passes driver (
  op ← polled is_pending (poll_open_bidi noop_cx opener_new);
  assert (bool_decide (is_Some (so_pending_bidi op)));;
  o ← crx_try_recv;
  assert (match o with Some (OpenBidi _) => true | _ => false end);;
  clone ← act (shared (opener_clone op));
  assert (bool_decide (so_pending_bidi clone = None));;
  assert (bool_decide (so_pending_uni clone = None))).

Definition make_bidi_handoff : Test BidiHandoff :=
  s ← make_send_handoff 0;
  act (shared cmd_clone_tx);;
  r ← make_recv_handoff 0;
  mret (mkBidiHandoff s r).

Definition opener_open_bidi_resolves_handoff_into_stream : bool := passes driver (
  op ← polled is_pending (poll_open_bidi noop_cx opener_new);
  o ← crx_try_recv;
  match o with
  | Some (OpenBidi reply) =>
      handoff ← make_bidi_handoff;
      ok ← act (shared (bidi_reply_send reply (Ok handoff)));
      assert ok;;
      op ← polled (λ p, match p with Ready (Ok _) => true | _ => false end) (poll_open_bidi noop_cx op);
      assert (bool_decide (so_pending_bidi op = None))
  | _ => assert false
  end).

(** ** Connection *)

(** [btx.try_send(make_bidi_handoff())] *)
Definition queue_bidi : Test unit :=
  p ← act (shared accept_bidi_try_reserve);
  assert (bool_decide (p = Reserved));;
  handoff ← make_bidi_handoff;
  act (shared (accept_bidi_permit_send handoff)).
Definition accepted_with (f : Poll (Result (H3Stream (B := Segments)) h3_conn_error) → bool) : Test unit :=
  p ← act (shared (poll_accept_bidi noop_cx)); assert (f p).
Definition is_stream (p : Poll (Result (H3Stream (B := Segments)) h3_conn_error)) : bool :=
  match p with Ready (Ok _) => true | _ => false end.

Definition poll_accept_bidi_delivers_then_maps_terminal : bool := passes driver (
  queue_bidi;;
  accepted_with is_stream;;
  check (λ w, accept_bidi_resume (sto w));;
  o ← crx_try_recv;
  assert (match o with Some AcceptBidiResume => true | _ => false end);;
  act (shared (conn_cell_set accept_terminal_bidi TimedOut));;
  accepted_with (λ p, match p with Ready (Err Timeout) => true | _ => false end)).

Definition poll_accept_bidi_sealing_recheck_yields_queued_stream_before_terminal : bool := passes driver (
  queue_bidi;;
  act (shared (conn_cell_set accept_terminal_bidi TimedOut));;
  accepted_with is_stream).

Definition connection_drop_enqueues_connection_dropped : bool := passes driver (
  act (shared (connection_drop opener_new));;
  o ← crx_try_recv;
  assert (match o with Some ConnectionDropped => true | _ => false end)).

(** ** The suite *)

Definition stream_tests : list bool :=
  [ sf6_enqueue_failure_rolls_back_reserved_bytes; poll_data_delivers_buffered_bytes_before_terminal;
    poll_data_maps_fin_reset_conn; poll_data_closed_channel_without_terminal_is_internal_error;
    recv_resume_gated_when_worker_never_blocked; recv_resume_sent_once_when_worker_blocked;
    recv_drop_enqueues_stop_sending_zero; recv_drop_after_terminal_does_not_stop_send;
    send_data_single_slot_errors_on_double_stash; poll_ready_returns_recorded_completion_once_then_sticky;
    poll_ready_reuses_one_completion_cell_across_writes; sf6_unlimited_accounting_tracks_and_releases_bytes;
    sf6_capped_accounting_parks_then_admits_on_release; poll_ready_unapplied_send_resolves_via_sticky_terminal;
    poll_finish_idempotent_one_finish; poll_finish_failure_is_retained_not_success;
    reset_enqueues_once_and_finalizes; send_drop_enqueues_graceful_finish;
    send_drop_after_finalize_does_not_finish; dropped_recv_handoff_enqueues_stop_sending;
    dropped_send_handoff_enqueues_finish; converted_handoff_disarms_guard;
    stream_opener_submit_helper_resolves_terminal_when_conn_terminal_preset;
    cloned_opener_has_fresh_pending_slots; opener_open_bidi_resolves_handoff_into_stream;
    poll_accept_bidi_delivers_then_maps_terminal;
    poll_accept_bidi_sealing_recheck_yields_queued_stream_before_terminal;
    connection_drop_enqueues_connection_dropped ].

(** Every test passes. *)
Theorem stream_tests_pass : Forall Is_true stream_tests.
Proof. vm_compute. repeat constructor. Qed.
