(* ===== verification/BufferTests.v ===== *)
(** * Unit tests of the errors, the buffers and the mock connection

    error.rs, buffer.rs and conn.rs, modules [tests].  Left out: two tests that
    compare constants with the h3 crate's and one that races threads on the
    accounting. *)

From S2P Require Import Prelude Interfaces Reference Error Buffer Conn DriverTypes TestKit.
From Stdlib Require Strings.String.

(** ** error.rs *)

Definition contains (s sub : string) : bool := bool_decide (is_Some (String.index 0 sub s)).

Definition conn_terminal_maps_peer_app_close_to_application_close : bool :=
  match conn_to_h3 (AppClose Peer 0x10a (str "boom")) with
  | ApplicationClose error_code => error_code =? 0x10a
  | _ => false
  end.

Definition conn_terminal_maps_local_app_close_to_undefined : bool :=
  match conn_to_h3 (AppClose Local 0x100 []) with
  | Undefined e => contains (display_boxed e) "locally"
  | _ => false
  end.

Definition conn_terminal_maps_transport_to_undefined_with_code : bool :=
  match conn_to_h3 (Transport Peer 0x7) with
  | Undefined e => contains (display_boxed e) "transport" && contains (display_boxed e) "peer"
  | _ => false
  end.

Definition conn_terminal_maps_timeout_and_internal : bool :=
  match conn_to_h3 TimedOut with Timeout => true | _ => false end &&
  match conn_to_h3 (Internal "bug") with InternalError m => bool_decide (m = "bug") | _ => false end.

Definition recv_end_fin_is_clean_eof : bool :=
  match recv_to_h3 RecvFin with None => true | Some _ => false end.

Definition recv_end_reset_is_stream_terminated : bool :=
  match recv_to_h3 (RecvReset 42) with Some (StreamTerminated error_code) => error_code =? 42 | _ => false end.

Definition recv_end_conn_is_connection_error : bool :=
  match recv_to_h3 (RecvConn TimedOut) with Some (StreamConnectionError Timeout) => true | _ => false end.

Definition send_end_stopped_and_reset_are_stream_terminated : bool :=
  forallb (λ c, match send_to_h3 c.1 with StreamTerminated error_code => error_code =? c.2 | _ => false end)
    [(SendStopped 5, 5); (SendReset 9, 9)].

Definition send_end_conn_is_connection_error : bool :=
  match send_to_h3 (SendConn (AppClose Peer 1 [])) with
  | StreamConnectionError (ApplicationClose error_code) => error_code =? 1
  | _ => false
  end.

Definition internal_stream_error_wraps_internal : bool :=
  match internal_stream_error "double send_data" with
  | StreamConnectionError (InternalError m) => bool_decide (m = "double send_data")
  | _ => false
  end.

Definition conn_terminal_from_error_splits_app_and_transport : bool :=
  bool_decide (conn_terminal_from_error Local (conn_err true 0x100 "bye") = AppClose Local 0x100 (str "bye")) &&
  bool_decide (conn_terminal_from_error Peer (conn_err false 0x7 "") = Transport Peer 0x7).

(** The errors that mean the stream's connection state is gone. *)
Definition gone_errors : list quiche.Error :=
  [quiche.InvalidState; quiche.InvalidStreamState 3; quiche.FinalSize; quiche.FlowControl].

Definition classify_recv_errors : bool :=
  match classify_stream_recv_error (quiche.StreamReset 11) with RClassReset code => code =? 11 | _ => false end &&
  match classify_stream_recv_error quiche.Done with RClassDone => true | _ => false end &&
  forallb (λ e, match classify_stream_recv_error e with RClassConnGone => true | _ => false end) gone_errors &&
  match classify_stream_recv_error (quiche.OtherError 0 (* TlsFail *)) with RClassBug _ => true | _ => false end.

Definition classify_send_errors : bool :=
  match classify_stream_send_error (quiche.StreamStopped 66) with SClassStopped code => code =? 66 | _ => false end &&
  match classify_stream_send_error quiche.Done with SClassBlocked => true | _ => false end &&
  match classify_stream_send_error quiche.StreamLimit with SClassLimit => true | _ => false end &&
  forallb (λ e, match classify_stream_send_error e with SClassConnGone => true | _ => false end) gone_errors &&
  match classify_stream_send_error (quiche.OtherError 1 (* CryptoFail *)) with SClassBug _ => true | _ => false end.

Definition error_tests : list bool :=
  [ conn_terminal_maps_peer_app_close_to_application_close; conn_terminal_maps_local_app_close_to_undefined;
    conn_terminal_maps_transport_to_undefined_with_code; conn_terminal_maps_timeout_and_internal;
    recv_end_fin_is_clean_eof; recv_end_reset_is_stream_terminated; recv_end_conn_is_connection_error;
    send_end_stopped_and_reset_are_stream_terminated; send_end_conn_is_connection_error;
    internal_stream_error_wraps_internal; conn_terminal_from_error_splits_app_and_transport;
    classify_recv_errors; classify_send_errors ].

(** Every test passes. *)
Theorem error_tests_pass : Forall Is_true error_tests.
Proof. vm_compute. repeat constructor. Qed.

(** ** buffer.rs: the cursor

    The state of a test is the chunks its sink was given. *)

Definition cursor_turn_with (accept : Bytes → Result N quiche.Error) (buf : Segments)
    : TestS (list Bytes) (Result N quiche.Error * Segments) :=
  act (send_from_buf buf (λ chunk, modify (λ l, l ++ [chunk]);; mret (accept chunk))).
Definition all_of (chunk : Bytes) : Result N quiche.Error := Ok (N.of_nat (length chunk)).
Definition turn_is (n : N) (r : Result N quiche.Error) : bool := match r with Ok m => m =? n | Err _ => false end.

Definition send_from_buf_partial_consume_contiguous : bool := passes [] (
  r ← cursor_turn_with (λ _, Ok 5) [str "hello world"];
  check (λ l, bool_decide (last l = Some (str "hello world")));;
  assert (turn_is 5 r.1);;
  assert (buf_remaining r.2 =? 6);;
  r ← cursor_turn_with all_of r.2;
  check (λ l, bool_decide (last l = Some (str " world")));;
  assert (turn_is 6 r.1);;
  assert (buf_remaining r.2 =? 0);;
  r ← cursor_turn_with all_of r.2;
  check (λ l, length l =? 2)%nat;;                (* the sink was not called *)
  assert (turn_is 0 r.1)).

(** [while buf.has_remaining()]; [n] turns are enough. *)
Fixpoint send_all (n : nat) (buf : Segments) : TestS (list Bytes) unit :=
  if negb (buf_has_remaining buf) then mret tt
  else match n with
       | O => assert false
       | S n => r ← cursor_turn_with all_of buf; assert (match r.1 with Ok _ => true | Err _ => false end);; send_all n r.2
       end.

Definition send_from_buf_walks_noncontiguous_segments : bool := passes [] (
  send_all 5 [str "AAA"; str "BBBB"];;
  check (λ l, bool_decide (concat l = str "AAABBBB"))).

Definition send_from_buf_propagates_quiche_error : bool := passes [] (
  r ← cursor_turn_with (λ _, Err quiche.Done) [str "x"];
  assert (match r.1 with Err quiche.Done => true | _ => false end);;
  assert (buf_remaining r.2 =? 1)).

(** ** buffer.rs: the terminal cell

    The state is the cell and the wakers fired so far. *)

Abbreviation Cell := (TerminalCell N * list Waker)%type.
Definition cell_new : Cell := (tc_new, []).
Definition cell_set (v : N) : TestS Cell bool := act (λ s,
  let r := tc_set v s.1 in (r.1.1, (r.2, s.2 ++ option_list r.1.2))).
Definition cell_poll (cx : Waker) : TestS Cell (Poll N) := act (λ s, let r := tc_poll cx s.1 in (r.1, (r.2, s.2))).
Definition poll_is (v : N) (p : Poll N) : bool := match p with Ready n => n =? v | Pending => false end.
Definition poll_pending {A} (p : Poll A) : bool := match p with Ready _ => false | Pending => true end.

Definition terminal_cell_first_writer_wins : bool := passes cell_new (
  b ← cell_set 1; assert b;;
  b ← cell_set 2; assert (negb b);;
  check (λ s, bool_decide (tc_get s.1 = Some 1))).

Definition terminal_cell_fast_path_ready : bool := passes cell_new (
  cell_set 7;;
  p ← cell_poll 0%nat;
  assert (poll_is 7 p)).

Definition terminal_cell_pending_then_woken : bool := passes cell_new (
  p ← cell_poll 1%nat;
  assert (poll_pending p);;
  check (λ s, bool_decide (s.2 = []));;
  b ← cell_set 99; assert b;;
  check (λ s, bool_decide (s.2 = [1%nat]));;
  p ← cell_poll 1%nat;
  assert (poll_is 99 p)).

(** A poll during whose registration the waker's clone installs the value: the
    steps of [tc_poll] with a set between the first read and the registration. *)
Definition racing_poll (cx : Waker) (v : N) : TestS Cell (Poll N) :=
  o ← look (λ s : Cell, tc_get s.1);
  match o with
  | Some v => mret (Ready v)
  | None =>
      cell_set v;;
      act (modify (λ s : Cell, (tc_register cx s.1, s.2)));;
      o ← look (λ s : Cell, tc_get s.1);
      mret (match o with Some v => Ready v | None => Pending end)
  end.

Definition terminal_cell_set_between_check_and_register : bool := passes cell_new (
  p ← racing_poll 0%nat 55;
  assert (poll_is 55 p)).

(** ** buffer.rs: the write completion

    The state is the cell, at address 0, and the wakers fired so far. *)

Abbreviation Completion := (WriteCompletion Z * list Waker)%type.
Definition completion_new : Completion := (wc_new, []).
Definition wc_do {A} (f : WriteCompletion Z → A * WriteCompletion Z) : TestS Completion A :=
  act (λ s, let r := f s.1 in (r.1, (r.2, s.2))).
Definition begin : TestS Completion N := wc_do wc_begin.
Definition complete (r : Result unit Z) (k : WriteCompleter) : TestS Completion unit := act (λ s,
  let p := wcr_complete r k s.1 in (tt, (p.2, s.2 ++ option_list p.1))).
Definition drop_k (k : WriteCompleter) : TestS Completion unit := act (λ s,
  let p := wcr_drop k s.1 in (tt, (p.2, s.2 ++ option_list p.1))).
Definition try_take (g : N) : TestS Completion (Poll (WriteOutcome Z)) := wc_do (wc_take g).
Definition done_ok (p : Poll (WriteOutcome Z)) : bool := match p with Ready (WriteDone (Ok _)) => true | _ => false end.

Definition write_completion_reuses_one_cell_across_generations : bool := passes completion_new (
  check (λ s, wc_generation s.1 =? 0);;
  each (seqN 1 8) (λ expected_gen,
    generation ← begin;
    assert (generation =? expected_gen);;
    let completer := wc_completer 0 generation in
    assert (wcr_cell completer =? 0)%nat;;
    complete (Ok tt) completer;;
    p ← try_take generation; assert (done_ok p);;
    p ← try_take generation; assert (poll_pending p));;
  check (λ s, wc_generation s.1 =? 8)).

Definition write_completion_set_if_current_drops_stale_generation : bool := passes completion_new (
  g1 ← begin;
  let stale := wc_completer 0 g1 in
  g2 ← begin;
  assert (g2 =? g1 + 1);;
  let current := wc_completer 0 g2 in
  complete (Ok tt) stale;;
  p ← try_take g1; assert (poll_pending p);;
  p ← try_take g2; assert (poll_pending p);;
  complete (Err (-7)%Z) current;;
  p ← try_take g2; assert (match p with Ready (WriteDone (Err e)) => (e =? -7)%Z | _ => false end);;
  p ← try_take g2; assert (poll_pending p)).

Definition write_completion_drop_signals_cancelled : bool := passes completion_new (
  generation ← begin;
  drop_k (wc_completer 0 generation);;
  p ← try_take generation;
  assert (match p with Ready WriteCancelled => true | _ => false end)).

Definition write_completion_stale_drop_does_not_cancel_new_generation : bool := passes completion_new (
  g1 ← begin;
  let stale := wc_completer 0 g1 in
  g2 ← begin;
  let current := wc_completer 0 g2 in
  drop_k stale;;
  p ← try_take g2; assert (poll_pending p);;
  complete (Ok tt) current;;
  p ← try_take g2; assert (done_ok p)).

Definition write_completion_poll_registers_and_wakes : bool := passes completion_new (
  generation ← begin;
  p ← wc_do (wc_poll generation 1%nat);
  assert (poll_pending p);;
  check (λ s, bool_decide (s.2 = []));;
  complete (Ok tt) (wc_completer 0 generation);;
  check (λ s, bool_decide (s.2 = [1%nat]));;
  p ← wc_do (wc_poll generation 1%nat);
  assert (done_ok p)).

(** ** buffer.rs: the accounting

    The state is the accounting and the wakers fired so far. *)

Abbreviation Acct := (SendAccounting * list Waker)%type.
Definition acct_new (cap : option N) : Acct := (sa_new cap, []).
Definition try_reserve (n : N) : TestS Acct (option SendBytesPermit) := act (λ s,
  let r := sa_try_reserve n s.1 in (r.1, (r.2, s.2))).
Definition reserve (n : N) : TestS Acct SendBytesPermit := o ← try_reserve n; expect o.
(** [try_reserve(n).is_none()] *)
Definition refuses (n : N) : TestS Acct unit := o ← try_reserve n; assert (bool_decide (¬ is_Some o)).
Definition drop_permit (p : SendBytesPermit) : TestS Acct unit := act (λ s,
  let r := permit_drop p s.1 in (tt, (r.2, s.2 ++ r.1))).
Definition resident_is (n : N) : TestS Acct unit := check (λ s, sa_resident s.1 =? n).
Definition waiters_are (n : nat) : TestS Acct unit := check (λ s, length (map_to_list (sa_waiters s.1)) =? n)%nat.
Definition register_waiter (id : N) (cx : Waker) : TestS Acct unit :=
  act (modify (λ s, (sa_register_waiter id cx s.1, s.2))).
Definition unregister_waiter (id : N) : TestS Acct unit :=
  act (modify (λ s, (sa_unregister_waiter id s.1, s.2))).
Definition fired (cx : Waker) (s : Acct) : bool := bool_decide (cx ∈ s.2).

Definition send_accounting_unlimited_increments_and_releases_once : bool := passes (acct_new None) (
  resident_is 0;;
  check (λ s, bool_decide (sa_cap s.1 = None));;
  p1 ← reserve 1000;
  p2 ← reserve 2500;
  resident_is 3500;;
  assert (permit_bytes p1 =? 1000);;
  drop_permit p1;;
  resident_is 2500;;
  drop_permit p2;;
  resident_is 0).

Definition send_accounting_capped_rejects_over_cap_then_admits_after_release : bool := passes (acct_new (Some 100)) (
  p1 ← reserve 60;
  resident_is 60;;
  refuses 60;;
  resident_is 60;;
  p2 ← reserve 40;
  resident_is 100;;
  refuses 1;;
  drop_permit p1;;
  reserve 60;;
  resident_is 100;;
  drop_permit p2).

Definition send_accounting_oversize_admits_one_unit_and_bounds_at_cap_plus_unit : bool :=
  passes (acct_new (Some 100)) (
    big ← reserve 250;
    resident_is 250;;
    refuses 1;;
    refuses 250;;
    resident_is 250;;
    drop_permit big;;
    resident_is 0) &&
  passes (acct_new (Some 0)) (
    unit_ ← reserve 10;
    refuses 1;;
    drop_permit unit_;;
    reserve 10;; mret tt).

Definition send_accounting_release_wakes_parked_waiter : bool := passes (acct_new (Some 100)) (
  p ← reserve 100;
  refuses 50;;
  register_waiter 7 1%nat;;
  refuses 50;;
  check (λ s, negb (fired 1%nat s));;
  drop_permit p;;
  check (fired 1%nat);;
  reserve 50;; mret tt).

Definition send_accounting_register_waiter_dedups_equal_waker : bool := passes (acct_new (Some 10)) (
  reserve 10;;
  register_waiter 3 1%nat;;
  register_waiter 3 1%nat;;
  register_waiter 3 1%nat;;
  waiters_are 1).

Definition send_accounting_unregister_drops_parked_waiter : bool := passes (acct_new (Some 100)) (
  p ← reserve 100;
  register_waiter 1 1%nat;;
  register_waiter 2 2%nat;;
  waiters_are 2;;
  unregister_waiter 1;;
  waiters_are 1;;
  unregister_waiter 1;;
  waiters_are 1;;
  drop_permit p;;
  check (λ s, negb (fired 1%nat s));;
  check (fired 2%nat)).

Definition send_accounting_unlimited_never_registers_waiters : bool := passes (acct_new None) (
  register_waiter 1 1%nat;;
  waiters_are 0;;
  unregister_waiter 1;;
  waiters_are 0).

Definition send_accounting_zero_byte_reserve_is_free : bool := passes (acct_new (Some 100)) (
  p ← reserve 0;
  resident_is 0;;
  assert (permit_bytes p =? 0);;
  drop_permit p;;
  resident_is 0).

Definition send_accounting_zero_byte_reserve_admits_even_when_over_cap : bool := passes (acct_new (Some 100)) (
  big ← reserve 250;
  check (λ s, from_option (λ cap, cap <? sa_resident s.1) false (sa_cap s.1));;
  refuses 1;;
  z ← reserve 0;
  assert (permit_bytes z =? 0);;
  drop_permit z;;
  drop_permit big;;
  resident_is 0).

Definition buffer_tests : list bool :=
  [ send_from_buf_partial_consume_contiguous; send_from_buf_walks_noncontiguous_segments;
    send_from_buf_propagates_quiche_error; terminal_cell_first_writer_wins; terminal_cell_fast_path_ready;
    terminal_cell_pending_then_woken; terminal_cell_set_between_check_and_register;
    write_completion_reuses_one_cell_across_generations;
    write_completion_set_if_current_drops_stale_generation; write_completion_drop_signals_cancelled;
    write_completion_stale_drop_does_not_cancel_new_generation; write_completion_poll_registers_and_wakes;
    send_accounting_unlimited_increments_and_releases_once;
    send_accounting_capped_rejects_over_cap_then_admits_after_release;
    send_accounting_oversize_admits_one_unit_and_bounds_at_cap_plus_unit;
    send_accounting_release_wakes_parked_waiter; send_accounting_register_waiter_dedups_equal_waker;
    send_accounting_unregister_drops_parked_waiter; send_accounting_unlimited_never_registers_waiters;
    send_accounting_zero_byte_reserve_is_free; send_accounting_zero_byte_reserve_admits_even_when_over_cap ].

(** Every test passes. *)
Theorem buffer_tests_pass : Forall Is_true buffer_tests.
Proof. vm_compute. repeat constructor. Qed.

(** ** conn.rs: the mock *)

Definition out (n : nat) : Bytes := replicate n x00.
Definition recv_into (id : N) (n : nat) : TestS MockConn (QResult (N * bool) * Bytes) := act (stream_recv id (out n)).
Definition recv_is (len : N) (fin : bool) (r : QResult (N * bool)) : bool :=
  match r with Ok (n, f) => (n =? len) && Bool.eqb f fin | Err _ => false end.

Definition mock_recv_delivers_then_done : bool := passes mock.new (
  act (modify (mock.script_recv 4 [data "abc" true]));;
  check (stream_readable 4);;
  r ← recv_into 4 16;
  assert (recv_is 3 true r.1);;
  assert (bool_decide (take 3 r.2 = str "abc"));;
  check (λ c, negb (stream_readable 4 c));;
  r ← recv_into 4 16;
  assert (match r.1 with Err quiche.Done => true | _ => false end)).

Definition mock_recv_truncates_to_out_len : bool := passes mock.new (
  act (modify (mock.script_recv 0 [data "abcdef" true]));;
  r ← recv_into 0 4;
  assert (recv_is 4 false r.1);;
  assert (bool_decide (r.2 = str "abcd"));;
  r ← recv_into 0 4;
  assert (recv_is 2 true r.1);;
  assert (bool_decide (take 2 r.2 = str "ef"))).

Definition mock_send_partial_and_record : bool := passes mock.new (
  act (modify (λ c, c <| send_capacity ::= <[8 := 2]> |>));;
  r ← act (stream_send 8 (str "hello") false);
  assert (turn_is 2 r);;
  check (λ c, bool_decide (sent c = [(8, str "he", false)]))).

Definition mock_readable_next_is_destructive : bool := passes mock.new (
  act (modify (mock.queue_readable [4; 8]));;
  o ← act stream_readable_next; assert (bool_decide (o = Some 4));;
  o ← act stream_readable_next; assert (bool_decide (o = Some 8));;
  o ← act stream_readable_next; assert (bool_decide (o = None))).

Definition conn_tests : list bool :=
  [ mock_recv_delivers_then_done; mock_recv_truncates_to_out_len; mock_send_partial_and_record;
    mock_readable_next_is_destructive ].

(** Every test passes. *)
Theorem conn_tests_pass : Forall Is_true conn_tests.
Proof. vm_compute. repeat constructor. Qed.
