(* ===== verification/EndpointTests.v ===== *)
(** * Unit tests of the endpoint, the listener and the connector

    endpoint.rs, listener.rs and connector.rs, modules [tests].  A task that awaits
    [wait_idle] is polled by hand: a round of the loop, then a look at its
    notification.  Files and tokio-quiche are small instances of their
    interfaces. *)

From S2P Require Import Prelude Interfaces Reference Error Buffer Conn DriverTypes DriverStore Driver Stream Endpoint Setup Listener Connector TestKit.

(** ** endpoint.rs *)

Abbreviation EP := (EndpointShared Segments MockConn).
Abbreviation ETest := (TestS EP).

(** [EndpointShared::new()] beside [n] connections, each with its one strong
    sender. *)
Definition endpoint (n : nat) : EP := endpoint_shared_new <| ep_conns := replicate n driver |>.
Definition registers (conn : loc) : ETest N := o ← act (try_register conn); expect o.
Definition rx_try_recv (conn : loc) : ETest (option (DriverCommand Segments)) :=
  r ← act (cmd_at conn TryDisconnected chan_try_recv); mret (received r).
Definition drop_tx (conn : loc) : ETest unit := act (cmd_at conn tt (λ c, (tt, chan_drop_tx c))).
(** The frame of a received [Close]. *)
Definition frame_is (code : N) (reason : string) (o : option (DriverCommand Segments)) : bool :=
  match o with Some (Close c r) => (c =? code) && bool_decide (r = str reason) | _ => false end.
Definition snapshot_is (next live : N) : ETest unit := check (λ e, bool_decide (registry_snapshot e = (next, live))).

Definition close_broadcasts_to_live_workers_and_skips_dead_entries : bool := passes (endpoint 3) (
  registers 0%nat;;
  registers 1%nat;;
  registers 2%nat;;
  drop_tx 2%nat;;
  act (close H3_NO_ERROR (str "bye"));;
  o ← rx_try_recv 0%nat; assert (frame_is H3_NO_ERROR "bye" o);;
  o ← rx_try_recv 1%nat; assert (frame_is H3_NO_ERROR "bye" o);;
  o ← rx_try_recv 2%nat; assert (bool_decide (¬ is_Some o))).

(** A first poll of [wait_idle] that parks, and a poll after a notification. *)
Definition wait_parks (i : nat) : ETest unit :=
  r ← act (wait_idle_round i); assert (negb r);;
  check (λ e, negb (nt_poll i (ep_idle e))).
Definition wait_resolves (i : nat) : ETest unit :=
  check (λ e, nt_poll i (ep_idle e));;
  r ← act (wait_idle_round i); assert r.

Definition dropping_last_guard_wakes_parked_wait_idle : bool := passes (endpoint 1) (
  reg ← registers 0%nat;
  snapshot_is 1 1;;
  wait_parks 7;;
  act (registration_drop reg);;
  wait_resolves 7;;
  snapshot_is 1 0).

Definition wait_idle_created_before_drop_still_resolves : bool := passes (endpoint 1) (
  reg ← registers 0%nat;
  wait_parks 7;;
  act (registration_drop reg);;
  wait_resolves 7).

Definition wait_idle_returns_immediately_when_already_idle : bool := passes (endpoint 0) (
  r ← act (wait_idle_round 7);
  assert r).

Definition try_register_is_refused_after_close : bool := passes (endpoint 2) (
  registers 0%nat;;
  before ← look registry_snapshot;
  act (close H3_NO_ERROR (str "bye"));;
  o ← rx_try_recv 0%nat; assert (bool_decide (is_Some o));;
  o ← act (try_register 1%nat); assert (bool_decide (¬ is_Some o));;
  after ← look registry_snapshot;
  assert (before.1 =? after.1)).

Definition close_is_idempotent_first_frame_wins : bool := passes (endpoint 1) (
  registers 0%nat;;
  act (close H3_NO_ERROR (str "first"));;
  act (close H3_REQUEST_CANCELLED (str "second"));;
  o ← rx_try_recv 0%nat; assert (frame_is H3_NO_ERROR "first" o);;
  o ← rx_try_recv 0%nat; assert (frame_is H3_NO_ERROR "first" o);;
  o ← rx_try_recv 0%nat; assert (bool_decide (¬ is_Some o))).

Definition wait_idle_without_close_blocks_then_wakes_on_organic_drain : bool := passes (endpoint 1) (
  reg ← registers 0%nat;
  wait_parks 7;;
  act (registration_drop reg);;
  wait_resolves 7).

(** Handles are clones of one shared registry: the model has the registry. *)
Definition cloned_handles_share_one_registry : bool := passes (endpoint 1) (
  snapshot_is 0 0;;
  registers 0%nat;;
  snapshot_is 1 1).

Definition close_via_one_handle_fences_registration_seen_through_shared : bool := passes (endpoint 1) (
  act (close H3_NO_ERROR (str "bye"));;
  o ← act (try_register 0%nat); assert (bool_decide (¬ is_Some o));;
  snapshot_is 0 0).

Definition endpoint_tests : list bool :=
  [ close_broadcasts_to_live_workers_and_skips_dead_entries; dropping_last_guard_wakes_parked_wait_idle;
    wait_idle_created_before_drop_still_resolves; wait_idle_returns_immediately_when_already_idle;
    try_register_is_refused_after_close; close_is_idempotent_first_frame_wins;
    wait_idle_without_close_blocks_then_wakes_on_organic_drain; cloned_handles_share_one_registry;
    close_via_one_handle_fences_registration_seen_through_shared ].

(** Every test passes. *)
Theorem endpoint_tests_pass : Forall Is_true endpoint_tests.
Proof. vm_compute. repeat constructor. Qed.

(** ** Files and tokio-quiche *)

(** Settings are an ALPN list, a listener is a number per socket. *)
#[export] Instance ref_tokio_quiche : TokioQuiche := {|
  QuicSettings := list Bytes;
  settings_alpn s := s;
  settings_set_verify_peer _ s := s;
  settings_default := [str "h3"];
  Hooks := unit;
  hooks_default := tt;
  ConnectionParams := unit;
  new_server _ _ _ := tt;
  new_client _ _ _ := tt;
  UdpSocket := nat;
  QuicConnectionStream := nat;
  listen sockets _ := Ok sockets;
|}.

(** The paths of the tests: a missing file, a directory, everything else is a
    readable file. *)
Definition missing : string := "/nonexistent/quiche-h3/missing.crt".
Definition directory : string := "/tmp".
#[local] Instance test_fs : FileSystem := {|
  fs_is_file path :=
    if bool_decide (path = missing) then Err "no such file" else Ok (negb (bool_decide (path = directory)));
  fs_open _ := Ok tt;
|}.

(** ** listener.rs *)

Definition with_paths (cert key : string) (c : H3QuicheServerConfig) : H3QuicheServerConfig :=
  mkServerConfig cert key (sc_settings c) (sc_hooks c) (sc_accept_bidi_cap c) (sc_accept_uni_cap c)
    (sc_max_in_flight_handshakes c) (sc_recv_channel_depth c) (sc_max_buffered_send_bytes c).

Definition bind_rejects_empty_socket_set : bool :=
  match bind [] server_config_default with Err NoSockets => true | _ => false end.

Definition bind_rejects_missing_cert : bool :=
  match bind [0%nat] (with_paths missing missing server_config_default) with
  | Err (NotAccessible label _ _) => bool_decide (label = "TLS certificate")
  | _ => false
  end.

Definition default_handshake_cap_is_256 : bool :=
  (DEFAULT_MAX_IN_FLIGHT_HANDSHAKES =? 256) && (sc_max_in_flight_handshakes server_config_default =? 256).

(** [H3QuicheServerConfig { recv_channel_depth, max_buffered_send_bytes, ..default() }] *)
Definition custom_server (depth : N) (cap : option N) : H3QuicheServerConfig :=
  let c := server_config_default in
  mkServerConfig (sc_cert_path c) (sc_key_path c) (sc_settings c) (sc_hooks c) (sc_accept_bidi_cap c)
    (sc_accept_uni_cap c) (sc_max_in_flight_handshakes c) depth cap.

Definition server_config_recv_depth_defaults_and_overrides : bool :=
  (sc_recv_channel_depth server_config_default =? BYTE_CHANNEL_DEPTH) &&
  (sc_recv_channel_depth (custom_server 16 None) =? 16).

Definition server_config_send_cap_defaults_none_and_overrides : bool :=
  bool_decide (sc_max_buffered_send_bytes server_config_default = None) &&
  bool_decide (sc_max_buffered_send_bytes (custom_server BYTE_CHANNEL_DEPTH (Some (2 ^ 20))) = Some (2 ^ 20)).

Definition listener_tests : list bool :=
  [ bind_rejects_empty_socket_set; bind_rejects_missing_cert; default_handshake_cap_is_256;
    server_config_recv_depth_defaults_and_overrides; server_config_send_cap_defaults_none_and_overrides ].

(** Every test passes. *)
Theorem listener_tests_pass : Forall Is_true listener_tests.
Proof. vm_compute. repeat constructor. Qed.

(** ** connector.rs *)

(** [H3QuicheClientConfig { ..., ..default() }] *)
Definition custom_client (settings : QuicSettings) (cert key : option string) (depth : N) (cap : option N)
    : H3QuicheClientConfig :=
  let c := client_config_default in
  mkClientConfig settings (cc_hooks c) cert key (cc_verify_peer c) (cc_server_name c) depth cap.
Definition with_tls (cert key : option string) : H3QuicheClientConfig :=
  custom_client settings_default cert key BYTE_CHANNEL_DEPTH None.
Definition new_with (config : H3QuicheClientConfig) : Result H3QuicheConnector SetupError :=
  connector_new "127.0.0.1:4433" false "localhost" config.

Definition new_rejects_unreadable_cert : bool :=
  match new_with (with_tls (Some missing) (Some missing)) with
  | Err (NotAccessible label _ _) => bool_decide (label = "client TLS certificate")
  | _ => false
  end.

Definition new_accepts_config_without_mtls : bool :=
  match new_with client_config_default with Ok _ => true | Err _ => false end.

Definition client_config_recv_depth_defaults_and_overrides : bool :=
  (cc_recv_channel_depth client_config_default =? BYTE_CHANNEL_DEPTH) &&
  (cc_recv_channel_depth (custom_client settings_default None None 32 None) =? 32).

Definition client_config_send_cap_defaults_none_and_overrides : bool :=
  bool_decide (cc_max_buffered_send_bytes client_config_default = None) &&
  bool_decide (cc_max_buffered_send_bytes
    (custom_client settings_default None None BYTE_CHANNEL_DEPTH (Some (512 * 1024))) = Some (512 * 1024)).

Definition is_rejected {A} (r : Result A SetupError) : bool := match r with Ok _ => false | Err _ => true end.

Definition new_rejects_partial_mtls : bool :=
  is_rejected (new_with (with_tls (Some "/tmp/some.crt") None)) &&
  is_rejected (new_with (with_tls None (Some "/tmp/some.key"))).

Definition new_rejects_directory_as_cert : bool :=
  match new_with (with_tls (Some directory) (Some directory)) with Err (NotRegularFile _ _) => true | _ => false end.

Definition new_rejects_empty_alpn : bool :=
  match new_with (custom_client [] None None BYTE_CHANNEL_DEPTH None) with Err (EmptyAlpn _) => true | _ => false end.

Definition connector_tests : list bool :=
  [ new_rejects_unreadable_cert; new_accepts_config_without_mtls;
    client_config_recv_depth_defaults_and_overrides; client_config_send_cap_defaults_none_and_overrides;
    new_rejects_partial_mtls; new_rejects_directory_as_cert; new_rejects_empty_alpn ].

(** Every test passes. *)
Theorem connector_tests_pass : Forall Is_true connector_tests.
Proof. vm_compute. repeat constructor. Qed.
