(* ===== verification/Runs.v ===== *)
(** * Two runs the comments do not promise

    Concrete runs of the worker on the mock connection, each evaluated: a deferred
    write that keeps a blocked worker busy, and a finished stream that comes
    back. *)

From S2P Require Import Prelude Interfaces Reference Error Buffer Conn DriverTypes DriverStore DriverCore DriverRecv DriverSend Driver TestKit.

(** ** A blocked deferred write keeps the worker busy

    A write that fits the stream's capacity is deferred; if the connection's
    capacity is gone when it is flushed, it stays deferred with no operation
    behind it.  From then on, with nothing happening at all, every wait resolves
    at once, the write stage offers the same bytes again, none is taken, and the
    worker's state comes back to what it was. *)

Definition spin_round : ST W (WaitPoint * bool) :=
  p ← gets (λ w, wait_for_data_start (drv w));
  resolved ← wait_for_data_poll p;
  do_process_writes;;
  mret (p, resolved).

Definition blocked_world : W :=
  let c := mock.new <| send_capacity := {[0 := 0]} |> <| capacity := {[0 := Ok 4]} |> in
  exec (push_send 0 [str "ping"];; do_process_writes) (start c).


(** ** A late STOP_SENDING brings a finished stream back

    A server reads a request to its FIN, answers and sends its own FIN: both
    halves are done and every trace of the stream leaves the registries.  If the
    peer's STOP_SENDING for it is reported by the writable scan only then, the
    scan takes the id for a stream never seen and admits it once more: the front
    end is handed the same stream a second time. *)

Definition served_world : W :=
  let c := mock.queue_readable [0] (mock.script_recv 0 [RecvData (str "req") true] mock.new) in
  exec (do_process_reads;; push_finish 0;; do_process_writes) (driver_new true 4 4 c).

Definition late_stop (w : W) : W :=
  w <| qc ::= λ c, c <| writable_next := [0] |> <| capacity := {[0 := Err (quiche.StreamStopped 7)]} |> |>.

Definition handed_over (w : W) : list N := (λ h, sh_id (bh_send h)) <$> cs_queue (accept_bidi_chan (sto w)).

