(* ===== verification/Witness.v ===== *)
(** * The hypotheses can be met

    For every theorem with a hypothesis, an instance of it on the reference
    libraries, the mock connection and a concrete state. *)

From S2P Require Import Prelude Interfaces Reference Error Buffer BufferLogic Conn DriverTypes DriverStore Endpoint Setup Listener Connector DriverCore DriverRecv DriverSend Driver DriverLogic StoreLogic Trace DriverReach DriverInv Cursor Fairness DriverSendInv DriverClose DriverIds DriverBytes Finish DriverRecvBytes DriverProgress DriverTeardown Stream StreamLogic System Outbound Typing Directions Accounting Delivery Handshake Wakeup TestKit Runs EndpointTests RoundRobin Arena.

Abbreviation TM := (Traced MockConn).
Abbreviation TWorld := (World Segments TM).

(** A traced client on a mock connection. *)
Definition traced (c : MockConn) : TWorld := driver_new false 4 4 (mkTraced c []).

(** ** Executions *)

Definition readable_mock : MockConn :=
  mock.queue_readable [1] (mock.script_recv 1 [RecvData (str "hello") true] mock.new).

Lemma reachable_driver_wf_witness :
  driver_wf (drv (exec do_process_reads (exec on_conn_established (start readable_mock)))).
Proof.
  apply reachable_driver_wf. exists (start readable_mock). split.
  - by exists false, 4, 4, default_buffers, readable_mock.
  - eapply rtc_l; [left; apply turn_established|].
    eapply rtc_l; [left; apply turn_reads; reflexivity|]. reflexivity.
Defined.

Lemma observed_established (c : MockConn) : observed (exec on_conn_established (traced c)).
Proof.
  exists (traced c). split; [by exists false, 4, 4, default_buffers, (mkTraced c [])|].
  eapply rtc_l; [left; apply turn_established|]. reflexivity.
Defined.

(** The front end works on the store between two callbacks. *)
Definition between {A} (m : ST (Store Segments) A) (w : TWorld) : TWorld := exec (shared m) w.

Lemma observed_between {A} (m : ST (Store Segments) A) (w : TWorld) : observed w → observed (between m w).
Proof.
  intros (w0&Hw0&Hs). exists w0. split; [done|]. eapply rtc_r; [exact Hs|]. by right.
Defined.
Lemma observed_writes (w : TWorld) :
  should_act (drv w) = true → observed w → observed (exec do_process_writes w).
Proof.
  intros Ha (w0&Hw0&Hs). exists w0. split; [done|]. eapply rtc_r; [exact Hs|]. left. by apply turn_writes.
Defined.

(** A client told to open a stream, and told to close. *)
Definition asked_to_open : TWorld :=
  between (a ← alloc uni_replies os_new; cmd_send (OpenUni a)) (exec on_conn_established (traced (mock.new <| streams_left_uni := 3 |>))).
Definition asked_to_close : TWorld :=
  between (cmd_send (RecvResume 8);; cmd_send (Close 0x100 (str "bye")))
    (exec on_conn_established (traced mock.new)).

Lemma at_most_one_close_witness :
  close_agrees (closes (log (exec do_process_writes asked_to_close)))
    (close_state (drv (exec do_process_writes asked_to_close))).
Proof.
  apply at_most_one_close, observed_writes; [reflexivity|].
  apply observed_between, observed_established.
Defined.

Lemma first_close_is_issued_witness :
  ∃ r, closes (log (exec do_process_writes asked_to_close)) = [CClose true 0x100 (str "bye") r] ∧
    close_state (drv (exec do_process_writes asked_to_close)) =
      close_record 0x100 (str "bye") explicit_close_error r.
Proof.
  apply (first_close_is_issued asked_to_close [RecvResume 8] 0x100 (str "bye") []).
  - apply observed_between, observed_established.
  - reflexivity.
  - reflexivity.
  - reflexivity.
  - by intros cmd ->%list_elem_of_singleton.
  - vm_compute. lia.
Defined.

Lemma stream_ids_consecutive_witness :
  let w := exec do_process_writes asked_to_open in
  let srv := is_server (drv w) in
  next_uni_id (drv w) = 6 ∧
  ∃ n m, materialized true (log w) = nth_id srv true <$> seq 0 n ∧ next_bidi_id (drv w) = nth_id srv true n ∧
    materialized false (log w) = nth_id srv false <$> seq 0 m ∧ next_uni_id (drv w) = nth_id srv false m.
Proof.
  split; [vm_compute; reflexivity|]. apply (stream_ids_consecutive (exec do_process_writes asked_to_open)), observed_writes; [reflexivity|].
  apply observed_between, observed_established.
Defined.

Lemma stream_ids_distinct_witness :
  NoDup (nth_id true false <$> seq 0 3) ∧
  Forall (λ id, id mod 4 = id_base true false ∧ is_bidi id = false) (nth_id true false <$> seq 0 3).
Proof. apply stream_ids_distinct. vm_compute. done. Defined.

(** A stream is discovered, admitted and read, and the application accepts it. *)
Definition read_once : TWorld := exec do_process_reads (exec on_conn_established (traced readable_mock)).
Lemma calls_are_directed_witness :
  let w := read_once <| sto := exec (run_front (FrontAcceptBidi 1%nat)) (sto read_once) |> in
  length (log w) = 3%nat ∧
  Forall (directed false) (log w) ∧ Forall (sendable false) [1] ∧ Forall (receivable false) [1].
Proof.
  intros w. split; [vm_compute; reflexivity|].
  apply (calls_are_directed (traced readable_mock) w (mkHeld [1] [1])).
  - by exists false, 4, 4, default_buffers, (mkTraced readable_mock []).
  - eapply rtc_l; [apply held_worker, turn_established|].
    eapply rtc_l; [apply held_worker, turn_reads; reflexivity|].
    apply rtc_once. exact (held_front _ (mkHeld [] []) (FrontAcceptBidi 1%nat) I).
  - vm_compute. repeat constructor. discriminate.
Defined.

Lemma cursors_are_scanned_lists_witness :
  let ops := [Enqueue Runnable 4; Enqueue Runnable 8; Enqueue Runnable 4; PopFront Runnable; ForgetSend 8; PopFront Runnable] in
  let w := start mock.new in let d' := drv (exec (run_ops ops) w) in let r := ref_ops ops (queue_of (drv w)) in
  r.1 = [None; None; None; Some 4; None; None] ∧
  result (run_ops ops) w = r.1 ∧ ∀ c, queue_of d' c = r.2 c ∧ ∀ id, id ∈ members_of d' c ↔ id ∈ r.2 c.
Proof.
  intros ops w d' r. split; [vm_compute; reflexivity|]. apply (cursors_are_scanned_lists ops w).
  apply wf_queues, (initial_wf (λ _, True)). by exists false, 4, 4, default_buffers, mock.new.
Defined.

(** ** Sending *)

(** A write whose capacity is short, then a finish behind it. *)
Definition queued : TWorld :=
  exec (push_send 0 [str "DH"; str "hello"];; push_finish 0;; apply_inbox)
    (traced (mock.new <| send_capacity := {[0 := 3]} |> <| capacity := {[0 := Ok 3]} |>)).
(** A deferred write with the finish at the head. *)
Definition deferred : TWorld :=
  exec (push_send 0 [str "hi"];; push_finish 0;; apply_inbox;; service_send_turn 0) (traced mock.new).

Lemma stage_send_fifo_witness :
  live 0 (drv (exec stage_send queued)) ∧
  outgoing 0 (exec stage_send queued) = outgoing 0 queued.
Proof.
  assert (live 0 (drv (exec stage_send queued))) as Hl.
  { eexists. split; [vm_compute; reflexivity|]. reflexivity. }
  split; [exact Hl|]. by apply stage_send_fifo.
Defined.

Lemma fin_rides_the_last_byte_witness :
  ∃ s, send (drv deferred) !! 0 = Some s ∧ held_bytes s = str "hi" ∧
    CSend 0 (str "hi") true (Ok 2) ∈ drop (length (log deferred)) (log (exec (service_send_turn 0) deferred)) ∧
    ∃ k ops, send_ops s = OpFinish k :: ops.
Proof.
  eexists. split; [vm_compute; reflexivity|]. split; [reflexivity|].
  assert (CSend 0 (str "hi") true (Ok 2) ∈
    drop (length (log deferred)) (log (exec (service_send_turn 0) deferred))) as Hin.
  { vm_compute. left. }
  split; [exact Hin|].
  eapply (fin_rides_the_last_byte 0 deferred); [vm_compute; reflexivity| |exact Hin|reflexivity].
  vm_compute. reflexivity.
Defined.

Lemma only_runnable_wf (d : QuicheDriver Segments) :
  runnable_send d = [0; 4] → runnable_send_set d = {[0; 4]} →
  pending_readable d = [] → readable_set d = ∅ → pending_resume d = [] → resume_set d = ∅ → queues_wf d.
Proof.
  intros E1 E2 E3 E4 E5 E6. split; rewrite ?E1, ?E2, ?E3, ?E4, ?E5, ?E6; clear.
  1,2: split; [apply NoDup_nil_2|set_solver].
  split; [apply (bool_decide_unpack _); vm_compute; exact I|]. intros id. set_solver.
Qed.

(** Two streams with work, one of them with more than a turn's. *)
Definition two_runnable : TWorld :=
  exec (push_send 0 [str "DH"; str "hello"];; push_send 0 [str "more"];; push_send 4 [str "z"];; apply_inbox)
    (traced (mock.new <| capacity := {[0 := Ok 3]} |>)).

(** Two streams with more to read, and budget for two chunks. *)
Definition two_readable : TWorld :=
  exec (requeue_readable 1;; requeue_readable 5;; dmod (λ d, d <| read_budget := 2 |>))
    (exec do_process_reads (exec on_conn_established (traced
       (mock.queue_readable [1; 5]
         (mock.script_recv 1 (replicate 40 (RecvData (str "x") false))
           (mock.script_recv 5 (replicate 40 (RecvData (str "y") false)) mock.new)))))).

Lemma only_readable_wf (d : QuicheDriver Segments) :
  pending_readable d = [1; 5] → readable_set d = {[1; 5]} →
  runnable_send d = [] → runnable_send_set d = ∅ → pending_resume d = [] → resume_set d = ∅ → queues_wf d.
Proof.
  intros E1 E2 E3 E4 E5 E6. split; rewrite ?E1, ?E2, ?E3, ?E4, ?E5, ?E6; clear.
  2,3: split; [apply NoDup_nil_2|set_solver].
  split; [apply (bool_decide_unpack _); vm_compute; exact I|]. intros id. set_solver.
Qed.


Lemma finish_succeeds_iff_fin_taken_witness :
  ∃ s, send (drv deferred) !! 0 = Some s ∧ held_bytes s = str "hi" ∧ ¬ finish_succeeded 0 (sto deferred) ∧
    finish_succeeded 0 (sto (exec (service_send_turn 0) deferred)).
Proof.
  assert (∃ s : StreamSendState Segments, send (drv deferred) = {[0 := s]} ∧ held s = Some (mkHeldWrite [str "hi"]) ∧
    send_ops s = [OpFinish 0%nat] ∧ terminal s = None ∧ pending_reset s = None) as (s&Hm&Hh&Hops&Ht&Hr).
  { eexists. split; [vm_compute; reflexivity|]. done. }
  assert (send (drv deferred) !! 0 = Some s) as Hs by (rewrite Hm; apply lookup_singleton_eq).
  assert (¬ finish_succeeded 0 (sto deferred)) as Hno by by vm_compute.
  exists s. split; [exact Hs|]. split; [unfold held_bytes; by rewrite Hh|]. split; [exact Hno|].
  apply (finish_succeeds_iff_fin_taken 0 0 deferred s).
  - unfold send_wf. rewrite Hm. apply map_Forall_singleton. split; [done..|]. intros h. rewrite Hh. by intros [= <-].
  - exact Hs.
  - exact Hno.
  - split_and!; [by exists []|by vm_compute|]. unfold held_bytes. rewrite Hh. vm_compute. reflexivity.
Defined.

(** A client's stream on which the transport takes three bytes for now, the
    half the application got for it, and the run in which it writes five. *)
Definition opened : TWorld :=
  exec do_process_writes (between (a ← alloc uni_replies os_new; cmd_send (OpenUni a))
    (exec on_conn_established (traced (mock.new <| streams_left_uni := 3 |>
       <| send_capacity := {[2 := 3]} |> <| capacity := {[2 := Ok 3]} |>)))).
Definition opened_half : H3SendStream (B := Segments) :=
  mkH3SendStream 2 0%nat None 0%nat None None None false None.
Definition given : Segments := [str "he"; str "llo"].
Definition after_call (call : SendCall (B := Segments)) (p : Source (B := Segments) (C := MockConn)) : Source (B := Segments) (C := MockConn) :=
  let w := src_world p in let r := src_half p in
  mkSource (w <| sto := exec (run_call call r) (sto w) |>) (result (run_call call r) (sto w))
    (src_given p ++ StreamLogic.taken call r).
Definition submitted_run : Source :=
  after_call (CallReady 1%nat) (after_call (CallData given) (mkSource opened opened_half [])).
Definition after_writes (p : Source (B := Segments) (C := MockConn)) : Source (B := Segments) (C := MockConn) :=
  mkSource (exec do_process_writes (src_world p)) (src_half p) (src_given p).
Definition given_run : Source := after_writes submitted_run.
Lemma after_call_step id call p : source_step id p (after_call call p).
Proof. destruct p. apply source_call. Defined.
Lemma after_writes_step id p : should_act (drv (src_world p)) = true → source_step id p (after_writes p).
Proof. destruct p. intros Ha. by apply source_worker, turn_writes. Defined.
Lemma given_run_steps : rtc (source_step 2) (mkSource opened opened_half []) given_run.
Proof.
  assert (should_act (drv (src_world submitted_run)) = true) as Ha by (vm_compute; reflexivity).
  eapply rtc_l; [apply (after_call_step 2 (CallData given))|].
  eapply rtc_l; [apply (after_call_step 2 (CallReady 1%nat))|].
  apply rtc_once. exact (after_writes_step 2 submitted_run Ha).
Defined.

Lemma transport_gets_what_was_written_witness :
  let w := src_world given_run in
  (accepted 2 (log w) = str "he" ∧ content (src_given given_run) = str "hello") ∧
  accepted 2 (log w) `prefix_of` content (src_given given_run) ∧
  ∀ s, send (drv w) !! 2 = Some s → terminal s = None →
    content (src_given given_run) = accepted 2 (log w) ++ DriverBytes.owed s ++ cmds_bytes 2 (backlog w)
                    ++ content (option_list (fs_stash (src_half given_run))).
Proof.
  intros w. split; [split; vm_compute; reflexivity|].
  apply (transport_gets_what_was_written opened opened_half given_run).
  - split; [reflexivity|vm_compute; lia| |vm_compute; reflexivity..].
    eexists. split; [vm_compute; reflexivity|]. reflexivity.
  - exact given_run_steps.
  - eexists. split; vm_compute; reflexivity.
Defined.

(** ** Receiving *)

(** A registered peer stream, on which "hello" and FIN then arrive. *)
Definition discovered : TWorld :=
  exec (admit_one (peer_stream_new 1)) (traced mock.new)
    <| qc := mkTraced (mock.script_recv 1 [RecvData (str "hello") true] mock.new) [] |>.

Lemma drain_delivers_what_was_read_witness :
  ∃ l, log (exec (drain_stream 1) discovered) = log discovered ++ l ∧
    queue_at 0 (sto (exec (drain_stream 1) discovered)) = queue_at 0 (sto discovered) ++ chunks 1 l.
Proof.
  apply (drain_delivers_what_was_read 1 (mkStreamRecvState 0 0 0 1)). vm_compute. reflexivity.
Defined.

Lemma read_pump_bounded_witness :
  ∃ l, log (exec do_process_reads discovered) = log discovered ++ l ∧
    N.of_nat (length (omap any_chunk l)) ≤ READ_BUDGET ∧
    Forall (λ b, N.of_nat (length b) ≤ MAX_CHUNK) (omap any_chunk l).
Proof. apply read_pump_bounded. Defined.


(** ** Progress *)

Lemma parks_only_when_idle_witness :
  idle (exec do_process_writes (exec on_conn_established (start mock.new))).
Proof. apply parks_only_when_idle. vm_compute. reflexivity. Defined.

(** Two peer streams discovered, one accept slot. *)
Definition pending_pair : W :=
  exec intake_readable (driver_new false 1 1 (mock.queue_readable [1; 5] mock.new)).

Lemma phase2_admission_terminates_witness :
  exec phase2_admission pending_pair = exec (phase2_loop 7 ADMIT_BUDGET false false true) pending_pair.
Proof. apply phase2_admission_terminates. vm_compute. lia. Defined.

(** ** Terminals *)

Lemma worker_keeps_terminals_witness :
  settles (sto pending_pair) (sto (exec do_on_conn_close pending_pair)).
Proof. apply worker_keeps_terminals, turn_close. Defined.

Lemma system_terminals_final_witness :
  let w := exec do_on_conn_close pending_pair in
  sticky (sto w) (sto (exec on_conn_established (w <| sto := exec (poll_accept_bidi 0) (sto w) |>))).
Proof.
  intros w. apply system_terminals_final.
  eapply rtc_l; [apply system_front; by exists (FrontAcceptBidi 0%nat)|].
  eapply rtc_l; [apply system_worker, turn_established|]. reflexivity.
Defined.

(** A client that has submitted a write of four bytes. *)
Definition submitted : TestKit.W :=
  let w := exec on_conn_established (start mock.new) in
  let r := mkH3SendStream 0 0%nat (Some [str "ping"]) 0%nat None None None false None in
  w <| sto := exec (poll_ready 1%nat r) (sto w) |>.

Lemma system_accounting_exact_witness :
  outstanding submitted = 4 ∧
  sa_resident (send_accounting (sto submitted)) = outstanding submitted ∧
  sa_resident (send_accounting (sto (exec do_on_conn_close submitted))) = 0.
Proof.
  split; [reflexivity|]. apply (system_accounting_exact (λ _, True) (start mock.new)).
  - by exists false, 4, 4, default_buffers, mock.new.
  - eapply rtc_l; [apply system_worker, turn_established|].
    apply rtc_once, system_front. by eexists (FrontPollReady _ _).
Defined.

(** ** Cells *)

Lemma terminal_poll_no_lost_wakeup_witness :
  let c := mkConfig (tc_install 7 (tc_register 3%nat tc_new)).2 Asleep 1 false in
  wake_up c = true ∨ ((0 < owed c)%nat ∧ (tc_wake (shared_st c)).1 = Some 3%nat).
Proof.
  intros c. apply (terminal_poll_no_lost_wakeup 3%nat tc_new); [|done|by eexists].
  eapply rtc_l; [apply step_arm|]. eapply rtc_l; [apply step_sleep; by intros [? ?]|].
  eapply rtc_l; [apply step_publish; by exists 7|]. reflexivity.
Defined.

Lemma write_poll_no_lost_wakeup_witness :
  let c0 := (wc_begin (E := SendEnd) wc_new).2 in
  let c := mkConfig (wc_store 1 WriteCancelled (wc_register 3%nat c0)).2 Asleep 1 false in
  wake_up c = true ∨ ((0 < owed c)%nat ∧ (wc_wake (shared_st c)).1 = Some 3%nat).
Proof.
  intros c0 c. apply (write_poll_no_lost_wakeup 1 3%nat c0); [|done|by eexists].
  eapply rtc_l; [apply step_arm|]. eapply rtc_l; [apply step_sleep; by intros [? ?]|].
  eapply rtc_l; [apply step_publish; by exists 1, WriteCancelled|]. reflexivity.
Defined.

(** One write begun, its completer dropped. *)
Definition dropped_write : WriteSys (E := SendEnd) :=
  mkWriteSys (wcr_drop (mkWriteCompleter 0 1 false) (wc_begin wc_new).2).2 (FWaiting 1) [] 1
    [(1, WriteCancelled)] [].

Lemma write_completion_exactly_once_witness :
  NoDup (ws_got dropped_write).*1 ∧ NoDup (ws_given dropped_write).*1 ∧
  (∀ x, x ∈ ws_got dropped_write → x ∈ ws_given dropped_write) ∧
  (∀ g cx, ws_front dropped_write = FWaiting g → g ∉ ws_live dropped_write →
     ∃ o, (wc_poll g cx (ws_cell dropped_write)).1 = Ready o ∧ (g, o) ∈ ws_given dropped_write).
Proof.
  apply write_completion_exactly_once; [|done].
  eapply rtc_l; [apply write_bump|]. eapply rtc_l; [apply write_clear|].
  eapply rtc_l; [apply (write_drop _ _ [] _ [] _ _ _ 0)|]. reflexivity.
Defined.

(** An oversize unit under a small cap, and the cap refusing a second one. *)
Definition oversize : SendAccounting * list SendBytesPermit :=
  ((sa_try_reserve 9 (sa_new (Some 4))).2, [mkPermit 9]).

Lemma accounting_bounded_witness :
  sa_resident oversize.1 = total oversize.2 ∧ sa_resident oversize.1 ≤ usize_max ∧
  ∀ c, Some 4 = Some c → sa_resident oversize.1 ≤ c ∨ ∃ n, sizes oversize.2 = [n].
Proof.
  apply accounting_bounded. eapply rtc_l; [eapply (acct_reserve (sa_new (Some 4)) _ [] 9 (mkPermit 9)); reflexivity|].
  eapply rtc_l; [eapply (acct_refuse _ _ _ 1); reflexivity|]. reflexivity.
Defined.

(** The worker finds the accept queue full and sleeps, the application takes a
    stream and is about to signal. *)
Definition full_accept : Store Segments :=
  sto (exec do_process_reads (driver_new (B := Segments) false 1 1 (mock.queue_readable [1; 5] mock.new))).


Lemma send_turns_conserve_witness :
  let buf := [str "DH"; str "hello"] : Segments in
  let r := send_turns buf [Ok 2; Ok 3; Err quiche.Done] in
  r.1 = str "DHhel" ∧ buf_bytes buf = r.1 ++ buf_bytes r.2.
Proof.
  split; [vm_compute; reflexivity|]. apply send_turns_conserve.
  repeat (split; [vm_compute; done|]). exact I.
Defined.

(** ** The front end *)

Abbreviation Sto := (Store Segments).
Definition fresh_store : Sto := sto (start mock.new).
Definition send_half : H3SendStream (B := Segments) := result (send_from_handoff (mkSendHandoff 0 0 (cleanup_new 0 false)))
  (exec (alloc send_cells tc_new) fresh_store).
Definition half_store : Sto := exec (send_from_handoff (mkSendHandoff 0 0 (cleanup_new 0 false)))
  (exec (alloc send_cells tc_new) fresh_store).

(** Two writes, polled; the worker completes the first in between. *)
Definition write_calls : list ((Sto → Sto) * SendCall (B := Segments)) :=
  [(id, CallData [str "a"]); (id, CallReady 1%nat);
   (exec (complete_write (wc_completer 0 1) (Ok tt)), CallReady 1%nat); (id, CallData [str "b"]);
   (id, CallReady 1%nat); (id, CallFinish 1%nat)].

Lemma writes_submitted_in_order_witness :
  let x := session write_calls send_half half_store in
  written (sl_cmds x.1.1) = [[str "a"]; [str "b"]] ∧
  option_list (fs_stash send_half) ++ sl_taken x.1.1 = written (sl_cmds x.1.1) ++ option_list (fs_stash x.1.2).
Proof.
  split; [vm_compute; reflexivity|]. apply writes_submitted_in_order. vm_compute. done.
Defined.

(** The finish was answered before it is polled. *)
Definition finishing : H3SendStream (B := Segments) * Sto :=
  let x := poll_finish 1%nat send_half half_store in
  (x.1.2, exec (finish_send 0 (Ok tt)) x.2).

Lemma poll_finish_stable_witness :
  let r' := (result (poll_finish 1%nat finishing.1) finishing.2).2 in
  result (poll_finish 2%nat r') finishing.2 = (Ready (Ok tt), r').
Proof.
  apply (poll_finish_stable 1%nat 2%nat finishing.1 finishing.2); [done|vm_compute; reflexivity|reflexivity].
Defined.

(** Two chunks queued behind FIN. *)
Definition recv_half : H3RecvStream := mkH3RecvStream 0 0 0 0 1 false false.
Definition recv_store : Sto :=
  fresh_store <| byte_chans := [mkChanState [str "he"; str "llo"] (Some 2%nat) 0 true 1] |>
    <| recv_cells := [mkTerminalCell (Some RecvFin) None] |> <| flags := [false; true] |>.


(** The worker drains a stream to its FIN, then the application polls it. *)
Definition polled : H3RecvStream := mkH3RecvStream 1 0%nat 0%nat 0%nat 1%nat false false.
Definition piped : Pipe :=
  let w := exec (drain_stream 1) discovered in
  let x := result (poll_data 1%nat polled) (sto w) in
  mkPipe (w <| sto := exec (poll_data 1%nat polled) (sto w) |>) x.2 ([] ++ yielded x.1).


(** ** The park flag *)

Lemma flags_allocated_witness : flags_allocated recv_half recv_store.
Proof. split_and!; [by eexists..|done]. Defined.


Lemma signal_resume_exactly_one_witness :
  let s' := exec (signal_resume recv_half) recv_store in
  park_flag recv_half s' = false ∧
  (park_flag recv_half recv_store = true → default false (flags s' !! 0%nat) = true) ∧
  emits [RecvResume 0] recv_store s'.
Proof. apply (signal_resume_exactly_one recv_half recv_store), flags_allocated_witness. Defined.

(** ** The endpoint *)

Abbreviation EPW := (EndpointShared Segments MockConn).
Definition one_conn : EPW := endpoint_shared_new <| ep_conns := [start mock.new] |>.
Definition registered_conn : EPW := exec (try_register 0) one_conn.

Lemma registry_exact_witness :
  let s := mkRegistry registered_conn [0] 1 in
  dom (conns (ep_state (rg_ep s))) = list_to_set (rg_guards s) ∧
  Endpoint.live (ep_state (rg_ep s)) = N.of_nat (length (rg_guards s)) ∧
  (∀ i, result (wait_idle_round i) (rg_ep s) = true ↔ rg_guards s = []).
Proof.
  apply registry_exact; [|done]. eapply rtc_l; [by apply (reg_env _ one_conn)|].
  eapply rtc_l; [by apply (reg_ok _ _ _ 0)|]. reflexivity.
Defined.

Lemma admission_fence_witness :
  let e := exec (close 0x100 (str "bye")) registered_conn in
  let e' := exec (registration_drop 0) e in
  closing (ep_state e') = true ∧ next_id (ep_state e') = next_id (ep_state e) ∧
  conns (ep_state e') ⊆ conns (ep_state e) ∧
  (∀ f, close_frame (ep_state e) = Some f → close_frame (ep_state e') = Some f).
Proof.
  intros e e'. apply (admission_fence (mkRegistry e [0] 1) (mkRegistry e' [] 1)); [reflexivity|].
  eapply rtc_l; [by apply (reg_refused _ _ _ 3)|].
  eapply rtc_l; [apply (reg_drop _ [])|]. reflexivity.
Defined.

Lemma close_broadcast_witness :
  let e' := exec (close 0x100 (str "bye")) registered_conn in
  cs_queue <$> cmd_view e' 0 = Some [Close 0x100 (str "bye")] ∧
  close_frame (ep_state e') = Some (0x100, str "bye") ∧ closing (ep_state e') = true ∧
  ep_accept_wake e' = nt_notify_waiters (ep_accept_wake registered_conn) ∧
  ∀ a, cmd_view e' a =
       if decide (a ∈ registered_conns (ep_state registered_conn))
       then told (0x100, str "bye") <$> cmd_view registered_conn a else cmd_view registered_conn a.
Proof.
  split; [vm_compute; reflexivity|]. apply close_broadcast. vm_compute. apply NoDup_singleton.
Defined.


(** ** The acceptor *)

(** Every path is a readable file. *)
#[export] Instance ref_fs : FileSystem := {| fs_is_file _ := Ok true; fs_open _ := Ok tt |}.

Definition acceptor : H3QuicheAcceptor := acceptor_of server_config_default 0%nat.
Definition listening : Listening Segments MockConn := mkListening acceptor endpoint_shared_new.
(** One connection came in, and its worker reported establishment. *)
Definition sn0 : Snapshot := mkSnapshot false false.
Definition one_handshake : Listening Segments MockConn :=
  exec (accept_arm 2 1%nat sn0 (Incoming (Some (Ok mock.new)))) (exec (accept_top 2) listening).
Definition one_ready : Listening Segments MockConn :=
  one_handshake <| ep ::= λ e, e <| ep_conns ::= fmap (exec on_conn_established) |> |>.
Definition one_yielded : Listening Segments MockConn :=
  exec (accept_arm 2 1%nat sn0 (HandshakeDone 0)) (exec (accept_top 2) one_ready).

Lemma accept_loop_safe_witness :
  N.of_nat (length (ac_handshakes (acc one_yielded))) ≤ ac_max_in_flight_handshakes (acc one_yielded) ∧
  NoDup [0%nat] ∧ ∀ c, c ∈ [0%nat] → c ∉ ac_handshakes (acc one_yielded).
Proof.
  apply (accept_loop_safe 2 1%nat acceptor endpoint_shared_new (mkAcceptRun one_yielded AtTop [0%nat])); [done|].
  eapply rtc_l; [apply accept_step_top|].
  eapply rtc_l; [apply (accept_step_arm _ _ _ sn0 (Incoming (Some (Ok mock.new)))); reflexivity|].
  eapply rtc_l; [apply (accept_step_env _ _ _ (ep one_ready)); vm_compute; lia|].
  eapply rtc_l; [apply accept_step_top|].
  eapply rtc_l; [apply (accept_step_arm _ _ _ sn0 (HandshakeDone 0)); vm_compute; reflexivity|]. reflexivity.
Defined.

(** The same, with the endpoint closed after the handshake. *)
Definition closed_ready : Listening Segments MockConn :=
  one_ready <| ep ::= exec (close 0x100 (str "bye")) |>.

Lemma closing_accepts_nothing_witness :
  let l' := exec (accept_arm 2 1%nat sn0 (HandshakeDone 0)) closed_ready in
  result (accept_arm 2 1%nat sn0 (HandshakeDone 0)) closed_ready = Continue ∧
  length (ep_conns (ep l')) = length (ep_conns (ep closed_ready)) ∧
  (∀ c, c ∈ ac_handshakes (acc l') → c ∈ ac_handshakes (acc closed_ready)).
Proof. apply closing_accepts_nothing. vm_compute. reflexivity. Defined.

Lemma closing_drains_witness :
  result (accept_top 2)
    (exec (for_each (ac_handshakes (acc closed_ready))
       (λ c, accept_arm 2 1%nat sn0 (HandshakeDone c);; skip)) closed_ready) = None.
Proof. apply closing_drains. vm_compute. reflexivity. Defined.

Lemma accept_no_lost_wakeup_witness :
  let e1 := one_conn <| ep_accept_wake ::= nt_enable 2 |> in
  let c := mkConfig (e1 <| ep_state := (begin_close 0x100 (str "bye") (ep_state e1)).2 |>) Asleep 1 false in
  wake_up c = true ∨
  ((0 < owed c)%nat ∧ nt_poll 2 (nt_notify_waiters (ep_accept_wake (shared_st c))) = true).
Proof.
  intros e1 c. apply (accept_no_lost_wakeup 2 one_conn); [|done|reflexivity].
  eapply rtc_l; [apply step_arm|]. eapply rtc_l; [apply step_sleep; vm_compute; done|].
  eapply rtc_l; [apply step_publish; by exists 0x100, (str "bye")|]. reflexivity.
Defined.

(** ** The connector *)

Definition connector : H3QuicheConnector := mkConnector EmptyString true EmptyString client_config_default.
Definition bind_any (addr : string) : Result UdpSocket string := Ok (0%nat : UdpSocket).
Definition connect_any (addr : string) (udp : UdpSocket) : Result UdpSocket string := Ok udp.
Definition wrap_any (udp : UdpSocket) : Result UdpSocket string := Ok udp.
(** A transport whose handshake succeeds at once. *)
Definition quick_handshake (socket : UdpSocket) (name : string) (params : ConnectionParams)
    (d : QuicheDriver Segments * Store Segments) : Result W string :=
  Ok (exec on_conn_established (mkWorld d.1 d.2 mock.new)).

Lemma connect_ready_witness :
  match connect bind_any connect_any wrap_any quick_handshake 1%nat connector with
  | Pending => False
  | Ready (Ok (opener, w)) => opener = opener_new ∧ acting (drv w) = true
  | Ready (Err (SetupFailed _)) => False
  | Ready (Err _) => True
  end.
Proof.
  apply (connect_ready bind_any connect_any wrap_any quick_handshake).
  intros socket name params d w [= <-]. by exists mock.new.
Defined.

(** ** The receive arena *)

Definition empty_heap : Heap := mkHeap (λ _ _, x00) [].
Definition two_chunks : MockConn :=
  mock.script_recv 1 [RecvData (str "AAAA") false; RecvData (str "BBBB") true] mock.new.
Definition two_reads : list (ArenaEv MockConn) := [EvRead 1; EvRead 1].

Lemma sharing_is_unobservable_witness :
  held_chunks (exec (run_shared two_reads) (arena_start empty_heap two_chunks)) = [str "AAAA"; str "BBBB"].
Proof.
  destruct (sharing_is_unobservable two_reads empty_heap (start two_chunks)) as (_&Hh&_); [done..|].
  etransitivity; [exact Hh|]. vm_compute. reflexivity.
Defined.

(** Two reads, one reservation, eight bytes. *)
Lemma allocation_is_amortised_witness :
  reserves two_reads (arena_start empty_heap two_chunks) = 1 ∧
  1 * (RECV_ARENA - MAX_CHUNK) ≤ 8 + (RECV_ARENA - MAX_CHUNK).
Proof.
  pose proof (allocation_is_amortised two_reads empty_heap two_chunks eq_refl) as Ha.
  assert (reserves two_reads (arena_start empty_heap two_chunks) = 1) as Hr by (vm_compute; reflexivity).
  assert (bytes_total (result (run_shared two_reads) (arena_start empty_heap two_chunks) ≫= read_bytes) = 8) as Ht
    by (vm_compute; reflexivity).
  cbv zeta in Ha. rewrite Hr, Ht in Ha. by split.
Defined.
